(* ===== verification/_CoqProject ===== *)
-Q . S2P
Prelude.v
Order.v
SortMem.v
SmallSort.v
SmallSortSpec.v
BidirSpec.v
SmallGeneral.v
NetworkSpec.v
Pivot.v
Stable.v
MergeSpec.v
PartitionSpec.v
DriftSpec.v
DriftsortSpec.v
StableSpec.v
Unstable.v
UpartSpec.v
HeapsortSpec.v
UnstableSpec.v
SelectSpec.v
SortTheorems.v
Layout.v
RawVec.v
Cells.v
Vec.v
VecSpec.v
VecTheorems.v
BinaryHeap.v
HeapSpec.v
HeapOps.v
HeapTheorems.v
VecDeque.v
RingSpec.v
DequeSpec.v
DequeBulkSpec.v
DequeMoveSpec.v
DequeRetain.v
DequeTheorems.v
Words.v
AlignOffset.v
Utf8.v
Utf8Check.v
Utf8Spec.v
Utf8CheckSpec.v
Utf8Valid.v
Utf8Bound.v
Utf16Spec.v
Utf8Theorems.v
Strings.v
StringSpec.v
StringTheorems.v
Threads.v
FutexMutex.v
FutexRwLock.v
RwLockSpec.v
RwLockTheorems.v
Once.v
Arc.v
ArcSpec.v
ArcOps.v
ArcTheorems.v
IntArith.v
IntPow.v
IntLog.v
IntSqrt.v
IntFmt.v
IntFmtSpec.v
IntParse.v
IntTheorems.v
Duration.v
DurationSpec.v
DurationFmtSpec.v
DurationFloat.v
DurationTheorems.v
NetAddr.v
NetSpec.v
NetShow.v
NetTheorems.v
