(* ===== verification/Prelude.v ===== *)
(** * Core algorithms, collections and primitives of the Rust standard library

    This development models code of [library/core], [library/alloc] and
    [library/std] of the repository (file names below are relative to
    [src/library]) and proves what that code promises.  Definitions keep the
    names of the Rust functions.

    ** How programs are modelled

    Routines that mutate memory.  [Prelude.v] (this file) has their language: a
    routine is a [prog S A], a function from the memory it can reach to an
    outcome, which is a return, a panic that unwinds, an abort of the process,
    undefined behaviour, or fuel that ran out.  [wp] and [wpa] are the weakest
    preconditions of routines; they give total correctness: under them a routine
    has no undefined behaviour and its loops have fuel enough.  [wpa X] also lets
    the routine abort, but only when [X] holds.  [on_panic] is a drop guard.

    User code (comparisons, predicates, destructors) is a function of a clock
    that counts the calls of user code, so it may answer anything and panic at
    any call; a comparison is lawful when it answers as a strict weak order
    whatever the clock.  Elements are values: references into a collection,
    and elements with interior mutability, are not modelled.  An allocator is a
    predicate [alloc_ok] that says which requests it satisfies.  [elem_ok] is
    the layout of an element type that is not zero-sized; the branches for
    zero-sized types are in the definitions.  Indices are naturals; where 64-bit
    overflow matters a number is an integer with its bounds or its wrapping
    written out.

    Pure routines (integers, characters, durations, addresses) are functions.
    An integer is a [Z] in the range of its type, and [None] stands for a panic,
    for an overflow that a debug build reports and for a broken condition of an
    unchecked operation, so [Some] means that none of them occurs; an [Option] of
    the code is an [option] inside.  A floating-point number is its bits.

    Threads.  [Threads.v]: a primitive gives the points at which a thread can be
    and its next atomic step; a system is the shared memory and the points of
    finitely many threads, and its steps interleave theirs in any order.  Memory
    is sequentially consistent.  The futex calls are the operating system's;
    [futex_wait] may return without a reason.

    ** The parts

    - Sorting and selection, [core/src/slice/sort].  [SortMem.v]: a slice and a
      scratch buffer of cells.  [SmallSort.v] ([shared/smallsort.rs]),
      [Pivot.v] ([shared/pivot.rs], [shared/mod.rs]), [Stable.v] ([stable/]),
      [Unstable.v] ([unstable/], [select.rs]).  [Order.v] has strict weak
      orders, sorted lists, stability, merging of lists and heap order; the
      contracts are in [SmallSortSpec.v], [BidirSpec.v], [SmallGeneral.v],
      [NetworkSpec.v], [MergeSpec.v], [PartitionSpec.v], [DriftSpec.v],
      [DriftsortSpec.v], [StableSpec.v], [UpartSpec.v], [HeapsortSpec.v],
      [UnstableSpec.v] and [SelectSpec.v], and the properties in
      [SortTheorems.v]: both sorts sort, the stable one stably; for a comparison
      that is no order or panics they terminate, stay in bounds and keep every
      element.
    - Allocation.  [Layout.v] ([core/src/alloc/layout.rs], [core/src/ptr/alignment.rs])
      and [RawVec.v] ([alloc/src/raw_vec/mod.rs]): layouts are valid and fail
      exactly when too large; a buffer keeps its block in step with its
      capacity, and the allocator is given the layout of the block whenever it
      reallocates or frees it.  [AlignOffset.v]
      ([core/src/ptr/mod.rs]): [align_offset] gives the least offset that aligns.
    - Containers over a buffer.  [Cells.v]: raw cells, callbacks, destructors.
      [Vec.v] ([alloc/src/vec/mod.rs]) with [VecSpec.v] and [VecTheorems.v];
      [BinaryHeap.v] ([alloc/src/collections/binary_heap]) with [HeapSpec.v],
      [HeapOps.v] and [HeapTheorems.v]; [VecDeque.v]
      ([alloc/src/collections/vec_deque]) with [RingSpec.v], [DequeSpec.v],
      [DequeBulkSpec.v], [DequeMoveSpec.v], [DequeRetain.v] and
      [DequeTheorems.v].  Each refines an abstract container (a list, a bag
      asked for its maximum), and keeps or drops every element exactly once when
      user code panics.
    - Text.  [Words.v]: machine words as bytes, integer types and their
      operators.  [Utf8.v] (characters, [core/src/char], and their encodings) and
      [Utf8Check.v] ([core/src/str]: validation, lossy decoding, boundaries,
      counting) with [Utf8Spec.v], [Utf8CheckSpec.v], [Utf8Valid.v],
      [Utf8Bound.v], [Utf16Spec.v] and [Utf8Theorems.v]: validation accepts
      exactly the encodings of characters, and encoding and decoding are
      inverse.  [Strings.v] ([alloc/src/string.rs]), a client of [Vec], with
      [StringSpec.v] and [StringTheorems.v]: a [String] refines a list of
      characters and stays valid when a predicate panics.
    - Synchronisation, on [Threads.v].  [FutexMutex.v], [FutexRwLock.v]
      with [RwLockSpec.v] and [RwLockTheorems.v], and [Once.v]
      ([std/src/sys/sync]): they exclude and lose no wake-up; those of the
      read-write lock are for fewer than 2^32 notifications.  [Arc.v]
      ([alloc/src/sync.rs]) with [ArcSpec.v], [ArcOps.v] and [ArcTheorems.v]: no
      access to freed memory, the value dropped and the block freed exactly once,
      exact counters, for up to 2^62 threads, an allocator that does not fail and
      handles that operations borrow.
    - Integers, [core/src/num] and [core/src/fmt/num.rs].  [IntArith.v]
      (division), [IntPow.v], [IntLog.v], [IntSqrt.v], [IntFmt.v] with
      [IntFmtSpec.v] (printing), [IntParse.v] (reading) and [IntTheorems.v]:
      exact results for every width and sign, errors and overflow exactly where
      they are documented; reading is inverse to printing, of the two's complement in the
      radixes other than ten.
      [is_val_statically_known] is an arbitrary boolean.
    - Durations, [core/src/time.rs].  [Duration.v] with [DurationSpec.v],
      [DurationFmtSpec.v], [DurationFloat.v] and [DurationTheorems.v]: arithmetic
      on the total of nanoseconds, exact printing, or rounded half up, and the
      conversion from floating-point numbers, rounded to even.
    - Network addresses, [core/src/net].  [NetAddr.v] (printing and a parser
      monad) with [NetSpec.v] (the grammars, and the class [Recognises] that
      the entry points use), [NetShow.v] and [NetTheorems.v]: the parsers
      accept exactly their grammars, and what is printed is read back, but for
      the flow label of a socket address, which is not printed.

    The files of a part are its definitions, named after the Rust module, its
    contracts ([...Spec.v]), and its properties ([...Theorems.v], or the end of
    the file in a small part) with a concrete run of each.

    ** Fuel

    Loops run with fuel.  It is an argument of [loop] in the definitions, taken
    from the lengths at hand (one more than the number of iterations), or for
    recursion a bound on the depth; each contract proves it enough, because
    running out is not a return under [wp].  In the pure routines running out is
    [None]: loops over digits have the width of the type or the size of the
    buffer (10 rounds for the 9 digits of a fraction of a second), the parsers
    one round more than there are characters.  Threads need no fuel: their
    termination is well-foundedness of the step relation.

    ** Not modelled

    Iterators, [Drain] and [Splice] of the containers; zero-sized elements in
    the theorems; weak memory orderings; collections other than those above;
    floating-point arithmetic, printing and parsing; and the parts of the
    library that are bindings: the platform layer, the SIMD intrinsics. *)

From stdpp Require Export base tactics numbers list.
From Stdlib Require Export Lia ZArith ZifyNat.

#[global] Open Scope Z_scope.
#[global] Open Scope nat_scope.

(** * Programs

    A Rust routine that mutates memory is a [prog S A]: a function from the
    memory it can reach to an [outcome].  The four ways a routine can end are
    kept apart, because the theorems treat them differently: a normal return, a
    panic that unwinds (with the memory the unwinding leaves behind), a
    processor abort, and undefined behaviour.  [Exhausted] is the artefact of
    the fuel of a loop. *)

Inductive fault := Undefined | Aborted | Exhausted.

#[global] Instance fault_eq_dec : EqDecision fault.
Proof. solve_decision. Defined.

Inductive outcome (S A : Type) :=
  | Ret (a : A) (s : S)
  | Panic (s : S)
  | Fault (f : fault).
Arguments Ret {S A} a s.
Arguments Panic {S A} s.
Arguments Fault {S A} f.

Definition prog (S A : Type) : Type := S → outcome S A.

#[global] Instance prog_ret S : MRet (prog S) := λ A a s, Ret a s.
#[global] Instance prog_bind S : MBind (prog S) := λ A B k m s,
  match m s with
  | Ret a s' => k a s'
  | Panic s' => Panic s'
  | Fault f => Fault f
  end.

Definition panic {S A} : prog S A := λ s, Panic s.
Definition undefined {S A} : prog S A := λ _, Fault Undefined.
Definition abort {S A} : prog S A := λ _, Fault Aborted.
Definition gets {S A} (f : S → A) : prog S A := λ s, Ret (f s) s.
Definition modify {S} (f : S → S) : prog S () := λ s, Ret () (f s).

(** [assume b] is [intrinsics::assume] / [hint::assert_unchecked]: undefined
    behaviour when the condition is false.  [assert_ b] is [assert!] or
    [debug_assert!]: a panic. *)
Definition assume {S} (b : bool) : prog S () := if b then mret () else undefined.
Definition assert_ {S} (b : bool) : prog S () := if b then mret () else panic.

(** Checked machine subtraction on indices (in a debug build an underflow
    panics, in a release build the index is out of range). *)
Definition usub {S} (a b : nat) : prog S nat := if b <=? a then mret (a - b) else panic.

(** A drop guard: [cleanup] runs when [m] unwinds.  A panic inside a drop that
    runs during unwinding aborts the process. *)
Definition on_panic {S A} (m : prog S A) (cleanup : prog S ()) : prog S A := λ s,
  match m s with
  | Panic s' =>
      match cleanup s' with
      | Ret _ s'' => Panic s''
      | Panic _ => Fault Aborted
      | Fault f => Fault f
      end
  | o => o
  end.

(** Running a routine on a part of the memory: [get] selects the part and
    [put] writes it back, also when the routine unwinds. *)
Definition zoom {S S1 A} (get : S → S1) (put : S1 → S → S) (m : prog S1 A) : prog S A := λ s,
  match m (get s) with
  | Ret a s1 => Ret a (put s1 s)
  | Panic s1 => Panic (put s1 s)
  | Fault f => Fault f
  end.

(** Running a routine on memory of its own, which becomes the result. *)
Definition fresh {S S1} (m : prog S1 ()) (s1 : S1) : prog S S1 := λ s,
  match m s1 with
  | Ret _ s1 => Ret s1 s
  | Panic _ => Panic s
  | Fault f => Fault f
  end.

(** [while]/[loop] with fuel: [step] returns [inl] to go round again with new
    values of the loop's local variables, [inr] to leave the loop. *)
Fixpoint loop {S A B} (fuel : nat) (step : A → prog S (A + B)) (a : A) : prog S B :=
  match fuel with
  | O => λ _, Fault Exhausted
  | S fuel => r ← step a; match r with inl a' => loop fuel step a' | inr b => mret b end
  end.

(** [for i in lo..lo+n]. *)
Fixpoint for_range {S} (n lo : nat) (body : nat → prog S ()) : prog S () :=
  match n with
  | O => mret ()
  | S n => _ ← body lo; for_range n (lo + 1) body
  end.

(** The same loop with local variables [a] updated by the body. *)
Fixpoint for_fold {S A} (n lo : nat) (body : nat → A → prog S A) (a : A) : prog S A :=
  match n with
  | O => mret a
  | S n => a' ← body lo a; for_fold n (lo + 1) body a'
  end.

(** * Weakest preconditions

    [wp m Q P s]: from [s] the routine [m] has no fault of any kind (no
    undefined behaviour, no abort, fuel enough); if it returns, [Q] holds; if it
    unwinds, [P] holds of the memory left behind. *)
Definition wp {S A} (m : prog S A) (Q : A → S → Prop) (P : S → Prop) (s : S) : Prop :=
  match m s with
  | Ret a s' => Q a s'
  | Panic s' => P s'
  | Fault _ => False
  end.

Section wp.
Context {S : Type}.
Implicit Types (s : S) (P : S → Prop).

Lemma wp_ret {A} (a : A) (Q : A → S → Prop) P s : Q a s → wp (mret a) Q P s.
Proof. done. Qed.

Lemma wp_bind {A B} (m : prog S A) (k : A → prog S B) (Q : B → S → Prop) P s :
  wp m (λ a s', wp (k a) Q P s') P s → wp (x ← m; k x) Q P s.
Proof. unfold wp, mbind, prog_bind. destruct (m s); done. Qed.

Lemma wp_bind_inv {A B} (m : prog S A) (k : A → prog S B) (Q : B → S → Prop) P s :
  wp (x ← m; k x) Q P s → wp m (λ a s', wp (k a) Q P s') P s.
Proof. unfold wp, mbind, prog_bind. destruct (m s); done. Qed.

Lemma wp_mono {A} (m : prog S A) (Q Q' : A → S → Prop) P P' s :
  wp m Q P s → (∀ a s', Q a s' → Q' a s') → (∀ s', P s' → P' s') → wp m Q' P' s.
Proof. unfold wp. destruct (m s); auto. Qed.

Lemma wp_and {A} (m : prog S A) (Q Q' : A → S → Prop) P P' s :
  wp m Q P s → wp m Q' P' s →
  wp m (λ a s', Q a s' ∧ Q' a s') (λ s', P s' ∧ P' s') s.
Proof. unfold wp. destruct (m s); auto. Qed.

Lemma wp_gets {A} (f : S → A) (Q : A → S → Prop) P s : Q (f s) s → wp (gets f) Q P s.
Proof. done. Qed.

Lemma wp_modify (f : S → S) (Q : () → S → Prop) P s : Q () (f s) → wp (modify f) Q P s.
Proof. done. Qed.

Lemma wp_panic {A} (Q : A → S → Prop) P s : P s → wp panic Q P s.
Proof. done. Qed.

Lemma wp_assume b (Q : () → S → Prop) P s : b = true → Q () s → wp (assume b) Q P s.
Proof. by intros ->. Qed.

Lemma wp_assert b (Q : () → S → Prop) P s : b = true → Q () s → wp (assert_ b) Q P s.
Proof. by intros ->. Qed.

Lemma wp_usub a b (Q : nat → S → Prop) P s : b ≤ a → Q (a - b) s → wp (usub a b) Q P s.
Proof. intros Hle ?. unfold usub. by rewrite (proj2 (Nat.leb_le b a) Hle). Qed.

Lemma wp_on_panic {A} (m : prog S A) cl (Q : A → S → Prop) P s :
  wp m Q (λ s', wp cl (λ _ s'', P s'') (λ _, False) s') s → wp (on_panic m cl) Q P s.
Proof. unfold wp, on_panic. destruct (m s) as [|s'|]; try done. by destruct (cl s'). Qed.

Lemma wp_zoom {S1 A} (g : S → S1) (p : S1 → S → S) (m : prog S1 A) (Q : A → S → Prop) P s :
  wp m (λ a t, Q a (p t s)) (λ t, P (p t s)) (g s) → wp (zoom g p m) Q P s.
Proof. unfold wp, zoom. by destruct (m (g s)). Qed.

(** Loops: an invariant on the local variables and the memory, and a measure
    that each further iteration decreases, give total correctness. *)
Lemma wp_loop {A B} (I : A → S → Prop) (μ : A → nat)
    (step : A → prog S (A + B)) (Q : B → S → Prop) P :
  (∀ a s, I a s →
     wp (step a) (λ r s', match r with
                          | inl a' => I a' s' ∧ μ a' < μ a
                          | inr b => Q b s'
                          end) P s) →
  ∀ fuel a s, I a s → μ a < fuel → wp (loop fuel step a) Q P s.
Proof.
  intros Hstep fuel. induction fuel as [|fuel IH]; intros a s HI Hμ; [lia|].
  simpl. apply wp_bind. eapply wp_mono; [by apply Hstep| |done].
  intros [a'|b] s'; [|done]. intros [??]. apply IH; [done|lia].
Qed.

Lemma wp_for_range (I : nat → S → Prop) P body n lo s :
  (∀ i s, lo ≤ i < lo + n → I i s → wp (body i) (λ _ s', I (i + 1) s') P s) →
  I lo s →
  wp (for_range n lo body) (λ _ s', I (lo + n) s') P s.
Proof.
  revert lo s. induction n as [|n IH]; intros lo s Hbody HI; simpl.
  - apply wp_ret. by rewrite Nat.add_0_r.
  - apply wp_bind. eapply wp_mono; [by apply Hbody; [lia|]| |done].
    intros [] s' HI'; cbn beta in HI'. replace (lo + Datatypes.S n) with ((lo + 1) + n) by lia.
    apply IH; [|done]. intros i s'' ??. apply Hbody; [lia|done].
Qed.

Lemma wp_for_fold {A} (I : nat → A → S → Prop) P body n lo (a : A) s :
  (∀ i a s, lo ≤ i < lo + n → I i a s → wp (body i a) (λ a' s', I (i + 1) a' s') P s) →
  I lo a s →
  wp (for_fold n lo body a) (λ a' s', I (lo + n) a' s') P s.
Proof.
  revert lo a s. induction n as [|n IH]; intros lo a s Hbody HI; simpl.
  - apply wp_ret. by rewrite Nat.add_0_r.
  - apply wp_bind. eapply wp_mono; [by apply Hbody; [lia|]| |done].
    intros a' s' HI'; cbn beta in HI'.
    replace (lo + Datatypes.S n) with ((lo + 1) + n) by lia.
    apply IH; [|done]. intros i a'' s'' ??. apply Hbody; [lia|done].
Qed.
End wp.

(** [wpa X] is [wp] for routines that may also abort the process, but only when
    [X] holds: an allocation fails, or a destructor panics while a panic unwinds. *)
Definition wpa {S A} (X : Prop) (m : prog S A) (Q : A → S → Prop) (P : S → Prop) (s : S) : Prop :=
  match m s with
  | Ret a s' => Q a s'
  | Panic s' => P s'
  | Fault Aborted => X
  | Fault _ => False
  end.

Section wpa.
Context {S : Type} {X : Prop}.
Implicit Types (s : S) (P : S → Prop).

Lemma wpa_wp {A} (m : prog S A) (Q : A → S → Prop) P s : wp m Q P s → wpa X m Q P s.
Proof. unfold wp, wpa. by destruct (m s). Qed.

Lemma wpa_ret {A} (a : A) (Q : A → S → Prop) P s : Q a s → wpa X (mret a) Q P s.
Proof. done. Qed.

Lemma wpa_bind {A B} (m : prog S A) (k : A → prog S B) (Q : B → S → Prop) P s :
  wpa X m (λ a s', wpa X (k a) Q P s') P s → wpa X (x ← m; k x) Q P s.
Proof. unfold wpa, mbind, prog_bind. by destruct (m s) as [| |[]]. Qed.

Lemma wpa_mono {A} (m : prog S A) (Q Q' : A → S → Prop) P P' s :
  wpa X m Q P s → (∀ a s', Q a s' → Q' a s') → (∀ s', P s' → P' s') → wpa X m Q' P' s.
Proof. unfold wpa. destruct (m s); auto. Qed.

Lemma wpa_on_panic {A} (m : prog S A) cl (Q : A → S → Prop) P s :
  wpa X m Q (λ s', wpa X cl (λ _ s'', P s'') (λ _, X) s') s → wpa X (on_panic m cl) Q P s.
Proof. unfold wpa, on_panic. destruct (m s) as [|s'|]; try done. by destruct (cl s'). Qed.

Lemma wpa_loop {A B} (I : A → S → Prop) (μ : A → nat)
    (step : A → prog S (A + B)) (Q : B → S → Prop) P :
  (∀ a s, I a s →
     wpa X (step a) (λ r s', match r with
                             | inl a' => I a' s' ∧ μ a' < μ a
                             | inr b => Q b s'
                             end) P s) →
  ∀ fuel a s, I a s → μ a < fuel → wpa X (loop fuel step a) Q P s.
Proof.
  intros Hstep fuel. induction fuel as [|fuel IH]; intros a s HI Hμ; [lia|].
  simpl. apply wpa_bind. eapply wpa_mono; [by apply Hstep| |done].
  intros [a'|b] s'; [|by apply wpa_ret]. intros [??]. apply IH; [done|lia].
Qed.

Lemma wpa_fresh {S1} (m : prog S1 ()) (s1 : S1) (Q : S1 → S → Prop) P s :
  wpa X m (λ _ t, Q t s) (λ _, P s) s1 → wpa X (fresh m s1) Q P s.
Proof. unfold wpa, fresh. by destruct (m s1). Qed.

Lemma wpa_zoom {S1 A} (g : S → S1) (p : S1 → S → S) (m : prog S1 A) (Q : A → S → Prop) P s :
  wpa X m (λ a t, Q a (p t s)) (λ t, P (p t s)) (g s) → wpa X (zoom g p m) Q P s.
Proof. unfold wpa, zoom. by destruct (m (g s)). Qed.
End wpa.

(** The condition may be weakened; nothing aborts when it is false. *)
Lemma wpa_weaken {S A} (X Y : Prop) (m : prog S A) (Q : A → S → Prop) P s :
  (X → Y) → wpa X m Q P s → wpa Y m Q P s.
Proof. unfold wpa. destruct (m s) as [| |[]]; auto. Qed.

Lemma wpa_no_abort {S A} (m : prog S A) (Q : A → S → Prop) P s : wpa False m Q P s ↔ wp m Q P s.
Proof. unfold wp, wpa. by destruct (m s) as [| |[]]. Qed.

#[global] Arguments Nat.div : simpl never.
#[global] Arguments Nat.modulo : simpl never.
#[global] Arguments loop : simpl never.
#[global] Arguments for_range : simpl never.
#[global] Arguments for_fold : simpl never.

(** [wp_step] goes past one primitive; side conditions that are arithmetic are
    closed by [lia]. *)
Create HintDb wp discriminated.

Ltac wp_step :=
  first
    [ apply wp_bind
    | apply wp_ret
    | apply wp_gets
    | apply wp_modify
    | apply wp_usub; [lia|]
    | apply wp_on_panic ].

Ltac wp_steps := repeat (wp_step; cbn beta).

(** Case analysis on the booleans of the code. *)
Ltac case_bool :=
  match goal with
  | |- context [ Nat.ltb ?a ?b ] => destruct (Nat.ltb_spec a b)
  | |- context [ Nat.leb ?a ?b ] => destruct (Nat.leb_spec a b)
  | |- context [ Nat.eqb ?a ?b ] => destruct (Nat.eqb_spec a b)
  | |- context [ Z.ltb ?a ?b ] => destruct (Z.ltb_spec a b)
  | |- context [ Z.leb ?a ?b ] => destruct (Z.leb_spec a b)
  | |- context [ Z.eqb ?a ?b ] => destruct (Z.eqb_spec a b)
  end.

(** Case analysis on the run that a [wp] or [wpa] hypothesis speaks about. *)
Tactic Notation "case_run" hyp(H) "as" simple_intropattern(pat) :=
  unfold wp, wpa in H;
  match type of H with match ?run with _ => _ end => destruct run as pat end.

(** [lia] with divisions by constants. *)
Ltac dlia := zify; Z.to_euclidean_division_equations; lia.

(** * Lists seen as memory *)
Section list.
Context {A : Type}.
Implicit Types (l pre post : list A).

Lemma lookup_mid pre x post i : i = length pre → (pre ++ x :: post) !! i = Some x.
Proof. apply list_lookup_middle. Qed.

Lemma insert_mid pre x y post i :
  i = length pre → <[i:=y]> (pre ++ x :: post) = pre ++ y :: post.
Proof. intros ->. by rewrite insert_app_r_alt, Nat.sub_diag by lia. Qed.

Lemma list_snoc_inv l : l ≠ [] → ∃ l' x, l = l' ++ [x].
Proof.
  destruct (list.last l) as [x|] eqn:Hl; intros Hne.
  - apply last_Some in Hl as [l' ->]. eauto.
  - by apply last_None in Hl.
Qed.

Lemma list_split_at l n : n ≤ length l → ∃ l1 l2, l = l1 ++ l2 ∧ length l1 = n.
Proof.
  intros Hn. exists (take n l), (drop n l).
  rewrite take_drop, length_take_le by done. done.
Qed.

Lemma list_split3 l i n : i + n ≤ length l →
  ∃ l1 l2 l3, l = l1 ++ l2 ++ l3 ∧ length l1 = i ∧ length l2 = n.
Proof.
  intros Hn. destruct (list_split_at l i) as (l1&l'&->&?); [lia|].
  rewrite length_app in Hn.
  destruct (list_split_at l' n) as (l2&l3&->&?); [lia|]. eauto 10.
Qed.

Lemma list_nonempty_inv l : 0 < length l → ∃ x l', l = x :: l'.
Proof. destruct l; simpl; [lia|eauto]. Qed.

Lemma list_split_mid l i : i < length l →
  ∃ l1 x l2, l = l1 ++ x :: l2 ∧ length l1 = i.
Proof.
  intros Hi. destruct (list_split3 l i 1) as (l1&l2&l3&->&?&Hl2); [lia|].
  destruct l2 as [|x [|??]]; simpl in *; try lia. exists l1, x, l3. done.
Qed.

(** The range [pre.., pre + length old) of [l] is overwritten with [seg]. *)
Lemma inserts_mid pre old seg post i :
  i = length pre → length seg = length old →
  list_inserts i seg (pre ++ old ++ post) = pre ++ seg ++ post.
Proof.
  intros -> Hlen.
  rewrite <- (Nat.add_0_r (length pre)), list_inserts_app_r. f_equal.
  by apply list_inserts_0_r.
Qed.

(** The start of [rest] is overwritten. *)
Lemma inserts_app pre seg rest j :
  j = length pre → length seg ≤ length rest →
  list_inserts j seg (pre ++ rest) = pre ++ seg ++ drop (length seg) rest.
Proof.
  intros -> Hseg. rewrite <- (take_drop (length seg) rest) at 1.
  by rewrite inserts_mid by (try done; rewrite length_take; lia).
Qed.

Lemma take_drop_mid pre mid post i n :
  i = length pre → n = length mid →
  take n (drop i (pre ++ mid ++ post)) = mid.
Proof. intros -> ->. by rewrite drop_app_length, take_app_length. Qed.
End list.

Create Rewrite HintDb len.
#[export] Hint Rewrite @length_app @length_cons @length_nil @length_fmap @length_insert
  @length_reverse @length_replicate @length_inserts @length_take @length_drop : len.

(** Arithmetic goals about lengths. *)
Ltac len := autorewrite with len in *; simpl in *; lia.
