(* ===== verification/Order.v ===== *)
(** Strict weak orders given by a comparison function, and the reference stable
    sort [isort] that the stable sorting routines of [core::slice::sort] are
    compared with.  Nothing here models code: it is the specification side. *)

From S2P Require Import Prelude.
From stdpp Require Export sorting.

(** What the documentation of [slice::sort_by] asks of [is_less]: a strict weak
    ordering.  Asymmetry and transitivity of "not greater" are enough, the other
    laws follow. *)
Class StrictWeak {T} (lt : T → T → bool) := {
  lt_asym a b : lt a b = true → lt b a = false;
  le_trans a b c : lt b a = false → lt c b = false → lt c a = false;
}.

Section order.
Context {T : Type} (lt : T → T → bool) `{!StrictWeak lt}.
Implicit Types (l : list T) (a b c x y z p : T).

(** [a ≤ b] and the equivalence of elements that compare equal. *)
Definition le a b : Prop := lt b a = false.
Definition eqv a b : bool := negb (lt a b) && negb (lt b a).

#[export] Instance le_dec a b : Decision (le a b).
Proof. unfold le. apply _. Defined.

Lemma le_refl a : le a a.
Proof. unfold le. destruct (lt a a) eqn:H; [|done]. by rewrite (lt_asym _ _ H) in H. Qed.

Lemma le_total a b : le a b ∨ le b a.
Proof. unfold le. destruct (lt b a) eqn:H; [right|by left]. by apply lt_asym. Qed.

#[export] Instance le_preorder : PreOrder le.
Proof. split; [exact le_refl|]. intros a b c ??. by apply (le_trans a b c). Qed.

#[export] Instance le_tot : Total le.
Proof. exact le_total. Qed.

Lemma lt_le a b : lt a b = true → le a b.
Proof. apply lt_asym. Qed.

Lemma lt_le_trans a b c : lt a b = true → le b c → lt a c = true.
Proof.
  unfold le. intros H1 H2. destruct (lt a c) eqn:H3; [done|].
  rewrite (le_trans b c a) in H1; done.
Qed.

Lemma le_lt_trans a b c : le a b → lt b c = true → lt a c = true.
Proof.
  unfold le. intros H1 H2. destruct (lt a c) eqn:H3; [done|].
  rewrite (le_trans c a b) in H2; done.
Qed.

Lemma lt_trans a b c : lt a b = true → lt b c = true → lt a c = true.
Proof. intros H1 H2. eapply lt_le_trans; [done|by apply lt_le]. Qed.

Lemma eqv_spec a b : eqv a b = true ↔ le a b ∧ le b a.
Proof. unfold eqv, le. destruct (lt a b), (lt b a); simpl; intuition congruence. Qed.

Lemma eqv_refl a : eqv a a = true.
Proof. apply eqv_spec; split; apply le_refl. Qed.

Lemma eqv_sym a b : eqv a b = eqv b a.
Proof. unfold eqv. apply andb_comm. Qed.

Lemma eqv_trans a b c : eqv a b = true → eqv b c = true → eqv a c = true.
Proof. rewrite !eqv_spec. intros [??] [??]. split; by etrans. Qed.

Lemma lt_not_eqv a b : lt a b = true → eqv a b = false.
Proof. unfold eqv. by intros ->. Qed.

(** ** Sorted lists and the reference sort *)
Definition sorted l : Prop := StronglySorted le l.

Fixpoint ins x l : list T :=
  match l with
  | [] => [x]
  | y :: l' => if lt y x then y :: ins x l' else x :: y :: l'
  end.

Fixpoint isort l : list T :=
  match l with
  | [] => []
  | x :: l' => ins x (isort l')
  end.

(** Two lists with, for every class of equal elements, the same elements of
    the class in the same order: what a stable sort preserves. *)
Record stable_eq l1 l2 : Prop := StableEq {
  stable_eq_at : ∀ p, List.filter (eqv p) l1 = List.filter (eqv p) l2;
}.

#[export] Instance stable_eq_equiv : Equivalence stable_eq.
Proof.
  split; [done| |].
  - intros l1 l2 [H]. split. intros p. by rewrite H.
  - intros l1 l2 l3 [H1] [H2]. split. intros p. by rewrite H1, H2.
Qed.

#[export] Instance stable_eq_app : Proper (stable_eq ==> stable_eq ==> stable_eq) (@app T).
Proof. intros l1 l2 [H] l3 l4 [H']. split. intros p. by rewrite !List.filter_app, H, H'. Qed.

#[export] Instance stable_eq_cons x : Proper (stable_eq ==> stable_eq) (cons x).
Proof. intros l1 l2 [H]. split. intros p. simpl. by rewrite H. Qed.

Lemma filter_none (f : T → bool) l : Forall (λ y, f y = false) l → List.filter f l = [].
Proof. induction 1 as [|y l Hy ? IH]; simpl; [done|]. by rewrite Hy. Qed.

Lemma filter_all (f : T → bool) l : Forall (λ y, f y = true) l → List.filter f l = l.
Proof. induction 1 as [|y l Hy ? IH]; simpl; [done|]. by rewrite Hy, IH. Qed.

(** Elements of different classes commute. *)
Lemma stable_eq_swap x l :
  Forall (λ y, eqv x y = false) l → stable_eq (x :: l) (l ++ [x]).
Proof.
  intros Hl. split. intros p. rewrite List.filter_app. simpl.
  destruct (eqv p x) eqn:Hp; [|by rewrite app_nil_r].
  rewrite filter_none; [done|]. eapply Forall_impl; [done|]. intros y Hy; simpl.
  destruct (eqv p y) eqn:Hpy; [|done]. cbn beta in Hy.
  rewrite eqv_sym in Hp. by rewrite (eqv_trans x p y) in Hy.
Qed.

(** A predicate that does not separate equal elements splits a list stably. *)
Lemma stable_eq_filter (f : T → bool) l :
  (∀ a b, eqv a b = true → f a = f b) →
  stable_eq l (List.filter f l ++ List.filter (λ y, negb (f y)) l).
Proof.
  intros Hf. split. intros p. rewrite List.filter_app.
  destruct (f p) eqn:Hp.
  - rewrite (filter_none (eqv p) (List.filter (λ y, negb (f y)) l)).
    + rewrite app_nil_r. induction l as [|y l IH]; simpl; [done|].
      destruct (eqv p y) eqn:Hy; destruct (f y) eqn:Hfy; simpl; rewrite ?Hy, ?IH; try done.
      by rewrite (Hf p y), Hfy in Hp.
    + apply List.Forall_forall. intros y [_ Hy]%List.filter_In.
      destruct (eqv p y) eqn:He; [|done]. apply Hf in He. rewrite <- He, Hp in Hy. done.
  - rewrite (filter_none (eqv p) (List.filter f l)).
    + simpl. induction l as [|y l IH]; simpl; [done|].
      destruct (eqv p y) eqn:Hy; destruct (f y) eqn:Hfy; simpl; rewrite ?Hy, ?IH; try done.
      by rewrite (Hf p y), Hfy in Hp.
    + apply List.Forall_forall. intros y [_ Hy]%List.filter_In.
      destruct (eqv p y) eqn:He; [|done]. apply Hf in He. by rewrite <- He, Hp in Hy.
Qed.

Lemma ins_Permutation x l : ins x l ≡ₚ x :: l.
Proof.
  induction l as [|y l IH]; simpl; [done|]. destruct (lt y x); [|done].
  by rewrite IH, Permutation_swap.
Qed.

Lemma isort_Permutation l : isort l ≡ₚ l.
Proof. induction l as [|x l IH]; simpl; [done|]. by rewrite ins_Permutation, IH. Qed.

Lemma elem_of_isort x l : x ∈ isort l ↔ x ∈ l.
Proof. by rewrite isort_Permutation. Qed.

Lemma ins_sorted x l : sorted l → sorted (ins x l).
Proof.
  induction 1 as [|y l Hl IH Hy]; simpl; [by repeat constructor|].
  destruct (lt y x) eqn:Hyx.
  - constructor; [done|]. rewrite ins_Permutation. constructor; [by apply lt_le|done].
  - assert (le x y) by done. constructor; [by constructor|].
    constructor; [done|]. eapply Forall_impl; [done|]. intros z ?; simpl. by etrans.
Qed.

Lemma isort_sorted l : sorted (isort l).
Proof. induction l as [|x l IH]; simpl; [by constructor|]. by apply ins_sorted. Qed.

Lemma ins_stable x l : stable_eq (ins x l) (x :: l).
Proof.
  induction l as [|y l IH]; simpl; [done|]. destruct (lt y x) eqn:Hyx; [|done].
  rewrite IH. split. intros p; simpl.
  destruct (eqv p y) eqn:Hy, (eqv p x) eqn:Hx; try done.
  apply lt_not_eqv in Hyx. rewrite eqv_sym in Hy.
  by rewrite (eqv_trans y p x) in Hyx.
Qed.

Lemma isort_stable l : stable_eq (isort l) l.
Proof. induction l as [|x l IH]; simpl; [done|]. by rewrite ins_stable, IH. Qed.

Lemma sorted_cons_inv x l : sorted (x :: l) → sorted l ∧ Forall (le x) l.
Proof. by inversion 1. Qed.

Lemma sorted_app l1 l2 :
  sorted (l1 ++ l2) ↔ sorted l1 ∧ sorted l2 ∧ Forall (λ x, Forall (le x) l2) l1.
Proof.
  induction l1 as [|x l1 IH]; simpl.
  - split; [|by intros (_&?&_)]. intros. split_and!; [constructor|done|constructor].
  - split.
    + intros [Hs Hx]%sorted_cons_inv. apply IH in Hs as (?&?&?).
      apply Forall_app in Hx as [??].
      split; [by constructor|]. split; [done|by constructor].
    + intros ([??]%sorted_cons_inv&?&[??]%Forall_cons).
      constructor; [by apply IH|]. by apply Forall_app.
Qed.

Lemma stable_eq_nil_l l : stable_eq [] l → l = [].
Proof.
  intros [H]. destruct l as [|x l]; [done|]. specialize (H x). simpl in H.
  by rewrite eqv_refl in H.
Qed.

Lemma stable_eq_in l1 l2 x : stable_eq l1 l2 → x ∈ l1 → x ∈ l2.
Proof.
  intros [H] Hx. apply list_elem_of_In.
  assert (List.In x (List.filter (eqv x) l2)) as [? _]%List.filter_In; [|done].
  rewrite <- H. apply List.filter_In. split; [by apply list_elem_of_In|apply eqv_refl].
Qed.

(** A sorted list is determined by its classes: the stable sort of a list is
    unique. *)
Lemma sorted_stable_unique l1 l2 :
  sorted l1 → sorted l2 → stable_eq l1 l2 → l1 = l2.
Proof.
  intros Hs1. revert l2. induction Hs1 as [|x l1 Hs1 IH Hx]; intros l2 Hs2 Heq.
  { by apply stable_eq_nil_l in Heq. }
  destruct Hs2 as [|y l2 Hs2 Hy].
  { symmetry in Heq. by apply stable_eq_nil_l in Heq. }
  assert (le y x) as Hyx.
  { assert (x ∈ y :: l2) as Hin by (eapply stable_eq_in; [done|by left]).
    apply elem_of_cons in Hin as [->|Hin]; [apply le_refl|].
    rewrite Forall_forall in Hy. auto. }
  assert (le x y) as Hxy.
  { assert (y ∈ x :: l1) as Hin by (eapply stable_eq_in; [by symmetry|by left]).
    apply elem_of_cons in Hin as [->|Hin]; [apply le_refl|].
    rewrite Forall_forall in Hx. auto. }
  assert (x = y) as <-.
  { destruct Heq as [Heq]. specialize (Heq x). simpl in Heq. rewrite eqv_refl in Heq.
    assert (eqv x y = true) as He by by apply eqv_spec.
    rewrite He in Heq. by injection Heq. }
  f_equal. apply IH; [done|]. split. intros p. destruct Heq as [Heq]. specialize (Heq p). simpl in Heq.
  destruct (eqv p x); [by injection Heq|done].
Qed.

Lemma isort_unique l l' : sorted l' → stable_eq l' l → l' = isort l.
Proof.
  intros. apply sorted_stable_unique; [done|apply isort_sorted|].
  by rewrite isort_stable.
Qed.

#[export] Instance isort_proper : Proper (stable_eq ==> eq) isort.
Proof.
  intros l1 l2 H. apply isort_unique; [apply isort_sorted|]. by rewrite isort_stable.
Qed.

Lemma isort_id l : sorted l → isort l = l.
Proof. intros. symmetry. by apply isort_unique. Qed.

Lemma stable_eq_Permutation l1 l2 : stable_eq l1 l2 → l1 ≡ₚ l2.
Proof.
  intros H. rewrite <- (isort_Permutation l1), <- (isort_Permutation l2).
  by rewrite H.
Qed.

(** ** The algebra of stable sorting, one law per building block *)

(** Sorting the parts first does not change the result. *)
Lemma isort_app l1 l2 : isort (isort l1 ++ isort l2) = isort (l1 ++ l2).
Proof. apply isort_proper. by rewrite !isort_stable. Qed.

Lemma isort_isort l : isort (isort l) = isort l.
Proof. apply isort_proper, isort_stable. Qed.

(** Insertion at the end (insertion sort). *)
Lemma isort_insert_last l1 l2 x :
  sorted (l1 ++ l2) → Forall (λ y, le y x) l1 → Forall (λ y, lt x y = true) l2 →
  isort ((l1 ++ l2) ++ [x]) = l1 ++ x :: l2.
Proof.
  intros Hs H1 H2. symmetry. apply sorted_app in Hs as (?&?&H12). apply isort_unique.
  - apply sorted_app. split; [done|]. split.
    + constructor; [done|]. eapply Forall_impl; [done|]. intros ??; simpl. by apply lt_le.
    + apply Forall_forall. intros y Hy. rewrite Forall_forall in H1, H12.
      constructor; auto.
  - rewrite <- app_assoc. apply stable_eq_app; [done|]. apply stable_eq_swap.
    eapply Forall_impl; [done|]. intros y ?; simpl. by apply lt_not_eqv.
Qed.

Lemma stable_eq_comm l1 l2 :
  (∀ x y, x ∈ l1 → y ∈ l2 → eqv x y = false) → stable_eq (l1 ++ l2) (l2 ++ l1).
Proof.
  induction l1 as [|x l1 IH]; intros H; simpl; [by rewrite app_nil_r|].
  rewrite IH by (intros; apply H; [by right|done]).
  rewrite app_comm_cons, (cons_middle x l2 l1), app_assoc.
  apply stable_eq_app; [|done]. apply stable_eq_swap. apply Forall_forall.
  intros y ?. apply H; [by left|done].
Qed.

(** A list that falls apart stably into a lower and an upper part. *)
Lemma isort_split l1 l2 l :
  stable_eq (l1 ++ l2) l → (∀ x y, x ∈ l1 → y ∈ l2 → le x y) →
  isort l = isort l1 ++ isort l2.
Proof.
  intros Heq Hle. symmetry. apply isort_unique.
  - apply sorted_app. split; [apply isort_sorted|]. split; [apply isort_sorted|].
    apply Forall_forall. intros x Hx. apply Forall_forall. intros y Hy.
    rewrite elem_of_isort in Hx, Hy. auto.
  - by rewrite !isort_stable.
Qed.

(** Partitioning around a pivot (quicksort). *)
Lemma isort_partition (f : T → bool) l :
  (∀ a b, f b = true → f a = false → le b a) →
  (∀ a b, eqv a b = true → f a = f b) →
  isort l = isort (List.filter f l) ++ isort (List.filter (λ y, negb (f y)) l).
Proof.
  intros Hf Hcl. apply isort_split.
  - symmetry. by apply stable_eq_filter.
  - intros x y [_ Hx]%list_elem_of_In%List.filter_In [_ Hy]%list_elem_of_In%List.filter_In.
    apply Hf; [done|]. by apply negb_true_iff.
Qed.

Lemma lt_eqv_l p a b : eqv a b = true → lt a p = lt b p.
Proof.
  intros [Hab Hba]%eqv_spec. destruct (lt a p) eqn:H1, (lt b p) eqn:H2; try done.
  - by rewrite (le_lt_trans b a p) in H2.
  - by rewrite (le_lt_trans a b p) in H1.
Qed.

Lemma lt_eqv_r p a b : eqv a b = true → lt p a = lt p b.
Proof.
  intros [Hab Hba]%eqv_spec. destruct (lt p a) eqn:H1, (lt p b) eqn:H2; try done.
  - by rewrite (lt_le_trans p a b) in H2.
  - by rewrite (lt_le_trans p b a) in H1.
Qed.

(** Elements of one class are already sorted. *)
Lemma sorted_same_class l : (∀ a b, a ∈ l → b ∈ l → le a b) → sorted l.
Proof.
  induction l as [|x l IH]; intros H; constructor.
  - apply IH. intros a b ??. apply H; by right.
  - apply Forall_forall. intros y ?. apply H; [by left|by right].
Qed.

(** A strictly descending list read backwards is its stable sort. *)
Lemma isort_reverse_desc l :
  StronglySorted (λ a b, lt b a = true) l → isort l = reverse l.
Proof.
  intros Hl. symmetry. apply isort_unique.
  - induction Hl as [|x l Hl IH Hx]; [constructor|].
    rewrite reverse_cons. apply sorted_app. split; [done|].
    split; [by repeat constructor|]. rewrite Forall_reverse.
    eapply Forall_impl; [done|]. intros; simpl. constructor; [by apply lt_le|done].
  - induction Hl as [|x l Hl IH Hx]; [done|].
    rewrite reverse_cons, IH. symmetry. apply stable_eq_swap.
    eapply Forall_impl; [done|]. intros y ?; simpl. rewrite eqv_sym. by apply lt_not_eqv.
Qed.
End order.

(** * Merging two sorted lists

    A stable merge of [A] and [B] passes through states [(p, q)]: the first [p]
    elements of [A] and the first [q] of [B] come before all others.  Merging
    from the front and from the back meet in the same states. *)
Section cut.
Context {T : Type} (lt : T → T → bool) `{!StrictWeak lt} (A B : list T).
Implicit Types (p q : nat).

Definition cut p q : Prop := ∀ i j x y,
  A !! i = Some x → B !! j = Some y →
  (p ≤ i → j < q → lt y x = true) ∧ (i < p → q ≤ j → lt y x = false).

Lemma cut_0 : cut 0 0.
Proof. intros i j x y ??. lia. Qed.

Lemma cut_full : cut (length A) (length B).
Proof.
  intros i j x y Hi%lookup_lt_Some Hj%lookup_lt_Some. lia.
Qed.

(** The states of a merge are on one path. *)
Lemma cut_path p q u w :
  cut p q → cut u w → p < u → w < q → u ≤ length A → q ≤ length B → False.
Proof.
  intros H1 H2 ????.
  destruct (lookup_lt_is_Some_2 A p) as [x Hx]; [lia|].
  destruct (lookup_lt_is_Some_2 B w) as [y Hy]; [lia|].
  destruct (H1 p w x y Hx Hy) as [Ht _]. destruct (H2 p w x y Hx Hy) as [_ Hf].
  rewrite Ht in Hf by lia. by discriminate Hf; lia.
Qed.

Lemma cut_eq p q u w :
  cut p q → cut u w → p + q = u + w →
  p ≤ length A → q ≤ length B → u ≤ length A → w ≤ length B → p = u ∧ q = w.
Proof.
  intros H1 H2 ?????. destruct (decide (p < u)).
  { destruct (cut_path p q u w H1 H2); lia. }
  destruct (decide (u < p)); [|lia]. destruct (cut_path u w p q H2 H1); lia.
Qed.

Lemma sorted_lookup (l : list T) i j x y :
  sorted lt l → l !! i = Some x → l !! j = Some y → i ≤ j → le lt x y.
Proof.
  intros Hs. revert i j. induction Hs as [|z l Hs IH Hz]; intros i j Hx Hy Hij; [done|].
  destruct i as [|i], j as [|j]; simpl in *; try lia.
  - simplify_eq. done.
  - simplify_eq. rewrite Forall_forall in Hz. apply Hz. by eapply list_elem_of_lookup_2.
  - eapply IH; [done|done|lia].
Qed.

Lemma cut_take_A p q x :
  sorted lt B → cut p q → A !! p = Some x →
  (∀ y, B !! q = Some y → lt y x = false) → cut (S p) q.
Proof.
  intros HB Hc Hx Hxy i j x' y' Hi Hj. destruct (Hc i j x' y' Hi Hj) as [H1 H2].
  split; intros ??; [apply H1; lia|].
  destruct (decide (i = p)) as [->|]; [|apply H2; lia].
  rewrite Hx in Hi. injection Hi as <-.
  destruct (lookup_lt_is_Some_2 B q) as [y Hy]; [apply lookup_lt_Some in Hj; lia|].
  apply (le_trans x y y'); [by apply Hxy|]. by eapply (sorted_lookup B q j).
Qed.

Lemma cut_take_B p q y :
  sorted lt A → cut p q → B !! q = Some y →
  (∀ x, A !! p = Some x → lt y x = true) → cut p (S q).
Proof.
  intros HA Hc Hy Hxy i j x' y' Hi Hj. destruct (Hc i j x' y' Hi Hj) as [H1 H2].
  split; intros ??; [|apply H2; lia].
  destruct (decide (j = q)) as [->|]; [|apply H1; lia].
  rewrite Hy in Hj. injection Hj as <-.
  destruct (lookup_lt_is_Some_2 A p) as [x Hx]; [apply lookup_lt_Some in Hi; lia|].
  eapply (lt_le_trans lt y x x'); [by apply Hxy|]. by eapply (sorted_lookup A p i).
Qed.

Lemma cut_drop_A u w x y :
  sorted lt B → cut (S u) (S w) → A !! u = Some x → B !! w = Some y →
  lt y x = true → cut u (S w).
Proof.
  intros HB Hc Hx Hy Hxy i j x' y' Hi Hj. destruct (Hc i j x' y' Hi Hj) as [H1 H2].
  split; intros ??; [|apply H2; lia].
  destruct (decide (i = u)) as [->|]; [|apply H1; lia].
  rewrite Hx in Hi. injection Hi as <-.
  eapply (le_lt_trans lt y' y x); [|done]. eapply (sorted_lookup B j w); [done..|lia].
Qed.

Lemma cut_drop_B u w x y :
  sorted lt A → cut (S u) (S w) → A !! u = Some x → B !! w = Some y →
  lt y x = false → cut (S u) w.
Proof.
  intros HA Hc Hx Hy Hxy i j x' y' Hi Hj. destruct (Hc i j x' y' Hi Hj) as [H1 H2].
  split; intros ??; [apply H1; lia|].
  destruct (decide (j = w)) as [->|]; [|apply H2; lia].
  rewrite Hy in Hj. injection Hj as <-.
  apply (le_trans x' x y); [|done]. eapply (sorted_lookup A i u); [done..|lia].
Qed.

(** Membership in the parts. *)
Lemma elem_of_take_lookup (l : list T) n x :
  x ∈ take n l ↔ ∃ i, l !! i = Some x ∧ i < n.
Proof. apply elem_of_take. Qed.

Lemma elem_of_drop_lookup (l : list T) n x :
  x ∈ drop n l ↔ ∃ i, l !! i = Some x ∧ n ≤ i.
Proof.
  rewrite list_elem_of_lookup. split.
  - intros [i Hi]. rewrite lookup_drop in Hi. exists (n + i). split; [done|lia].
  - intros (i&Hi&?). exists (i - n). rewrite lookup_drop.
    by replace (n + (i - n)) with i by lia.
Qed.

Lemma cut_take_drop_le p q :
  sorted lt A → sorted lt B → cut p q →
  ∀ x y, x ∈ take p A ++ take q B → y ∈ drop p A ++ drop q B → le lt x y.
Proof.
  intros HA HB Hc x y Hx Hy.
  apply elem_of_app in Hx as [(i&Hi&?)%elem_of_take_lookup|(i&Hi&?)%elem_of_take_lookup];
  apply elem_of_app in Hy as [(j&Hj&?)%elem_of_drop_lookup|(j&Hj&?)%elem_of_drop_lookup].
  - eapply (sorted_lookup A i j); [done..|lia].
  - by apply (Hc i j x y).
  - apply lt_le; [done|]. by apply (Hc j i y x).
  - eapply (sorted_lookup B i j); [done..|lia].
Qed.

Lemma cut_stable_eq p q :
  cut p q →
  stable_eq lt ((take p A ++ take q B) ++ (drop p A ++ drop q B)) (A ++ B).
Proof.
  intros Hc. rewrite <- (take_drop p A) at 3. rewrite <- (take_drop q B) at 3.
  rewrite <- !app_assoc. apply stable_eq_app; [done|]. rewrite !app_assoc.
  apply stable_eq_app; [|done]. apply stable_eq_comm; [done|].
  intros y x (j&Hj&?)%elem_of_take_lookup (i&Hi&?)%elem_of_drop_lookup.
  apply lt_not_eqv. by apply (Hc i j x y).
Qed.

(** In a state of the merge the sorted list falls apart at the cut. *)
Lemma isort_cut p q :
  sorted lt A → sorted lt B → cut p q →
  isort lt (A ++ B) = isort lt (take p A ++ take q B) ++ isort lt (drop p A ++ drop q B).
Proof.
  intros. apply isort_split; [done|by apply cut_stable_eq|by apply cut_take_drop_le].
Qed.

Lemma drop_lookup (l : list T) i x : l !! i = Some x → drop i l = x :: drop (S i) l.
Proof. apply drop_S. Qed.

(** One step of the merge, at either end. *)
Lemma isort_front_A p q x :
  cut p q → cut (S p) q → sorted lt A → A !! p = Some x →
  isort lt (take (S p) A ++ take q B) = isort lt (take p A ++ take q B) ++ [x].
Proof.
  intros Hc Hc' HA Hx. rewrite (take_S_r _ _ x) by done.
  change [x] with (isort lt [x]). apply isort_split; [done| |].
  - rewrite <- !app_assoc. apply stable_eq_app; [done|]. symmetry.
    apply stable_eq_comm; [done|]. intros ? y ->%list_elem_of_singleton (j&Hj&?)%elem_of_take_lookup.
    rewrite eqv_sym. apply lt_not_eqv. by apply (Hc p j x y).
  - intros y ? Hy ->%list_elem_of_singleton.
    apply elem_of_app in Hy as [(i&Hi&?)%elem_of_take_lookup|(j&Hj&?)%elem_of_take_lookup].
    + eapply (sorted_lookup A i p); [done..|lia].
    + apply lt_le; [done|]. by apply (Hc p j x y).
Qed.

Lemma isort_front_B p q y :
  cut p q → cut p (S q) → sorted lt B → B !! q = Some y →
  isort lt (take p A ++ take (S q) B) = isort lt (take p A ++ take q B) ++ [y].
Proof.
  intros Hc Hc' HB Hy. rewrite (take_S_r B _ y) by done.
  change [y] with (isort lt [y]). apply isort_split; [done|by rewrite app_assoc|].
  intros x ? Hx ->%list_elem_of_singleton.
  apply elem_of_app in Hx as [(i&Hi&?)%elem_of_take_lookup|(j&Hj&?)%elem_of_take_lookup].
  - by apply (Hc i q x y).
  - eapply (sorted_lookup B j q); [done..|lia].
Qed.

Lemma isort_back_A u w x :
  cut (S u) w → cut u w → sorted lt A → A !! u = Some x →
  isort lt (drop u A ++ drop w B) = x :: isort lt (drop (S u) A ++ drop w B).
Proof.
  intros Hc Hc' HA Hx. rewrite (drop_lookup A u x) by done.
  change (x :: ?l) with (isort lt [x] ++ l). apply isort_split; [done..|].
  intros ? y ->%list_elem_of_singleton Hy.
  apply elem_of_app in Hy as [(i&Hi&?)%elem_of_drop_lookup|(j&Hj&?)%elem_of_drop_lookup].
  - eapply (sorted_lookup A u i); [done..|lia].
  - by apply (Hc u j x y); [..|lia|].
Qed.

Lemma isort_back_B u w y :
  cut u (S w) → cut u w → sorted lt B → B !! w = Some y →
  isort lt (drop u A ++ drop w B) = y :: isort lt (drop u A ++ drop (S w) B).
Proof.
  intros Hc Hc' HB Hy. rewrite (drop_lookup B w y) by done.
  change (y :: isort lt ?l) with (isort lt [y] ++ isort lt l). apply isort_split; [done| |].
  - rewrite (cons_middle y (drop u A)), !app_assoc.
    apply stable_eq_app; [|done]. apply stable_eq_comm; [done|].
    intros ? x ->%list_elem_of_singleton (i&Hi&?)%elem_of_drop_lookup.
    apply lt_not_eqv. apply (Hc i w x y); [done..|lia].
  - intros ? x ->%list_elem_of_singleton Hx.
    apply elem_of_app in Hx as [(i&Hi&?)%elem_of_drop_lookup|(j&Hj&?)%elem_of_drop_lookup].
    + apply lt_le; [done|]. apply (Hc i w x y); [done..|lia].
    + eapply (sorted_lookup B w j); [done..|lia].
Qed.

(** ** The two ends of a merge

    [front L p q F]: the output so far [F] is made of the first [p] elements of
    [A] and [q] of [B]; when [L] holds and the inputs are sorted, it is the
    sorted list of these and no element has to come before them any more.
    [back] is the mirror image, for a merge from the back. *)
Definition front (L : Prop) p q (F : list T) : Prop :=
  F ≡ₚ take p A ++ take q B ∧
  (L → sorted lt A → sorted lt B → cut p q ∧ F = isort lt (take p A ++ take q B)).

Definition back (L : Prop) u w (G : list T) : Prop :=
  G ≡ₚ drop u A ++ drop w B ∧
  (L → sorted lt A → sorted lt B → cut u w ∧ G = isort lt (drop u A ++ drop w B)).

Lemma front_0 L : front L 0 0 [].
Proof. split; [done|]. intros _ _ _. split; [apply cut_0|done]. Qed.

Lemma back_full L : back L (length A) (length B) [].
Proof.
  split; [by rewrite !drop_all|]. intros _ _ _. split; [apply cut_full|].
  by rewrite !drop_all.
Qed.

Lemma front_step_A L p q F x :
  front L p q F → A !! p = Some x → (L → ∀ y, B !! q = Some y → lt y x = false) →
  front L (S p) q (F ++ [x]).
Proof.
  intros [Hp Ho] Hx Hlt. split.
  - rewrite (take_S_r _ _ x) by done. rewrite Hp, <- !app_assoc.
    by rewrite (Permutation_app_comm [x]).
  - intros HL HA HB. destruct (Ho HL HA HB) as [Hc ->].
    assert (cut (S p) q) as Hc' by (eapply cut_take_A; eauto).
    split; [done|]. symmetry. by apply isort_front_A.
Qed.

Lemma front_step_B L p q F y :
  front L p q F → B !! q = Some y → (L → ∀ x, A !! p = Some x → lt y x = true) →
  front L p (S q) (F ++ [y]).
Proof.
  intros [Hp Ho] Hy Hlt. split.
  - rewrite (take_S_r B _ y) by done. by rewrite Hp, <- !app_assoc.
  - intros HL HA HB. destruct (Ho HL HA HB) as [Hc ->].
    assert (cut p (S q)) as Hc' by (eapply cut_take_B; eauto).
    split; [done|]. symmetry. by apply isort_front_B.
Qed.

Lemma back_step_A L u w G x y :
  back L (S u) (S w) G → A !! u = Some x → B !! w = Some y → (L → lt y x = true) →
  back L u (S w) (x :: G).
Proof.
  intros [Hp Ho] Hx Hy Hlt. split.
  - by rewrite (drop_lookup _ u x), Hp by done.
  - intros HL HA HB. destruct (Ho HL HA HB) as [Hc ->].
    assert (cut u (S w)) as Hc' by (eapply cut_drop_A; eauto).
    split; [done|]. symmetry. by apply isort_back_A.
Qed.

Lemma back_step_B L u w G x y :
  back L (S u) (S w) G → A !! u = Some x → B !! w = Some y → (L → lt y x = false) →
  back L (S u) w (y :: G).
Proof.
  intros [Hp Ho] Hx Hy Hlt. split.
  - rewrite (drop_lookup B w y), Hp by done. apply Permutation_middle.
  - intros HL HA HB. destruct (Ho HL HA HB) as [Hc ->].
    assert (cut (S u) w) as Hc' by (eapply cut_drop_B; eauto).
    split; [done|]. symmetry. by apply isort_back_B.
Qed.

Lemma front_back_meet L p q F u w G :
  front L p q F → back L u w G → p + q = u + w →
  p ≤ length A → q ≤ length B → u ≤ length A → w ≤ length B →
  L → sorted lt A → sorted lt B → p = u ∧ q = w.
Proof.
  intros [_ Hf] [_ Hb] ????? HL HA HB.
  destruct (Hf HL HA HB) as [? _], (Hb HL HA HB) as [? _]. by apply cut_eq.
Qed.

Lemma front_back_join L p q F G :
  front L p q F → back L p q G →
  F ++ G ≡ₚ A ++ B ∧ (L → sorted lt A → sorted lt B → F ++ G = isort lt (A ++ B)).
Proof.
  intros [Hf Hf'] [Hb Hb']. split.
  - rewrite Hf, Hb. rewrite <- (take_drop p A) at 3. rewrite <- (take_drop q B) at 3.
    rewrite <- !app_assoc. f_equiv. rewrite !app_assoc. f_equiv. apply Permutation_app_comm.
  - intros HL HA HB. destruct (Hf' HL HA HB) as [? ->], (Hb' HL HA HB) as [_ ->].
    symmetry. by apply isort_cut.
Qed.

(** One of the inputs is used up: the rest of the other follows. *)
Lemma front_finish L p q F :
  front L p q F → p = length A ∨ q = length B → L → sorted lt A → sorted lt B →
  F ++ drop p A ++ drop q B = isort lt (A ++ B).
Proof.
  intros [_ Hf] Hpq HL HA HB. destruct (Hf HL HA HB) as [Hc ->].
  rewrite (isort_cut p q) by done. f_equal. symmetry. apply isort_id; [done|].
  rewrite <- (take_drop p A), <- (take_drop q B) in *.
  apply sorted_app in HA as (_&HA&_), HB as (_&HB&_). rewrite !take_drop in *.
  destruct Hpq as [-> | ->]; rewrite drop_all, ?app_nil_r; done.
Qed.

Lemma back_finish L u w G :
  back L u w G → u = 0 ∨ w = 0 → L → sorted lt A → sorted lt B →
  take u A ++ take w B ++ G = isort lt (A ++ B).
Proof.
  intros [_ Hb] Huw HL HA HB. destruct (Hb HL HA HB) as [Hc ->].
  rewrite (isort_cut u w), app_assoc by done. f_equal. symmetry. apply isort_id; [done|].
  rewrite <- (take_drop u A), <- (take_drop w B) in *.
  apply sorted_app in HA as (HA&_&_), HB as (HB&_&_). rewrite !take_drop in *.
  destruct Huw as [-> | ->]; rewrite take_0, ?app_nil_r; done.
Qed.

Lemma front_Permutation L p q F : front L p q F → F ++ drop p A ++ drop q B ≡ₚ A ++ B.
Proof.
  intros [Hp _]. rewrite Hp. rewrite <- (take_drop p A) at 3. rewrite <- (take_drop q B) at 3.
  rewrite <- !app_assoc. f_equiv. rewrite !app_assoc. f_equiv. apply Permutation_app_comm.
Qed.

Lemma back_Permutation L u w G : back L u w G → take u A ++ take w B ++ G ≡ₚ A ++ B.
Proof.
  intros [Hp _]. rewrite Hp. rewrite <- (take_drop u A) at 3. rewrite <- (take_drop w B) at 3.
  rewrite <- !app_assoc. f_equiv. rewrite !app_assoc. f_equiv. apply Permutation_app_comm.
Qed.
End cut.

#[export] Hint Resolve le_refl isort_sorted : core.

(** The consequences of the comparisons made so far: [order_sat lt] closes the
    hypotheses [lt a b = _] under the laws of the order and finds contradictions;
    [order_decide lt] evaluates with them the conditionals of the goal. *)
Ltac order_have lt a b r :=
  lazymatch goal with
  | _ : lt a b = r |- _ => fail
  | _ => idtac
  end.

Ltac order_sat lt :=
  repeat match goal with
  | H1 : lt ?a ?b = true, H2 : lt ?a ?b = false |- _ => rewrite H1 in H2; discriminate H2
  | H : lt ?a ?b = true |- _ =>
      order_have lt b a false; assert (lt b a = false) by exact (lt_asym a b H)
  | H1 : lt ?b ?a = false, H2 : lt ?c ?b = false |- _ =>
      order_have lt c a false; assert (lt c a = false) by exact (le_trans a b c H1 H2)
  | H1 : lt ?a ?b = true, H2 : lt ?c ?b = false |- _ =>
      order_have lt a c true; assert (lt a c = true) by exact (lt_le_trans lt a b c H1 H2)
  | H1 : lt ?b ?a = false, H2 : lt ?b ?c = true |- _ =>
      order_have lt a c true; assert (lt a c = true) by exact (le_lt_trans lt a b c H1 H2)
  end.

Ltac order_decide lt :=
  order_sat lt;
  repeat (simpl;
    match goal with
    | H : lt ?a ?b = _ |- context [ lt ?a ?b ] => rewrite H
    end).

(** ** Arrays in heap order (a parent is not less than its children), and the two
    repairs of the heap property, downwards and upwards.  Shared by heapsort and
    by the binary heap; nothing here models code. *)

Section heap.
Context {T : Type} (lt : T → T → bool) `{!StrictWeak lt}.
Implicit Types (l : list T) (i j k c : nat).

Definition child_of i c : Prop := c = 2 * i + 1 ∨ c = 2 * i + 2.

(** The element at [i] is not less than its children. *)
Definition ok_at l i : Prop := ∀ c x y,
  child_of i c → l !! i = Some x → l !! c = Some y → le lt y x.

Definition heap_from k l : Prop := ∀ i, k ≤ i → ok_at l i.
Definition is_heap l : Prop := heap_from 0 l.

Lemma is_heap_nil : is_heap [].
Proof. intros i _ c x y _ Hx. done. Qed.

Lemma heap_from_half l k : length l ≤ 2 * k + 1 → heap_from k l.
Proof.
  intros Hk i Hi c x y Hc _ Hy%lookup_lt_Some. unfold child_of in Hc. lia.
Qed.

(** The root is a maximum. *)
Lemma is_heap_max l x j y : is_heap l → l !! 0 = Some x → l !! j = Some y → le lt y x.
Proof.
  intros Hh Hx. revert y. induction j as [j IH] using lt_wf_ind; intros y Hy.
  destruct (decide (j = 0)) as [->|Hj]; [rewrite Hx in Hy; injection Hy as ->; done|].
  pose proof (lookup_lt_Some _ _ _ Hy).
  pose proof (Nat.div_mod (j - 1) 2 ltac:(lia)). pose proof (Nat.mod_upper_bound (j - 1) 2 ltac:(lia)).
  destruct (lookup_lt_is_Some_2 l ((j - 1) / 2)) as [z Hz]; [lia|].
  transitivity z; [|apply (IH ((j - 1) / 2)); [lia|done]].
  apply (Hh ((j - 1) / 2) ltac:(lia) j z y); [|done|done]. unfold child_of. lia.
Qed.

Lemma heap_from_take l k n : heap_from k l → heap_from k (take n l).
Proof.
  intros Hh i Hi c x y Hc Hx Hy. apply lookup_take_Some in Hx as [Hx _], Hy as [Hy _].
  by apply (Hh i Hi c x y).
Qed.

(** ** Downwards: only [j] may be less than its children *)
Definition sifting k l j : Prop :=
  (∀ i, k ≤ i → i ≠ j → ok_at l i) ∧
  (∀ i c x y, k ≤ i → child_of i j → child_of j c → l !! i = Some x → l !! c = Some y →
     le lt y x).

Lemma sifting_start k l : heap_from (k + 1) l → sifting k l k.
Proof.
  intros Hh. split.
  - intros i ??. apply Hh. lia.
  - intros i c x y Hi Hk. unfold child_of in Hk. lia.
Qed.

Lemma sifting_stop k l j : sifting k l j → ok_at l j → heap_from k l.
Proof. intros [H1 _] Hj i Hi. destruct (decide (i = j)) as [->|]; auto. Qed.

Lemma lookup_swap l i j x y h : l !! i = Some x → l !! j = Some y → i ≠ j →
  <[j := x]> (<[i := y]> l) !! h =
    if decide (h = j) then Some x else if decide (h = i) then Some y else l !! h.
Proof.
  intros Hx Hy Hij. apply lookup_lt_Some in Hx as ?, Hy as ?.
  case_decide; [subst; apply list_lookup_insert_eq; by rewrite length_insert|].
  rewrite list_lookup_insert_ne by done. case_decide; [subst; by apply list_lookup_insert_eq|].
  by apply list_lookup_insert_ne.
Qed.

(** The greater child moves up. *)
Lemma sifting_step k l j c x y :
  sifting k l j → k ≤ j → child_of j c → l !! j = Some x → l !! c = Some y →
  lt x y = true → (∀ s z, child_of j s → l !! s = Some z → le lt z y) →
  sifting k (<[c := x]> (<[j := y]> l)) c.
Proof.
  intros [Hok Hgp] Hkj Hc Hx Hy Hxy Hsib. unfold child_of in Hc.
  assert (j ≠ c) as Hjc by lia. split.
  - intros i Hi Hic s u v Hs. rewrite !(lookup_swap l j c x y) by done. unfold child_of in Hs.
    repeat case_decide; subst; try lia; intros Hu Hv; simplify_eq.
    + (* the child of j that moved down *) by apply lt_le.
    + (* the sibling *) by apply (Hsib s).
    + (* the parent of j *)
      apply (Hgp i c u v); [done|unfold child_of; lia|unfold child_of; lia|done|done].
    + apply (Hok i Hi ltac:(done) s u v); [done|done|done].
  - intros i s u v Hi Hic Hcs. rewrite !(lookup_swap l j c x y) by done.
    unfold child_of in Hic, Hcs. assert (i = j) as -> by lia.
    repeat case_decide; subst; try lia. intros Hu Hv; simplify_eq.
    apply (Hok c ltac:(lia) ltac:(lia) s u v); [done|done|done].
Qed.

(** ** Upwards: only the parent of [j] may be less than [j] *)
Definition rising l j : Prop :=
  (∀ i c x y, child_of i c → c ≠ j → l !! i = Some x → l !! c = Some y → le lt y x) ∧
  (∀ i c x y, child_of i j → child_of j c → l !! i = Some x → l !! c = Some y → le lt y x).

Lemma rising_stop l j x : rising l j → l !! j = Some x →
  (∀ i y, child_of i j → l !! i = Some y → le lt x y) → is_heap l.
Proof.
  intros [H1 _] Hj Hp i _ c u v Hc Hu Hv. destruct (decide (c = j)) as [->|].
  - rewrite Hj in Hv. injection Hv as <-. by apply (Hp i).
  - by apply (H1 i c).
Qed.

(** The parent moves down. *)
Lemma rising_step l i j x y :
  rising l j → child_of i j → l !! i = Some x → l !! j = Some y → lt x y = true →
  rising (<[j := x]> (<[i := y]> l)) i.
Proof.
  intros [H1 H2] Hij Hx Hy Hxy. unfold child_of in Hij.
  assert (i ≠ j) as Hne by lia. split.
  - intros a c u v Hac Hci. rewrite !(lookup_swap l i j x y) by done. unfold child_of in Hac.
    repeat case_decide; subst; try lia; intros Hu Hv; simplify_eq.
    + (* children of j *) apply (H2 i c u v); [unfold child_of; lia..|done|done].
    + (* j itself *) by apply lt_le.
    + (* the sibling of j *) transitivity x; [|by apply lt_le].
      apply (H1 i c x v); [done|done|done|done].
    + by apply (H1 a c).
  - intros a c u v Hai Hic. rewrite !(lookup_swap l i j x y) by done.
    unfold child_of in Hai, Hic.
    repeat case_decide; subst; try lia; intros Hu Hv; simplify_eq.
    + apply (H1 a i u v); [done|lia|done|done].
    + transitivity x; [by apply (H1 i c x v)|by apply (H1 a i u x)].
Qed.

(** ** All the way down: nothing is known of the element at [j] *)
Definition floating l j : Prop :=
  (∀ i c x y, child_of i c → i ≠ j → c ≠ j → l !! i = Some x → l !! c = Some y → le lt y x) ∧
  (∀ i c x y, child_of i j → child_of j c → l !! i = Some x → l !! c = Some y → le lt y x).

Lemma floating_start l : heap_from 1 l → floating l 0.
Proof.
  intros Hh. split.
  - intros i c x y Hc Hi _. apply (Hh i); [lia|done].
  - intros i c x y Hi. unfold child_of in Hi. lia.
Qed.

Lemma floating_step l j c x y :
  floating l j → child_of j c → l !! j = Some x → l !! c = Some y →
  (∀ s z, child_of j s → l !! s = Some z → le lt z y) →
  floating (<[c := x]> (<[j := y]> l)) c.
Proof.
  intros [Hok Hgp] Hc Hx Hy Hsib. unfold child_of in Hc.
  assert (j ≠ c) as Hjc by lia. split.
  - intros i s u v Hs Hic Hsc. rewrite !(lookup_swap l j c x y) by done. unfold child_of in Hs.
    repeat case_decide; subst; try lia; intros Hu Hv; simplify_eq.
    + (* the sibling *) by apply (Hsib s).
    + (* the parent of j *)
      apply (Hgp i c u v); [unfold child_of; lia|unfold child_of; lia|done|done].
    + by apply (Hok i s u v).
  - intros i s u v Hic Hcs. rewrite !(lookup_swap l j c x y) by done.
    unfold child_of in Hic, Hcs. assert (i = j) as -> by lia.
    repeat case_decide; subst; try lia. intros Hu Hv; simplify_eq.
    apply (Hok c s u v); [done|lia|lia|done|done].
Qed.

(** A leaf has no children to be compared with. *)
Lemma floating_leaf l j : floating l j → length l ≤ 2 * j + 1 → rising l j.
Proof.
  intros [Hok Hgp] Hj. split; [|done]. intros i c x y Hc Hcj Hx Hy.
  destruct (decide (i = j)) as [->|]; [|by apply (Hok i c)].
  apply lookup_lt_Some in Hy. unfold child_of in Hc. lia.
Qed.

(** A new last element may only be greater than its parent. *)
Lemma rising_snoc l x : is_heap l → rising (l ++ [x]) (length l).
Proof.
  intros Hh. split.
  - intros i c u v Hc Hcl Hu Hv. pose proof (lookup_lt_Some _ _ _ Hv) as Hlt. rewrite length_app in Hlt.
    simpl in Hlt. unfold child_of in Hc.
    rewrite lookup_app_l in Hu, Hv by lia. by apply (Hh i ltac:(lia) c).
  - intros i c u v _ Hc _ Hv%lookup_lt_Some. rewrite length_app in Hv. simpl in Hv.
    unfold child_of in Hc. lia.
Qed.

Lemma is_heap_max_elem l x y : is_heap l → l !! 0 = Some x → y ∈ l → le lt y x.
Proof. intros Hh Hx [j Hy]%list_elem_of_lookup. by eapply is_heap_max. Qed.
End heap.
