(* ===== verification/SortMem.v ===== *)
(** The memory a sorting routine works on, and the raw-pointer operations of
    [core::slice::sort] on it.

    A routine of [core::slice::sort] reaches two disjoint buffers: the slice [v]
    being sorted and a scratch buffer ([&mut [MaybeUninit<T>]]).  A pointer is a
    buffer and an offset; a cell holds [None] when it is uninitialised.  The
    comparison [is_less] is an [FnMut] supplied by the user: it may answer
    anything, it may change its mind, and it may panic.  It is modelled by a
    function of the number of calls made so far and of the two elements, which
    answers [None] when the call panics. *)

From S2P Require Import Prelude.
From S2P Require Import Order.

Inductive buf := BV | BS.

#[global] Instance buf_eq_dec : EqDecision buf.
Proof. solve_decision. Defined.

Record mem (T : Type) := Mem {
  mV : list (option T);  (* the slice [v] *)
  mS : list (option T);  (* the scratch buffer *)
  calls : nat;           (* calls of [is_less] so far *)
}.
Arguments Mem {T} mV mS calls.
Arguments mV {T} m.
Arguments mS {T} m.
Arguments calls {T} m.

(** The user's comparison. *)
Definition comparator (T : Type) : Type := nat → T → T → option bool.

(** [&mut |a, b| !is_less(b, a)]. *)
Definition not_flipped {T} (less : comparator T) : comparator T :=
  λ n a b, negb <$> less n b a.

(** The comparison is the total, deterministic function [f]. *)
Definition lawful {T} (less : comparator T) (f : T → T → bool) : Prop :=
  ∀ n a b, less n a b = Some (f a b).

Section ops.
Context {T : Type}.
Implicit Types (m : mem T) (b : buf) (i j n : nat).

Definition get b m : list (option T) := match b with BV => mV m | BS => mS m end.
Definition put b (l : list (option T)) m : mem T :=
  match b with
  | BV => Mem l (mS m) (calls m)
  | BS => Mem (mV m) l (calls m)
  end.
Definition tick m : mem T := Mem (mV m) (mS m) (calls m + 1).

(** [v.len()] and [scratch.len()]. *)
Definition len_of b : prog (mem T) nat := gets (λ m, length (get b m)).

(** [*p]: undefined behaviour out of bounds or on an uninitialised cell. *)
Definition rd b i : prog (mem T) T := λ m,
  match get b m !! i with
  | Some (Some x) => Ret x m
  | _ => Fault Undefined
  end.

(** [ptr::write(p, x)]. *)
Definition wr b i (x : T) : prog (mem T) () := λ m,
  if i <? length (get b m) then Ret () (put b (<[i:=Some x]> (get b m)) m)
  else Fault Undefined.

(** [p.sub(n)]: undefined behaviour before the start of the allocation. *)
Definition psub i n : prog (mem T) nat := if n <=? i then mret (i - n) else undefined.

(** [p.add(n)]: undefined behaviour beyond one past the end. *)
Definition padd b i n : prog (mem T) nat := λ m,
  if i + n <=? length (get b m) then Ret (i + n) m else Fault Undefined.

(** [ptr::copy(src, dst, n)]: a copy of raw cells, initialised or not. *)
Definition copy sb i db j n : prog (mem T) () := λ m,
  if (i + n <=? length (get sb m)) && (j + n <=? length (get db m))
  then Ret () (put db (list_inserts j (take n (drop i (get sb m))) (get db m)) m)
  else Fault Undefined.

(** [ptr::copy_nonoverlapping(src, dst, n)]: moreover undefined behaviour when
    the two ranges meet. *)
Definition copy_nonoverlapping sb i db j n : prog (mem T) () :=
  if bool_decide (sb = db) && (i <? j + n) && (j <? i + n) then undefined
  else copy sb i db j n.

(** One call of [is_less]. *)
Definition is_less (less : comparator T) (x y : T) : prog (mem T) bool := λ m,
  match less (calls m) x y with
  | Some r => Ret r (tick m)
  | None => Panic (tick m)
  end.

(** Running a routine on [&mut v[lo..hi]] (a panic when out of range). *)
Definition sub_get lo hi m : mem T :=
  Mem (take (hi - lo) (drop lo (mV m))) (mS m) (calls m).
Definition sub_put lo hi (t m : mem T) : mem T :=
  Mem (take lo (mV m) ++ mV t ++ drop hi (mV m)) (mS t) (calls t).
Definition sub_slice {A} lo hi (p : prog (mem T) A) : prog (mem T) A := λ m,
  if (lo <=? hi) && (hi <=? length (mV m))
  then zoom (sub_get lo hi) (sub_put lo hi) p m
  else Panic m.

(** The same without the check: undefined behaviour when out of range. *)
Definition sub_slice_unchecked {A} lo hi (p : prog (mem T) A) : prog (mem T) A := λ m,
  if (lo <=? hi) && (hi <=? length (mV m))
  then zoom (sub_get lo hi) (sub_put lo hi) p m
  else Fault Undefined.

(** [v[i]], bounds-checked. *)
Definition index i : prog (mem T) T :=
  n ← len_of BV; if i <? n then rd BV i else panic.

(** Running a routine with a fresh uninitialised array as scratch buffer. *)
Definition with_stack_array {A} n (p : prog (mem T) A) : prog (mem T) A :=
  zoom (λ m, Mem (mV m) (replicate n None) (calls m))
       (λ t m, Mem (mV t) (mS m) (calls t)) p.

(** [v.swap(i, j)] of [core::slice] (bounds-checked). *)
Definition swap i j : prog (mem T) () :=
  n ← len_of BV;
  if (i <? n) && (j <? n) then
    x ← rd BV i; y ← rd BV j; _ ← wr BV i y; wr BV j x
  else panic.

(** [v.reverse()]: the two halves are exchanged element by element. *)
Definition reverse_slice : prog (mem T) () :=
  n ← len_of BV;
  for_range (n / 2) 0 (λ i, swap i (n - 1 - i)).
End ops.

(** * Reasoning about memory *)

Section mem.
Context {T : Type}.
Implicit Types (m : mem T) (b : buf) (l : list T) (o : nat).

(** Memories that agree on both buffers, whatever the number of calls. *)
Record eqm m m' : Prop := EqM { eqm_V : mV m = mV m'; eqm_S : mS m = mS m' }.

#[export] Instance eqm_equiv : Equivalence eqm.
Proof.
  split.
  - by intros m; split.
  - by intros m m' []; split.
  - by intros m m' m'' [] []; split; etrans.
Qed.

#[export] Instance get_proper b : Proper (eqm ==> eq) (get b).
Proof. by intros m m' []; destruct b. Qed.

Lemma eqm_get m m' : eqm m m' ↔ ∀ b, get b m = get b m'.
Proof. split; [by intros [] []|]. intros H. split; [apply (H BV)|apply (H BS)]. Qed.

Lemma eqm_tick m : eqm (tick m) m.
Proof. done. Qed.

(** [holds b o l m]: the cells [o..] of buffer [b] contain [l]. *)
Definition holds b o l m : Prop :=
  ∀ i x, l !! i = Some x → get b m !! (o + i) = Some (Some x).

(** [store b o l m]: the cells [o..] of buffer [b] overwritten with [l]. *)
Definition store b o l m : mem T := put b (list_inserts o (Some <$> l) (get b m)) m.

Definition size b m : nat := length (get b m).

#[export] Instance holds_proper b o l : Proper (eqm ==> iff) (holds b o l).
Proof. intros m m' H. unfold holds. by setoid_rewrite H. Qed.

#[export] Instance store_proper b o l : Proper (eqm ==> eqm) (store b o l).
Proof. intros m m' [HV HS]. destruct b; split; unfold store; simpl; congruence. Qed.

#[export] Instance size_proper b : Proper (eqm ==> eq) (size b).
Proof. intros m m' H. unfold size. by rewrite H. Qed.

Lemma get_put b b' (l : list (option T)) m : get b (put b' l m) = if decide (b = b') then l else get b m.
Proof. by destruct b, b'. Qed.

Lemma get_store b b' o l m :
  get b (store b' o l m) =
    if decide (b = b') then list_inserts o (Some <$> l) (get b m) else get b m.
Proof. unfold store. rewrite get_put. by case_decide; subst. Qed.

Lemma size_store b b' o l m : size b (store b' o l m) = size b m.
Proof. unfold size. rewrite get_store. case_decide; [|done]. by rewrite length_inserts. Qed.

Lemma size_tick b m : size b (tick m) = size b m.
Proof. by destruct b. Qed.

Lemma holds_tick b o l m : holds b o l (tick m) ↔ holds b o l m.
Proof. by rewrite eqm_tick. Qed.

Lemma holds_nil b o m : holds b o [] m.
Proof. by intros i x. Qed.

Lemma holds_size b o l m : holds b o l m → l ≠ [] → o + length l ≤ size b m.
Proof.
  intros H Hl. destruct (list_snoc_inv l Hl) as (l'&x&->).
  specialize (H (length l') x). rewrite lookup_mid in H by done.
  apply lookup_lt_Some in H; [|done]. unfold size. rewrite length_app. simpl. lia.
Qed.

Lemma holds_app b o l1 l2 m :
  holds b o (l1 ++ l2) m ↔ holds b o l1 m ∧ holds b (o + length l1) l2 m.
Proof.
  split.
  - intros H. split; intros i x Hi.
    + apply H. by apply lookup_app_l_Some.
    + rewrite <- Nat.add_assoc. apply H. rewrite lookup_app_r by lia.
      by replace (length l1 + i - length l1) with i by lia.
  - intros [H1 H2] i x [Hi|[? Hi]]%lookup_app_Some; [by apply H1|].
    replace (o + i) with (o + length l1 + (i - length l1)) by lia. by apply H2.
Qed.

Lemma holds_cons b o x l m :
  holds b o (x :: l) m ↔ holds b o [x] m ∧ holds b (o + 1) l m.
Proof. apply (holds_app b o [x] l). Qed.

Lemma holds_lookup b o l m i x :
  holds b o l m → l !! i = Some x → get b m !! (o + i) = Some (Some x).
Proof. intros H. apply H. Qed.

Lemma holds_store_eq b o l m : o + length l ≤ size b m → holds b o l (store b o l m).
Proof.
  intros Ho i x Hi. rewrite get_store, decide_True by done.
  pose proof (lookup_lt_Some _ _ _ Hi). unfold size in Ho.
  rewrite list_lookup_inserts by (rewrite ?length_fmap; lia).
  replace (o + i - o) with i by lia. by rewrite list_lookup_fmap, Hi.
Qed.

Lemma holds_store_ne b o l b' o' l' m :
  b ≠ b' ∨ o' + length l' ≤ o ∨ o + length l ≤ o' →
  holds b o l m → holds b o l (store b' o' l' m).
Proof.
  intros Hd H i x Hi. pose proof (lookup_lt_Some _ _ _ Hi).
  rewrite get_store. case_decide; [subst|by apply H].
  destruct Hd as [?|[?|?]]; [done| |].
  - rewrite list_lookup_inserts_ge; [by apply H|rewrite length_fmap; lia].
  - rewrite list_lookup_inserts_lt; [by apply H|lia].
Qed.

Lemma store_nil b o m : eqm (store b o [] m) m.
Proof. by destruct b. Qed.

(** Lists of the same length that agree at every index. *)
Lemma inserts_eq {A} (k1 k2 : list A) :
  length k1 = length k2 → (∀ i, i < length k1 → k1 !! i = k2 !! i) → k1 = k2.
Proof.
  intros Hlen H. apply list_eq. intros i. destruct (decide (i < length k1)) as [?|Hi].
  - by apply H.
  - rewrite !lookup_ge_None_2; [done|lia|lia].
Qed.

Lemma lookup_inserts {A} o (k l : list A) i :
  i < length l →
  list_inserts o k l !! i =
    if decide (o ≤ i < o + length k) then k !! (i - o) else l !! i.
Proof.
  intros Hi. case_decide.
  - apply list_lookup_inserts; lia.
  - destruct (decide (i < o)); [by apply list_lookup_inserts_lt|].
    apply list_lookup_inserts_ge. lia.
Qed.

Lemma store_app b o l1 l2 m :
  store b o (l1 ++ l2) m = store b (o + length l1) l2 (store b o l1 m).
Proof.
  unfold store. rewrite !get_put, decide_True by done.
  rewrite fmap_app, list_inserts_app_l, length_fmap.
  replace (length l1 + o) with (o + length l1) by lia. by destruct b.
Qed.

Lemma store_comm b o1 l1 o2 l2 m :
  o1 + length l1 ≤ o2 ∨ o2 + length l2 ≤ o1 →
  store b o1 l1 (store b o2 l2 m) = store b o2 l2 (store b o1 l1 m).
Proof.
  intros Hd. unfold store. rewrite !get_put, !decide_True by done.
  enough (list_inserts o1 (Some <$> l1) (list_inserts o2 (Some <$> l2) (get b m)) =
          list_inserts o2 (Some <$> l2) (list_inserts o1 (Some <$> l1) (get b m))) as ->
    by by destruct b.
  apply inserts_eq; [by rewrite !length_inserts|]. intros i Hi.
  rewrite !length_inserts in Hi.
  rewrite !lookup_inserts by by rewrite ?length_inserts.
  rewrite !length_fmap. repeat case_decide; lia || done.
Qed.

(** A later write to a range hides an earlier one inside it. *)
Lemma store_store b o1 l1 o2 l2 m :
  o2 ≤ o1 → o1 + length l1 ≤ o2 + length l2 →
  store b o2 l2 (store b o1 l1 m) = store b o2 l2 m.
Proof.
  intros. unfold store. rewrite !get_put, !decide_True by done.
  enough (list_inserts o2 (Some <$> l2) (list_inserts o1 (Some <$> l1) (get b m)) =
          list_inserts o2 (Some <$> l2) (get b m)) as -> by by destruct b.
  apply inserts_eq; [by rewrite !length_inserts|]. intros i Hi.
  rewrite !length_inserts in Hi.
  rewrite !lookup_inserts by by rewrite ?length_inserts.
  rewrite !length_fmap. repeat case_decide; lia || done.
Qed.

Lemma store_holds b o l m : holds b o l m → store b o l m = m.
Proof.
  intros H. unfold store.
  enough (list_inserts o (Some <$> l) (get b m) = get b m) as -> by by destruct b, m.
  apply inserts_eq; [by rewrite length_inserts|]. intros i Hi.
  rewrite length_inserts in Hi. rewrite lookup_inserts by done. case_decide as Hd; [|done].
  rewrite length_fmap in Hd. rewrite list_lookup_fmap.
  destruct (lookup_lt_is_Some_2 l (i - o)) as [x Hx]; [lia|].
  rewrite Hx. apply H in Hx. by replace (o + (i - o)) with i in Hx by lia.
Qed.

(** One cell of a written range changes. *)
Lemma store_upd b o l1 y l2 x m i :
  i = o + length l1 →
  store b i [x] (store b o (l1 ++ y :: l2) m) = store b o (l1 ++ x :: l2) m.
Proof.
  intros ->. rewrite (cons_middle y), (cons_middle x), !store_app. simpl.
  rewrite store_comm by (simpl; lia). by rewrite (store_store _ _ [y]) by (simpl; lia).
Qed.

(** The slice [v] as a list of elements. *)
Definition slice_of l m : Prop := mV m = Some <$> l.

#[export] Instance slice_of_proper l : Proper (eqm ==> iff) (slice_of l).
Proof. intros m m' []. unfold slice_of. by rewrite eqm_V0. Qed.

Lemma slice_of_holds l m : slice_of l m ↔ holds BV 0 l m ∧ size BV m = length l.
Proof.
  unfold slice_of, holds, size; simpl. split.
  - intros ->. split; [|by rewrite length_fmap].
    intros i x Hi. by rewrite list_lookup_fmap, Hi.
  - intros [H Hlen]. apply inserts_eq; [by rewrite length_fmap|]. intros i Hi.
    rewrite list_lookup_fmap. destruct (lookup_lt_is_Some_2 l i) as [x Hx]; [lia|].
    rewrite Hx. by apply H.
Qed.

Lemma slice_of_store l l' m :
  length l' = length l → slice_of l m → slice_of l' (store BV 0 l' m).
Proof.
  intros Hlen [_ Hs]%slice_of_holds. apply slice_of_holds.
  rewrite size_store. split; [|lia]. apply holds_store_eq. lia.
Qed.

(** The changes a routine is allowed to make to the scratch buffer. *)
Definition same_scratch m m' : Prop := size BS m' = size BS m.
End mem.

#[global] Arguments store : simpl never.
#[global] Arguments put : simpl never.

#[export] Hint Rewrite @size_store @size_tick : len.

(** * Weakest preconditions of the memory operations *)
Section wp.
Context {T : Type}.
Implicit Types (m : mem T) (b : buf) (P : mem T → Prop).

Lemma wp_len_of b (Q : nat → mem T → Prop) P m :
  Q (size b m) m → wp (len_of b) Q P m.
Proof. done. Qed.

Lemma wp_rd b i x (Q : T → mem T → Prop) P m :
  get b m !! i = Some (Some x) → Q x m → wp (rd b i) Q P m.
Proof. intros H. unfold wp, rd. by rewrite H. Qed.

Lemma wp_rd_holds b o l i x (Q : T → mem T → Prop) P m :
  holds b o l m → o ≤ i → l !! (i - o) = Some x → Q x m → wp (rd b i) Q P m.
Proof.
  intros H ? Hx. apply wp_rd. apply H in Hx. by replace (o + (i - o)) with i in Hx by lia.
Qed.

Lemma wp_wr b i x (Q : () → mem T → Prop) P m :
  i < size b m → Q () (store b i [x] m) → wp (wr b i x) Q P m.
Proof.
  intros H. unfold wp, wr, size in *. by rewrite (proj2 (Nat.ltb_lt _ _) H).
Qed.

Lemma wp_psub i n (Q : nat → mem T → Prop) P m :
  n ≤ i → Q (i - n) m → wp (psub i n) Q P m.
Proof. intros H. unfold wp, psub. by rewrite (proj2 (Nat.leb_le _ _) H). Qed.

Lemma wp_padd b i n (Q : nat → mem T → Prop) P m :
  i + n ≤ size b m → Q (i + n) m → wp (padd b i n) Q P m.
Proof. intros H. unfold wp, padd, size in *. by rewrite (proj2 (Nat.leb_le _ _) H). Qed.

Lemma wp_copy sb i db j n l (Q : () → mem T → Prop) P m :
  holds sb i l m → n = length l → i + n ≤ size sb m → j + n ≤ size db m →
  Q () (store db j l m) → wp (copy sb i db j n) Q P m.
Proof.
  intros Hl -> Hi Hj. unfold wp, copy, size in *.
  rewrite (proj2 (Nat.leb_le _ _) Hi), (proj2 (Nat.leb_le _ _) Hj). simpl.
  unfold store. enough (take (length l) (drop i (get sb m)) = Some <$> l) as -> by done.
  apply inserts_eq; [rewrite length_fmap, length_take, length_drop; lia|].
  intros k Hk. rewrite length_take, length_drop in Hk.
  rewrite lookup_take_lt, lookup_drop, list_lookup_fmap by lia.
  destruct (lookup_lt_is_Some_2 l k) as [x Hx]; [lia|]. rewrite Hx. by apply Hl.
Qed.

Lemma wp_copy_nonoverlapping sb i db j n l (Q : () → mem T → Prop) P m :
  holds sb i l m → n = length l → (sb ≠ db ∨ j + n ≤ i ∨ i + n ≤ j) →
  i + n ≤ size sb m → j + n ≤ size db m →
  Q () (store db j l m) → wp (copy_nonoverlapping sb i db j n) Q P m.
Proof.
  intros ?? Hd ???. unfold copy_nonoverlapping.
  replace (bool_decide (sb = db) && (i <? j + n) && (j <? i + n)) with false.
  - by eapply wp_copy.
  - symmetry. case_bool_decide; simpl; [|done]. apply andb_false_iff.
    rewrite !Nat.ltb_ge. destruct Hd as [?|[?|?]]; [done|by left|by right].
Qed.

(** Copying one cell. *)
Lemma wp_copy1 sb i db j x (Q : () → mem T → Prop) P m :
  get sb m !! i = Some (Some x) → (sb ≠ db ∨ i ≠ j) → j < size db m →
  Q () (store db j [x] m) → wp (copy_nonoverlapping sb i db j 1) Q P m.
Proof.
  intros Hi Hd ? HQ. apply wp_copy_nonoverlapping with [x].
  - intros k y Hy. destruct k; [|done]. injection Hy as <-. by rewrite Nat.add_0_r.
  - done.
  - destruct Hd; [by left|right; lia].
  - apply lookup_lt_Some in Hi. unfold size. lia.
  - lia.
  - done.
Qed.

(** A call of the comparison: an arbitrary answer or a panic; when the
    comparison is lawful, the answer of the order and no panic. *)
Lemma wp_is_less (less : comparator T) x y (Q : bool → mem T → Prop) P m :
  (∀ r, (∀ f, lawful less f → r = f x y) → Q r (tick m)) →
  ((∀ f, lawful less f → False) → P (tick m)) →
  wp (is_less less x y) Q P m.
Proof.
  intros HQ HP. unfold wp, is_less. destruct (less (calls m) x y) as [r|] eqn:Hr.
  - apply HQ. intros f Hf. rewrite Hf in Hr. by injection Hr.
  - apply HP. intros f Hf. by rewrite Hf in Hr.
Qed.

Lemma wp_cmp (less : comparator T) lt x y (Q : bool → mem T → Prop) P m :
  (∀ r m', eqm m' m → (lawful less lt → r = lt x y) → Q r m') →
  (∀ m', eqm m' m → ¬ lawful less lt → P m') →
  wp (is_less less x y) Q P m.
Proof.
  intros HQ HP. apply wp_is_less.
  - intros r Hr. apply HQ; [apply eqm_tick|apply Hr].
  - intros HnL. apply HP; [apply eqm_tick|]. intros HL. by apply (HnL lt).
Qed.

Lemma wp_index i x (Q : T → mem T → Prop) P m :
  mV m !! i = Some (Some x) → Q x m → wp (index i) Q P m.
Proof.
  intros Hx HQ. apply wp_bind, wp_len_of.
  pose proof (lookup_lt_Some _ _ _ Hx) as Hi. unfold size; simpl.
  rewrite (proj2 (Nat.ltb_lt _ _) Hi). by apply (wp_rd BV i x).
Qed.
End wp.
