(* ===== verification/SmallSort.v ===== *)
(** [core::slice::sort::shared::smallsort]: insertion sort, the sorting networks,
    and the merge-based sort for small slices, at the level of raw pointers. *)

From S2P Require Import Prelude.
From S2P Require Import Order.
From S2P Require Import SortMem.

(** What the code asks of the element type [T] at compile time. *)
Record ty_info := TyInfo {
  size_of : nat;      (* [size_of::<T>()], not zero *)
  is_freeze : bool;   (* [T: Freeze], no interior mutability *)
  is_copy : bool;     (* [T: Copy] *)
}.

Definition SMALL_SORT_FALLBACK_THRESHOLD := 16.
Definition SMALL_SORT_GENERAL_THRESHOLD := 32.
Definition SMALL_SORT_GENERAL_SCRATCH_LEN := SMALL_SORT_GENERAL_THRESHOLD + 16.
Definition SMALL_SORT_NETWORK_THRESHOLD := 32.
Definition SMALL_SORT_NETWORK_SCRATCH_LEN := SMALL_SORT_NETWORK_THRESHOLD.
Definition MAX_STACK_ARRAY_SIZE := 4096%Z.

Definition has_efficient_in_place_swap (ti : ty_info) : bool := size_of ti <=? 8.

(** [size_of::<T>() * len <= MAX_STACK_ARRAY_SIZE]. *)
Definition fits_on_stack (ti : ty_info) (len : nat) : bool :=
  (Z.of_nat (size_of ti) * Z.of_nat len <=? MAX_STACK_ARRAY_SIZE)%Z.

Section smallsort.
Context {T : Type} (less : comparator T).
Implicit Types (b sb db : buf).

(** ** Insertion sort *)

(** [insert_tail(begin, tail)].  The loop carries the pointer [sift] and the
    destination of the guard that puts [tmp] back into the gap. *)
Definition insert_tail b (begin tail : nat) : prog (mem T) () :=
  sift ← psub tail 1;
  xt ← rd b tail;
  xs ← rd b sift;
  is_lt ← is_less less xt xs;
  if negb is_lt then mret () else
  tmp ← rd b tail;
  gap ← loop (S tail) (λ '(sift, gap),
    _ ← copy_nonoverlapping b sift b gap 1;
    let gap := sift in
    if sift =? begin then mret (inr gap) else
    sift ← psub sift 1;
    y ← rd b sift;
    is_lt ← on_panic (is_less less tmp y) (wr b gap tmp);
    if negb is_lt then mret (inr gap) else mret (inl (sift, gap)))
    (sift, tail);
  wr b gap tmp.

Definition insertion_sort_shift_left (offset : nat) : prog (mem T) () :=
  len ← len_of BV;
  if (offset =? 0) || (len <? offset) then abort else
  let v_end := len in
  loop (S len) (λ tail,
    if tail =? v_end then mret (inr ()) else
    _ ← insert_tail BV 0 tail;
    mret (inl (tail + 1))) offset.

Definition small_sort_fallback : prog (mem T) () :=
  len ← len_of BV;
  if 2 <=? len then insertion_sort_shift_left 1 else mret ().

(** ** Branchless sorting of four and eight elements *)

Definition sort4_stable sb (v_base : nat) db (dst : nat) : prog (mem T) () :=
  x0 ← rd sb v_base; x1 ← rd sb (v_base + 1);
  c1 ← is_less less x1 x0;
  x2 ← rd sb (v_base + 2); x3 ← rd sb (v_base + 3);
  c2 ← is_less less x3 x2;
  let a := v_base + Nat.b2n c1 in
  let b := v_base + Nat.b2n (negb c1) in
  let c := v_base + (2 + Nat.b2n c2) in
  let d := v_base + (2 + Nat.b2n (negb c2)) in
  xc ← rd sb c; xa ← rd sb a;
  c3 ← is_less less xc xa;
  xd ← rd sb d; xb ← rd sb b;
  c4 ← is_less less xd xb;
  let min := if c3 : bool then c else a in
  let max := if c4 : bool then b else d in
  let unknown_left := if c3 then a else if c4 then c else b in
  let unknown_right := if c4 then d else if c3 then b else c in
  xr ← rd sb unknown_right; xl ← rd sb unknown_left;
  c5 ← is_less less xr xl;
  let lo := if c5 : bool then unknown_right else unknown_left in
  let hi := if c5 then unknown_left else unknown_right in
  _ ← copy_nonoverlapping sb min db dst 1;
  _ ← copy_nonoverlapping sb lo db (dst + 1) 1;
  _ ← copy_nonoverlapping sb hi db (dst + 2) 1;
  copy_nonoverlapping sb max db (dst + 3) 1.

(** ** Bidirectional merge *)

Definition merge_up sb (left_src right_src : nat) db (dst : nat)
  : prog (mem T) (nat * nat * nat) :=
  y ← rd sb right_src;
  x ← rd sb left_src;
  is_lt ← is_less less y x;
  let is_l := negb is_lt in
  let src := if is_l then left_src else right_src in
  _ ← copy_nonoverlapping sb src db dst 1;
  right_src ← padd sb right_src (Nat.b2n (negb is_l));
  left_src ← padd sb left_src (Nat.b2n is_l);
  dst ← padd db dst 1;
  mret (left_src, right_src, dst).

(** The sources move with [wrapping_sub], so they may end one before the
    start of the buffer: they are integers, and reading through a negative
    one is undefined behaviour. *)
Definition deref_ptr (p : Z) : prog (mem T) nat :=
  if (p <? 0)%Z then undefined else mret (Z.to_nat p).

Definition merge_down sb (left_src right_src : Z) db (dst : nat)
  : prog (mem T) (Z * Z * nat) :=
  r ← deref_ptr right_src; y ← rd sb r;
  l ← deref_ptr left_src; x ← rd sb l;
  is_lt ← is_less less y x;
  let is_l := negb is_lt in
  let src := if is_l then r else l in
  _ ← copy_nonoverlapping sb src db dst 1;
  let right_src := (right_src - Z.b2z is_l)%Z in
  let left_src := (left_src - Z.b2z (negb is_l))%Z in
  dst ← psub dst 1;
  mret (left_src, right_src, dst).

(** [bidirectional_merge(v, dst)] with [v] the [len] cells from [src]. *)
Definition bidirectional_merge sb (src len : nat) db (dst0 : nat) : prog (mem T) () :=
  let len_div_2 := len / 2 in
  _ ← assume (negb (len_div_2 =? 0));
  right_p ← padd sb src len_div_2;
  left_rev ← psub (src + len_div_2) 1;
  right_rev ← psub (src + len) 1;
  dst_rev ← psub (dst0 + len) 1;
  '(left_p, right_p, dst, left_rev, right_rev, dst_rev) ←
    for_fold len_div_2 0 (λ _ '(left_p, right_p, dst, left_rev, right_rev, dst_rev),
      '(left_p, right_p, dst) ← merge_up sb left_p right_p db dst;
      '(left_rev, right_rev, dst_rev) ← merge_down sb left_rev right_rev db dst_rev;
      mret (left_p, right_p, dst, left_rev, right_rev, dst_rev))
      (src, right_p, dst0, Z.of_nat left_rev, Z.of_nat right_rev, dst_rev);
  let left_end := (left_rev + 1)%Z in
  let right_end := (right_rev + 1)%Z in
  '(left_p, right_p) ←
    (if negb (len mod 2 =? 0) then
       let left_nonempty := (Z.of_nat left_p <? left_end)%Z in
       let last_src := if left_nonempty then left_p else right_p in
       _ ← copy_nonoverlapping sb last_src db dst 1;
       left_p ← padd sb left_p (Nat.b2n left_nonempty);
       right_p ← padd sb right_p (Nat.b2n (negb left_nonempty));
       mret (left_p, right_p)
     else mret (left_p, right_p));
  if negb (Z.of_nat left_p =? left_end)%Z || negb (Z.of_nat right_p =? right_end)%Z
  then panic (* panic_on_ord_violation *)
  else mret ().

Definition sort8_stable sb (v_base : nat) db (dst scratch_base : nat) : prog (mem T) () :=
  _ ← sort4_stable sb v_base BS scratch_base;
  _ ← sort4_stable sb (v_base + 4) BS (scratch_base + 4);
  bidirectional_merge BS scratch_base 8 db dst.

Definition small_sort_general_with_scratch (ti : ty_info) : prog (mem T) () :=
  len ← len_of BV;
  if len <? 2 then mret () else
  scratch_len ← len_of BS;
  if scratch_len <? len + 16 then abort else
  let v_base := 0 in
  let len_div_2 := len / 2 in
  let scratch_base := 0 in
  presorted_len ←
    (if (size_of ti <=? 16) && (16 <=? len) then
       _ ← sort8_stable BV v_base BS scratch_base (scratch_base + len);
       _ ← sort8_stable BV (v_base + len_div_2) BS (scratch_base + len_div_2)
             (scratch_base + (len + 8));
       mret 8
     else if 8 <=? len then
       _ ← sort4_stable BV v_base BS scratch_base;
       _ ← sort4_stable BV (v_base + len_div_2) BS (scratch_base + len_div_2);
       mret 4
     else
       _ ← copy_nonoverlapping BV v_base BS scratch_base 1;
       _ ← copy_nonoverlapping BV (v_base + len_div_2) BS (scratch_base + len_div_2) 1;
       mret 1);
  let extend := λ offset,
    let src := v_base + offset in
    let dst := scratch_base + offset in
    let desired_len := if offset =? 0 then len_div_2 else len - len_div_2 in
    for_range (desired_len - presorted_len) presorted_len (λ i,
      _ ← copy_nonoverlapping BV (src + i) BS (dst + i) 1;
      insert_tail BS dst (dst + i)) in
  _ ← extend 0;
  _ ← extend len_div_2;
  on_panic (bidirectional_merge BS scratch_base len BV v_base)
           (copy_nonoverlapping BS scratch_base BV v_base len).

Definition small_sort_general (ti : ty_info) : prog (mem T) () :=
  with_stack_array SMALL_SORT_GENERAL_SCRATCH_LEN (small_sort_general_with_scratch ti).

(** ** Sorting networks *)

Definition swap_if_less (a_pos b_pos : nat) : prog (mem T) () :=
  let v_a := a_pos in
  let v_b := b_pos in
  xb ← rd BV v_b; xa ← rd BV v_a;
  should_swap ← is_less less xb xa;
  let v_a_swap := if should_swap : bool then v_b else v_a in
  let v_b_swap := if should_swap then v_a else v_b in
  v_b_swap_tmp ← rd BV v_b_swap;
  _ ← copy BV v_a_swap BV v_a 1;
  wr BV v_b v_b_swap_tmp.

Fixpoint run_network (net : list (nat * nat)) : prog (mem T) () :=
  match net with
  | [] => mret ()
  | (a, b) :: net => _ ← swap_if_less a b; run_network net
  end.
End smallsort.

Definition sort9_network : list (nat * nat) :=
  [(0, 3); (1, 7); (2, 5); (4, 8); (0, 7); (2, 4); (3, 8); (5, 6); (0, 2); (1, 3);
   (4, 5); (7, 8); (1, 4); (3, 6); (5, 7); (0, 1); (2, 4); (3, 5); (6, 8); (2, 3);
   (4, 5); (6, 7); (1, 2); (3, 4); (5, 6)].

Definition sort13_network : list (nat * nat) :=
  [(0, 12); (1, 10); (2, 9); (3, 7); (5, 11); (6, 8); (1, 6); (2, 3); (4, 11); (7, 9);
   (8, 10); (0, 4); (1, 2); (3, 6); (7, 8); (9, 10); (11, 12); (4, 6); (5, 9); (8, 11);
   (10, 12); (0, 5); (3, 8); (4, 7); (6, 11); (9, 10); (0, 1); (2, 5); (6, 9); (7, 8);
   (10, 11); (1, 3); (2, 4); (5, 6); (9, 10); (1, 2); (3, 4); (5, 7); (6, 8); (2, 3);
   (4, 5); (6, 7); (8, 9); (3, 4); (5, 6)].

Section networks.
Context {T : Type} (less : comparator T).

Definition sort9_optimal : prog (mem T) () :=
  len ← len_of BV;
  if len <? 9 then abort else run_network less sort9_network.

Definition sort13_optimal : prog (mem T) () :=
  len ← len_of BV;
  if len <? 13 then abort else run_network less sort13_network.

(** One turn of the loop of [small_sort_network], on the slice [region]. *)
Definition sort_region : prog (mem T) () :=
  region_len ← len_of BV;
  presorted_len ←
    (if 13 <=? region_len then _ ← sort13_optimal; mret 13
     else if 9 <=? region_len then _ ← sort9_optimal; mret 9
     else mret 1);
  insertion_sort_shift_left less presorted_len.

Definition small_sort_network : prog (mem T) () :=
  len ← len_of BV;
  if len <? 2 then mret () else
  if SMALL_SORT_NETWORK_SCRATCH_LEN <? len then abort else
  with_stack_array SMALL_SORT_NETWORK_SCRATCH_LEN (
    let len_div_2 := len / 2 in
    let no_merge := len <? 18 in
    let v_base := 0 in
    let initial_region_len := if no_merge then len else len_div_2 in
    _ ← sub_slice v_base initial_region_len sort_region;
    if no_merge then mret () else
    _ ← sub_slice len_div_2 len sort_region;
    let scratch_base := 0 in
    _ ← bidirectional_merge less BV v_base len BS scratch_base;
    copy_nonoverlapping BS scratch_base BV v_base len).

(** ** Choice of the small sort (the specialised trait implementations) *)

Definition stable_small_sort_threshold (ti : ty_info) : nat :=
  if is_freeze ti then SMALL_SORT_GENERAL_THRESHOLD else SMALL_SORT_FALLBACK_THRESHOLD.

Definition stable_small_sort (ti : ty_info) : prog (mem T) () :=
  if is_freeze ti then small_sort_general_with_scratch less ti
  else small_sort_fallback less.

Definition unstable_freeze_small_sort_threshold (ti : ty_info) : nat :=
  if is_copy ti then
    if has_efficient_in_place_swap ti && fits_on_stack ti SMALL_SORT_NETWORK_SCRATCH_LEN
    then SMALL_SORT_NETWORK_THRESHOLD
    else if fits_on_stack ti SMALL_SORT_GENERAL_SCRATCH_LEN
    then SMALL_SORT_GENERAL_THRESHOLD
    else SMALL_SORT_FALLBACK_THRESHOLD
  else
    if fits_on_stack ti SMALL_SORT_GENERAL_SCRATCH_LEN
    then SMALL_SORT_GENERAL_THRESHOLD
    else SMALL_SORT_FALLBACK_THRESHOLD.

Definition unstable_freeze_small_sort (ti : ty_info) : prog (mem T) () :=
  if is_copy ti then
    if has_efficient_in_place_swap ti && fits_on_stack ti SMALL_SORT_NETWORK_SCRATCH_LEN
    then small_sort_network
    else if fits_on_stack ti SMALL_SORT_GENERAL_SCRATCH_LEN
    then small_sort_general less ti
    else small_sort_fallback less
  else
    if fits_on_stack ti SMALL_SORT_GENERAL_SCRATCH_LEN
    then small_sort_general less ti
    else small_sort_fallback less.

Definition unstable_small_sort_threshold (ti : ty_info) : nat :=
  if is_freeze ti then unstable_freeze_small_sort_threshold ti
  else SMALL_SORT_FALLBACK_THRESHOLD.

Definition unstable_small_sort (ti : ty_info) : prog (mem T) () :=
  if is_freeze ti then unstable_freeze_small_sort ti else small_sort_fallback less.
End networks.

(** Sanity runs. *)
Definition run_v {T A} (p : prog (mem T) A) (l : list T) (scratch : nat) : option (list (option T)) :=
  match p (Mem (Some <$> l) (replicate scratch None) 0) with
  | Ret _ m => Some (mV m)
  | _ => None
  end.

Definition nat_less : comparator nat := λ _ a b, Some (a <? b).

Example small_sort_general_run :
  run_v (small_sort_general nat_less (TyInfo 8 true true))
    [9; 3; 7; 1; 1; 8; 2; 6; 5; 4; 0; 11; 10; 15; 13; 12; 14; 3; 2] 0 =
  Some (Some <$> [0; 1; 1; 2; 2; 3; 3; 4; 5; 6; 7; 8; 9; 10; 11; 12; 13; 14; 15]).
Proof. vm_compute. reflexivity. Qed.

Example small_sort_network_run :
  run_v (small_sort_network nat_less)
    [9; 3; 7; 1; 1; 8; 2; 6; 5; 4; 0; 11; 10; 15; 13; 12; 14; 3; 2] 0 =
  Some (Some <$> [0; 1; 1; 2; 2; 3; 3; 4; 5; 6; 7; 8; 9; 10; 11; 12; 13; 14; 15]).
Proof. vm_compute. reflexivity. Qed.
