(* ===== verification/SmallSortSpec.v ===== *)
(** Correctness of the small sorts. *)

From S2P Require Import Prelude.
From S2P Require Import Order.
From S2P Require Import SortMem.
From S2P Require Import SmallSort.

(** The cells [o..] of buffer [b], which held [l] in [m0], now hold a
    permutation of [l] that satisfies [F]; nothing else changed. *)
Definition permutes {T} b o (l : list T) (F : list T → Prop) (m0 m : mem T) : Prop :=
  ∃ l', eqm m (store b o l' m0) ∧ l' ≡ₚ l ∧ F l'.

(** The slice holds a permutation of [l] that satisfies [F], and the scratch
    buffer still has its size (its contents are not specified). *)
Definition vperm {T} (l : list T) (F : list T → Prop) (m0 m : mem T) : Prop :=
  ∃ l', slice_of l' m ∧ size BS m = size BS m0 ∧ l' ≡ₚ l ∧ F l'.

(** Only the scratch buffer may have changed. *)
Definition scratch_only {T} (m0 m : mem T) : Prop :=
  mV m = mV m0 ∧ size BS m = size BS m0.

Section vperm.
Context {T : Type}.
Implicit Types (m : mem T) (l : list T).

Lemma vperm_mono l (F G : list T → Prop) m0 m1 m :
  vperm l F m0 m → size BS m0 = size BS m1 → (∀ k, k ≡ₚ l → F k → G k) → vperm l G m1 m.
Proof. intros (k&?&?&?&?) ??. exists k. split_and!; [done|congruence|done|auto]. Qed.

Lemma vperm_permutes l F m0 m : slice_of l m0 → permutes BV 0 l F m0 m → vperm l F m0 m.
Proof.
  intros Hl (k&Hm&Hp&HF). exists k. rewrite Hm. split_and!; [|by rewrite size_store|done..].
  eapply slice_of_store; [|done]. by rewrite Hp.
Qed.

Lemma vperm_refl l (F : list T → Prop) m0 m :
  slice_of l m → size BS m = size BS m0 → F l → vperm l F m0 m.
Proof. intros. by exists l. Qed.

#[export] Instance scratch_only_preorder : PreOrder (@scratch_only T).
Proof.
  split; [done|]. intros m1 m2 m3 [H1 H2] [H3 H4]. split; congruence.
Qed.

Lemma scratch_only_eqm m0 m : eqm m m0 → scratch_only m0 m.
Proof. intros [HV HS]. split; [done|]. unfold size; simpl. congruence. Qed.

Lemma scratch_only_store m0 m o l : scratch_only m0 m → scratch_only m0 (store BS o l m).
Proof. intros [??]. split; [done|]. by rewrite size_store. Qed.

Lemma scratch_only_eqm_store m0 m o l : eqm m (store BS o l m0) → scratch_only m0 m.
Proof. intros ?%scratch_only_eqm. etrans; [|done]. by apply scratch_only_store. Qed.

Lemma scratch_only_slice m0 m l : scratch_only m0 m → slice_of l m0 → slice_of l m.
Proof. unfold slice_of. intros [-> _]. done. Qed.

Lemma scratch_only_holds m0 m o l : scratch_only m0 m → holds BV o l m0 → holds BV o l m.
Proof. unfold holds; simpl. intros [-> _]. done. Qed.
End vperm.

(** Running a routine on a part of the slice. *)
Section sub.
Context {T A : Type} (lo hi : nat) (p : prog (mem T) A) (pre l post : list T).
Context (F : A → list T → Prop) (Fp : list T → Prop) (Q : A → mem T → Prop).
Context (P : mem T → Prop) (m : mem T).
Hypothesis Hm : slice_of (pre ++ l ++ post) m.
Hypothesis Hlo : lo = length pre.
Hypothesis Hhi : hi = lo + length l.
Hypothesis Hp : ∀ t, slice_of l t → size BS t = size BS m →
  wp p (λ a, vperm l (F a) t) (vperm l Fp t) t.
Hypothesis HQ : ∀ a k m', slice_of (pre ++ k ++ post) m' → size BS m' = size BS m →
  k ≡ₚ l → F a k → Q a m'.
Hypothesis HP : ∀ k m', slice_of (pre ++ k ++ post) m' → size BS m' = size BS m →
  k ≡ₚ l → Fp k → P m'.

Lemma sub_in_range : (lo <=? hi) && (hi <=? length (mV m)) = true.
Proof.
  unfold slice_of in Hm. rewrite andb_true_iff, !Nat.leb_le, Hm, length_fmap, !length_app. lia.
Qed.

Lemma wp_zoom_vperm : wp (zoom (sub_get lo hi) (sub_put lo hi) p) Q P m.
Proof.
  unfold slice_of in Hm. subst lo hi.
  assert (∀ k t, slice_of k t →
    slice_of (pre ++ k ++ post) (sub_put (length pre) (length pre + length l) t m)) as Hput.
  { intros k t Hk. unfold slice_of, sub_put in *. cbn. rewrite Hm, Hk, !fmap_app.
    rewrite take_app_length' by by rewrite length_fmap. do 2 f_equal.
    rewrite app_assoc, drop_app_length' by by rewrite length_app, !length_fmap. done. }
  apply wp_zoom. eapply wp_mono; [apply Hp| |].
  - unfold slice_of, sub_get. cbn. rewrite Hm, !fmap_app.
    apply take_drop_mid; rewrite ?length_fmap; lia.
  - done.
  - intros a t (k&Hk&Hs&Hkl&HF). eapply HQ; [by apply Hput|by apply Hs|done..].
  - intros t (k&Hk&Hs&Hkl&HF). eapply HP; [by apply Hput|by apply Hs|done..].
Qed.

Lemma wp_sub_vperm : wp (sub_slice lo hi p) Q P m.
Proof. unfold wp, sub_slice. rewrite sub_in_range. apply wp_zoom_vperm. Qed.

Lemma wp_sub_unchecked_vperm : wp (sub_slice_unchecked lo hi p) Q P m.
Proof. unfold wp, sub_slice_unchecked. rewrite sub_in_range. apply wp_zoom_vperm. Qed.
End sub.

(** A routine that sorts the slice [l], stably: whatever the comparison does it
    leaves a permutation of [l], also when it unwinds; with a lawful comparison
    it returns, and the slice is the reference sort of [l]. *)
Definition sorts {T} (less : comparator T) lt (p : prog (mem T) ()) (l : list T) m : Prop :=
  wp p (λ _, vperm l (λ l', lawful less lt → l' = isort lt l) m)
    (vperm l (λ _, ¬ lawful less lt) m) m.

Section spec.
Context {T : Type} (less : comparator T) (lt : T → T → bool) `{!StrictWeak lt}.
Implicit Types (m : mem T) (b sb db : buf) (l : list T).
Let L : Prop := lawful less lt.

(** ** [insert_tail] *)

Lemma insert_tail_spec b begin tail l x m :
  holds b begin (l ++ [x]) m → l ≠ [] → tail = begin + length l →
  wp (insert_tail less b begin tail)
    (λ _, permutes b begin (l ++ [x]) (λ l', L → sorted lt l → l' = isort lt (l ++ [x])) m)
    (permutes b begin (l ++ [x]) (λ _, ¬ L) m) m.
Proof.
  intros Hl Hne ->. destruct (list_snoc_inv l Hne) as (l0&y0&->).
  assert (begin + length ((l0 ++ [y0]) ++ [x]) ≤ size b m) as Hsz.
  { apply holds_size; [done|by destruct l0]. }
  rewrite !length_app in *; simpl in *.
  assert (get b m !! (begin + length l0) = Some (Some y0)) as Hy0.
  { apply Hl. rewrite <- app_assoc. by apply lookup_mid. }
  assert (get b m !! (begin + (length l0 + 1)) = Some (Some x)) as Hx.
  { apply Hl. apply lookup_mid. rewrite length_app. simpl. lia. }
  unfold insert_tail. apply wp_bind, wp_psub; [lia|].
  replace (begin + (length l0 + 1) - 1) with (begin + length l0) by lia.
  apply wp_bind. eapply wp_rd; [done|]. apply wp_bind. eapply wp_rd; [done|].
  apply wp_bind, wp_is_less; last first.
  { intros HnL. exists ((l0 ++ [y0]) ++ [x]). rewrite store_holds by done.
    split; [apply eqm_tick|]. split; [done|]. intros HL. by apply (HnL lt). }
  intros r Hr. destruct r; simpl; last first.
  { apply wp_ret. exists ((l0 ++ [y0]) ++ [x]). rewrite store_holds by done.
    split; [apply eqm_tick|]. split; [done|]. intros HL Hs. symmetry. apply isort_id; [done|].
    apply sorted_app. split; [done|]. split; [by repeat constructor|].
    apply sorted_app in Hs as (_&_&Hs). specialize (Hr lt HL).
    apply Forall_app. split; [|by repeat constructor].
    eapply Forall_impl; [done|]. intros z [Hz _]%Forall_cons. constructor; [|done].
    etrans; [done|]. by unfold le. }
  apply wp_bind. eapply wp_rd; [done|]. apply wp_bind.
  eapply wp_mono with (P := permutes b begin ((l0 ++ [y0]) ++ [x]) (λ _, ¬ L) m);
    [|intros gap m' Hm'; exact Hm'|done].
  eapply (wp_loop (λ '(sift, gap) m', ∃ l1 y g l2,
    sift = begin + length l1 ∧ gap = begin + length l1 + 1 ∧
    l0 ++ [y0] = l1 ++ y :: l2 ∧
    eqm m' (store b begin (l1 ++ y :: g :: l2) m) ∧
    (L → Forall (λ z, lt x z = true) (y :: l2) ∨ ¬ sorted lt (l0 ++ [y0])))
    (λ '(sift, _), sift)); last first.
  { lia. }
  { exists l0, y0, x, []. split_and!; [done|lia|done| |].
    - rewrite (eqm_tick m), store_holds; [done|]. by rewrite <- app_assoc in Hl.
    - intros HL. left. constructor; [|done]. symmetry. by apply Hr. }
  intros [sift gap] m' (l1&y&g&l2&->&->&Heq&Hm'&Hlt).
  assert (length l0 + 1 = length l1 + 1 + length l2) as Hlen.
  { apply (f_equal length) in Heq. rewrite !length_app in Heq. simpl in Heq. lia. }
  assert (holds b begin (l1 ++ y :: g :: l2) m') as Hm1.
  { rewrite Hm'. apply holds_store_eq. rewrite length_app. simpl. lia. }
  apply wp_bind. eapply wp_copy1.
  { apply Hm1. by apply lookup_mid. }
  { right. lia. }
  { rewrite Hm', size_store. lia. }
  (* the memory after the shift *)
  assert (eqm (store b (begin + length l1 + 1) [y] m')
              (store b begin (l1 ++ y :: y :: l2) m)) as Hm2.
  { rewrite Hm'. rewrite (cons_middle y l1 (g :: l2)), (cons_middle y l1 (y :: l2)), !app_assoc.
    rewrite store_upd; [done|]. rewrite length_app. simpl. lia. }
  assert (∀ l1', l1 ++ y :: l2 = l0 ++ [y0] → l1' = l1 ++ x :: y :: l2 →
            l1' ≡ₚ (l0 ++ [y0]) ++ [x]) as Hperm.
  { intros ? <- ->. symmetry. rewrite (Permutation_app_comm _ [x]). simpl.
    apply (Permutation_middle l1 (y :: l2)). }
  assert (∀ m'', eqm m'' (store b begin (l1 ++ y :: y :: l2) m) →
    eqm (store b (begin + length l1) [x] m'') (store b begin (l1 ++ x :: y :: l2) m)) as Hfill.
  { intros m'' ->. by rewrite store_upd. }
  destruct (Nat.eqb_spec (begin + length l1) begin).
  { apply wp_ret. apply wp_wr; [rewrite size_store, Hm', size_store; lia|].
    exists (l1 ++ x :: y :: l2). split; [by apply Hfill|]. split; [by apply Hperm|].
    intros HL Hs. destruct l1 as [|? ?]; [|simpl in *; lia]. simpl.
    destruct (Hlt HL) as [Hlt'|]; [|done]. rewrite Heq in *. simpl in *. symmetry.
    by apply (isort_insert_last lt [] (y :: l2) x). }
  destruct (list_snoc_inv l1) as (l1'&z&->); [by intros ->; simpl in *; lia|].
  rewrite length_app in *; simpl in *.
  apply wp_bind, wp_psub; [lia|]. apply wp_bind. eapply wp_rd with (x := z).
  { rewrite Hm2. replace (begin + (length l1' + 1) - 1) with (begin + length l1') by lia.
    apply (holds_store_eq b begin).
    - rewrite !length_app. simpl. lia.
    - rewrite <- app_assoc. by apply lookup_mid. }
  apply wp_bind, wp_on_panic, wp_is_less; last first.
  { intros HnL. apply wp_wr; [rewrite size_tick, size_store, Hm', size_store; lia|].
    exists ((l1' ++ [z]) ++ x :: y :: l2). split; [|split; [by apply Hperm|]].
    - apply Hfill. by rewrite eqm_tick.
    - intros HL. by apply (HnL lt). }
  intros r Hr'. destruct r; simpl.
  - apply wp_ret. split; [|lia]. exists l1', z, y, (y :: l2).
    split_and!; [lia|lia|by rewrite Heq, <- app_assoc| |].
    + by rewrite eqm_tick, Hm2, <- app_assoc.
    + intros HL. destruct (Hlt HL); [left|by right].
      constructor; [|done]. symmetry. by apply Hr'.
  - apply wp_ret. apply wp_wr; [rewrite size_tick, size_store, Hm', size_store; lia|].
    exists ((l1' ++ [z]) ++ x :: y :: l2). split; [|split; [by apply Hperm|]].
    + apply Hfill. by rewrite eqm_tick.
    + intros HL Hs. destruct (Hlt HL) as [Hlt'|]; [|done]. rewrite Heq in *. symmetry.
      apply isort_insert_last; [done|done| |done].
      apply sorted_app in Hs as (Hs&_&_). apply sorted_app in Hs as (_&_&Hs).
      specialize (Hr' lt HL). apply Forall_app. split; [|by repeat constructor].
      eapply Forall_impl; [done|]. intros w [Hw _]%Forall_cons. etrans; [done|]. by unfold le.
Qed.

(** ** Lifting the effect on a part to the whole *)

Lemma store_part b o pre l k post m0 m m' :
  eqm m (store b o (pre ++ l ++ post) m0) → length k = length l →
  eqm m' (store b (o + length pre) k m) → eqm m' (store b o (pre ++ k ++ post) m0).
Proof.
  intros Hm Hlen ->. rewrite Hm, !store_app.
  rewrite (store_comm b (o + length pre) k) by (rewrite ?Hlen; lia).
  rewrite (store_store _ _ l _ k) by lia. by rewrite Hlen.
Qed.

Lemma wp_part {A} b o pre l post (F : A → list T → Prop) Fp m0 m p (Q : A → mem T → Prop) P :
  eqm m (store b o (pre ++ l ++ post) m0) →
  wp p (λ a, permutes b (o + length pre) l (F a) m) (permutes b (o + length pre) l Fp m) m →
  (∀ a k m', eqm m' (store b o (pre ++ k ++ post) m0) → k ≡ₚ l → F a k → Q a m') →
  (∀ k m', eqm m' (store b o (pre ++ k ++ post) m0) → k ≡ₚ l → Fp k → P m') →
  wp p Q P m.
Proof.
  intros Hm Hp HQ HP. eapply wp_mono; [exact Hp| |].
  - intros a m' (k&Hk&Hkl&HF). eapply HQ; [|done..].
    eapply store_part; [done..| |done]. by rewrite Hkl.
  - intros m' (k&Hk&Hkl&HF). eapply HP; [|done..].
    eapply store_part; [done..| |done]. by rewrite Hkl.
Qed.

Lemma permutes_mono b o l (F G : list T → Prop) m m' :
  permutes b o l F m m' → (∀ k, k ≡ₚ l → F k → G k) → permutes b o l G m m'.
Proof. intros (k&?&?&?) HG. exists k. auto. Qed.

Lemma permutes_same b o l (F : list T → Prop) m m' :
  holds b o l m → eqm m' m → F l → permutes b o l F m m'.
Proof. intros Hl Hm HF. exists l. by rewrite store_holds. Qed.

(** ** Insertion sort *)

Lemma insertion_sort_spec l offset m :
  slice_of l m → 1 ≤ offset ≤ length l →
  wp (insertion_sort_shift_left less offset)
    (λ _, permutes BV 0 l (λ l', L → sorted lt (take offset l) → l' = isort lt l) m)
    (permutes BV 0 l (λ _, ¬ L) m) m.
Proof.
  intros Hl Ho. pose proof Hl as [Hh Hsz]%slice_of_holds.
  unfold insertion_sort_shift_left. apply wp_bind, wp_len_of. rewrite Hsz.
  destruct (Nat.eqb_spec offset 0); [lia|]. destruct (Nat.ltb_spec (length l) offset); [lia|].
  cbn [orb].
  apply (wp_loop (λ tail m', offset ≤ tail ≤ length l ∧ ∃ k,
    eqm m' (store BV 0 (k ++ drop tail l) m) ∧ k ≡ₚ take tail l ∧
    (L → sorted lt (take offset l) → k = isort lt (take tail l)))
    (λ tail, length l - tail)); [|split; [lia|]|lia]; last first.
  { exists (take offset l). rewrite take_drop, store_holds by done. split; [reflexivity|].
    split; [done|]. intros. symmetry. by apply isort_id. }
  intros tail m' [Htail (k&Hm'&Hp&HF)].
  destruct (Nat.eqb_spec tail (length l)) as [->|].
  { apply wp_ret. rewrite drop_all, app_nil_r in Hm'. rewrite (take_ge l (length l)) in Hp, HF by done.
    by exists k. }
  destruct (lookup_lt_is_Some_2 l tail) as [x Hx]; [lia|].
  rewrite (drop_lookup _ _ _ Hx), (cons_middle x), app_assoc in Hm'.
  assert (k ++ [x] ≡ₚ take (S tail) l) as Hp' by by rewrite (take_S_r _ _ x), Hp.
  apply wp_bind. eapply (wp_part BV 0 [] (k ++ [x]) (drop (S tail) l)); [done| | |].
  - apply Permutation_length in Hp. rewrite length_take_le in Hp by lia.
    apply (insert_tail_spec BV 0 tail k x); [|by intros ->; simpl in *; lia|by rewrite Hp].
    rewrite Hm'. eapply (holds_app _ _ _ (drop (S tail) l)), holds_store_eq. len.
  - intros [] k' m'' Hm'' Hk' HF'. apply wp_ret. split; [|lia]. split; [lia|]. exists k'.
    rewrite Nat.add_1_r. split; [done|]. split; [by rewrite Hk'|]. intros HL Hs.
    rewrite HF' by (try done; rewrite HF by done; apply isort_sorted; done).
    rewrite HF, (take_S_r _ _ x) by done.
    apply isort_proper; [done|]. apply stable_eq_app; [|done]. by apply isort_stable.
  - intros k' m'' Hm'' Hk' HF'. exists (k' ++ drop (S tail) l). split; [done|].
    split; [|done]. by rewrite Hk', Hp', take_drop.
Qed.
Lemma insertion_sort_sorts l offset m :
  slice_of l m → 1 ≤ offset ≤ length l → (L → sorted lt (take offset l)) →
  sorts less lt (insertion_sort_shift_left less offset) l m.
Proof.
  intros Hl ? Hs. eapply wp_mono; [by apply insertion_sort_spec| |].
  - intros [] m' Hm'. apply vperm_permutes in Hm'; [|done].
    eapply vperm_mono; [done|done|]. intros k _ HF HL. by apply HF, Hs.
  - intros m' Hm'. by apply vperm_permutes in Hm'.
Qed.

Lemma sorted_short l : length l ≤ 1 → sorted lt l.
Proof. destruct l as [|? [|??]]; simpl; [..|lia]; repeat constructor. Qed.

Lemma small_sort_fallback_sorts l m :
  slice_of l m → sorts less lt (small_sort_fallback less) l m.
Proof.
  intros Hl. pose proof Hl as [_ Hsz]%slice_of_holds.
  unfold sorts, small_sort_fallback. apply wp_bind, wp_len_of. rewrite Hsz.
  destruct (Nat.leb_spec 2 (length l)).
  - apply insertion_sort_sorts; [done|lia|]. intros _. apply sorted_short.
    rewrite length_take. lia.
  - apply wp_ret, vperm_refl; [done..|]. intros _. symmetry. apply isort_id; [done|].
    apply sorted_short. lia.
Qed.
End spec.
