(* ===== verification/BidirSpec.v ===== *)
(** The branchless small sorts: [sort4_stable], the bidirectional merge and the
    sorts built from them ([sort8_stable], [small_sort_general]). *)

From S2P Require Import Prelude.
From S2P Require Import Order.
From S2P Require Import SortMem.
From S2P Require Import SmallSort.
From S2P Require Import SmallSortSpec.

(** The ranges [src..src+n] of [sb] and [dst..dst+n] of [db] do not meet. *)
Definition apart (sb : buf) (src : nat) (db : buf) (dst n : nat) : Prop :=
  sb ≠ db ∨ dst + n ≤ src ∨ src + n ≤ dst.

Ltac disjoint :=
  match goal with
  | H : apart _ _ _ _ _ |- _ => destruct H as [?|[?|?]]; [by left|right; lia..]
  end.

(** Only the cells [o..o+n] of buffer [b] may have changed. *)
Definition clobbers {T} b o n (m0 m : mem T) : Prop :=
  ∃ k : list (option T), length k = n ∧
    eqm m (put b (list_inserts o k (get b m0)) m0).

Section clobbers.
Context {T : Type}.
Implicit Types (m : mem T) (b : buf) (l : list T).

Lemma clobbers_store b o n l m0 m :
  length l = n → clobbers b o n m0 m → eqm (store b o l m) (store b o l m0).
Proof.
  intros <- (k&Hk&->). unfold store. rewrite !get_put, !decide_True by done.
  enough (list_inserts o (Some <$> l) (list_inserts o k (get b m0)) =
          list_inserts o (Some <$> l) (get b m0)) as -> by by destruct b.
  apply inserts_eq; [by rewrite !length_inserts|]. intros i Hi.
  rewrite !length_inserts in Hi.
  rewrite !lookup_inserts by by rewrite ?length_inserts.
  rewrite !length_fmap, Hk. repeat case_decide; lia || done.
Qed.

Lemma clobbers_holds b o n b' o' l m0 m :
  b' ≠ b ∨ o + n ≤ o' ∨ o' + length l ≤ o →
  clobbers b o n m0 m → holds b' o' l m0 → holds b' o' l m.
Proof.
  intros Hd (k&Hk&->) H i x Hi. pose proof (lookup_lt_Some _ _ _ Hi).
  rewrite get_put. case_decide; [subst|by apply H].
  pose proof (H i x Hi) as Hx.
  rewrite lookup_inserts by by eapply lookup_lt_Some. rewrite decide_False; [done|].
  destruct Hd as [?|[?|?]]; [done|lia|lia].
Qed.

Lemma clobbers_size b o n b' m0 m : clobbers b o n m0 m → size b' m = size b' m0.
Proof.
  intros (k&_&->). unfold size. rewrite get_put. case_decide; [subst|done].
  by rewrite length_inserts.
Qed.

Lemma clobbers_other b o n b' m0 m : clobbers b o n m0 m → b' ≠ b → get b' m = get b' m0.
Proof. intros (k&_&->) ?. by rewrite get_put, decide_False. Qed.
End clobbers.

Section spec.
Context {T : Type} (less : comparator T) (lt : T → T → bool) `{!StrictWeak lt}.
Implicit Types (m : mem T) (b sb db : buf) (l A B F G : list T).
Let L : Prop := lawful less lt.

(** ** [sort4_stable] *)

Lemma wp_copy_holds sb o l db d i x (Q : () → mem T → Prop) P m :
  holds sb o l m → o ≤ i → l !! (i - o) = Some x → sb ≠ db ∨ i ≠ d → d < size db m →
  Q () (store db d [x] m) → wp (copy_nonoverlapping sb i db d 1) Q P m.
Proof.
  intros Hl ? Hx. apply wp_copy1. apply Hl in Hx. by replace (o + (i - o)) with i in Hx by lia.
Qed.

(** Four cells copied to consecutive places. *)
Lemma wp_copy4 sb o l db d i0 i1 i2 i3 x0 x1 x2 x3 (Q : () → mem T → Prop) P m :
  holds sb o l m → (sb ≠ db ∨ d + 4 ≤ o ∨ o + length l ≤ d) → d + 4 ≤ size db m →
  o ≤ i0 → l !! (i0 - o) = Some x0 → o ≤ i1 → l !! (i1 - o) = Some x1 →
  o ≤ i2 → l !! (i2 - o) = Some x2 → o ≤ i3 → l !! (i3 - o) = Some x3 →
  Q () (store db d [x0; x1; x2; x3] m) →
  wp (_ ← copy_nonoverlapping sb i0 db d 1;
      _ ← copy_nonoverlapping sb i1 db (d + 1) 1;
      _ ← copy_nonoverlapping sb i2 db (d + 2) 1;
      copy_nonoverlapping sb i3 db (d + 3) 1) Q P m.
Proof.
  intros Hl Hd Hsz ? H0 ? H1 ? H2 ? H3 HQ.
  apply lookup_lt_Some in H0 as ?, H1 as ?, H2 as ?, H3 as ?.
  assert (∀ i d', o ≤ i → i - o < length l → d ≤ d' < d + 4 → sb ≠ db ∨ i ≠ d') as Hne.
  { intros. destruct Hd as [?|[?|?]]; [by left|right; lia|right; lia]. }
  change [x0; x1; x2; x3] with ([x0] ++ [x1] ++ [x2] ++ [x3]) in HQ.
  rewrite !store_app in HQ. simpl in HQ.
  assert (∀ k d', d ≤ d' < d + 4 → holds sb o l k → ∀ x, holds sb o l (store db d' [x] k)) as Hk.
  { intros. apply holds_store_ne; [|done]. simpl. destruct Hd as [?|[?|?]]; [by left|right; lia..]. }
  apply wp_bind. eapply (wp_copy_holds sb o l); [done..|apply Hne; lia|lia|].
  apply wp_bind. eapply (wp_copy_holds sb o l); [apply Hk; [lia|done]|done..|apply Hne; lia|len|].
  apply wp_bind. eapply (wp_copy_holds sb o l);
    [repeat (apply Hk; [lia|]); done|done..|apply Hne; lia|len|].
  eapply (wp_copy_holds sb o l); [repeat (apply Hk; [lia|]); done|done..|apply Hne; lia|len|].
  by replace (d + 3) with (d + 1 + 1 + 1) by lia; replace (d + 2) with (d + 1 + 1) by lia.
Qed.

(** A lookup at an index that is 0, 1, 2 or 3 by arithmetic. *)
Ltac idx :=
  match goal with
  | |- _ !! ?i = _ =>
      first [ replace i with 0 by lia; reflexivity | replace i with 1 by lia; reflexivity
            | replace i with 2 by lia; reflexivity | replace i with 3 by lia; reflexivity ]
  end.

Lemma sort4_spec sb v db d l m :
  holds sb v l m → length l = 4 → apart sb v db d 4 → d + 4 ≤ size db m →
  wp (sort4_stable less sb v db d)
    (λ _ m', ∃ l', eqm m' (store db d l' m) ∧ l' ≡ₚ l ∧ (L → l' = isort lt l))
    (λ m', eqm m' m ∧ ¬ L) m.
Proof.
  intros Hl Hlen Hd Hsz.
  destruct l as [|x0 [|x1 [|x2 [|x3 [|??]]]]]; try done. clear Hlen.
  unfold sort4_stable.
  assert (∀ m' i x (Q : T → mem T → Prop) P, eqm m' m → v ≤ i →
    [x0; x1; x2; x3] !! (i - v) = Some x → Q x m' → wp (rd sb i) Q P m') as Hrd.
  { intros m' i x Q P Hm' ???. eapply wp_rd_holds; [by rewrite Hm'|done..]. }
  assert (∀ m' x y (Q : bool → mem T → Prop), eqm m' m →
    (∀ r m'', eqm m'' m → (L → r = lt x y) → Q r m'') →
    wp (is_less less x y) Q (λ m', eqm m' m ∧ ¬ L) m') as Hcmp.
  { intros m' x y Q Hm' HQ. apply (wp_cmp less lt).
    - intros r m'' Hm'' Hr. apply HQ; [by etrans|done].
    - intros m'' Hm'' HL. split; [by etrans|done]. }
  apply wp_bind. eapply (Hrd m); [done|lia|idx|]. apply wp_bind. eapply (Hrd m); [done|lia|idx|].
  apply wp_bind, (Hcmp m); [done|]. intros c1 m1 Hm1 Hc1.
  apply wp_bind. eapply (Hrd m1); [done|lia|idx|]. apply wp_bind. eapply (Hrd m1); [done|lia|idx|].
  apply wp_bind, (Hcmp m1); [done|]. intros c2 m2 Hm2 Hc2. cbv zeta.
  destruct c1, c2; cbn [Nat.b2n negb];
    (apply wp_bind; eapply (Hrd m2); [done|lia|idx|]);
    (apply wp_bind; eapply (Hrd m2); [done|lia|idx|]);
    (apply wp_bind, (Hcmp m2); [done|]; intros c3 m3 Hm3 Hc3);
    (apply wp_bind; eapply (Hrd m3); [done|lia|idx|]);
    (apply wp_bind; eapply (Hrd m3); [done|lia|idx|]);
    (apply wp_bind, (Hcmp m3); [done|]; intros c4 m4 Hm4 Hc4);
    destruct c3, c4;
    (apply wp_bind; eapply (Hrd m4); [done|lia|idx|]);
    (apply wp_bind; eapply (Hrd m4); [done|lia|idx|]);
    (apply wp_bind, (Hcmp m4); [done|]; intros c5 m5 Hm5 Hc5);
    destruct c5;
    (eapply (wp_copy4 sb v [x0; x1; x2; x3]);
      [by rewrite Hm5|exact Hd|by rewrite Hm5|lia|idx|lia|idx|lia|idx|lia|idx|]);
    (eexists; split; [by rewrite Hm5|split; [solve_Permutation|intros HL];
      specialize (Hc1 HL); specialize (Hc2 HL); specialize (Hc3 HL); specialize (Hc4 HL);
      specialize (Hc5 HL); symmetry in Hc1, Hc2, Hc3, Hc4, Hc5]).
  all: simpl; order_decide lt; reflexivity.
Qed.

(** ** One step of the merge, at either end *)

Lemma wp_merge_up sb i j db d x y (Q : nat * nat * nat → mem T → Prop) P m :
  get sb m !! i = Some (Some x) → get sb m !! j = Some (Some y) →
  sb ≠ db ∨ (i ≠ d ∧ j ≠ d) → d < size db m →
  (∀ m' (c : bool), eqm m' (store db d [if c then y else x] m) → (L → c = lt y x) →
     Q (if c : bool then (i, j + 1, d + 1) else (i + 1, j, d + 1)) m') →
  (∀ m', eqm m' m → ¬ L → P m') →
  wp (merge_up less sb i j db d) Q P m.
Proof.
  intros Hx Hy Hd Hsz HQ HP. unfold merge_up.
  pose proof (lookup_lt_Some _ _ _ Hx). pose proof (lookup_lt_Some _ _ _ Hy).
  apply wp_bind. eapply wp_rd; [done|]. apply wp_bind. eapply wp_rd; [done|].
  apply wp_bind, (wp_cmp less lt); [|done]. intros c m' Hm' Hc. cbv zeta. rewrite negb_involutive.
  apply wp_bind. apply wp_copy1 with (if c then y else x).
  { rewrite Hm'. by destruct c. }
  { destruct Hd as [?|[??]]; [by left|right; by destruct c]. }
  { by rewrite Hm'. }
  unfold size in *. apply wp_bind, wp_padd.
  { rewrite size_store, Hm'. unfold size. destruct c; simpl; lia. }
  apply wp_bind, wp_padd.
  { rewrite size_store, Hm'. unfold size. destruct c; simpl; lia. }
  apply wp_bind, wp_padd.
  { rewrite size_store, Hm'. unfold size. destruct c; simpl; lia. }
  apply wp_ret. assert (eqm (store db d [if c then y else x] m')
                            (store db d [if c then y else x] m)) as Hs by by rewrite Hm'.
  specialize (HQ _ c Hs Hc). by destruct c; simpl; rewrite ?Nat.add_0_r.
Qed.

Lemma wp_merge_down sb i j db d x y (Q : Z * Z * nat → mem T → Prop) P m :
  get sb m !! i = Some (Some x) → get sb m !! j = Some (Some y) →
  sb ≠ db ∨ (i ≠ d ∧ j ≠ d) → d < size db m → 1 ≤ d →
  (∀ m' (c : bool), eqm m' (store db d [if c then x else y] m) → (L → c = lt y x) →
     Q (if c : bool then ((Z.of_nat i - 1)%Z, Z.of_nat j, d - 1)
        else (Z.of_nat i, (Z.of_nat j - 1)%Z, d - 1)) m') →
  (∀ m', eqm m' m → ¬ L → P m') →
  wp (merge_down less sb (Z.of_nat i) (Z.of_nat j) db d) Q P m.
Proof.
  intros Hx Hy Hd Hsz Hd1 HQ HP. unfold merge_down.
  assert (∀ k (Q : nat → mem T → Prop) P m, Q k m → wp (deref_ptr (Z.of_nat k)) Q P m) as Hptr.
  { intros k Q' P' m' ?. unfold deref_ptr. destruct (Z.ltb_spec (Z.of_nat k) 0); [lia|].
    apply wp_ret. by rewrite Nat2Z.id. }
  apply wp_bind, Hptr, wp_bind. eapply wp_rd; [done|].
  apply wp_bind, Hptr, wp_bind. eapply wp_rd; [done|].
  apply wp_bind, (wp_cmp less lt); [|done]. intros c m' Hm' Hc. cbv zeta. rewrite negb_involutive.
  apply wp_bind. apply wp_copy1 with (if c then x else y).
  { rewrite Hm'. by destruct c. }
  { destruct Hd as [?|[??]]; [by left|right; by destruct c]. }
  { by rewrite Hm'. }
  apply wp_bind, wp_psub; [done|]. apply wp_ret.
  assert (eqm (store db d [if c then x else y] m')
              (store db d [if c then x else y] m)) as Hs by by rewrite Hm'.
  specialize (HQ _ c Hs Hc). by destruct c; simpl; rewrite ?Z.sub_0_r.
Qed.

(** ** The bidirectional merge *)
Section bidir.
Context (sb : buf) (src : nat) (db : buf) (dst : nat) (A B : list T) (m0 : mem T).
Abbreviation h := (length A).
Abbreviation len := (length A + length B).
Hypothesis Hsrc : holds sb src (A ++ B) m0.
Hypothesis Hapart : apart sb src db dst len.
Hypothesis Hdst : dst + len ≤ size db m0.

(** The output written so far, from both ends. *)
Definition ends F G m : Prop :=
  eqm m (store db (dst + len - length G) G (store db dst F m0)).

Lemma ends_holds F G m : length F + length G ≤ len → ends F G m → holds sb src (A ++ B) m.
Proof.
  intros ? ->. apply holds_store_ne; [rewrite length_app; disjoint|].
  apply holds_store_ne; [rewrite length_app; disjoint|]. exact Hsrc.
Qed.

Lemma ends_A F G m i x : length F + length G ≤ len → ends F G m →
  A !! i = Some x → get sb m !! (src + i) = Some (Some x).
Proof.
  intros ?? Hx. eapply (ends_holds F G m); [done..|]. by apply lookup_app_l_Some.
Qed.

Lemma ends_B F G m i x : length F + length G ≤ len → ends F G m →
  B !! i = Some x → get sb m !! (src + h + i) = Some (Some x).
Proof.
  intros ?? Hx. rewrite <- Nat.add_assoc. eapply (ends_holds F G m); [done..|].
  rewrite lookup_app_r by lia. by replace (h + i - h) with i by lia.
Qed.

Lemma ends_size F G m : ends F G m → size db m = size db m0.
Proof. intros ->. by rewrite !size_store. Qed.

Lemma ends_front F G m m' x : length F + length G < len → ends F G m →
  eqm m' (store db (dst + length F) [x] m) → ends (F ++ [x]) G m'.
Proof.
  intros ? Hm Hm'. unfold ends in *. rewrite Hm', Hm, store_app.
  rewrite store_comm; [done|]. simpl. lia.
Qed.

Lemma ends_back F G m m' x : length F + length G < len → ends F G m →
  eqm m' (store db (dst + len - length G - 1) [x] m) → ends F (x :: G) m'.
Proof.
  intros ? Hm Hm'. unfold ends in *. rewrite Hm', Hm.
  change (x :: G) with ([x] ++ G). rewrite store_app, store_comm by (simpl; lia).
  rewrite length_app; simpl.
  replace (dst + len - S (length G)) with (dst + len - length G - 1) by lia.
  by replace (dst + len - length G - 1 + 1) with (dst + len - length G) by lia.
Qed.

Lemma ends_full F G m : length F + length G = len → ends F G m →
  eqm m (store db dst (F ++ G) m0).
Proof.
  intros ? ->. rewrite store_app.
  by replace (dst + len - length G) with (dst + length F) by lia.
Qed.

Lemma ends_clobbers F G m : length F + length G ≤ len → ends F G m →
  clobbers db dst len m0 m.
Proof.
  intros Hle Hm. unfold size in *.
  exists (take len (drop dst (get db m))). split.
  { pose proof (ends_size _ _ _ Hm) as Hs. unfold size in Hs. len. }
  rewrite Hm. unfold store. rewrite !get_put, !decide_True by done.
  set (k := list_inserts (dst + len - length G) (Some <$> G) _).
  enough (list_inserts dst (take len (drop dst k)) (get db m0) = k) as -> by by destruct db.
  assert (length k = length (get db m0)) as Hk by (unfold k; by rewrite !length_inserts).
  apply inserts_eq; [by rewrite length_inserts|]. intros i Hi.
  rewrite length_inserts in Hi. rewrite lookup_inserts by done.
  rewrite length_take, length_drop. case_decide.
  - rewrite lookup_take_lt, lookup_drop by lia. f_equal. lia.
  - unfold k. rewrite !lookup_inserts by by rewrite ?length_inserts.
    rewrite !length_fmap. repeat case_decide; lia || done.
Qed.

Definition bidir_inv (i : nat) (x : nat * nat * nat * Z * Z * nat) m : Prop :=
  let '(left_p, right_p, d, left_rev, right_rev, d_rev) := x in
  ∃ p q u w F G,
    left_p = src + p ∧ right_p = src + h + q ∧ d = dst + i ∧
    left_rev = (Z.of_nat (src + u) - 1)%Z ∧ right_rev = (Z.of_nat (src + h + w) - 1)%Z ∧
    d_rev = dst + len - i - 1 ∧
    p + q = i ∧ u + w + i = len ∧ u ≤ h ∧ w ≤ length B ∧
    length F = i ∧ length G = i ∧ ends F G m ∧
    front lt A B L p q F ∧ back lt A B L u w G.

Lemma apart_ne i d : src ≤ i < src + len → dst ≤ d < dst + len → sb ≠ db ∨ i ≠ d.
Proof. intros. disjoint. Qed.

Lemma bidir_step i x m (P : mem T → Prop) :
  h = len / 2 → i < h → bidir_inv i x m →
  (∀ m', clobbers db dst len m0 m' → ¬ L → P m') →
  wp (let '(left_p, right_p, dst, left_rev, right_rev, dst_rev) := x in
      '(left_p, right_p, dst) ← merge_up less sb left_p right_p db dst;
      '(left_rev, right_rev, dst_rev) ← merge_down less sb left_rev right_rev db dst_rev;
      mret (left_p, right_p, dst, left_rev, right_rev, dst_rev))
    (λ x' m', bidir_inv (i + 1) x' m') P m.
Proof.
  intros Hh Hi. assert (2 * h ≤ len) by (rewrite Hh at 1; apply Nat.Div0.mul_div_le).
  destruct x as [[[[[left_p right_p] d] left_rev] right_rev] d_rev].
  intros (p&q&u&w&F&G&->&->&->&->&->&->&Hpq&Huw&Hu&Hw&HF&HG&Hm&Hfr&Hbk) HP.
  destruct (lookup_lt_is_Some_2 A p) as [x Hx]; [lia|].
  destruct (lookup_lt_is_Some_2 B q) as [y Hy]; [lia|].
  apply wp_bind. eapply wp_merge_up.
  { eapply ends_A; [|done..]. lia. }
  { eapply ends_B; [|done..]. lia. }
  { destruct (apart_ne (src + p) (dst + i)); [lia..|by left|].
    destruct (apart_ne (src + h + q) (dst + i)); [lia..|by left|by right]. }
  { rewrite (ends_size _ _ _ Hm). lia. }
  2:{ intros m' Hm' HnL. apply HP; [|done]. eapply (ends_clobbers F G); [lia|].
      unfold ends. by rewrite Hm'. }
  intros m1 c Hm1 Hc. rewrite <- HF in Hm1.
  apply (ends_front F G m) in Hm1; [|lia|done].
  destruct u as [|u]; [lia|]. destruct w as [|w]; [lia|].
  destruct (lookup_lt_is_Some_2 A u) as [x' Hx']; [lia|].
  destruct (lookup_lt_is_Some_2 B w) as [y' Hy']; [lia|].
  set (z := if c then y else x) in *.
  assert (∃ p' q', front lt A B L p' q' (F ++ [z]) ∧ p' + q' = i + 1 ∧
    (if c then (src + p, src + h + q + 1, dst + i + 1)
     else (src + p + 1, src + h + q, dst + i + 1)) = (src + p', src + h + q', dst + (i + 1)))
    as (p'&q'&Hfr'&Hpq'&->).
  { destruct c; [exists p, (S q)|exists (S p), q]; (split; [|split; [lia|f_equal; [f_equal; lia|lia]]]).
    - eapply front_step_B; [done|done|done|]. intros HL ? [= <-]%(eq_trans (eq_sym Hx)).
      symmetry. by apply Hc.
    - eapply front_step_A; [done|done|done|]. intros HL ? [= <-]%(eq_trans (eq_sym Hy)).
      symmetry. by apply Hc. }
  replace (Z.of_nat (src + S u) - 1)%Z with (Z.of_nat (src + u)) by lia.
  replace (Z.of_nat (src + h + S w) - 1)%Z with (Z.of_nat (src + h + w)) by lia.
  assert (length (F ++ [z]) + length G < len) as Hlt by (rewrite length_app; simpl; lia).
  apply wp_bind. eapply wp_merge_down.
  { eapply ends_A; [|done..]. lia. }
  { eapply ends_B; [|done..]. lia. }
  { destruct (apart_ne (src + u) (dst + len - i - 1)); [lia..|by left|].
    destruct (apart_ne (src + h + w) (dst + len - i - 1)); [lia..|by left|by right]. }
  { rewrite (ends_size _ _ _ Hm1). lia. }
  { lia. }
  2:{ intros m' Hm' HnL. apply HP; [|done]. eapply (ends_clobbers (F ++ [z]) G); [lia|].
      unfold ends. by rewrite Hm'. }
  intros m2 c' Hm2 Hc'. rewrite <- HG in Hm2.
  apply (ends_back (F ++ [z]) G m1) in Hm2; [|done|done].
  destruct c'; apply wp_ret.
  - exists p', q', u, (S w), (F ++ [z]), (x' :: G).
    split_and!; try done; try (rewrite ?length_app; simpl; lia).
    eapply back_step_A; [done..|]. intros HL. symmetry. by apply Hc'.
  - exists p', q', (S u), w, (F ++ [z]), (y' :: G).
    split_and!; try done; try (rewrite ?length_app; simpl; lia).
    eapply back_step_B; [done..|]. intros HL. symmetry. by apply Hc'.
Qed.

(** The last element when the length is odd. *)
Lemma bidir_last p q u w F G m (Q : nat * nat → mem T → Prop) P :
  len mod 2 ≠ 0 → p + q = h → u + w + h = len → len = 2 * h + len mod 2 →
  u ≤ h → w ≤ length B → length F = h → length G = h → ends F G m →
  front lt A B L p q F → back lt A B L u w G →
  (∀ p' q' F' m', length F' + length G = len → ends F' G m' → front lt A B L p' q' F' →
     p' + q' = h + 1 → p' ≤ h → q' ≤ length B → Q (src + p', src + h + q') m') →
  wp (let left_nonempty := (Z.of_nat (src + p) <? Z.of_nat (src + u) - 1 + 1)%Z in
      let last_src := if left_nonempty then src + p else src + h + q in
      _ ← copy_nonoverlapping sb last_src db (dst + h) 1;
      left_p ← padd sb (src + p) (Nat.b2n left_nonempty);
      right_p ← padd sb (src + h + q) (Nat.b2n (negb left_nonempty));
      mret (left_p, right_p)) Q P m.
Proof.
  intros Hodd Hpq Huw Hlen Hu Hw HF HG Hm Hfr Hbk HQ.
  assert (len mod 2 < 2) by by apply Nat.mod_upper_bound.
  assert (holds sb src (A ++ B) m) as Hm' by (eapply (ends_holds F G); [lia|done]).
  assert (src + len ≤ size sb m) as Hsz.
  { rewrite <- length_app. apply holds_size; [done|]. intros Hn%(f_equal length).
    rewrite length_app in Hn. simpl in Hn. rewrite Hn in Hodd. done. }
  cbv zeta. set (c := (Z.of_nat (src + p) <? Z.of_nat (src + u) - 1 + 1)%Z).
  assert (c = true ∧ p < u ∨ c = false ∧ u ≤ p) as Hc by (unfold c; case_bool; lia).
  assert (∃ z p' q', get sb m !! (if c then src + p else src + h + q) = Some (Some z) ∧
    front lt A B L p' q' (F ++ [z]) ∧ p' = p + Nat.b2n c ∧ q' = q + Nat.b2n (negb c) ∧
    p' ≤ h ∧ q' ≤ length B) as (z&p'&q'&Hz&Hfr'&Hp'&Hq'&?&?).
  { assert (L → sorted lt A → sorted lt B → (p < u → q = w) ∧ (u ≤ p → p = u ∧ q < w)) as Hmeet.
    { intros HL HA HB. destruct Hfr as [_ Hfr], Hbk as [_ Hbk].
      destruct (Hfr HL HA HB) as [Hc1 _], (Hbk HL HA HB) as [Hc2 _].
      pose proof (cut_path lt A B p q u w Hc1 Hc2).
      pose proof (cut_path lt A B u w p q Hc2 Hc1). lia. }
    destruct Hc as [[-> ?]|[-> ?]].
    - destruct (lookup_lt_is_Some_2 A p) as [x Hx]; [lia|]. exists x, (S p), q.
      split; [by eapply (ends_A F G); [lia|..]|]. simpl. split; [|lia].
      destruct Hfr as [Hp Hfr]. split.
      + rewrite (take_S_r _ _ x), Hp, <- !app_assoc by done. f_equiv. apply Permutation_app_comm.
      + intros HL HA HB. assert (p + 1 = u ∧ q = w) as [<- <-]
          by (destruct (Hmeet HL HA HB); lia).
        destruct (Hfr HL HA HB) as [Hc1 ->], Hbk as [_ Hbk].
        destruct (Hbk HL HA HB) as [Hc2 _]. rewrite Nat.add_1_r in Hc2. split; [done|].
        symmetry. by apply isort_front_A.
    - destruct (lookup_lt_is_Some_2 B q) as [y Hy]; [lia|]. exists y, p, (S q).
      split; [by eapply (ends_B F G); [lia|..]|]. simpl. split; [|lia].
      destruct Hfr as [Hp Hfr]. split.
      + by rewrite (take_S_r B _ y), Hp, <- !app_assoc by done.
      + intros HL HA HB. assert (p = u ∧ q + 1 = w) as [<- <-]
          by (destruct (Hmeet HL HA HB); lia).
        destruct (Hfr HL HA HB) as [Hc1 ->], Hbk as [_ Hbk].
        destruct (Hbk HL HA HB) as [Hc2 _]. rewrite Nat.add_1_r in Hc2. split; [done|].
        symmetry. by apply isort_front_B. }
  apply wp_bind. eapply wp_copy1; [exact Hz| | |].
  { destruct (apart_ne (src + p) (dst + h)); [lia..|by left|].
    destruct (apart_ne (src + h + q) (dst + h)); [lia..|by left|].
    right. by destruct c. }
  { rewrite (ends_size _ _ _ Hm). lia. }
  apply wp_bind, wp_padd; [rewrite size_store; destruct Hc as [[-> ?]|[-> ?]]; simpl; lia|].
  apply wp_bind, wp_padd; [rewrite size_store; destruct Hc as [[-> ?]|[-> ?]]; simpl; lia|].
  apply wp_ret. rewrite <- !Nat.add_assoc, <- Hp', <- Hq', Nat.add_assoc.
  apply (HQ p' q' (F ++ [z])); [rewrite length_app; simpl; lia| |done| |done..].
  - eapply ends_front; [|exact Hm|by rewrite HF]. lia.
  - destruct Hc as [[-> ?]|[-> ?]]; simpl in *; lia.
Qed.

Lemma bidirectional_merge_spec :
  h = len / 2 → 1 ≤ h →
  wp (bidirectional_merge less sb src len db dst)
    (λ _ m, ∃ l, eqm m (store db dst l m0) ∧ l ≡ₚ A ++ B ∧
       (L → sorted lt A → sorted lt B → l = isort lt (A ++ B)))
    (λ m, clobbers db dst len m0 m ∧ ¬ (L ∧ sorted lt A ∧ sorted lt B)) m0.
Proof.
  intros Hh Hh1. pose proof (Nat.div_mod len 2 ltac:(lia)) as Hlen. rewrite <- Hh in Hlen.
  assert (len mod 2 < 2) by by apply Nat.mod_upper_bound.
  assert (src + len ≤ size sb m0) as Hsz.
  { rewrite <- length_app. apply holds_size; [done|]. intros Hn%(f_equal length).
    rewrite length_app in Hn. simpl in Hn. lia. }
  unfold bidirectional_merge. cbv zeta. rewrite <- Hh.
  apply wp_bind, wp_assume; [by destruct (Nat.eqb_spec h 0); [lia|]|].
  apply wp_bind, wp_padd; [lia|].
  do 3 (apply wp_bind, wp_psub; [lia|]). apply wp_bind.
  eapply wp_mono with (P := λ m, clobbers db dst len m0 m ∧ ¬ L);
    [apply (wp_for_fold bidir_inv)| |].
  { intros i x m ? HI. apply bidir_step; [done|lia|done|done]. }
  { exists 0, 0, h, (length B), [], []. simpl.
    split_and!; try done; try lia.
    - unfold ends. by rewrite !store_nil.
    - apply front_0.
    - apply back_full. }
  2:{ intros m [Hm HnL]. split; [done|]. by intros [??]. }
  intros [[[[[left_p right_p] d] left_rev] right_rev] d_rev] m. rewrite Nat.add_0_l.
  intros (p&q&u&w&F&G&->&->&->&->&->&->&Hpq&Huw&Hu&Hw&HF&HG&Hm&Hfr&Hbk).
  apply wp_bind.
  assert (∀ p' q' F' m', length F' + length G = len → ends F' G m' →
    front lt A B L p' q' F' → p' + q' = u + w → p' ≤ h → q' ≤ length B →
    wp (if negb (Z.of_nat (src + p') =? Z.of_nat (src + u) - 1 + 1)%Z ||
           negb (Z.of_nat (src + h + q') =? Z.of_nat (src + h + w) - 1 + 1)%Z
        then panic else mret ())
      (λ _ m, ∃ l, eqm m (store db dst l m0) ∧ l ≡ₚ A ++ B ∧
         (L → sorted lt A → sorted lt B → l = isort lt (A ++ B)))
      (λ m, clobbers db dst len m0 m ∧ ¬ (L ∧ sorted lt A ∧ sorted lt B)) m') as Hend.
  { intros p' q' F' m' HF' Hm' Hfr' ???.
    destruct (decide (p' = u ∧ q' = w)) as [[-> ->]|Hne].
    - rewrite !Z.sub_add, !Z.eqb_refl. simpl. apply wp_ret.
      exists (F' ++ G). split; [by apply ends_full|].
      by apply (front_back_join lt A B L u w).
    - assert (p' ≠ u ∨ q' ≠ w) by lia.
      replace (_ || _) with true; [|symmetry; apply orb_true_iff; rewrite !negb_true_iff, !Z.eqb_neq; lia].
      apply wp_panic. split; [eapply (ends_clobbers F' G); [lia|done]|].
      intros (HL&HA&HB). apply Hne.
      by apply (front_back_meet lt A B L p' q' F' u w G). }
  destruct (Nat.eqb_spec (len mod 2) 0); cbn [negb].
  - apply wp_ret. apply (Hend p q F); [lia|done|done|lia|lia|lia].
  - eapply (bidir_last p q u w F G); [done..|].
    intros p' q' F' m' ??????. apply (Hend p' q' F'); [done..|lia|done|done].
Qed.
End bidir.

End spec.
