(* ===== verification/SmallGeneral.v ===== *)
(** [sort8_stable] and [small_sort_general]: two presorted halves are grown by
    insertion in the scratch buffer and merged back into the slice. *)

From S2P Require Import Prelude.
From S2P Require Import Order.
From S2P Require Import SortMem.
From S2P Require Import SmallSort.
From S2P Require Import SmallSortSpec.
From S2P Require Import BidirSpec.

Section spec.
Context {T : Type} (less : comparator T) (lt : T → T → bool) `{!StrictWeak lt}.
Implicit Types (m : mem T) (l A B : list T).
Let L : Prop := lawful less lt.

(** The result of a routine that sorts [l] into the cells [o..] of the scratch
    buffer: everything outside the ranges [o..] and [t..t+n] is kept. *)
Definition sorted_into o t n l m0 m : Prop :=
  ∃ l' k, eqm m (store BS o l' (store BS t k m0)) ∧ length k = n ∧
    l' ≡ₚ l ∧ (L → l' = isort lt l).

Lemma sorted_into_holds o t n l m0 m :
  o + length l ≤ size BS m0 → sorted_into o t n l m0 m →
  ∃ l', holds BS o l' m ∧ l' ≡ₚ l ∧ (L → l' = isort lt l).
Proof.
  intros Ho (l'&k&Hm&_&Hp&HL). exists l'. split; [|done]. rewrite Hm.
  apply holds_store_eq. by rewrite size_store, Hp.
Qed.

Lemma sorted_into_scratch o t n l m0 m : sorted_into o t n l m0 m → scratch_only m0 m.
Proof.
  intros (l'&k&Hm&_). apply scratch_only_eqm in Hm. etrans; [|exact Hm].
  by do 2 apply scratch_only_store.
Qed.

Lemma sorted_into_frame o t n l m0 m o' k :
  sorted_into o t n l m0 m → holds BS o' k m0 →
  (o + length l ≤ o' ∨ o' + length k ≤ o) → (t + n ≤ o' ∨ o' + length k ≤ t) →
  holds BS o' k m.
Proof.
  intros (l'&k'&Hm&<-&Hp&_) Hk ??. rewrite Hm. apply Permutation_length in Hp.
  apply holds_store_ne; [right; lia|]. apply holds_store_ne; [right; lia|done].
Qed.

Lemma sort4_into v o t l m :
  holds BV v l m → length l = 4 → o + 4 ≤ size BS m →
  wp (sort4_stable less BV v BS o) (λ _, sorted_into o t 0 l m)
    (λ m', scratch_only m m' ∧ ¬ L) m.
Proof.
  intros Hl Hlen Hsz. eapply wp_mono; [apply (sort4_spec less lt); [done..|by left|done]| |].
  - intros [] m' (l'&Hm'&Hp&HL). exists l', []. by rewrite store_nil.
  - intros m' [Hm' HL]. split; [by apply scratch_only_eqm|done].
Qed.

Lemma sort8_into v o t l m :
  holds BV v l m → length l = 8 → o + 8 ≤ size BS m → t + 8 ≤ size BS m →
  (o + 8 ≤ t ∨ t + 8 ≤ o) →
  wp (sort8_stable less BV v BS o t) (λ _, sorted_into o t 8 l m)
    (λ m', scratch_only m m' ∧ ¬ L) m.
Proof.
  intros Hl Hlen Ho Ht Hd. destruct (list_split_at l 4) as (l1&l2&->&Hl1); [lia|].
  rewrite length_app in Hlen. apply holds_app in Hl as [Hh1 Hh2]. rewrite Hl1 in Hh2.
  unfold sort8_stable. apply wp_bind. eapply wp_mono.
  { apply (sort4_spec less lt BV v BS t l1); [done..|by left|lia]. }
  2:{ intros m' [Hm' HL]. split; [by apply scratch_only_eqm|done]. }
  intros [] m1 (k1&Hm1&Hp1&HL1). pose proof (Permutation_length Hp1).
  apply wp_bind. eapply wp_mono.
  { apply (sort4_spec less lt BV (v + 4) BS (t + 4) l2); [|lia|by left|rewrite Hm1, size_store; lia].
    rewrite Hm1. apply holds_store_ne; [by left|done]. }
  2:{ intros m' [Hm' HL]. split; [|done]. apply scratch_only_eqm_store in Hm1.
    apply scratch_only_eqm in Hm'. by etrans. }
  intros [] m2 (k2&Hm2&Hp2&HL2). pose proof (Permutation_length Hp2).
  assert (eqm m2 (store BS t (k1 ++ k2) m)) as Hm2'.
  { rewrite Hm2, Hm1, store_app. by replace (t + length k1) with (t + 4) by lia. }
  replace 8 with (length k1 + length k2) by lia. eapply wp_mono.
  { apply (bidirectional_merge_spec less lt BS t BS o k1 k2).
    - rewrite Hm2'. apply holds_store_eq. rewrite length_app. lia.
    - right. lia.
    - rewrite Hm2', size_store. lia.
    - replace (length k1 + length k2) with 8 by lia. by replace (length k1) with 4 by lia.
    - lia. }
  - intros [] m3 (l'&Hm3&Hp&HL3). exists l', (k1 ++ k2). rewrite Hm3, Hm2'.
    split; [done|]. split; [rewrite length_app; lia|]. split; [by rewrite Hp, Hp1, Hp2|].
    intros HL. rewrite HL3 by (try done; rewrite ?HL1, ?HL2 by done; by apply isort_sorted).
    rewrite HL1, HL2 by done. by apply isort_app.
  - intros m3 [Hm3 Hn]. split.
    + apply scratch_only_eqm_store in Hm2'. etrans; [exact Hm2'|]. split; [by apply (clobbers_other _ _ _ BV _ _ Hm3)|].
      by apply (clobbers_size _ _ _ BS _ _ Hm3).
    + intros HL. apply Hn. rewrite HL1, HL2 by done. split_and!; [done|by apply isort_sorted..].
Qed.
(** One half is extended from [pre] presorted elements to [part]. *)
Lemma extend_sorted_spec o part k0 pre m1 :
  holds BV o part m1 → holds BS o k0 m1 → o + length part ≤ size BS m1 →
  1 ≤ pre ≤ length part → k0 ≡ₚ take pre part → (L → k0 = isort lt (take pre part)) →
  wp (for_range (length part - pre) pre (λ i,
        _ ← copy_nonoverlapping BV (o + i) BS (o + i) 1;
        insert_tail less BS o (o + i)))
    (λ _ m, ∃ k, eqm m (store BS o k m1) ∧ k ≡ₚ part ∧ (L → k = isort lt part))
    (λ m, scratch_only m1 m ∧ ¬ L) m1.
Proof.
  intros HV Hk0 Hsz Hpre Hp0 HL0. eapply wp_mono; [apply (wp_for_range (λ i m, ∃ k,
    eqm m (store BS o k m1) ∧ k ≡ₚ take i part ∧ (L → k = isort lt (take i part))))| |].
  3:{ intros [] m (k&Hm&Hp&HL). replace (pre + (length part - pre)) with (length part) in * by lia.
      rewrite take_ge in Hp by done. exists k. split_and!; [done..|]. intros HL'.
      rewrite HL, take_ge; done. }
  2:{ exists k0. by rewrite store_holds. }
  2:{ intros m Hm. exact Hm. }
  intros i m Hi (k&Hm&Hp&HL). cbn beta.
  destruct (lookup_lt_is_Some_2 part i) as [x Hx]; [lia|].
  assert (length k = i) as Hk by (rewrite Hp, length_take; lia).
  apply wp_bind. eapply wp_copy1 with (x := x); [rewrite Hm; by apply HV|by left| |].
  { rewrite Hm, size_store. lia. }
  assert (eqm (store BS (o + i) [x] m) (store BS o (k ++ [x]) m1)) as Hm'.
  { by rewrite Hm, store_app, Hk. }
  assert (k ++ [x] ≡ₚ take (S i) part) as Hp' by by rewrite (take_S_r _ _ x), Hp.
  eapply (wp_part BS o [] (k ++ [x]) []); [by rewrite app_nil_r| | |].
  - rewrite Nat.add_0_r. apply (insert_tail_spec less lt BS o (o + i) k x).
    + rewrite Hm'. apply holds_store_eq. rewrite Hp', length_take. lia.
    + intros ->. simpl in *. lia.
    + by rewrite Hk.
  - simpl. intros [] k' m' Hm'' Hk' HF. exists k'. rewrite app_nil_r, Nat.add_1_r in *.
    split; [done|]. split; [by rewrite Hk'|]. intros HL'.
    rewrite HF by (try done; rewrite HL by done; by apply isort_sorted).
    rewrite (take_S_r _ _ x), HL by done. apply isort_proper; [done|].
    apply stable_eq_app; [|done]. by apply isort_stable.
  - simpl. intros k' m' Hm'' _ HF. split; [|done]. by apply scratch_only_eqm_store in Hm''.
Qed.

(** The first phase: both halves get a presorted start in the scratch buffer. *)
Definition presort (ti : ty_info) len : prog (mem T) nat :=
  if (size_of ti <=? 16) && (16 <=? len) then
    _ ← sort8_stable less BV 0 BS 0 (0 + len);
    _ ← sort8_stable less BV (0 + len / 2) BS (0 + len / 2) (0 + (len + 8));
    mret 8
  else if 8 <=? len then
    _ ← sort4_stable less BV 0 BS 0;
    _ ← sort4_stable less BV (0 + len / 2) BS (0 + len / 2);
    mret 4
  else
    _ ← copy_nonoverlapping BV 0 BS 0 1;
    _ ← copy_nonoverlapping BV (0 + len / 2) BS (0 + len / 2) 1;
    mret 1.

Definition presorted (n o : nat) part m : Prop :=
  ∃ k, holds BS o k m ∧ k ≡ₚ take n part ∧ (L → k = isort lt (take n part)).

Lemma presort_two n A B t0 t1 N (p1 p2 : prog (mem T) ()) m :
  holds BV 0 (A ++ B) m → n ≤ length A → length A ≤ length B →
  length A + length B + 16 ≤ size BS m →
  length A + length B ≤ t0 → length A + length B ≤ t1 →
  (∀ m, holds BV 0 (take n A) m → length A + length B + 16 ≤ size BS m →
     wp p1 (λ _, sorted_into 0 t0 N (take n A) m) (λ m', scratch_only m m' ∧ ¬ L) m) →
  (∀ m, holds BV (length A) (take n B) m → length A + length B + 16 ≤ size BS m →
     wp p2 (λ _, sorted_into (length A) t1 N (take n B) m) (λ m', scratch_only m m' ∧ ¬ L) m) →
  wp (_ ← p1; _ ← p2; mret n)
    (λ n' m', n' = n ∧ presorted n 0 A m' ∧ presorted n (length A) B m' ∧ scratch_only m m')
    (λ m', scratch_only m m' ∧ ¬ L) m.
Proof.
  intros Hh HA HAB Hsz Ht0 Ht1 H1 H2. apply holds_app in Hh as [HhA HhB]. simpl in HhB.
  assert (∀ o (l : list T) m, holds BV o l m → holds BV o (take n l) m) as Htake.
  { intros o l m' Hl. rewrite <- (take_drop n l) in Hl. by apply holds_app in Hl as [? _]. }
  apply wp_bind. eapply wp_mono; [apply H1; [by apply Htake|done]| |done].
  intros [] m1 Hm1. pose proof (sorted_into_scratch _ _ _ _ _ _ Hm1) as Hs1.
  apply wp_bind. eapply wp_mono.
  { apply H2; [eapply scratch_only_holds; [done|]; by apply Htake|]. by destruct Hs1 as [_ ->]. }
  2:{ intros m2 [??]. split; [by etrans|done]. }
  intros [] m2 Hm2. pose proof (sorted_into_scratch _ _ _ _ _ _ Hm2) as Hs2.
  apply wp_ret. split; [done|]. split_and!; [| |by etrans].
  - apply sorted_into_holds in Hm1 as (k&Hk&Hp&?); [|len]. exists k.
    split; [|done]. eapply sorted_into_frame; [done..| |].
    + right. rewrite Hp, length_take. lia.
    + right. rewrite Hp, length_take. lia.
  - apply sorted_into_holds in Hm2 as (k&Hk&Hp&?); [|destruct Hs1 as [_ ->]; len]. by exists k.
Qed.

Lemma copy_into v o t l m :
  holds BV v l m → length l = 1 → o + 1 ≤ size BS m →
  wp (copy_nonoverlapping BV v BS o 1) (λ _, sorted_into o t 0 l m)
    (λ m', scratch_only m m' ∧ ¬ L) m.
Proof.
  intros Hl Hlen Hsz. destruct l as [|x [|??]]; try done.
  eapply wp_copy1; [rewrite <- (Nat.add_0_r v); by apply Hl|by left|lia|].
  exists [x], []. by rewrite store_nil.
Qed.

Lemma presort_spec ti A B m :
  holds BV 0 (A ++ B) m → length A = (length A + length B) / 2 → 1 ≤ length A →
  length A + length B + 16 ≤ size BS m →
  wp (presort ti (length A + length B))
    (λ n m', 1 ≤ n ≤ length A ∧ presorted n 0 A m' ∧ presorted n (length A) B m' ∧
       scratch_only m m')
    (λ m', scratch_only m m' ∧ ¬ L) m.
Proof.
  intros Hh HA HA1 Hsz. unfold presort. set (len := length A + length B) in *. rewrite <- HA, !Nat.add_0_l.
  pose proof (Nat.div_mod len 2 ltac:(lia)) as Hlen. rewrite <- HA in Hlen.
  assert (len mod 2 < 2) by by apply Nat.mod_upper_bound.
  destruct (_ && _) eqn:H16; [apply andb_true_iff in H16 as [_ H16%Nat.leb_le]|];
    [|destruct (Nat.leb_spec 8 len)].
  - eapply wp_mono; [apply (presort_two 8 A B len (len + 8) 8); try done; try lia| |done].
    + intros m1 ??. apply sort8_into; [done|rewrite length_take; lia|lia..].
    + intros m1 ??. apply sort8_into; [done|rewrite length_take; lia|lia..].
    + intros n m' (->&?&?&?). split; [lia|done].
  - eapply wp_mono; [apply (presort_two 4 A B len len 0); try done; try lia| |done].
    + intros m1 ??. apply sort4_into; [done|rewrite length_take; lia|lia].
    + intros m1 ??. apply sort4_into; [done|rewrite length_take; lia|lia].
    + intros n m' (->&?&?&?). split; [lia|done].
  - eapply wp_mono; [apply (presort_two 1 A B len len 0); try done; try lia| |done].
    + intros m1 ??. apply copy_into; [done|rewrite length_take; lia|lia].
    + intros m1 ??. apply copy_into; [done|rewrite length_take; lia|lia].
    + intros n m' (->&?&?&?). split; [lia|done].
Qed.

(** The last phase: the halves are merged back into the slice; when the merge
    unwinds, the guard copies the scratch buffer back. *)
Lemma merge_back_spec A B l m m0 :
  slice_of l m → size BS m = size BS m0 → holds BS 0 (A ++ B) m → A ++ B ≡ₚ l →
  length A = length l / 2 → 1 ≤ length A →
  (L → sorted lt A ∧ sorted lt B ∧ isort lt (A ++ B) = isort lt l) →
  wp (on_panic (bidirectional_merge less BS 0 (length l) BV 0)
        (copy_nonoverlapping BS 0 BV 0 (length l)))
    (λ _, vperm l (λ l', L → l' = isort lt l) m0) (vperm l (λ _, ¬ L) m0) m.
Proof.
  intros Hl Hsz0 Hh Hp HA HA1 HL. pose proof Hl as [_ Hsz]%slice_of_holds.
  assert (length l = length A + length B) as Hlen by by rewrite <- Hp, length_app.
  apply wp_on_panic. rewrite Hlen. eapply wp_mono.
  { apply (bidirectional_merge_spec less lt BS 0 BV 0 A B); [done|by left|lia|by rewrite <- Hlen|lia]. }
  - intros [] m' (l'&Hm'&Hp'&HL'). exists l'. rewrite Hm'. split_and!.
    + eapply slice_of_store; [|done]. by rewrite Hp', Hp.
    + by rewrite size_store.
    + by rewrite Hp'.
    + intros HL''. destruct (HL HL'') as (?&?&<-). by apply HL'.
  - intros m' [Hm' Hn].
    eapply (wp_copy_nonoverlapping BS 0 BV 0 _ (A ++ B)).
    + eapply clobbers_holds; [|done..]. by left.
    + by rewrite length_app.
    + by left.
    + rewrite (clobbers_size _ _ _ _ _ _ Hm'), <- length_app. apply holds_size; [done|].
      by destruct A; simpl in *; [lia|].
    + rewrite (clobbers_size _ _ _ _ _ _ Hm'). lia.
    + exists (A ++ B). rewrite (clobbers_store _ _ _ _ _ _ (length_app A B) Hm'). split_and!.
      * eapply slice_of_store; [|done]. by rewrite Hp.
      * by rewrite size_store.
      * done.
      * intros HL'. apply Hn. by destruct (HL HL') as (?&?&_).
Qed.

Lemma small_sort_general_with_scratch_sorts ti l m :
  slice_of l m → length l + 16 ≤ size BS m →
  sorts less lt (small_sort_general_with_scratch less ti) l m.
Proof.
  intros Hl Hsz. pose proof Hl as [Hh HszV]%slice_of_holds.
  unfold sorts, small_sort_general_with_scratch. apply wp_bind, wp_len_of. rewrite HszV.
  destruct (Nat.ltb_spec (length l) 2).
  { apply wp_ret, vperm_refl; [done..|]. intros _. symmetry. apply isort_id; [done|].
    apply sorted_short. lia. }
  apply wp_bind, wp_len_of. destruct (Nat.ltb_spec (size BS m) (length l + 16)); [lia|].
  cbv zeta. fold (presort ti (length l)).
  set (h := length l / 2). pose proof (Nat.div_mod (length l) 2 ltac:(lia)) as Hlen.
  assert (length l mod 2 < 2) by by apply Nat.mod_upper_bound.
  destruct (list_split_at l h) as (A&B&->&HA); [lia|].
  subst h. rewrite length_app in *. rewrite <- HA in Hlen |- *.
  assert (∀ m', scratch_only m m' ∧ ¬ L → vperm (A ++ B) (λ _, ¬ L) m m') as Hpanic.
  { intros m' [Hm' ?]. apply vperm_refl; [by eapply scratch_only_slice|apply Hm'|done]. }
  apply wp_bind. eapply wp_mono; [apply (presort_spec ti A B m); [done|lia..]| |done].
  intros n m1 (Hn&(k1&Hk1&Hp1&HL1)&(k2&Hk2&Hp2&HL2)&Hs1). simpl.
  destruct (proj1 (holds_app BV 0 A B m1)) as [HA1 HB1]; [by eapply scratch_only_holds|].
  pose proof Hs1 as [HV1 HS1].
  apply wp_bind. eapply wp_mono; [apply (extend_sorted_spec 0 A k1 n m1); [done|done|lia|lia|done|done]| |].
  2:{ intros m' [Hm' ?]. apply Hpanic. split; [|done]. by etrans. }
  intros [] m2 (k1'&Hm2&Hp1'&HL1'). pose proof (Permutation_length Hp1').
  pose proof (scratch_only_eqm_store _ _ _ _ Hm2) as Hs2.
  destruct (Nat.eqb_spec (length A) 0); [lia|].
  replace (length A + length B - length A) with (length B) by lia.
  apply wp_bind. eapply wp_mono; [apply (extend_sorted_spec (length A) B k2 n m2)| |].
  { by eapply scratch_only_holds. }
  { rewrite Hm2. apply holds_store_ne; [right; lia|done]. }
  { destruct Hs2 as [_ ->]. lia. }
  { lia. }
  { done. }
  { done. }
  2:{ intros m' [Hm' ?]. apply Hpanic. split; [|done]. etrans; [|done]. by etrans. }
  intros [] m3 (k2'&Hm3&Hp2'&HL2').
  pose proof (scratch_only_eqm_store _ _ _ _ Hm3) as Hs3.
  assert (scratch_only m m3) as Hs by (etrans; [|exact Hs3]; by etrans).
  rewrite <- length_app. eapply merge_back_spec.
  - by eapply scratch_only_slice.
  - apply Hs.
  - rewrite Hm3, Hm2. replace (length A) with (0 + length k1') at 1 by lia.
    rewrite <- store_app. apply holds_store_eq. rewrite length_app, Hp1', Hp2'. lia.
  - by rewrite Hp1', Hp2'.
  - by rewrite length_app, Hp1'.
  - lia.
  - intros HL'. rewrite HL1', HL2' by done. split_and!; [by apply isort_sorted..|].
    by apply isort_app.
Qed.

Lemma with_stack_array_sorts n p l m :
  (∀ m', slice_of l m' → size BS m' = n → sorts less lt p l m') →
  slice_of l m → sorts less lt (with_stack_array n p) l m.
Proof.
  intros Hp Hl. apply wp_zoom. eapply wp_mono.
  - apply Hp; [done|]. unfold size; simpl. apply length_replicate.
  - intros [] m' (k&?&_&?&?). by exists k.
  - intros m' (k&?&_&?&?). by exists k.
Qed.

Lemma small_sort_general_sorts ti l m :
  slice_of l m → length l ≤ SMALL_SORT_GENERAL_THRESHOLD →
  sorts less lt (small_sort_general less ti) l m.
Proof.
  intros Hl Hlen. apply with_stack_array_sorts; [|done]. intros m' Hl' Hsz.
  apply small_sort_general_with_scratch_sorts; [done|].
  rewrite Hsz. unfold SMALL_SORT_GENERAL_SCRATCH_LEN. lia.
Qed.
End spec.
