(* ===== verification/NetworkSpec.v ===== *)
(** The sorting networks and [small_sort_network].  A network is checked on all
    sequences of booleans; the 0-1 principle carries this over to any order. *)

From S2P Require Import Prelude.
From S2P Require Import Order.
From S2P Require Import SortMem.
From S2P Require Import SmallSort.
From S2P Require Import SmallSortSpec.
From S2P Require Import BidirSpec.
From S2P Require Import SmallGeneral.

(** ** Comparators on lists *)
Definition exchange {A} (i j : nat) (l : list A) : list A :=
  match l !! i, l !! j with
  | Some x, Some y => <[j := x]> (<[i := y]> l)
  | _, _ => l
  end.

Definition compare_exchange {A} (lt : A → A → bool) (i j : nat) (l : list A) : list A :=
  match l !! i, l !! j with
  | Some x, Some y => if lt y x then exchange i j l else l
  | _, _ => l
  end.

Definition net_run {A} (lt : A → A → bool) (net : list (nat * nat)) (l : list A) : list A :=
  foldl (λ l '(i, j), compare_exchange lt i j l) l net.

Section exchange.
Context {A : Type}.
Implicit Types (l : list A).

Lemma exchange_split l i j x y :
  i < j → l !! i = Some x → l !! j = Some y → ∃ l1 l2 l3,
    l = l1 ++ x :: l2 ++ y :: l3 ∧ length l1 = i ∧ length (l1 ++ x :: l2) = j ∧
    exchange i j l = l1 ++ y :: l2 ++ x :: l3.
Proof.
  intros Hij Hx Hy. pose proof (lookup_lt_Some _ _ _ Hy).
  destruct (list_split_mid l i) as (l1&x'&l'&->&Hl1); [lia|].
  rewrite lookup_mid in Hx by done. injection Hx as ->.
  rewrite length_app in H; simpl in H.
  destruct (list_split_mid l' (j - i - 1)) as (l2&y'&l3&->&Hl2); [lia|].
  rewrite app_comm_cons, app_assoc, lookup_mid in Hy; [|rewrite length_app; simpl; lia].
  injection Hy as ->. exists l1, l2, l3. split_and!; [done|done|rewrite length_app; simpl; lia|].
  unfold exchange. rewrite lookup_mid by done.
  assert ((l1 ++ x :: l2 ++ y :: l3) !! j = Some y) as ->.
  { rewrite app_comm_cons, app_assoc. apply lookup_mid. rewrite length_app. simpl. lia. }
  rewrite insert_mid by done. rewrite app_comm_cons, app_assoc.
  rewrite insert_mid by (rewrite length_app; simpl; lia).
  by rewrite <- app_assoc.
Qed.

Lemma exchange_Permutation i j l : i < j → exchange i j l ≡ₚ l.
Proof.
  intros Hij. destruct (l !! i) as [x|] eqn:Hx, (l !! j) as [y|] eqn:Hy;
    [|by unfold exchange; rewrite Hx, ?Hy..].
  destruct (exchange_split l i j x y) as (l1&l2&l3&->&_&_&->); [done..|].
  apply Permutation_app_head. rewrite <- !Permutation_middle. apply perm_swap.
Qed.

Lemma length_exchange i j l : length (exchange i j l) = length l.
Proof. unfold exchange. repeat case_match; by rewrite ?length_insert. Qed.

Lemma length_compare_exchange lt i j l : length (compare_exchange lt i j l) = length l.
Proof. unfold compare_exchange. repeat case_match; by rewrite ?length_exchange. Qed.

Lemma length_net_run lt net l : length (net_run lt net l) = length l.
Proof.
  revert l. induction net as [|[i j] net IH]; intros l; [done|].
  change (length (net_run lt net (compare_exchange lt i j l)) = length l).
  by rewrite IH, length_compare_exchange.
Qed.

Lemma compare_exchange_app lt i j l k : i < length l → j < length l →
  compare_exchange lt i j (l ++ k) = compare_exchange lt i j l ++ k.
Proof.
  intros. unfold compare_exchange, exchange. rewrite !lookup_app_l by done.
  repeat case_match; try done. simplify_eq. by rewrite !insert_app_l by by rewrite ?length_insert.
Qed.

Lemma net_run_app lt net l k :
  Forall (λ '(i, j), i < length l ∧ j < length l) net →
  net_run lt net (l ++ k) = net_run lt net l ++ k.
Proof.
  intros Hnet. revert l Hnet. induction net as [|[i j] net IH]; intros l; [done|].
  intros [[??] Hnet]%Forall_cons. simpl.
  change (net_run lt net (compare_exchange lt i j (l ++ k)) =
          net_run lt net (compare_exchange lt i j l) ++ k).
  rewrite compare_exchange_app by done. apply IH. by rewrite length_compare_exchange.
Qed.
End exchange.

(** ** The 0-1 principle *)
Definition bool_lt (a b : bool) : bool := negb a && b.

Fixpoint bool_sorted (l : list bool) : bool :=
  match l with
  | [] => true
  | b :: l' => (negb b || forallb id l') && bool_sorted l'
  end.

Fixpoint all_bools (n : nat) : list (list bool) :=
  match n with
  | O => [[]]
  | S n => map (cons true) (all_bools n) ++ map (cons false) (all_bools n)
  end.

Definition net_sorts (n : nat) (net : list (nat * nat)) : bool :=
  forallb (λ '(i, j), (i <? j) && (j <? n)) net &&
  forallb (λ l, bool_sorted (net_run bool_lt net l)) (all_bools n).

Lemma elem_of_all_bools l : l ∈ all_bools (length l).
Proof.
  induction l as [|b l IH]; simpl; [by left|]. apply list_elem_of_In in IH.
  apply list_elem_of_In, in_or_app. destruct b; [left|right]; by apply in_map.
Qed.

Lemma sort9_network_sorts : net_sorts 9 sort9_network = true.
Proof. vm_compute. reflexivity. Qed.

Lemma sort13_network_sorts : net_sorts 13 sort13_network = true.
Proof. vm_compute. reflexivity. Qed.

Section zero_one.
Context {T : Type} (lt : T → T → bool) `{!StrictWeak lt}.
Implicit Types (l : list T) (t : T).

(** The elements not below a threshold. *)
Definition above t x : bool := negb (lt x t).

Lemma above_mono t x y : le lt x y → above t x = true → above t y = true.
Proof.
  unfold above. rewrite !negb_true_iff. intros Hxy Hx. by apply (le_trans t x y).
Qed.

Lemma map_exchange t i j l : map (above t) (exchange i j l) = exchange i j (map (above t) l).
Proof.
  unfold exchange. rewrite !list_lookup_fmap.
  destruct (l !! i), (l !! j); simpl; try done. by rewrite !list_fmap_insert.
Qed.

Lemma exchange_same {A} (l : list A) i j x :
  l !! i = Some x → l !! j = Some x → exchange i j l = l.
Proof.
  intros Hi Hj. unfold exchange. rewrite Hi, Hj.
  by rewrite (list_insert_id l), list_insert_id.
Qed.

Lemma map_compare_exchange t i j l :
  map (above t) (compare_exchange lt i j l) =
  compare_exchange bool_lt i j (map (above t) l).
Proof.
  unfold compare_exchange. rewrite !list_lookup_fmap.
  destruct (l !! i) as [x|] eqn:Hx, (l !! j) as [y|] eqn:Hy; simpl; try done.
  unfold bool_lt. destruct (lt y x) eqn:Hlt.
  - rewrite map_exchange. destruct (negb (above t y) && above t x) eqn:Hab; [done|].
    pose proof (above_mono t y x (lt_le lt y x Hlt)) as Hm.
    assert (above t x = above t y) as Heq by (destruct (above t y), (above t x); naive_solver).
    eapply exchange_same; rewrite list_lookup_fmap.
    + by rewrite Hx.
    + by rewrite Hy; simpl; rewrite Heq.
  - pose proof (above_mono t x y Hlt) as Hm.
    by destruct (above t y), (above t x); naive_solver.
Qed.

Lemma map_net_run t net l :
  map (above t) (net_run lt net l) = net_run bool_lt net (map (above t) l).
Proof.
  revert l. induction net as [|[i j] net IH]; intros l; [done|].
  change (map (above t) (net_run lt net (compare_exchange lt i j l)) =
    net_run bool_lt net (compare_exchange bool_lt i j (map (above t) l))).
  by rewrite IH, map_compare_exchange.
Qed.

Lemma sorted_above l : (∀ t, bool_sorted (map (above t) l) = true) → sorted lt l.
Proof.
  induction l as [|x l IH]; intros H; [constructor|]. constructor.
  - apply IH. intros t. specialize (H t). simpl in H. by apply andb_true_iff in H as [_ ?].
  - specialize (H x). simpl in H. apply andb_true_iff in H as [H _].
    unfold above at 1 in H. rewrite (le_refl lt x : lt x x = false) in H. simpl in H.
    apply Forall_forall. intros y Hy. rewrite forallb_forall in H.
    apply list_elem_of_In in Hy. specialize (H _ (in_map (above x) l y Hy)).
    by apply negb_true_iff.
Qed.

Lemma zero_one n net l :
  net_sorts n net = true → length l = n → sorted lt (net_run lt net l).
Proof.
  intros [_ H]%andb_true_iff Hl. apply sorted_above. intros t. rewrite map_net_run.
  rewrite forallb_forall in H. apply H. rewrite <- Hl, <- (length_fmap (above t) l).
  apply list_elem_of_In, elem_of_all_bools.
Qed.
End zero_one.

(** ** The code of the networks *)
Section spec.
Context {T : Type} (less : comparator T) (lt : T → T → bool) `{!StrictWeak lt}.
Implicit Types (m : mem T) (l A B : list T).
Let L : Prop := lawful less lt.

Lemma swap_if_less_spec i j l m :
  slice_of l m → i < j → j < length l →
  wp (swap_if_less less i j)
    (λ _ m', ∃ l', slice_of l' m' ∧ mS m' = mS m ∧ l' ≡ₚ l ∧ (L → l' = compare_exchange lt i j l))
    (λ m', eqm m' m ∧ ¬ L) m.
Proof.
  intros Hl Hij Hj. pose proof Hl as [Hh Hsz]%slice_of_holds.
  destruct (lookup_lt_is_Some_2 l i) as [x Hx]; [lia|].
  destruct (lookup_lt_is_Some_2 l j) as [y Hy]; [lia|].
  unfold swap_if_less. cbv zeta.
  apply wp_bind. eapply wp_rd; [by apply (Hh j)|]. apply wp_bind. eapply wp_rd; [by apply (Hh i)|].
  apply wp_bind, (wp_cmp less lt); [|done]. intros c m1 Hm1 Hc.
  apply wp_bind. eapply wp_rd with (x := if c then x else y).
  { rewrite Hm1. destruct c; [by apply (Hh i)|by apply (Hh j)]. }
  apply wp_bind. eapply wp_copy with (l := [if c then y else x]); [|done| | |].
  { intros k z Hz. destruct k; [|done]. injection Hz as <-. rewrite Nat.add_0_r, Hm1.
    destruct c; [by apply (Hh j)|by apply (Hh i)]. }
  { rewrite Hm1. destruct c; lia. }
  { rewrite Hm1. lia. }
  apply wp_wr; [rewrite size_store, Hm1; lia|].
  exists (if c then exchange i j l else l).
  assert (slice_of l m1) as Hl1 by by rewrite Hm1.
  assert (mS m1 = mS m) as HS1 by by destruct Hm1.
  split_and!.
  - unfold slice_of, store. simpl. rewrite Hl1.
    destruct c; simpl; unfold exchange; rewrite ?Hx, ?Hy, ?list_fmap_insert; [done|].
    rewrite (list_insert_id _ i) by by rewrite list_lookup_fmap, Hx.
    by rewrite (list_insert_id _ j) by by rewrite list_lookup_fmap, Hy.
  - unfold store. simpl. done.
  - destruct c; [by apply exchange_Permutation|done].
  - intros HL. unfold compare_exchange. rewrite Hx, Hy, <- (Hc HL). by destruct c.
Qed.

Lemma run_network_spec n net l m :
  slice_of l m → forallb (λ '(i, j), (i <? j) && (j <? n)) net = true → n ≤ length l →
  wp (run_network less net)
    (λ _ m', ∃ l', slice_of l' m' ∧ mS m' = mS m ∧ l' ≡ₚ l ∧ (L → l' = net_run lt net l))
    (λ m', ∃ l', slice_of l' m' ∧ mS m' = mS m ∧ l' ≡ₚ l ∧ ¬ L) m.
Proof.
  intros Hl Hnet Hn. revert l m Hl Hn. induction net as [|[i j] net IH]; intros l m Hl Hn.
  { apply wp_ret. by exists l. }
  cbn [forallb] in Hnet. rewrite !andb_true_iff, !Nat.ltb_lt in Hnet.
  destruct Hnet as [[Hij Hj] Hnet]. simpl. apply wp_bind.
  eapply wp_mono; [apply (swap_if_less_spec i j l); [done|done|lia]| |].
  - intros [] m1 (l1&Hl1&HS1&Hp1&HL1). eapply wp_mono.
    + apply (IH Hnet l1 m1); [done|by rewrite Hp1].
    + intros [] m2 (l2&?&HS2&Hp2&HL2). exists l2. split_and!; [done|congruence|by rewrite Hp2|].
      intros HL. by rewrite HL2, HL1.
    + intros m2 (l2&?&HS2&Hp2&?). exists l2. split_and!; [done|congruence|by rewrite Hp2|done].
  - intros m1 [Hm1 HnL]. exists l. split_and!; [by rewrite Hm1|by destruct Hm1|done|done].
Qed.

Lemma net_run_prefix n net l :
  net_sorts n net = true → n ≤ length l → sorted lt (take n (net_run lt net l)).
Proof.
  intros Hnet Hn. rewrite <- (take_drop n l), net_run_app.
  - rewrite take_app_length' by (rewrite length_net_run, length_take; lia).
    eapply (zero_one lt n); [done|]. rewrite length_take. lia.
  - apply andb_true_iff in Hnet as [Hnet _]. rewrite forallb_forall in Hnet.
    apply Forall_forall. intros [i j] Hij%list_elem_of_In.
    specialize (Hnet _ Hij). cbn beta iota in Hnet. rewrite andb_true_iff, !Nat.ltb_lt in Hnet.
    rewrite length_take. lia.
Qed.

Lemma network_spec n net l m :
  slice_of l m → net_sorts n net = true → n ≤ length l →
  wp (run_network less net)
    (λ _, vperm l (λ l', L → sorted lt (take n l')) m) (vperm l (λ _, ¬ L) m) m.
Proof.
  intros Hl Hnet Hn. pose proof Hnet as [Hlt _]%andb_true_iff.
  eapply wp_mono; [by apply (run_network_spec n net l)| |].
  - intros [] m1 (l1&?&HS&Hp&HL). exists l1. split_and!; [done|unfold size; simpl; congruence|done|].
    intros HL'. rewrite HL by done. by apply net_run_prefix.
  - intros m1 (l1&?&HS&Hp&HL). exists l1. split_and!; [done|unfold size; simpl; congruence|done..].
Qed.

Lemma sort_region_spec l m :
  slice_of l m → l ≠ [] →
  wp (sort_region less)
    (λ _, vperm l (λ l', L → sorted lt l') m) (vperm l (λ _, ¬ L) m) m.
Proof.
  intros Hl Hne. pose proof Hl as [_ Hsz]%slice_of_holds.
  assert (1 ≤ length l) by (destruct l; [done|simpl; lia]).
  unfold sort_region. apply wp_bind, wp_len_of. rewrite Hsz. apply wp_bind.
  eapply (wp_mono _ (λ n m', 1 ≤ n ≤ length l ∧ vperm l (λ l', L → sorted lt (take n l')) m m')
    _ (vperm l (λ _, ¬ L) m)); [| |done].
  - destruct (Nat.leb_spec 13 (length l)); [|destruct (Nat.leb_spec 9 (length l))].
    + apply wp_bind. unfold sort13_optimal. apply wp_bind, wp_len_of. rewrite Hsz.
      destruct (Nat.ltb_spec (length l) 13); [lia|].
      eapply wp_mono; [apply (network_spec 13); [done|apply sort13_network_sorts|lia]| |done].
      intros [] m' Hm'. apply wp_ret. split; [lia|done].
    + apply wp_bind. unfold sort9_optimal. apply wp_bind, wp_len_of. rewrite Hsz.
      destruct (Nat.ltb_spec (length l) 9); [lia|].
      eapply wp_mono; [apply (network_spec 9); [done|apply sort9_network_sorts|lia]| |done].
      intros [] m' Hm'. apply wp_ret. split; [lia|done].
    + apply wp_ret. split; [lia|]. apply vperm_refl; [done..|]. intros _.
      apply sorted_short. rewrite length_take. lia.
  - intros n m1 (Hn&l1&Hl1&Hs1&Hp1&HL1). eapply wp_mono.
    + apply (insertion_sort_sorts less lt l1); [done|by rewrite Hp1|done].
    + intros [] m2 (l2&?&?&Hp2&HL2). exists l2. split_and!; [done|congruence|by rewrite Hp2|].
      intros HL. rewrite HL2 by done. by apply isort_sorted.
    + intros m2 (l2&?&?&Hp2&HL2). exists l2. split_and!; [done|congruence|by rewrite Hp2|done].
Qed.
(** A routine that sorts the slice [l], not necessarily stably. *)
Definition usorts (p : prog (mem T) ()) l m : Prop :=
  wp p (λ _, vperm l (λ l', L → sorted lt l') m) (vperm l (λ _, ¬ L) m) m.

Lemma sorts_usorts p l m : sorts less lt p l m → usorts p l m.
Proof.
  intros Hs. eapply wp_mono; [exact Hs| |done]. intros [] m' Hm'.
  eapply vperm_mono; [exact Hm'|done|]. intros k _ HF HL. rewrite HF by done.
  by apply isort_sorted.
Qed.

Lemma with_stack_array_usorts n p l m :
  (∀ m', slice_of l m' → size BS m' = n → usorts p l m') →
  slice_of l m → usorts (with_stack_array n p) l m.
Proof.
  intros Hp Hl. apply wp_zoom. eapply wp_mono.
  - apply Hp; [done|]. unfold size; simpl. apply length_replicate.
  - intros [] m' (k&?&_&?&?). by exists k.
  - intros m' (k&?&_&?&?). by exists k.
Qed.

(** Both regions are merged through the scratch buffer. *)
Lemma merge_through_spec A B m :
  slice_of (A ++ B) m → size BS m = SMALL_SORT_NETWORK_SCRATCH_LEN →
  length (A ++ B) ≤ SMALL_SORT_NETWORK_SCRATCH_LEN →
  length A = length (A ++ B) / 2 → 1 ≤ length A →
  wp (_ ← bidirectional_merge less BV 0 (length (A ++ B)) BS 0;
      copy_nonoverlapping BS 0 BV 0 (length (A ++ B)))
    (λ _, vperm (A ++ B) (λ l', L → sorted lt A → sorted lt B → l' = isort lt (A ++ B)) m)
    (vperm (A ++ B) (λ _, ¬ (L ∧ sorted lt A ∧ sorted lt B)) m) m.
Proof.
  intros Hl HszS Hlen HA HA1. pose proof Hl as [Hh HszV]%slice_of_holds.
  apply wp_bind. rewrite length_app in *. eapply wp_mono.
  { apply (bidirectional_merge_spec less lt BV 0 BS 0 A B); [done|by left|lia|done|lia]. }
  - intros [] m1 (k&Hm1&Hp&HL). pose proof (Permutation_length Hp) as Hk.
    rewrite length_app in Hk.
    eapply (wp_copy_nonoverlapping BS 0 BV 0 _ k).
    + rewrite Hm1. apply holds_store_eq. lia.
    + done.
    + by left.
    + rewrite Hm1, size_store. lia.
    + rewrite Hm1, size_store. lia.
    + exists k. rewrite Hm1. split_and!; [|by rewrite !size_store|done|done].
      eapply slice_of_store; [|exact Hl]. by rewrite length_app.
  - intros m1 [Hm1 Hn]. apply vperm_refl; [|by apply (clobbers_size _ _ _ BS) in Hm1|done].
    unfold slice_of. pose proof (clobbers_other _ _ _ BV _ _ Hm1) as Hv. simpl in Hv.
    by rewrite Hv.
Qed.

Lemma small_sort_network_usorts l m :
  slice_of l m → length l ≤ SMALL_SORT_NETWORK_THRESHOLD →
  usorts (small_sort_network less) l m.
Proof.
  intros Hl Hlen. pose proof Hl as [_ Hsz]%slice_of_holds.
  unfold usorts, small_sort_network. apply wp_bind, wp_len_of. rewrite Hsz.
  destruct (Nat.ltb_spec (length l) 2).
  { apply wp_ret, vperm_refl; [done..|]. intros _. apply sorted_short. lia. }
  destruct (Nat.ltb_spec SMALL_SORT_NETWORK_SCRATCH_LEN (length l)) as [Hlt|_].
  { unfold SMALL_SORT_NETWORK_SCRATCH_LEN in Hlt. lia. }
  apply with_stack_array_usorts; [|done]. clear m Hl Hsz. intros m Hl HszS.
  cbv zeta. pose proof (Nat.div_mod (length l) 2 ltac:(lia)) as Hdiv.
  assert (length l mod 2 < 2) by by apply Nat.mod_upper_bound.
  destruct (Nat.ltb_spec (length l) 18).
  { apply wp_bind. eapply (wp_sub_vperm 0 (length l) _ [] l []); [by rewrite app_nil_r|done..| | |].
    - intros t Ht _. apply sort_region_spec; [done|]. intros ->. simpl in *. lia.
    - simpl. intros [] k m'. rewrite app_nil_r. intros ????. apply wp_ret. by exists k.
    - simpl. intros k m'. rewrite app_nil_r. intros ????. by exists k. }
  destruct (list_split_at l (length l / 2)) as (A&B&->&HA); [lia|].
  rewrite length_app in *. rewrite ?length_app in HA.
  rewrite <- HA in Hdiv |- *.
  apply wp_bind. eapply (wp_sub_vperm 0 _ _ [] A B); [done|done|lia| | |].
  { intros t Ht _. apply sort_region_spec; [done|]. intros ->. simpl in *. lia. }
  2:{ simpl. intros k m' ?? Hp ?. exists (k ++ B). split_and!; [done|done|by rewrite Hp|done]. }
  simpl. intros [] A' m1 Hl1 Hs1 HpA HLA. pose proof (Permutation_length HpA).
  apply wp_bind. eapply (wp_sub_vperm _ _ _ A' B []); [by rewrite app_nil_r|lia|lia| | |].
  { intros t Ht _. apply sort_region_spec; [done|]. intros ->. simpl in *. lia. }
  2:{ simpl. intros k m'. rewrite app_nil_r. intros ?? Hp ?. exists (A' ++ k).
      split_and!; [done|congruence|by rewrite Hp, HpA|done]. }
  intros [] B' m2. rewrite app_nil_r. intros Hl2 Hs2 HpB HLB. pose proof (Permutation_length HpB).
  replace (length A + length B) with (length (A' ++ B')) by (rewrite length_app; lia).
  assert (A' ++ B' ≡ₚ A ++ B) as Hp by by rewrite HpA, HpB.
  eapply wp_mono; [apply (merge_through_spec A' B' m2); [done|congruence| | |]| |].
  - rewrite length_app. unfold SMALL_SORT_NETWORK_SCRATCH_LEN. lia.
  - rewrite length_app. replace (length A' + length B') with (length A + length B) by lia. lia.
  - lia.
  - intros [] m3 (k&?&?&Hk&HL). exists k. split_and!; [done|congruence|by rewrite Hk, Hp|].
    intros HL'. rewrite HL by auto. by apply isort_sorted.
  - intros m3 (k&?&?&Hk&HL). exists k. split_and!; [done|congruence|by rewrite Hk, Hp|].
    intros HL'. apply HL. auto.
Qed.

(** ** The choice of the small sort *)
Lemma unstable_small_sort_usorts ti l m :
  slice_of l m → length l ≤ unstable_small_sort_threshold ti →
  usorts (unstable_small_sort less ti) l m.
Proof.
  intros Hl Hlen.
  unfold unstable_small_sort, unstable_small_sort_threshold, unstable_freeze_small_sort,
    unstable_freeze_small_sort_threshold in *.
  repeat case_match;
    first [ by apply small_sort_network_usorts
          | by apply sorts_usorts, small_sort_general_sorts
          | by apply sorts_usorts, small_sort_fallback_sorts ].
Qed.

Lemma stable_small_sort_sorts ti l m :
  slice_of l m → length l ≤ stable_small_sort_threshold ti → length l + 16 ≤ size BS m →
  sorts less lt (stable_small_sort less ti) l m.
Proof.
  intros Hl Hlen ?. unfold stable_small_sort, stable_small_sort_threshold in *.
  case_match; [by apply small_sort_general_with_scratch_sorts|by apply small_sort_fallback_sorts].
Qed.
End spec.
