(* ===== verification/Pivot.v ===== *)
(** [core::slice::sort::shared]: detection of an existing run, and the choice of
    a pivot. *)

From S2P Require Import Prelude.
From S2P Require Import Order.
From S2P Require Import SortMem.
From S2P Require Import SmallSort.
From S2P Require Import SmallSortSpec.

Definition PSEUDO_MEDIAN_REC_THRESHOLD := 64.

Section pivot.
Context {T : Type} (less : comparator T).

Definition find_existing_run : prog (mem T) (nat * bool) :=
  len ← len_of BV;
  if len <? 2 then mret (len, false) else
  x1 ← rd BV 1; x0 ← rd BV 0;
  strictly_descending ← is_less less x1 x0;
  run_len ← loop len (λ run_len,
    if run_len <? len then
      y ← rd BV run_len; x ← rd BV (run_len - 1);
      lt ← is_less less y x;
      if Bool.eqb lt strictly_descending then mret (inl (run_len + 1))
      else mret (inr run_len)
    else mret (inr run_len)) 2;
  mret (run_len, strictly_descending).

(** [median3(&*a, &*b, &*c, is_less)], with the positions of the elements. *)
Definition median3 (a b c : nat) : prog (mem T) nat :=
  xa ← rd BV a; xb ← rd BV b; xc ← rd BV c;
  x ← is_less less xa xb;
  y ← is_less less xa xc;
  if Bool.eqb x y then
    z ← is_less less xb xc;
    mret (if xorb z x then c else b)
  else mret a.

Fixpoint median3_rec (fuel : nat) (a b c n : nat) : prog (mem T) nat :=
  match fuel with
  | O => λ _, Fault Exhausted
  | S fuel =>
      '(a, b, c) ←
        (if PSEUDO_MEDIAN_REC_THRESHOLD <=? n * 8 then
           let n8 := n / 8 in
           a ← median3_rec fuel a (a + n8 * 4) (a + n8 * 7) n8;
           b ← median3_rec fuel b (b + n8 * 4) (b + n8 * 7) n8;
           c ← median3_rec fuel c (c + n8 * 4) (c + n8 * 7) n8;
           mret (a, b, c)
         else mret (a, b, c));
      median3 a b c
  end.

Definition choose_pivot : prog (mem T) nat :=
  len ← len_of BV;
  if len <? 8 then abort else
  let v_base := 0 in
  let len_div_8 := len / 8 in
  let a := v_base in
  b ← padd BV v_base (len_div_8 * 4);
  c ← padd BV v_base (len_div_8 * 7);
  index ← (if len <? PSEUDO_MEDIAN_REC_THRESHOLD then median3 a b c
           else median3_rec len a b c len_div_8);
  _ ← assume (index <? len);
  mret index.
End pivot.

(** * Correctness *)
Section spec.
Context {T : Type} (less : comparator T) (lt : T → T → bool) `{!StrictWeak lt}.
Implicit Types (m : mem T) (l : list T).
Let L : Prop := lawful less lt.

(** The routine only calls the comparison. *)
Definition pure_wp {A} (p : prog (mem T) A) (Q : A → Prop) m : Prop :=
  wp p (λ a m', eqm m' m ∧ Q a) (λ m', eqm m' m ∧ ¬ L) m.

Lemma pure_wp_eqm {A} (p : prog (mem T) A) Q m0 m :
  eqm m m0 → pure_wp p Q m → wp p (λ a m', eqm m' m0 ∧ Q a) (λ m', eqm m' m0 ∧ ¬ L) m.
Proof.
  intros Hm Hp. eapply wp_mono; [exact Hp| |].
  - intros a m' [??]. split; [by etrans|done].
  - intros m' [??]. split; [by etrans|done].
Qed.

(** The first [n] elements form a run. *)
Definition is_run (desc : bool) l n : Prop :=
  ∀ i x y, S i < n → l !! i = Some x → l !! S i = Some y → lt y x = desc.

Lemma is_run_step desc l n x y :
  is_run desc l n → 1 ≤ n → l !! (n - 1) = Some x → l !! n = Some y → lt y x = desc →
  is_run desc l (n + 1).
Proof.
  intros Hr Hn Hx Hy Hlt i x' y' Hi Hx' Hy'. destruct (decide (S i = n)) as [<-|].
  - simpl in Hx. rewrite Nat.sub_0_r in Hx. by simplify_eq.
  - eapply (Hr i); [lia|done|done].
Qed.

Lemma is_run_take desc l n : n ≤ length l → is_run desc l n →
  StronglySorted (λ a b, lt b a = desc) (take n l).
Proof.
  intros Hn Hr. revert l Hn Hr. induction n as [|n IH]; intros l Hn Hr; [constructor|].
  destruct l as [|x l]; simpl in *; [lia|].
  assert (is_run desc l n) as Hr'.
  { intros i x' y' Hi. apply (Hr (S i) x' y'). lia. }
  specialize (IH l ltac:(lia) Hr'). constructor; [done|].
  destruct n as [|n]; [by rewrite take_0|]. destruct l as [|y l]; simpl in *; [lia|].
  assert (lt y x = desc) as Hyx by (eapply (Hr 0); [lia|done..]).
  apply StronglySorted_inv in IH as [_ Hall]. constructor; [done|].
  eapply Forall_impl; [exact Hall|]. intros z Hz. cbn beta in *. destruct desc.
  - by eapply lt_trans.
  - by apply (le_trans x y z).
Qed.

Lemma find_existing_run_spec l m :
  slice_of l m →
  pure_wp (find_existing_run less) (λ '(n, desc),
    n ≤ length l ∧ (1 ≤ length l → 1 ≤ n) ∧ (desc = true → 2 ≤ n) ∧
    (L → StronglySorted (λ a b, lt b a = desc) (take n l))) m.
Proof.
  intros Hl. pose proof Hl as [Hh Hsz]%slice_of_holds.
  unfold pure_wp, find_existing_run. apply wp_bind, wp_len_of. rewrite Hsz.
  destruct (Nat.ltb_spec (length l) 2).
  { apply wp_ret. split; [done|]. split_and!; [done|done|done|]. intros _.
    destruct l as [|? [|??]]; simpl in *; [..|lia]; repeat constructor. }
  destruct (lookup_lt_is_Some_2 l 0) as [x Hx]; [lia|].
  destruct (lookup_lt_is_Some_2 l 1) as [y Hy]; [lia|].
  apply wp_bind. eapply wp_rd; [by apply (Hh 1)|]. apply wp_bind. eapply wp_rd; [by apply (Hh 0)|].
  apply wp_bind, (wp_cmp less lt); [|done]. intros desc m1 Hm1 Hdesc.
  apply wp_bind.
  apply (wp_loop (λ n m', eqm m' m ∧ 2 ≤ n ≤ length l ∧ (L → is_run desc l n))
    (λ n, length l - n)); [| |lia]; last first.
  { split_and!; [done|lia|lia|]. intros HL i x' y' Hi Hx' Hy'.
    destruct i; [|lia]. simplify_eq. symmetry. by apply Hdesc. }
  intros n m' (Hm'&Hn&Hrun). cbn beta.
  assert (∀ s, eqm s m → wp (mret (n, desc)) (λ '(n, desc) m', eqm m' m ∧
    n ≤ length l ∧ (1 ≤ length l → 1 ≤ n) ∧ (desc = true → 2 ≤ n) ∧
    (L → StronglySorted (λ a b, lt b a = desc) (take n l))) (λ m', eqm m' m ∧ ¬ L) s) as Hend.
  { intros s Hs. apply wp_ret. split_and!; [done|lia|lia|lia|]. intros HL.
    apply is_run_take; [lia|auto]. }
  destruct (Nat.ltb_spec n (length l)); [|by apply wp_ret, Hend].
  destruct (lookup_lt_is_Some_2 l n) as [z Hz]; [lia|].
  destruct (lookup_lt_is_Some_2 l (n - 1)) as [w Hw]; [lia|].
  apply wp_bind. eapply wp_rd; [rewrite Hm'; by apply (Hh n)|].
  apply wp_bind. eapply wp_rd; [rewrite Hm'; by apply (Hh (n - 1))|].
  apply wp_bind, (wp_cmp less lt); [|intros m2 Hm2 ?; split; [by etrans|done]].
  intros c m2 Hm2 Hc. assert (eqm m2 m) by by etrans.
  destruct (eqb_spec c desc) as [->|]; [|by apply wp_ret, Hend].
  apply wp_ret. split; [|lia]. split_and!; [done|lia|lia|]. intros HL.
  apply (is_run_step desc l n w z); [auto|lia|done|done|]. symmetry. auto.
Qed.

(** ** Pivot selection: the index is in range, whatever the comparison says. *)
Lemma median3_spec l a b c m :
  slice_of l m → a < length l → b < length l → c < length l →
  pure_wp (median3 less a b c) (λ i, i = a ∨ i = b ∨ i = c) m.
Proof.
  intros [Hh _]%slice_of_holds [xa Ha]%lookup_lt_is_Some_2 [xb Hb]%lookup_lt_is_Some_2
    [xc Hc]%lookup_lt_is_Some_2.
  unfold pure_wp, median3. apply wp_bind. eapply wp_rd; [by apply (Hh a)|].
  apply wp_bind. eapply wp_rd; [by apply (Hh b)|].
  apply wp_bind. eapply wp_rd; [by apply (Hh c)|].
  apply wp_bind, (wp_cmp less lt); [|done]. intros x m1 Hm1 _.
  apply wp_bind, (wp_cmp less lt); [|intros ???; split; [by etrans|done]]. intros y m2 Hm2 _.
  assert (eqm m2 m) by by etrans.
  destruct (Bool.eqb x y); [|apply wp_ret; auto].
  apply wp_bind, (wp_cmp less lt); [|intros ???; split; [by etrans|done]]. intros z m3 Hm3 _.
  apply wp_ret. split; [by etrans|]. destruct (xorb z x); auto.
Qed.

Lemma median3_rec_spec l fuel a b c n m :
  slice_of l m → 1 ≤ n → n ≤ fuel →
  a + n ≤ length l → b + n ≤ length l → c + n ≤ length l →
  pure_wp (median3_rec less fuel a b c n) (λ i, i < length l) m.
Proof.
  revert a b c n m. induction fuel as [|fuel IH]; intros a b c n m Hl Hn Hf Ha Hb Hc; [lia|].
  cbn [median3_rec]. apply wp_bind.
  eapply (wp_mono _ (λ '(a, b, c) m', eqm m' m ∧ a < length l ∧ b < length l ∧ c < length l)
    _ (λ m', eqm m' m ∧ ¬ L)); [| |done].
  - destruct (Nat.leb_spec PSEUDO_MEDIAN_REC_THRESHOLD (n * 8)) as [Hge|];
      [|by apply wp_ret; split_and!; [done|lia..]].
    unfold PSEUDO_MEDIAN_REC_THRESHOLD in Hge. cbv zeta.
    pose proof (Nat.Div0.mul_div_le n 8).
    assert (1 ≤ n / 8) by (apply Nat.div_le_lower_bound; lia).
    assert (∀ o m', eqm m' m → o + n ≤ length l →
      wp (median3_rec less fuel o (o + n / 8 * 4) (o + n / 8 * 7) (n / 8))
        (λ i m', eqm m' m ∧ i < length l) (λ m', eqm m' m ∧ ¬ L) m') as Hrec.
    { intros o m' Hm' Ho. apply pure_wp_eqm; [done|].
      apply IH; [by rewrite Hm'|lia..]. }
    apply wp_bind. eapply wp_mono; [by apply (Hrec a)| |done]. intros a' m1 [Hm1 ?].
    apply wp_bind. eapply wp_mono; [by apply (Hrec b)| |done]. intros b' m2 [Hm2 ?].
    apply wp_bind. eapply wp_mono; [by apply (Hrec c)| |done]. intros c' m3 [Hm3 ?].
    by apply wp_ret.
  - intros [[a' b'] c'] m' (Hm'&?&?&?). eapply wp_mono.
    + apply pure_wp_eqm; [done|]. apply (median3_spec l); [by rewrite Hm'|done..].
    + intros i m2 [? Hi]. split; [done|]. by destruct Hi as [->|[->| ->]].
    + done.
Qed.

Lemma choose_pivot_spec l m :
  slice_of l m → 8 ≤ length l → pure_wp (choose_pivot less) (λ i, i < length l) m.
Proof.
  intros Hl Hlen. pose proof Hl as [Hh Hsz]%slice_of_holds.
  unfold pure_wp, choose_pivot. apply wp_bind, wp_len_of. rewrite Hsz.
  destruct (Nat.ltb_spec (length l) 8); [lia|]. cbv zeta.
  pose proof (Nat.Div0.mul_div_le (length l) 8).
  assert (1 ≤ length l / 8) by (apply Nat.div_le_lower_bound; lia).
  apply wp_bind, wp_padd; [lia|]. apply wp_bind, wp_padd; [lia|]. apply wp_bind.
  eapply wp_mono with (P := λ m', eqm m' m ∧ ¬ L)
    (Q := λ i m', eqm m' m ∧ i < length l); [| |done].
  - destruct (Nat.ltb_spec (length l) PSEUDO_MEDIAN_REC_THRESHOLD).
    + eapply wp_mono; [apply (median3_spec l); [done|lia..]| |done].
      intros i m' [? Hi]. split; [done|lia].
    + apply median3_rec_spec; [done|lia..].
  - intros i m' [Hm' Hi]. apply wp_bind, wp_assume; [by apply Nat.ltb_lt|]. by apply wp_ret.
Qed.
End spec.
