(* ===== verification/Stable.v ===== *)
(** [core::slice::sort::stable]: merging, stable partitioning, quicksort and
    driftsort, as written. *)

From S2P Require Import Prelude.
From S2P Require Import Order.
From S2P Require Import SortMem.
From S2P Require Import SmallSort.
From S2P Require Import Pivot.

(** ** [merge.rs] *)
Section merge.
Context {T : Type} (less : comparator T).

(** The guard: the range [start..end_] of the scratch buffer is copied to
    [dst..] of the slice. *)
Record MergeState := { start : nat; end_ : nat; dst : nat }.

Definition MergeState_drop (s : MergeState) : prog (mem T) () :=
  len ← psub (end_ s) (start s);
  copy_nonoverlapping BS (start s) BV (dst s) len.

Definition MergeState_merge_up (s : MergeState) (right_p right_end : nat)
  : prog (mem T) MergeState :=
  loop (S (right_end + end_ s)) (λ '(s, right_p),
    if negb (start s =? end_ s) && negb (right_p =? right_end) then
      y ← rd BV right_p; x ← rd BS (start s);
      lt ← on_panic (is_less less y x) (MergeState_drop s);
      let consume_left := negb lt in
      _ ← (if consume_left then copy_nonoverlapping BS (start s) BV (dst s) 1
           else copy_nonoverlapping BV right_p BV (dst s) 1);
      mret (inl ({| start := start s + Nat.b2n consume_left; end_ := end_ s;
                    dst := dst s + 1 |},
                 right_p + Nat.b2n (negb consume_left)))
    else mret (inr s)) (s, right_p).

Definition MergeState_merge_down (s : MergeState) (left_end right_end out : nat)
  : prog (mem T) MergeState :=
  loop (S out) (λ '(s, out),
    left_p ← psub (dst s) 1;
    right_p ← psub (end_ s) 1;
    out ← psub out 1;
    y ← rd BS right_p; x ← rd BV left_p;
    consume_left ← on_panic (is_less less y x) (MergeState_drop s);
    _ ← (if consume_left : bool then copy_nonoverlapping BV left_p BV out 1
         else copy_nonoverlapping BS right_p BV out 1);
    let s := {| start := start s; end_ := right_p + Nat.b2n consume_left;
                dst := left_p + Nat.b2n (negb consume_left) |} in
    if (dst s =? left_end) || (end_ s =? right_end) then mret (inr s)
    else mret (inl (s, out))) (s, out).

Definition merge (mid : nat) : prog (mem T) () :=
  len ← len_of BV;
  scratch_len ← len_of BS;
  if (mid =? 0) || (len <=? mid) || (scratch_len <? Nat.min mid (len - mid)) then mret () else
  let buf := 0 in
  let v_base := 0 in
  v_mid ← padd BV v_base mid;
  v_end ← padd BV v_base len;
  let left_len := mid in
  let right_len := len - mid in
  let left_is_shorter := left_len <=? right_len in
  let save_base := if left_is_shorter then v_base else v_mid in
  let save_len := if left_is_shorter then left_len else right_len in
  _ ← copy_nonoverlapping BV save_base BS buf save_len;
  buf_end ← padd BS buf save_len;
  let merge_state := {| start := buf; end_ := buf_end; dst := save_base |} in
  merge_state ←
    (if left_is_shorter then MergeState_merge_up merge_state v_mid v_end
     else MergeState_merge_down merge_state v_base buf v_end);
  MergeState_drop merge_state.
End merge.

(** ** [quicksort.rs] *)
Section partition.
Context {T : Type}.

Record PartitionState := { scan : nat; num_left : nat; scratch_rev : nat }.

Definition partition_one (s : PartitionState) (towards_left : bool)
  : prog (mem T) (PartitionState * nat) :=
  scratch_rev ← psub (scratch_rev s) 1;
  let dst_base := if towards_left then 0 else scratch_rev in
  dst ← padd BS dst_base (num_left s);
  _ ← copy_nonoverlapping BV (scan s) BS dst 1;
  scan ← padd BV (scan s) 1;
  mret ({| scan := scan; num_left := num_left s + Nat.b2n towards_left;
           scratch_rev := scratch_rev |}, dst).

Context (less : comparator T) (ti : ty_info).

(** [state.partition_one(is_less(&*state.scan, &*pivot))]. *)
Definition partition_scan (pivot : nat) (s : PartitionState) : prog (mem T) PartitionState :=
  x ← rd BV (scan s); p ← rd BV pivot;
  towards_left ← is_less less x p;
  '(s, _) ← partition_one s towards_left;
  mret s.

Definition UNROLL_LEN := 4.

Definition partition_until (pivot loop_end_pos : nat) (s : PartitionState)
  : prog (mem T) PartitionState :=
  s ← (if size_of ti <=? 16 then
         let unroll_end := loop_end_pos - (UNROLL_LEN - 1) in
         loop (S loop_end_pos) (λ s,
           if scan s <? unroll_end then
             s ← partition_scan pivot s;
             s ← partition_scan pivot s;
             s ← partition_scan pivot s;
             s ← partition_scan pivot s;
             mret (inl s)
           else mret (inr s)) s
       else mret s);
  loop (S loop_end_pos) (λ s,
    if scan s <? loop_end_pos then s ← partition_scan pivot s; mret (inl s)
    else mret (inr s)) s.

Definition stable_partition (pivot_pos : nat) (pivot_goes_left : bool)
  : prog (mem T) nat :=
  len ← len_of BV;
  scratch_len ← len_of BS;
  if (scratch_len <? len) || (len <=? pivot_pos) then abort else
  let v_base := 0 in
  let scratch_base := 0 in
  let pivot := v_base + pivot_pos in
  scratch_rev ← padd BS scratch_base len;
  let state := {| scan := v_base; num_left := 0; scratch_rev := scratch_rev |} in
  '(state, pivot_in_scratch) ← loop 2 (λ '(state, pivot_in_scratch, loop_end_pos),
      state ← partition_until pivot loop_end_pos state;
      if loop_end_pos =? len then mret (inr (state, pivot_in_scratch)) else
      '(state, pivot_in_scratch) ← partition_one state pivot_goes_left;
      mret (inl (state, Some pivot_in_scratch, len)))
    (state, None, pivot_pos);
  _ ← (if negb (is_freeze ti) then
         match pivot_in_scratch with
         | Some pivot_in_scratch => copy_nonoverlapping BV pivot BS pivot_in_scratch 1
         | None => undefined (* a null pointer *)
         end
       else mret ());
  _ ← copy_nonoverlapping BS scratch_base BV v_base (num_left state);
  _ ← for_range (len - num_left state) 0 (λ i,
        src ← psub (len - 1) i;
        copy_nonoverlapping BS (scratch_base + src) BV (v_base + (num_left state + i)) 1);
  mret (num_left state).
End partition.

(** ** [drift.rs] *)

(** A [usize] with the length of the run and, in the lowest bit, whether it is
    sorted. *)
Definition usize_bits : Z := 64.
Definition wrap_usize (z : Z) : Z := (z mod 2 ^ usize_bits)%Z.

Definition DriftsortRun : Type := Z.

Module DriftsortRun.
Definition new_sorted (length : nat) : DriftsortRun :=
  Z.lor (wrap_usize (Z.shiftl (Z.of_nat length) 1)) 1.
Definition new_unsorted (length : nat) : DriftsortRun :=
  wrap_usize (Z.shiftl (Z.of_nat length) 1).
Definition sorted (r : DriftsortRun) : bool := (Z.land r 1 =? 1)%Z.
Definition len (r : DriftsortRun) : nat := Z.to_nat (Z.shiftr r 1).
End DriftsortRun.

(** Checked [u64] arithmetic. *)
Definition u64 {S} (z : Z) : prog S Z := if (z <? 2 ^ 64)%Z then mret z else panic.

Definition div_ceil (n d : Z) : Z :=
  if (0 <? n mod d)%Z then (n / d + 1)%Z else (n / d)%Z.

Definition leading_zeros (x : Z) : Z := if (x =? 0)%Z then 64 else (63 - Z.log2 x)%Z.

Definition merge_tree_scale_factor (n : nat) : Z := div_ceil (Z.shiftl 1 62) (Z.of_nat n).

Definition merge_tree_depth {S} (left_i mid right_i : nat) (scale_factor : Z) : prog S Z :=
  x ← u64 (Z.of_nat left_i + Z.of_nat mid)%Z;
  y ← u64 (Z.of_nat mid + Z.of_nat right_i)%Z;
  fx ← u64 (scale_factor * x)%Z;
  fy ← u64 (scale_factor * y)%Z;
  mret (leading_zeros (Z.lxor fx fy)).

Definition sqrt_approx (n : nat) : nat :=
  let ilog := Nat.log2 (Nat.lor n 1) in
  let shift := (ilog + 1) / 2 in
  (Nat.shiftl 1 shift + Nat.shiftr n shift) / 2.

(** A read or write of an uninitialised fixed-size array by raw pointer. *)
Definition arr_rd {S A} (a : list (option A)) (i : nat) : prog S A :=
  match a !! i with Some (Some x) => mret x | _ => undefined end.
Definition arr_wr {S A} (a : list (option A)) (i : nat) (x : A) : prog S (list (option A)) :=
  if i <? length a then mret (<[i := Some x]> a) else undefined.

Definition MIN_SQRT_RUN_LEN := 64.
Definition RUN_STACK_LEN := 66.

(** [2 * (len | 1).ilog2()]. *)
Definition quicksort_limit (len : nat) : nat := 2 * Nat.log2 (Nat.lor len 1).

Section drift.
Context {T : Type} (less : comparator T) (ti : ty_info).
(** The quicksort driftsort calls (limit, left ancestor pivot). *)
Context (quicksort : nat → option T → prog (mem T) ()).

Definition stable_quicksort : prog (mem T) () :=
  len ← len_of BV;
  let limit := quicksort_limit len in
  quicksort limit None.

Definition logical_merge (left_r right_r : DriftsortRun) : prog (mem T) DriftsortRun :=
  len ← len_of BV;
  scratch_len ← len_of BS;
  let can_fit_in_scratch := len <=? scratch_len in
  if negb can_fit_in_scratch || DriftsortRun.sorted left_r || DriftsortRun.sorted right_r then
    _ ← (if negb (DriftsortRun.sorted left_r) then
           sub_slice 0 (DriftsortRun.len left_r) stable_quicksort
         else mret ());
    _ ← (if negb (DriftsortRun.sorted right_r) then
           sub_slice (DriftsortRun.len left_r) len stable_quicksort
         else mret ());
    _ ← merge less (DriftsortRun.len left_r);
    mret (DriftsortRun.new_sorted len)
  else mret (DriftsortRun.new_unsorted len).

Definition create_run (min_good_run_len : nat) (eager_sort : bool)
  : prog (mem T) DriftsortRun :=
  len ← len_of BV;
  found ←
    (if min_good_run_len <=? len then
       '(run_len, was_reversed) ← find_existing_run less;
       _ ← assume (run_len <=? len);
       if min_good_run_len <=? run_len then
         _ ← (if was_reversed : bool then sub_slice 0 run_len reverse_slice else mret ());
         mret (Some (DriftsortRun.new_sorted run_len))
       else mret None
     else mret None);
  match found with
  | Some run => mret run
  | None =>
      if eager_sort then
        let eager_run_len := Nat.min (stable_small_sort_threshold ti) len in
        _ ← sub_slice 0 eager_run_len (quicksort 0 None);
        mret (DriftsortRun.new_sorted eager_run_len)
      else mret (DriftsortRun.new_unsorted (Nat.min min_good_run_len len))
  end.

(** [while stack_len > 1 && desired_depths[stack_len - 1] >= desired_depth]. *)
Definition collapse (scan_idx : nat) (desired_depth : Z) (st : nat * DriftsortRun)
    (runs : list (option DriftsortRun)) (depths : list (option Z))
  : prog (mem T) (nat * DriftsortRun) :=
  loop (S RUN_STACK_LEN) (λ '(stack_len, prev_run),
    again ← (if 1 <? stack_len then
               d ← arr_rd depths (stack_len - 1); mret (desired_depth <=? d)%Z
             else mret false);
    if again : bool then
      left_r ← arr_rd runs (stack_len - 1);
      let merged_len := DriftsortRun.len left_r + DriftsortRun.len prev_run in
      merge_start_idx ← usub scan_idx merged_len;
      prev_run ← sub_slice_unchecked merge_start_idx scan_idx (logical_merge left_r prev_run);
      mret (inl (stack_len - 1, prev_run))
    else mret (inr (stack_len, prev_run))) st.

Definition drift_sort (eager_sort : bool) : prog (mem T) () :=
  len ← len_of BV;
  if len <? 2 then mret () else
  let scale_factor := merge_tree_scale_factor len in
  let min_good_run_len :=
    if len <=? MIN_SQRT_RUN_LEN * MIN_SQRT_RUN_LEN
    then Nat.min (len - len / 2) MIN_SQRT_RUN_LEN
    else sqrt_approx len in
  prev_run ← loop (S (S len)) (λ '(stack_len, runs, depths, scan_idx, prev_run),
    '(next_run, desired_depth) ←
      (if scan_idx <? len then
         next_run ← sub_slice scan_idx len (create_run min_good_run_len eager_sort);
         left_i ← usub scan_idx (DriftsortRun.len prev_run);
         desired_depth ← merge_tree_depth left_i scan_idx
                           (scan_idx + DriftsortRun.len next_run) scale_factor;
         mret (next_run, desired_depth)
       else mret (DriftsortRun.new_sorted 0, 0%Z));
    '(stack_len, prev_run) ← collapse scan_idx desired_depth (stack_len, prev_run) runs depths;
    runs ← arr_wr runs stack_len prev_run;
    depths ← arr_wr depths stack_len desired_depth;
    let stack_len := stack_len + 1 in
    if len <=? scan_idx then mret (inr prev_run) else
    let scan_idx := scan_idx + DriftsortRun.len next_run in
    mret (inl (stack_len, runs, depths, scan_idx, next_run)))
    (0, replicate RUN_STACK_LEN None, replicate RUN_STACK_LEN None, 0,
     DriftsortRun.new_sorted 0);
  if negb (DriftsortRun.sorted prev_run) then stable_quicksort else mret ().
End drift.

Section stable.
Context {T : Type} (less : comparator T) (ti : ty_info).

(** [stable::quicksort::quicksort].  The loop on [v] is a recursion on the
    sub-slice; the fuel bounds the number of nested slices. *)
Fixpoint stable_quicksort_rec (fuel limit : nat) (left_ancestor_pivot : option T)
  : prog (mem T) () :=
  match fuel with
  | O => λ _, Fault Exhausted
  | S fuel =>
      len ← len_of BV;
      if len <=? stable_small_sort_threshold ti then stable_small_sort less ti else
      if limit =? 0 then drift_sort less ti (stable_quicksort_rec fuel) true else
      let limit := limit - 1 in
      pivot_pos ← choose_pivot less;
      pivot_copy ← index pivot_pos;
      let pivot_ref := if is_freeze ti then Some pivot_copy else None in
      perform_equal_partition ←
        match left_ancestor_pivot with
        | Some la_pivot =>
            p ← index pivot_pos;
            lt ← is_less less la_pivot p;
            mret (negb lt)
        | None => mret false
        end;
      '(left_partition_len, perform_equal_partition) ←
        (if negb perform_equal_partition then
           n ← stable_partition less ti pivot_pos false;
           mret (n, n =? 0)
         else mret (0, perform_equal_partition));
      if perform_equal_partition : bool then
        mid_eq ← stable_partition (not_flipped less) ti pivot_pos true;
        sub_slice mid_eq len (stable_quicksort_rec fuel limit None)
      else
        _ ← sub_slice left_partition_len len (stable_quicksort_rec fuel limit pivot_ref);
        sub_slice 0 left_partition_len (stable_quicksort_rec fuel limit left_ancestor_pivot)
  end.

(** ** [stable/mod.rs] *)
Definition MAX_FULL_ALLOC_BYTES := 8000000%Z.
Definition MAX_LEN_ALWAYS_INSERTION_SORT := 20.

(** The length of the slice a [BufGuard] with the given capacity gives. *)
Context (buf_with_capacity : nat → nat).

(** [AlignedStorage<T, 4096>::as_uninit_slice_mut().len()]. *)
Definition stack_scratch_len : nat := Z.to_nat (4096 / Z.of_nat (size_of ti)).

Definition driftsort_alloc_len (len : nat) : nat :=
  let max_full_alloc := (MAX_FULL_ALLOC_BYTES / Z.of_nat (size_of ti))%Z in
  Nat.max (Nat.max (len - len / 2) (Z.to_nat (Z.min (Z.of_nat len) max_full_alloc)))
          SMALL_SORT_GENERAL_SCRATCH_LEN.

Definition driftsort_main : prog (mem T) () :=
  len ← len_of BV;
  let alloc_len := driftsort_alloc_len len in
  let scratch_len :=
    if alloc_len <=? stack_scratch_len then stack_scratch_len
    else buf_with_capacity alloc_len in
  let eager_sort := len <=? stable_small_sort_threshold ti * 2 in
  with_stack_array scratch_len
    (drift_sort less ti (stable_quicksort_rec (S len)) eager_sort).

(** [stable::sort] (the default configuration). *)
Definition stable_sort : prog (mem T) () :=
  if size_of ti =? 0 then mret () else
  len ← len_of BV;
  if len <? 2 then mret () else
  if len <=? MAX_LEN_ALWAYS_INSERTION_SORT then insertion_sort_shift_left less 1 else
  driftsort_main.

(** ** [stable/tiny.rs], used when optimising for size *)
Fixpoint mergesort (fuel : nat) : prog (mem T) () :=
  match fuel with
  | O => λ _, Fault Exhausted
  | S fuel =>
      len ← len_of BV;
      if 2 <? len then
        let mid := len / 2 in
        _ ← sub_slice_unchecked 0 mid (mergesort fuel);
        _ ← sub_slice_unchecked mid len (mergesort fuel);
        merge less mid
      else if len =? 2 then
        let v_a := 0 in
        let v_b := 1 in
        y ← rd BV v_b; x ← rd BV v_a;
        lt ← is_less less y x;
        if lt : bool then _ ← wr BV v_a y; wr BV v_b x else mret ()
      else mret ()
  end.

Definition stable_sort_for_size : prog (mem T) () :=
  if size_of ti =? 0 then mret () else
  len ← len_of BV;
  if len <? 2 then mret () else
  let alloc_len := len / 2 in
  let scratch_len :=
    if alloc_len <=? stack_scratch_len then stack_scratch_len
    else buf_with_capacity alloc_len in
  with_stack_array scratch_len (mergesort len).
End stable.
