(* ===== verification/MergeSpec.v ===== *)
(** The merge of two adjacent sorted runs ([stable/merge.rs]). *)

From S2P Require Import Prelude.
From S2P Require Import Order.
From S2P Require Import SortMem.
From S2P Require Import SmallSort.
From S2P Require Import SmallSortSpec.
From S2P Require Import Pivot.
From S2P Require Import Stable.

Section spec.
Context {T : Type} (less : comparator T) (lt : T → T → bool) `{!StrictWeak lt}.
Context (A B : list T) (N : nat).
Implicit Types (m : mem T) (l F G : list T).
Let L : Prop := lawful less lt.

Lemma holds_drop b o l n m : n ≤ length l → holds b o l m → holds b (o + n) (drop n l) m.
Proof.
  intros Hn Hl. rewrite <- (take_drop n l) in Hl. apply holds_app in Hl as [_ Hl].
  by rewrite length_take_le in Hl.
Qed.

Lemma holds_take b o l n m : holds b o l m → holds b o (take n l) m.
Proof. intros Hl. rewrite <- (take_drop n l) in Hl. by apply holds_app in Hl as [? _]. Qed.

(** ** Merging upwards: the left run is in the scratch buffer *)
Definition up_state p q F m : Prop :=
  holds BV 0 F m ∧ holds BV (length A + q) (drop q B) m ∧ holds BS 0 A m ∧
  size BV m = length A + length B ∧ size BS m = N ∧
  p ≤ length A ∧ q ≤ length B ∧ length A ≤ N ∧ length F = p + q ∧
  front lt A B L p q F.

Definition up_guard p q : MergeState :=
  {| start := p; end_ := length A; dst := p + q |}.

Lemma up_state_eqm p q F m m' : eqm m m' → up_state p q F m' → up_state p q F m.
Proof. intros Hm H. unfold up_state in *. by rewrite !Hm. Qed.

Lemma up_drop_spec p q F m (Q : () → mem T → Prop) P :
  up_state p q F m →
  (∀ m', slice_of (F ++ drop p A ++ drop q B) m' → size BS m' = N → Q () m') →
  wp (MergeState_drop (up_guard p q)) Q P m.
Proof.
  intros (HF&HB&HA&HV&HS&Hp&Hq&HN&Hlen&_) HQ. unfold MergeState_drop. simpl.
  apply wp_bind, wp_psub; [done|].
  apply (wp_copy_nonoverlapping BS p BV (p + q) _ (drop p A)).
  - by apply (holds_drop BS 0).
  - by rewrite length_drop.
  - by left.
  - lia.
  - lia.
  - apply HQ; [|by rewrite size_store]. apply slice_of_holds. split.
    + apply holds_app. split.
      { apply holds_store_ne; [right; lia|done]. }
      rewrite Nat.add_0_l, Hlen. apply holds_app. rewrite length_drop. split.
      * apply holds_store_eq. rewrite length_drop. lia.
      * replace (p + q + (length A - p)) with (length A + q) by lia.
        apply holds_store_ne; [right; rewrite !length_drop; lia|done].
    + rewrite size_store, HV, !length_app, !length_drop. lia.
Qed.

Lemma up_store p q F m x p' q' :
  up_state p q F m → p' + q' = p + q + 1 → q ≤ q' → p' ≤ length A → q' ≤ length B →
  (p < length A) → front lt A B L p' q' (F ++ [x]) →
  up_state p' q' (F ++ [x]) (store BV (p + q) [x] m).
Proof.
  intros (HF&HB&HA&HV&HS&Hp&Hq&HN&Hlen&_) ??????. unfold up_state. rewrite !size_store.
  split_and!; try done.
  - apply holds_app. rewrite Nat.add_0_l, Hlen. split.
    + apply holds_store_ne; [right; lia|done].
    + apply holds_store_eq. simpl. lia.
  - apply holds_store_ne; [right; simpl; lia|].
    replace (length A + q') with (length A + q + (q' - q)) by lia.
    replace (drop q' B) with (drop (q' - q) (drop q B)).
    + apply holds_drop; [rewrite length_drop; lia|done].
    + rewrite drop_drop. f_equal. lia.
  - rewrite length_app. simpl. lia.
Qed.

Lemma merge_up_spec m (P : mem T → Prop) :
  up_state 0 0 [] m →
  (∀ p q F m', up_state p q F m' → ¬ L →
     ∀ m'', slice_of (F ++ drop p A ++ drop q B) m'' → size BS m'' = N → P m'') →
  wp (MergeState_merge_up less (up_guard 0 0) (length A) (length A + length B))
    (λ s m', ∃ p q F, s = up_guard p q ∧ up_state p q F m' ∧ (p = length A ∨ q = length B))
    P m.
Proof.
  intros Hm HP. unfold MergeState_merge_up.
  apply (wp_loop (λ '(s, right_p) m', ∃ p q F, s = up_guard p q ∧ right_p = length A + q ∧
    up_state p q F m')
    (λ '(s, right_p), length A - start s + (length A + length B - right_p)));
    [|exists 0, 0, []; by rewrite Nat.add_0_r|simpl; lia].
  intros [s right_p] m' (p&q&F&->&->&Hm'). pose proof Hm' as (HF&HB&HA&HV&HS&Hp&Hq&HN&Hlen&Hfr).
  simpl. destruct (Nat.eqb_spec p (length A)); simpl.
  { apply wp_ret. exists p, q, F. auto. }
  destruct (Nat.eqb_spec (length A + q) (length A + length B)); simpl.
  { apply wp_ret. exists p, q, F. split_and!; [done|done|]. right. lia. }
  destruct (lookup_lt_is_Some_2 A p) as [x Hx]; [lia|].
  destruct (lookup_lt_is_Some_2 B q) as [y Hy]; [lia|].
  assert (get BV m' !! (length A + q) = Some (Some y)) as Hy'.
  { rewrite <- (Nat.add_0_r (_ + q)). apply HB. by rewrite lookup_drop, Nat.add_0_r. }
  apply wp_bind. eapply wp_rd; [exact Hy'|]. apply wp_bind. eapply wp_rd; [by apply (HA p)|].
  apply wp_bind, wp_on_panic, (wp_cmp less lt); last first.
  { intros m1 Hm1 HnL. eapply (up_drop_spec p q F); [by eapply up_state_eqm|].
    intros m2 ??. by eapply (HP p q F m'). }
  intros c m1 Hm1 Hc. apply (up_state_eqm _ _ _ m1) in Hm'; [|done].
  apply wp_bind. destruct c; simpl.
  - eapply wp_copy1; [by rewrite Hm1|right; lia|rewrite Hm1; lia|].
    apply wp_ret. split; [|simpl; lia]. exists p, (q + 1), (F ++ [y]).
    split_and!; [unfold up_guard; f_equal; lia|lia|].
    apply up_store; [done|lia..|]. rewrite Nat.add_1_r. eapply front_step_B; [done|done|done|].
    intros HL x' [= <-]%(eq_trans (eq_sym Hx)). symmetry. by apply Hc.
  - eapply wp_copy1; [rewrite Hm1; by apply (HA p)|by left|rewrite Hm1; lia|].
    apply wp_ret. split; [|simpl; lia]. exists (p + 1), q, (F ++ [x]).
    split_and!; [unfold up_guard; f_equal; lia|lia|].
    apply up_store; [done|lia..|]. rewrite Nat.add_1_r. eapply front_step_A; [done|done|done|].
    intros HL x' [= <-]%(eq_trans (eq_sym Hy)). symmetry. by apply Hc.
Qed.

(** ** Merging downwards: the right run is in the scratch buffer *)
Definition down_state u w G m : Prop :=
  holds BV 0 (take u A) m ∧ holds BS 0 (take w B) m ∧ holds BV (u + w) G m ∧
  size BV m = length A + length B ∧ size BS m = N ∧
  u ≤ length A ∧ w ≤ length B ∧ length B ≤ N ∧ u + w + length G = length A + length B ∧
  back lt A B L u w G.

Definition down_guard u w : MergeState := {| start := 0; end_ := w; dst := u |}.

Lemma down_state_eqm u w G m m' : eqm m m' → down_state u w G m' → down_state u w G m.
Proof. intros Hm H. unfold down_state in *. by rewrite !Hm. Qed.

Lemma down_drop_spec u w G m (Q : () → mem T → Prop) P :
  down_state u w G m →
  (∀ m', slice_of (take u A ++ take w B ++ G) m' → size BS m' = N → Q () m') →
  wp (MergeState_drop (down_guard u w)) Q P m.
Proof.
  intros (HA&HB&HG&HV&HS&Hu&Hw&HN&Hlen&_) HQ. unfold MergeState_drop. simpl.
  apply wp_bind, wp_psub; [lia|]. rewrite Nat.sub_0_r.
  apply (wp_copy_nonoverlapping BS 0 BV u _ (take w B)).
  - done.
  - by rewrite length_take_le.
  - by left.
  - lia.
  - lia.
  - apply HQ; [|by rewrite size_store]. apply slice_of_holds. split.
    + apply holds_app. rewrite length_take_le by done. split.
      { apply holds_store_ne; [right; rewrite !length_take_le; lia|done]. }
      apply holds_app. rewrite length_take_le by done. split.
      * apply holds_store_eq. rewrite length_take_le; lia.
      * apply holds_store_ne; [right; rewrite length_take_le; lia|done].
    + rewrite size_store, HV, !length_app, !length_take_le; lia.
Qed.

Lemma down_store u w G m x u' w' :
  down_state u w G m → u' + w' + 1 = u + w → u' ≤ u → w' ≤ w → 1 ≤ w →
  back lt A B L u' w' (x :: G) →
  down_state u' w' (x :: G) (store BV (u + w - 1) [x] m).
Proof.
  intros (HA&HB&HG&HV&HS&Hu&Hw&HN&Hlen&_) ?????. unfold down_state. rewrite !size_store.
  assert (u' ≤ length A ∧ w' ≤ length B) as [??] by lia.
  split_and!; try done; try lia.
  - apply holds_store_ne; [right; rewrite length_take_le; simpl; lia|].
    rewrite <- (Nat.min_l u' u), <- take_take by lia. by apply holds_take.
  - apply holds_store_ne; [by left|].
    rewrite <- (Nat.min_l w' w), <- take_take by lia. by apply holds_take.
  - apply holds_cons. replace (u + w - 1) with (u' + w') by lia. split.
    + apply holds_store_eq. simpl. lia.
    + replace (u' + w' + 1) with (u + w) by lia.
      apply holds_store_ne; [right; simpl; lia|done].
  - simpl. lia.
Qed.

Lemma merge_down_spec m (P : mem T → Prop) :
  down_state (length A) (length B) [] m → A ≠ [] → B ≠ [] →
  (∀ u w G m', down_state u w G m' → ¬ L →
     ∀ m'', slice_of (take u A ++ take w B ++ G) m'' → size BS m'' = N → P m'') →
  wp (MergeState_merge_down less (down_guard (length A) (length B)) 0 0
        (length A + length B))
    (λ s m', ∃ u w G, s = down_guard u w ∧ down_state u w G m' ∧ (u = 0 ∨ w = 0))
    P m.
Proof.
  intros Hm HA0 HB0 HP. unfold MergeState_merge_down.
  apply (wp_loop (λ '(s, out) m', ∃ u w G, s = down_guard u w ∧ out = u + w ∧
    1 ≤ u ∧ 1 ≤ w ∧ down_state u w G m') (λ '(s, out), out)); [| |lia]; last first.
  { exists (length A), (length B), []. split_and!; [done|done| | |done].
    - destruct A; simpl; [done|lia].
    - destruct B; simpl; [done|lia]. }
  intros [s out] m' (u&w&G&->&->&Hu1&Hw1&Hm').
  pose proof Hm' as (HA&HB&HG&HV&HS&Hu&Hw&HN&Hlen&Hbk). simpl.
  apply wp_bind, wp_psub; [lia|]. apply wp_bind, wp_psub; [lia|]. apply wp_bind, wp_psub; [lia|].
  destruct u as [|u]; [lia|]. destruct w as [|w]; [lia|].
  destruct (lookup_lt_is_Some_2 A u) as [x Hx]; [lia|].
  destruct (lookup_lt_is_Some_2 B w) as [y Hy]; [lia|].
  replace (S u - 1) with u by lia. replace (S w - 1) with w by lia.
  assert (get BS m' !! w = Some (Some y)) as Hy'.
  { apply (HB w). rewrite lookup_take_lt; [done|lia]. }
  assert (get BV m' !! u = Some (Some x)) as Hx'.
  { apply (HA u). rewrite lookup_take_lt; [done|lia]. }
  apply wp_bind. eapply wp_rd; [exact Hy'|]. apply wp_bind. eapply wp_rd; [exact Hx'|].
  apply wp_bind, wp_on_panic, (wp_cmp less lt); last first.
  { intros m1 Hm1 HnL. eapply (down_drop_spec (S u) (S w) G); [by eapply down_state_eqm|].
    intros m2 ??. by eapply (HP (S u) (S w) G m'). }
  intros c m1 Hm1 Hc. apply (down_state_eqm _ _ _ m1) in Hm'; [|done].
  assert (∀ u' w' G' m2, down_state u' w' G' m2 → u' + w' + 1 = S u + S w → u' ≤ S u →
    w' ≤ S w →
    wp (if (u' =? 0) || (w' =? 0) then mret (inr (down_guard u' w'))
        else mret (inl (down_guard u' w', S u + S w - 1)))
      (λ r m', match r with
        | inl a' => (let '(s, out) := a' in λ m', ∃ u w G, s = down_guard u w ∧ out = u + w ∧
            1 ≤ u ∧ 1 ≤ w ∧ down_state u w G m') m' ∧
            (let '(_, out) := a' in out) < S u + S w
        | inr s => ∃ u w G, s = down_guard u w ∧ down_state u w G m' ∧ (u = 0 ∨ w = 0)
        end) P m2) as Hend.
  { intros u' w' G' m2 Hm2 ???.
    destruct (Nat.eqb_spec u' 0); [|destruct (Nat.eqb_spec w' 0)]; simpl.
    - apply wp_ret. exists u', w', G'. auto.
    - apply wp_ret. exists u', w', G'. auto.
    - apply wp_ret. split; [|lia]. exists u', w', G'. split_and!; [done|lia|lia|lia|done]. }
  apply wp_bind. destruct c; simpl.
  - eapply wp_copy1; [by rewrite Hm1|right; lia|rewrite Hm1; lia|].
    rewrite Nat.add_0_r, Nat.add_1_r. apply (Hend u (S w) (x :: G)); [|lia..].
    change (down_state u (S w) (x :: G) (store BV (S u + S w - 1) [x] m1)).
    apply down_store; [done|lia..|]. eapply back_step_A; [done..|].
    intros HL. symmetry. by apply Hc.
  - eapply wp_copy1; [by rewrite Hm1|by left|rewrite Hm1; lia|].
    rewrite Nat.add_0_r, Nat.add_1_r. apply (Hend (S u) w (y :: G)); [|lia..].
    change (down_state (S u) w (y :: G) (store BV (S u + S w - 1) [y] m1)).
    apply down_store; [done|lia..|]. eapply back_step_B; [done..|].
    intros HL. symmetry. by apply Hc.
Qed.
End spec.

Section merge.
Context {T : Type} (less : comparator T) (lt : T → T → bool) `{!StrictWeak lt}.
Implicit Types (m : mem T) (A B : list T).
Let L : Prop := lawful less lt.

(** The state right after the shorter run was saved. *)
Lemma up_state_init A B m :
  slice_of (A ++ B) m → length A ≤ size BS m →
  up_state less lt A B (size BS m) 0 0 [] (store BS 0 A m).
Proof.
  intros [Hh Hsz]%slice_of_holds HA. apply holds_app in Hh as [_ HB]. simpl in HB.
  unfold up_state. rewrite !size_store, Nat.add_0_r.
  split_and!; try done; try lia.
  - by apply holds_store_eq.
  - by rewrite Hsz, length_app.
  - apply front_0.
Qed.

Lemma down_state_init A B m :
  slice_of (A ++ B) m → length B ≤ size BS m →
  down_state less lt A B (size BS m) (length A) (length B) [] (store BS 0 B m).
Proof.
  intros [Hh Hsz]%slice_of_holds HB. apply holds_app in Hh as [HA _].
  unfold down_state. rewrite !size_store, !take_ge by done.
  split_and!; try done.
  - by apply holds_store_eq.
  - by rewrite Hsz, length_app.
  - apply back_full.
Qed.

Lemma merge_spec A B m :
  slice_of (A ++ B) m → Nat.min (length A) (length B) ≤ size BS m →
  wp (merge less (length A))
    (λ _, vperm (A ++ B) (λ l', L → sorted lt A → sorted lt B → l' = isort lt (A ++ B)) m)
    (vperm (A ++ B) (λ _, ¬ L) m) m.
Proof.
  intros Hl Hmin. pose proof Hl as [Hh Hsz]%slice_of_holds. rewrite length_app in Hsz.
  unfold merge. apply wp_bind, wp_len_of, wp_bind, wp_len_of. rewrite Hsz.
  replace (length A + length B - length A) with (length B) by lia.
  destruct (_ || _) eqn:Hcond.
  { rewrite !orb_true_iff, Nat.eqb_eq, Nat.leb_le, Nat.ltb_lt in Hcond.
    apply wp_ret, vperm_refl; [done..|]. intros _ HA HB. symmetry. apply isort_id; [done|].
    assert (A = [] ∨ B = []) as [-> | ->].
    { rewrite <- !length_zero_iff_nil. lia. }
    - done.
    - by rewrite app_nil_r. }
  rewrite !orb_false_iff, Nat.eqb_neq, Nat.leb_gt, Nat.ltb_ge in Hcond.
  cbv zeta. apply wp_bind, wp_padd; [lia|]. apply wp_bind, wp_padd; [lia|]. simpl.
  destruct (Nat.leb_spec (length A) (length B)).
  - apply wp_bind, (wp_copy_nonoverlapping BV 0 BS 0 _ A);
      [by apply holds_app in Hh as [? _]|done|by left|lia|lia|].
    apply wp_bind, wp_padd; [rewrite size_store; simpl; lia|].
    apply wp_bind. eapply wp_mono with (P := vperm (A ++ B) (λ _, ¬ L) m);
      [eapply merge_up_spec; [done|apply up_state_init; [done|lia]|]| |].
    + intros p q F m' (_&_&_&_&_&_&_&_&_&Hfr) HnL m'' Hm'' Hs.
      exists (F ++ drop p A ++ drop q B). split_and!; [done|done| |done].
      by eapply front_Permutation.
    + intros s m' (p&q&F&->&Hm'&Hpq). eapply up_drop_spec; [done|].
      intros m'' Hm'' Hs. destruct Hm' as (_&_&_&_&_&_&_&_&_&Hfr).
      exists (F ++ drop p A ++ drop q B). split_and!; [done|done|by eapply front_Permutation|].
      intros HL HA HB. by eapply front_finish.
    + done.
  - apply wp_bind, (wp_copy_nonoverlapping BV (length A) BS 0 _ B);
      [by apply holds_app in Hh as [_ ?]|done|by left|lia|lia|].
    apply wp_bind, wp_padd; [rewrite size_store; simpl; lia|].
    apply wp_bind. eapply wp_mono with (P := vperm (A ++ B) (λ _, ¬ L) m);
      [eapply merge_down_spec;
      [done|apply down_state_init; [done|lia]|by intros ->; simpl in *; lia..|]| |].
    + intros u w G m' (_&_&_&_&_&_&_&_&_&Hbk) HnL m'' Hm'' Hs.
      exists (take u A ++ take w B ++ G). split_and!; [done|done| |done].
      by eapply back_Permutation.
    + intros s m' (u&w&G&->&Hm'&Hpq). eapply down_drop_spec; [done|].
      intros m'' Hm'' Hs. destruct Hm' as (_&_&_&_&_&_&_&_&_&Hbk).
      exists (take u A ++ take w B ++ G). split_and!; [done|done|by eapply back_Permutation|].
      intros HL HA HB. by eapply back_finish.
    + done.
Qed.
End merge.
