(* ===== verification/PartitionSpec.v ===== *)
(** [stable_partition]: the left elements go to the front of the scratch buffer,
    the others to its back in reverse, and both are copied back. *)

From S2P Require Import Prelude.
From S2P Require Import Order.
From S2P Require Import SortMem.
From S2P Require Import SmallSort.
From S2P Require Import SmallSortSpec.
From S2P Require Import Pivot.
From S2P Require Import Stable.

Section spec.
Context {T : Type} (cmp : comparator T) (g : T → T → bool) (ti : ty_info).
Context (l : list T) (pivot_pos : nat) (p : T) (gl : bool) (m0 : mem T).
Implicit Types (m : mem T) (lefts rights : list T).
Let Lg : Prop := lawful cmp g.
Let f x : bool := g x p.
Let len := length l.
Hypothesis Hl : slice_of l m0.
Hypothesis Hpivot : l !! pivot_pos = Some p.
Hypothesis Hsz : len ≤ size BS m0.
Hypothesis Hgl : g p p = gl.

Definition pst i lefts : PartitionState :=
  {| scan := i; num_left := length lefts; scratch_rev := len - i |}.

(** [i] elements have been distributed. *)
Definition pinv i lefts rights m : Prop :=
  length lefts + length rights = i ∧ i ≤ len ∧
  eqm m (store BS (len - length rights) (reverse rights) (store BS 0 lefts m0)) ∧
  lefts ++ rights ≡ₚ take i l ∧
  (Lg → lefts = List.filter f (take i l) ∧
        rights = List.filter (λ x, negb (f x)) (take i l)).

Lemma pinv_eqm i lefts rights m m' :
  eqm m m' → pinv i lefts rights m' → pinv i lefts rights m.
Proof.
  intros Hm (?&?&Hm'&?&?). split_and!; try done; [by rewrite Hm|naive_solver..].
Qed.

Lemma pinv_scratch i lefts rights m : pinv i lefts rights m → scratch_only m0 m.
Proof.
  intros (_&_&Hm&_). apply scratch_only_eqm in Hm. etrans; [|exact Hm].
  by do 2 apply scratch_only_store.
Qed.

Lemma pinv_get i lefts rights m j x :
  pinv i lefts rights m → l !! j = Some x → get BV m !! j = Some (Some x).
Proof.
  intros Hm Hx. apply pinv_scratch in Hm. simpl.
  destruct Hm as [-> _]. unfold slice_of in Hl. by rewrite Hl, list_lookup_fmap, Hx.
Qed.

Definition next_left (b : bool) lefts (x : T) := if b then lefts ++ [x] else lefts.
Definition next_right (b : bool) rights (x : T) := if b then rights else rights ++ [x].

Lemma pinv_step i lefts rights m x b :
  pinv i lefts rights m → l !! i = Some x → (Lg → b = f x) →
  pinv (i + 1) (next_left b lefts x) (next_right b rights x)
    (store BS (if b then length lefts else len - (i + 1) + length lefts) [x] m).
Proof.
  intros (Hi&Hil&Hm&Hp&HL) Hx Hb. pose proof (lookup_lt_Some _ _ _ Hx).
  unfold pinv. split_and!.
  - destruct b; simpl; rewrite length_app; simpl; lia.
  - unfold len. lia.
  - rewrite Hm. destruct b; simpl.
    + rewrite store_app, store_comm; [done|]. rewrite length_reverse. simpl. unfold len. lia.
    + rewrite length_app, reverse_snoc. change (x :: reverse rights) with ([x] ++ reverse rights).
      rewrite store_app. simpl.
      replace (len - (length rights + 1) + 1) with (len - length rights) by (unfold len; lia).
      replace (len - (i + 1) + length lefts) with (len - (length rights + 1)) by (unfold len; lia).
      rewrite store_comm; [done|]. rewrite length_reverse. simpl. unfold len. lia.
  - rewrite Nat.add_1_r, (take_S_r _ _ x) by done. destruct b; simpl.
    + rewrite <- Hp, <- !app_assoc. f_equiv. apply Permutation_app_comm.
    + by rewrite <- Hp, <- !app_assoc.
  - intros HL'. destruct (HL HL') as [H1 H2]. specialize (Hb HL').
    rewrite Nat.add_1_r, (take_S_r _ _ x), !List.filter_app by done. simpl.
    rewrite <- Hb, <- H1, <- H2. destruct b; simpl; by rewrite ?app_nil_r.
Qed.

Lemma partition_one_spec i lefts rights b x m (Q : PartitionState * nat → mem T → Prop) P :
  pinv i lefts rights m → l !! i = Some x → (Lg → b = f x) →
  (∀ m', pinv (i + 1) (next_left b lefts x) (next_right b rights x) m' →
     Q (pst (i + 1) (next_left b lefts x),
        if b then length lefts else len - (i + 1) + length lefts) m') →
  wp (partition_one (pst i lefts) b) Q P m.
Proof.
  intros Hm Hx Hb HQ. pose proof (lookup_lt_Some _ _ _ Hx).
  pose proof Hm as (Hi&_). pose proof (pinv_scratch _ _ _ _ Hm) as [HV HS].
  unfold partition_one. simpl. apply wp_bind, wp_psub; [unfold len; lia|].
  replace (len - i - 1) with (len - (i + 1)) by (unfold len; lia).
  apply wp_bind, wp_padd; [rewrite HS; destruct b; unfold len in *; lia|].
  apply wp_bind. eapply wp_copy1; [by eapply pinv_get|by left| |].
  { rewrite HS. destruct b; unfold len in *; lia. }
  apply wp_bind, wp_padd.
  { rewrite size_store. unfold size. simpl. rewrite HV.
    unfold slice_of in Hl. rewrite Hl, length_fmap. lia. }
  apply wp_ret.
  replace {| scan := i + 1; num_left := length lefts + Nat.b2n b; scratch_rev := len - (i + 1) |}
    with (pst (i + 1) (next_left b lefts x)).
  2:{ unfold pst. f_equal. destruct b; simpl; rewrite ?length_app; simpl; lia. }
  replace ((if b then 0 else len - (i + 1)) + length lefts)
    with (if b then length lefts else len - (i + 1) + length lefts) by by destruct b.
  apply HQ. by apply pinv_step.
Qed.

(** The range up to [e] is distributed; the lists only grow at their ends. *)
Definition grown lefts rights e s m : Prop :=
  ∃ dl dr, s = pst e (lefts ++ dl) ∧ pinv e (lefts ++ dl) (rights ++ dr) m.

Lemma partition_scan_spec i lefts rights lefts' rights' m (P : mem T → Prop) :
  i < len → (∃ dl dr, lefts' = lefts ++ dl ∧ rights' = rights ++ dr) →
  pinv i lefts' rights' m → (∀ m', scratch_only m0 m' → ¬ Lg → P m') →
  wp (partition_scan cmp pivot_pos (pst i lefts'))
    (λ s m', grown lefts rights (i + 1) s m') P m.
Proof.
  intros Hi (dl&dr&->&->) Hm HP. destruct (lookup_lt_is_Some_2 l i) as [x Hx]; [done|].
  unfold partition_scan. simpl.
  apply wp_bind. eapply wp_rd; [by eapply pinv_get|].
  apply wp_bind. eapply wp_rd; [by eapply pinv_get|].
  apply wp_bind, (wp_cmp cmp g).
  - intros b m1 Hm1 Hb. apply wp_bind. eapply partition_one_spec; [by eapply pinv_eqm|done|done|].
    intros m2 Hm2. apply wp_ret. destruct b; unfold next_left, next_right in *;
      rewrite <- ?app_assoc in *; [exists (dl ++ [x]), dr|exists dl, (dr ++ [x])]; done.
  - intros m1 Hm1 ?. apply HP; [|done]. apply pinv_scratch in Hm.
    etrans; [exact Hm|]. by apply scratch_only_eqm.
Qed.

Lemma partition_until_spec i e lefts rights m (P : mem T → Prop) :
  i ≤ e → e ≤ len → pinv i lefts rights m → (∀ m', scratch_only m0 m' → ¬ Lg → P m') →
  wp (partition_until cmp ti pivot_pos e (pst i lefts))
    (λ s m', grown lefts rights e s m') P m.
Proof.
  intros Hie He Hm HP. unfold partition_until.
  assert (∀ s j m1, j < len → grown lefts rights j s m1 →
    wp (partition_scan cmp pivot_pos s) (λ s m', grown lefts rights (j + 1) s m') P m1) as Hstep.
  { intros s j m1 Hj (dl&dr&->&Hm1). eapply partition_scan_spec; eauto. }
  assert (∀ s j m1, grown lefts rights j s m1 → scan s = j) as Hscan.
  { by intros s j m1 (dl&dr&->&_). }
  apply wp_bind. eapply wp_mono with (P := P)
    (Q := λ s m', ∃ j, j ≤ e ∧ grown lefts rights j s m'); [| |done].
  - assert (grown lefts rights i (pst i lefts) m) as H0.
    { exists [], []. by rewrite !app_nil_r. }
    destruct (_ <=? _); [|apply wp_ret; by exists i].
    apply (wp_loop (λ s m', ∃ j, j ≤ e ∧ grown lefts rights j s m') (λ s, e - scan s));
      [|by exists i|lia].
    intros s m1 (j&Hj&Hm1). rewrite (Hscan _ _ _ Hm1).
    destruct (Nat.ltb_spec j (e - (UNROLL_LEN - 1))) as [Hlt|]; [|apply wp_ret; by exists j].
    unfold UNROLL_LEN in Hlt.
    apply wp_bind. eapply wp_mono; [apply (Hstep _ j); [lia|done]| |done]. intros s1 m2 Hm2.
    apply wp_bind. eapply wp_mono; [apply (Hstep _ (j + 1)); [lia|done]| |done]. intros s2 m3 Hm3.
    apply wp_bind. eapply wp_mono; [apply (Hstep _ (j + 1 + 1)); [lia|done]| |done].
    intros s3 m4 Hm4.
    apply wp_bind. eapply wp_mono; [apply (Hstep _ (j + 1 + 1 + 1)); [lia|done]| |done].
    intros s4 m5 Hm5. apply wp_ret. rewrite (Hscan _ _ _ Hm5). split; [|lia].
    exists (j + 1 + 1 + 1 + 1). split; [lia|done].
  - intros s m1 (j&Hj&Hm1).
    apply (wp_loop (λ s m', ∃ j, j ≤ e ∧ grown lefts rights j s m') (λ s, e - scan s));
      [|by exists j|lia].
    clear s j m1 Hj Hm1. intros s m1 (j&Hj&Hm1). rewrite (Hscan _ _ _ Hm1).
    destruct (Nat.ltb_spec j e).
    + apply wp_bind. eapply wp_mono; [apply (Hstep _ j); [lia|done]| |done]. intros s1 m2 Hm2.
      apply wp_ret. rewrite (Hscan _ _ _ Hm2). split; [|lia]. exists (j + 1). split; [lia|done].
    + apply wp_ret. by replace e with j by lia.
Qed.

(** ** Copying back *)
Lemma copy_back_spec lefts rights m :
  pinv len lefts rights m →
  wp (_ ← copy_nonoverlapping BS 0 BV 0 (length lefts);
      for_range (len - length lefts) 0 (λ i,
        src ← psub (len - 1) i;
        copy_nonoverlapping BS (0 + src) BV (0 + (length lefts + i)) 1))
    (λ _ m', slice_of (lefts ++ rights) m' ∧ size BS m' = size BS m0) (λ _, False) m.
Proof.
  intros Hm. pose proof Hm as (Hlen&_&Heq&Hp&_).
  destruct (pinv_scratch _ _ _ _ Hm) as [HV HS].
  assert (size BV m = len) as HszV.
  { unfold size. simpl. rewrite HV. unfold slice_of in Hl. by rewrite Hl, length_fmap. }
  assert (holds BS 0 lefts m) as HL.
  { rewrite Heq. apply holds_store_ne; [right; rewrite length_reverse; unfold len in *; lia|].
    apply holds_store_eq. lia. }
  assert (holds BS (length lefts) (reverse rights) m) as HR.
  { rewrite Heq. replace (len - length rights) with (length lefts) by lia.
    apply holds_store_eq. rewrite size_store, length_reverse. unfold len in *. lia. }
  apply wp_bind, (wp_copy_nonoverlapping BS 0 BV 0 _ lefts); [done|done|by left|lia|lia|].
  eapply wp_mono with (P := λ _, False); [apply (wp_for_range (λ i m',
    eqm m' (store BV 0 (lefts ++ take i rights) m)))| |done].
  - intros i m' Hi Hm'. replace (len - length lefts) with (length rights) in Hi by lia.
    apply wp_bind, wp_psub; [lia|]. simpl.
    destruct (lookup_lt_is_Some_2 rights i) as [x Hx]; [lia|].
    eapply wp_copy1 with (x := x); [|by left|rewrite Hm', size_store; lia|].
    + rewrite Hm', get_store, decide_False by done.
      replace (len - 1 - i) with (length lefts + (length rights - 1 - i)) by lia. apply HR.
      rewrite reverse_lookup by lia.
      by replace (length rights - S (length rights - 1 - i)) with i by lia.
    + rewrite Hm', Nat.add_1_r, (take_S_r _ _ x), app_assoc by done.
      rewrite (store_app _ _ (_ ++ _) [x]), length_app, length_take_le by lia. done.
  - by rewrite take_0, app_nil_r.
  - intros [] m' Hm'. rewrite take_ge in Hm' by lia.
    rewrite Hm'. split; [|by rewrite size_store]. apply slice_of_holds.
    rewrite size_store, length_app. split; [|lia]. apply holds_store_eq.
    rewrite length_app. lia.
Qed.
(** ** The whole routine *)
Definition partitioned (n : nat) (l' : list T) : Prop :=
  ∃ lefts rights, l' = lefts ++ rights ∧ n = length lefts ∧
    (if gl then 1 ≤ length lefts else 1 ≤ length rights) ∧
    (Lg → lefts = List.filter f l ∧ rights = List.filter (λ x, negb (f x)) l).

(** Where the pivot is in the scratch buffer. *)
Definition pivot_at (pis : nat) lefts rights : Prop :=
  if gl then lefts !! pis = Some p
  else ∃ k, rights !! k = Some p ∧ pis = len - 1 - k.

Lemma pivot_at_grown pis lefts rights dl dr :
  pivot_at pis lefts rights → pivot_at pis (lefts ++ dl) (rights ++ dr).
Proof.
  unfold pivot_at. destruct gl; [by apply lookup_app_l_Some|].
  intros (k&?&?). exists k. split; [by apply lookup_app_l_Some|done].
Qed.

Lemma pivot_at_nonempty pis lefts rights :
  pivot_at pis lefts rights → if gl then 1 ≤ length lefts else 1 ≤ length rights.
Proof.
  unfold pivot_at. destruct gl; [intros H%lookup_lt_Some; lia|].
  intros (k&H%lookup_lt_Some&_). lia.
Qed.

(** Writing the pivot to where it is changes nothing. *)
Lemma rewrite_pivot pis lefts rights m :
  pinv len lefts rights m → pivot_at pis lefts rights →
  pis < size BS m ∧ eqm (store BS pis [p] m) m.
Proof.
  intros Hm Hp. pose proof Hm as (Hlen&_&Heq&_&_).
  destruct (pinv_scratch _ _ _ _ Hm) as [_ HS]. rewrite HS.
  assert (get BS m !! pis = Some (Some p)) as Hget.
  { unfold pivot_at in Hp. rewrite Heq. destruct gl.
    - pose proof (lookup_lt_Some _ _ _ Hp).
      apply (holds_store_ne BS 0 lefts); [right; rewrite length_reverse; lia| |done].
      apply holds_store_eq. unfold len in *. lia.
    - destruct Hp as (k&Hk&->). pose proof (lookup_lt_Some _ _ _ Hk).
      replace (len - 1 - k) with (len - length rights + (length rights - 1 - k)) by lia.
      apply (holds_store_eq BS (len - length rights) (reverse rights)).
      + rewrite size_store, length_reverse. unfold len in *. lia.
      + rewrite reverse_lookup by lia.
        by replace (length rights - S (length rights - 1 - k)) with k by lia. }
  split; [apply lookup_lt_Some in Hget; unfold size in *; simpl in *; lia|].
  rewrite store_holds; [done|]. intros [|i] x Hx; [|done]. injection Hx as <-.
  by rewrite Nat.add_0_r.
Qed.

Lemma stable_partition_spec :
  wp (stable_partition cmp ti pivot_pos gl)
    (λ n, vperm l (partitioned n) m0) (vperm l (λ _, ¬ Lg) m0) m0.
Proof.
  pose proof Hl as [_ HszV]%slice_of_holds. fold len in HszV.
  pose proof (lookup_lt_Some _ _ _ Hpivot) as Hpp. fold len in Hpp.
  assert (∀ m', scratch_only m0 m' → ¬ Lg → vperm l (λ _, ¬ Lg) m0 m') as HP.
  { intros m' Hm' ?. apply vperm_refl; [by eapply scratch_only_slice|apply Hm'|done]. }
  unfold stable_partition. apply wp_bind, wp_len_of, wp_bind, wp_len_of. rewrite HszV.
  replace ((size BS m0 <? len) || (len <=? pivot_pos)) with false; cbv zeta.
  2:{ symmetry. rewrite orb_false_iff, Nat.ltb_ge, Nat.leb_gt. lia. }
  apply wp_bind, wp_padd; [lia|]. apply wp_bind.
  eapply wp_mono with (P := vperm l (λ _, ¬ Lg) m0) (Q := λ '(s, pis) m', ∃ lefts rights j,
    s = pst len lefts ∧ pis = Some j ∧ pinv len lefts rights m' ∧ pivot_at j lefts rights).
  - apply (wp_loop (λ '(s, pis, e) m', ∃ lefts rights,
      (e = pivot_pos ∧ s = pst 0 [] ∧ lefts = [] ∧ rights = [] ∧ pinv 0 [] [] m') ∨
      (∃ j, e = len ∧ pis = Some j ∧ s = pst (pivot_pos + 1) lefts ∧
       pinv (pivot_pos + 1) lefts rights m' ∧ pivot_at j lefts rights))
      (λ '(_, _, e), if e =? len then 0 else 1)).
    + intros [[s pis] e] m (lefts&rights&[(->&->&->&->&Hm)|(j&->&->&->&Hm&Hj)]).
      * apply wp_bind. eapply wp_mono; [apply (partition_until_spec 0 pivot_pos [] []);
          [lia|lia|done|exact HP]| |done].
        intros s m1 (dl&dr&->&Hm1). simpl in *.
        destruct (Nat.eqb_spec pivot_pos len); [lia|].
        apply wp_bind. eapply partition_one_spec; [done|done|by intros _; rewrite <- Hgl|].
        intros m2 Hm2. apply wp_ret. rewrite Nat.eqb_refl. split; [|lia].
        eexists _, _. right. eexists. split_and!; [done|done|done|done|].
        pose proof Hm1 as (Hlen&_). unfold pivot_at. destruct gl; simpl.
        { by rewrite lookup_mid. }
        { exists (length dr). rewrite lookup_mid by done. split; [done|lia]. }
      * apply wp_bind. eapply wp_mono; [apply (partition_until_spec (pivot_pos + 1) len lefts rights);
          [lia|lia|done|exact HP]| |done].
        intros s m1 (dl&dr&->&Hm1). rewrite Nat.eqb_refl. apply wp_ret.
        exists (lefts ++ dl), (rights ++ dr), j. split_and!; [done|done|done|].
        by apply pivot_at_grown.
    + exists [], []. left. unfold pst. rewrite Nat.sub_0_r. split_and!; try done.
      unfold pinv. split_and!; [done|lia| |done|done].
      simpl. by rewrite !store_nil.
    + destruct (_ =? _); lia.
  - intros [s pis] m (lefts&rights&j&->&->&Hm&Hj).
    pose proof (rewrite_pivot _ _ _ _ Hm Hj) as [Hjs Hrw].
    apply wp_bind. eapply wp_mono with (P := vperm l (λ _, ¬ Lg) m0)
      (Q := λ _ m', pinv len lefts rights m'); [| |done].
    + destruct (negb (is_freeze ti)); [|by apply wp_ret].
      eapply wp_copy1; [by eapply pinv_get|by left|done|]. by eapply pinv_eqm.
    + clear m Hm Hjs Hrw. intros [] m Hm. simpl.
      pose proof (copy_back_spec lefts rights m Hm) as Hcb. apply wp_bind_inv in Hcb.
      apply wp_bind. eapply wp_mono; [exact Hcb| |done]. intros [] m1 Hm1.
      apply wp_bind. eapply wp_mono; [exact Hm1| |done]. intros [] m2 [Hm2 HS2].
      apply wp_ret. destruct Hm as (_&_&_&Hp&HL).
      unfold len in Hp, HL. rewrite take_ge in Hp by done.
      rewrite (take_ge l (length l)) in HL by done.
      exists (lefts ++ rights). split_and!; [done|done|done|].
      exists lefts, rights. split_and!; [done|done|by eapply pivot_at_nonempty|done].
  - done.
Qed.
End spec.
