(* ===== verification/DriftSpec.v ===== *)
(** Driftsort: the runs, their compact representation, the powersort heuristic
    and the main loop ([stable/drift.rs]). *)

From S2P Require Import Prelude.
From S2P Require Import Order.
From S2P Require Import SortMem.
From S2P Require Import SmallSort.
From S2P Require Import SmallSortSpec.
From S2P Require Import Pivot.
From S2P Require Import Stable.
From S2P Require Import MergeSpec.

(** ** [swap] and [reverse] of a slice *)
Section reverse.
Context {T : Type}.
Implicit Types (m : mem T) (l : list T).

Lemma swap_spec l i j x y m (Q : () → mem T → Prop) P :
  slice_of l m → l !! i = Some x → l !! j = Some y →
  (∀ m', slice_of (<[j := x]> (<[i := y]> l)) m' → mS m' = mS m → calls m' = calls m → Q () m') →
  wp (swap i j) Q P m.
Proof.
  intros Hl Hx Hy HQ. pose proof Hl as [Hh Hsz]%slice_of_holds.
  pose proof (lookup_lt_Some _ _ _ Hx). pose proof (lookup_lt_Some _ _ _ Hy).
  unfold swap. apply wp_bind, wp_len_of. rewrite Hsz.
  replace ((i <? length l) && (j <? length l)) with true
    by (symmetry; rewrite andb_true_iff, !Nat.ltb_lt; lia).
  apply wp_bind. eapply wp_rd; [by apply (Hh i)|]. apply wp_bind. eapply wp_rd; [by apply (Hh j)|].
  apply wp_bind, wp_wr; [lia|]. apply wp_wr; [rewrite size_store; lia|].
  unfold slice_of in *. apply HQ; [|done|done].
  unfold store. simpl. by rewrite Hl, !list_fmap_insert.
Qed.

Lemma reverse_slice_spec l m (Q : () → mem T → Prop) P :
  slice_of l m →
  (∀ m', slice_of (reverse l) m' → mS m' = mS m → Q () m') →
  wp reverse_slice Q P m.
Proof.
  intros Hl HQ. pose proof Hl as [_ Hsz]%slice_of_holds.
  unfold reverse_slice. apply wp_bind, wp_len_of. rewrite Hsz. set (n := length l).
  pose proof (Nat.div_mod n 2 ltac:(lia)) as Hdiv.
  pose proof (Nat.mod_upper_bound n 2 ltac:(lia)).
  eapply (wp_mono _ _ _ P P); [apply (wp_for_range (λ i m', ∃ k, slice_of k m' ∧ mS m' = mS m ∧
    length k = n ∧ ∀ j, j < n →
      k !! j = if decide (j < i ∨ n - i ≤ j) then l !! (n - 1 - j) else l !! j))| |done].
  - intros i m' Hi (k&Hk&HS&Hlen&Hlk).
    destruct (lookup_lt_is_Some_2 k i) as [x Hx]; [lia|].
    destruct (lookup_lt_is_Some_2 k (n - 1 - i)) as [y Hy]; [lia|].
    eapply swap_spec; [done|done|done|]. intros m'' Hm'' HS' _.
    exists (<[n - 1 - i := x]> (<[i := y]> k)). split_and!; [done|congruence|len|].
    rewrite (Hlk i), decide_False in Hx by lia.
    rewrite (Hlk (n - 1 - i)), decide_False in Hy by lia.
    intros j Hj. destruct (decide (j = n - 1 - i)) as [->|].
    { rewrite list_lookup_insert_eq by len. rewrite decide_True by lia.
      by replace (n - 1 - (n - 1 - i)) with i by lia. }
    rewrite list_lookup_insert_ne by done. destruct (decide (j = i)) as [->|].
    { rewrite list_lookup_insert_eq by lia. by rewrite decide_True by lia. }
    rewrite list_lookup_insert_ne, Hlk by done. repeat case_decide; done || lia.
  - exists l. split_and!; [done..|]. intros j Hj. rewrite decide_False by lia. done.
  - intros [] m' (k&Hk&HS&Hlen&Hlk). apply HQ; [|done].
    replace (reverse l) with k; [done|]. apply inserts_eq; [by rewrite length_reverse|].
    intros j Hj. rewrite Hlk, reverse_lookup by lia. fold n.
    case_decide; f_equal; lia.
Qed.
End reverse.

(** ** [DriftsortRun]: a length and a flag packed in a [usize] *)
Section run.
Implicit Types (n : nat).

Lemma wrap_usize_small z : (0 ≤ z < 2 ^ 64)%Z → wrap_usize z = z.
Proof. intros. unfold wrap_usize. by apply Z.mod_small. Qed.

Lemma shifted n : (Z.of_nat n < 2 ^ 63)%Z → wrap_usize (Z.shiftl (Z.of_nat n) 1) = (2 * Z.of_nat n)%Z.
Proof.
  intros Hn. rewrite Z.shiftl_mul_pow2, Z.mul_comm by done. apply wrap_usize_small. lia.
Qed.

Lemma lor_1_double z : Z.lor (2 * z) 1 = (2 * z + 1)%Z.
Proof.
  apply Z.bits_inj'. intros i Hi. rewrite Z.lor_spec.
  destruct (Z.eq_dec i 0%Z) as [->|].
  - by rewrite Z.testbit_even_0, Z.testbit_odd_0.
  - replace i with (Z.succ (i - 1)%Z) by lia.
    rewrite Z.testbit_even_succ, Z.testbit_odd_succ by lia.
    change 1%Z with (2 * 0 + 1)%Z at 2. rewrite Z.testbit_odd_succ, Z.bits_0 by lia.
    apply orb_false_r.
Qed.

Lemma new_sorted_eq n : (Z.of_nat n < 2 ^ 63)%Z → DriftsortRun.new_sorted n = (2 * Z.of_nat n + 1)%Z.
Proof. intros. unfold DriftsortRun.new_sorted. by rewrite shifted, lor_1_double. Qed.

Lemma new_unsorted_eq n : (Z.of_nat n < 2 ^ 63)%Z → DriftsortRun.new_unsorted n = (2 * Z.of_nat n)%Z.
Proof. intros. unfold DriftsortRun.new_unsorted. by rewrite shifted. Qed.

Lemma run_sorted_odd z : DriftsortRun.sorted z = Z.odd z.
Proof.
  unfold DriftsortRun.sorted. change 1%Z with (Z.ones 1). rewrite Z.land_ones by done.
  change (2 ^ 1)%Z with 2%Z. rewrite Zmod_odd. by destruct (Z.odd z).
Qed.

Lemma run_len_div z : DriftsortRun.len z = Z.to_nat (z / 2).
Proof. unfold DriftsortRun.len. by rewrite Z.shiftr_div_pow2. Qed.

Lemma sorted_run n : (Z.of_nat n < 2 ^ 63)%Z →
  DriftsortRun.len (DriftsortRun.new_sorted n) = n ∧
  DriftsortRun.sorted (DriftsortRun.new_sorted n) = true.
Proof.
  intros. rewrite new_sorted_eq, run_len_div, run_sorted_odd by done. split.
  - rewrite Z.mul_comm, Z.div_add_l by done. change (1 / 2)%Z with 0%Z. lia.
  - by rewrite Z.odd_add, Z.odd_mul.
Qed.

Lemma unsorted_run n : (Z.of_nat n < 2 ^ 63)%Z →
  DriftsortRun.len (DriftsortRun.new_unsorted n) = n ∧
  DriftsortRun.sorted (DriftsortRun.new_unsorted n) = false.
Proof.
  intros. rewrite new_unsorted_eq, run_len_div, run_sorted_odd by done. split.
  - rewrite Z.mul_comm, Z.div_mul by done. lia.
  - by rewrite Z.odd_mul.
Qed.
End run.

(** ** The arithmetic of the heuristic *)
Section arith.
Implicit Types (n : nat).

Lemma leading_zeros_bounds x : (0 ≤ x < 2 ^ 64)%Z → (0 ≤ leading_zeros x ≤ 64)%Z.
Proof.
  intros Hx. unfold leading_zeros. case_bool; [lia|].
  pose proof (Z.log2_nonneg x). assert (Z.log2 x < 64)%Z by (apply Z.log2_lt_pow2; lia). lia.
Qed.

Lemma div_ceil_bound a d : (0 < d → 0 ≤ a → 0 ≤ div_ceil a d ∧ div_ceil a d * d < a + d)%Z.
Proof.
  intros Hd Ha. unfold div_ceil. pose proof (Z.div_mod a d ltac:(lia)) as Hdiv.
  pose proof (Z.mod_pos_bound a d Hd). pose proof (Z.div_pos a d Ha Hd).
  case_bool; nia.
Qed.

Lemma scale_factor_bound n : 1 ≤ n →
  (0 ≤ merge_tree_scale_factor n ∧
   merge_tree_scale_factor n * Z.of_nat n < 2 ^ 62 + Z.of_nat n)%Z.
Proof.
  intros. apply div_ceil_bound; [lia|]. done.
Qed.

Lemma lxor_bound a b : (0 ≤ a < 2 ^ 64 → 0 ≤ b < 2 ^ 64 → 0 ≤ Z.lxor a b < 2 ^ 64)%Z.
Proof.
  intros [Ha Ha'] [Hb Hb']. split; [by apply Z.lxor_nonneg|].
  destruct (decide (Z.lxor a b = 0%Z)) as [->|]; [done|].
  apply Z.log2_lt_pow2; [pose proof (proj2 (Z.lxor_nonneg a b)); lia|].
  eapply Z.le_lt_trans; [by apply Z.log2_lxor|].
  apply Z.max_lub_lt.
  - destruct (decide (a = 0%Z)) as [->|]; [done|]. apply Z.log2_lt_pow2; lia.
  - destruct (decide (b = 0%Z)) as [->|]; [done|]. apply Z.log2_lt_pow2; lia.
Qed.

(** No intermediate result overflows for slices of at most [2^62] elements. *)
Lemma merge_tree_depth_spec {S} a b c n (Q : Z → S → Prop) P s :
  a ≤ b → b < c → c ≤ n → (Z.of_nat n < 2 ^ 62)%Z →
  (∀ d, (0 ≤ d ≤ 64)%Z → Q d s) →
  wp (merge_tree_depth a b c (merge_tree_scale_factor n)) Q P s.
Proof.
  intros Hab Hbc Hcn Hn HQ. destruct (scale_factor_bound n) as [Hf0 Hf]; [lia|].
  set (f := merge_tree_scale_factor n) in *.
  assert (∀ z (Q' : Z → S → Prop), (z < 2 ^ 64)%Z → Q' z s → wp (u64 z) Q' P s) as Hu.
  { intros z Q' Hz HQ'. unfold u64. rewrite (proj2 (Z.ltb_lt _ _) Hz). done. }
  assert (∀ u v, u ≤ n → v ≤ n → (u < n ∨ v < n) →
    (0 ≤ f * (Z.of_nat u + Z.of_nat v) < 2 ^ 64)%Z) as Hfuv by (intros; nia).
  unfold merge_tree_depth. cbv zeta.
  apply wp_bind, Hu; [lia|]. apply wp_bind, Hu; [lia|].
  apply wp_bind, Hu; [apply Hfuv; lia|]. apply wp_bind, Hu; [apply Hfuv; lia|].
  apply wp_ret, HQ, leading_zeros_bounds, lxor_bound; apply Hfuv; lia.
Qed.

Lemma lor_1_bound n : n ≤ Nat.lor n 1 ≤ n + 1.
Proof.
  destruct (Nat.Even_or_Odd n) as [[k ->]|[k ->]].
  - replace (Nat.lor (2 * k) 1) with (2 * k + 1); [lia|].
    apply Nat.bits_inj. intros i. rewrite Nat.lor_spec.
    destruct i; [rewrite Nat.testbit_odd_0, Nat.testbit_even_0; done|].
    rewrite Nat.testbit_odd_succ, Nat.testbit_even_succ by lia.
    change (Nat.testbit 1 (S i)) with (Nat.testbit 0 i). by rewrite Nat.bits_0, orb_false_r.
  - replace (Nat.lor (2 * k + 1) 1) with (2 * k + 1); [lia|].
    apply Nat.bits_inj. intros i. rewrite Nat.lor_spec.
    destruct i; [by rewrite Nat.testbit_odd_0|].
    rewrite Nat.testbit_odd_succ by lia.
    change (Nat.testbit 1 (S i)) with (Nat.testbit 0 i). by rewrite Nat.bits_0, orb_false_r.
Qed.

Lemma sqrt_approx_bound n : 64 * 64 < n → 1 ≤ sqrt_approx n ≤ n - n / 2.
Proof.
  intros Hn. unfold sqrt_approx. pose proof (lor_1_bound n) as Hor.
  set (o := Nat.lor n 1) in *. set (i := Nat.log2 o).
  destruct (Nat.log2_spec o) as [Hlo Hhi]; [lia|]. fold i in Hlo, Hhi.
  assert (12 ≤ i) as Hi by (apply (Nat.log2_le_mono (2 ^ 12)); simpl; lia).
  set (s := (i + 1) / 2). rewrite Nat.shiftl_1_l, Nat.shiftr_div_pow2.
  pose proof (Nat.div_mod (i + 1) 2 ltac:(lia)) as Hs. fold s in Hs.
  pose proof (Nat.mod_upper_bound (i + 1) 2 ltac:(lia)).
  assert (2 ^ 6 ≤ 2 ^ s) as H6 by (apply Nat.pow_le_mono_r; lia).
  assert (2 ^ s * 2 ^ s ≤ 2 * o) as Hsq.
  { rewrite <- Nat.pow_add_r. transitivity (2 ^ (1 + i)); [apply Nat.pow_le_mono_r; lia|].
    rewrite Nat.pow_add_r. simpl (2 ^ 1). lia. }
  change (2 ^ 6) with 64 in H6. set (k := 2 ^ s) in *.
  pose proof (Nat.Div0.mul_div_le n k) as Hnk.
  pose proof (Nat.div_mod n 2 ltac:(lia)). pose proof (Nat.mod_upper_bound n 2 ltac:(lia)).
  split.
  - apply Nat.div_le_lower_bound; [lia|]. lia.
  - transitivity (n / 2); [|lia]. apply Nat.Div0.div_le_mono.
    assert (32 * k ≤ o) by nia. assert (64 * (n / k) ≤ n) by nia. lia.
Qed.
End arith.

(** ** Logical runs *)
Section drift.
Context {T : Type} (less : comparator T) (lt : T → T → bool) `{!StrictWeak lt}.
Context (ti : ty_info) (quicksort : nat → option T → prog (mem T) ()).
Context (eager : bool) (total N : nat).
Implicit Types (m : mem T) (l A B : list T) (r : DriftsortRun).
Let L : Prop := lawful less lt.

(** What driftsort needs of its scratch buffer, of the length of the slice and
    of the quicksort it calls: in eager mode only slices that go straight to
    the small sort. *)
Hypothesis HN : total - total / 2 ≤ N.
Hypothesis HN48 : SMALL_SORT_GENERAL_SCRATCH_LEN ≤ N.
Hypothesis Htotal : (Z.of_nat total < 2 ^ 62)%Z.
Hypothesis Hquicksort : ∀ limit l m, slice_of l m → size BS m = N → length l ≤ N →
  (if eager then length l ≤ stable_small_sort_threshold ti else length l ≤ total) →
  sorts less lt (quicksort limit None) l m.

(** The run [r] stands for the segment [s]. *)
Definition describes r (s : list T) : Prop :=
  DriftsortRun.len r = length s ∧
  (DriftsortRun.sorted r = true → L → sorted lt s) ∧
  (DriftsortRun.sorted r = false → eager = false ∧ length s ≤ N).

(** The state of the whole slice [l] is the concatenation of segments [k], up
    to stable rearrangement when the comparison is lawful. *)
Definition rearranged l k : Prop := k ≡ₚ l ∧ (L → stable_eq lt k l).

Lemma rearranged_refl l : rearranged l l.
Proof. done. Qed.

Lemma rearranged_trans l k1 k2 : rearranged l k1 → rearranged k1 k2 → rearranged l k2.
Proof.
  intros [? H1] [? H2]. split; [by etrans|]. intros HL. rewrite (H2 HL). by apply H1.
Qed.

Lemma rearranged_part pre A A' post : rearranged A A' → rearranged (pre ++ A ++ post) (pre ++ A' ++ post).
Proof.
  intros [Hp Hs]. split; [by rewrite Hp|]. intros HL. specialize (Hs HL).
  apply stable_eq_app; [done|]. by apply stable_eq_app.
Qed.

Lemma sorts_rearranged l k : k ≡ₚ l → (L → k = isort lt l) → rearranged l k ∧ (L → sorted lt k).
Proof.
  intros Hp HL. split; [split; [done|]|]; intros HL'; rewrite (HL HL').
  - by apply isort_stable.
  - by apply isort_sorted.
Qed.

Lemma describes_sorted s : length s ≤ total → (L → sorted lt s) →
  describes (DriftsortRun.new_sorted (length s)) s.
Proof using Htotal.
  clear HN HN48. intros Hs HL. destruct (sorted_run (length s)) as [H1 H2]; [lia|].
  split; [done|]. split; [done|]. by rewrite H2.
Qed.

Lemma describes_unsorted s : length s ≤ total → eager = false → length s ≤ N →
  describes (DriftsortRun.new_unsorted (length s)) s.
Proof using Htotal.
  clear HN HN48. intros Hs He HsN. destruct (unsorted_run (length s)) as [H1 H2]; [lia|].
  split; [done|]. split; [by rewrite H2|done].
Qed.

Lemma stable_quicksort_sorts l m :
  slice_of l m → size BS m = N → length l ≤ N → length l ≤ total → eager = false →
  sorts less lt (stable_quicksort quicksort) l m.
Proof.
  intros Hl HS ?? He. unfold sorts, stable_quicksort. apply wp_bind, wp_len_of.
  apply Hquicksort; [done..|]. by rewrite He.
Qed.

(** Sorting one of the two runs before a merge. *)
Lemma sort_part_spec r lo hi pre s post m (Q : () → mem T → Prop) P :
  slice_of (pre ++ s ++ post) m → lo = length pre → hi = lo + length s → size BS m = N →
  describes r s → length s ≤ total →
  (∀ s' m', slice_of (pre ++ s' ++ post) m' → size BS m' = N → rearranged s s' →
     (L → sorted lt s') → Q () m') →
  (∀ s' m', slice_of (pre ++ s' ++ post) m' → size BS m' = N → s' ≡ₚ s → ¬ L → P m') →
  wp (if negb (DriftsortRun.sorted r) then sub_slice lo hi (stable_quicksort quicksort)
      else mret ()) Q P m.
Proof.
  intros Hm Hlo Hhi HS (Hlen&Hsd&Hus) Hs HQ HP.
  destruct (DriftsortRun.sorted r) eqn:Hr; simpl.
  - apply wp_ret. eapply HQ; [done|done|apply rearranged_refl|auto].
  - destruct Hus as [He ?]; [done|].
    eapply (wp_sub_vperm lo hi _ pre s post); [done..| | |].
    + intros t Ht HSt. apply stable_quicksort_sorts; [done|congruence|done..].
    + intros [] k m' Hm' HS' Hp HL. destruct (sorts_rearranged s k) as [??]; [done..|].
      eapply HQ; [done|congruence|done..].
    + intros k m' Hm' HS' Hp HL. eapply HP; [done|congruence|done..].
Qed.

Lemma logical_merge_spec rl rr A B m :
  slice_of (A ++ B) m → size BS m = N → describes rl A → describes rr B →
  length A + length B ≤ total →
  wp (logical_merge less quicksort rl rr)
    (λ r, vperm (A ++ B) (λ k, describes r k ∧ rearranged (A ++ B) k) m)
    (vperm (A ++ B) (λ _, ¬ L) m) m.
Proof.
  intros Hl HS HA HB Htot. pose proof Hl as [_ Hsz]%slice_of_holds.
  pose proof (proj1 HA) as HlenA.
  unfold logical_merge. apply wp_bind, wp_len_of, wp_bind, wp_len_of. rewrite Hsz, HS.
  destruct (negb (length (A ++ B) <=? N) || DriftsortRun.sorted rl || DriftsortRun.sorted rr)
    eqn:Hcond; last first.
  { rewrite !orb_false_iff, negb_false_iff, Nat.leb_le in Hcond. destruct Hcond as [[? Hsl] Hsr].
    apply wp_ret, vperm_refl; [done..|]. split; [|apply rearranged_refl].
    apply describes_unsorted; [rewrite length_app; lia| |done].
    by apply (proj2 (proj2 HA)). }
  clear Hcond. rewrite HlenA, length_app.
  assert (∀ A' B' m', slice_of (A' ++ B') m' → size BS m' = N → A' ≡ₚ A → B' ≡ₚ B → ¬ L →
    vperm (A ++ B) (λ _, ¬ L) m m') as HP.
  { intros A' B' m' ?? HpA HpB ?. exists (A' ++ B').
    split_and!; [done|congruence|by rewrite HpA, HpB|done]. }
  apply wp_bind. eapply (sort_part_spec rl 0 _ [] A B); [done|done|done|done|done|lia| |].
  2:{ intros s' m' ????. by eapply (HP s' B). }
  intros A' m1 Hm1 HS1 [HpA HsA] HA'. pose proof (Permutation_length HpA).
  apply wp_bind. eapply (sort_part_spec rr _ _ A' B []); [by rewrite app_nil_r|lia|lia|done|done|lia| |].
  2:{ intros s' m'. rewrite app_nil_r. intros ????. by eapply (HP A' s'). }
  intros B' m2. rewrite app_nil_r. intros Hm2 HS2 [HpB HsB] HB'.
  pose proof (Permutation_length HpB).
  assert (rearranged (A ++ B) (A' ++ B')) as [Hp Hst].
  { split; [by rewrite HpA, HpB|]. intros HL. apply stable_eq_app; auto. }
  replace (length A) with (length A') by lia.
  pose proof (Nat.Div0.mul_div_le total 2).
  apply wp_bind. eapply wp_mono; [apply (merge_spec less lt A' B'); [done|rewrite HS2; lia]| |].
  - intros [] m3 (k&Hk&HSk&Hpk&HLk). apply wp_ret. exists k.
    assert (L → k = isort lt (A' ++ B')) as HLk' by auto.
    destruct (sorts_rearranged (A' ++ B') k) as [Hre Hsd]; [done..|].
    split_and!; [done|congruence|by rewrite Hpk|..].
    + replace (length A' + length B) with (length k) by (rewrite Hpk, length_app; lia).
      apply describes_sorted; [rewrite Hpk, length_app; lia|done].
    + by eapply rearranged_trans.
  - intros m3 (k&Hk&HSk&Hpk&HLk). exists k. split_and!; [done|congruence|by rewrite Hpk|done].
Qed.

Lemma create_run_spec min_good l m :
  slice_of l m → size BS m = N → 1 ≤ length l ≤ total → 1 ≤ min_good ≤ N →
  wp (create_run less ti quicksort min_good eager)
    (λ r, vperm l (λ k, rearranged l k ∧ ∃ k1 k2, k = k1 ++ k2 ∧ describes r k1 ∧ k1 ≠ []) m)
    (vperm l (λ _, ¬ L) m) m.
Proof.
  intros Hl HS Hlen Hmin. pose proof Hl as [_ Hsz]%slice_of_holds.
  unfold create_run. apply wp_bind, wp_len_of. rewrite Hsz.
  assert (∀ n, 1 ≤ n → n ≤ length l → length (take n l) = n) as Hlt
    by (intros; rewrite length_take; lia).
  assert (∀ n, 1 ≤ n → n ≤ length l → take n l ≠ []) as Hne.
  { intros n ?? Hn%(f_equal length). rewrite Hlt in Hn by done. simpl in Hn. lia. }
  apply wp_bind. eapply wp_mono with (P := vperm l (λ _, ¬ L) m) (Q := λ o m',
    match o with
    | Some r => vperm l (λ k, rearranged l k ∧ ∃ k1 k2, k = k1 ++ k2 ∧ describes r k1 ∧ k1 ≠ []) m m'
    | None => eqm m' m
    end).
  - destruct (Nat.leb_spec min_good (length l)); [|by apply wp_ret].
    apply wp_bind. eapply wp_mono; [by apply (find_existing_run_spec less lt l)| |].
    2:{ intros m' [Hm' ?]. apply vperm_refl; [by rewrite Hm'| |done].
        by rewrite Hm'. }
    intros [n desc] m1 [Hm1 (Hn&Hn1&_&Hrun)]. apply wp_bind, wp_assume; [by apply Nat.leb_le|].
    destruct (Nat.leb_spec min_good n); [|by apply wp_ret].
    assert (slice_of l m1) as Hl1 by by rewrite Hm1.
    assert (size BS m1 = N) as HS1 by by rewrite Hm1.
    apply wp_bind. destruct desc.
    + eapply (wp_sub_vperm 0 n _ [] (take n l) (drop n l) (λ _ k, k = reverse (take n l))
        (λ _, False)); [by rewrite take_drop|done|by rewrite Hlt by lia| | |done].
      { intros t Ht HSt. eapply reverse_slice_spec; [done|]. intros t' Ht' HSt'.
        eexists. split_and!; [done|unfold size; simpl; congruence| |done].
        apply reverse_Permutation. }
      intros [] k m' Hm' HS' Hp ->. apply wp_ret. simpl in Hm'.
      exists (reverse (take n l) ++ drop n l). split_and!; [done|congruence| | |].
      { by rewrite Hp, take_drop. }
      { split; [by rewrite Hp, take_drop|]. intros HL.
        rewrite <- (take_drop n l) at 3. apply stable_eq_app; [|done].
        rewrite <- (isort_reverse_desc lt (take n l)) by auto. by apply isort_stable. }
      exists (reverse (take n l)), (drop n l). split; [done|]. split.
      { rewrite <- (Hlt n) at 1 by lia. rewrite <- length_reverse.
        apply describes_sorted; [rewrite length_reverse, Hlt; lia|]. intros HL.
        rewrite <- (isort_reverse_desc lt (take n l)) by auto. by apply isort_sorted. }
      intros Hnil%(f_equal length). rewrite length_reverse, Hlt in Hnil by lia. simpl in Hnil. lia.
    + apply wp_ret, wp_ret. apply vperm_refl; [done|congruence|].
      split; [apply rearranged_refl|]. exists (take n l), (drop n l).
      rewrite take_drop. split; [done|]. split; [|by apply Hne; lia].
      rewrite <- (Hlt n) at 1 by lia. apply describes_sorted; [rewrite Hlt; lia|done].
  - intros [r|] m1 Hm1; [by apply wp_ret|].
    assert (slice_of l m1) as Hl1 by by rewrite Hm1.
    assert (size BS m1 = N) as HS1 by by rewrite Hm1.
    destruct eager eqn:He.
    + set (n := Nat.min (stable_small_sort_threshold ti) (length l)).
      assert (16 ≤ stable_small_sort_threshold ti ≤ 32) as Hth.
      { unfold stable_small_sort_threshold, SMALL_SORT_GENERAL_THRESHOLD,
          SMALL_SORT_FALLBACK_THRESHOLD. destruct (is_freeze ti); lia. }
      unfold SMALL_SORT_GENERAL_SCRATCH_LEN, SMALL_SORT_GENERAL_THRESHOLD in HN48.
      apply wp_bind. eapply (wp_sub_vperm 0 n _ [] (take n l) (drop n l));
        [by rewrite take_drop|done|by rewrite Hlt by lia| | |].
      { intros t Ht HSt. apply Hquicksort; [done|congruence|rewrite Hlt; lia..]. }
      2:{ intros k m' Hm' HS' Hp HnL. exists (k ++ drop n l).
          split_and!; [done|congruence|by rewrite Hp, take_drop|done]. }
      intros [] k m' Hm' HS' Hp HL. apply wp_ret.
      destruct (sorts_rearranged (take n l) k) as [Hre Hsd]; [done..|].
      exists (k ++ drop n l). split_and!; [done|congruence|by rewrite Hp, take_drop| |].
      { rewrite <- (take_drop n l) at 1. by apply (rearranged_part []). }
      exists k, (drop n l). split; [done|]. split.
      { replace n with (length k) by (rewrite Hp, Hlt; lia). apply describes_sorted; [|done].
        rewrite Hp, Hlt; lia. }
      intros ->. apply Permutation_nil_l in Hp. by apply (Hne n); [lia..|].
    + apply wp_ret, vperm_refl; [done|congruence|]. split; [apply rearranged_refl|].
      set (n := Nat.min min_good (length l)). exists (take n l), (drop n l).
      rewrite take_drop. split; [done|]. split; [|by apply Hne; lia].
      rewrite <- (Hlt n) at 1 by lia. apply describes_unsorted; [rewrite Hlt; lia|done|rewrite Hlt; lia].
  - done.
Qed.
End drift.
