(* ===== verification/DriftsortSpec.v ===== *)
(** The main loop of driftsort, its quicksort, and the entry points of the
    stable sort. *)

From S2P Require Import Prelude.
From S2P Require Import Order.
From S2P Require Import SortMem.
From S2P Require Import SmallSort.
From S2P Require Import SmallSortSpec.
From S2P Require Import SmallGeneral.
From S2P Require Import NetworkSpec.
From S2P Require Import Pivot.
From S2P Require Import Stable.
From S2P Require Import MergeSpec.
From S2P Require Import PartitionSpec.
From S2P Require Import DriftSpec.

(** ** The stack of runs *)
Section arrays.
Context {S A : Type}.

Lemma wp_arr_rd (a : list (option A)) i x (Q : A → S → Prop) P s :
  a !! i = Some (Some x) → Q x s → wp (arr_rd a i) Q P s.
Proof. intros H. unfold arr_rd. by rewrite H. Qed.

Lemma wp_arr_wr (a : list (option A)) i x (Q : list (option A) → S → Prop) P s :
  i < length a → Q (<[i := Some x]> a) s → wp (arr_wr a i x) Q P s.
Proof. intros H. unfold arr_wr. by rewrite (proj2 (Nat.ltb_lt _ _) H). Qed.
End arrays.

(** Strictly increasing numbers below [D]: there are at most [D] of them. *)
Lemma increasing_length (ds : list Z) (lo D : Z) :
  StronglySorted Z.lt ds → Forall (λ d, lo ≤ d < D)%Z ds → (lo ≤ D)%Z →
  (Z.of_nat (length ds) ≤ D - lo)%Z.
Proof.
  intros Hs. revert lo. induction Hs as [|d ds Hs IH Hd]; intros lo Hall Hlo; simpl; [lia|].
  apply Forall_cons in Hall as [? Hall].
  assert (Z.of_nat (length ds) ≤ D - (d + 1))%Z; [|lia].
  apply IH; [|lia]. apply Forall_forall. intros x Hx. rewrite Forall_forall in Hd, Hall.
  specialize (Hd x Hx). specialize (Hall x Hx). lia.
Qed.

Lemma StronglySorted_snoc {A} (R : A → A → Prop) l x :
  StronglySorted R l → Forall (λ y, R y x) l → StronglySorted R (l ++ [x]).
Proof.
  induction 1 as [|y l Hl IH Hy]; intros Hx; simpl; [by repeat constructor|].
  apply Forall_cons in Hx as [??]. constructor; [by apply IH|].
  apply Forall_app. split; [done|by repeat constructor].
Qed.

Lemma StronglySorted_take {A} (R : A → A → Prop) l n :
  StronglySorted R l → StronglySorted R (take n l).
Proof.
  intros Hl. revert n. induction Hl as [|y l Hl IH Hy]; intros [|n]; simpl; try constructor.
  - apply IH.
  - by apply Forall_take.
Qed.

Lemma StronglySorted_lookup {A} (R : A → A → Prop) l i j x y :
  StronglySorted R l → i < j → l !! i = Some x → l !! j = Some y → R x y.
Proof.
  intros Hl. revert i j. induction Hl as [|z l Hl IH Hz]; intros i j Hij Hx Hy; [done|].
  destruct j as [|j]; [lia|]. destruct i as [|i]; simpl in *.
  - injection Hx as ->. rewrite Forall_forall in Hz. apply Hz. by eapply list_elem_of_lookup_2.
  - eapply (IH i j); [lia|done|done].
Qed.

Section drift.
Context {T : Type} (less : comparator T) (lt : T → T → bool) `{!StrictWeak lt}.
Context (ti : ty_info) (quicksort : nat → option T → prog (mem T) ()).
Context (eager : bool) (N : nat) (l : list T).
Implicit Types (m : mem T) (A B : list T) (r : DriftsortRun) (segs : list (list T)).
Let L : Prop := lawful less lt.
Let total := length l.

Hypothesis HN : total - total / 2 ≤ N.
Hypothesis HN48 : SMALL_SORT_GENERAL_SCRATCH_LEN ≤ N.
Hypothesis Htotal : (Z.of_nat total < 2 ^ 62)%Z.
Hypothesis Hquicksort : ∀ limit l m, slice_of l m → size BS m = N → length l ≤ N →
  (if eager then length l ≤ stable_small_sort_threshold ti else length l ≤ total) →
  sorts less lt (quicksort limit None) l m.

Abbreviation describes := (describes less lt eager N).
Abbreviation rearranged := (rearranged less lt).

(** The first [length segs] entries of the arrays. *)
Definition stack_ok segs (ds : list Z) (runs : list (option DriftsortRun))
    (depths : list (option Z)) : Prop :=
  length ds = length segs ∧ length runs = RUN_STACK_LEN ∧ length depths = RUN_STACK_LEN ∧
  (∀ i s, segs !! i = Some s → ∃ r, runs !! i = Some (Some r) ∧ describes r s) ∧
  (∀ i d, ds !! i = Some d → depths !! i = Some (Some d)) ∧
  (∀ s, segs !! 0 = Some s → s = []) ∧
  StronglySorted Z.lt (drop 1 ds) ∧ Forall (λ d, 0 ≤ d ≤ 64)%Z ds.

(** The slice is the segments, the run in hand and the unscanned rest. *)
Definition laid_out segs prev rest m : Prop :=
  slice_of (concat segs ++ prev ++ rest) m ∧ size BS m = N ∧
  rearranged l (concat segs ++ prev ++ rest).

Lemma laid_out_length segs prev rest m : laid_out segs prev rest m →
  length (concat segs) + length prev + length rest = total.
Proof. intros (_&_&[Hp _]). apply Permutation_length in Hp. rewrite !length_app in Hp. unfold total. lia. Qed.

Lemma laid_out_panic segs prev prev' rest m m' :
  laid_out segs prev rest m → prev' ≡ₚ prev ++ rest →
  slice_of (concat segs ++ prev') m' → size BS m' = N → ¬ L →
  ∃ k, slice_of k m' ∧ size BS m' = N ∧ k ≡ₚ l ∧ ¬ L.
Proof.
  intros (_&_&[Hp _]) Hprev Hm' ??. exists (concat segs ++ prev').
  split_and!; [done|done|by rewrite Hprev|done].
Qed.

Definition panicked m : Prop := ∃ k, slice_of k m ∧ size BS m = N ∧ k ≡ₚ l ∧ ¬ L.

Lemma concat_snoc segs s : concat (segs ++ [s]) = concat segs ++ s.
Proof. rewrite concat_app. simpl. by rewrite app_nil_r. Qed.

Lemma collapse_spec segs ds runs depths desired rest prev scan_idx prev_run m :
  stack_ok segs ds runs depths → (0 ≤ desired ≤ 64)%Z →
  laid_out segs prev rest m → describes prev_run prev →
  scan_idx = length (concat segs) + length prev →
  wp (collapse less quicksort scan_idx desired (length segs, prev_run) runs depths)
    (λ '(n, prev_run') m', ∃ prev', n ≤ length segs ∧ (1 ≤ length segs → 1 ≤ n) ∧
       laid_out (take n segs) prev' rest m' ∧ describes prev_run' prev' ∧
       scan_idx = length (concat (take n segs)) + length prev' ∧
       (∀ d, 1 < n → ds !! (n - 1) = Some d → (d < desired)%Z))
    panicked m.
Proof.
  intros Hst Hdes Hm Hprev Hscan. pose proof Hst as (Hlds&_&Hldep&Hruns&Hdepths&_&_&Hds).
  pose proof (Nat.Div0.mul_div_le total 2).
  unfold collapse.
  apply (wp_loop (λ '(n, prev_run') m', ∃ prev', n ≤ length segs ∧ (1 ≤ length segs → 1 ≤ n) ∧
       laid_out (take n segs) prev' rest m' ∧ describes prev_run' prev' ∧
       scan_idx = length (concat (take n segs)) + length prev') (λ '(n, _), n)).
  2:{ exists prev. rewrite firstn_all. auto. }
  2:{ destruct (decide (length segs = 0)); [lia|].
      destruct (lookup_lt_is_Some_2 ds (length segs - 1)) as [d Hd]; [lia|].
      apply Hdepths, lookup_lt_Some in Hd. lia. }
  clear m Hm prev Hprev Hscan prev_run.
  intros [n prev_run] m (prev&Hn&Hn1&Hm&Hprev&Hscan).
  destruct (Nat.ltb_spec 1 n); last first.
  { apply wp_bind, wp_ret, wp_ret. exists prev. split_and!; try done. lia. }
  destruct (lookup_lt_is_Some_2 ds (n - 1)) as [d Hd]; [lia|].
  destruct (lookup_lt_is_Some_2 segs (n - 1)) as [s Hs]; [lia|].
  apply wp_bind, wp_bind. eapply wp_arr_rd; [by apply Hdepths|]. apply wp_ret.
  destruct (Z.leb_spec desired d) as [_|Hlt]; last first.
  { apply wp_ret. exists prev. split_and!; try done. intros d' _ Hd'. by simplify_eq. }
  destruct (Hruns _ _ Hs) as (left_r&Hleft&Hdesc).
  apply wp_bind. eapply wp_arr_rd; [done|]. cbv zeta.
  rewrite (proj1 Hdesc), (proj1 Hprev).
  replace n with (S (n - 1)) in Hm, Hscan by lia.
  rewrite (take_S_r _ _ s) in Hm, Hscan by done. rewrite concat_snoc in Hscan.
  rewrite length_app in Hscan.
  apply wp_bind, wp_usub; [lia|].
  set (base := concat (take (n - 1) segs)) in *.
  pose proof (laid_out_length _ _ _ _ Hm) as Hlen. rewrite concat_snoc, length_app in Hlen.
  fold base in Hlen.
  destruct Hm as (Hsl&HS&Hre). rewrite concat_snoc in Hsl, Hre. fold base in Hsl, Hre.
  rewrite <- app_assoc, (app_assoc s) in Hsl, Hre.
  apply wp_bind. eapply (wp_sub_unchecked_vperm _ _ _ base (s ++ prev) rest);
    [done|lia|rewrite length_app; lia| | |].
  { intros t Ht HSt. eapply logical_merge_spec with (total := total);
      [done..|congruence|done|done|lia]. }
  - intros r k m' Hm' HS' Hp [Hr Hk]. apply wp_ret. split; [|lia].
    exists k. split_and!; [lia|lia| |done|].
    + split; [done|]. split; [congruence|].
      eapply rearranged_trans; [exact Hre|]. by apply rearranged_part.
    + fold base. rewrite Hp, length_app. lia.
  - intros k m' Hm' HS' Hp HnL. exists (base ++ k ++ rest).
    split_and!; [done|congruence| |done]. destruct Hre as [Hre _]. by rewrite Hp, Hre.
Qed.
(** ** Pushing a run *)
Lemma stack_push segs ds runs depths n d prev r :
  stack_ok segs ds runs depths → n ≤ length segs → (1 ≤ length segs → 1 ≤ n) →
  (∀ d', 1 < n → ds !! (n - 1) = Some d' → (d' < d)%Z) → (0 ≤ d ≤ 64)%Z →
  describes r prev → (n = 0 → prev = []) →
  n < RUN_STACK_LEN ∧
  stack_ok (take n segs ++ [prev]) (take n ds ++ [d]) (<[n := Some r]> runs)
    (<[n := Some d]> depths).
Proof.
  intros (Hlds&Hlr&Hld&Hruns&Hdepths&H0&Hinc&Hds) Hn Hn1 Htop Hd Hr Hprev.
  assert (StronglySorted Z.lt (drop 1 (take n ds))) as Hinc'.
  { rewrite skipn_firstn_comm. by apply StronglySorted_take. }
  assert (Forall (λ d', 0 ≤ d' < d)%Z (drop 1 (take n ds))) as Hbelow.
  { apply Forall_lookup. intros i x Hx. rewrite lookup_drop in Hx.
    apply lookup_take_Some in Hx as [Hx Hi].
    split; [rewrite Forall_lookup in Hds; by apply (Hds (1 + i))|].
    destruct (decide (1 + i = n - 1)) as [Heq|Hne].
    { apply Htop; [lia|]. by rewrite <- Heq. }
    destruct (lookup_lt_is_Some_2 ds (n - 1)) as [e He]; [lia|].
    specialize (Htop e ltac:(lia) He).
    enough (x < e)%Z by lia. apply (StronglySorted_lookup Z.lt (drop 1 ds) i (n - 2)); [done|..].
    - lia.
    - by rewrite lookup_drop.
    - rewrite lookup_drop. by replace (1 + (n - 2)) with (n - 1) by lia. }
  assert (n < RUN_STACK_LEN) as Hlt.
  { pose proof (increasing_length _ 0 d Hinc' Hbelow ltac:(lia)) as Hlen.
    rewrite length_drop, length_take in Hlen. unfold RUN_STACK_LEN. lia. }
  split; [done|]. unfold stack_ok. rewrite !length_app, !length_take, !length_insert. simpl.
  assert (length (take n segs) = n) as Hts by (rewrite length_take; lia).
  assert (length (take n ds) = n) as Htd by (rewrite length_take; lia).
  split_and!; try done; try lia.
  - intros i s Hi. destruct (decide (i = n)) as [->|].
    + rewrite lookup_mid in Hi by done. injection Hi as <-. exists r. split; [|done].
      apply list_lookup_insert_eq. lia.
    + rewrite list_lookup_insert_ne by done. apply lookup_snoc_Some in Hi as [[? Hi]|[-> _]].
      * apply Hruns. by apply lookup_take_Some in Hi as [? _].
      * by rewrite Hts in n0.
  - intros i x Hi. destruct (decide (i = n)) as [->|].
    + rewrite lookup_mid in Hi by done. injection Hi as <-. apply list_lookup_insert_eq. lia.
    + rewrite list_lookup_insert_ne by done. apply lookup_snoc_Some in Hi as [[? Hi]|[-> _]].
      * apply Hdepths. by apply lookup_take_Some in Hi as [? _].
      * by rewrite Htd in n0.
  - intros s Hs. destruct (decide (n = 0)) as [->|].
    + rewrite take_0 in Hs. injection Hs as <-. by apply Hprev.
    + rewrite lookup_app_l in Hs by lia. apply lookup_take_Some in Hs as [Hs _]. by apply H0.
  - destruct (decide (n = 0)) as [->|]; [rewrite take_0; constructor|].
    rewrite drop_app_le by lia. apply StronglySorted_snoc; [done|].
    eapply Forall_impl; [exact Hbelow|]. intros x Hx. cbn beta in Hx. lia.
  - apply Forall_app. split; [by apply Forall_take|]. by repeat constructor; lia.
Qed.

(** ** The main loop *)

(** The state at the head of the loop: [stack_len], the arrays, [scan_idx] and
    the run in hand; only the dummy run is ever at the bottom of the stack. *)
Definition drift_inv
    (x : nat * list (option DriftsortRun) * list (option Z) * nat * DriftsortRun) m : Prop :=
  let '(stack_len, runs, depths, scan_idx, prev_run) := x in
  ∃ segs ds prev rest, stack_len = length segs ∧ stack_ok segs ds runs depths ∧
    laid_out segs prev rest m ∧ describes prev_run prev ∧
    scan_idx = length (concat segs) + length prev ∧ (segs = [] → prev = []).

Lemma drift_inv_init m : slice_of l m → size BS m = N →
  drift_inv (0, replicate RUN_STACK_LEN None, replicate RUN_STACK_LEN None, 0,
             DriftsortRun.new_sorted 0) m.
Proof.
  intros Hl HS. exists [], [], [], l. split_and!; try done.
  - unfold stack_ok. rewrite !length_replicate. split_and!; try done. constructor.
  - apply (describes_sorted less lt eager total N Htotal []); [simpl; lia|]. intros _. constructor.
Qed.

Definition min_good_run_len : nat :=
  if total <=? MIN_SQRT_RUN_LEN * MIN_SQRT_RUN_LEN
  then Nat.min (total - total / 2) MIN_SQRT_RUN_LEN else sqrt_approx total.

Lemma min_good_bound : 2 ≤ total → 1 ≤ min_good_run_len ≤ N.
Proof.
  intros. unfold min_good_run_len. pose proof (Nat.Div0.mul_div_le total 2).
  destruct (Nat.leb_spec total (MIN_SQRT_RUN_LEN * MIN_SQRT_RUN_LEN)) as [|Hlt].
  - unfold MIN_SQRT_RUN_LEN. lia.
  - unfold MIN_SQRT_RUN_LEN in Hlt. pose proof (sqrt_approx_bound total Hlt). lia.
Qed.

(** Scanning the next run. *)
Lemma next_run_spec segs prev rest scan_idx prev_run m :
  2 ≤ total → laid_out segs prev rest m → describes prev_run prev →
  scan_idx = length (concat segs) + length prev →
  wp (if scan_idx <? total then
        next_run ← sub_slice scan_idx total (create_run less ti quicksort min_good_run_len eager);
        left_i ← usub scan_idx (DriftsortRun.len prev_run);
        desired_depth ← merge_tree_depth left_i scan_idx
                          (scan_idx + DriftsortRun.len next_run) (merge_tree_scale_factor total);
        mret (next_run, desired_depth)
      else mret (DriftsortRun.new_sorted 0, 0%Z))
    (λ '(r, d) m', (0 ≤ d ≤ 64)%Z ∧ ∃ next rest', laid_out segs prev (next ++ rest') m' ∧
       describes r next ∧
       (if scan_idx <? total then next ≠ [] else next = [] ∧ rest' = [] ∧ d = 0%Z))
    panicked m.
Proof.
  intros H2 Hm Hprev Hscan. pose proof (laid_out_length _ _ _ _ Hm) as Hlen.
  destruct (Nat.ltb_spec scan_idx total); last first.
  { apply wp_ret. split; [lia|]. exists [], []. destruct rest; [|simpl in *; lia].
    split_and!; [done| |done..].
    apply (describes_sorted less lt eager total N Htotal []); [simpl; lia|]. intros _. constructor. }
  pose proof Hm as (Hsl&HS&Hre). rewrite app_assoc in Hsl, Hre.
  apply wp_bind. eapply (wp_sub_vperm _ _ _ (concat segs ++ prev) rest []).
  { by rewrite app_nil_r. }
  { rewrite length_app. lia. }
  { lia. }
  { intros t Ht HSt. eapply (create_run_spec less lt ti quicksort eager total N);
      [done..|congruence|lia|by apply min_good_bound]. }
  - intros r k m' Hm' HS' Hp [Hk (next&rest'&->&Hr&Hne)]. rewrite app_nil_r in Hm'.
    assert (1 ≤ length next) by (destruct next; [done|simpl; lia]).
    apply Permutation_length in Hp. rewrite length_app in Hp.
    rewrite (proj1 Hprev), (proj1 Hr).
    apply wp_bind, wp_usub; [lia|].
    apply wp_bind, merge_tree_depth_spec; [lia|lia|lia|done|]. intros d Hd.
    apply wp_ret. split; [done|]. exists next, rest'. split_and!; [|done|done].
    split; [by rewrite <- app_assoc in Hm'|]. split; [congruence|].
    eapply rearranged_trans; [exact Hre|].
    rewrite app_assoc. pose proof (rearranged_part less lt (concat segs ++ prev) _ _ [] Hk) as Hk'.
    by rewrite !app_nil_r in Hk'.
  - intros k m' Hm' HS' Hp HnL. rewrite app_nil_r in Hm'.
    exists ((concat segs ++ prev) ++ k). split_and!; [done|congruence| |done].
    destruct Hre as [Hre _]. by rewrite Hp.
Qed.

Lemma panicked_vperm m m' : size BS m = N → panicked m' → vperm l (λ _, ¬ L) m m'.
Proof. intros HS (k&?&?&?&?). exists k. split_and!; [done|congruence|done|done]. Qed.

Lemma drift_sort_sorts m :
  slice_of l m → size BS m = N → sorts less lt (drift_sort less ti quicksort eager) l m.
Proof.
  intros Hl HS. pose proof Hl as [_ Hsz]%slice_of_holds. fold total in Hsz.
  unfold sorts, drift_sort. apply wp_bind, wp_len_of. rewrite Hsz.
  destruct (Nat.ltb_spec total 2) as [|H2].
  { apply wp_ret, vperm_refl; [done..|]. intros _. symmetry. apply isort_id; [done|].
    apply (sorted_short lt). unfold total in *. lia. }
  cbv zeta. fold min_good_run_len. apply wp_bind.
  eapply wp_mono with (P := panicked) (Q := λ r m', ∃ k, describes r k ∧ slice_of k m' ∧
    size BS m' = N ∧ rearranged l k).
  - apply (wp_loop drift_inv (λ '(_, _, _, scan_idx, prev_run),
      if total <=? scan_idx then 0 else S (total - scan_idx))).
    2:{ by apply drift_inv_init. }
    2:{ destruct (_ <=? _); lia. }
    intros [[[[stack_len runs] depths] scan_idx] prev_run] m1
      (segs&ds&prev&rest&->&Hst&Hm1&Hprev&Hscan&Hbot).
    apply wp_bind. eapply wp_mono; [by eapply next_run_spec| |done].
    intros [r d] m2 (Hd&next&rest'&Hm2&Hr&Hnext).
    pose proof (laid_out_length _ _ _ _ Hm2) as Hlen. rewrite length_app in Hlen.
    apply wp_bind. eapply wp_mono; [by eapply collapse_spec| |done].
    intros [n prev_run'] m3 (prev'&Hn&Hn1&Hm3&Hprev'&Hscan'&Htop).
    assert (segs = [] → prev' = []) as Hbot'.
    { intros ->. rewrite Hbot in Hscan by done. rewrite take_nil in Hscan'. simpl in *.
      destruct prev'; [done|simpl in *; lia]. }
    destruct (stack_push segs ds runs depths n d prev' prev_run') as [Hn66 Hst'];
      [done..| |].
    { intros ->. apply Hbot'. destruct segs; [done|]. simpl in *. lia. }
    apply wp_bind, wp_arr_wr; [by destruct Hst as (_&->&_)|].
    apply wp_bind, wp_arr_wr; [by destruct Hst as (_&_&->&_)|].
    assert (length (take n segs) = n) as Hts by (rewrite length_take; lia).
    destruct (Nat.leb_spec total scan_idx).
    + destruct (Nat.ltb_spec scan_idx total); [lia|]. destruct Hnext as (->&->&->).
      apply wp_ret. exists prev'. destruct Hm3 as (Hsl&HS3&Hre). simpl in Hsl, Hre.
      rewrite app_nil_r in Hsl, Hre.
      assert (concat (take n segs) = []) as Hnil; [|by rewrite Hnil in Hsl, Hre].
      destruct n as [|[|n]].
      * by rewrite take_0.
      * destruct segs as [|s segs]; [done|]. simpl. rewrite app_nil_r.
        destruct Hst as (_&_&_&_&_&Hz&_). by apply Hz.
      * destruct Hst as (Hlds&_&_&_&_&_&_&Hds).
        destruct (lookup_lt_is_Some_2 ds (S n)) as [x Hx]; [lia|].
        specialize (Htop x ltac:(lia)). simpl in Htop.
        specialize (Htop Hx). rewrite Forall_lookup in Hds. specialize (Hds _ _ Hx). lia.
    + destruct (Nat.ltb_spec scan_idx total); [|lia].
      assert (1 ≤ length next) by (destruct next; [done|simpl; lia]).
      rewrite (proj1 Hr). apply wp_ret. split.
      * exists (take n segs ++ [prev']), (take n ds ++ [d]), next, rest'.
        split_and!; [rewrite length_app, Hts; simpl; lia|done| |done| |by destruct (take n segs)].
        -- destruct Hm3 as (Hsl&HS3&Hre).
           unfold laid_out. rewrite concat_snoc, <- app_assoc. done.
        -- rewrite concat_snoc, length_app. lia.
      * destruct (Nat.leb_spec total scan_idx); [lia|]. case_bool; lia.
  - intros r m1 (k&Hr&Hk&HS1&[Hp Hs]). destruct Hr as (_&Hsd&Hus).
    destruct (DriftsortRun.sorted r); simpl.
    + apply wp_ret. exists k. split_and!; [done|congruence|done|]. intros HL.
      rewrite <- (Hs HL). symmetry. apply isort_id; [done|]. by apply Hsd.
    + destruct Hus as [He ?]; [done|]. eapply wp_mono.
      * eapply (stable_quicksort_sorts less lt ti quicksort eager total N);
          [done|done|done|done|by rewrite Hp|done].
      * intros [] m2 (k2&?&?&Hp2&HL2). exists k2. split_and!; [done|congruence|by rewrite Hp2|].
        intros HL. rewrite HL2 by done. by apply isort_proper, Hs.
      * intros m2 (k2&?&?&Hp2&HL2). exists k2. split_and!; [done|congruence|by rewrite Hp2|done].
  - intros m1. by apply panicked_vperm.
Qed.
End drift.
