(* ===== verification/StableSpec.v ===== *)
(** The stable quicksort and the entry points of the stable sort. *)

From S2P Require Import Prelude.
From S2P Require Import Order.
From S2P Require Import SortMem.
From S2P Require Import SmallSort.
From S2P Require Import SmallSortSpec.
From S2P Require Import SmallGeneral.
From S2P Require Import NetworkSpec.
From S2P Require Import Pivot.
From S2P Require Import Stable.
From S2P Require Import MergeSpec.
From S2P Require Import PartitionSpec.
From S2P Require Import DriftSpec.
From S2P Require Import DriftsortSpec.

Section quicksort.
Context {T : Type} (less : comparator T) (lt : T → T → bool) `{!StrictWeak lt}.
Context (ti : ty_info).
Implicit Types (m : mem T) (l : list T).
Let L : Prop := lawful less lt.

Lemma lawful_not_flipped : L → lawful (not_flipped less) (λ a b, negb (lt b a)).
Proof. intros HL n a b. unfold not_flipped. by rewrite HL. Qed.

(** Elements known to be at least the left ancestor pivot. *)
Definition above_pivot (lap : option T) l : Prop :=
  ∀ p, lap = Some p → L → Forall (le lt p) l.

Lemma stable_small_sort_threshold_bounds : 16 ≤ stable_small_sort_threshold ti ≤ 32.
Proof.
  unfold stable_small_sort_threshold, SMALL_SORT_GENERAL_THRESHOLD, SMALL_SORT_FALLBACK_THRESHOLD.
  destruct (is_freeze ti); lia.
Qed.

(** Both parts of a partition are sorted. *)
Lemma isort_lt_partition p l :
  isort lt l = isort lt (List.filter (λ x, lt x p) l) ++
               isort lt (List.filter (λ x, negb (lt x p)) l).
Proof.
  apply isort_partition; [done| |].
  - intros a b Hb Ha. apply lt_le; [done|]. by apply (lt_le_trans lt b p a).
  - intros a b Hab. by apply lt_eqv_l.
Qed.

Lemma isort_eq_partition p l :
  Forall (le lt p) l →
  isort lt l = List.filter (λ x, negb (lt p x)) l ++
               isort lt (List.filter (λ x, negb (negb (lt p x))) l).
Proof.
  intros Hp. rewrite (isort_partition lt (λ x, negb (lt p x)) l).
  - f_equal. apply isort_id; [done|]. apply sorted_same_class.
    intros a b [Ha Ha']%list_elem_of_In%List.filter_In [Hb _]%list_elem_of_In%List.filter_In.
    apply negb_true_iff in Ha'. rewrite Forall_forall in Hp.
    apply list_elem_of_In in Hb. specialize (Hp b Hb).
    apply (le_trans a p b); [exact Ha'|exact Hp].
  - intros a b Hb Ha. apply negb_true_iff in Hb. apply negb_false_iff in Ha.
    apply lt_le; [done|]. by apply (le_lt_trans lt b p a).
  - intros a b Hab. f_equal. by apply lt_eqv_r.
Qed.

(** One level of the recursion, for a recursive call that sorts smaller slices. *)
Section step.
Context (rec : nat → option T → prog (mem T) ()) (n N : nat).
Hypothesis Hrec : ∀ limit lap l m, slice_of l m → size BS m = N → length l < n →
  above_pivot lap l → sorts less lt (rec limit lap) l m.
Hypothesis HnN : n ≤ N.

Lemma equal_partition_spec limit l m pivot_pos p :
  slice_of l m → size BS m = N → length l = n → l !! pivot_pos = Some p →
  (L → Forall (le lt p) l) →
  sorts less lt
    (mid_eq ← stable_partition (not_flipped less) ti pivot_pos true;
     sub_slice mid_eq n (rec limit None)) l m.
Proof.
  intros Hl HS Hn Hp Hall. set (g a b := negb (lt b a)).
  apply wp_bind. eapply wp_mono; [apply (stable_partition_spec _ g ti l pivot_pos p true);
    [done|done|lia|by unfold g; rewrite (le_refl lt p : lt p p = false)]| |].
  2:{ intros m1 (k&?&?&?&HnL). exists k. split_and!; [done..|].
      intros HL. by apply HnL, lawful_not_flipped. }
  intros mid m1 (k&Hk&HS1&Hpk&(lefts&rights&->&->&Hne&HL)).
  pose proof (Permutation_length Hpk) as Hlen. rewrite length_app in Hlen.
  eapply (wp_sub_vperm _ _ _ lefts rights []); [by rewrite app_nil_r|done|lia| | |].
  - intros t Ht HSt. apply Hrec; [done|congruence|lia|done].
  - intros [] r m2. rewrite app_nil_r. intros Hm2 HS2 Hpr HLr. exists (lefts ++ r).
    split_and!; [done|congruence|by rewrite Hpr|]. intros HL'.
    destruct (HL (lawful_not_flipped HL')) as [-> ->].
    rewrite HLr by done. symmetry. by apply isort_eq_partition, Hall.
  - intros r m2. rewrite app_nil_r. intros Hm2 HS2 Hpr HLr. exists (lefts ++ r).
    split_and!; [done|congruence|by rewrite Hpr|done].
Qed.

Lemma less_partition_spec limit lap pivot_ref l lefts rights p m :
  slice_of (lefts ++ rights) m → size BS m = N → length l = n →
  lefts ++ rights ≡ₚ l → lefts ≠ [] → 1 ≤ length rights →
  (L → lefts = List.filter (λ x, lt x p) l ∧ rights = List.filter (λ x, negb (lt x p)) l) →
  (∀ q, pivot_ref = Some q → q = p) → above_pivot lap l →
  wp (_ ← sub_slice (length lefts) n (rec limit pivot_ref);
      sub_slice 0 (length lefts) (rec limit lap))
    (λ _, vperm l (λ l', L → l' = isort lt l) m) (vperm l (λ _, ¬ L) m) m.
Proof.
  intros Hm HS Hn Hp Hne Hne' HL Hpiv Hlap.
  pose proof (Permutation_length Hp) as Hlen. rewrite length_app in Hlen.
  assert (1 ≤ length lefts) by (destruct lefts; [done|simpl; lia]).
  apply wp_bind. eapply (wp_sub_vperm _ _ _ lefts rights []); [by rewrite app_nil_r|done|lia| | |].
  { intros t Ht HSt. apply Hrec; [done|congruence|lia|].
    intros q Hq HL'. rewrite (Hpiv q Hq). destruct (HL HL') as [_ ->].
    apply List.Forall_forall. intros x [_ Hx]%List.filter_In. by apply negb_true_iff. }
  2:{ intros r m2. rewrite app_nil_r. intros Hm2 HS2 Hpr HLr. exists (lefts ++ r).
      split_and!; [done|congruence|by rewrite Hpr|done]. }
  intros [] r m1. rewrite app_nil_r. intros Hm1 HS1 Hpr HLr.
  eapply (wp_sub_vperm _ _ _ [] lefts r); [done|done|done| | |].
  { intros t Ht HSt. apply Hrec; [done|congruence|lia|].
    intros q Hq HL'. destruct (HL HL') as [-> _]. specialize (Hlap q Hq HL').
    apply List.Forall_forall. intros x [Hx _]%List.filter_In.
    rewrite List.Forall_forall in Hlap. by apply Hlap. }
  - intros [] k m2 Hm2 HS2 Hpk HLk. exists (k ++ r).
    split_and!; [done|congruence|by rewrite Hpk, Hpr|]. intros HL'.
    rewrite HLk, HLr by done. destruct (HL HL') as [-> ->]. symmetry. apply isort_lt_partition.
  - intros k m2 Hm2 HS2 Hpk HLk. exists (k ++ r).
    split_and!; [done|congruence|by rewrite Hpk, Hpr|done].
Qed.
End step.

(** The decision whether all elements equal to the pivot go left. *)
Lemma equal_decision_spec lap pivot_pos p l m (Q : bool → mem T → Prop) P :
  slice_of l m → l !! pivot_pos = Some p → above_pivot lap l →
  (∀ b m', eqm m' m → (b = true → L → Forall (le lt p) l) → Q b m') →
  (∀ m', eqm m' m → ¬ L → P m') →
  wp (match lap with
      | Some la_pivot =>
          p ← index pivot_pos;
          lt ← is_less less la_pivot p;
          mret (negb lt)
      | None => mret false
      end) Q P m.
Proof.
  intros Hl Hp Hlap HQ HP. destruct lap as [q|]; [|by apply wp_ret, HQ].
  apply wp_bind. eapply wp_index; [unfold slice_of in Hl; by rewrite Hl, list_lookup_fmap, Hp|].
  apply wp_bind, (wp_cmp less lt); [|done]. intros b m' Hm' Hb. apply wp_ret, HQ; [done|].
  intros ->%negb_true_iff HL. specialize (Hlap q eq_refl HL).
  eapply Forall_impl; [exact Hlap|]. intros x Hx. cbn beta in Hx.
  apply (le_trans p q x); [|exact Hx]. symmetry. by apply Hb.
Qed.

Lemma stable_quicksort_rec_sorts fuel limit lap l m :
  slice_of l m → length l ≤ size BS m → SMALL_SORT_GENERAL_SCRATCH_LEN ≤ size BS m →
  (Z.of_nat (length l) < 2 ^ 62)%Z →
  length l < fuel ∨ (length l ≤ stable_small_sort_threshold ti ∧ 1 ≤ fuel) →
  above_pivot lap l →
  sorts less lt (stable_quicksort_rec less ti fuel limit lap) l m.
Proof.
  revert limit lap l m. induction fuel as [|fuel IH];
    intros limit lap l m Hl HlN H48 H62 Hfuel Hlap; [lia|].
  pose proof Hl as [_ Hsz]%slice_of_holds. pose proof stable_small_sort_threshold_bounds.
  unfold sorts. cbn [stable_quicksort_rec]. apply wp_bind, wp_len_of. rewrite Hsz.
  destruct (Nat.leb_spec (length l) (stable_small_sort_threshold ti)).
  { apply stable_small_sort_sorts; [done..|].
    unfold SMALL_SORT_GENERAL_SCRATCH_LEN, SMALL_SORT_GENERAL_THRESHOLD in H48. lia. }
  destruct (Nat.eqb_spec limit 0) as [->|].
  { eapply (drift_sort_sorts less lt ti _ true (size BS m)); [lia|done|done| |done|done].
    intros limit l' m' Hl' HS' ??. apply IH; [done|lia|lia|lia|lia|done]. }
  assert (∀ limit lap l' m', slice_of l' m' → size BS m' = size BS m → length l' < length l →
    above_pivot lap l' → sorts less lt (stable_quicksort_rec less ti fuel limit lap) l' m') as Hrec.
  { intros ??????? ?. apply IH; [done|lia|lia|lia|lia|done]. }
  assert (∀ m', eqm m' m → ¬ L → vperm l (λ _, ¬ L) m m') as Hpanic.
  { intros m' Hm' ?. apply vperm_refl; [by rewrite Hm'|by rewrite Hm'|done]. }
  apply wp_bind. eapply wp_mono; [apply (choose_pivot_spec less lt l); [done|lia]| |].
  2:{ intros m' [??]. by apply Hpanic. }
  intros pivot_pos m1 [Hm1 Hpos]. destruct (lookup_lt_is_Some_2 l pivot_pos Hpos) as [p Hp].
  assert (slice_of l m1) as Hl1 by by rewrite Hm1.
  apply wp_bind. eapply wp_index; [unfold slice_of in Hl1; by rewrite Hl1, list_lookup_fmap, Hp|].
  apply wp_bind. eapply equal_decision_spec; [done|done|done| |].
  2:{ intros m2 Hm2 ?. apply Hpanic; [by etrans|done]. }
  intros b m2 Hm2 Hb. assert (eqm m2 m) as Hm2' by by etrans.
  assert (slice_of l m2) as Hl2 by by rewrite Hm2'.
  assert (size BS m2 = size BS m) as HS2 by by rewrite Hm2'.
  destruct b; cbn [negb].
  - apply wp_bind, wp_ret. cbn beta iota.
    eapply wp_mono; [eapply (equal_partition_spec _ (length l) (size BS m) Hrec);
      [done|done|done|done|done|by apply Hb]| |].
    + intros [] m3 Hm3. by eapply vperm_mono.
    + intros m3 Hm3. by eapply vperm_mono.
  - apply wp_bind, wp_bind. eapply wp_mono;
      [apply (stable_partition_spec less lt ti l pivot_pos p false);
        [done|done|lia|by apply le_refl]| |].
    2:{ intros m3 Hm3. by eapply vperm_mono. }
    intros num m3 (k&Hk&HS3&Hpk&(lefts&rights&->&->&Hne&HL)). apply wp_ret.
    destruct (Nat.eqb_spec (length lefts) 0) as [Hzero|]; cbn beta iota.
    + apply nil_length_inv in Hzero as ->. simpl in *.
      pose proof (Permutation_length Hpk) as Hlen.
      destruct (lookup_lt_is_Some_2 rights pivot_pos) as [p' Hp']; [lia|].
      assert (L → rights = l ∧ Forall (le lt p') rights) as HL'.
      { intros HL'. destruct (HL HL') as [Hf Hr].
        assert (Forall (λ x, lt x p = false) l) as Hall.
        { apply List.Forall_forall. intros x Hx. destruct (lt x p) eqn:Hxp; [|done].
          assert (List.In x []) as []. rewrite Hf. by apply List.filter_In. }
        assert (rights = l) as ->.
        { rewrite Hr. apply filter_all. eapply Forall_impl; [exact Hall|].
          intros x Hx. cbn beta in *. by rewrite Hx. }
        split; [done|]. rewrite Hp in Hp'. injection Hp' as <-.
        eapply Forall_impl; [exact Hall|]. done. }
      eapply wp_mono; [eapply (equal_partition_spec _ (length l) (size BS m) Hrec HlN _ rights);
        [done|congruence|done|done|by apply HL']| |].
      * intros [] m4 (k&?&?&Hpk'&HLk). exists k.
        split_and!; [done|congruence|by rewrite Hpk'|]. intros HL''.
        rewrite HLk by done. by destruct (HL' HL'') as [-> _].
      * intros m4 (k&?&?&Hpk'&HLk). exists k. split_and!; [done|congruence|by rewrite Hpk'|done].
    + eapply wp_mono; [eapply (less_partition_spec _ (length l) (size BS m) Hrec HlN _ lap _ l lefts rights p);
        [done|congruence|done|done|by intros ->|done|done| |done]| |].
      * intros q. destruct (is_freeze ti); [|done]. by intros [= <-].
      * intros [] m4 Hm4. eapply vperm_mono; [done|congruence|done].
      * intros m4 Hm4. eapply vperm_mono; [done|congruence|done].
Qed.
End quicksort.

(** ** The entry points *)
Section entry.
Context {T : Type} (less : comparator T) (lt : T → T → bool) `{!StrictWeak lt}.
Context (ti : ty_info) (buf_with_capacity : nat → nat).
Implicit Types (m : mem T) (l : list T).
Let L : Prop := lawful less lt.

(** [BufGuard::with_capacity]: a buffer of at least the given capacity. *)
Hypothesis Hbuf : ∀ n, n ≤ buf_with_capacity n.
Hypothesis Hty : size_of ti ≠ 0.

Lemma driftsort_main_sorts l m :
  slice_of l m → (Z.of_nat (length l) < 2 ^ 62)%Z →
  sorts less lt (driftsort_main less ti buf_with_capacity) l m.
Proof.
  intros Hl H62. pose proof Hl as [_ Hsz]%slice_of_holds.
  pose proof (stable_small_sort_threshold_bounds ti) as Hth.
  pose proof (Nat.Div0.mul_div_le (length l) 2).
  unfold sorts, driftsort_main. apply wp_bind, wp_len_of. rewrite Hsz. cbv zeta.
  set (alloc := driftsort_alloc_len ti (length l)).
  set (N := if alloc <=? stack_scratch_len ti then stack_scratch_len ti else buf_with_capacity alloc).
  assert (alloc ≤ N) as HaN.
  { unfold N. destruct (Nat.leb_spec alloc (stack_scratch_len ti)); [done|apply Hbuf]. }
  assert (length l - length l / 2 ≤ alloc ∧ SMALL_SORT_GENERAL_SCRATCH_LEN ≤ alloc) as [? ?].
  { unfold alloc, driftsort_alloc_len. cbv zeta. lia. }
  apply (with_stack_array_sorts less lt N); [|done]. clear m Hl Hsz. intros m Hl HS.
  clearbody N alloc.
  eapply (drift_sort_sorts less lt ti _ _ N); [lia|lia|done| |done|done].
  intros limit l' m' Hl' HS' HN Hlen. apply stable_quicksort_rec_sorts; [done|done|lia|lia| | |done].
  - destruct (_ <=? _); unfold SMALL_SORT_GENERAL_THRESHOLD in *; lia.
  - destruct (_ <=? _); lia.
Qed.

Lemma stable_sort_sorts l m :
  slice_of l m → (Z.of_nat (length l) < 2 ^ 62)%Z →
  sorts less lt (stable_sort less ti buf_with_capacity) l m.
Proof.
  intros Hl H62. pose proof Hl as [_ Hsz]%slice_of_holds.
  unfold sorts, stable_sort. destruct (Nat.eqb_spec (size_of ti) 0); [done|].
  apply wp_bind, wp_len_of. rewrite Hsz.
  destruct (Nat.ltb_spec (length l) 2).
  { apply wp_ret, vperm_refl; [done..|]. intros _. symmetry. apply isort_id; [done|].
    apply sorted_short. lia. }
  destruct (Nat.leb_spec (length l) MAX_LEN_ALWAYS_INSERTION_SORT).
  - apply insertion_sort_sorts; [done|done|lia|]. intros _. apply sorted_short.
    rewrite length_take. lia.
  - by apply driftsort_main_sorts.
Qed.

(** ** Optimised for size *)
Lemma mergesort_sorts fuel l m :
  slice_of l m → length l / 2 ≤ size BS m → length l ≤ fuel → 1 ≤ fuel →
  sorts less lt (mergesort less fuel) l m.
Proof.
  revert l m. induction fuel as [|fuel IH]; intros l m Hl Hscr Hf H1; [lia|].
  pose proof Hl as [Hh Hsz]%slice_of_holds.
  unfold sorts. cbn [mergesort]. apply wp_bind, wp_len_of. rewrite Hsz. cbv zeta.
  pose proof (Nat.div_mod (length l) 2 ltac:(lia)) as Hdiv.
  pose proof (Nat.mod_upper_bound (length l) 2 ltac:(lia)).
  destruct (Nat.ltb_spec 2 (length l)).
  - destruct (list_split_at l (length l / 2)) as (A&B&->&HA); [lia|].
    assert (length A + length B = length (A ++ B)) as HAB by by rewrite length_app.
    set (mid := length (A ++ B) / 2) in *. rewrite <- HAB in *.
    assert (∀ k : list T, length k < length A + length B → length k / 2 ≤ mid) as Hmono.
    { intros k Hk. unfold mid. rewrite <- HAB. apply Nat.Div0.div_le_mono. lia. }
    apply wp_bind. eapply (wp_sub_unchecked_vperm 0 mid _ [] A B); [done|done|lia| | |].
    { intros t Ht HSt. apply IH; [done| |lia|lia].
      etrans; [apply Hmono|]; [lia|]. by rewrite HSt. }
    2:{ intros k m1 Hm1 HS1 Hp HL. exists (k ++ B).
        split_and!; [done|done|by rewrite Hp|done]. }
    intros [] A' m1 Hm1 HS1 HpA HLA. pose proof (Permutation_length HpA).
    apply wp_bind. eapply (wp_sub_unchecked_vperm mid _ _ A' B []);
      [by rewrite app_nil_r|lia|lia| | |].
    { intros t Ht HSt. apply IH; [done| |lia|lia].
      etrans; [apply Hmono|]; [lia|]. by rewrite HSt, HS1. }
    2:{ intros k m2. rewrite app_nil_r. intros Hm2 HS2 Hp HL. exists (A' ++ k).
        split_and!; [done|congruence|by rewrite Hp, HpA|done]. }
    intros [] B' m2. rewrite app_nil_r. intros Hm2 HS2 HpB HLB. pose proof (Permutation_length HpB).
    replace mid with (length A') by lia.
    eapply wp_mono; [apply (merge_spec less lt A' B'); [done|rewrite HS2, HS1; lia]| |].
    + intros [] m3 (k&?&?&Hp&HL). exists k. split_and!; [done|congruence|by rewrite Hp, HpA, HpB|].
      intros HL'. rewrite HL by (try done; rewrite ?HLA, ?HLB by done; by apply isort_sorted).
      rewrite HLA, HLB by done. by apply isort_app.
    + intros m3 (k&?&?&Hp&HL). exists k. split_and!; [done|congruence|by rewrite Hp, HpA, HpB|done].
  - destruct (Nat.eqb_spec (length l) 2) as [H2|].
    + destruct l as [|x [|y [|??]]]; try done.
      apply wp_bind. eapply wp_rd; [by apply (Hh 1)|]. apply wp_bind. eapply wp_rd; [by apply (Hh 0)|].
      apply wp_bind, (wp_cmp less lt); last first.
      { intros m' Hm' ?. apply vperm_refl; [by rewrite Hm'|by rewrite Hm'|done]. }
      intros c m1 Hm1 Hc. assert (slice_of [x; y] m1) as Hl1 by by rewrite Hm1.
      destruct c.
      * apply wp_bind, wp_wr; [rewrite Hm1, Hsz; simpl; lia|].
        apply wp_wr; [rewrite size_store, Hm1, Hsz; simpl; lia|].
        exists [y; x]. split_and!.
        -- unfold slice_of, store in *. simpl. by rewrite Hl1.
        -- by rewrite !size_store, Hm1.
        -- apply perm_swap.
        -- intros HL. simpl. by rewrite <- (Hc HL).
      * apply wp_ret. exists [x; y]. split_and!; [done|by rewrite Hm1|done|].
        intros HL. simpl. by rewrite <- (Hc HL).
    + apply wp_ret, vperm_refl; [done..|]. intros _. symmetry. apply isort_id; [done|].
      apply sorted_short. lia.
Qed.

Lemma stable_sort_for_size_sorts l m :
  slice_of l m → sorts less lt (stable_sort_for_size less ti buf_with_capacity) l m.
Proof.
  intros Hl. pose proof Hl as [_ Hsz]%slice_of_holds.
  unfold sorts, stable_sort_for_size. destruct (Nat.eqb_spec (size_of ti) 0); [done|].
  apply wp_bind, wp_len_of. rewrite Hsz.
  destruct (Nat.ltb_spec (length l) 2).
  { apply wp_ret, vperm_refl; [done..|]. intros _. symmetry. apply isort_id; [done|].
    apply sorted_short. lia. }
  cbv zeta. apply (with_stack_array_sorts less lt); [|done]. intros m' Hl' HS.
  apply mergesort_sorts; [done| |lia|lia]. rewrite HS.
  destruct (Nat.leb_spec (length l / 2) (stack_scratch_len ti)); [done|apply Hbuf].
Qed.
End entry.
