(* ===== verification/Unstable.v ===== *)
(** [core::slice::sort::unstable] and [core::slice::sort::select]: heapsort, the
    partition schemes, the unstable quicksort, and selection, as written. *)

From S2P Require Import Prelude.
From S2P Require Import Order.
From S2P Require Import SortMem.
From S2P Require Import SmallSort.
From S2P Require Import Pivot.
From S2P Require Import Stable.

(** ** [heapsort.rs] *)
Section heapsort.
Context {T : Type} (less : comparator T).

(** [ptr::swap_nonoverlapping(v + i, v + j, 1)]. *)
Definition swap_nonoverlapping i j : prog (mem T) () :=
  if i =? j then undefined else
  x ← rd BV i; y ← rd BV j; _ ← wr BV i y; wr BV j x.

Definition sift_down (node : nat) : prog (mem T) () :=
  len ← len_of BV;
  _ ← assume (node <=? len);
  loop (S len) (λ node,
    let child := 2 * node + 1 in
    if len <=? child then mret (inr ()) else
    child ← (if child + 1 <? len then
               x ← rd BV child; y ← rd BV (child + 1);
               lt ← is_less less x y;
               mret (child + Nat.b2n lt)
             else mret child);
    x ← rd BV node; y ← rd BV child;
    lt ← is_less less x y;
    if negb lt then mret (inr ()) else
    _ ← swap_nonoverlapping node child;
    mret (inl child)) node.

Definition heapsort : prog (mem T) () :=
  len ← len_of BV;
  for_range (len + len / 2) 0 (λ k,
    let i := len + len / 2 - 1 - k in
    sift_idx ← (if len <=? i then mret (i - len) else _ ← swap 0 i; mret 0);
    sub_slice 0 (Nat.min i len) (sift_down sift_idx)).
End heapsort.

(** ** [quicksort.rs] *)
Section partition.
Context {T : Type} (less : comparator T).

(** [v.swap_unchecked(a, b)]. *)
Definition swap_unchecked a b : prog (mem T) () :=
  x ← rd BV a; y ← rd BV b; _ ← wr BV a y; wr BV b x.

(** The guard of the Hoare partition: position and saved value. *)
Record GapGuard := { pos : nat; value : T }.

Definition GapGuard_drop (g : option GapGuard) : prog (mem T) () :=
  match g with
  | Some g => wr BV (pos g) (value g)
  | None => mret ()
  end.

Definition partition_hoare_branchy_cyclic (pivot : T) : prog (mem T) nat :=
  len ← len_of BV;
  if len =? 0 then mret 0 else
  right_p ← padd BV 0 len;
  '(left_p, gap_opt) ← loop (S len) (λ '(left_p, right_p, gap_opt),
    left_p ← loop (S len) (λ left_p,
      if left_p <? right_p then
        x ← rd BV left_p;
        lt ← on_panic (is_less less x pivot) (GapGuard_drop gap_opt);
        if lt : bool then mret (inl (left_p + 1)) else mret (inr left_p)
      else mret (inr left_p)) left_p;
    right_p ← loop (S len) (λ right_p,
      right_p ← psub right_p 1;
      if right_p <=? left_p then mret (inr right_p) else
      x ← rd BV right_p;
      lt ← on_panic (is_less less x pivot) (GapGuard_drop gap_opt);
      if lt : bool then mret (inr right_p) else mret (inl right_p)) right_p;
    if right_p <=? left_p then mret (inr (left_p, gap_opt)) else
    value ← match gap_opt with
            | None => rd BV left_p
            | Some gap => _ ← copy_nonoverlapping BV left_p BV (pos gap) 1; mret (value gap)
            end;
    let gap_opt := Some {| pos := right_p; value := value |} in
    _ ← copy_nonoverlapping BV right_p BV left_p 1;
    mret (inl (left_p + 1, right_p, gap_opt))) (0, right_p, None);
  _ ← GapGuard_drop gap_opt;
  mret left_p.

(** A pointer of the Lomuto partition: into the slice or to the saved value. *)
Inductive gap_ptr := InSlice (i : nat) | GapValue.

Record LomutoState := { right : gap_ptr; num_lt : nat; gap_pos : gap_ptr }.

Definition gap_read (gap_value : T) (p : gap_ptr) : prog (mem T) T :=
  match p with InSlice i => rd BV i | GapValue => mret gap_value end.

(** [GapGuardRaw::drop]; copying the value onto itself would be undefined
    behaviour ([copy_nonoverlapping]). *)
Definition GapGuardRaw_drop (gap_value : T) (p : gap_ptr) : prog (mem T) () :=
  match p with InSlice i => wr BV i gap_value | GapValue => undefined end.

Definition lomuto_body (pivot gap_value : T) (s : LomutoState) : prog (mem T) LomutoState :=
  x ← gap_read gap_value (right s);
  right_is_lt ← on_panic (is_less less x pivot) (GapGuardRaw_drop gap_value (gap_pos s));
  let left_p := num_lt s in
  _ ← match gap_pos s with
      | InSlice g => copy BV left_p BV g 1
      | GapValue => undefined
      end;
  _ ← match right s with
      | InSlice r => copy_nonoverlapping BV r BV left_p 1
      | GapValue => wr BV left_p gap_value
      end;
  right_p ← match right s with
            | InSlice r => r ← padd BV r 1; mret (InSlice r)
            | GapValue => mret GapValue
            end;
  mret {| right := right_p; num_lt := num_lt s + Nat.b2n right_is_lt; gap_pos := right s |}.

Definition partition_lomuto_branchless_cyclic (ti : ty_info) (pivot : T) : prog (mem T) nat :=
  len ← len_of BV;
  if len =? 0 then mret 0 else
  gap_value ← rd BV 0;
  let state := {| right := InSlice 1; num_lt := 0; gap_pos := InSlice 0 |} in
  let unroll_len := if size_of ti <=? 16 then 2 else 1 in
  unroll_end ← padd BV 0 (len - (unroll_len - 1));
  state ← loop (S len) (λ state,
    match right state with
    | InSlice r =>
        if r <? unroll_end then
          if unroll_len =? 2 then
            state ← lomuto_body pivot gap_value state;
            state ← lomuto_body pivot gap_value state;
            mret (inl state)
          else
            state ← lomuto_body pivot gap_value state;
            mret (inl state)
        else mret (inr state)
    | GapValue => undefined
    end) state;
  loop (S len) (λ state,
    let is_done := match right state with InSlice r => r =? len | GapValue => false end in
    let state := {| right := if is_done then GapValue else right state;
                    num_lt := num_lt state; gap_pos := gap_pos state |} in
    state ← lomuto_body pivot gap_value state;
    if is_done then mret (inr (num_lt state)) else mret (inl state)) state.

Definition partition_lomuto_branchless_simple (pivot : T) : prog (mem T) nat :=
  len ← len_of BV;
  for_fold len 0 (λ right_i left_i,
    x ← rd BV right_i;
    right_is_lt ← is_less less x pivot;
    _ ← swap_unchecked left_i right_i;
    mret (left_i + Nat.b2n right_is_lt)) 0.

Definition MAX_BRANCHLESS_PARTITION_SIZE := 96.

(** [optimize_for_size] selects the simple Lomuto partition. *)
Definition inst_partition (ti : ty_info) (optimize_for_size : bool) (pivot : T)
  : prog (mem T) nat :=
  if size_of ti <=? MAX_BRANCHLESS_PARTITION_SIZE then
    if optimize_for_size then partition_lomuto_branchless_simple pivot
    else partition_lomuto_branchless_cyclic ti pivot
  else partition_hoare_branchy_cyclic pivot.

Definition partition (ti : ty_info) (optimize_for_size : bool) (pivot : nat)
  : prog (mem T) nat :=
  len ← len_of BV;
  if len =? 0 then mret 0 else
  if len <=? pivot then abort else
  _ ← swap_unchecked 0 pivot;
  p ← rd BV 0;
  num_lt ← sub_slice 1 len (inst_partition ti optimize_for_size p);
  if len <=? num_lt then abort else
  _ ← swap_unchecked 0 num_lt;
  mret num_lt.
End partition.

Section unstable.
Context {T : Type} (less : comparator T) (ti : ty_info).

(** [unstable::quicksort::quicksort]; the loop continues on the right part. *)
Fixpoint unstable_quicksort (fuel : nat) (ancestor_pivot : option T) (limit : nat)
  : prog (mem T) () :=
  match fuel with
  | O => λ _, Fault Exhausted
  | S fuel =>
      len ← len_of BV;
      if len <=? unstable_small_sort_threshold ti then unstable_small_sort less ti else
      if limit =? 0 then heapsort less else
      let limit := limit - 1 in
      pivot_pos ← choose_pivot less;
      equal ← match ancestor_pivot with
              | Some p => x ← index pivot_pos; lt ← is_less less p x; mret (negb lt)
              | None => mret false
              end;
      if equal : bool then
        num_lt ← partition (not_flipped less) ti false pivot_pos;
        sub_slice (num_lt + 1) len (unstable_quicksort fuel None limit)
      else
        num_lt ← partition less ti false pivot_pos;
        _ ← assume (num_lt <? len);
        pivot ← index num_lt;
        _ ← sub_slice 0 num_lt (unstable_quicksort fuel ancestor_pivot limit);
        sub_slice (num_lt + 1) len (unstable_quicksort fuel (Some pivot) limit)
  end.

Definition ipnsort : prog (mem T) () :=
  len ← len_of BV;
  '(run_len, was_reversed) ← find_existing_run less;
  _ ← assume (run_len <=? len);
  if run_len =? len then
    if was_reversed : bool then reverse_slice else mret ()
  else
    let limit := 2 * Nat.log2 (Nat.lor len 1) in
    unstable_quicksort (S len) None limit.

(** [unstable::sort]. *)
Definition unstable_sort : prog (mem T) () :=
  if size_of ti =? 0 then mret () else
  len ← len_of BV;
  if len <? 2 then mret () else
  if len <=? MAX_LEN_ALWAYS_INSERTION_SORT then insertion_sort_shift_left less 1
  else ipnsort.

Definition unstable_sort_for_size : prog (mem T) () :=
  if size_of ti =? 0 then mret () else
  len ← len_of BV;
  if len <? 2 then mret () else heapsort less.
End unstable.

(** ** [select.rs] *)
Section select.
Context {T : Type} (less : comparator T) (ti : ty_info) (optimize_for_size : bool).

Definition INSERTION_SORT_THRESHOLD := 16.

(** [slice.iter().enumerate().reduce(..).map(|(i, _)| i)]. *)
Definition reduce_index (take_t : T → T → prog (mem T) bool) : prog (mem T) (option nat) :=
  len ← len_of BV;
  if len =? 0 then mret None else
  acc ← for_fold (len - 1) 1 (λ i acc,
    t ← rd BV i; x ← rd BV acc;
    b ← take_t x t;
    mret (if b : bool then i else acc)) 0;
  mret (Some acc).

Definition min_index : prog (mem T) (option nat) :=
  reduce_index (λ acc t, is_less less t acc).
Definition max_index : prog (mem T) (option nat) :=
  reduce_index (λ acc t, is_less less acc t).

(** [option.unwrap()]. *)
Definition unwrap {A} (o : option A) : prog (mem T) A :=
  match o with Some x => mret x | None => panic end.

Definition less_at (i j : nat) : prog (mem T) bool :=
  x ← index i; y ← index j; is_less less x y.

Definition median_idx (a b c : nat) : prog (mem T) nat :=
  lt ← less_at c a;
  let '(a, c) := if lt : bool then (c, a) else (a, c) in
  lt ← less_at c b;
  if lt : bool then mret c else
  lt ← less_at b a;
  if lt : bool then mret a else mret b.

Definition ninther (a b c d e f g h i : nat) : prog (mem T) () :=
  b ← median_idx a b c;
  h ← median_idx g h i;
  lt ← less_at h b;
  let '(b, h) := if lt : bool then (h, b) else (b, h) in
  lt ← less_at f d;
  let '(d, f) := if lt : bool then (f, d) else (d, f) in
  e_lt_d ← less_at e d;
  dd ← (if e_lt_d : bool then mret (Some d) else
        f_lt_e ← less_at f e;
        if f_lt_e : bool then mret (Some f) else mret None);
  match dd with
  | None =>
      e_lt_b ← less_at e b;
      if e_lt_b : bool then swap e b else
      h_lt_e ← less_at h e;
      if h_lt_e : bool then swap e h else mret ()
  | Some d =>
      d_lt_b ← less_at d b;
      d ← (if d_lt_b : bool then mret b else
           h_lt_d ← less_at h d;
           if h_lt_d : bool then mret h else mret d);
      swap d e
  end.

(** [median_of_ninthers], with the selection it calls as a parameter. *)
Definition median_of_ninthers (median_of_medians : nat → prog (mem T) ()) : prog (mem T) nat :=
  len ← len_of BV;
  let frac := if (Z.of_nat len <=? 1024)%Z then len / 12
              else if (Z.of_nat len <=? 128 * 1024)%Z then len / 64 else len / 1024 in
  let pivot := frac / 2 in
  lo ← usub (len / 2) pivot;
  let hi := frac + lo in
  n ← usub len (9 * frac);
  let gap := n / 4 in
  a ← usub lo (4 * frac);
  a ← usub a gap;
  let b := hi + gap in
  _ ← for_fold (hi - lo) lo (λ i '(a, b),
        i_frac ← usub i frac;
        _ ← ninther a i_frac b (a + 1) i (b + 1) (a + 2) (i + frac) (b + 2);
        mret (a + 3, b + 3)) (a, b);
  _ ← sub_slice lo (lo + frac) (median_of_medians pivot);
  partition less ti optimize_for_size (lo + pivot).

(** The entry checks of [median_of_medians], then its loop. *)
Definition median_of_medians_enter (body : nat → prog (mem T) ()) (k : nat)
  : prog (mem T) () :=
  len ← len_of BV;
  _ ← assert_ (k <? len);
  _ ← assert_ (negb (size_of ti =? 0));
  body k.

Fixpoint median_of_medians_loop (fuel k : nat) : prog (mem T) () :=
  match fuel with
  | O => λ _, Fault Exhausted
  | S fuel =>
      len ← len_of BV;
      if len <=? INSERTION_SORT_THRESHOLD then
        if 2 <=? len then insertion_sort_shift_left less 1 else mret ()
      else if k =? len - 1 then
        o ← max_index; max_idx ← unwrap o; swap max_idx k
      else if k =? 0 then
        o ← min_index; min_idx ← unwrap o; swap min_idx k
      else
        p ← median_of_ninthers (median_of_medians_enter (median_of_medians_loop fuel));
        if p =? k then mret ()
        else if k <? p then sub_slice 0 p (median_of_medians_loop fuel k)
        else sub_slice (p + 1) len (median_of_medians_loop fuel (k - (p + 1)))
  end.

Definition median_of_medians (fuel k : nat) : prog (mem T) () :=
  median_of_medians_enter (median_of_medians_loop fuel) k.

Fixpoint partition_at_index_loop (fuel limit index_ : nat) (ancestor_pivot : option T)
  : prog (mem T) () :=
  match fuel with
  | O => λ _, Fault Exhausted
  | S fuel =>
      len ← len_of BV;
      if len <=? INSERTION_SORT_THRESHOLD then
        if 2 <=? len then insertion_sort_shift_left less 1 else mret ()
      else
      if limit =? 0 then median_of_medians len index_ else
      let limit := limit - 1 in
      pivot_pos ← choose_pivot less;
      equal ← match ancestor_pivot with
              | Some p => x ← index pivot_pos; lt ← is_less less p x; mret (negb lt)
              | None => mret false
              end;
      if equal : bool then
        num_lt ← partition (not_flipped less) ti optimize_for_size pivot_pos;
        let mid := num_lt + 1 in
        if index_ <? mid then mret () else
        sub_slice mid len (partition_at_index_loop fuel limit (index_ - mid) None)
      else
        mid ← partition less ti optimize_for_size pivot_pos;
        pivot ← index mid;
        if mid <? index_ then
          sub_slice (mid + 1) len
            (partition_at_index_loop fuel limit (index_ - mid - 1) (Some pivot))
        else if index_ <? mid then
          sub_slice 0 mid (partition_at_index_loop fuel limit index_ ancestor_pivot)
        else mret ()
  end.

Definition partition_at_index_limit := 16.

(** The ranges [left], [pivot], [right] the slice is split into. *)
Definition partition_at_index (index_ : nat)
  : prog (mem T) ((nat * nat) * nat * (nat * nat)) :=
  len ← len_of BV;
  if len <=? index_ then panic else
  _ ← (if size_of ti =? 0 then mret ()
       else if index_ =? len - 1 then
         o ← max_index; max_idx ← unwrap o; swap max_idx index_
       else if index_ =? 0 then
         o ← min_index; min_idx ← unwrap o; swap min_idx index_
       else if optimize_for_size then median_of_medians len index_
       else partition_at_index_loop len partition_at_index_limit index_ None);
  mret ((0, index_), index_, (index_ + 1, len)).
End select.
