(* ===== verification/UpartSpec.v ===== *)
(** The in-place partition schemes of the unstable quicksort. *)

From S2P Require Import Prelude.
From S2P Require Import Order.
From S2P Require Import SortMem.
From S2P Require Import SmallSort.
From S2P Require Import SmallSortSpec.
From S2P Require Import Pivot.
From S2P Require Import Stable.
From S2P Require Import Unstable.

(** ** The memory operations on the slice, seen as a list *)
Section slice.
Context {T : Type}.
Implicit Types (m : mem T) (l : list T).

Lemma wp_rd_v l i x (Q : T → mem T → Prop) P m :
  slice_of l m → l !! i = Some x → Q x m → wp (rd BV i) Q P m.
Proof.
  intros Hl Hx. apply wp_rd. simpl. unfold slice_of in Hl. by rewrite Hl, list_lookup_fmap, Hx.
Qed.

Lemma store_slice l i x m : slice_of l m → slice_of (<[i := x]> l) (store BV i [x] m).
Proof. unfold slice_of, store. simpl. intros ->. by rewrite list_fmap_insert. Qed.

Lemma slice_size l m : slice_of l m → size BV m = length l.
Proof. by intros [_ ?]%slice_of_holds. Qed.

Lemma wp_len_v l (Q : nat → mem T → Prop) P m :
  slice_of l m → Q (length l) m → wp (len_of BV) Q P m.
Proof. intros Hl ?. apply wp_len_of. by rewrite (slice_size l). Qed.

Lemma wp_wr_v l i x (Q : () → mem T → Prop) P m :
  slice_of l m → i < length l →
  (∀ m', slice_of (<[i := x]> l) m' → size BS m' = size BS m → Q () m') →
  wp (wr BV i x) Q P m.
Proof.
  intros Hl Hi HQ. apply wp_wr; [by rewrite (slice_size l)|].
  apply HQ; [by apply store_slice|by rewrite size_store].
Qed.

Lemma wp_copy_v l i j x (Q : () → mem T → Prop) P m :
  slice_of l m → l !! i = Some x → j < length l →
  (∀ m', slice_of (<[j := x]> l) m' → size BS m' = size BS m → Q () m') →
  wp (copy BV i BV j 1) Q P m.
Proof.
  intros Hl Hx Hj HQ. pose proof (lookup_lt_Some _ _ _ Hx).
  apply (wp_copy BV i BV j 1 [x]); [|done|rewrite (slice_size l); [lia|done]..|].
  - intros k y Hy. destruct k; [|done]. injection Hy as <-. rewrite Nat.add_0_r.
    apply slice_of_holds in Hl as [Hl _]. by apply (Hl i).
  - apply HQ; [by apply store_slice|by rewrite size_store].
Qed.

Lemma wp_copyn_v l i j x (Q : () → mem T → Prop) P m :
  slice_of l m → l !! i = Some x → j < length l → i ≠ j →
  (∀ m', slice_of (<[j := x]> l) m' → size BS m' = size BS m → Q () m') →
  wp (copy_nonoverlapping BV i BV j 1) Q P m.
Proof.
  intros Hl Hx Hj Hij HQ. unfold copy_nonoverlapping.
  replace (bool_decide (BV = BV) && (i <? j + 1) && (j <? i + 1)) with false.
  - by eapply wp_copy_v.
  - symmetry. rewrite !andb_false_iff, !Nat.ltb_ge. lia.
Qed.

Lemma wp_swap_unchecked_v l i j x y (Q : () → mem T → Prop) P m :
  slice_of l m → l !! i = Some x → l !! j = Some y →
  (∀ m', slice_of (<[j := x]> (<[i := y]> l)) m' → size BS m' = size BS m → Q () m') →
  wp (swap_unchecked i j) Q P m.
Proof.
  intros Hl Hx Hy HQ. unfold swap_unchecked.
  pose proof (lookup_lt_Some _ _ _ Hx). pose proof (lookup_lt_Some _ _ _ Hy).
  apply wp_bind. eapply wp_rd_v; [done..|]. apply wp_bind. eapply wp_rd_v; [done..|].
  apply wp_bind. eapply wp_wr_v; [done..|]. intros m1 Hm1 HS1.
  eapply wp_wr_v; [done|by rewrite length_insert|]. intros m2 Hm2 HS2.
  apply HQ; [done|congruence].
Qed.

Lemma slice_eqm l m m' : eqm m' m → slice_of l m → slice_of l m'.
Proof. by intros ->. Qed.

Lemma size_eqm b m m' : eqm m' m → size b m' = size b m.
Proof. by intros ->. Qed.

Lemma insert_end (l1 l2 : list T) x y i : i = length l1 → <[i := x]> (l1 ++ y :: l2) = l1 ++ x :: l2.
Proof. apply insert_mid. Qed.
End slice.

Section spec.
Context {T : Type} (cmp : comparator T) (g : T → T → bool) (p : T) (l : list T) (m0 : mem T).
Implicit Types (m : mem T) (lo hi mid rest : list T).
Let Lg : Prop := lawful cmp g.
Let f x : bool := g x p.

(** What a partition scheme returns: the elements below the pivot come first. *)
Definition split_at (n : nat) (k : list T) : Prop :=
  ∃ lo hi, k = lo ++ hi ∧ n = length lo ∧
    (Lg → Forall (λ x, f x = true) lo ∧ Forall (λ x, f x = false) hi).

Definition lows lo : Prop := Lg → Forall (λ x, f x = true) lo.
Definition highs hi : Prop := Lg → Forall (λ x, f x = false) hi.

Lemma lows_snoc lo x b : lows lo → (Lg → b = f x) → b = true → lows (lo ++ [x]).
Proof. intros Hlo Hb -> HL. apply Forall_app. split; [by apply Hlo|]. by constructor; [rewrite Hb|]. Qed.

Lemma highs_cons hi x b : highs hi → (Lg → b = f x) → b = false → highs (x :: hi).
Proof. intros Hhi Hb -> HL. constructor; [by rewrite Hb|by apply Hhi]. Qed.

Lemma highs_app hi hi' : highs hi → highs hi' → highs (hi ++ hi').
Proof. intros H1 H2 HL. apply Forall_app. auto. Qed.

Lemma highs_perm hi hi' : hi ≡ₚ hi' → highs hi → highs hi'.
Proof. intros Hp H HL. rewrite <- Hp. by apply H. Qed.

Definition panics m : Prop := vperm l (λ _, ¬ Lg) m0 m.

(** ** Lomuto, cyclic *)

(** [lo] and [hi] are partitioned, then comes the gap, then the rest. *)
Definition lomuto_inv (gv : T) (s : LomutoState) lo hi rest m : Prop :=
  ∃ y, slice_of (lo ++ hi ++ y :: rest) m ∧ size BS m = size BS m0 ∧
    lo ++ hi ++ gv :: rest ≡ₚ l ∧ lows lo ∧ highs hi ∧
    num_lt s = length lo ∧ gap_pos s = InSlice (length lo + length hi) ∧
    right s = InSlice (length lo + length hi + 1).

(** After one step: the gap moved on, unless the saved value was consumed. *)
Lemma lomuto_shift lo hi y x rest (b : bool) :
  ∃ lo' hi', (if b then lo' = lo ++ [x] else lo' = lo) ∧
    (if b then hi' ≡ₚ hi else hi' ≡ₚ x :: hi) ∧
    length lo' + length hi' = length lo + length hi + 1 ∧
    ∀ k z, (lo ++ hi ++ y :: rest) !! length lo = Some z →
      k = <[length lo := x]> (<[length lo + length hi := z]> (lo ++ hi ++ y :: rest)) →
      k = lo' ++ hi' ++ rest.
Proof.
  destruct hi as [|h hs].
  - exists (if b then lo ++ [x] else lo), (if b then [] else [x]).
    split_and!; [by destruct b|by destruct b|destruct b; simpl; rewrite ?length_app; simpl; lia|].
    intros k z Hz ->. simpl in *. rewrite lookup_mid in Hz by done. injection Hz as ->.
    rewrite Nat.add_0_r, !insert_mid by done. destruct b; by rewrite <- ?app_assoc.
  - exists (if b then lo ++ [x] else lo), (if b then hs ++ [h] else x :: hs ++ [h]).
    split_and!; [by destruct b| | |].
    + destruct b; by rewrite (Permutation_app_comm hs [h]).
    + destruct b; simpl; rewrite ?length_app; simpl; lia.
    + intros k z Hz ->. simpl in Hz. rewrite lookup_mid in Hz by done. injection Hz as <-.
      rewrite (app_assoc lo (h :: hs)), insert_mid by (rewrite length_app; simpl; lia).
      rewrite <- app_assoc. simpl. rewrite insert_mid by done.
      destruct b; simpl; by rewrite <- ?app_assoc; simpl; rewrite <- ?app_assoc.
Qed.

Lemma lomuto_body_spec gv s lo hi x rest m (Q : LomutoState → mem T → Prop) P :
  lomuto_inv gv s lo hi (x :: rest) m →
  (∀ s' lo' hi' m', lomuto_inv gv s' lo' hi' rest m' →
     length lo' + length hi' = length lo + length hi + 1 → Q s' m') →
  (∀ m', panics m' → P m') →
  wp (lomuto_body cmp p gv s) Q P m.
Proof.
  intros (y&Hm&HS&Hp&Hlo&Hhi&Hnum&Hgap&Hright) HQ HP.
  unfold lomuto_body. rewrite Hright, Hgap, Hnum. simpl.
  assert ((lo ++ hi ++ y :: x :: rest) !! (length lo + length hi + 1) = Some x) as Hx.
  { rewrite app_assoc, (cons_middle y), app_assoc. apply lookup_mid. rewrite !length_app. simpl. lia. }
  apply wp_bind. eapply wp_rd_v; [done..|].
  apply wp_bind, wp_on_panic, (wp_cmp cmp g); last first.
  { intros m1 Hm1 HnL. eapply wp_wr_v; [by eapply slice_eqm|rewrite !length_app; simpl; lia|].
    intros m2 Hm2 HS2. apply HP. exists (lo ++ hi ++ gv :: x :: rest).
    rewrite app_assoc, insert_mid, <- app_assoc in Hm2 by (rewrite length_app; lia).
    rewrite (size_eqm BS _ _ Hm1) in HS2. split_and!; [done|congruence|done|done]. }
  intros b m1 Hm1 Hb. apply (slice_eqm _ _ _ Hm1) in Hm. rewrite <- (size_eqm BS _ _ Hm1) in HS.
  destruct (lookup_lt_is_Some_2 (lo ++ hi ++ y :: x :: rest) (length lo)) as [z Hz].
  { rewrite !length_app. simpl. lia. }
  apply wp_bind. eapply wp_copy_v; [done..|rewrite !length_app; simpl; lia|]. intros m2 Hm2 HS2.
  assert (<[length lo + length hi := z]> (lo ++ hi ++ y :: x :: rest)
    !! (length lo + length hi + 1) = Some x) as Hx' by by rewrite list_lookup_insert_ne by lia.
  apply wp_bind. eapply wp_copyn_v; [done|exact Hx'|rewrite length_insert, !length_app; simpl; lia|lia|].
  intros m3 Hm3 HS3.
  apply wp_bind, wp_bind, wp_padd.
  { rewrite (slice_size _ _ Hm3), !length_insert, !length_app. simpl. lia. }
  apply wp_ret, wp_ret.
  destruct (lomuto_shift lo hi y x (x :: rest) b) as (lo'&hi'&Hlo'&Hhi'&Hlen&Hk).
  rewrite (Hk _ z Hz eq_refl) in Hm3.
  apply (HQ _ lo' hi'); [|done]. exists x. cbn [num_lt gap_pos right].
  split_and!; [done|congruence| | | | | |].
  - rewrite <- Hp. destruct b; rewrite Hlo', Hhi'.
    + rewrite <- !app_assoc. f_equiv. simpl. rewrite (perm_swap x gv rest).
      apply Permutation_middle.
    + f_equiv. simpl. rewrite (perm_swap x gv rest). apply Permutation_middle.
  - destruct b; rewrite Hlo'; [by apply (lows_snoc _ _ true)|done].
  - destruct b; eapply highs_perm; [by symmetry|done|by symmetry|]. by apply (highs_cons _ _ false).
  - destruct b; rewrite Hlo'; rewrite ?length_app; simpl; lia.
  - f_equal. lia.
  - f_equal. lia.
Qed.

(** The last step takes the saved value. *)
Lemma lomuto_last_spec gv s lo hi m (Q : LomutoState → mem T → Prop) P :
  lomuto_inv gv s lo hi [] m →
  (∀ s' m', vperm l (split_at (num_lt s')) m0 m' → Q s' m') →
  (∀ m', panics m' → P m') →
  wp (lomuto_body cmp p gv {| right := GapValue; num_lt := num_lt s; gap_pos := gap_pos s |}) Q P m.
Proof.
  intros (y&Hm&HS&Hp&Hlo&Hhi&Hnum&Hgap&Hright) HQ HP.
  unfold lomuto_body. cbn [num_lt gap_pos right]. rewrite Hgap, Hnum. simpl.
  apply wp_bind, wp_ret.
  apply wp_bind, wp_on_panic, (wp_cmp cmp g); last first.
  { intros m1 Hm1 HnL. eapply wp_wr_v; [by eapply slice_eqm|rewrite !length_app; simpl; lia|].
    intros m2 Hm2 HS2. apply HP. exists (lo ++ hi ++ [gv]).
    rewrite app_assoc, insert_mid, <- app_assoc in Hm2 by (rewrite length_app; lia).
    rewrite (size_eqm BS _ _ Hm1) in HS2. split_and!; [done|congruence|done|done]. }
  intros b m1 Hm1 Hb. apply (slice_eqm _ _ _ Hm1) in Hm. rewrite <- (size_eqm BS _ _ Hm1) in HS.
  destruct (lookup_lt_is_Some_2 (lo ++ hi ++ [y]) (length lo)) as [z Hz].
  { rewrite !length_app. simpl. lia. }
  apply wp_bind. eapply wp_copy_v; [done..|rewrite !length_app; simpl; lia|]. intros m2 Hm2 HS2.
  apply wp_bind. eapply wp_wr_v; [done|rewrite length_insert, !length_app; simpl; lia|].
  intros m3 Hm3 HS3. apply wp_bind, wp_ret, wp_ret. apply HQ. simpl.
  destruct (lomuto_shift lo hi y gv [] b) as (lo'&hi'&Hlo'&Hhi'&Hlen&Hk).
  rewrite (Hk _ z Hz eq_refl), app_nil_r in Hm3. exists (lo' ++ hi').
  split_and!; [done|congruence| |].
  - rewrite <- Hp. destruct b; rewrite Hlo', Hhi'.
    + rewrite <- app_assoc. f_equiv. rewrite (Permutation_app_comm hi [gv]). done.
    + f_equiv. by rewrite (Permutation_app_comm hi [gv]).
  - exists lo', hi'. split_and!; [done|destruct b; rewrite Hlo', ?length_app; simpl; lia|].
    intros HL. split.
    + destruct b; rewrite Hlo'; [by apply (lows_snoc lo gv true)|by apply Hlo].
    + revert HL. change (highs hi').
      destruct b; eapply highs_perm; [by symmetry|done|by symmetry|]. by apply (highs_cons _ _ false).
Qed.
Hypothesis Hl : slice_of l m0.

(** The specification the three schemes share. *)
Definition partitions (prog : prog (mem T) nat) : Prop :=
  wp prog (λ n, vperm l (split_at n) m0) panics m0.

Lemma lomuto_cyclic_spec ti : partitions (partition_lomuto_branchless_cyclic cmp ti p).
Proof.
  unfold partition_lomuto_branchless_cyclic, partitions.
  eapply wp_bind, wp_len_v; [done|].
  destruct (Nat.eqb_spec (length l) 0) as [H0|H0].
  { apply nil_length_inv in H0. apply wp_ret, vperm_refl; [done..|].
    rewrite H0. by exists [], []. }
  destruct l as [|gv rest0] eqn:Heq; [done|]. rewrite <- Heq in *.
  apply wp_bind. eapply wp_rd_v; [done|by rewrite Heq|].
  set (unroll_len := if size_of ti <=? 16 then 2 else 1). cbv zeta.
  assert (1 ≤ unroll_len ≤ 2) as Hu by (unfold unroll_len; destruct (_ <=? _); lia).
  apply wp_bind, wp_padd; [rewrite (slice_size _ _ Hl); lia|].
  set (inv := λ s m, ∃ lo hi rest, lomuto_inv gv s lo hi rest m).
  assert (∀ s lo hi rest m, lomuto_inv gv s lo hi rest m →
    length lo + length hi + 1 + length rest = length l) as Hlen.
  { intros s lo hi rest m (_&_&_&Hp&_). rewrite <- Hp, !length_app. simpl. lia. }
  apply wp_bind. eapply wp_mono with (P := panics) (Q := inv).
  - apply (wp_loop inv (λ s, match right s with InSlice r => length l - r | GapValue => 0 end)).
    2:{ exists [], [], rest0, gv. cbn [num_lt gap_pos right app length]. rewrite <- Heq.
        split_and!; try done; by intros _. }
    2:{ simpl. lia. }
    intros s m (lo&hi&rest&Hm). pose proof (Hlen _ _ _ _ _ Hm) as Hn.
    pose proof Hm as (_&_&_&_&_&_&_&_&Hright). rewrite Hright.
    destruct (Nat.ltb_spec (length lo + length hi + 1) (0 + (length l - (unroll_len - 1)))) as [Hlt|];
      [|apply wp_ret; by exists lo, hi, rest].
    destruct rest as [|x rest]; [simpl in *; lia|].
    destruct (Nat.eqb_spec unroll_len 2) as [H2|].
    + apply wp_bind. eapply lomuto_body_spec; [done| |done].
      intros s1 lo1 hi1 m1 Hm1 Hn1. pose proof (Hlen _ _ _ _ _ Hm1) as Hn1'.
      destruct rest as [|x' rest]; [simpl in *; lia|].
      apply wp_bind. eapply lomuto_body_spec; [done| |done].
      intros s2 lo2 hi2 m2 Hm2 Hn2. apply wp_ret.
      split; [by exists lo2, hi2, rest|]. destruct Hm2 as (_&_&_&_&_&_&_&_&->). lia.
    + apply wp_bind. eapply lomuto_body_spec; [done| |done].
      intros s1 lo1 hi1 m1 Hm1 Hn1. apply wp_ret.
      split; [by exists lo1, hi1, rest|]. destruct Hm1 as (_&_&_&_&_&_&_&_&->). lia.
  - intros s m Hm.
    apply (wp_loop inv (λ s, match right s with InSlice r => length l - r | GapValue => 0 end)).
    2:{ done. }
    2:{ destruct (right s); lia. }
    clear s m Hm. intros s m (lo&hi&rest&Hm). pose proof (Hlen _ _ _ _ _ Hm) as Hn.
    pose proof Hm as (_&_&_&_&_&_&_&_&Hright). rewrite Hright. cbv zeta.
    destruct (Nat.eqb_spec (length lo + length hi + 1) (length l)).
    + destruct rest; [|simpl in *; lia]. apply wp_bind.
      eapply lomuto_last_spec; [done| |done]. intros s' m' Hm'. by apply wp_ret.
    + destruct rest as [|x rest]; [simpl in *; lia|].
      rewrite <- Hright. destruct s as [r num gp]; cbn [right num_lt gap_pos] in *.
      apply wp_bind. eapply lomuto_body_spec; [done| |done].
      intros s1 lo1 hi1 m1 Hm1 Hn1. apply wp_ret.
      split; [by exists lo1, hi1, rest|].
      rewrite ?Hright. destruct Hm1 as (_&_&_&_&_&_&_&_&->). lia.
  - done.
Qed.

(** ** Lomuto, simple *)
Lemma lomuto_simple_spec : partitions (partition_lomuto_branchless_simple cmp p).
Proof.
  unfold partitions, partition_lomuto_branchless_simple. eapply wp_bind, wp_len_v; [done|].
  eapply wp_mono with (P := panics); [apply (wp_for_fold (λ i n m, ∃ lo hi rest,
    slice_of (lo ++ hi ++ rest) m ∧ size BS m = size BS m0 ∧ lo ++ hi ++ rest ≡ₚ l ∧
    n = length lo ∧ i = length lo + length hi ∧ lows lo ∧ highs hi))| |done].
  - intros i n m Hi (lo&hi&rest&Hm&HS&Hp&->&->&Hlo&Hhi).
    assert (length lo + (length hi + length rest) = length l) as Hlen
      by (rewrite <- Hp, !length_app; lia).
    destruct rest as [|x rest]; [simpl in *; lia|].
    assert ((lo ++ hi ++ x :: rest) !! (length lo + length hi) = Some x) as Hx.
    { rewrite app_assoc. apply lookup_mid. by rewrite length_app. }
    apply wp_bind. eapply wp_rd_v; [done..|]. apply wp_bind, (wp_cmp cmp g); last first.
    { intros m1 Hm1 HnL. exists (lo ++ hi ++ x :: rest).
      split_and!; [by eapply slice_eqm|by rewrite (size_eqm BS _ _ Hm1)|done|done]. }
    intros b m1 Hm1 Hb. apply (slice_eqm _ _ _ Hm1) in Hm. rewrite <- (size_eqm BS _ _ Hm1) in HS.
    destruct (lookup_lt_is_Some_2 (lo ++ hi ++ x :: rest) (length lo)) as [z Hz].
    { rewrite !length_app. simpl. lia. }
    apply wp_bind. eapply wp_swap_unchecked_v; [done|exact Hz|exact Hx|].
    intros m2 Hm2 HS2. apply wp_ret.
    destruct (lomuto_shift lo hi x x rest b) as (lo'&hi'&Hlo'&Hhi'&Hn&Hk).
    assert (<[length lo + length hi := z]> (<[length lo := x]> (lo ++ hi ++ x :: rest)) =
            lo' ++ hi' ++ rest) as Heq.
    { apply (Hk _ z Hz). destruct (decide (length hi = 0)) as [H0|].
      - apply nil_length_inv in H0 as ->. simpl in *. rewrite Nat.add_0_r in *.
        rewrite Hz in Hx. injection Hx as ->. done.
      - apply list_insert_insert_ne. lia. }
    rewrite Heq in Hm2. exists lo', hi', rest.
    split_and!; [done|congruence| | |lia| |].
    + rewrite <- Hp. destruct b; rewrite Hlo', Hhi'.
      * rewrite <- app_assoc. apply Permutation_app_head. simpl. apply Permutation_middle.
      * apply Permutation_app_head. simpl. apply Permutation_middle.
    + destruct b; rewrite Hlo', ?length_app; simpl; lia.
    + destruct b; rewrite Hlo'; [by apply (lows_snoc _ _ true)|done].
    + destruct b; eapply highs_perm; [by symmetry|done|by symmetry|]. by apply (highs_cons _ _ false).
  - exists [], [], l. split_and!; try done; by intros _.
  - intros n m (lo&hi&rest&Hm&HS&Hp&->&Hi&Hlo&Hhi).
    assert (length lo + (length hi + length rest) = length l) as Hlen
      by (rewrite <- Hp, !length_app; lia).
    destruct rest; [|simpl in *; lia]. rewrite app_nil_r in *.
    exists (lo ++ hi). split_and!; [done|done|done|]. exists lo, hi. split_and!; [done|done|].
    intros HL. auto.
Qed.
(** ** Hoare, cyclic *)

(** [hi] with its first element in the guard, as it is in memory. *)
Definition holed (gap_opt : option GapGuard) (right_i : nat) (hi hi' : list T) : Prop :=
  match gap_opt with
  | None => hi' = hi
  | Some gg => pos gg = right_i ∧ ∃ y h, hi = value gg :: h ∧ hi' = y :: h
  end.

Definition hoare_inv gap_opt lo mid hi m : Prop :=
  (∃ hi', holed gap_opt (length lo + length mid) hi hi' ∧ slice_of (lo ++ mid ++ hi') m) ∧
  size BS m = size BS m0 ∧ lo ++ mid ++ hi ≡ₚ l ∧ lows lo ∧ highs hi.

Lemma hoare_inv_eqm gap_opt lo mid hi m m' :
  eqm m' m → hoare_inv gap_opt lo mid hi m → hoare_inv gap_opt lo mid hi m'.
Proof.
  intros Hm ((hi'&Hh&Hs)&HS&?). split; [exists hi'; split; [done|by eapply slice_eqm]|].
  by rewrite (size_eqm BS _ _ Hm).
Qed.

Lemma hoare_inv_length gap_opt lo mid hi m : hoare_inv gap_opt lo mid hi m →
  length lo + length mid + length hi = length l ∧ size BV m = length l.
Proof.
  intros ((hi'&Hh&Hs)&_&Hp&_). rewrite <- Hp, (slice_size _ _ Hs), !length_app.
  split; [lia|]. destruct gap_opt; [|by rewrite Hh].
  destruct Hh as (_&y&h&->&->). done.
Qed.

Lemma hoare_inv_lookup gap_opt lo mid1 x mid2 hi m (Q : T → mem T → Prop) P :
  hoare_inv gap_opt lo (mid1 ++ x :: mid2) hi m → Q x m →
  wp (rd BV (length lo + length mid1)) Q P m.
Proof.
  intros ((hi'&_&Hs)&_) HQ. eapply wp_rd_v; [exact Hs| |done].
  rewrite <- !app_assoc, app_assoc. apply lookup_mid. by rewrite length_app.
Qed.

Lemma hoare_drop_spec gap_opt lo mid hi m (Q : () → mem T → Prop) P :
  hoare_inv gap_opt lo mid hi m →
  (∀ m', slice_of (lo ++ mid ++ hi) m' → size BS m' = size BS m0 → Q () m') →
  wp (GapGuard_drop gap_opt) Q P m.
Proof.
  intros ((hi'&Hh&Hs)&HS&_) HQ. destruct gap_opt as [gg|]; simpl.
  - destruct Hh as (Hpos&y&h&->&->).
    eapply wp_wr_v; [done|rewrite Hpos, !length_app; simpl; lia|]. intros m' Hm' HS'.
    apply HQ; [|congruence]. rewrite app_assoc, insert_mid, <- app_assoc in Hm'; [done|].
    by rewrite length_app.
  - simpl in Hh. subst. apply wp_ret. by apply HQ.
Qed.

Lemma hoare_cmp_spec gap_opt lo mid hi x m (Q : bool → mem T → Prop) (P : mem T → Prop) :
  hoare_inv gap_opt lo mid hi m →
  (∀ b m', hoare_inv gap_opt lo mid hi m' → (Lg → b = f x) → Q b m') →
  (∀ m', panics m' → P m') →
  wp (on_panic (is_less cmp x p) (GapGuard_drop gap_opt)) Q P m.
Proof.
  intros Hm HQ HP. apply wp_on_panic, (wp_cmp cmp g).
  - intros b m' Hm' Hb. apply HQ; [by eapply hoare_inv_eqm|done].
  - intros m' Hm' HnL. eapply hoare_drop_spec; [by eapply hoare_inv_eqm|].
    intros m'' Hm'' HS''. apply HP. exists (lo ++ mid ++ hi).
    split_and!; [done|done|by destruct Hm as (_&_&?&_)|done].
Qed.

Lemma hoare_scan_left gap_opt lo mid hi m (P : mem T → Prop) :
  hoare_inv gap_opt lo mid hi m → (∀ m', panics m' → P m') →
  wp (loop (S (length l)) (λ left_p,
      if left_p <? length lo + length mid then
        x ← rd BV left_p;
        lt ← on_panic (is_less cmp x p) (GapGuard_drop gap_opt);
        if lt : bool then mret (inl (left_p + 1)) else mret (inr left_p)
      else mret (inr left_p)) (length lo))
    (λ left_p m', ∃ lo' mid', lo' ++ mid' = lo ++ mid ∧ left_p = length lo' ∧
       length mid' ≤ length mid ∧ hoare_inv gap_opt lo' mid' hi m' ∧
       (∀ x mid'', mid' = x :: mid'' → Lg → f x = false)) P m.
Proof.
  intros Hm HP. apply (wp_loop (λ left_p m', ∃ lo' mid', lo' ++ mid' = lo ++ mid ∧
    left_p = length lo' ∧ length mid' ≤ length mid ∧ hoare_inv gap_opt lo' mid' hi m')
    (λ left_p, length lo + length mid - left_p)).
  2:{ by exists lo, mid. }
  2:{ destruct (hoare_inv_length _ _ _ _ _ Hm). lia. }
  clear m Hm. intros left_p m (lo'&mid'&Heq&->&Hle&Hm).
  assert (length lo' + length mid' = length lo + length mid) as Hlen.
  { by rewrite <- !length_app, Heq. }
  destruct (Nat.ltb_spec (length lo') (length lo + length mid)).
  - destruct mid' as [|x mid']; [simpl in *; lia|].
    apply wp_bind. rewrite <- (Nat.add_0_r (length lo')).
    eapply (hoare_inv_lookup _ _ [] x mid'); [done|].
    apply wp_bind. eapply hoare_cmp_spec; [done| |done]. intros b m' Hm' Hb.
    destruct b; apply wp_ret.
    + split; [|lia]. exists (lo' ++ [x]), mid'.
      split_and!; [by rewrite <- app_assoc|rewrite length_app; simpl; lia|simpl in *; lia|].
      destruct Hm' as ((hi'&Hh&Hs)&HS&Hp&Hlo&Hhi). split_and!; [|done| | |done].
      * exists hi'. rewrite <- app_assoc. split; [|done].
        rewrite length_app. simpl in *. by replace (length lo' + 1 + length mid')
          with (length lo' + S (length mid')) by lia.
      * by rewrite <- app_assoc.
      * by apply (lows_snoc lo' x true).
    + exists lo', (x :: mid'). split_and!; [done|lia|done|done|].
      intros ? ? [= <- <-] HL. symmetry. by apply Hb.
  - apply wp_ret. exists lo', mid'. split_and!; [done..|].
    intros x mid'' -> . simpl in *. lia.
Qed.

Lemma hoare_scan_right gap_opt lo mid hi m (P : mem T → Prop) :
  hoare_inv gap_opt lo mid hi m → 1 ≤ length lo + length mid →
  (∀ x mid', mid = x :: mid' → Lg → f x = false) → (∀ m', panics m' → P m') →
  wp (loop (S (length l)) (λ right_p,
      right_p ← psub right_p 1;
      if right_p <=? length lo then mret (inr right_p) else
      x ← rd BV right_p;
      lt ← on_panic (is_less cmp x p) (GapGuard_drop gap_opt);
      if lt : bool then mret (inr right_p) else mret (inl right_p)) (length lo + length mid))
    (λ right_p m', hoare_inv gap_opt lo mid hi m' ∧
       ((right_p ≤ length lo ∧ highs mid) ∨
        ∃ x mid1 z scanned, mid = (x :: mid1) ++ z :: scanned ∧
          right_p = length lo + length (x :: mid1) ∧ highs (x :: scanned) ∧
          (Lg → f z = true))) P m.
Proof.
  intros Hm H1 Hx HP. apply (wp_loop (λ right_p m', hoare_inv gap_opt lo mid hi m' ∧
    ∃ mid1 scanned, mid = mid1 ++ scanned ∧ right_p = length lo + length mid1 ∧
      1 ≤ right_p ∧ highs scanned) (λ right_p, right_p)).
  2:{ split; [done|]. exists mid, []. rewrite app_nil_r. split_and!; [done|done|done|]. by intros _. }
  2:{ destruct (hoare_inv_length _ _ _ _ _ Hm). lia. }
  clear m Hm. intros right_p m (Hm&mid1&scanned&Hmid&->&Hr1&Hsc).
  apply wp_bind, wp_psub; [done|].
  destruct (Nat.leb_spec (length lo + length mid1 - 1) (length lo)) as [Hle|Hgt].
  - apply wp_ret. split; [done|]. left. split; [done|].
    destruct mid1 as [|x [|??]]; simpl in *; [by rewrite Hmid| |lia].
    rewrite Hmid. apply (highs_cons _ _ false); [done| |done].
    intros HL. symmetry. by eapply Hx.
  - destruct (list_snoc_inv mid1) as (mid2&z&->); [by intros ->; simpl in *; lia|].
    rewrite length_app in *. simpl in *.
    replace (length lo + (length mid2 + 1) - 1) with (length lo + length mid2) by lia.
    rewrite <- app_assoc in Hmid. simpl in Hmid.
    apply wp_bind. eapply (hoare_inv_lookup gap_opt lo mid2 z scanned hi); [by rewrite <- Hmid|].
    apply wp_bind. eapply hoare_cmp_spec; [done| |done]. intros b m' Hm' Hb.
    destruct b; apply wp_ret.
    + split; [done|]. right. destruct mid2 as [|x mid2]; [simpl in *; lia|].
      exists x, mid2, z, scanned. split_and!; [done|done| |intros HL; symmetry; by apply Hb].
      apply (highs_cons _ _ false); [done| |done]. intros HL. symmetry. by eapply Hx.
    + split; [|lia]. split; [done|]. exists mid2, (z :: scanned). split_and!; [done|done|lia|].
      by apply (highs_cons _ _ false).
Qed.

(** One cyclic exchange: [z] joins the left part; the guard takes the place of [z]. *)
Lemma hoare_exchange_spec {C} (ret : nat * nat * option GapGuard → C)
    gap_opt lo x mid1 z scanned hi m (Q : C → mem T → Prop) P :
  hoare_inv gap_opt lo ((x :: mid1) ++ z :: scanned) hi m → highs (x :: scanned) →
  (Lg → f z = true) →
  (∀ gap_opt' hi' m', hoare_inv gap_opt' (lo ++ [z]) mid1 hi' m' →
     Q (ret (length lo + 1, length lo + length (x :: mid1), gap_opt')) m') →
  wp (value ← match gap_opt with
              | None => rd BV (length lo)
              | Some gap => _ ← copy_nonoverlapping BV (length lo) BV (pos gap) 1; mret (value gap)
              end;
      let gap_opt := Some {| pos := length lo + length (x :: mid1); value := value |} in
      _ ← copy_nonoverlapping BV (length lo + length (x :: mid1)) BV (length lo) 1;
      mret (ret (length lo + 1, length lo + length (x :: mid1), gap_opt))) Q P m.
Proof.
  intros ((hi'&Hh&Hs)&HS&Hp&Hlo&Hhi) Hsc Hz HQ.
  assert (∀ h, (lo ++ ((x :: mid1) ++ z :: scanned) ++ h) !! length lo = Some x) as Hlx.
  { intros h. by apply lookup_mid. }
  assert (∀ h, (lo ++ ((x :: mid1) ++ z :: scanned) ++ h) !! (length lo + length (x :: mid1)) = Some z)
    as Hlz.
  { intros h. rewrite <- app_assoc, app_assoc. apply lookup_mid. by rewrite length_app. }
  assert (∀ h, <[length lo := z]> (lo ++ ((x :: mid1) ++ z :: scanned) ++ h) =
    (lo ++ [z]) ++ mid1 ++ z :: scanned ++ h) as Hins.
  { intros h. rewrite <- app_assoc. simpl. rewrite insert_mid by done.
    rewrite <- app_assoc. done. }
  assert (highs scanned) as Hsc' by (intros HL; by apply Forall_inv_tail in Hsc).
  assert (lows (lo ++ [z])) as Hlo' by (apply (lows_snoc _ _ true); [done|intros HL; by rewrite Hz|done]).
  destruct gap_opt as [gg|]; simpl in Hh.
  - destruct Hh as (Hpos&y&h&->&->). apply wp_bind, wp_bind.
    eapply wp_copyn_v; [exact Hs|apply Hlx| | |].
    { rewrite Hpos, ?length_app. simpl. rewrite ?length_app. simpl. lia. }
    { rewrite Hpos, ?length_app. simpl. rewrite ?length_app. simpl. lia. }
    intros m1 Hm1 HS1. rewrite (app_assoc lo), insert_mid, <- app_assoc in Hm1;
      [|by rewrite length_app].
    apply wp_ret. cbv zeta. apply wp_bind. eapply wp_copyn_v; [exact Hm1|apply Hlz| |simpl; lia|].
    { rewrite !length_app. simpl. lia. }
    intros m2 Hm2 HS2. rewrite Hins in Hm2. apply wp_ret.
    apply (HQ _ (value gg :: scanned ++ x :: h)). split_and!; [|congruence| |done|].
    + exists (z :: scanned ++ x :: h). split; [|done]. split; [simpl; rewrite length_app; simpl; lia|].
      by exists z, (scanned ++ x :: h).
    + rewrite <- Hp. rewrite <- !app_assoc. apply Permutation_app_head. simpl.
      solve_Permutation.
    + apply (highs_app [_]); [|apply highs_app; [done|]].
      * intros HL. specialize (Hhi HL). apply Forall_cons in Hhi as [??]. by repeat constructor.
      * apply (highs_app [_]); [intros HL; specialize (Hsc HL); apply Forall_cons in Hsc as [??]; by repeat constructor|].
        intros HL. specialize (Hhi HL). by apply Forall_cons in Hhi as [??].
  - subst hi'. apply wp_bind. eapply wp_rd_v; [exact Hs|apply Hlx|].
    cbv zeta. apply wp_bind. eapply wp_copyn_v; [exact Hs|apply Hlz| |simpl; lia|].
    { rewrite !length_app. simpl. lia. }
    intros m2 Hm2 HS2. rewrite Hins in Hm2. apply wp_ret.
    apply (HQ _ (x :: scanned ++ hi)). split_and!; [|congruence| |done|].
    + exists (z :: scanned ++ hi). split; [|done]. split; [simpl; rewrite length_app; simpl; lia|].
      by exists z, (scanned ++ hi).
    + rewrite <- Hp. rewrite <- !app_assoc. apply Permutation_app_head. simpl. solve_Permutation.
    + apply (highs_app (x :: scanned)); done.
Qed.
Lemma hoare_cyclic_spec : partitions (partition_hoare_branchy_cyclic cmp p).
Proof.
  unfold partition_hoare_branchy_cyclic, partitions.
  eapply wp_bind, wp_len_v; [done|].
  destruct (Nat.eqb_spec (length l) 0) as [H0|H0].
  { apply nil_length_inv in H0. apply wp_ret, vperm_refl; [done..|].
    rewrite H0. by exists [], []. }
  apply wp_bind, wp_padd; [rewrite (slice_size _ _ Hl); lia|]. apply wp_bind.
  eapply wp_mono with (P := panics) (Q := λ '(left_p, gap_opt) m, ∃ lo mid hi,
    left_p = length lo ∧ hoare_inv gap_opt lo mid hi m ∧ highs mid).
  - apply (wp_loop (λ '(left_p, right_p, gap_opt) m, ∃ lo mid hi,
      left_p = length lo ∧ right_p = length lo + length mid ∧ 1 ≤ right_p ∧
      hoare_inv gap_opt lo mid hi m) (λ '(left_p, right_p, _), right_p - left_p)).
    2:{ exists [], l, []. split_and!; [done|done|simpl; lia|].
        split_and!; [|done|by rewrite app_nil_r|by intros _..].
        exists []. by rewrite app_nil_r. }
    2:{ lia. }
    intros [[left_p right_p] gap_opt] m (lo&mid&hi&->&->&H1&Hm).
    apply wp_bind. eapply wp_mono; [by apply hoare_scan_left| |done].
    intros left_p m1 (lo1&mid1&Heq&->&Hle&Hm1&Hx).
    assert (length lo1 + length mid1 = length lo + length mid) as Hlen
      by by rewrite <- !length_app, Heq.
    rewrite <- Hlen. apply wp_bind. eapply wp_mono; [apply hoare_scan_right; [done|lia|done..]| |done].
    intros right_p m2 [Hm2 [[Hr Hhi]|(x&mid2&z&scanned&->&->&Hsc&Hz)]].
    + destruct (Nat.leb_spec right_p (length lo1)); [|lia]. apply wp_ret.
      by exists lo1, mid1, hi.
    + destruct (Nat.leb_spec (length lo1 + length (x :: mid2)) (length lo1)); [simpl in *; lia|].
      eapply hoare_exchange_spec; [done..|]. intros gap' hi' m3 Hm3. split.
      * exists (lo1 ++ [z]), mid2, hi'. rewrite length_app. simpl. split_and!; [done|lia|lia|done].
      * rewrite length_app in *. simpl in *. lia.
  - intros [left_p gap_opt] m (lo&mid&hi&->&Hm&Hmid). apply wp_bind.
    eapply hoare_drop_spec; [done|]. intros m' Hm' HS'. apply wp_ret.
    destruct Hm as (_&_&Hp&Hlo&Hhi).
    exists (lo ++ mid ++ hi). split_and!; [done|done|done|].
    exists lo, (mid ++ hi). split_and!; [done|done|]. intros HL. split; [by apply Hlo|].
    by apply highs_app.
  - done.
Qed.

Lemma inst_partition_spec ti osz : partitions (inst_partition cmp ti osz p).
Proof.
  unfold inst_partition. destruct (_ <=? _); [destruct osz|].
  - apply lomuto_simple_spec.
  - apply lomuto_cyclic_spec.
  - apply hoare_cyclic_spec.
Qed.
End spec.

(** ** [partition]: the pivot ends up between the two parts *)
Section partition.
Context {T : Type} (cmp : comparator T) (g : T → T → bool) (ti : ty_info) (osz : bool).
Implicit Types (m : mem T) (l : list T).
Let Lg : Prop := lawful cmp g.

Definition pivoted (p : T) (n : nat) (k : list T) : Prop :=
  ∃ lo hi, k = lo ++ p :: hi ∧ n = length lo ∧
    (Lg → Forall (λ x, g x p = true) lo ∧ Forall (λ x, g x p = false) hi).

Lemma exchange_perm (l : list T) i j x y :
  l !! i = Some x → l !! j = Some y → <[j := x]> (<[i := y]> l) ≡ₚ l.
Proof.
  intros Hx Hy. destruct (decide (i = j)) as [->|Hij].
  { rewrite Hx in Hy. injection Hy as ->. by rewrite list_insert_insert_eq, list_insert_id. }
  assert (∀ (l : list T) i j x y, i < j → l !! i = Some x → l !! j = Some y →
    <[j := x]> (<[i := y]> l) ≡ₚ l) as Hlt.
  { clear. intros l i j x y Hij Hx Hy. pose proof (lookup_lt_Some _ _ _ Hy).
    destruct (list_split_mid l i) as (l1&x'&l'&->&Hl1); [lia|].
    rewrite lookup_mid in Hx by done. injection Hx as ->.
    rewrite length_app in H; simpl in H.
    destruct (list_split_mid l' (j - i - 1)) as (l2&y'&l3&->&Hl2); [lia|].
    rewrite app_comm_cons, app_assoc, lookup_mid in Hy; [|rewrite length_app; simpl; lia].
    injection Hy as ->. rewrite insert_mid by done.
    rewrite app_comm_cons, app_assoc, insert_mid by (rewrite length_app; simpl; lia).
    rewrite <- app_assoc. apply Permutation_app_head. simpl. solve_Permutation. }
  destruct (decide (i < j)); [by apply Hlt|].
  rewrite list_insert_insert_ne by done. apply Hlt; [lia|done|done].
Qed.

Lemma partition_spec l i p m :
  slice_of l m → l !! i = Some p →
  wp (partition cmp ti osz i) (λ n, vperm l (pivoted p n) m) (vperm l (λ _, ¬ Lg) m) m.
Proof.
  intros Hl Hp. pose proof (lookup_lt_Some _ _ _ Hp) as Hi.
  unfold partition. eapply wp_bind, wp_len_v; [done|].
  destruct (Nat.eqb_spec (length l) 0); [lia|]. destruct (Nat.leb_spec (length l) i); [lia|].
  destruct (lookup_lt_is_Some_2 l 0) as [x0 Hx0]; [lia|].
  apply wp_bind. eapply wp_swap_unchecked_v; [done..|]. intros m1 Hm1 HS1.
  set (l1 := <[i := x0]> (<[0 := p]> l)) in *.
  assert (l1 ≡ₚ l) as Hp1 by by apply exchange_perm.
  assert (∃ rest, l1 = p :: rest) as [rest Hrest].
  { unfold l1. destruct l as [|y rest]; [done|]. injection Hx0 as ->. simpl in *.
    destruct i as [|i]; [injection Hp as ->|]; simpl; eauto. }
  clearbody l1. subst l1. pose proof (Permutation_length Hp1) as Hlen. simpl in Hlen.
  apply wp_bind. eapply wp_rd_v; [done|done|].
  apply wp_bind. eapply (wp_sub_vperm 1 (length l) _ [p] rest []);
    [by rewrite app_nil_r|done|simpl; lia| | |].
  { intros t Ht HSt. by apply (inst_partition_spec cmp g). }
  2:{ intros k m2. rewrite app_nil_r. intros Hm2 HS2 Hpk HnL. exists ([p] ++ k).
      split_and!; [done|congruence|by rewrite Hpk|done]. }
  intros n0 k m2. rewrite app_nil_r. intros Hm2 HS2 Hpk (lo&hi&->&->&HL).
  pose proof (Permutation_length Hpk) as Hlen'. rewrite length_app in Hlen'.
  destruct (Nat.leb_spec (length l) (length lo)); [lia|].
  destruct (lookup_lt_is_Some_2 ([p] ++ lo ++ hi) (length lo)) as [z Hz].
  { simpl. rewrite length_app. lia. }
  apply wp_bind. eapply wp_swap_unchecked_v; [exact Hm2|done|exact Hz|]. intros m3 Hm3 HS3.
  apply wp_ret.
  assert (∃ lo', <[length lo := p]> (<[0 := z]> ([p] ++ lo ++ hi)) = lo' ++ p :: hi ∧ lo' ≡ₚ lo)
    as (lo'&Heq&Hlo').
  { destruct (decide (lo = [])) as [->|Hne].
    - exists []. simpl in *. injection Hz as <-. done.
    - destruct (list_snoc_inv lo Hne) as (lo0&w&->).
      rewrite length_app, Nat.add_1_r in *. exists (w :: lo0).
      simpl in Hz. rewrite <- app_assoc in Hz. simpl in Hz. rewrite lookup_mid in Hz by done.
      injection Hz as ->. split; [|by rewrite Permutation_app_comm].
      simpl. f_equal. rewrite <- app_assoc. simpl. by rewrite insert_mid. }
  rewrite Heq in Hm3. exists (lo' ++ p :: hi). split_and!; [done|congruence| |].
  - rewrite <- Hp1, <- Hpk, Hlo'. symmetry. apply Permutation_middle.
  - exists lo', hi. split_and!; [done|by rewrite Hlo'|]. intros HL'.
    destruct (HL HL'). by rewrite Hlo'.
Qed.
End partition.
