(* ===== verification/HeapsortSpec.v ===== *)
(** Heapsort, the fallback of the unstable quicksort. *)

From S2P Require Import Prelude.
From S2P Require Import Order.
From S2P Require Import SortMem.
From S2P Require Import SmallSort.
From S2P Require Import SmallSortSpec.
From S2P Require Import NetworkSpec.
From S2P Require Import Pivot.
From S2P Require Import Stable.
From S2P Require Import DriftSpec.
From S2P Require Import Unstable.
From S2P Require Import UpartSpec.

Section spec.
Context {T : Type} (less : comparator T) (lt : T → T → bool) `{!StrictWeak lt}.
Implicit Types (m : mem T) (l : list T).
Let L : Prop := lawful less lt.

(** The greater child. *)
Lemma pick_child_spec k j m (Q : nat → mem T → Prop) (P : mem T → Prop) :
  slice_of k m → 2 * j + 1 < length k →
  (∀ c y m', eqm m' m → child_of j c → k !! c = Some y →
     (L → ∀ s z, child_of j s → k !! s = Some z → le lt z y) → Q c m') →
  (∀ m', eqm m' m → ¬ L → P m') →
  wp (let child := 2 * j + 1 in
      if child + 1 <? length k then
        x ← rd BV child; y ← rd BV (child + 1);
        lt ← is_less less x y;
        mret (child + Nat.b2n lt)
      else mret child) Q P m.
Proof.
  intros Hk Hj HQ HP. cbv zeta.
  destruct (lookup_lt_is_Some_2 k (2 * j + 1)) as [y Hy]; [done|].
  destruct (Nat.ltb_spec (2 * j + 1 + 1) (length k)) as [Hlt|Hge].
  - destruct (lookup_lt_is_Some_2 k (2 * j + 1 + 1)) as [z Hz]; [done|].
    apply wp_bind. eapply wp_rd_v; [done..|]. apply wp_bind. eapply wp_rd_v; [done..|].
    apply wp_bind, (wp_cmp less lt); [|done]. intros c m' Hm' Hc. apply wp_ret.
    destruct c; simpl Nat.b2n.
    + apply (HQ _ z); [done|unfold child_of; lia|done|]. intros HL s w [->| ->] Hw.
      * rewrite Hy in Hw. injection Hw as <-. apply lt_le; [done|]. symmetry. by apply Hc.
      * replace (2 * j + 2) with (2 * j + 1 + 1) in Hw by lia. rewrite Hz in Hw. by injection Hw as <-.
    + rewrite Nat.add_0_r. apply (HQ _ y); [done|unfold child_of; lia|done|].
      intros HL s w [->| ->] Hw.
      * rewrite Hy in Hw. by injection Hw as <-.
      * replace (2 * j + 2) with (2 * j + 1 + 1) in Hw by lia. rewrite Hz in Hw. injection Hw as <-.
        symmetry. by apply Hc.
  - apply wp_ret. apply (HQ _ y); [done|unfold child_of; lia|done|]. intros HL s w [->| ->] Hw.
    + rewrite Hy in Hw. by injection Hw as <-.
    + apply lookup_lt_Some in Hw. lia.
Qed.

Lemma heapsort_sift_down_spec l node m :
  slice_of l m → node ≤ length l →
  wp (sift_down less node)
    (λ _, vperm l (λ k, L → heap_from lt (node + 1) l → heap_from lt node k) m)
    (vperm l (λ _, ¬ L) m) m.
Proof.
  intros Hl Hnode. unfold sift_down. eapply wp_bind, wp_len_v; [done|].
  apply wp_bind, wp_assume; [by apply Nat.leb_le|].
  apply (wp_loop (λ j m', ∃ k, slice_of k m' ∧ size BS m' = size BS m ∧ k ≡ₚ l ∧ node ≤ j ∧
    (L → heap_from lt (node + 1) l → sifting lt node k j)) (λ j, length l - j)); [| |lia].
  2:{ exists l. split_and!; [done..|]. intros _. apply sifting_start. }
  intros j m1 (k&Hk&HS&Hp&Hj&Hsift). pose proof (Permutation_length Hp) as Hlen. cbv zeta.
  assert (∀ m', eqm m' m1 → (L → heap_from lt (node + 1) l → ok_at lt k j) →
    vperm l (λ k, L → heap_from lt (node + 1) l → heap_from lt node k) m m') as Hstop.
  { intros m' Hm' Hok. exists k. split_and!;
      [by eapply slice_eqm|by rewrite (size_eqm BS _ _ Hm')|done|].
    intros HL Hh. eapply sifting_stop; [by apply Hsift|by apply Hok]. }
  assert (∀ m', eqm m' m1 → ¬ L → vperm l (λ _, ¬ L) m m') as Hpanic.
  { intros m' Hm' HnL. exists k. split_and!;
      [by eapply slice_eqm|by rewrite (size_eqm BS _ _ Hm')|done|done]. }
  destruct (Nat.leb_spec (length l) (2 * j + 1)).
  { apply wp_ret, Hstop; [done|]. intros _ _ c x y Hc _ Hy%lookup_lt_Some.
    unfold child_of in Hc. lia. }
  rewrite <- Hlen. apply wp_bind. eapply pick_child_spec; [done|lia| |exact Hpanic].
  intros c y m2 Hm2 Hc Hy Hmax. apply (slice_eqm _ _ _ Hm2) in Hk as Hk2.
  pose proof (lookup_lt_Some _ _ _ Hy).
  destruct (lookup_lt_is_Some_2 k j) as [x Hx]; [unfold child_of in Hc; lia|].
  apply wp_bind. eapply wp_rd_v; [done..|]. apply wp_bind. eapply wp_rd_v; [done..|].
  apply wp_bind, (wp_cmp less lt).
  2:{ intros m3 Hm3 ?. apply Hpanic; [by etrans|done]. }
  intros b m3 Hm3 Hb. destruct b; cbn [negb].
  - assert (j ≠ c) as Hjc by (unfold child_of in Hc; lia).
    apply wp_bind. unfold swap_nonoverlapping. destruct (Nat.eqb_spec j c); [done|].
    apply (slice_eqm _ _ _ Hm3) in Hk2.
    fold (swap_unchecked (T:=T) j c). eapply wp_swap_unchecked_v; [done..|].
    intros m4 Hm4 HS4. apply wp_ret. split; [|unfold child_of in Hc; lia].
    exists (<[c := x]> (<[j := y]> k)). split_and!.
    + done.
    + by rewrite HS4, (size_eqm BS _ _ Hm3), (size_eqm BS _ _ Hm2).
    + rewrite <- Hp. by apply exchange_perm.
    + unfold child_of in Hc. lia.
    + intros HL Hh. eapply sifting_step; [done|by apply Hsift|done|done|done|done| |by apply Hmax].
      symmetry. by apply Hb.
  - apply wp_ret, Hstop; [by etrans|]. intros HL Hh s u v Hs Hu Hv.
    rewrite Hx in Hu. injection Hu as <-. transitivity y; [by apply (Hmax HL s)|].
    symmetry. by apply Hb.
Qed.

(** ** The whole sort: the heap is built, then its maxima are removed *)

(** After [n] turns; [e] elements are still in the heap. *)
Definition heapsort_inv (n : nat) l k : Prop :=
  let len := length l in
  if decide (n ≤ len / 2) then heap_from lt (len / 2 - n) k
  else ∃ pre post, k = pre ++ post ∧ length pre = len + len / 2 - n ∧
    is_heap lt pre ∧ sorted lt post ∧ (∀ x y, x ∈ pre → y ∈ post → le lt x y).

Lemma heapsort_inv_half l k : length k = length l → heapsort_inv (length l / 2) l k →
  ∃ pre post, k = pre ++ post ∧ length pre = length l ∧
    is_heap lt pre ∧ sorted lt post ∧ (∀ x y, x ∈ pre → y ∈ post → le lt x y).
Proof.
  intros Hk. unfold heapsort_inv. rewrite decide_True, Nat.sub_diag by lia. intros Hh.
  exists k, []. rewrite app_nil_r. split_and!; [done|done|done|constructor|].
  intros x y _ Hy. by apply elem_of_nil in Hy.
Qed.

(** Removing the maximum: it comes first among the sorted elements. *)
Lemma heapsort_remove pre' x z post k :
  is_heap lt (x :: pre' ++ [z]) → sorted lt post →
  (∀ a b, a ∈ x :: pre' ++ [z] → b ∈ post → le lt a b) →
  k ≡ₚ z :: pre' → is_heap lt k →
  is_heap lt k ∧ sorted lt (x :: post) ∧ (∀ a b, a ∈ k → b ∈ x :: post → le lt a b).
Proof.
  intros Hh Hs Hle Hp Hk. split; [done|]. split.
  - constructor; [done|]. apply Forall_forall. intros b Hb. apply Hle; [by left|done].
  - intros a b Ha Hb. rewrite Hp in Ha.
    assert (a ∈ x :: pre' ++ [z]) as Ha'.
    { right. apply elem_of_app. apply elem_of_cons in Ha as [->|?]; [right; by left|by left]. }
    apply elem_of_cons in Hb as [->|Hb]; [|by apply Hle].
    apply list_elem_of_lookup in Ha' as [j Hj].
    by apply (is_heap_max lt (x :: pre' ++ [z]) x j a).
Qed.

Lemma heapsort_build_turn l k n m :
  slice_of k m → k ≡ₚ l → n < length l / 2 → (L → heapsort_inv n l k) →
  wp (sub_slice 0 (length l) (sift_down less (length l + length l / 2 - 1 - n - length l)))
    (λ _, vperm l (λ k', L → heapsort_inv (n + 1) l k') m) (vperm l (λ _, ¬ L) m) m.
Proof.
  intros Hk Hp Hn Hinv. pose proof (Permutation_length Hp) as Hlen.
  replace (length l + length l / 2 - 1 - n - length l) with (length l / 2 - (n + 1)) by lia.
  eapply (wp_sub_vperm 0 _ _ [] k []); [by rewrite app_nil_r|done|done| | |].
  - intros t Ht _. apply heapsort_sift_down_spec; [done|]. pose proof (Nat.Div0.mul_div_le (length l) 2). lia.
  - simpl. intros [] k' m'. rewrite app_nil_r. intros Hm' HS' Hp' Hh. exists k'.
    split_and!; [done|done|by rewrite Hp'|]. intros HL. specialize (Hinv HL).
    unfold heapsort_inv in *. rewrite decide_True in Hinv by lia. rewrite decide_True by lia.
    apply Hh; [done|]. by replace (length l / 2 - (n + 1) + 1) with (length l / 2 - n) by lia.
  - simpl. intros k' m'. rewrite app_nil_r. intros Hm' HS' Hp' HnL. exists k'.
    split_and!; [done|done|by rewrite Hp'|done].
Qed.

Lemma heapsort_remove_turn l k n i m :
  slice_of k m → k ≡ₚ l → length l / 2 ≤ n → i < length l →
  i + 1 = length l + length l / 2 - n → (L → heapsort_inv n l k) →
  wp (_ ← swap 0 i; sub_slice 0 i (sift_down less 0))
    (λ _, vperm l (λ k', L → heapsort_inv (n + 1) l k') m) (vperm l (λ _, ¬ L) m) m.
Proof.
  intros Hk Hp Hn Hi Hin Hinv. pose proof (Permutation_length Hp) as Hlen.
  destruct (list_split_mid k i) as (pre&z&post&->&Hpre); [lia|].
  rewrite length_app in Hlen; simpl in Hlen.
  assert (L → is_heap lt (pre ++ [z]) ∧ sorted lt post ∧
    (∀ x y, x ∈ pre ++ [z] → y ∈ post → le lt x y)) as Hinv'.
  { intros HL. specialize (Hinv HL).
    assert (∃ pre0 post0, pre ++ z :: post = pre0 ++ post0 ∧ length pre0 = i + 1 ∧
      is_heap lt pre0 ∧ sorted lt post0 ∧ (∀ x y, x ∈ pre0 → y ∈ post0 → le lt x y))
      as (pre0&post0&Heq&Hl0&?&?&?).
    { destruct (decide (n = length l / 2)) as [->|].
      - apply heapsort_inv_half in Hinv as (pre0&post0&?&?&?&?&?); [|rewrite length_app; simpl; lia].
        exists pre0, post0. split_and!; [done|lia|done..].
      - unfold heapsort_inv in Hinv. rewrite decide_False in Hinv by lia.
        destruct Hinv as (pre0&post0&?&?&?&?&?). exists pre0, post0. split_and!; [done|lia|done..]. }
    rewrite (cons_middle z), app_assoc in Heq.
    apply app_inj_1 in Heq as [<- <-]; [done|]. rewrite length_app. simpl. lia. }
  set (x := default z (pre !! 0)). set (pre' := match pre with [] => [] | _ :: pre' => pre' end).
  assert ((pre ++ z :: post) !! 0 = Some x) as Hx by by destruct pre.
  apply wp_bind. eapply swap_spec; [done|exact Hx|by apply lookup_mid|].
  intros m1 Hm1 HS1 _.
  assert (<[i := x]> (<[0 := z]> (pre ++ z :: post)) =
          (match pre with [] => [] | _ :: _ => z :: pre' end) ++ x :: post) as Heq.
  { destruct pre as [|w pre]; simpl in *; subst i; [done|]. simpl. by rewrite insert_mid. }
  rewrite Heq in Hm1. clear Heq.
  set (front := match pre with [] => [] | _ :: _ => z :: pre' end) in *.
  assert (length front = i) as Hfront by by (unfold front, pre'; destruct pre).
  assert (front ++ x :: post ≡ₚ l) as Hp1.
  { rewrite <- Hp. unfold front, pre', x. destruct pre as [|w pre]; [done|]. simpl. solve_Permutation. }
  assert (size BS m1 = size BS m) as HS1' by (unfold size; simpl; congruence).
  eapply (wp_sub_vperm 0 i _ [] front (x :: post)); [done|done|done| | |].
  - intros t Ht _. apply heapsort_sift_down_spec; [done|lia].
  - intros [] k' m' Hm' HS' Hp' Hh. exists (k' ++ x :: post).
    split_and!; [done|congruence|by rewrite Hp'|]. intros HL.
    destruct (Hinv' HL) as (Hheap&Hsort&Hle).
    unfold heapsort_inv. rewrite decide_False by lia. exists k', (x :: post).
    split_and!; [done|rewrite Hp'; lia|..].
    all: destruct pre as [|w pre].
    + apply Permutation_nil_r in Hp' as ->. apply is_heap_nil.
    + apply (Hh HL). intros a Ha c u v Hc Hu Hv.
      apply (Hheap a ltac:(lia) c u v Hc).
      * destruct a as [|a]; [lia|]. simpl in *. by apply lookup_app_l_Some.
      * unfold child_of in Hc. destruct c as [|c]; [lia|]. simpl in *. by apply lookup_app_l_Some.
    + constructor; [done|]. apply Forall_forall. intros b Hb. apply Hle; [by left|done].
    + constructor; [done|]. apply Forall_forall. intros b Hb. apply Hle; [by left|done].
    + apply Permutation_nil_r in Hp' as ->. intros a b Ha. by apply elem_of_nil in Ha.
    + simpl in *. eapply (heapsort_remove pre x z post k'); [done|done|done|done|].
      apply (Hh HL). intros a Ha c u v Hc Hu Hv.
      apply (Hheap a ltac:(lia) c u v Hc).
      * destruct a as [|a]; [lia|]. simpl in *. by apply lookup_app_l_Some.
      * unfold child_of in Hc. destruct c as [|c]; [lia|]. simpl in *. by apply lookup_app_l_Some.
  - intros k' m' Hm' HS' Hp' HnL. exists (k' ++ x :: post).
    split_and!; [done|congruence|by rewrite Hp'|done].
Qed.

Lemma heapsort_usorts l m : slice_of l m → usorts less lt (heapsort less) l m.
Proof.
  intros Hl. unfold usorts, heapsort. eapply wp_bind, wp_len_v; [done|].
  pose proof (Nat.div_mod (length l) 2 ltac:(lia)). pose proof (Nat.mod_upper_bound (length l) 2 ltac:(lia)).
  eapply wp_mono; [apply (wp_for_range (λ n m', vperm l (λ k, L → heapsort_inv n l k) m m')
    (vperm l (λ _, ¬ L) m))| |done].
  - intros n m1 Hn (k&Hk&HS&Hp&Hinv). cbv zeta.
    set (i := length l + length l / 2 - 1 - n).
    destruct (Nat.leb_spec (length l) i).
    + apply wp_bind, wp_ret. rewrite Nat.min_r by lia.
      eapply wp_mono; [apply (heapsort_build_turn l k n); [done|done|lia|done]| |].
      * intros [] m2 Hm2. by eapply vperm_mono.
      * intros m2 Hm2. by eapply vperm_mono.
    + rewrite Nat.min_l by lia.
      assert (wp (_ ← swap 0 i; sub_slice 0 i (sift_down less 0))
        (λ _, vperm l (λ k', L → heapsort_inv (n + 1) l k') m1) (vperm l (λ _, ¬ L) m1) m1) as Hturn.
      { eapply heapsort_remove_turn; [done|done|lia|lia|lia|done]. }
      apply wp_bind_inv in Hturn. apply wp_bind, wp_bind.
      eapply wp_mono; [exact Hturn| |].
      * intros [] m2 Hm2. apply wp_ret. eapply wp_mono; [exact Hm2| |].
        -- intros [] m3 Hm3. by eapply vperm_mono.
        -- intros m3 Hm3. by eapply vperm_mono.
      * intros m2 Hm2. by eapply vperm_mono.
  - apply vperm_refl; [done..|]. intros _. unfold heapsort_inv. rewrite decide_True by lia.
    apply heap_from_half. lia.
  - intros [] m1 (k&Hk&HS&Hp&Hinv). exists k. split_and!; [done..|]. intros HL.
    specialize (Hinv HL). pose proof (Permutation_length Hp) as Hlen.
    unfold heapsort_inv in Hinv. destruct (decide _) as [Hd|Hd].
    + apply sorted_short. lia.
    + destruct Hinv as (pre&post&->&Hpre&_&Hs&_). destruct pre; [done|simpl in *; lia].
Qed.
End spec.
