(* ===== verification/UnstableSpec.v ===== *)
(** The unstable quicksort, ipnsort and the entry points of the unstable sort. *)

From S2P Require Import Prelude.
From S2P Require Import Order.
From S2P Require Import SortMem.
From S2P Require Import SmallSort.
From S2P Require Import SmallSortSpec.
From S2P Require Import NetworkSpec.
From S2P Require Import Pivot.
From S2P Require Import Stable.
From S2P Require Import DriftSpec.
From S2P Require Import StableSpec.
From S2P Require Import Unstable.
From S2P Require Import UpartSpec.
From S2P Require Import HeapsortSpec.

Section quicksort.
Context {T : Type} (less : comparator T) (lt : T → T → bool) `{!StrictWeak lt}.
Context (ti : ty_info).
Implicit Types (m : mem T) (l lo hi : list T).
Let L : Prop := lawful less lt.

Abbreviation usorts := (usorts less lt).

(** Sorted parts around a pivot. *)
Lemma sorted_pivot lo p hi :
  sorted lt lo → sorted lt hi → Forall (λ x, le lt x p) lo → Forall (le lt p) hi →
  sorted lt (lo ++ p :: hi).
Proof.
  intros Hlo Hhi Hl Hh. apply sorted_app. split; [done|]. split; [by constructor|].
  eapply Forall_impl; [exact Hl|]. intros x Hx. constructor; [done|].
  eapply Forall_impl; [exact Hh|]. intros y Hy. cbn beta in *. by transitivity p.
Qed.

(** What a partition says when the comparison is lawful: the plain one, and the
    one with the flipped comparison. *)
Lemma pivoted_less p n k : pivoted less lt p n k →
  ∃ lo hi, k = lo ++ p :: hi ∧ n = length lo ∧
    (L → Forall (λ x, le lt x p) lo ∧ Forall (le lt p) hi).
Proof.
  intros (lo&hi&->&->&HL). exists lo, hi. split_and!; [done..|]. intros HL'.
  destruct (HL HL') as [Hlo Hhi]. split; [|done].
  eapply Forall_impl; [exact Hlo|]. intros x. apply lt_le. done.
Qed.

Lemma pivoted_equal p n k : pivoted (not_flipped less) (λ a b, negb (lt b a)) p n k →
  ∃ lo hi, k = lo ++ p :: hi ∧ n = length lo ∧
    (L → Forall (λ x, le lt x p) lo ∧ Forall (le lt p) hi).
Proof.
  intros (lo&hi&->&->&HL). exists lo, hi. split_and!; [done..|]. intros HL'.
  destruct (HL (lawful_not_flipped less lt HL')) as [Hlo Hhi]. split.
  - eapply Forall_impl; [exact Hlo|]. intros x Hx. by apply negb_true_iff.
  - eapply Forall_impl; [exact Hhi|]. intros x Hx. cbn beta in Hx.
    apply negb_false_iff in Hx. by apply lt_le.
Qed.

(** Elements between equal bounds are in order. *)
Lemma sorted_between l p :
  Forall (le lt p) l → Forall (λ x, le lt x p) l → sorted lt l.
Proof.
  intros H1 H2. apply sorted_same_class. intros a b Ha Hb.
  rewrite Forall_forall in H1, H2. transitivity p; auto.
Qed.

Lemma partition_less_spec osz i p l m :
  slice_of l m → l !! i = Some p →
  wp (partition less ti osz i)
    (λ n, vperm l (λ k, ∃ lo hi, k = lo ++ p :: hi ∧ n = length lo ∧
       (L → Forall (λ x, le lt x p) lo ∧ Forall (le lt p) hi)) m)
    (vperm l (λ _, ¬ L) m) m.
Proof.
  intros Hl Hp. eapply wp_mono; [by apply (partition_spec less lt)| |done].
  intros n m' Hm'. eapply vperm_mono; [exact Hm'|done|]. intros k _. apply pivoted_less.
Qed.

Lemma partition_equal_spec osz i p l m :
  slice_of l m → l !! i = Some p →
  wp (partition (not_flipped less) ti osz i)
    (λ n, vperm l (λ k, ∃ lo hi, k = lo ++ p :: hi ∧ n = length lo ∧
       (L → Forall (λ x, le lt x p) lo ∧ Forall (le lt p) hi)) m)
    (vperm l (λ _, ¬ L) m) m.
Proof.
  intros Hl Hp.
  eapply wp_mono; [by apply (partition_spec (not_flipped less) (λ a b, negb (lt b a)))| |].
  - intros n m' Hm'. eapply vperm_mono; [exact Hm'|done|]. intros k _. apply pivoted_equal.
  - intros m' Hm'. eapply vperm_mono; [exact Hm'|done|]. intros k _ HnL HL.
    by apply HnL, lawful_not_flipped.
Qed.

(** The test against the ancestor pivot. *)
Lemma ancestor_decision_spec ap pivot_pos p l m (Q : bool → mem T → Prop) P :
  slice_of l m → l !! pivot_pos = Some p → above_pivot less lt ap l →
  (∀ b m', eqm m' m → (b = true → L → Forall (le lt p) l) → Q b m') →
  (∀ m', eqm m' m → ¬ L → P m') →
  wp (match ap with
      | Some q => x ← index pivot_pos; lt ← is_less less q x; mret (negb lt)
      | None => mret false
      end) Q P m.
Proof. apply equal_decision_spec. done. Qed.

Lemma unstable_quicksort_usorts fuel ap limit l m :
  slice_of l m → length l < fuel → above_pivot less lt ap l →
  usorts (unstable_quicksort less ti fuel ap limit) l m.
Proof.
  revert ap limit l m. induction fuel as [|fuel IH]; intros ap limit l m Hl Hf Hap; [lia|].
  unfold NetworkSpec.usorts. cbn [unstable_quicksort]. eapply wp_bind, wp_len_v; [done|].
  destruct (Nat.leb_spec (length l) (unstable_small_sort_threshold ti)) as [|Hth].
  { by apply unstable_small_sort_usorts. }
  assert (16 ≤ unstable_small_sort_threshold ti) as Hth16.
  { unfold unstable_small_sort_threshold, unstable_freeze_small_sort_threshold,
      SMALL_SORT_NETWORK_THRESHOLD, SMALL_SORT_GENERAL_THRESHOLD, SMALL_SORT_FALLBACK_THRESHOLD.
    repeat case_match; lia. }
  destruct (Nat.eqb_spec limit 0); [by apply heapsort_usorts|]. cbv zeta.
  assert (∀ m', eqm m' m → ¬ L → vperm l (λ _, ¬ L) m m') as Hpanic.
  { intros m' Hm' ?. apply vperm_refl; [by eapply slice_eqm|by apply (size_eqm BS)|done]. }
  apply wp_bind. eapply wp_mono; [apply (choose_pivot_spec less lt l); [done|lia]| |].
  2:{ intros m' [??]. by apply Hpanic. }
  intros pivot_pos m1 [Hm1 Hpos]. destruct (lookup_lt_is_Some_2 l pivot_pos Hpos) as [p Hp].
  apply (slice_eqm _ _ _ Hm1) in Hl as Hl1.
  apply wp_bind. eapply ancestor_decision_spec; [done..| |].
  2:{ intros m2 Hm2 ?. apply Hpanic; [by etrans|done]. }
  intros b m2 Hm2 Hb. apply (slice_eqm _ _ _ Hm2) in Hl1 as Hl2.
  assert (size BS m2 = size BS m) as HS2
    by by rewrite (size_eqm BS _ _ Hm2), (size_eqm BS _ _ Hm1).
  assert (∀ m', vperm l (λ _, ¬ L) m2 m' → vperm l (λ _, ¬ L) m m') as Hpanic2.
  { intros m' Hm'. by eapply vperm_mono. }
  assert (∀ lo hi, lo ++ p :: hi ≡ₚ l → length lo + length hi + 1 = length l) as Hlen.
  { intros lo hi <-. rewrite length_app. simpl. lia. }
  destruct b.
  - apply wp_bind. eapply wp_mono; [by apply partition_equal_spec| |exact Hpanic2].
    intros n0 m3 (k&Hk&HS3&Hpk&lo&hi&->&->&HL). specialize (Hlen lo hi Hpk).
    eapply (wp_sub_vperm _ _ _ (lo ++ [p]) hi []);
      [by rewrite app_nil_r, <- app_assoc|by rewrite length_app|lia| | |].
    { intros t Ht HSt. apply IH; [done|lia|done]. }
    + intros [] r m4. rewrite app_nil_r, <- app_assoc. simpl. intros Hm4 HS4 Hpr Hs.
      exists (lo ++ p :: r). split_and!; [done|congruence|by rewrite Hpr|]. intros HL'.
      destruct (HL HL') as [Hlo Hhi]. specialize (Hb eq_refl HL'). rewrite <- Hpk in Hb.
      apply Forall_app in Hb as [Hb _].
      apply sorted_pivot; [by eapply sorted_between|by apply Hs|done|by rewrite Hpr].
    + intros r m4. rewrite app_nil_r, <- app_assoc. simpl. intros Hm4 HS4 Hpr HnL.
      exists (lo ++ p :: r). split_and!; [done|congruence|by rewrite Hpr|done].
  - apply wp_bind. eapply wp_mono; [by apply partition_less_spec| |exact Hpanic2].
    intros n0 m3 (k&Hk&HS3&Hpk&lo&hi&->&->&HL). specialize (Hlen lo hi Hpk).
    apply wp_bind, wp_assume; [apply Nat.ltb_lt; lia|].
    apply wp_bind. eapply wp_index.
    { unfold slice_of in Hk. rewrite Hk, list_lookup_fmap, lookup_mid by done. done. }
    assert (above_pivot less lt ap lo) as Hap'.
    { intros q Hq HL'. specialize (Hap q Hq HL'). rewrite <- Hpk in Hap.
      by apply Forall_app in Hap as [? _]. }
    apply wp_bind. eapply (wp_sub_vperm _ _ _ [] lo (p :: hi)); [done|done|done| | |].
    { intros t Ht HSt. apply IH; [done|lia|done]. }
    2:{ intros r m4 Hm4 HS4 Hpr HnL. exists (r ++ p :: hi).
        split_and!; [done|congruence|by rewrite Hpr|done]. }
    intros [] r1 m4 Hm4 HS4 Hpr1 Hs1. simpl in Hm4. rewrite (cons_middle p), app_assoc in Hm4.
    eapply (wp_sub_vperm _ _ _ (r1 ++ [p]) hi []);
      [by rewrite app_nil_r|by rewrite length_app, Hpr1|lia| | |].
    { intros t Ht HSt. apply IH; [done|lia|]. intros q [= <-] HL'. by apply HL. }
    + intros [] r2 m5. rewrite app_nil_r, <- app_assoc. simpl. intros Hm5 HS5 Hpr2 Hs2.
      exists (r1 ++ p :: r2). split_and!; [done|congruence|by rewrite Hpr1, Hpr2|]. intros HL'.
      destruct (HL HL') as [Hlo Hhi].
      apply sorted_pivot; [by apply Hs1|by apply Hs2|by rewrite Hpr1|by rewrite Hpr2].
    + intros r2 m5. rewrite app_nil_r, <- app_assoc. simpl. intros Hm5 HS5 Hpr2 HnL.
      exists (r1 ++ p :: r2). split_and!; [done|congruence|by rewrite Hpr1, Hpr2|done].
Qed.

Lemma desc_reverse_sorted l : StronglySorted (λ a b, lt b a = true) l → sorted lt (reverse l).
Proof. intros Hl. rewrite <- (isort_reverse_desc lt l Hl). by apply isort_sorted. Qed.

Lemma ipnsort_usorts l m : slice_of l m → usorts (ipnsort less ti) l m.
Proof.
  intros Hl. unfold NetworkSpec.usorts, ipnsort. eapply wp_bind, wp_len_v; [done|].
  apply wp_bind. eapply wp_mono; [by apply (find_existing_run_spec less lt l)| |].
  2:{ intros m' [Hm' ?]. apply vperm_refl; [by eapply slice_eqm|by apply (size_eqm BS)|done]. }
  intros [n desc] m1 [Hm1 (Hn&_&_&Hrun)]. apply (slice_eqm _ _ _ Hm1) in Hl as Hl1.
  apply wp_bind, wp_assume; [by apply Nat.leb_le|].
  destruct (Nat.eqb_spec n (length l)) as [->|].
  - rewrite firstn_all in Hrun. destruct desc.
    + eapply reverse_slice_spec; [done|]. intros m2 Hm2 HS2. exists (reverse l).
      split_and!; [done| |by apply reverse_Permutation|].
      * unfold size. simpl. rewrite HS2. by destruct Hm1 as [_ ->].
      * intros HL. by apply desc_reverse_sorted, Hrun.
    + apply wp_ret, vperm_refl; [done|by apply (size_eqm BS)|exact Hrun].
  - eapply wp_mono; [apply unstable_quicksort_usorts; [done|lia|done]| |].
    + intros [] m2 Hm2. eapply vperm_mono; [exact Hm2|by apply (size_eqm BS)|done].
    + intros m2 Hm2. eapply vperm_mono; [exact Hm2|by apply (size_eqm BS)|done].
Qed.

Lemma unstable_sort_usorts l m :
  slice_of l m → size_of ti ≠ 0 → usorts (unstable_sort less ti) l m.
Proof.
  intros Hl Hty. unfold NetworkSpec.usorts, unstable_sort.
  destruct (Nat.eqb_spec (size_of ti) 0); [done|]. eapply wp_bind, wp_len_v; [done|].
  destruct (Nat.ltb_spec (length l) 2).
  { apply wp_ret, vperm_refl; [done..|]. intros _. apply sorted_short. lia. }
  destruct (Nat.leb_spec (length l) MAX_LEN_ALWAYS_INSERTION_SORT).
  - apply sorts_usorts; [done|]. apply insertion_sort_sorts; [done|done|lia|].
    intros _. apply sorted_short. rewrite length_take. lia.
  - by apply ipnsort_usorts.
Qed.

Lemma unstable_sort_for_size_usorts l m :
  slice_of l m → size_of ti ≠ 0 → usorts (unstable_sort_for_size less ti) l m.
Proof.
  intros Hl Hty. unfold NetworkSpec.usorts, unstable_sort_for_size.
  destruct (Nat.eqb_spec (size_of ti) 0); [done|]. eapply wp_bind, wp_len_v; [done|].
  destruct (Nat.ltb_spec (length l) 2).
  { apply wp_ret, vperm_refl; [done..|]. intros _. apply sorted_short. lia. }
  by apply heapsort_usorts.
Qed.
End quicksort.
