(* ===== verification/SelectSpec.v ===== *)
(** Selection of the element at an index ([select.rs]). *)

From S2P Require Import Prelude.
From S2P Require Import Order.
From S2P Require Import SortMem.
From S2P Require Import SmallSort.
From S2P Require Import SmallSortSpec.
From S2P Require Import NetworkSpec.
From S2P Require Import Pivot.
From S2P Require Import Stable.
From S2P Require Import DriftSpec.
From S2P Require Import StableSpec.
From S2P Require Import Unstable.
From S2P Require Import UpartSpec.
From S2P Require Import UnstableSpec.

Section select.
Context {T : Type} (less : comparator T) (lt : T → T → bool) `{!StrictWeak lt}.
Context (ti : ty_info) (osz : bool).
Implicit Types (m : mem T) (l lo hi : list T).
Let L : Prop := lawful less lt.

(** The element at [i] has the place it has in sorted order. *)
Definition selected (i : nat) (k : list T) : Prop :=
  ∃ lo x hi, k = lo ++ x :: hi ∧ length lo = i ∧
    Forall (λ y, le lt y x) lo ∧ Forall (le lt x) hi.

Definition selects (q : prog (mem T) ()) (i : nat) l m : Prop :=
  wp q (λ _, vperm l (λ k, L → selected i k) m) (vperm l (λ _, ¬ L) m) m.

Lemma sorted_selected k i : sorted lt k → i < length k → selected i k.
Proof.
  intros Hs Hi. destruct (list_split_mid k i Hi) as (lo&x&hi&->&Hlo).
  apply sorted_app in Hs as (_&Hs&Hle). apply sorted_cons_inv in Hs as [_ Hhi].
  exists lo, x, hi. split_and!; [done..| |done].
  eapply Forall_impl; [exact Hle|]. intros y Hy. by apply Forall_cons in Hy as [? _].
Qed.

Lemma max_selected k x : k ≠ [] → k !! (length k - 1) = Some x →
  Forall (λ y, le lt y x) k → selected (length k - 1) k.
Proof.
  intros Hne Hx Hall. destruct (list_snoc_inv k Hne) as (lo&z&->).
  rewrite length_app in *. simpl in *.
  replace (length lo + 1 - 1) with (length lo) in * by lia.
  rewrite lookup_mid in Hx by done. injection Hx as ->. apply Forall_app in Hall as [? _].
  by exists lo, x, [].
Qed.

Lemma min_selected k x : k !! 0 = Some x → Forall (le lt x) k → selected 0 k.
Proof.
  intros Hx Hall. destruct k as [|z hi]; [done|]. injection Hx as ->.
  apply Forall_cons in Hall as [_ ?]. by exists [], x, hi.
Qed.

(** A selection in the left or the right part of a partition. *)
Lemma selected_left i lo p hi :
  selected i lo → Forall (λ y, le lt y p) lo → Forall (le lt p) hi → selected i (lo ++ p :: hi).
Proof.
  intros (lo1&x&lo2&->&<-&H1&H2) Hlo Hhi. apply Forall_app in Hlo as [_ [Hx Hlo2]%Forall_cons].
  exists lo1, x, (lo2 ++ p :: hi). rewrite <- app_assoc. split_and!; [done..|].
  apply Forall_app. split; [done|]. constructor; [done|].
  eapply Forall_impl; [exact Hhi|]. intros y Hy. cbn beta in *. by transitivity p.
Qed.

Lemma selected_right i lo p hi :
  selected i hi → Forall (λ y, le lt y p) lo → Forall (le lt p) hi →
  selected (length lo + 1 + i) (lo ++ p :: hi).
Proof.
  intros (hi1&x&hi2&->&<-&H1&H2) Hlo Hhi. apply Forall_app in Hhi as [Hhi1 [Hx _]%Forall_cons].
  exists (lo ++ p :: hi1), x, hi2. rewrite <- app_assoc, length_app. simpl.
  split_and!; [done|lia| |done]. apply Forall_app. split; [|by constructor].
  eapply Forall_impl; [exact Hlo|]. intros y Hy. cbn beta in *. by transitivity p.
Qed.

Lemma selected_pivot lo p hi :
  Forall (λ y, le lt y p) lo → Forall (le lt p) hi → selected (length lo) (lo ++ p :: hi).
Proof. intros. by exists lo, p, hi. Qed.

(** ** Minimum and maximum *)
Lemma reduce_index_spec (take_t : T → T → prog (mem T) bool) (better : T → T → Prop)
    `{!PreOrder better} l m :
  slice_of l m → l ≠ [] →
  (∀ x t m (Q : bool → mem T → Prop) P,
     (∀ (b : bool) m', eqm m' m → (L → if b then better t x else better x t) → Q b m') →
     (∀ m', eqm m' m → ¬ L → P m') → wp (take_t x t) Q P m) →
  pure_wp less lt (reduce_index take_t) (λ o, ∃ i x, o = Some i ∧ l !! i = Some x ∧
    (L → Forall (better x) l)) m.
Proof.
  intros Hl Hne Htake. unfold pure_wp, reduce_index. eapply wp_bind, wp_len_v; [done|].
  destruct (Nat.eqb_spec (length l) 0) as [H0|H0]; [by apply nil_length_inv in H0|].
  destruct l as [|x0 l0] eqn:Heq; [done|]. rewrite <- Heq in *. clear Hne.
  apply wp_bind. eapply wp_mono with (P := λ m', eqm m' m ∧ ¬ L);
    [apply (wp_for_fold (λ i acc m', eqm m' m ∧ ∃ x, l !! acc = Some x ∧
      (L → Forall (better x) (take i l))))| |done].
  - intros i acc m1 Hi [Hm1 (x&Hx&HL)].
    destruct (lookup_lt_is_Some_2 l i) as [t Ht]; [lia|].
    apply (slice_eqm _ _ _ Hm1) in Hl as Hl1.
    apply wp_bind. eapply wp_rd_v; [done..|]. apply wp_bind. eapply wp_rd_v; [done..|].
    apply wp_bind, Htake; [|intros m' Hm' ?; split; [by etrans|done]].
    intros b m2 Hm2 Hb. apply wp_ret. split; [by etrans|].
    exists (if b then t else x). split; [by destruct b|]. intros HL'.
    specialize (HL HL'). specialize (Hb HL').
    rewrite Nat.add_1_r, (take_S_r _ _ t) by done. apply Forall_app. destruct b.
    + split; [|by repeat constructor]. eapply Forall_impl; [exact HL|].
      intros y Hy. cbn beta in *. by transitivity x.
    + split; [done|by repeat constructor].
  - split; [done|]. exists x0. rewrite Heq. simpl. split; [done|]. intros _. by repeat constructor.
  - intros acc m1 [Hm1 (x&Hx&HL)]. apply wp_ret. split; [done|]. exists acc, x.
    split_and!; [done|done|]. intros HL'. specialize (HL HL').
    rewrite take_ge in HL by lia. done.
Qed.

Instance ge_preorder : PreOrder (λ x y, le lt y x).
Proof.
  split.
  - intros ?. apply le_refl. done.
  - intros u v w ??. by transitivity v.
Qed.

Lemma max_index_spec l m : slice_of l m → l ≠ [] →
  pure_wp less lt (max_index less) (λ o, ∃ i x, o = Some i ∧ l !! i = Some x ∧
    (L → Forall (λ y, le lt y x) l)) m.
Proof.
  intros Hl Hne. apply (reduce_index_spec _ (λ x y, le lt y x)); [done..|].
  intros x t m1 Q P HQ HP. apply (wp_cmp less lt); [|done]. intros b m2 Hm2 Hb.
  apply HQ; [done|]. intros HL. specialize (Hb HL). destruct b; [by apply lt_le|done].
Qed.

Lemma min_index_spec l m : slice_of l m → l ≠ [] →
  pure_wp less lt (min_index less) (λ o, ∃ i x, o = Some i ∧ l !! i = Some x ∧
    (L → Forall (le lt x) l)) m.
Proof.
  intros Hl Hne. apply (reduce_index_spec _ (le lt)); [done..|].
  intros x t m1 Q P HQ HP. apply (wp_cmp less lt); [|done]. intros b m2 Hm2 Hb.
  apply HQ; [done|]. intros HL. specialize (Hb HL). destruct b; [by apply lt_le|done].
Qed.

(** Both ends: the extremum is found and swapped into place. *)
Lemma extremum_selects (find : prog (mem T) (option nat)) (R : T → T → Prop) i l m :
  slice_of l m → i < length l →
  pure_wp less lt find (λ o, ∃ j x, o = Some j ∧ l !! j = Some x ∧ (L → Forall (R x) l)) m →
  (∀ k x, length k = length l → k !! i = Some x → Forall (R x) k → selected i k) →
  selects (o ← find; j ← unwrap o; swap j i) i l m.
Proof.
  intros Hl Hi Hfind Hsel. apply wp_bind. eapply wp_mono; [exact Hfind| |].
  2:{ intros m1 [Hm1 ?]. apply vperm_refl; [by eapply slice_eqm|by apply (size_eqm BS)|done]. }
  intros o m1 [Hm1 (j&x&->&Hx&HL)]. apply wp_bind, wp_ret.
  destruct (lookup_lt_is_Some_2 l i) as [y Hy]; [done|].
  eapply swap_spec; [by eapply slice_eqm|done|done|]. intros m2 Hm2 HS2 _.
  assert (<[i := x]> (<[j := y]> l) ≡ₚ l) as Hp by by apply exchange_perm.
  exists (<[i := x]> (<[j := y]> l)). split_and!; [done| |done|].
  - unfold size. simpl. rewrite HS2. by destruct Hm1 as [_ ->].
  - intros HL'. apply (Hsel _ x); [by rewrite Hp| |].
    + apply list_lookup_insert_eq. by rewrite length_insert.
    + rewrite Hp. by apply HL.
Qed.

Lemma max_selects l m : slice_of l m → l ≠ [] →
  selects (o ← max_index less; j ← unwrap o; swap j (length l - 1)) (length l - 1) l m.
Proof.
  intros Hl Hne. assert (1 ≤ length l) by (destruct l; [done|simpl; lia]).
  apply (extremum_selects _ (λ x y, le lt y x)); [done|lia|by apply max_index_spec|].
  intros k x <- Hx Hall. apply (max_selected k x); [by intros ->; simpl in *|done|done].
Qed.

Lemma min_selects l m : slice_of l m → l ≠ [] →
  selects (o ← min_index less; j ← unwrap o; swap j 0) 0 l m.
Proof.
  intros Hl Hne. assert (1 ≤ length l) by (destruct l; [done|simpl; lia]).
  apply (extremum_selects _ (le lt)); [done|lia|by apply min_index_spec|].
  intros k x _ Hx Hall. by apply (min_selected k x).
Qed.

(** ** Tukey's ninther only exchanges elements *)
Lemma less_at_spec i j l m :
  slice_of l m → i < length l → j < length l →
  pure_wp less lt (less_at less i j) (λ _, True) m.
Proof.
  intros Hl [x Hx]%lookup_lt_is_Some_2 [y Hy]%lookup_lt_is_Some_2. unfold pure_wp, less_at.
  assert (∀ k z, l !! k = Some z → mV m !! k = Some (Some z)) as Hget.
  { intros k z Hz. unfold slice_of in Hl. by rewrite Hl, list_lookup_fmap, Hz. }
  apply wp_bind. eapply wp_index; [by apply Hget|].
  apply wp_bind. eapply wp_index; [by apply Hget|]. by apply (wp_cmp less lt).
Qed.

Lemma pure_bind {A B} (q : prog (mem T) A) (k : A → prog (mem T) B) F (G : B → Prop) m :
  pure_wp less lt q F m → (∀ a m', eqm m' m → F a → pure_wp less lt (k a) G m') →
  pure_wp less lt (x ← q; k x) G m.
Proof.
  intros Hq Hk. apply wp_bind. eapply wp_mono; [exact Hq| |done].
  intros a m' [Hm' HF]. apply pure_wp_eqm; [done|]. by apply Hk.
Qed.

Lemma pure_ret {A} (a : A) (G : A → Prop) m : G a → pure_wp less lt (mret a) G m.
Proof. intros. by apply wp_ret. Qed.

Lemma median_idx_spec a b c l m :
  slice_of l m → a < length l → b < length l → c < length l →
  pure_wp less lt (median_idx less a b c) (λ i, i < length l) m.
Proof.
  intros Hl Ha Hb Hc. unfold median_idx.
  eapply pure_bind; [by apply (less_at_spec c a l)|]. intros x m1 Hm1 _.
  assert (∃ a' c', (if x : bool then (c, a) else (a, c)) = (a', c') ∧ a' < length l ∧ c' < length l)
    as (a'&c'&->&?&?) by (destruct x; eauto).
  apply (slice_eqm _ _ _ Hm1) in Hl as Hl1.
  eapply pure_bind; [by apply (less_at_spec c' b l)|]. intros y m2 Hm2 _.
  destruct y; [by apply pure_ret|]. apply (slice_eqm _ _ _ Hm2) in Hl1 as Hl2.
  eapply pure_bind; [by apply (less_at_spec b a' l)|]. intros z m3 Hm3 _.
  destruct z; by apply pure_ret.
Qed.

(** A routine that only permutes. *)
Definition permuting (q : prog (mem T) ()) l m : Prop :=
  wp q (λ _, vperm l (λ _, True) m) (vperm l (λ _, ¬ L) m) m.

Lemma pure_permuting {A} (q : prog (mem T) A) (k : A → prog (mem T) ()) F l m :
  slice_of l m → pure_wp less lt q F m →
  (∀ a m', eqm m' m → slice_of l m' → F a → permuting (k a) l m') →
  permuting (x ← q; k x) l m.
Proof.
  intros Hl Hq Hk. apply wp_bind. eapply wp_mono; [exact Hq| |].
  - intros a m' [Hm' HF]. eapply wp_mono; [apply Hk; [done|by eapply slice_eqm|done]| |].
    + intros [] m'' H. eapply vperm_mono; [exact H|by apply (size_eqm BS)|done].
    + intros m'' H. eapply vperm_mono; [exact H|by apply (size_eqm BS)|done].
  - intros m' [Hm' ?]. apply vperm_refl; [by eapply slice_eqm|by apply (size_eqm BS)|done].
Qed.

Lemma swap_permuting i j l m :
  slice_of l m → i < length l → j < length l → permuting (swap i j) l m.
Proof.
  intros Hl [x Hx]%lookup_lt_is_Some_2 [y Hy]%lookup_lt_is_Some_2.
  eapply swap_spec; [done..|]. intros m' Hm' HS' _. eexists.
  split_and!; [done|unfold size; simpl; congruence|by apply exchange_perm|done].
Qed.

Lemma ret_permuting l m : slice_of l m → permuting (mret ()) l m.
Proof. intros. by apply wp_ret, vperm_refl. Qed.

Lemma ninther_permuting a b c d e f g h i l m :
  slice_of l m → Forall (λ j, j < length l) [a; b; c; d; e; f; g; h; i] →
  permuting (ninther less a b c d e f g h i) l m.
Proof.
  intros Hl. rewrite !Forall_cons. intros (Ha&Hb&Hc&Hd&He&Hf&Hg&Hh&Hi&_). unfold ninther.
  eapply pure_permuting; [done|by apply (median_idx_spec a b c l)|]. clear b Hb.
  intros b m1 _ Hl1 Hb.
  eapply pure_permuting; [done|by apply (median_idx_spec g h i l)|]. clear h Hh.
  intros h m2 _ Hl2 Hh.
  eapply pure_permuting; [done|by apply (less_at_spec h b l)|]. intros x1 m3 _ Hl3 _.
  assert (∃ b' h', (if x1 : bool then (h, b) else (b, h)) = (b', h') ∧ b' < length l ∧ h' < length l)
    as (b'&h'&->&Hb'&Hh') by (destruct x1; eauto).
  eapply pure_permuting; [done|by apply (less_at_spec f d l)|]. intros x2 m4 _ Hl4 _.
  assert (∃ d' f', (if x2 : bool then (f, d) else (d, f)) = (d', f') ∧ d' < length l ∧ f' < length l)
    as (d'&f'&->&Hd'&Hf') by (destruct x2; eauto).
  eapply pure_permuting; [done|by apply (less_at_spec e d' l)|]. intros x3 m5 _ Hl5 _.
  eapply (pure_permuting _ _ (λ o, match o with Some j => j < length l | None => True end)); [done| |].
  { destruct x3; [by apply pure_ret|].
    eapply pure_bind; [by apply (less_at_spec f' e l)|]. intros x4 m6 _ _.
    destruct x4; by apply pure_ret. }
  intros o m6 _ Hl6 Ho. destruct o as [dd|].
  - eapply pure_permuting; [done|by apply (less_at_spec dd b' l)|]. intros x5 m7 _ Hl7 _.
    eapply (pure_permuting _ _ (λ j, j < length l)); [done| |].
    { destruct x5; [by apply pure_ret|].
      eapply pure_bind; [by apply (less_at_spec h' dd l)|]. intros x6 m8 _ _.
      destruct x6; by apply pure_ret. }
    intros j m8 _ Hl8 Hj. by apply swap_permuting.
  - eapply pure_permuting; [done|by apply (less_at_spec e b' l)|]. intros x5 m7 _ Hl7 _.
    destruct x5; [by apply swap_permuting|].
    eapply pure_permuting; [done|by apply (less_at_spec h' e l)|]. intros x6 m8 _ Hl8 _.
    destruct x6; [by apply swap_permuting|by apply ret_permuting].
Qed.

(** ** The median of the ninthers *)
(** A sequence: the second routine starts from some permutation. *)
Lemma vperm_trans l l1 (F G : list T → Prop) m m1 m2 :
  slice_of l1 m1 → size BS m1 = size BS m → l1 ≡ₚ l → vperm l1 F m1 m2 →
  (∀ k, F k → G k) → vperm l G m m2.
Proof.
  intros ? HS Hp (k&?&?&?&?) HG. exists k. split_and!; [done|congruence|by etrans|auto].
Qed.

Lemma permuting_bind {A} (q : prog (mem T) ()) (k : prog (mem T) A) (F : A → list T → Prop) l m :
  permuting q l m →
  (∀ l' m', slice_of l' m' → l' ≡ₚ l → wp k (λ a, vperm l' (F a) m') (vperm l' (λ _, ¬ L) m') m') →
  wp (_ ← q; k) (λ a, vperm l (F a) m) (vperm l (λ _, ¬ L) m) m.
Proof.
  intros Hq Hk. apply wp_bind. eapply wp_mono; [exact Hq| |done].
  intros [] m' (l'&Hl'&HS&Hp&_). eapply wp_mono; [by apply Hk| |].
  - intros a m'' H. eapply vperm_trans; [exact Hl'|exact HS|exact Hp|exact H|done].
  - intros m'' H. eapply vperm_trans; [exact Hl'|exact HS|exact Hp|exact H|done].
Qed.

(** A loop over triples of indices, every round of which only permutes. *)
Lemma permuting_for n i0 (body : nat → nat * nat → prog (mem T) (nat * nat)) a b l m :
  slice_of l m →
  (∀ j l' m', j < n → slice_of l' m' → length l' = length l →
     wp (body (i0 + j) (a + 3 * j, b + 3 * j))
       (λ r m2, r = (a + 3 * (j + 1), b + 3 * (j + 1)) ∧ vperm l' (λ _, True) m' m2)
       (vperm l' (λ _, ¬ L) m') m') →
  wp (for_fold n i0 body (a, b)) (λ _, vperm l (λ _, True) m) (vperm l (λ _, ¬ L) m) m.
Proof.
  intros Hl Hbody.
  eapply wp_mono; [apply (wp_for_fold (λ i r m', i0 ≤ i ∧ r = (a + 3 * (i - i0), b + 3 * (i - i0)) ∧
    vperm l (λ _, True) m m') (vperm l (λ _, ¬ L) m))| |done].
  - intros i r m1 Hi (_&->&l1&Hl1&HS&Hp&_).
    replace i with (i0 + (i - i0)) at 1 by lia. eapply wp_mono.
    { apply (Hbody (i - i0) l1); [lia|done|by rewrite Hp]. }
    + intros r m2 (->&H). split; [lia|]. split; [f_equal; lia|]. eapply vperm_trans; [exact Hl1|exact HS|exact Hp|exact H|done].
    + intros m2 H. eapply vperm_trans; [exact Hl1|exact HS|exact Hp|exact H|done].
  - split; [lia|]. split; [f_equal; lia|by apply vperm_refl].
  - intros r m2 (_&_&Hm2). done.
Qed.

Definition mm_ok (mm : nat → prog (mem T) ()) (n : nat) : Prop :=
  ∀ k l m, slice_of l m → k < length l → length l < n → permuting (mm k) l m.

Lemma median_of_ninthers_spec mm l m :
  slice_of l m → 16 < length l → mm_ok mm (length l) →
  wp (median_of_ninthers less ti osz mm)
    (λ n, vperm l (λ k, ∃ lo p hi, k = lo ++ p :: hi ∧ n = length lo ∧
       (L → Forall (λ x, le lt x p) lo ∧ Forall (le lt p) hi)) m)
    (vperm l (λ _, ¬ L) m) m.
Proof.
  intros Hl Hlen Hmm. unfold median_of_ninthers. eapply wp_bind, wp_len_v; [done|].
  set (frac := if (_ <=? 1024)%Z then _ else _).
  assert (1 ≤ frac ∧ 12 * frac ≤ length l) as [Hf1 Hf2].
  { unfold frac. repeat case_bool; dlia. }
  clearbody frac. cbv zeta.
  apply wp_bind, wp_usub; [dlia|]. apply wp_bind, wp_usub; [dlia|].
  set (pivot := frac / 2). set (lo := length l / 2 - pivot).
  set (gap := (length l - 9 * frac) / 4).
  assert (pivot < frac ∧ 4 * frac + gap ≤ lo ∧ lo + 4 * frac + gap ≤ length l) as (?&?&?)
    by (unfold lo, gap, pivot; dlia).
  clearbody pivot lo gap. apply wp_bind, wp_usub; [lia|]. apply wp_bind, wp_usub; [lia|].
  apply wp_bind. replace (frac + lo - lo) with frac by lia.
  eapply wp_mono; [apply (permuting_for frac lo); [done|]| |done].
  { intros j l1 m1 Hj Hl1 Hlen1. apply wp_bind, wp_usub; [lia|]. apply wp_bind.
    eapply wp_mono; [apply (ninther_permuting _ _ _ _ _ _ _ _ _ l1); [done|]| |done].
    { rewrite Hlen1. repeat apply Forall_cons_2; try lia. done. }
    intros [] m2 Hm2. apply wp_ret. split; [f_equal; lia|done]. }
  intros r m1 (l1&Hl1&HS1&Hp1&_). assert (length l1 = length l) as Hlen1 by by rewrite Hp1.
  destruct (list_split3 l1 lo frac) as (k1&k2&k3&->&Hk1&Hk2); [lia|].
  apply wp_bind. eapply (wp_sub_vperm _ _ _ k1 k2 k3 (λ _ _, True)); [done|done|lia| | |].
  { intros t Ht _. apply Hmm; [done|lia|lia]. }
  2:{ intros k m2 Hk HS2 Hp2 HnL. exists (k1 ++ k ++ k3).
      split_and!; [done|congruence|by rewrite Hp2|done]. }
  intros [] k m2 Hk HS2 Hp2 _.
  assert (length (k1 ++ k ++ k3) = length l) as Hlen2 by by rewrite Hp2.
  destruct (lookup_lt_is_Some_2 (k1 ++ k ++ k3) (lo + pivot)) as [p Hp]; [lia|].
  eapply wp_mono; [by eapply (partition_less_spec less lt ti osz)| |].
  - intros n m3 Hm3. eapply vperm_trans; [done|congruence|by rewrite Hp2|exact Hm3|].
    intros k' (u&v&->&->&HL). by exists u, p, v.
  - intros m3 Hm3. eapply vperm_trans; [done|congruence|by rewrite Hp2|exact Hm3|done].
Qed.

(** ** [median_of_medians] *)
Lemma insertion_selects i l m :
  slice_of l m → i < length l →
  selects (if 2 <=? length l then insertion_sort_shift_left less 1 else mret ()) i l m.
Proof.
  intros Hl Hi. destruct (Nat.leb_spec 2 (length l)).
  - assert (sorts less lt (insertion_sort_shift_left less 1) l m) as Hsort.
    { apply insertion_sort_sorts; [done|done|lia|].
      intros _. apply sorted_short. rewrite length_take. lia. }
    eapply wp_mono; [exact Hsort| |done].
    intros [] m' (k&?&?&Hp&Hs). exists k. split_and!; [done..|]. intros HL.
    apply sorted_selected; [|by rewrite Hp]. rewrite (Hs HL). by apply isort_sorted.
  - apply wp_ret, vperm_refl; [done..|]. intros _.
    apply sorted_selected; [by apply sorted_short; lia|done].
Qed.

Lemma selects_permuting q i l m : selects q i l m → permuting q l m.
Proof.
  intros Hq. eapply wp_mono; [exact Hq| |done].
  intros [] m' (k&?&?&?&?). by exists k.
Qed.

(** A selection in a part of a partitioned slice. *)
Lemma selects_left q i lo p hi l m0 m :
  slice_of (lo ++ p :: hi) m → size BS m = size BS m0 → lo ++ p :: hi ≡ₚ l →
  (L → Forall (λ x, le lt x p) lo ∧ Forall (le lt p) hi) →
  (∀ t, slice_of lo t → size BS t = size BS m → selects q i lo t) →
  wp (sub_slice 0 (length lo) q) (λ _, vperm l (λ k, L → selected i k) m0)
    (vperm l (λ _, ¬ L) m0) m.
Proof.
  intros Hk HS Hp HL Hq. eapply (wp_sub_vperm _ _ _ [] lo (p :: hi)); [done|done|done|exact Hq| |].
  - intros [] r m' Hm' HS' Hpr Hs. exists (r ++ p :: hi).
    split_and!; [done|congruence|by rewrite Hpr|]. intros HL'. destruct (HL HL').
    apply selected_left; [by apply Hs|by rewrite Hpr|done].
  - intros r m' Hm' HS' Hpr HnL. exists (r ++ p :: hi).
    split_and!; [done|congruence|by rewrite Hpr|done].
Qed.

Lemma selects_right q i n lo p hi l m0 m :
  slice_of (lo ++ p :: hi) m → size BS m = size BS m0 → lo ++ p :: hi ≡ₚ l → n = length l →
  (L → Forall (λ x, le lt x p) lo ∧ Forall (le lt p) hi) →
  length lo < i →
  (∀ t, slice_of hi t → size BS t = size BS m → selects q (i - (length lo + 1)) hi t) →
  wp (sub_slice (length lo + 1) n q) (λ _, vperm l (λ k, L → selected i k) m0)
    (vperm l (λ _, ¬ L) m0) m.
Proof.
  intros Hk HS Hp -> HL Hi Hq.
  assert (length l = length lo + 1 + length hi) as Hlen
    by (rewrite <- Hp, length_app; simpl; lia).
  eapply (wp_sub_vperm _ _ _ (lo ++ [p]) hi []);
    [by rewrite app_nil_r, <- app_assoc|by rewrite length_app|lia|exact Hq| |];
    [intros [] r m'|intros r m']; rewrite app_nil_r, <- app_assoc; simpl; intros Hm' HS' Hpr Hs;
    exists (lo ++ p :: r); (split_and!; [done|congruence|by rewrite <- Hp, Hpr|]); [|done].
  intros HL'. destruct (HL HL').
  replace i with (length lo + 1 + (i - (length lo + 1))) by lia.
  apply selected_right; [by apply Hs|done|by rewrite Hpr].
Qed.

Lemma median_of_medians_loop_selects fuel k l m :
  slice_of l m → k < length l → length l ≤ fuel → size_of ti ≠ 0 →
  selects (median_of_medians_loop less ti osz fuel k) k l m.
Proof.
  revert k l m. induction fuel as [|fuel IH]; intros k l m Hl Hk Hf Hty; [lia|].
  unfold selects. cbn [median_of_medians_loop]. eapply wp_bind, wp_len_v; [done|].
  assert (l ≠ []) as Hne by by intros ->; simpl in *; lia.
  unfold INSERTION_SORT_THRESHOLD. destruct (Nat.leb_spec (length l) 16).
  { by apply insertion_selects. }
  destruct (Nat.eqb_spec k (length l - 1)) as [->|]; [by apply max_selects|].
  destruct (Nat.eqb_spec k 0) as [->|]; [by apply min_selects|].
  apply wp_bind. eapply wp_mono; [apply (median_of_ninthers_spec _ l); [done|done|]| |done].
  { intros j k1 t Ht Hj Hlt. unfold permuting, median_of_medians_enter.
    eapply wp_bind, wp_len_v; [done|]. apply wp_bind, wp_assert; [by apply Nat.ltb_lt|].
    apply wp_bind, wp_assert; [by destruct (Nat.eqb_spec (size_of ti) 0)|].
    apply (selects_permuting _ j), IH; [done|done|lia|done]. }
  intros mid m1 (k1&Hk1&HS1&Hp1&lo&p&hi&->&->&HL).
  assert (length lo + length hi + 1 = length l) as Hlen.
  { rewrite <- Hp1, length_app. simpl. lia. }
  destruct (Nat.eqb_spec (length lo) k) as [<-|].
  { apply wp_ret. exists (lo ++ p :: hi). split_and!; [done..|]. intros HL'.
    destruct (HL HL'). by apply selected_pivot. }
  destruct (Nat.ltb_spec k (length lo)).
  - eapply selects_left; [done..|]. intros t Ht _. apply IH; [done..|lia|done].
  - eapply selects_right; [done..|lia|]. intros t Ht _. apply IH; [done|lia|lia|done].
Qed.

Lemma median_of_medians_selects fuel k l m :
  slice_of l m → k < length l → length l ≤ fuel → size_of ti ≠ 0 →
  selects (median_of_medians less ti osz fuel k) k l m.
Proof.
  intros Hl Hk Hf Hty. unfold selects, median_of_medians, median_of_medians_enter.
  eapply wp_bind, wp_len_v; [done|]. apply wp_bind, wp_assert; [by apply Nat.ltb_lt|].
  apply wp_bind, wp_assert; [by destruct (Nat.eqb_spec (size_of ti) 0)|].
  by apply median_of_medians_loop_selects.
Qed.

(** ** [partition_at_index] *)
Lemma selected_equal i lo p hi :
  i ≤ length lo → Forall (le lt p) (lo ++ p :: hi) → Forall (λ x, le lt x p) lo →
  selected i (lo ++ p :: hi).
Proof.
  intros Hi Hge Hle. rewrite (cons_middle p), app_assoc in *.
  apply Forall_app in Hge as [Hge Hhi].
  assert (Forall (λ x, le lt x p) (lo ++ [p])) as Hle'.
  { apply Forall_app. split; [done|]. constructor; [by apply le_refl|done]. }
  destruct (list_split_mid (lo ++ [p]) i) as (a&x&b&Heq&Ha); [rewrite length_app; simpl; lia|].
  rewrite Heq in *. apply Forall_app in Hge as [_ [Hx Hb]%Forall_cons].
  apply Forall_app in Hle' as [Hla [Hxp _]%Forall_cons].
  exists a, x, (b ++ hi). rewrite <- app_assoc. split_and!; [done|done| |].
  - eapply Forall_impl; [exact Hla|]. intros y Hy. cbn beta in *. by transitivity p.
  - apply Forall_app. split; (eapply Forall_impl; [eassumption|]);
      intros y Hy; cbn beta in *; by transitivity p.
Qed.

Lemma partition_at_index_loop_selects fuel limit i ap l m :
  slice_of l m → i < length l → length l ≤ fuel → size_of ti ≠ 0 → above_pivot less lt ap l →
  selects (partition_at_index_loop less ti osz fuel limit i ap) i l m.
Proof.
  revert limit i ap l m. induction fuel as [|fuel IH]; intros limit i ap l m Hl Hi Hf Hty Hap; [lia|].
  unfold selects. cbn [partition_at_index_loop]. eapply wp_bind, wp_len_v; [done|].
  unfold INSERTION_SORT_THRESHOLD. destruct (Nat.leb_spec (length l) 16).
  { by apply insertion_selects. }
  destruct (Nat.eqb_spec limit 0); [by apply median_of_medians_selects|]. cbv zeta.
  assert (∀ m', eqm m' m → ¬ L → vperm l (λ _, ¬ L) m m') as Hpanic.
  { intros m' Hm' ?. apply vperm_refl; [by eapply slice_eqm|by apply (size_eqm BS)|done]. }
  apply wp_bind. eapply wp_mono; [apply (choose_pivot_spec less lt l); [done|lia]| |].
  2:{ intros m' [??]. by apply Hpanic. }
  intros pivot_pos m1 [Hm1 Hpos]. destruct (lookup_lt_is_Some_2 l pivot_pos Hpos) as [p Hp].
  apply (slice_eqm _ _ _ Hm1) in Hl as Hl1.
  apply wp_bind. eapply ancestor_decision_spec; [done..| |].
  2:{ intros m2 Hm2 ?. apply Hpanic; [by etrans|done]. }
  intros b m2 Hm2 Hb. apply (slice_eqm _ _ _ Hm2) in Hl1 as Hl2.
  assert (size BS m2 = size BS m) as HS2
    by by rewrite (size_eqm BS _ _ Hm2), (size_eqm BS _ _ Hm1).
  assert (∀ m', vperm l (λ _, ¬ L) m2 m' → vperm l (λ _, ¬ L) m m') as Hpanic2.
  { intros m' Hm'. by eapply vperm_mono. }
  assert (∀ lo hi, lo ++ p :: hi ≡ₚ l → length lo + length hi + 1 = length l) as Hlen.
  { intros lo hi <-. rewrite length_app. simpl. lia. }
  destruct b; apply wp_bind.
  - eapply wp_mono; [by apply partition_equal_spec| |exact Hpanic2].
    intros n0 m3 (k&Hk&HS3&Hpk&lo&hi&->&->&HL). specialize (Hlen lo hi Hpk).
    destruct (Nat.ltb_spec i (length lo + 1)).
    { apply wp_ret. exists (lo ++ p :: hi). split_and!; [done|congruence|done|]. intros HL'.
      apply selected_equal; [lia|rewrite Hpk; by apply Hb|by apply HL]. }
    eapply selects_right; [done|congruence|done|done|done|lia|].
    intros t Ht _. apply IH; [done|lia|lia|done|]. by intros ?.
  - eapply wp_mono; [by apply partition_less_spec| |exact Hpanic2].
    intros n0 m3 (k&Hk&HS3&Hpk&lo&hi&->&->&HL). specialize (Hlen lo hi Hpk).
    apply wp_bind. eapply wp_index.
    { unfold slice_of in Hk. rewrite Hk, list_lookup_fmap, lookup_mid by done. done. }
    destruct (Nat.ltb_spec (length lo) i).
    { eapply selects_right; [done|congruence|done|done|done|lia|].
      replace (i - length lo - 1) with (i - (length lo + 1)) by lia.
      intros t Ht _. apply IH; [done|lia|lia|done|]. intros q [= <-] HL'. by apply HL. }
    destruct (Nat.ltb_spec i (length lo)).
    { eapply selects_left; [done|congruence|done|done|].
      intros t Ht _. apply IH; [done|lia|lia|done|].
      intros q Hq HL'. specialize (Hap q Hq HL'). rewrite <- Hpk in Hap.
      by apply Forall_app in Hap as [? _]. }
    apply wp_ret. exists (lo ++ p :: hi). split_and!; [done|congruence|done|]. intros HL'.
    replace i with (length lo) by lia. apply selected_pivot; by apply HL.
Qed.

Lemma partition_at_index_selects i l m :
  slice_of l m → size_of ti ≠ 0 →
  wp (partition_at_index less ti osz i)
    (λ r m', i < length l ∧ r = ((0, i), i, (i + 1, length l)) ∧
       vperm l (λ k, L → selected i k) m m')
    (vperm l (λ _, length l ≤ i ∨ ¬ L) m) m.
Proof.
  intros Hl Hty. unfold partition_at_index. eapply wp_bind, wp_len_v; [done|].
  destruct (Nat.leb_spec (length l) i).
  { apply wp_panic, vperm_refl; [done..|by left]. }
  assert (l ≠ []) as Hne by by intros ->; simpl in *; lia.
  apply wp_bind. eapply wp_mono with (Q := λ _, vperm l (λ k, L → selected i k) m)
    (P := vperm l (λ _, ¬ L) m); [|intros [] m' Hm'; by apply wp_ret|].
  2:{ intros m' Hm'. eapply vperm_mono; [exact Hm'|done|]. by right. }
  destruct (Nat.eqb_spec (size_of ti) 0); [done|].
  destruct (Nat.eqb_spec i (length l - 1)) as [->|]; [by apply max_selects|].
  destruct (Nat.eqb_spec i 0) as [->|]; [by apply min_selects|].
  pose proof (median_of_medians_selects (length l) i l m) as Hmm.
  pose proof (partition_at_index_loop_selects (length l) partition_at_index_limit i None l m) as Hp.
  destruct osz; [by apply Hmm|by apply Hp].
Qed.
End select.
