(* ===== verification/SortTheorems.v ===== *)
(** What the sorting and selection routines of [core::slice::sort] promise,
    stated on their results, with concrete runs. *)

From S2P Require Import Prelude.
From S2P Require Import Order.
From S2P Require Import SortMem.
From S2P Require Import SmallSort.
From S2P Require Import SmallSortSpec.
From S2P Require Import BidirSpec.
From S2P Require Import SmallGeneral.
From S2P Require Import NetworkSpec.
From S2P Require Import Pivot.
From S2P Require Import Stable.
From S2P Require Import MergeSpec.
From S2P Require Import PartitionSpec.
From S2P Require Import DriftSpec.
From S2P Require Import StableSpec.
From S2P Require Import Unstable.
From S2P Require Import UpartSpec.
From S2P Require Import HeapsortSpec.
From S2P Require Import UnstableSpec.
From S2P Require Import SelectSpec.

(** ** Statements *)

(** [k] is [l] in order, equal elements in the order they had. *)
Definition sorted_stably {T} (lt : T → T → bool) (l k : list T) : Prop :=
  sorted lt k ∧ k ≡ₚ l ∧ stable_eq lt k l.

(** The run of [p] ends in a normal return with value [a]; the slice is then [k],
    fully initialised, with [F k]. *)
Definition returns {T A} (p : prog (mem T) A) (m : mem T) (a : A) (F : list T → Prop) : Prop :=
  ∃ m' k, p m = Ret a m' ∧ slice_of k m' ∧ F k.

(** The run of [p] has no undefined behaviour, does not abort and does not
    diverge, and whether it returns or unwinds from a panic of the comparison,
    the slice then holds exactly the elements [l] it held, in some order: no
    element is lost or duplicated. *)
Definition panic_safe {T A} (p : prog (mem T) A) (l : list T) (m : mem T) : Prop :=
  match p m with
  | Ret _ m' | Panic m' => ∃ k, slice_of k m' ∧ k ≡ₚ l
  | Fault _ => False
  end.

#[export] Instance trivial_order {T} : StrictWeak (λ _ _ : T, false).
Proof. by split. Qed.

#[export] Instance nat_order : StrictWeak Nat.ltb.
Proof. split; intros *; rewrite ?Nat.ltb_lt, ?Nat.ltb_ge; lia. Qed.

(** Pairs ordered by their first component: equal keys can be told apart. *)
Definition key_lt (a b : nat * nat) : bool := a.1 <? b.1.
Definition key_less : comparator (nat * nat) := λ _ a b, Some (key_lt a b).

#[export] Instance key_order : StrictWeak key_lt.
Proof. split; intros *; unfold key_lt; rewrite ?Nat.ltb_lt, ?Nat.ltb_ge; lia. Qed.

#[export] Instance filter_proper {T} (f : T → bool) :
  Proper ((≡ₚ) ==> (≡ₚ)) (List.filter f).
Proof.
  induction 1; simpl; repeat case_match; eauto using perm_swap, perm_skip, perm_trans.
Qed.

Section derive.
Context {T : Type} (less : comparator T) (lt : T → T → bool) `{!StrictWeak lt}.

Lemma sorts_returns p l m :
  sorts less lt p l m → lawful less lt → returns p m () (sorted_stably lt l).
Proof.
  unfold sorts, wp, returns. intros Hp HL. destruct (p m) as [[] m'|m'|];
    [|by destruct Hp as (?&_&_&_&[])|done].
  destruct Hp as (k&?&_&_&Hk). rewrite (Hk HL) in *. exists m', (isort lt l).
  split_and!; [done..|]. split_and!;
    [by apply isort_sorted|by apply isort_Permutation|by apply isort_stable].
Qed.

Lemma usorts_returns p l m :
  usorts less lt p l m → lawful less lt → returns p m () (λ k, sorted lt k ∧ k ≡ₚ l).
Proof.
  unfold usorts, wp, returns. intros Hp HL. destruct (p m) as [[] m'|m'|];
    [|by destruct Hp as (?&_&_&_&[])|done].
  destruct Hp as (k&?&_&?&Hk). exists m', k. split_and!; [done..|by apply Hk|done].
Qed.

Lemma wp_panic_safe {A} (p : prog (mem T) A) (F : A → list T → Prop) G l m :
  wp p (λ a, vperm l (F a) m) (vperm l G m) m → panic_safe p l m.
Proof.
  unfold wp, panic_safe. destruct (p m) as [a m'|m'|]; [..|done]; intros (k&?&_&?&_); by exists k.
Qed.
End derive.

Lemma usorts_panic_safe {T} (less : comparator T) p l m :
  usorts less (λ _ _, false) p l m → panic_safe p l m.
Proof.
  unfold usorts, wp, panic_safe. destruct (p m) as [a m'|m'|]; [..|done]; intros (k&?&_&?&_); by exists k.
Qed.

Lemma sorts_panic_safe {T} (less : comparator T) p l m :
  sorts less (λ _ _, false) p l m → panic_safe p l m.
Proof.
  unfold sorts, wp, panic_safe. destruct (p m) as [a m'|m'|]; [..|done]; intros (k&?&_&?&_); by exists k.
Qed.

(** ** The stable sort ([stable/mod.rs]) *)

(** C1: the stable sort, driftsort with its small sorts, its run stack and its
    quicksort, and with the insertion sort of the short slices: when the
    comparison answers by a strict weak order, [sort] returns and the slice is
    sorted, equal elements in their old order.  [buf_with_capacity] is the
    capacity of the vector allocated as scratch buffer. *)
Theorem stable_sort_correct {T} (less : comparator T) (lt : T → T → bool) `{!StrictWeak lt}
    (ti : ty_info) (buf_with_capacity : nat → nat) (l : list T) (m : mem T) :
  lawful less lt → (∀ n, n ≤ buf_with_capacity n) → size_of ti ≠ 0 →
  (Z.of_nat (length l) < 2 ^ 62)%Z → slice_of l m →
  returns (stable_sort less ti buf_with_capacity) m () (sorted_stably lt l).
Proof.
  intros HL Hbuf Hty Hlen Hl. apply (sorts_returns less); [done| |done].
  by apply stable_sort_sorts.
Qed.

Lemma stable_sort_correct_witness :
  returns (stable_sort key_less (TyInfo 16 true true) id)
    (Mem (Some <$> [(3, 0); (1, 1); (3, 2); (1, 3); (2, 4)]) [] 0) ()
    (sorted_stably key_lt [(3, 0); (1, 1); (3, 2); (1, 3); (2, 4)]).
Proof. apply stable_sort_correct; [apply _|done|done|done|done|done]. Defined.

(** C2: whatever the comparison answers, also when it answers inconsistently or
    panics in the middle of a merge, the stable sort neither runs into undefined
    behaviour nor aborts nor diverges, and leaves every element in the slice. *)
Theorem stable_sort_panic_safe {T} (less : comparator T) (ti : ty_info)
    (buf_with_capacity : nat → nat) (l : list T) (m : mem T) :
  (∀ n, n ≤ buf_with_capacity n) → size_of ti ≠ 0 →
  (Z.of_nat (length l) < 2 ^ 62)%Z → slice_of l m →
  panic_safe (stable_sort less ti buf_with_capacity) l m.
Proof. intros. apply (sorts_panic_safe less). by apply stable_sort_sorts. Qed.

Lemma stable_sort_panic_safe_witness :
  panic_safe (stable_sort (λ n a b, if n =? 4 then None else Some (b <? a)) (TyInfo 8 true true) id)
    [5; 1; 4; 2; 3] (Mem (Some <$> [5; 1; 4; 2; 3]) [] 0).
Proof. apply stable_sort_panic_safe; done. Defined.

(** the stable sort of the builds that optimise for size is the bottom-up
    merge sort of [stable/tiny.rs]; it sorts stably too. *)
Theorem stable_sort_for_size_correct {T} (less : comparator T) (lt : T → T → bool)
    `{!StrictWeak lt} (ti : ty_info) (buf_with_capacity : nat → nat) (l : list T) (m : mem T) :
  lawful less lt → (∀ n, n ≤ buf_with_capacity n) → size_of ti ≠ 0 → slice_of l m →
  returns (stable_sort_for_size less ti buf_with_capacity) m () (sorted_stably lt l).
Proof.
  intros HL Hbuf Hty Hl. apply (sorts_returns less); [done| |done].
  by apply stable_sort_for_size_sorts.
Qed.

Lemma stable_sort_for_size_correct_witness :
  returns (stable_sort_for_size key_less (TyInfo 16 true true) id)
    (Mem (Some <$> [(3, 0); (1, 1); (3, 2); (1, 3); (2, 4)]) [] 0) ()
    (sorted_stably key_lt [(3, 0); (1, 1); (3, 2); (1, 3); (2, 4)]).
Proof. apply stable_sort_for_size_correct; [apply _|done|done|done|done]. Defined.

(** ** The unstable sort ([unstable/mod.rs]) *)

(** C3: the unstable sort, ipnsort with its quicksort, its sorting networks and
    its heapsort fallback: with a strict weak order it returns and the slice is a
    sorted permutation of what it was. *)
Theorem unstable_sort_correct {T} (less : comparator T) (lt : T → T → bool) `{!StrictWeak lt}
    (ti : ty_info) (l : list T) (m : mem T) :
  lawful less lt → size_of ti ≠ 0 → slice_of l m →
  returns (unstable_sort less ti) m () (λ k, sorted lt k ∧ k ≡ₚ l).
Proof.
  intros HL Hty Hl. apply (usorts_returns less); [|done]. by apply unstable_sort_usorts.
Qed.

Lemma unstable_sort_correct_witness :
  returns (unstable_sort nat_less (TyInfo 8 true true)) (Mem (Some <$> [3; 1; 2; 5; 4]) [] 0) ()
    (λ k, sorted Nat.ltb k ∧ k ≡ₚ [3; 1; 2; 5; 4]).
Proof. apply unstable_sort_correct; [apply _|done|done|done]. Defined.

(** C4: whatever the comparison does, the unstable sort has no undefined
    behaviour and leaves every element in the slice, also when it unwinds while
    an element is out of the slice in a partition's gap. *)
Theorem unstable_sort_panic_safe {T} (less : comparator T) (ti : ty_info) (l : list T) (m : mem T) :
  size_of ti ≠ 0 → slice_of l m → panic_safe (unstable_sort less ti) l m.
Proof. intros. apply (usorts_panic_safe less). apply unstable_sort_usorts; [apply _|done|done]. Qed.

Lemma unstable_sort_panic_safe_witness :
  panic_safe (unstable_sort (λ n a b, if n =? 4 then None else Some (b <? a)) (TyInfo 8 true true))
    [5; 1; 4; 2; 3] (Mem (Some <$> [5; 1; 4; 2; 3]) [] 0).
Proof. apply unstable_sort_panic_safe; done. Defined.

(** Heapsort sorts every slice, whatever its length. *)
Theorem heapsort_correct {T} (less : comparator T) (lt : T → T → bool) `{!StrictWeak lt}
    (l : list T) (m : mem T) :
  lawful less lt → slice_of l m →
  returns (heapsort less) m () (λ k, sorted lt k ∧ k ≡ₚ l).
Proof. intros HL Hl. apply (usorts_returns less); [|done]. by apply heapsort_usorts. Qed.

Lemma heapsort_correct_witness :
  returns (heapsort nat_less) (Mem (Some <$> [3; 1; 2; 5; 4]) [] 0) ()
    (λ k, sorted Nat.ltb k ∧ k ≡ₚ [3; 1; 2; 5; 4]).
Proof. apply heapsort_correct; [apply _|done|done]. Defined.

(** ** Selection ([select.rs]) *)

(** C5: [select_nth_unstable]'s [partition_at_index], by repeated partitioning,
    by the median of medians or by a linear search at either end: for an index in
    range it returns the parts left of, at and right of the index, and the slice
    is a permutation of what it was in which the element at the index has nothing
    greater to its left and nothing smaller to its right. *)
Theorem partition_at_index_correct {T} (less : comparator T) (lt : T → T → bool) `{!StrictWeak lt}
    (ti : ty_info) (optimize_for_size : bool) (i : nat) (l : list T) (m : mem T) :
  lawful less lt → size_of ti ≠ 0 → slice_of l m → i < length l →
  returns (partition_at_index less ti optimize_for_size i) m ((0, i), i, (i + 1, length l))
    (λ k, k ≡ₚ l ∧ ∃ left x right, k = left ++ x :: right ∧ length left = i ∧
       Forall (λ y, lt x y = false) left ∧ Forall (λ y, lt y x = false) right).
Proof.
  intros HL Hty Hl Hi.
  pose proof (partition_at_index_selects less lt ti optimize_for_size i l m Hl Hty) as H.
  unfold wp, returns in *. destruct (partition_at_index _ _ _ _ m) as [r m'|m'|]; [| |done].
  - destruct H as (_&->&k&?&_&Hp&HS). exists m', k. split_and!; [done..|by apply HS].
  - destruct H as (_&_&_&_&[?|?]); [lia|done].
Qed.

Lemma partition_at_index_correct_witness :
  returns (partition_at_index nat_less (TyInfo 8 true true) false 2)
    (Mem (Some <$> [5; 1; 4; 2; 3]) [] 0) ((0, 2), 2, (3, 5))
    (λ k, k ≡ₚ [5; 1; 4; 2; 3] ∧ ∃ left x right, k = left ++ x :: right ∧ length left = 2 ∧
       Forall (λ y, (x <? y) = false) left ∧ Forall (λ y, (y <? x) = false) right).
Proof.
  apply (partition_at_index_correct nat_less Nat.ltb (TyInfo 8 true true) false 2 [5; 1; 4; 2; 3]);
    [done|done|done|simpl; lia].
Defined.

(** an index out of range makes [partition_at_index] panic before it touches
    the slice; with an index in range and any comparison at all it has no
    undefined behaviour, terminates, and keeps every element. *)
Theorem partition_at_index_panic_safe {T} (less : comparator T) (ti : ty_info)
    (optimize_for_size : bool) (i : nat) (l : list T) (m : mem T) :
  size_of ti ≠ 0 → slice_of l m →
  panic_safe (partition_at_index less ti optimize_for_size i) l m ∧
  (length l ≤ i → partition_at_index less ti optimize_for_size i m = Panic m).
Proof.
  intros Hty Hl. split.
  - pose proof (partition_at_index_selects less (λ _ _, false) ti optimize_for_size i l m Hl Hty) as H.
    unfold wp, panic_safe in *. destruct (partition_at_index _ _ _ _ m) as [r m'|m'|]; [..|done].
    + destruct H as (_&_&k&?&_&?&_). by exists k.
    + destruct H as (k&?&_&?&_). by exists k.
  - intros Hi. unfold partition_at_index, len_of, gets, mbind, prog_bind. simpl.
    rewrite (slice_size l m Hl : length (mV m) = _).
    by destruct (Nat.leb_spec (length l) i); [|lia].
Qed.

Lemma partition_at_index_panic_safe_witness :
  panic_safe (partition_at_index (λ n a b, if n =? 3 then None else Some (b <? a))
      (TyInfo 8 true true) false 2) [5; 1; 4; 2; 3] (Mem (Some <$> [5; 1; 4; 2; 3]) [] 0) ∧
  (length [5; 1; 4; 2; 3] ≤ 2 →
   partition_at_index (λ n a b, if n =? 3 then None else Some (b <? a))
     (TyInfo 8 true true) false 2 (Mem (Some <$> [5; 1; 4; 2; 3]) [] 0) =
   Panic (Mem (Some <$> [5; 1; 4; 2; 3]) [] 0)).
Proof. apply partition_at_index_panic_safe; done. Defined.

(** ** The parts the sorts are made of *)

(** The merge step of driftsort, which copies the shorter run to the scratch
    buffer and merges from the end where the hole is, puts two sorted runs into
    one stably sorted run, whichever of them is the shorter. *)
Theorem merge_correct {T} (less : comparator T) (lt : T → T → bool) `{!StrictWeak lt}
    (A B : list T) (m : mem T) :
  lawful less lt → sorted lt A → sorted lt B → slice_of (A ++ B) m →
  length A `min` length B ≤ length (mS m) →
  returns (merge less (length A)) m () (sorted_stably lt (A ++ B)).
Proof.
  intros HL HA HB Hm HS. pose proof (merge_spec less lt A B m Hm HS) as H.
  unfold wp, returns in *. destruct (merge _ _ m) as [[] m'|m'|];
    [|by destruct H as (?&_&_&_&[])|done].
  destruct H as (k&?&_&_&Hk). rewrite (Hk HL HA HB) in *. exists m', (isort lt (A ++ B)).
  split_and!; [done..|]. split_and!;
    [by apply isort_sorted|by apply isort_Permutation|by apply isort_stable].
Qed.

Lemma merge_correct_witness :
  returns (merge key_less (length [(1, 0); (3, 1)]))
    (Mem (Some <$> [(1, 0); (3, 1)] ++ [(1, 2); (2, 3); (3, 4)]) [None; None] 0) ()
    (sorted_stably key_lt ([(1, 0); (3, 1)] ++ [(1, 2); (2, 3); (3, 4)])).
Proof.
  apply merge_correct; [apply _|done|by repeat constructor..|done|simpl; lia].
Defined.

(** The stable partition of driftsort's quicksort splits the slice into the
    elements the comparison puts left of the pivot and the others, both in their
    old order, and returns the number of the former.  The pivot itself goes to
    the side the caller says. *)
Theorem stable_partition_correct {T} (less : comparator T) (lt : T → T → bool) (ti : ty_info)
    (l : list T) (pivot_pos : nat) (p : T) (pivot_goes_left : bool) (m : mem T) :
  lawful less lt → slice_of l m → l !! pivot_pos = Some p → length l ≤ length (mS m) →
  lt p p = pivot_goes_left →
  returns (stable_partition less ti pivot_pos pivot_goes_left) m
    (length (List.filter (λ x, lt x p) l))
    (λ k, k = List.filter (λ x, lt x p) l ++ List.filter (λ x, negb (lt x p)) l).
Proof.
  intros HL Hl Hp HS Hg.
  pose proof (stable_partition_spec less lt ti l pivot_pos p pivot_goes_left m Hl Hp HS Hg) as H.
  unfold wp, returns in *. destruct (stable_partition _ _ _ _ m) as [n m'|m'|];
    [|by destruct H as (?&_&_&_&[])|done].
  destruct H as (k&?&_&_&lefts&rights&->&->&_&HF). destruct (HF HL) as [-> ->].
  by exists m', (List.filter (λ x, lt x p) l ++ List.filter (λ x, negb (lt x p)) l).
Qed.

Lemma stable_partition_correct_witness :
  returns (stable_partition nat_less (TyInfo 8 true true) 1 false)
    (Mem (Some <$> [7; 4; 2; 9; 4; 1]) (replicate 6 None) 0) 2
    (λ k, k = [2; 1] ++ [7; 4; 9; 4]).
Proof.
  apply (stable_partition_correct nat_less Nat.ltb (TyInfo 8 true true) [7; 4; 2; 9; 4; 1] 1 4 false);
    done.
Defined.

(** The three ways to partition of the unstable sort, Hoare's with cyclic
    swaps, Lomuto's branchless one with cyclic swaps and the plain branchless
    one, are interchangeable: each returns the number of elements the comparison
    puts before the pivot, with exactly those elements in front. *)
Theorem partition_schemes_agree {T} (less : comparator T) (lt : T → T → bool) (ti : ty_info)
    (p : T) (l : list T) (m : mem T) :
  lawful less lt → slice_of l m →
  Forall (λ scheme : prog (mem T) nat,
      returns scheme m (length (List.filter (λ x, lt x p) l))
        (λ k, k ≡ₚ l ∧ ∃ lo hi, k = lo ++ hi ∧
           lo ≡ₚ List.filter (λ x, lt x p) l ∧ hi ≡ₚ List.filter (λ x, negb (lt x p)) l))
    [ partition_hoare_branchy_cyclic less p;
      partition_lomuto_branchless_cyclic less ti p;
      partition_lomuto_branchless_simple less p ].
Proof.
  intros HL Hl.
  assert (∀ scheme, partitions less lt p l m scheme →
    returns scheme m (length (List.filter (λ x, lt x p) l))
      (λ k, k ≡ₚ l ∧ ∃ lo hi, k = lo ++ hi ∧
         lo ≡ₚ List.filter (λ x, lt x p) l ∧ hi ≡ₚ List.filter (λ x, negb (lt x p)) l)) as Hall.
  { intros scheme H. unfold partitions, wp, returns in *. destruct (scheme m) as [n m'|m'|];
      [|by destruct H as (?&_&_&_&[])|done].
    destruct H as (k&?&_&Hk&lo&hi&->&->&HF). destruct (HF HL) as [Hlo Hhi].
    assert (lo ≡ₚ List.filter (λ x, lt x p) l ∧ hi ≡ₚ List.filter (λ x, negb (lt x p)) l) as [H1 H2].
    { rewrite <- Hk, !List.filter_app, (filter_all _ lo Hlo), (filter_none _ hi Hhi), app_nil_r.
      rewrite (filter_none _ lo), (filter_all _ hi); [done| |].
      - eapply Forall_impl; [exact Hhi|]. intros x Hx. cbn beta in *. by rewrite Hx.
      - eapply Forall_impl; [exact Hlo|]. intros x Hx. cbn beta in *. by rewrite Hx. }
    exists m', (lo ++ hi). rewrite <- H1 at 1. split_and!; [done..|]. by exists lo, hi. }
  repeat apply Forall_cons_2; [..|done]; apply Hall;
    [by apply hoare_cyclic_spec|by apply lomuto_cyclic_spec|by apply lomuto_simple_spec].
Qed.

Lemma partition_schemes_agree_witness :
  Forall (λ scheme : prog (mem nat) nat,
      returns scheme (Mem (Some <$> [7; 4; 2; 9; 4; 1]) [] 0) 2
        (λ k, k ≡ₚ [7; 4; 2; 9; 4; 1] ∧ ∃ lo hi, k = lo ++ hi ∧
           lo ≡ₚ [2; 1] ∧ hi ≡ₚ [7; 4; 9; 4]))
    [ partition_hoare_branchy_cyclic nat_less 4;
      partition_lomuto_branchless_cyclic nat_less (TyInfo 8 true true) 4;
      partition_lomuto_branchless_simple nat_less 4 ].
Proof.
  by apply (partition_schemes_agree nat_less Nat.ltb (TyInfo 8 true true) 4 [7; 4; 2; 9; 4; 1]).
Defined.

(** The small sort of the stable sort (sort four or eight elements at the
    start of each half by networks of [sort4_stable], insert the others, merge
    the halves from both ends) sorts up to 32 elements stably. *)
Theorem small_sort_general_correct {T} (less : comparator T) (lt : T → T → bool) `{!StrictWeak lt}
    (ti : ty_info) (l : list T) (m : mem T) :
  lawful less lt → slice_of l m → length l ≤ SMALL_SORT_GENERAL_THRESHOLD →
  returns (small_sort_general less ti) m () (sorted_stably lt l).
Proof.
  intros HL Hl Hlen. apply (sorts_returns less); [done| |done]. by apply small_sort_general_sorts.
Qed.

Lemma small_sort_general_correct_witness :
  returns (small_sort_general key_less (TyInfo 16 true true))
    (Mem (Some <$> [(3, 0); (1, 1); (3, 2); (1, 3); (2, 4); (1, 5)]) [] 0) ()
    (sorted_stably key_lt [(3, 0); (1, 1); (3, 2); (1, 3); (2, 4); (1, 5)]).
Proof. apply small_sort_general_correct; [apply _|done|done|simpl; unfold SMALL_SORT_GENERAL_THRESHOLD; lia]. Defined.

(** The small sort of the unstable sort, the optimal sorting networks on 9
    and 13 elements with insertion and a bidirectional merge, sorts up to 32
    elements. *)
Theorem small_sort_network_correct {T} (less : comparator T) (lt : T → T → bool) `{!StrictWeak lt}
    (l : list T) (m : mem T) :
  lawful less lt → slice_of l m → length l ≤ SMALL_SORT_NETWORK_THRESHOLD →
  returns (small_sort_network less) m () (λ k, sorted lt k ∧ k ≡ₚ l).
Proof.
  intros HL Hl Hlen. apply (usorts_returns less); [|done]. by apply small_sort_network_usorts.
Qed.

Lemma small_sort_network_correct_witness :
  returns (small_sort_network nat_less) (Mem (Some <$> [9; 8; 7; 6; 5; 4; 3; 2; 1; 0]) [] 0) ()
    (λ k, sorted Nat.ltb k ∧ k ≡ₚ [9; 8; 7; 6; 5; 4; 3; 2; 1; 0]).
Proof.
  apply small_sort_network_correct; [apply _|done|done|].
  simpl. unfold SMALL_SORT_NETWORK_THRESHOLD. lia.
Defined.

(** the branchless merge of two sorted halves from both ends at once writes
    their stable merge; with any comparison it stays inside its source and its
    destination.  When the two ends do not meet, which only a comparison that is
    not a strict weak order or halves that are not sorted can bring about, it
    panics, and has then only written to the destination. *)
Theorem bidirectional_merge_correct {T} (less : comparator T) (lt : T → T → bool) `{!StrictWeak lt}
    (A B : list T) (m : mem T) :
  slice_of (A ++ B) m → length A = (length A + length B) / 2 → 1 ≤ length A →
  length A + length B ≤ length (mS m) →
  match bidirectional_merge less BV 0 (length A + length B) BS 0 m with
  | Ret () m' => slice_of (A ++ B) m' ∧ ∃ k, holds BS 0 k m' ∧ k ≡ₚ A ++ B ∧
      (lawful less lt → sorted lt A → sorted lt B → sorted_stably lt (A ++ B) k)
  | Panic m' => slice_of (A ++ B) m' ∧ ¬ (lawful less lt ∧ sorted lt A ∧ sorted lt B)
  | Fault _ => False
  end.
Proof.
  intros Hl Hhalf HA HS.
  assert (holds BV 0 (A ++ B) m) as Hh by by apply slice_of_holds in Hl as [? _].
  assert (apart BV 0 BS 0 (length A + length B)) as Hap by by left.
  pose proof (bidirectional_merge_spec less lt BV 0 BS 0 A B m Hh Hap HS Hhalf HA) as H.
  unfold wp in H. destruct (bidirectional_merge _ _ _ _ _ _ m) as [[] m'|m'|]; [..|done].
  - destruct H as (k&Hm'&Hk&HF). split; [by rewrite Hm'|]. exists k. split_and!.
    + rewrite Hm'. apply holds_store_eq. rewrite Hk, length_app. done.
    + done.
    + intros HL HsA HsB. rewrite HF by done. split_and!;
        [by apply isort_sorted|by apply isort_Permutation|by apply isort_stable].
  - destruct H as [(k&_&Hm') Hn]. split; [by rewrite Hm'|done].
Qed.

Lemma bidirectional_merge_correct_witness :
  match bidirectional_merge key_less BV 0 (2 + 2) BS 0
          (Mem (Some <$> [(1, 0); (2, 1)] ++ [(1, 2); (3, 3)]) (replicate 4 None) 0) with
  | Ret () m' => slice_of ([(1, 0); (2, 1)] ++ [(1, 2); (3, 3)]) m' ∧
      ∃ k, holds BS 0 k m' ∧ k ≡ₚ [(1, 0); (2, 1)] ++ [(1, 2); (3, 3)] ∧
      (lawful key_less key_lt → sorted key_lt [(1, 0); (2, 1)] → sorted key_lt [(1, 2); (3, 3)] →
       sorted_stably key_lt ([(1, 0); (2, 1)] ++ [(1, 2); (3, 3)]) k)
  | Panic m' => slice_of ([(1, 0); (2, 1)] ++ [(1, 2); (3, 3)]) m' ∧
      ¬ (lawful key_less key_lt ∧ sorted key_lt [(1, 0); (2, 1)] ∧ sorted key_lt [(1, 2); (3, 3)])
  | Fault _ => False
  end.
Proof.
  apply (bidirectional_merge_correct key_less key_lt [(1, 0); (2, 1)] [(1, 2); (3, 3)]);
    [done|done|simpl; lia|simpl; lia].
Defined.

(** A [DriftsortRun] packs a length and a flag into one [usize]; for every
    length a slice of non-zero-sized elements can have, both come out again. *)
Theorem DriftsortRun_roundtrip (n : nat) :
  (Z.of_nat n < 2 ^ 63)%Z →
  (DriftsortRun.sorted (DriftsortRun.new_sorted n) = true ∧
   DriftsortRun.len (DriftsortRun.new_sorted n) = n) ∧
  (DriftsortRun.sorted (DriftsortRun.new_unsorted n) = false ∧
   DriftsortRun.len (DriftsortRun.new_unsorted n) = n).
Proof. intros Hn. split; apply and_comm; [by apply sorted_run|by apply unsorted_run]. Qed.

Lemma DriftsortRun_roundtrip_witness :
  (DriftsortRun.sorted (DriftsortRun.new_sorted 5) = true ∧
   DriftsortRun.len (DriftsortRun.new_sorted 5) = 5) ∧
  (DriftsortRun.sorted (DriftsortRun.new_unsorted 5) = false ∧
   DriftsortRun.len (DriftsortRun.new_unsorted 5) = 5).
Proof. apply (DriftsortRun_roundtrip 5). lia. Defined.

(** the fixed-point arithmetic of the merge tree does not overflow a [u64]
    for any two adjacent non-empty runs of a slice of less than [2 ^ 62]
    elements, and the depth it gives is at most 64, so that the 66 entries of
    driftsort's run stack are enough. *)
Theorem merge_tree_depth_bound {S} (left_i mid right_i n : nat) (s : S) :
  left_i ≤ mid → mid < right_i → right_i ≤ n → (Z.of_nat n < 2 ^ 62)%Z →
  ∃ d, merge_tree_depth left_i mid right_i (merge_tree_scale_factor n) s = Ret d s ∧
       (0 ≤ d ≤ 64)%Z.
Proof.
  intros H1 H2 H3 H4.
  pose proof (merge_tree_depth_spec left_i mid right_i n
    (λ d s', s' = s ∧ (0 ≤ d ≤ 64)%Z) (λ _, False) s H1 H2 H3 H4 (λ d Hd, conj eq_refl Hd)) as H.
  unfold wp in H. destruct (merge_tree_depth _ _ _ _ s) as [d s'|s'|]; [|done..].
  destruct H as [-> ?]. by exists d.
Qed.

Lemma merge_tree_depth_bound_witness :
  ∃ d, merge_tree_depth 0 33 100 (merge_tree_scale_factor 100) () = Ret d () ∧ (0 ≤ d ≤ 64)%Z.
Proof. apply merge_tree_depth_bound; lia. Defined.
