(* ===== verification/Layout.v ===== *)
(** Memory layouts: [core/src/alloc/layout.rs], with the alignments of
    [core/src/ptr/alignment.rs].

    A [usize] is an integer of [Z] between 0 and [usize_MAX].  A function that
    uses [unchecked_add] and the like, or [from_size_align_unchecked], has
    undefined behaviour when their precondition fails: it answers [None] then.
    A [Result<_, LayoutError>] is an [option] too, inside. *)

From S2P Require Import Prelude.

Local Open Scope Z_scope.

Definition usize_MAX : Z := 2 ^ 64 - 1.
Definition isize_MAX : Z := 2 ^ 63 - 1.

(** Undefined behaviour. *)
Definition unsafe (A : Type) : Type := option A.

Definition unchecked_add (a b : Z) : unsafe Z := if a + b <=? usize_MAX then Some (a + b) else None.
Definition unchecked_sub (a b : Z) : unsafe Z := if b <=? a then Some (a - b) else None.
Definition unchecked_mul (a b : Z) : unsafe Z := if a * b <=? usize_MAX then Some (a * b) else None.
Definition checked_mul (a b : Z) : option Z := if a * b <=? usize_MAX then Some (a * b) else None.
Definition not_usize (a : Z) : Z := Z.lxor a usize_MAX.

Definition count_ones (a : Z) : nat := length (filter (λ i, Z.testbit a i = true) (seqZ 0 64)).
Definition is_power_of_two (a : Z) : bool := (count_ones a =? 1)%nat.

(** ** [Alignment] *)
Definition Alignment : Type := Z.

Module Alignment.
Definition new (align : Z) : option Alignment := if is_power_of_two align then Some align else None.
Definition as_usize (a : Alignment) : Z := a.
(** [trailing_zeros] of a power of two. *)
Definition log2 (a : Alignment) : Z := Z.log2 a.
Definition mask (a : Alignment) : unsafe Z := m ← unchecked_sub a 1; Some (not_usize m).
Definition max (a b : Alignment) : Alignment := if b <? a then a else b.
End Alignment.

(** ** [Layout] *)
Record Layout := MkLayout { size : Z; align : Alignment }.

Definition max_size_for_align (a : Alignment) : unsafe Z := unchecked_sub (isize_MAX + 1) a.

Definition is_size_align_valid (s a : Z) : unsafe bool :=
  match Alignment.new a with
  | None => Some false
  | Some a => m ← max_size_for_align a; Some (negb (m <? s))
  end.

Definition from_size_align_unchecked (s a : Z) : unsafe Layout :=
  ok ← is_size_align_valid s a; if ok : bool then Some (MkLayout s a) else None.

Definition from_size_align (s a : Z) : unsafe (option Layout) :=
  ok ← is_size_align_valid s a; Some (if ok : bool then Some (MkLayout s a) else None).

Definition from_size_alignment (s : Z) (a : Alignment) : unsafe (option Layout) :=
  m ← max_size_for_align a; Some (if m <? s then None else Some (MkLayout s a)).

Definition align_to (l : Layout) (a : Z) : unsafe (option Layout) :=
  match Alignment.new a with
  | Some a => from_size_alignment (size l) (Alignment.max (align l) a)
  | None => Some None
  end.

Definition size_rounded_up_to_custom_align (l : Layout) (a : Alignment) : unsafe Z :=
  align_m1 ← unchecked_sub a 1;
  s ← unchecked_add (size l) align_m1;
  Some (Z.land s (not_usize align_m1)).

Definition padding_needed_for (l : Layout) (a : Z) : unsafe Z :=
  match Alignment.new a with
  | None => Some usize_MAX
  | Some a => len_rounded_up ← size_rounded_up_to_custom_align l a;
              unchecked_sub len_rounded_up (size l)
  end.

Definition pad_to_align (l : Layout) : unsafe Layout :=
  new_size ← size_rounded_up_to_custom_align l (align l);
  from_size_align_unchecked new_size (align l).

Definition repeat_packed (l : Layout) (n : Z) : unsafe (option Layout) :=
  match checked_mul (size l) n with
  | Some s => from_size_alignment s (align l)
  | None => Some None
  end.

Definition repeat (l : Layout) (n : Z) : unsafe (option (Layout * Z)) :=
  padded ← pad_to_align l;
  r ← repeat_packed padded n;
  Some (match r with Some repeated => Some (repeated, size padded) | None => None end).

Definition extend (l next : Layout) : unsafe (option (Layout * Z)) :=
  let new_align := Alignment.max (align l) (align next) in
  offset ← size_rounded_up_to_custom_align l (align next);
  new_size ← unchecked_add offset (size next);
  r ← from_size_alignment new_size new_align;
  Some (match r with Some layout => Some (layout, offset) | None => None end).

Definition extend_packed (l next : Layout) : unsafe (option Layout) :=
  new_size ← unchecked_add (size l) (size next);
  from_size_alignment new_size (align l).

(** [Layout::array::<T>(n)] for a [T] of layout [element_layout]. *)
Definition array (element_layout : Layout) (n : Z) : unsafe (option Layout) :=
  let element_size := size element_layout in
  m ← max_size_for_align (align element_layout);
  if negb (element_size =? 0) && (m / element_size <? n) then Some None else
  array_size ← unchecked_mul element_size n;
  l ← from_size_align_unchecked array_size (align element_layout);
  Some (Some l).

(** ** Powers of two *)
Lemma power_of_two_check : forallb (λ k, is_power_of_two (2 ^ k)) (seqZ 0 64) = true.
Proof. vm_compute. reflexivity. Qed.

Lemma is_power_of_two_spec a :
  0 ≤ a ≤ usize_MAX → is_power_of_two a = true ↔ ∃ k, 0 ≤ k < 64 ∧ a = 2 ^ k.
Proof.
  unfold usize_MAX. intros Ha. split.
  - unfold is_power_of_two, count_ones. intros Hc%Nat.eqb_eq.
    destruct (filter _ _) as [|k [|??]] eqn:Hf; try done. clear Hc.
    assert (∀ i, 0 ≤ i < 64 → Z.testbit a i = true ↔ i = k) as Hk.
    { intros i Hi. transitivity (i ∈ [k]); [|apply list_elem_of_singleton].
      rewrite <- Hf, list_elem_of_filter, elem_of_seqZ. intuition lia. }
    assert (k ∈ [k]) as Hin by by apply list_elem_of_singleton.
    rewrite <- Hf, list_elem_of_filter, elem_of_seqZ in Hin. destruct Hin as [_ Hin].
    exists k. split; [lia|]. apply Z.bits_inj'. intros i Hi.
    rewrite Z.pow2_bits_eqb by lia. destruct (decide (i < 64)).
    + pose proof (Hk i ltac:(lia)) as Hk'. apply Bool.eq_iff_eq_true. rewrite Hk', Z.eqb_eq. done.
    + rewrite <- (Z.mod_small a (2 ^ 64)), Z.mod_pow2_bits_high by lia.
      symmetry. apply Z.eqb_neq. lia.
  - intros (k&Hk&->). pose proof power_of_two_check as Hc. rewrite forallb_forall in Hc.
    apply Hc. apply list_elem_of_In, elem_of_seqZ. lia.
Qed.

(** Rounding up with a mask is rounding up to the next multiple. *)
Lemma land_not_mask x k :
  0 ≤ k < 64 → 0 ≤ x < 2 ^ 64 → Z.land x (not_usize (2 ^ k - 1)) = 2 ^ k * (x / 2 ^ k).
Proof.
  intros Hk Hx. rewrite (Z.mul_comm (2 ^ k)), <- Z.shiftl_mul_pow2, <- Z.shiftr_div_pow2 by lia.
  unfold not_usize, usize_MAX. rewrite !Z.sub_1_r, <- !Z.ones_equiv.
  apply Z.bits_inj'. intros i Hi. rewrite Z.land_spec, Z.lxor_spec.
  destruct (decide (i < 64)).
  - rewrite (Z.ones_spec_low 64) by lia. destruct (decide (i < k)).
    + rewrite Z.shiftl_spec_low, Z.ones_spec_low by lia. apply andb_false_r.
    + rewrite Z.shiftl_spec, Z.shiftr_spec, Z.ones_spec_high by lia.
      rewrite andb_true_r. f_equal. lia.
  - rewrite <- (Z.mod_small x (2 ^ 64)), Z.mod_pow2_bits_high by lia. simpl.
    rewrite Z.shiftl_spec, Z.shiftr_spec, Z.mod_pow2_bits_high by lia. done.
Qed.

Lemma round_up_bounds s m : 0 < m → 0 ≤ s →
  let r := m * ((s + (m - 1)) / m) in s ≤ r < s + m ∧ (m | r).
Proof.
  intros Hm Hs r. subst r. split; [|by exists ((s + (m - 1)) / m); lia].
  pose proof (Z.div_mod (s + (m - 1)) m ltac:(lia)). pose proof (Z.mod_pos_bound (s + (m - 1)) m Hm). lia.
Qed.

(** ** The type invariant: the alignment is a power of two, and the size rounded
    up to the alignment does not exceed [isize_MAX] *)
Definition alignment_ok (a : Alignment) : Prop := ∃ k, 0 ≤ k < 64 ∧ a = 2 ^ k.

Definition layout_ok (l : Layout) : Prop :=
  alignment_ok (align l) ∧ 0 ≤ size l ≤ isize_MAX + 1 - align l.

Lemma alignment_bounds a : alignment_ok a → 1 ≤ a ≤ isize_MAX + 1.
Proof.
  intros (k&Hk&->). unfold isize_MAX.
  pose proof (Z.pow_le_mono_r 2 0 k ltac:(lia) ltac:(lia)).
  pose proof (Z.pow_le_mono_r 2 k 63 ltac:(lia) ltac:(lia)). lia.
Qed.

Lemma alignment_max_ok a b : alignment_ok a → alignment_ok b → alignment_ok (Alignment.max a b).
Proof. intros. unfold Alignment.max. by case_match. Qed.

Lemma alignment_max_le a b : a ≤ Alignment.max a b ∧ b ≤ Alignment.max a b.
Proof. unfold Alignment.max. destruct (Z.ltb_spec b a); lia. Qed.

Lemma max_size_for_align_eq a : alignment_ok a →
  max_size_for_align a = Some (isize_MAX + 1 - a).
Proof.
  intros Ha%alignment_bounds. unfold max_size_for_align, unchecked_sub.
  by destruct (Z.leb_spec a (isize_MAX + 1)); [|lia].
Qed.

Lemma alignment_new_ok a : alignment_ok a → Alignment.new a = Some a.
Proof.
  intros Ha. pose proof (alignment_bounds a Ha). unfold Alignment.new.
  by rewrite (proj2 (is_power_of_two_spec a ltac:(unfold usize_MAX, isize_MAX in *; lia)) Ha).
Qed.

Lemma alignment_new_bad a : 0 ≤ a ≤ usize_MAX → ¬ alignment_ok a → Alignment.new a = None.
Proof.
  intros Ha Hn. unfold Alignment.new. destruct (is_power_of_two a) eqn:Hp; [|done].
  by apply is_power_of_two_spec in Hp.
Qed.

Lemma alignment_dec a : 0 ≤ a ≤ usize_MAX → alignment_ok a ∨ ¬ alignment_ok a.
Proof.
  intros Ha. destruct (is_power_of_two a) eqn:Hp.
  - left. by apply is_power_of_two_spec.
  - right. intros H. apply is_power_of_two_spec in H; [congruence|done].
Qed.

Lemma is_size_align_valid_ok s a : alignment_ok a →
  is_size_align_valid s a = Some (s <=? isize_MAX + 1 - a).
Proof.
  intros Ha. unfold is_size_align_valid.
  rewrite alignment_new_ok, max_size_for_align_eq by done. simpl. f_equal. by rewrite Z.leb_antisym.
Qed.

Lemma from_size_alignment_eq s a : alignment_ok a →
  from_size_alignment s a = Some (if s <=? isize_MAX + 1 - a then Some (MkLayout s a) else None).
Proof.
  intros Ha. unfold from_size_alignment. rewrite max_size_for_align_eq by done. simpl.
  rewrite Z.leb_antisym. by destruct (_ <? _).
Qed.

Lemma rounded_up_eq l a : 0 ≤ size l ≤ isize_MAX → alignment_ok a →
  size_rounded_up_to_custom_align l a = Some (a * ((size l + (a - 1)) / a)).
Proof.
  intros Hs Ha. pose proof (alignment_bounds a Ha) as Hb. destruct Ha as (k&Hk&->).
  unfold size_rounded_up_to_custom_align, unchecked_sub, unchecked_add, isize_MAX, usize_MAX in *.
  destruct (Z.leb_spec 1 (2 ^ k)); [|lia]. simpl.
  destruct (Z.leb_spec (size l + (2 ^ k - 1)) (2 ^ 64 - 1)); [|lia]. simpl.
  by rewrite land_not_mask by lia.
Qed.

Lemma layout_ok_size l : layout_ok l → 0 ≤ size l ≤ isize_MAX.
Proof. intros [Ha%alignment_bounds ?]. lia. Qed.

(** A multiple of the alignment that is at most [isize_MAX + 1 - align + align - 1]
    is at most [isize_MAX + 1 - align]. *)
Lemma rounded_up_max a s r : alignment_ok a → 0 ≤ s ≤ isize_MAX + 1 - a →
  s ≤ r < s + a → (a | r) → r ≤ isize_MAX + 1 - a.
Proof.
  intros Ha Hs Hr [q ->]. pose proof (alignment_bounds a Ha).
  destruct Ha as (k&Hk&->). unfold isize_MAX in *.
  assert (2 ^ 63 = 2 ^ (63 - k) * 2 ^ k) as H63 by (rewrite <- Z.pow_add_r by lia; f_equal; lia).
  assert (q < 2 ^ (63 - k)) by nia. nia.
Qed.

(** ** The operations on valid layouts *)
Lemma from_size_align_eq s a : 0 ≤ s ≤ usize_MAX → 0 ≤ a ≤ usize_MAX →
  ∃ r, from_size_align s a = Some r ∧
    (∀ l, r = Some l ↔ l = MkLayout s a ∧ layout_ok l).
Proof.
  intros Hs Ha. unfold from_size_align. destruct (alignment_dec a Ha) as [Hok|Hbad].
  - rewrite is_size_align_valid_ok by done. simpl. eexists. split; [done|]. intros l. unfold layout_ok.
    destruct (Z.leb_spec s (isize_MAX + 1 - a)); split.
    + intros [= <-]. simpl. split_and!; [done|done|lia|lia].
    + by intros [-> _].
    + done.
    + intros [-> [_ ?]]. simpl in *. lia.
  - unfold is_size_align_valid. rewrite alignment_new_bad by done. simpl. exists None.
    split; [done|]. intros l. split; [done|]. intros [-> [? _]]. by simpl in *.
Qed.

Lemma pad_to_align_eq l : layout_ok l → ∃ s,
  pad_to_align l = Some (MkLayout s (align l)) ∧ layout_ok (MkLayout s (align l)) ∧
  size l ≤ s < size l + align l ∧ (align l | s).
Proof.
  intros Hl. pose proof (layout_ok_size l Hl) as Hsz. destruct Hl as [Ha Hs].
  pose proof (alignment_bounds _ Ha) as Hb.
  destruct (round_up_bounds (size l) (align l) ltac:(lia) ltac:(lia)) as [Hr Hdiv].
  pose proof (rounded_up_max _ _ _ Ha Hs Hr Hdiv) as Hmax.
  unfold pad_to_align. rewrite rounded_up_eq by done. cbn -[Z.mul Z.div Z.add Z.sub].
  unfold from_size_align_unchecked. rewrite is_size_align_valid_ok by done.
  cbn -[Z.mul Z.div Z.add Z.sub]. rewrite (proj2 (Z.leb_le _ _) Hmax).
  eexists. split; [done|]. split_and!; [split; simpl; [done|lia]|lia|lia|done].
Qed.

Lemma repeat_packed_eq l n : layout_ok l → 0 ≤ n ≤ usize_MAX →
  repeat_packed l n =
    Some (if size l * n <=? isize_MAX + 1 - align l then Some (MkLayout (size l * n) (align l)) else None).
Proof.
  intros [Ha Hs] Hn. pose proof (alignment_bounds _ Ha). unfold repeat_packed, checked_mul.
  unfold usize_MAX, isize_MAX in *.
  destruct (Z.leb_spec (size l * n) (2 ^ 64 - 1)).
  - by rewrite from_size_alignment_eq.
  - by destruct (Z.leb_spec (size l * n) (2 ^ 63 - 1 + 1 - align l)); [lia|].
Qed.

Lemma extend_eq l next : layout_ok l → layout_ok next →
  let offset := align next * ((size l + (align next - 1)) / align next) in
  let a := Alignment.max (align l) (align next) in
  extend l next =
    Some (if offset + size next <=? isize_MAX + 1 - a
          then Some (MkLayout (offset + size next) a, offset) else None).
Proof.
  intros Hl Hn. pose proof (layout_ok_size l Hl). pose proof (layout_ok_size next Hn).
  destruct Hl as [Ha Hs], Hn as [Ha' Hs']. cbv zeta. unfold extend.
  pose proof (alignment_bounds _ Ha'). pose proof (alignment_bounds _ Ha).
  rewrite rounded_up_eq by done. cbn -[Z.mul Z.div Z.add Z.sub].
  destruct (round_up_bounds (size l) (align next) ltac:(lia) ltac:(lia)) as [Hr [q Hq]].
  assert (align next * ((size l + (align next - 1)) / align next) ≤ isize_MAX + 1) as Hmax.
  { destruct Ha' as (k&Hk&Hk'). rewrite Hq in *. rewrite Hk' in *. unfold isize_MAX in *.
    assert (2 ^ 63 = 2 ^ (63 - k) * 2 ^ k) as H63 by (rewrite <- Z.pow_add_r by lia; f_equal; lia).
    assert (q - 1 < 2 ^ (63 - k)) by nia. nia. }
  unfold unchecked_add, usize_MAX, isize_MAX in *.
  destruct (Z.leb_spec (align next * ((size l + (align next - 1)) / align next) + size next) (2 ^ 64 - 1));
    [|lia]. cbn -[Z.mul Z.div Z.add Z.sub].
  rewrite from_size_alignment_eq by (by apply alignment_max_ok).
  cbn -[Z.mul Z.div Z.add Z.sub]. unfold isize_MAX. by destruct (Z.leb_spec (align next * ((size l + (align next - 1)) / align next) + size next) (2 ^ 63 - 1 + 1 - Alignment.max (align l) (align next))).
Qed.

(** ** Properties *)

(** C13: [Layout::from_size_align] has no undefined behaviour on any two [usize]
    values, and gives a layout exactly when the alignment is a power of two and
    the size rounded up to it fits an [isize]. *)
Theorem from_size_align_valid (s a : Z) :
  0 ≤ s ≤ usize_MAX → 0 ≤ a ≤ usize_MAX →
  ∃ r, from_size_align s a = Some r ∧
    (∀ l, r = Some l ↔ l = MkLayout s a ∧ (∃ k, 0 ≤ k < 64 ∧ a = 2 ^ k) ∧ s + (a - 1) ≤ isize_MAX).
Proof.
  intros Hs Ha. destruct (from_size_align_eq s a Hs Ha) as (r&Hr&Hl). exists r. split; [done|].
  intros l. rewrite Hl. unfold layout_ok, alignment_ok. split.
  - intros [-> [? ?]]. simpl in *. split_and!; [done|done|lia].
  - intros (->&?&?). simpl. split_and!; [done|done|lia|lia].
Qed.

Lemma from_size_align_valid_witness :
  ∃ r, from_size_align 24 8 = Some r ∧
    (∀ l, r = Some l ↔ l = MkLayout 24 8 ∧ (∃ k, 0 ≤ k < 64 ∧ 8 = 2 ^ k) ∧ 24 + (8 - 1) ≤ isize_MAX).
Proof. apply from_size_align_valid; unfold usize_MAX; lia. Defined.

(** [Layout::repeat] on a valid layout has no undefined behaviour; when it
    succeeds, consecutive elements are a stride apart that is the size rounded up
    to the alignment, the array is [n] strides long and its layout is valid; it
    fails only when [n] strides do not fit. *)
Theorem repeat_spec (l : Layout) (n : Z) :
  layout_ok l → 0 ≤ n ≤ usize_MAX →
  ∃ stride, size l ≤ stride < size l + align l ∧ (align l | stride) ∧
    repeat l n = Some (if stride * n <=? isize_MAX + 1 - align l
                       then Some (MkLayout (stride * n) (align l), stride) else None) ∧
    (∀ l' k, repeat l n = Some (Some (l', k)) → layout_ok l').
Proof.
  intros Hl Hn. destruct (pad_to_align_eq l Hl) as (stride&Hp&Hok&Hb&Hd).
  exists stride. split_and!; [lia|lia|done| |].
  - unfold repeat. rewrite Hp. simpl. rewrite repeat_packed_eq by done. simpl. by destruct (_ <=? _).
  - intros l' k. unfold repeat. rewrite Hp. simpl. rewrite repeat_packed_eq by done. simpl.
    destruct (Z.leb_spec (stride * n) (isize_MAX + 1 - align l)); [|done]. intros [= <- <-].
    destruct Hok as [? [? _]]. split; [done|]. simpl in *. lia.
Qed.

Lemma repeat_spec_witness :
  ∃ stride, 6 ≤ stride < 6 + 4 ∧ (4 | stride) ∧
    repeat (MkLayout 6 4) 10 = Some (if stride * 10 <=? isize_MAX + 1 - 4
                       then Some (MkLayout (stride * 10) 4, stride) else None) ∧
    (∀ l' k, repeat (MkLayout 6 4) 10 = Some (Some (l', k)) → layout_ok l').
Proof.
  apply (repeat_spec (MkLayout 6 4) 10); [|unfold usize_MAX; lia].
  split; simpl; [by exists 2|unfold isize_MAX; lia].
Defined.

(** [Layout::extend] on two valid layouts has no undefined behaviour (its
    unchecked addition cannot overflow); when it succeeds, the second part starts
    at the first offset after the first part that is aligned for it, ends where
    the new layout ends, and the new layout is valid and at least as aligned as
    both; it fails only when that layout would be too large. *)
Theorem extend_spec (l next : Layout) :
  layout_ok l → layout_ok next →
  ∃ offset, size l ≤ offset < size l + align next ∧ (align next | offset) ∧
    match extend l next with
    | Some (Some (l', k)) => k = offset ∧ size l' = offset + size next ∧ layout_ok l' ∧
        align l ≤ align l' ∧ align next ≤ align l'
    | Some None => isize_MAX + 1 < offset + size next + Alignment.max (align l) (align next)
    | None => False
    end.
Proof.
  intros Hl Hn. rewrite extend_eq by done. pose proof (layout_ok_size l Hl).
  destruct Hl as [Ha Hs], Hn as [Ha' Hs']. pose proof (alignment_bounds _ Ha').
  destruct (round_up_bounds (size l) (align next) ltac:(lia) ltac:(lia)) as [Hr Hd].
  eexists. split; [exact Hr|]. split; [exact Hd|].
  destruct (Z.leb_spec (align next * ((size l + (align next - 1)) / align next) + size next)
    (isize_MAX + 1 - Alignment.max (align l) (align next))); [|lia].
  split_and!; [done|done| |apply alignment_max_le..].
  split; simpl; [by apply alignment_max_ok|lia].
Qed.

Lemma extend_spec_witness :
  ∃ offset, 1 ≤ offset < 1 + 4 ∧ (4 | offset) ∧
    match extend (MkLayout 1 1) (MkLayout 8 4) with
    | Some (Some (l', k)) => k = offset ∧ size l' = offset + 8 ∧ layout_ok l' ∧
        1 ≤ align l' ∧ 4 ≤ align l'
    | Some None => isize_MAX + 1 < offset + 8 + Alignment.max 1 4
    | None => False
    end.
Proof.
  apply (extend_spec (MkLayout 1 1) (MkLayout 8 4)); split; simpl;
    [by exists 0|unfold isize_MAX; lia|by exists 2|unfold isize_MAX; lia].
Defined.

(** [Layout::array], which checks the length against a quotient instead of
    multiplying, agrees with the checked multiplication of [repeat_packed] on
    every valid element layout and every length. *)
Theorem array_repeat_packed (l : Layout) (n : Z) :
  layout_ok l → 0 ≤ n ≤ usize_MAX → array l n = repeat_packed l n.
Proof.
  intros Hl Hn. rewrite repeat_packed_eq by done. pose proof (layout_ok_size l Hl).
  destruct Hl as [Ha Hs]. pose proof (alignment_bounds _ Ha). unfold array.
  rewrite max_size_for_align_eq by done. cbn -[Z.mul Z.div Z.add Z.sub].
  set (M := isize_MAX + 1 - align l) in *.
  assert (negb (size l =? 0) && (M / size l <? n) = negb (size l * n <=? M)) as ->.
  { destruct (Z.eqb_spec (size l) 0) as [->|]; simpl.
    - destruct (Z.leb_spec (0 * n) M); [done|lia].
    - rewrite Z.leb_antisym, negb_involutive. apply Bool.eq_iff_eq_true. rewrite !Z.ltb_lt.
      split; intros.
      + assert (M / size l < n) as Hq by lia. pose proof (Z.mul_succ_div_gt M (size l) ltac:(lia)). nia.
      + apply Z.div_lt_upper_bound; lia. }
  destruct (Z.leb_spec (size l * n) M); simpl; [|done].
  unfold unchecked_mul, isize_MAX, usize_MAX in *.
  destruct (Z.leb_spec (size l * n) (2 ^ 64 - 1)); [|lia]. simpl.
  unfold from_size_align_unchecked. rewrite is_size_align_valid_ok by done. simpl.
  by destruct (Z.leb_spec (size l * n) (isize_MAX + 1 - align l)); [|unfold isize_MAX in *; lia].
Qed.

Lemma array_repeat_packed_witness : array (MkLayout 8 8) 5 = repeat_packed (MkLayout 8 8) 5.
Proof.
  apply array_repeat_packed; [|unfold usize_MAX; lia].
  split; simpl; [by exists 3|unfold isize_MAX; lia].
Defined.
