(* ===== verification/RawVec.v ===== *)
(** The buffer under the growable containers: [alloc/src/raw_vec/mod.rs].

    A container owns one allocation of cells, [None] where uninitialised, and
    keeps registers of its own ([len], [head], ...), the parameter [R].  The
    allocator is not part of the library: whether it satisfies a request is the
    parameter [alloc_ok], and what it requires of its callers (the contract of
    [Allocator]) is checked against [block], the block it has given out; a
    violation is undefined behaviour. *)

From S2P Require Import Prelude.
From stdpp Require Import relations.
From S2P Require Import Layout.

Record buffer (R T : Type) := Buffer {
  regs : R;
  cells : list (option T);
  block : option Layout;
  dropped : list T;  (* the values whose destructor has run, latest first *)
  clock : nat;       (* calls of user code so far *)
}.
Arguments Buffer {R T} regs cells block dropped clock.
Arguments regs {R T} b.
Arguments cells {R T} b.
Arguments block {R T} b.
Arguments dropped {R T} b.
Arguments clock {R T} b.

Inductive TryReserveError := CapacityOverflow | AllocError (layout : Layout).

Definition min_non_zero_cap (size : Z) : Z :=
  if (size =? 1)%Z then 8 else if (size <=? 1024)%Z then 4 else 1.

Section rawvec.
Context {R T : Type} (el : Layout) (alloc_ok : Layout → bool).
Implicit Types (s : buffer R T) (n c : Z).

Definition set_cells (cs : list (option T)) s : buffer R T :=
  Buffer (regs s) cs (block s) (dropped s) (clock s).
Definition set_block (b : option Layout) s : buffer R T :=
  Buffer (regs s) (cells s) b (dropped s) (clock s).

Definition lift {A} (u : unsafe A) : prog (buffer R T) A :=
  match u with Some a => mret a | None => undefined end.

(** ** The allocator's contract *)
Definition allocate (layout : Layout) : prog (buffer R T) bool := λ s,
  if alloc_ok layout then Ret true (set_block (Some layout) s) else Ret false s.

Definition fits (old : Layout) (b : option Layout) : bool :=
  match b with
  | Some l => (size l =? size old)%Z && (align l =? align old)%Z
  | None => false
  end.

Definition reallocate (grow : bool) (old new : Layout) : prog (buffer R T) bool := λ s,
  if fits old (block s) && (align new =? align old)%Z &&
     (if grow : bool then (size old <=? size new)%Z else (size new <=? size old)%Z)
  then if alloc_ok new then Ret true (set_block (Some new) s) else Ret false s
  else Fault Undefined.

Definition deallocate_block (layout : Layout) : prog (buffer R T) () := λ s,
  if fits layout (block s) then Ret () (set_block None s) else Fault Undefined.

(** ** [RawVecInner] *)
(** The field [cap]. *)
Definition cap : prog (buffer R T) Z := gets (λ s, Z.of_nat (length (cells s))).

Definition capacity : prog (buffer R T) Z :=
  if (size el =? 0)%Z then mret usize_MAX else cap.

(** [set_ptr_and_cap] on a block of [c] elements; what the old block held is in
    the new one as far as it reaches. *)
Definition set_ptr_and_cap c : prog (buffer R T) () :=
  _ ← assume (c <=? isize_MAX)%Z;
  modify (λ s, let n := Z.to_nat c in
    set_cells (take n (cells s) ++ replicate (n - length (cells s)) None) s).

Definition current_memory : prog (buffer R T) (option Layout) :=
  c ← cap;
  if (size el =? 0)%Z || (c =? 0)%Z then mret None else
  alloc_size ← lift (unchecked_mul (size el) c);
  layout ← lift (from_size_align_unchecked alloc_size (align el));
  mret (Some layout).

Definition layout_array c : prog (buffer R T) (option Layout) :=
  r ← lift (repeat el c); mret (fst <$> r).

Definition finish_grow (new_layout : Layout) (current : option Layout)
  : prog (buffer R T) (option TryReserveError) :=
  ok ← match current with
       | Some old_layout =>
           _ ← assert_ (align old_layout =? align new_layout)%Z;
           reallocate true old_layout new_layout
       | None => allocate new_layout
       end;
  mret (if ok : bool then None else Some (AllocError new_layout)).

Definition grow_to c : prog (buffer R T) (option TryReserveError) :=
  o ← layout_array c;
  match o with
  | None => mret (Some CapacityOverflow)
  | Some new_layout =>
      current ← current_memory;
      r ← finish_grow new_layout current;
      match r with
      | Some e => mret (Some e)
      | None => _ ← set_ptr_and_cap c; mret None
      end
  end.

Definition grow_amortized (len additional : Z) : prog (buffer R T) (option TryReserveError) :=
  _ ← assert_ (0 <? additional)%Z;
  if (size el =? 0)%Z then mret (Some CapacityOverflow) else
  if (usize_MAX <? len + additional)%Z then mret (Some CapacityOverflow) else
  let required_cap := (len + additional)%Z in
  c ← cap;
  _ ← assert_ (c * 2 <=? usize_MAX)%Z;
  let c := Z.max (c * 2) required_cap in
  let c := Z.max (min_non_zero_cap (size el)) c in
  grow_to c.

Definition grow_exact (len additional : Z) : prog (buffer R T) (option TryReserveError) :=
  if (size el =? 0)%Z then mret (Some CapacityOverflow) else
  if (usize_MAX <? len + additional)%Z then mret (Some CapacityOverflow) else
  grow_to (len + additional).

Definition needs_to_grow (len additional : Z) : prog (buffer R T) bool :=
  c ← capacity; mret ((c - len) mod 2 ^ 64 <? additional)%Z.

(** [capacity_overflow] panics; [handle_alloc_error] aborts. *)
Definition handle_error {A} (e : TryReserveError) : prog (buffer R T) A :=
  match e with CapacityOverflow => panic | AllocError _ => abort end.

Definition unwrap_or_handle (r : option TryReserveError) : prog (buffer R T) () :=
  match r with None => mret () | Some e => handle_error e end.

Definition reserve (len additional : Z) : prog (buffer R T) () :=
  g ← needs_to_grow len additional;
  if g : bool then r ← grow_amortized len additional; unwrap_or_handle r else mret ().

Definition grow_one : prog (buffer R T) () :=
  c ← cap; r ← grow_amortized c 1; unwrap_or_handle r.

Definition try_reserve_with (grow : Z → Z → prog (buffer R T) (option TryReserveError))
    (len additional : Z) : prog (buffer R T) (option TryReserveError) :=
  g ← needs_to_grow len additional;
  r ← (if g : bool then grow len additional else mret None);
  match r with
  | Some e => mret (Some e)
  | None =>
      g ← needs_to_grow len additional;
      _ ← assume (negb g);
      mret None
  end.
Definition try_reserve := try_reserve_with grow_amortized.
Definition try_reserve_exact := try_reserve_with grow_exact.

Definition reserve_exact (len additional : Z) : prog (buffer R T) () :=
  r ← try_reserve_exact len additional; unwrap_or_handle r.

Definition shrink_unchecked c : prog (buffer R T) (option TryReserveError) :=
  o ← current_memory;
  match o with
  | None => mret None
  | Some layout =>
      if (c =? 0)%Z then
        _ ← deallocate_block layout;
        _ ← set_ptr_and_cap 0; mret None
      else
        new_size ← lift (unchecked_mul (size el) c);
        new_layout ← lift (from_size_align_unchecked new_size (align layout));
        ok ← reallocate false layout new_layout;
        if ok : bool then _ ← set_ptr_and_cap c; mret None
        else mret (Some (AllocError new_layout))
  end.

Definition shrink c : prog (buffer R T) (option TryReserveError) :=
  k ← capacity;
  _ ← assert_ (c <=? k)%Z;
  shrink_unchecked c.

Definition shrink_to_fit c : prog (buffer R T) () :=
  r ← shrink c; unwrap_or_handle r.

(** [Drop for RawVec]. *)
Definition deallocate : prog (buffer R T) () :=
  o ← current_memory;
  match o with Some layout => deallocate_block layout | None => mret () end.

(** [try_allocate_in] and [with_capacity_in], on a buffer that holds no block. *)
Definition try_allocate_in c : prog (buffer R T) (option TryReserveError) :=
  o ← layout_array c;
  match o with
  | None => mret (Some CapacityOverflow)
  | Some layout =>
      if (size layout =? 0)%Z then mret None else
      ok ← allocate layout;
      if ok : bool then _ ← set_ptr_and_cap c; mret None
      else mret (Some (AllocError layout))
  end.

Definition with_capacity_in c : prog (buffer R T) () :=
  r ← try_allocate_in c;
  match r with
  | None => g ← needs_to_grow 0 c; assume (negb g)
  | Some e => handle_error e
  end.
End rawvec.

(** ** The invariant, and what the operations do *)

(** The layout of an element type that is not zero-sized: its size is a multiple
    of its alignment. *)
Definition elem_ok (el : Layout) : Prop := layout_ok el ∧ (align el | size el)%Z ∧ (0 < size el)%Z.

Section spec.
Context {R T : Type} (el : Layout) (alloc_ok : Layout → bool).
Hypothesis Hel : elem_ok el.
Implicit Types (s : buffer R T) (n c : Z).
Local Open Scope Z_scope.

Definition array_layout c : Layout := MkLayout (size el * c) (align el).
Definition array_fits c : bool := size el * c <=? isize_MAX + 1 - align el.
Definition raw_cap s : Z := Z.of_nat (length (cells s)).

(** The allocator has given out the block that the capacity calls for, and no
    block when the capacity is zero. *)
Definition raw_ok s : Prop :=
  array_fits (raw_cap s) = true ∧
  block s = if raw_cap s =? 0 then None else Some (array_layout (raw_cap s)).

Definition grown c s : buffer R T :=
  Buffer (regs s) (cells s ++ replicate (Z.to_nat c - length (cells s)) None)
    (Some (array_layout c)) (dropped s) (clock s).

Lemma elem_bounds : 1 ≤ align el ≤ size el ∧ size el ≤ isize_MAX.
Proof.
  destruct Hel as [[Ha%alignment_bounds Hs] [Hd Hp]]. apply Z.divide_pos_le in Hd; lia.
Qed.

Lemma repeat_elem c : 0 ≤ c ≤ usize_MAX →
  repeat el c = Some (if array_fits c then Some (array_layout c, size el) else None).
Proof.
  intros Hc. pose proof elem_bounds. destruct Hel as [Hl [Hd Hp]].
  destruct (pad_to_align_eq el Hl) as (s&Hs&Hok&Hb&Hd').
  assert (s = size el) as ->.
  { destruct Hd as [q Hq], Hd' as [q' Hq']. assert (q = q') by nia. congruence. }
  unfold repeat. rewrite Hs. simpl. rewrite repeat_packed_eq by done. simpl. unfold array_fits.
  by destruct (_ <=? _).
Qed.

Lemma array_fits_bounds c : 0 ≤ c → array_fits c = true → c ≤ isize_MAX ∧ size el * c ≤ isize_MAX.
Proof. pose proof elem_bounds. unfold array_fits. rewrite Z.leb_le. nia. Qed.

Lemma array_layout_ok c : 0 ≤ c → array_fits c = true → layout_ok (array_layout c).
Proof.
  pose proof elem_bounds. destruct Hel as [[Ha _] _]. unfold array_fits. rewrite Z.leb_le.
  intros. split; simpl; [done|nia].
Qed.

Lemma layout_array_eq c s : 0 ≤ c ≤ usize_MAX →
  layout_array el c s = Ret (if array_fits c then Some (array_layout c) else None) s.
Proof.
  intros Hc. unfold layout_array, mbind, prog_bind. rewrite repeat_elem by done. simpl.
  by destruct (array_fits c).
Qed.

Lemma from_array_layout c : 0 ≤ c → array_fits c = true →
  from_size_align_unchecked (size el * c) (align el) = Some (array_layout c).
Proof.
  intros Hc Hf. destruct (array_layout_ok c Hc Hf) as [Ha Hs]. unfold from_size_align_unchecked.
  simpl in *. rewrite is_size_align_valid_ok by done. simpl.
  by rewrite (proj2 (Z.leb_le _ _)) by lia.
Qed.

Lemma current_memory_eq s : raw_ok s → current_memory el s = Ret (block s) s.
Proof.
  intros [Hf Hb]. pose proof elem_bounds. pose proof (array_fits_bounds (raw_cap s)) as Hfb.
  unfold current_memory, cap, gets, mbind, prog_bind. fold (raw_cap s).
  assert (0 ≤ raw_cap s) as Hc by (unfold raw_cap; lia). specialize (Hfb Hc Hf).
  destruct (Z.eqb_spec (size el) 0); [lia|]. simpl. rewrite Hb.
  destruct (Z.eqb_spec (raw_cap s) 0); [done|].
  unfold unchecked_mul, usize_MAX, isize_MAX in *.
  destruct (Z.leb_spec (size el * raw_cap s) (2 ^ 64 - 1)); [|lia]. cbn -[Z.mul].
  by rewrite from_array_layout.
Qed.

Lemma fits_refl l : fits l (Some l) = true.
Proof. unfold fits. by rewrite !Z.eqb_refl. Qed.

Lemma grow_to_eq c s : raw_ok s → raw_cap s ≤ c → 0 < c ≤ usize_MAX →
  grow_to el alloc_ok c s =
    if array_fits c
    then if alloc_ok (array_layout c) then Ret None (grown c s)
         else Ret (Some (AllocError (array_layout c))) s
    else Ret (Some CapacityOverflow) s.
Proof.
  intros Hs Hle Hc. pose proof elem_bounds. unfold grow_to, mbind, prog_bind.
  rewrite layout_array_eq by lia. destruct (array_fits c) eqn:Hf; [|done].
  rewrite current_memory_eq by done.
  destruct (array_fits_bounds c) as [Hcm _]; [lia|done|].
  pose proof Hs as [_ Hb]. unfold finish_grow, mbind, prog_bind.
  assert (take (Z.to_nat c) (cells s) = cells s) as Htake by (apply take_ge; unfold raw_cap in *; lia).
  destruct (Z.eqb_spec (raw_cap s) 0); rewrite Hb.
  - unfold allocate. destruct (alloc_ok _); [|done]. cbn -[Z.to_nat replicate].
    unfold set_ptr_and_cap, mbind, prog_bind, assume. rewrite (proj2 (Z.leb_le c isize_MAX)) by lia.
    cbn -[Z.to_nat replicate]. by rewrite Htake.
  - unfold reallocate, assert_. change (align (array_layout c)) with (align el).
    change (align (array_layout (raw_cap s))) with (align el). rewrite !Z.eqb_refl.
    cbn [mret prog_ret size array_layout]. rewrite Hb, fits_refl.
    rewrite (proj2 (Z.leb_le (size el * raw_cap s) (size el * c))) by nia. cbn [andb].
    destruct (alloc_ok _); [|done]. cbn -[Z.to_nat replicate].
    unfold set_ptr_and_cap, mbind, prog_bind, assume. rewrite (proj2 (Z.leb_le c isize_MAX)) by lia.
    cbn -[Z.to_nat replicate]. by rewrite Htake.
Qed.

Lemma grown_cap c s : raw_cap s ≤ c → raw_cap (grown c s) = c.
Proof. unfold raw_cap, grown. cbn. rewrite length_app, length_replicate. lia. Qed.

Lemma grown_ok c s : raw_cap s ≤ c → 0 < c → array_fits c = true → raw_ok (grown c s).
Proof.
  intros. unfold raw_ok. rewrite grown_cap by done. split; [done|].
  by destruct (Z.eqb_spec c 0); [lia|].
Qed.

Lemma needs_to_grow_eq len additional s : raw_ok s → 0 ≤ len ≤ raw_cap s →
  needs_to_grow el len additional s = Ret (raw_cap s - len <? additional) s.
Proof.
  intros [Hf _] Hlen. pose proof elem_bounds. destruct (array_fits_bounds (raw_cap s)); [lia|done|].
  unfold needs_to_grow, capacity, mbind, prog_bind.
  destruct (Z.eqb_spec (size el) 0); [lia|]. unfold cap, gets. fold (raw_cap s).
  unfold isize_MAX in *. by rewrite Z.mod_small by lia.
Qed.

(** The capacity [grow_amortized] asks for. *)
Definition amortized_cap len additional s : Z :=
  Z.max (min_non_zero_cap (size el)) (Z.max (raw_cap s * 2) (len + additional)).

Lemma amortized_cap_bounds len additional s : raw_ok s → 0 ≤ len → 0 < additional →
  len + additional ≤ usize_MAX →
  raw_cap s ≤ amortized_cap len additional s ∧ 0 < amortized_cap len additional s ≤ usize_MAX ∧
  len + additional ≤ amortized_cap len additional s.
Proof.
  intros [Hf _] ???. destruct (array_fits_bounds (raw_cap s)); [unfold raw_cap; lia|done|].
  assert (1 ≤ min_non_zero_cap (size el) ≤ 8) by (unfold min_non_zero_cap; repeat case_bool; lia).
  unfold amortized_cap, usize_MAX, isize_MAX in *. lia.
Qed.

Lemma grow_amortized_eq len additional s : raw_ok s → 0 ≤ len → 0 < additional →
  grow_amortized el alloc_ok len additional s =
    if usize_MAX <? len + additional then Ret (Some CapacityOverflow) s
    else grow_to el alloc_ok (amortized_cap len additional s) s.
Proof.
  intros Hs Hlen Hadd. pose proof elem_bounds. destruct Hs as [Hf _].
  destruct (array_fits_bounds (raw_cap s)); [unfold raw_cap; lia|done|].
  unfold grow_amortized, assert_, mbind, prog_bind.
  rewrite (proj2 (Z.ltb_lt 0 additional)) by done. cbn [mret prog_ret].
  rewrite (proj2 (Z.eqb_neq (size el) 0)) by lia. destruct (usize_MAX <? len + additional); [done|].
  unfold cap, gets. fold (raw_cap s).
  rewrite (proj2 (Z.leb_le (raw_cap s * 2) usize_MAX)) by (unfold usize_MAX, isize_MAX in *; lia).
  done.
Qed.

Lemma array_fits_mono c c' : 0 ≤ c ≤ c' → array_fits c' = true → array_fits c = true.
Proof. pose proof elem_bounds. unfold array_fits. rewrite !Z.leb_le. nia. Qed.

(** ** Reserving room *)

(** [Q] of every state with room for [additional] more elements that differs
    from [s] in the spare room only. *)
Definition reserved len additional s (Q : () → buffer R T → Prop) : Prop :=
  ∀ k b, let s' := Buffer (regs s) (cells s ++ replicate k None) b (dropped s) (clock s) in
    raw_ok s' → len + additional ≤ raw_cap s' → Q () s'.

Lemma reserved_grown len additional s c (Q : () → buffer R T → Prop) :
  reserved len additional s Q → raw_cap s ≤ c → 0 < c → array_fits c = true →
  len + additional ≤ c → Q () (grown c s).
Proof.
  intros HQ ????. apply HQ; [by apply grown_ok|].
  change (len + additional ≤ raw_cap (grown c s)). by rewrite grown_cap.
Qed.

Lemma reserved_now len additional s (Q : () → buffer R T → Prop) :
  raw_ok s → reserved len additional s Q → len + additional ≤ raw_cap s → Q () s.
Proof.
  intros Hs HQ Hc. specialize (HQ 0%nat (block s)). simpl in HQ. rewrite app_nil_r in HQ.
  destruct s. by apply HQ.
Qed.

(** Growing succeeds, or the capacity overflows, or the allocator refuses. *)
Definition overflows len additional s : Prop :=
  array_fits (len + additional) = false ∨ array_fits (amortized_cap len additional s) = false.
Definition out_of_memory : Prop := ∃ layout, alloc_ok layout = false.

Lemma grow_amortized_spec (X : Prop) len additional s (Q : () → buffer R T → Prop) P :
  (out_of_memory → X) →
  raw_ok s → 0 ≤ len → 0 < additional → reserved len additional s Q → (overflows len additional s → P s) →
  wpa X (r ← grow_amortized el alloc_ok len additional; unwrap_or_handle r) Q P s.
Proof.
  intros HX Hs Hlen Hadd HQ HP. apply wpa_bind. unfold wpa. rewrite grow_amortized_eq by done.
  destruct (Z.ltb_spec usize_MAX (len + additional)) as [Hov|Hov].
  { apply HP. left. pose proof elem_bounds.
    unfold array_fits, usize_MAX, isize_MAX in *. rewrite Z.leb_gt. nia. }
  destruct (amortized_cap_bounds len additional s) as (?&?&?); [done..|].
  rewrite grow_to_eq by done. destruct (array_fits (amortized_cap _ _ _)) eqn:Hf; [|apply HP; by right].
  destruct (alloc_ok _) eqn:Ha; [|by apply HX; eexists].
  apply (reserved_grown len additional s _ Q); try done; try lia.
Qed.

Lemma reserve_spec (X : Prop) len additional s (Q : () → buffer R T → Prop) (P : buffer R T → Prop) :
  (out_of_memory → X) →
  raw_ok s → 0 ≤ len ≤ raw_cap s → reserved len additional s Q →
  (raw_cap s < len + additional → overflows len additional s → P s) →
  wpa X (reserve el alloc_ok len additional) Q P s.
Proof.
  intros HX Hs Hlen HQ HP. unfold reserve. apply wpa_bind. unfold wpa at 1.
  rewrite needs_to_grow_eq by done. destruct (Z.ltb_spec (raw_cap s - len) additional).
  - apply grow_amortized_spec; [done|done|lia|lia|done|]. apply HP. lia.
  - apply wpa_ret. eapply reserved_now; [done|done|lia].
Qed.

(** Only what takes up more than half of the largest block fails to grow. *)
Definition too_big (n : Z) : Prop := array_fits (2 * n) = false.

Lemma overflows_too_big len additional s : raw_cap s < len + additional →
  overflows len additional s → too_big (len + additional).
Proof.
  intros Hcap Hov. pose proof elem_bounds as Hb. pose proof Hel as [[_ Hlay] _].
  unfold too_big, overflows, amortized_cap, array_fits, isize_MAX, min_non_zero_cap in *.
  rewrite !Z.leb_gt in *. set (n := len + additional) in *.
  assert (0 ≤ raw_cap s) by (unfold raw_cap; lia). clearbody n.
  destruct (Z.eqb_spec (size el) 1), (Z.leb_spec (size el) 1024); destruct Hov as [Hov|Hov]; try nia.
Qed.

Lemma grow_one_spec (X : Prop) s (Q : () → buffer R T → Prop) (P : buffer R T → Prop) :
  (out_of_memory → X) → raw_ok s → reserved (raw_cap s) 1 s Q → (overflows (raw_cap s) 1 s → P s) →
  wpa X (grow_one el alloc_ok) Q P s.
Proof.
  intros HX Hs HQ HP. unfold grow_one. apply wpa_bind, wpa_wp, wp_gets. fold (raw_cap s).
  apply grow_amortized_spec; [done|done|unfold raw_cap; lia|lia|done|done].
Qed.

(** A new buffer. *)
Lemma with_capacity_spec (X : Prop) c s (Q : () → buffer R T → Prop) (P : buffer R T → Prop) :
  (out_of_memory → X) → cells s = [] → block s = None → 0 ≤ c ≤ usize_MAX →
  (∀ b, let s' := Buffer (regs s) (replicate (Z.to_nat c) None) b (dropped s) (clock s) in
     raw_ok s' → Q () s') →
  (array_fits c = false → P s) →
  wpa X (with_capacity_in el alloc_ok c) Q P s.
Proof.
  intros HX Hcs Hb Hc HQ HP. pose proof elem_bounds. unfold with_capacity_in, try_allocate_in.
  apply wpa_bind, wpa_bind. unfold wpa at 1. rewrite layout_array_eq by done.
  destruct (array_fits c) eqn:Hf; [|by apply wpa_ret, wpa_wp, wp_panic, HP].
  assert (∀ b, b = (if c =? 0 then None else Some (array_layout c)) →
    let s' := Buffer (regs s) (replicate (Z.to_nat c) None) b (dropped s) (clock s) in
    wpa X (g ← needs_to_grow el 0 c; assume (negb g)) Q P s') as Hend.
  { intros b Hbc s'. assert (raw_cap s' = c) as Hcap by (unfold raw_cap; cbn; rewrite length_replicate; lia).
    assert (raw_ok s') as Hs' by (unfold raw_ok; rewrite Hcap; by subst b).
    apply wpa_bind. unfold wpa at 1. rewrite needs_to_grow_eq by (done || lia).
    apply wpa_wp, wp_assume; [|by apply HQ]. rewrite Hcap. apply negb_true_iff, Z.ltb_ge. lia. }
  cbn [size array_layout]. destruct (Z.eqb_spec (size el * c) 0) as [H0|H0].
  { assert (c = 0) as -> by nia. apply wpa_ret. specialize (Hend None eq_refl).
    destruct s as [r cs b d k]. cbn in *. subst. apply Hend. }
  apply wpa_bind. unfold wpa at 1, allocate. destruct (alloc_ok _) eqn:Hok.
  2:{ apply wpa_ret. apply HX. by eexists. }
  apply wpa_bind, wpa_bind, wpa_wp, wp_assume.
  { apply Z.leb_le. destruct (array_fits_bounds c); [lia|done|lia]. }
  apply wpa_wp, wp_modify, wpa_ret. cbn. rewrite Hcs, take_nil. cbn. rewrite Nat.sub_0_r.
  apply Hend. by rewrite (proj2 (Z.eqb_neq c 0)) by nia.
Qed.

(** ** Shrinking and freeing *)
Definition shrunk c s : buffer R T :=
  Buffer (regs s) (take (Z.to_nat c) (cells s))
    (if c =? 0 then None else Some (array_layout c)) (dropped s) (clock s).

Lemma shrunk_cap c s : 0 ≤ c ≤ raw_cap s → raw_cap (shrunk c s) = c.
Proof. unfold raw_cap, shrunk. cbn. rewrite length_take. lia. Qed.

Lemma shrunk_ok c s : raw_ok s → 0 ≤ c ≤ raw_cap s → raw_ok (shrunk c s).
Proof.
  intros [Hf _] Hc. unfold raw_ok. rewrite shrunk_cap by done. split; [|done].
  by apply (array_fits_mono c (raw_cap s)).
Qed.

Lemma shrink_eq c s : raw_ok s → 0 ≤ c ≤ raw_cap s →
  shrink el alloc_ok c s =
    if (raw_cap s =? 0) || (c =? 0) || alloc_ok (array_layout c) then Ret None (shrunk c s)
    else Ret (Some (AllocError (array_layout c))) s.
Proof.
  intros Hs Hc. pose proof elem_bounds. pose proof Hs as [Hf Hb].
  unfold shrink, capacity, mbind, prog_bind.
  rewrite (proj2 (Z.eqb_neq (size el) 0)) by lia. unfold cap, gets. fold (raw_cap s).
  rewrite (proj2 (Z.leb_le c (raw_cap s))) by lia. cbn [assert_ mret prog_ret].
  unfold shrink_unchecked, mbind, prog_bind. rewrite current_memory_eq by done. rewrite Hb.
  assert (replicate (Z.to_nat c - length (cells s)) None = @nil (option T)) as Hrep.
  { unfold raw_cap in *. by replace (Z.to_nat c - length (cells s))%nat with 0%nat by lia. }
  destruct (Z.eqb_spec (raw_cap s) 0) as [H0|H0]; cbn [orb].
  { assert (c = 0) as -> by lia. unfold shrunk. destruct s as [r cs b d k]. cbn in *.
    by rewrite Hb, take_0, (nil_length_inv cs) by (unfold raw_cap in *; cbn in *; lia). }
  destruct (Z.eqb_spec c 0) as [->|Hc0]; cbn [orb].
  { unfold deallocate_block. rewrite Hb, fits_refl.
    unfold set_ptr_and_cap, mbind, prog_bind. done. }
  destruct (array_fits_bounds (raw_cap s)); [lia|done|].
  unfold unchecked_mul, usize_MAX, isize_MAX in *.
  rewrite (proj2 (Z.leb_le (size el * c) (2 ^ 64 - 1))) by nia. cbn [lift mret prog_ret].
  change (align (array_layout (raw_cap s))) with (align el).
  rewrite from_array_layout by (try lia; by apply (array_fits_mono c (raw_cap s))).
  cbn [lift mret prog_ret]. unfold reallocate.
  change (align (array_layout (raw_cap s))) with (align el).
  change (align (array_layout c)) with (align el). rewrite Z.eqb_refl, Hb, fits_refl.
  cbn [size array_layout andb].
  rewrite (proj2 (Z.leb_le (size el * c) (size el * raw_cap s))) by nia.
  destruct (alloc_ok _); [|done]. unfold set_ptr_and_cap, assume, mbind, prog_bind.
  rewrite (proj2 (Z.leb_le c isize_MAX)) by (unfold isize_MAX; lia). cbn -[Z.to_nat].
  rewrite Hrep, app_nil_r. unfold shrunk. by rewrite (proj2 (Z.eqb_neq _ _) Hc0).
Qed.

Lemma deallocate_eq s : raw_ok s → deallocate el s = Ret () (set_block None s).
Proof.
  intros Hs. unfold deallocate, mbind, prog_bind. rewrite current_memory_eq by done.
  destruct s as [r cs [l|] d k]; [|done]. unfold deallocate_block. cbn [block].
  by rewrite fits_refl.
Qed.
End spec.

(** ** Properties *)
Local Open Scope Z_scope.

(** [grow_amortized], whatever the allocator answers: when it succeeds there
    is room for the elements asked for, the capacity has at least doubled, the
    contents are where they were and the block matches the capacity; otherwise
    nothing has changed, and either an array that large cannot exist or the
    allocator refused.  The allocator is only ever called as its contract asks. *)
Theorem grow_amortized_correct {R T} (el : Layout) (alloc_ok : Layout → bool)
    (len additional : Z) (s : buffer R T) :
  elem_ok el → raw_ok el s → 0 ≤ len → 0 < additional →
  match grow_amortized el alloc_ok len additional s with
  | Ret None s' => raw_ok el s' ∧ regs s' = regs s ∧ (∃ k, cells s' = cells s ++ replicate k None) ∧
      len + additional ≤ raw_cap s' ∧ 2 * raw_cap s ≤ raw_cap s'
  | Ret (Some CapacityOverflow) s' => s' = s ∧
      (usize_MAX < len + additional ∨
       isize_MAX < size el * amortized_cap el len additional s + (align el - 1))
  | Ret (Some (AllocError l)) s' => s' = s ∧ alloc_ok l = false
  | Panic _ | Fault _ => False
  end.
Proof.
  intros Hel Hs Hlen Hadd. rewrite grow_amortized_eq by done.
  destruct (Z.ltb_spec usize_MAX (len + additional)); [by split; [|left]|].
  destruct (amortized_cap_bounds el alloc_ok Hel len additional s) as (Hc1&Hc2&Hc3); [done..|].
  rewrite grow_to_eq by done. destruct (array_fits el _) eqn:Hf.
  - destruct (alloc_ok _) eqn:Ha; [|done].
    split; [by apply grown_ok; try lia|]. split; [done|]. split; [by eexists|].
    rewrite !grown_cap by done. split; [done|]. unfold amortized_cap. lia.
  - split; [done|]. right. unfold array_fits in Hf. apply Z.leb_gt in Hf. lia.
Qed.

Lemma grow_amortized_correct_witness :
  let s := Buffer (T := nat) () [Some 7%nat] (Some (MkLayout 8 8)) [] 0 in
  match grow_amortized (MkLayout 8 8) (λ _, true) 1 1 s with
  | Ret None s' => raw_ok (MkLayout 8 8) s' ∧ regs s' = regs s ∧
      (∃ k, cells s' = cells s ++ replicate k None) ∧ 1 + 1 ≤ raw_cap s' ∧ 2 * raw_cap s ≤ raw_cap s'
  | Ret (Some CapacityOverflow) s' => s' = s ∧
      (usize_MAX < 1 + 1 ∨ isize_MAX < 8 * amortized_cap (MkLayout 8 8) 1 1 s + (8 - 1))
  | Ret (Some (AllocError l)) s' => s' = s ∧ true = false
  | Panic _ | Fault _ => False
  end.
Proof.
  apply (grow_amortized_correct (MkLayout 8 8) (λ _, true) 1 1); [|by split|lia|lia].
  split; [split; [by exists 3|vm_compute; split; congruence]|]. split; [by exists 1|done].
Defined.

(** ** The life of a buffer *)
(** What its owner may ask for; [true] asks for an exact capacity. *)
Inductive raw_op :=
  | TryReserve (exact : bool) (len additional : Z)
  | Reserve (exact : bool) (len additional : Z)
  | GrowOne
  | Shrink (c : Z)
  | ShrinkToFit (c : Z).

Definition raw_run {R T} (el : Layout) (alloc_ok : Layout → bool) (o : raw_op) : prog (buffer R T) (option TryReserveError) :=
  match o with
  | TryReserve false len additional => try_reserve el alloc_ok len additional
  | TryReserve true len additional => try_reserve_exact el alloc_ok len additional
  | Reserve false len additional => _ ← reserve el alloc_ok len additional; mret None
  | Reserve true len additional => _ ← reserve_exact el alloc_ok len additional; mret None
  | GrowOne => _ ← grow_one el alloc_ok; mret None
  | Shrink c => shrink el alloc_ok c
  | ShrinkToFit c => _ ← shrink_to_fit el alloc_ok c; mret None
  end.

(** What the owner has to see to: the length is within the capacity, the rest is
    a [usize], and a buffer shrinks to less than it has. *)
Definition raw_allowed {R T} (o : raw_op) (s : buffer R T) : Prop :=
  match o with
  | TryReserve _ len additional | Reserve _ len additional => 0 ≤ len ≤ raw_cap s ∧ 0 ≤ additional ≤ usize_MAX
  | GrowOne => True
  | Shrink c | ShrinkToFit c => 0 ≤ c ≤ raw_cap s
  end.

(** Every call that comes back, also one that unwinds, and any use of the cells *)
Inductive raw_step {R T} (el : Layout) (alloc_ok : Layout → bool) (s : buffer R T) : buffer R T → Prop :=
  | step_return o r s' : raw_allowed o s → raw_run el alloc_ok o s = Ret r s' → raw_step el alloc_ok s s'
  | step_unwind o s' : raw_allowed o s → raw_run el alloc_ok o s = Panic s' → raw_step el alloc_ok s s'
  | step_owner s' : block s' = block s → length (cells s') = length (cells s) → raw_step el alloc_ok s s'.

(** The capacity that an operation promises *)
Definition raw_enough {R T} (o : raw_op) (s s' : buffer R T) : Prop :=
  match o with
  | TryReserve _ len additional | Reserve _ len additional => len + additional ≤ raw_cap s'
  | GrowOne => raw_cap s < raw_cap s'
  | Shrink c | ShrinkToFit c => raw_cap s' = c
  end.

(** What may come of it: the capacity promised, with the contents that fit in it;
    no change with an error; and an abort only when the allocator has refused. *)
Definition raw_outcome {R T} (alloc_ok : Layout → bool) (o : raw_op) (s : buffer R T)
    (out : outcome (buffer R T) (option TryReserveError)) : Prop :=
  match out with
  | Ret None s' => raw_enough o s s' ∧ regs s' = regs s ∧ dropped s' = dropped s ∧
      ∀ i x, cells s !! i = Some x → Z.of_nat i < raw_cap s' → cells s' !! i = Some x
  | Ret (Some e) s' => s' = s ∧ match e with CapacityOverflow => True | AllocError l => alloc_ok l = false end
  | Panic s' => s' = s
  | Fault f => f = Aborted ∧ out_of_memory alloc_ok
  end.

Section life.
Context {R T : Type} (el : Layout) (alloc_ok : Layout → bool).
Hypothesis Hel : elem_ok el.
Implicit Types (s : buffer R T) (o : raw_op).

(** What is proved of a call: the outcome, and the invariant where it comes back. *)
Definition raw_good o s (out : outcome (buffer R T) (option TryReserveError)) : Prop :=
  raw_outcome alloc_ok o s out ∧ match out with Ret _ s' | Panic s' => raw_ok el s' | Fault _ => True end.

(** The calls that answer an error do not unwind. *)
Definition raw_answers o s (out : outcome (buffer R T) (option TryReserveError)) : Prop :=
  raw_good o s out ∧ match out with Ret _ _ => True | _ => False end.

Lemma raw_same o s : raw_ok el s → raw_enough o s s → raw_answers o s (Ret None s).
Proof. intros. by split_and!. Qed.

Lemma grow_to_good o c s : raw_ok el s → raw_cap s ≤ c → 0 < c ≤ usize_MAX →
  (∀ s', raw_cap s' = c → raw_enough o s s') → raw_answers o s (grow_to el alloc_ok c s).
Proof.
  intros Hs Hc Hc0 Hn. rewrite grow_to_eq by done.
  destruct (array_fits el c) eqn:Hf; [|by split_and!].
  destruct (alloc_ok _) eqn:Ha; [|by split_and!].
  split; [|done]. split; [|by apply grown_ok; try done; lia]. split_and!; [by apply Hn, grown_cap|done..|].
  intros i x Hi _. cbn. by apply lookup_app_l_Some.
Qed.

Lemma grow_amortized_good o len additional s : raw_ok el s → 0 ≤ len → 0 < additional →
  (∀ s', len + additional ≤ raw_cap s' → raw_enough o s s') →
  raw_answers o s (grow_amortized el alloc_ok len additional s).
Proof.
  intros Hs Hlen Hadd Hn. rewrite grow_amortized_eq by done.
  destruct (Z.ltb_spec usize_MAX (len + additional)); [by split_and!|].
  destruct (amortized_cap_bounds el alloc_ok Hel len additional s) as (?&?&?); [done..|].
  apply grow_to_good; try done. intros s' Hs'. apply Hn. lia.
Qed.

Lemma grow_exact_good o len additional s : raw_ok el s → 0 ≤ len ≤ raw_cap s → raw_cap s - len < additional →
  (∀ s', len + additional ≤ raw_cap s' → raw_enough o s s') →
  raw_answers o s (grow_exact el alloc_ok len additional s).
Proof.
  intros Hs Hlen Hadd Hn. unfold grow_exact. pose proof (elem_bounds el alloc_ok Hel).
  destruct (Z.eqb_spec (size el) 0); [lia|].
  destruct (Z.ltb_spec usize_MAX (len + additional)); [by split_and!|].
  apply grow_to_good; [done|lia|lia|]. intros s' Hs'. apply Hn. lia.
Qed.

Lemma try_reserve_with_good exact grow len additional s : raw_ok el s → 0 ≤ len ≤ raw_cap s →
  (raw_cap s - len < additional → raw_answers (TryReserve exact len additional) s (grow len additional s)) →
  raw_answers (TryReserve exact len additional) s (try_reserve_with el grow len additional s).
Proof.
  intros Hs Hlen Hgrow. unfold try_reserve_with, mbind, prog_bind.
  rewrite needs_to_grow_eq by done. destruct (Z.ltb_spec (raw_cap s - len) additional) as [Hadd|Hadd].
  - specialize (Hgrow Hadd). destruct (grow len additional s) as [[e|] s1|s1|]; try by destruct Hgrow.
    pose proof Hgrow as [[[Hn _] Hs1] _]. cbn in Hn. rewrite needs_to_grow_eq by (done || lia).
    rewrite (proj2 (Z.ltb_ge _ _)) by lia. exact Hgrow.
  - cbn -[needs_to_grow]. rewrite needs_to_grow_eq by done. rewrite (proj2 (Z.ltb_ge _ _)) by lia.
    apply raw_same; [done|]. cbn. lia.
Qed.

(** A caller that handles the error by unwinding or aborting *)
Lemma unwrap_good o p s : raw_answers o s (p s) → raw_good o s ((_ ← (r ← p; unwrap_or_handle r); mret None) s).
Proof.
  intros [[Ho Hs] Ha]. unfold mbind, prog_bind. destruct (p s) as [[[|l]|] s1|s1|]; try done.
  - destruct Ho as [-> _]. by split.
  - destruct Ho as [-> Hl]. split; [|done]. split; [done|by exists l].
Qed.

Lemma shrink_good c s : raw_ok el s → 0 ≤ c ≤ raw_cap s → raw_answers (Shrink c) s (shrink el alloc_ok c s).
Proof.
  intros Hs Hc. rewrite shrink_eq by done. destruct (_ || _) eqn:Hb.
  - split; [|done]. split; [|by apply shrunk_ok]. split_and!; [by apply shrunk_cap|done..|].
    intros i x Hi Hlt. rewrite shrunk_cap in Hlt by done. cbn. rewrite lookup_take_lt by lia. done.
  - by apply orb_false_iff in Hb as [_ ?].
Qed.

Lemma raw_run_good o s : raw_ok el s → raw_allowed o s → raw_good o s (raw_run el alloc_ok o s).
Proof.
  intros Hs Ho. assert (Hcap : 0 ≤ raw_cap s) by (unfold raw_cap; lia).
  assert (Htry : ∀ exact len additional, 0 ≤ len ≤ raw_cap s → 0 ≤ additional ≤ usize_MAX →
    raw_answers (TryReserve exact len additional) s (raw_run el alloc_ok (TryReserve exact len additional) s)).
  { intros [] len additional Hl Ha; (apply try_reserve_with_good; [done..|]); intros Hadd.
    - by apply grow_exact_good.
    - apply grow_amortized_good; [done|lia|lia|done]. }
  destruct o as [exact len additional|exact len additional| |c|c]; cbn [raw_allowed] in Ho.
  - destruct Ho. by apply Htry.
  - destruct Ho as [Hl Ha]. destruct exact.
    + specialize (Htry true len additional Hl Ha). cbn [raw_run] in *. unfold reserve_exact.
      apply (unwrap_good (Reserve true len additional) (try_reserve_exact el alloc_ok len additional) s). exact Htry.
    + cbn [raw_run]. unfold reserve, mbind, prog_bind. rewrite needs_to_grow_eq by done.
      destruct (Z.ltb_spec (raw_cap s - len) additional).
      * apply (unwrap_good (Reserve false len additional) (grow_amortized el alloc_ok len additional) s).
        apply grow_amortized_good; [done|lia|lia|done].
      * apply raw_same; [done|]. cbn. lia.
  - cbn [raw_run]. unfold grow_one, cap, gets, mbind, prog_bind. fold (raw_cap s).
    apply (unwrap_good GrowOne (grow_amortized el alloc_ok (raw_cap s) 1) s).
    apply grow_amortized_good; [done|lia|lia|]. intros s' Hs'. cbn. lia.
  - by apply shrink_good.
  - cbn [raw_run]. unfold shrink_to_fit.
    apply (unwrap_good (ShrinkToFit c) (shrink el alloc_ok c) s). by apply shrink_good.
Qed.

Lemma raw_step_ok s s' : raw_ok el s → raw_step el alloc_ok s s' → raw_ok el s'.
Proof.
  intros Hs [o r s1 Ho H|o s1 Ho H|s1 Hb Hl].
  1,2: pose proof (raw_run_good o s Hs Ho) as [_ Hg]; by rewrite H in Hg.
  destruct Hs as [Hf Hb']. unfold raw_ok, raw_cap in *. by rewrite Hb, Hl.
Qed.
End life.

(** C12: the allocator's contract over the whole life of a buffer.  From an empty
    one, after any sequence of reservations, growth by one, shrinking, calls that
    unwound, and use of the cells by the owner, and whatever the allocator
    answered: the block is the one that the capacity calls for; dropping the
    buffer frees exactly this block with its layout; and every operation that
    the owner may ask for then reaches no undefined behaviour (a call of the
    allocator with another layout than the block's would be one), either gives
    the capacity asked for and keeps the contents, or fails without a change, and
    aborts only when the allocator has refused. *)
Theorem buffer_life {R T} (el : Layout) (alloc_ok : Layout → bool) (r : R) (s : buffer R T) :
  elem_ok el → rtc (raw_step el alloc_ok) (Buffer r [] None [] 0) s →
  (raw_cap s = 0 ∧ block s = None ∨
   0 < raw_cap s ∧ block s = Some (MkLayout (size el * raw_cap s) (align el))) ∧
  deallocate el s = Ret () (set_block None s) ∧
  ∀ o, raw_allowed o s → raw_outcome alloc_ok o s (raw_run el alloc_ok o s).
Proof.
  intros Hel Hrtc. assert (raw_ok el s) as Hs.
  { assert (raw_ok el (Buffer r [] None [] 0 : buffer R T)) as H0.
    { split; [|done]. pose proof (elem_bounds el alloc_ok Hel). unfold array_fits, raw_cap. cbn.
      apply Z.leb_le. unfold isize_MAX in *. destruct Hel as [[Ha%alignment_bounds _] _].
      unfold isize_MAX in *. lia. }
    revert H0. induction Hrtc as [|s1 s2 s3 Hstep _ IH]; [done|]. intros H1.
    by eapply IH, raw_step_ok. }
  split_and!; [|by apply deallocate_eq|intros o Ho; by apply raw_run_good]. destruct Hs as [_ Hb]. rewrite Hb.
  destruct (Z.eqb_spec (raw_cap s) 0); [by left|right]. split; [unfold raw_cap in *; lia|done].
Qed.

Lemma buffer_life_witness :
  let s := Buffer (T := nat) () [None; None; None; None] (Some (MkLayout 32 8)) [] 0 in
  (raw_cap s = 0 ∧ block s = None ∨ 0 < raw_cap s ∧ block s = Some (MkLayout (8 * raw_cap s) 8)) ∧
  deallocate (MkLayout 8 8) s = Ret () (set_block None s) ∧
  ∀ o, raw_allowed o s → raw_outcome (λ _, true) o s (raw_run (MkLayout 8 8) (λ _, true) o s).
Proof.
  apply (buffer_life (MkLayout 8 8) (λ _, true) ()).
  - split; [split; [by exists 3|vm_compute; split; congruence]|]. split; [by exists 1|done].
  - eapply rtc_l; [|apply rtc_refl]. apply (step_return _ _ _ GrowOne None); [done|]. vm_compute. reflexivity.
Defined.
