(* ===== verification/Cells.v ===== *)
(** Raw access to the cells of a buffer, and the user code a container calls:
    callbacks and destructors.  Shared by [Vec] and [VecDeque]. *)

From S2P Require Import Prelude.
From S2P Require Import Layout.
From S2P Require Import RawVec.

(** User code is a function of the number of user calls made so far: it may
    answer anything, and [None] is a panic. *)
Section cells.
Context {R T : Type}.
(** The destructor of [T] panics on this call. *)
Context (drop_panics : nat → T → bool).
Implicit Types (s : buffer R T) (i j n : nat).

Definition set_regs (r : R) s : buffer R T := Buffer r (cells s) (block s) (dropped s) (clock s).
Definition set_dropped (d : list T) s : buffer R T := Buffer (regs s) (cells s) (block s) d (clock s).
Definition tick s : buffer R T := Buffer (regs s) (cells s) (block s) (dropped s) (clock s + 1).

(** [ptr.add(i).read()]: the cell must hold a value. *)
Definition rd_cell i : prog (buffer R T) T := λ s,
  match cells s !! i with
  | Some (Some x) => Ret x s
  | _ => Fault Undefined
  end.

Definition wr_cell i (x : T) : prog (buffer R T) () := λ s,
  if i <? length (cells s) then Ret () (set_cells (<[i := Some x]> (cells s)) s)
  else Fault Undefined.

(** [ptr::copy_nonoverlapping] from another buffer. *)
Definition wr_cells i (xs : list T) : prog (buffer R T) () := λ s,
  if i + length xs <=? length (cells s)
  then Ret () (set_cells (list_inserts i (Some <$> xs) (cells s)) s)
  else Fault Undefined.

(** [ptr::copy]: the ranges may overlap. *)
Definition copy_cells i j n : prog (buffer R T) () := λ s,
  if (i + n <=? length (cells s)) && (j + n <=? length (cells s))
  then Ret () (set_cells (list_inserts j (take n (drop i (cells s))) (cells s)) s)
  else Fault Undefined.

Definition copy_cells_nonoverlapping i j n : prog (buffer R T) () :=
  _ ← assume ((i + n <=? j) || (j + n <=? i) || (n =? 0)); copy_cells i j n.

(** A call of user code: a callback, its argument and its answer. *)
Definition call {B} (f : nat → option B) : prog (buffer R T) B := λ s,
  match f (clock s) with
  | Some b => Ret b (tick s)
  | None => Panic (tick s)
  end.

(** A callback that gets a mutable reference to a cell: it may change the value
    before it answers or panics. *)
Definition call_mut {B} (f : nat → T → T * option B) i : prog (buffer R T) B :=
  cur ← rd_cell i;
  c ← gets clock;
  let '(cur', r) := f c cur in
  _ ← wr_cell i cur';
  call (λ _, r).

(** [drop_in_place] of a value that has been read out or is not used again. *)
Definition drop_value (x : T) : prog (buffer R T) () := λ s,
  let s' := tick (set_dropped (x :: dropped s) s) in
  if drop_panics (clock s) x then Panic s' else Ret () s'.

(** [drop_in_place] of a slice: when a destructor panics the others still run,
    and a second panic aborts. *)
Fixpoint drop_values (xs : list T) : prog (buffer R T) () :=
  match xs with
  | [] => mret ()
  | x :: xs => _ ← on_panic (drop_value x) (drop_values xs); drop_values xs
  end.

(** The values of a range of cells. *)
Fixpoint rd_cells i n : prog (buffer R T) (list T) :=
  match n with
  | O => mret []
  | S n => x ← rd_cell i; xs ← rd_cells (i + 1) n; mret (x :: xs)
  end.

(** ** Rules *)
Lemma wp_rd_cell i x s (Q : T → buffer R T → Prop) P :
  cells s !! i = Some (Some x) → Q x s → wp (rd_cell i) Q P s.
Proof. intros Hx HQ. unfold wp, rd_cell. by rewrite Hx. Qed.

Lemma wp_wr_cell i x s (Q : () → buffer R T → Prop) P :
  i < length (cells s) → Q () (set_cells (<[i := Some x]> (cells s)) s) → wp (wr_cell i x) Q P s.
Proof. intros Hi HQ. unfold wp, wr_cell. by rewrite (proj2 (Nat.ltb_lt _ _)). Qed.

Lemma wp_wr_cells i xs s (Q : () → buffer R T → Prop) P :
  i + length xs ≤ length (cells s) →
  Q () (set_cells (list_inserts i (Some <$> xs) (cells s)) s) → wp (wr_cells i xs) Q P s.
Proof. intros Hi HQ. unfold wp, wr_cells. by rewrite (proj2 (Nat.leb_le _ _) Hi). Qed.

Lemma wp_copy_cells i j n s (Q : () → buffer R T → Prop) P :
  i + n ≤ length (cells s) → j + n ≤ length (cells s) →
  Q () (set_cells (list_inserts j (take n (drop i (cells s))) (cells s)) s) →
  wp (copy_cells i j n) Q P s.
Proof.
  intros Hi Hj HQ. unfold wp, copy_cells.
  by rewrite (proj2 (Nat.leb_le _ _) Hi), (proj2 (Nat.leb_le _ _) Hj).
Qed.

Lemma wp_copy_cells_nonoverlapping i j n s (Q : () → buffer R T → Prop) P :
  i + n ≤ length (cells s) → j + n ≤ length (cells s) → i + n ≤ j ∨ j + n ≤ i →
  Q () (set_cells (list_inserts j (take n (drop i (cells s))) (cells s)) s) →
  wp (copy_cells_nonoverlapping i j n) Q P s.
Proof.
  intros Hi Hj Hd HQ. unfold copy_cells_nonoverlapping.
  apply wp_bind, wp_assume; [|by apply wp_copy_cells].
  rewrite !orb_true_iff, !Nat.leb_le. left. destruct Hd; auto.
Qed.

Lemma wp_call {B} (f : nat → option B) s (Q : B → buffer R T → Prop) (P : buffer R T → Prop) :
  (∀ b, f (clock s) = Some b → Q b (tick s)) → (f (clock s) = None → P (tick s)) →
  wp (call f) Q P s.
Proof. intros HQ HP. unfold wp, call. destruct (f (clock s)); auto. Qed.

Lemma wp_drop_value x s (Q : () → buffer R T → Prop) (P : buffer R T → Prop) :
  Q () (tick (set_dropped (x :: dropped s) s)) →
  (drop_panics (clock s) x = true → P (tick (set_dropped (x :: dropped s) s))) →
  wp (drop_value x) Q P s.
Proof. intros HQ HP. unfold wp, drop_value. destruct (drop_panics _ _); auto. Qed.

Lemma wp_rd_cells i l s (Q : list T → buffer R T → Prop) P :
  (∀ k x, l !! k = Some x → cells s !! (i + k) = Some (Some x)) → Q l s →
  wp (rd_cells i (length l)) Q P s.
Proof.
  revert i Q. induction l as [|x l IH]; intros i Q Hl HQ; simpl; [by apply wp_ret|].
  apply wp_bind. eapply wp_rd_cell; [rewrite <- (Nat.add_0_r i); by apply (Hl 0)|].
  apply wp_bind, IH; [|by apply wp_ret]. intros k y Hy.
  replace (i + 1 + k) with (i + S k) by lia. by apply Hl.
Qed.

(** Dropping a slice runs every destructor once, unless two of them panic, which
    aborts the process. *)
Definition dropping (xs : list T) s s' : Prop :=
  regs s' = regs s ∧ cells s' = cells s ∧ block s' = block s ∧
  dropped s' = reverse xs ++ dropped s.

Definition drops_panic : Prop := ∃ c x, drop_panics c x = true.

Lemma drop_values_spec (X : Prop) xs s : (drops_panic → X) →
  wpa X (drop_values xs) (λ _, dropping xs s) (λ s', drops_panic ∧ dropping xs s s') s.
Proof.
  intros HX. revert s. induction xs as [|x xs IH]; intros s; [done|].
  simpl. unfold wpa, mbind, prog_bind, on_panic, drop_value.
  set (s1 := tick (set_dropped (x :: dropped s) s)).
  assert (∀ s', dropping xs s1 s' → dropping (x :: xs) s s') as Hd.
  { intros s' (?&?&?&Hdr). split_and!; [done..|]. rewrite Hdr, reverse_cons. simpl.
    by rewrite <- app_assoc. }
  specialize (IH s1). unfold wpa in IH. destruct (drop_panics _ _) eqn:Hp.
  - assert drops_panic as HP by (by do 2 eexists).
    destruct (drop_values xs s1) as [| |[]]; [split; [done|by apply Hd]|by apply HX|done..].
  - destruct (drop_values xs s1) as [| |[]]; try done; [by apply Hd|].
    destruct IH as [HP ?]. split; [done|by apply Hd].
Qed.
End cells.
