(* ===== verification/Vec.v ===== *)
(** [Vec]: [alloc/src/vec/mod.rs].  The register of the buffer is [len]. *)

From S2P Require Import Prelude.
From S2P Require Import Layout.
From S2P Require Import RawVec.
From S2P Require Import Cells.

Abbreviation vec T := (buffer nat T).

Section vec.
Context {T : Type} (el : Layout) (alloc_ok : Layout → bool) (drop_panics : nat → T → bool).
Implicit Types (s : vec T) (i n : nat) (x : T).

Abbreviation drop_value := (drop_value drop_panics).
Abbreviation drop_values := (drop_values drop_panics).

(** [Vec::new]. *)
Definition new : vec T := Buffer 0 [] None [] 0.

Definition len : prog (vec T) nat := gets regs.

Definition set_len n : prog (vec T) () :=
  c ← capacity el; _ ← assume (Z.of_nat n <=? c)%Z; modify (set_regs n).

(** [if len == self.buf.capacity() { self.buf.grow_one() }]; when the growth
    panics, the value [x] that was to be added is dropped. *)
Definition make_room n x : prog (vec T) () :=
  c ← capacity el;
  if (Z.of_nat n =? c)%Z then on_panic (grow_one el alloc_ok) (drop_value x) else mret ().

(** [push] and [push_mut]. *)
Definition push x : prog (vec T) () :=
  n ← len;
  _ ← make_room n x;
  _ ← wr_cell n x;
  modify (set_regs (n + 1)).

Definition pop : prog (vec T) (option T) :=
  n ← len;
  if n =? 0 then mret None else
  _ ← modify (set_regs (n - 1));
  c ← capacity el;
  _ ← assume (Z.of_nat (n - 1) <? c)%Z;
  x ← rd_cell (n - 1);
  mret (Some x).

Definition truncate n : prog (vec T) () :=
  k ← len;
  if k <? n then mret () else
  let remaining_len := k - n in
  xs ← rd_cells n remaining_len;
  _ ← modify (set_regs n);
  drop_values xs.

Definition swap_remove i : prog (vec T) T :=
  n ← len;
  if n <=? i then panic else
  value ← rd_cell i;
  _ ← copy_cells (n - 1) i 1;
  _ ← set_len (n - 1);
  mret value.

(** [insert] and [insert_mut]; the element is dropped when it panics. *)
Definition insert i x : prog (vec T) () :=
  n ← len;
  if n <? i then on_panic panic (drop_value x) else
  _ ← make_room n x;
  _ ← (if i <? n then copy_cells i (i + 1) (n - i) else mret ());
  _ ← wr_cell i x;
  set_len (n + 1).

Definition try_remove i : prog (vec T) (option T) :=
  n ← len;
  if n <=? i then mret None else
  ret ← rd_cell i;
  _ ← copy_cells (i + 1) i (n - i - 1);
  _ ← set_len (n - 1);
  mret (Some ret).

Definition remove i : prog (vec T) T :=
  o ← try_remove i;
  match o with Some elem => mret elem | None => panic end.

(** ** [retain_mut] *)
Record BackshiftOnDrop := { processed_len : nat; deleted_cnt : nat; original_len : nat }.

Definition BackshiftOnDrop_drop (g : BackshiftOnDrop) : prog (vec T) () :=
  _ ← (if 0 <? deleted_cnt g
       then copy_cells (processed_len g) (processed_len g - deleted_cnt g)
              (original_len g - processed_len g)
       else mret ());
  set_len (original_len g - deleted_cnt g).

(** [process_loop::<DELETED>]. *)
Definition process_step (deleted : bool) (f : nat → T → T * option bool) (g : BackshiftOnDrop)
  : prog (vec T) (BackshiftOnDrop + BackshiftOnDrop) :=
  let '(Build_BackshiftOnDrop p d n) := g in
  if p =? n then mret (inr g) else
  keep ← on_panic (call_mut f p) (BackshiftOnDrop_drop g);
  if keep : bool then
    _ ← (if deleted : bool then copy_cells_nonoverlapping p (p - d) 1 else mret ());
    mret (inl (Build_BackshiftOnDrop (p + 1) d n))
  else
    let g := Build_BackshiftOnDrop (p + 1) (d + 1) n in
    cur ← rd_cell p;
    _ ← on_panic (drop_value cur) (BackshiftOnDrop_drop g);
    mret (if deleted : bool then inl g else inr g).

Definition process_loop (deleted : bool) f (g : BackshiftOnDrop) : prog (vec T) BackshiftOnDrop :=
  loop (S (original_len g - processed_len g)) (process_step deleted f) g.

Definition retain_mut (f : nat → T → T * option bool) : prog (vec T) () :=
  n ← len;
  if n =? 0 then mret () else
  _ ← set_len 0;
  let g := Build_BackshiftOnDrop 0 0 n in
  g ← process_loop false f g;
  g ← process_loop true f g;
  BackshiftOnDrop_drop g.

Definition retain (f : nat → T → option bool) : prog (vec T) () :=
  retain_mut (λ c x, (x, f c x)).

(** ** [dedup_by] *)
Record FillGapOnDrop := { read : nat; write : nat }.

Definition FillGapOnDrop_drop (g : FillGapOnDrop) : prog (vec T) () :=
  n ← len;
  let items_left := n - read g in
  _ ← copy_cells (read g) (write g) items_left;
  let dropped := read g - write g in
  set_len (n - dropped).

(** [same_bucket(&mut *current, &mut *prev)]. *)
Definition call_same (same : nat → T → T → (T * T) * option bool) cur prev : prog (vec T) bool :=
  x ← rd_cell cur; y ← rd_cell prev;
  c ← gets clock;
  let '((x', y'), r) := same c x y in
  _ ← wr_cell cur x'; _ ← wr_cell prev y';
  call (λ _, r).

Definition find_duplicate same n : prog (vec T) nat :=
  loop n (λ i,
    if i =? n then mret (inr i) else
    found ← call_same same i (i - 1);
    mret (if found : bool then inr i else inl (i + 1))) 1.

Definition dedup_step same n (g : FillGapOnDrop) : prog (vec T) (FillGapOnDrop + nat) :=
  let '(Build_FillGapOnDrop r w) := g in
  if negb (r <? n) then mret (inr w) else
  found ← on_panic (call_same same r (w - 1)) (FillGapOnDrop_drop g);
  if found : bool then
    let g := Build_FillGapOnDrop (r + 1) w in
    x ← rd_cell r;
    _ ← on_panic (drop_value x) (FillGapOnDrop_drop g);
    mret (inl g)
  else
    _ ← copy_cells_nonoverlapping r w 1;
    mret (inl (Build_FillGapOnDrop (r + 1) (w + 1))).

Definition dedup_by (same : nat → T → T → (T * T) * option bool) : prog (vec T) () :=
  n ← len;
  if n <=? 1 then mret () else
  first ← find_duplicate same n;
  if first =? n then mret () else
  let g := Build_FillGapOnDrop (first + 1) first in
  x ← rd_cell first;
  _ ← on_panic (drop_value x) (FillGapOnDrop_drop g);
  w ← loop (S n) (dedup_step same n) g;
  set_len w.

(** [dedup]: the equality test of the elements is user code too. *)
Definition dedup (eq : nat → T → T → option bool) : prog (vec T) () :=
  dedup_by (λ c a b, ((a, b), eq c a b)).

(** ** [append] and [split_off] *)
(** Two vectors, [self] and [other]. *)
Definition on_self {A} : prog (vec T) A → prog (vec T * vec T) A := zoom fst (λ s p, (s, snd p)).
Definition on_other {A} : prog (vec T) A → prog (vec T * vec T) A := zoom snd (λ s p, (fst p, s)).

(** [mem::swap(self, other)]; what has been dropped and the number of calls of
    user code are not part of the vectors. *)
Definition swap_vecs : prog (vec T * vec T) () :=
  modify (λ '(s, o), (Buffer (regs o) (cells o) (block o) (dropped s) (clock s),
                      Buffer (regs s) (cells s) (block s) (dropped o) (clock o))).

(** The elements behind [other: *const [T]] are copied. *)
Definition append_elements (other : list T) : prog (vec T) () :=
  let count := length other in
  n ← len;
  _ ← reserve el alloc_ok (Z.of_nat n) (Z.of_nat count);
  n ← len;
  _ ← wr_cells n other;
  modify (set_regs (n + count)).

Definition append : prog (vec T * vec T) () :=
  other ← on_other (n ← len; rd_cells 0 n);
  _ ← on_self (append_elements other);
  on_other (set_len 0).

Definition clear : prog (vec T) () :=
  n ← len;
  elems ← rd_cells 0 n;
  _ ← modify (set_regs 0);
  drop_values elems.

(** [Drop for Vec]: the elements first, then the buffer. *)
Definition drop_vec : prog (vec T) () :=
  n ← len;
  xs ← rd_cells 0 n;
  _ ← on_panic (drop_values xs) (deallocate el);
  deallocate el.

(** [split_off] answers the new vector. *)
Definition split_off (at_ : nat) : prog (vec T) (vec T) :=
  n ← len;
  if n <? at_ then panic else
  let other_len := n - at_ in
  other ← fresh (with_capacity_in el alloc_ok (Z.of_nat other_len)) new;
  _ ← set_len at_;
  xs ← rd_cells at_ other_len;
  other ← fresh (_ ← wr_cells 0 xs; modify (set_regs other_len)) other;
  mret other.
End vec.
