(* ===== verification/VecSpec.v ===== *)
(** What the operations of [Vec] do to the elements it holds. *)

From S2P Require Import Prelude Layout RawVec Cells Vec.

Section spec.
Context {T : Type} (el : Layout) (alloc_ok : Layout → bool) (drop_panics : nat → T → bool).
Hypothesis Hel : elem_ok el.
(** When the process may abort. *)
Definition aborts : Prop := out_of_memory alloc_ok ∨ drops_panic drop_panics.
Implicit Types (s : vec T) (l : list T) (i n : nat) (x : T).

(** The vector holds the elements [l]. *)
Definition vec_is l s : Prop :=
  raw_ok el s ∧ regs s = length l ∧ ∃ spare, cells s = (Some <$> l) ++ spare.

Lemma vec_is_cell l s i x : vec_is l s → l !! i = Some x → cells s !! i = Some (Some x).
Proof.
  intros (_&_&spare&->) Hx. apply lookup_lt_Some in Hx as ?.
  rewrite lookup_app_l by (by rewrite length_fmap). by rewrite list_lookup_fmap, Hx.
Qed.

Lemma vec_is_cap l s : vec_is l s → length l ≤ length (cells s).
Proof. intros (_&_&spare&->). rewrite length_app, length_fmap. lia. Qed.

Lemma vec_is_len l s : vec_is l s → regs s = length l.
Proof. by intros (_&->&_). Qed.

Lemma raw_ok_cells s s' : raw_ok el s → block s' = block s → length (cells s') = length (cells s) →
  raw_ok el s'.
Proof. unfold raw_ok, raw_cap. by intros ? -> ->. Qed.

Lemma vec_is_intro l spare s s' : raw_ok el s → block s' = block s →
  length (cells s') = length (cells s) → regs s' = length l → cells s' = (Some <$> l) ++ spare →
  vec_is l s'.
Proof. intros Hs Hb Hc Hr Hl. split; [by apply (raw_ok_cells s)|]. split; [done|by exists spare]. Qed.

Lemma capacity_eq s : raw_ok el s → capacity el s = Ret (raw_cap s) s.
Proof.
  intros Hs. pose proof (elem_bounds el alloc_ok Hel). unfold capacity.
  by rewrite (proj2 (Z.eqb_neq (size el) 0)) by lia.
Qed.

Lemma wp_set_len n s (Q : () → vec T → Prop) P :
  raw_ok el s → n ≤ length (cells s) → Q () (set_regs n s) → wp (set_len el n) Q P s.
Proof.
  intros Hs Hn HQ. unfold set_len. apply wp_bind. unfold wp at 1. rewrite capacity_eq by done.
  apply wp_bind, wp_assume; [apply Z.leb_le; unfold raw_cap; lia|]. by apply wp_modify.
Qed.

(** ** [push] and [pop] *)
Lemma make_room_spec (X : Prop) l x s (Q : () → vec T → Prop) (P : vec T → Prop) :
  (aborts → X) → vec_is l s →
  (∀ s', vec_is l s' → length l < length (cells s') → dropped s' = dropped s → Q () s') →
  (∀ s', overflows el (Z.of_nat (length l)) 1 s → vec_is l s' → dropped s' = x :: dropped s → P s') →
  wpa X (make_room el alloc_ok drop_panics (length l) x) Q P s.
Proof.
  intros HX Hl HQ HP. pose proof Hl as (Hs&Hr&spare&Hc). pose proof (vec_is_cap l s Hl).
  apply wpa_bind. unfold wpa at 1. rewrite capacity_eq by done. unfold raw_cap.
  destruct (Z.eqb_spec (Z.of_nat (length l)) (Z.of_nat (length (cells s)))).
  - apply wpa_on_panic, grow_one_spec; [done|intros ?; apply HX; by left|done| |].
    + intros k b s' Hs' Hcap. apply HQ; [|unfold raw_cap in Hcap; lia|done].
      split; [done|]. split; [done|]. exists (spare ++ replicate k None). subst s'. cbn.
      by rewrite Hc, <- app_assoc.
    + unfold raw_cap. replace (length (cells s)) with (length l) by lia. intros Hov.
      apply wpa_wp, wp_drop_value; [|intros ?; apply HX; right; by do 2 eexists].
      apply HP; [done| |done]. apply (vec_is_intro l spare s); done.
  - apply wpa_ret, HQ; [done|lia|done].
Qed.

Lemma push_spec (X : Prop) l x s : (aborts → X) → vec_is l s →
  wpa X (push el alloc_ok drop_panics x)
    (λ _ s', vec_is (l ++ [x]) s' ∧ dropped s' = dropped s)
    (λ s', overflows el (Z.of_nat (length l)) 1 s ∧ vec_is l s' ∧ dropped s' = x :: dropped s) s.
Proof.
  intros HX Hl. unfold push. apply wpa_bind, wpa_wp, wp_gets. rewrite (vec_is_len l s Hl).
  apply wpa_bind, (make_room_spec _ l); [done|done| |].
  2:{ intros s' Hov Hl' Hd'. by split_and!. } intros s2 (Hs2&Hr2&spare&Hc2) Hcap Hd.
  apply wpa_wp, wp_bind, wp_wr_cell; [done|]. apply wp_modify. split; [|done].
  assert (spare ≠ []) as Hne.
  { intros ->. rewrite Hc2, app_nil_r, length_fmap in Hcap. lia. }
  destruct spare as [|c0 spare]; [done|].
  apply (vec_is_intro (l ++ [x]) spare s2); [done|done|cbn; by rewrite length_insert|cbn; by rewrite length_app|].
  cbn. rewrite Hc2, fmap_app, <- app_assoc, insert_mid by (by rewrite length_fmap). done.
Qed.

Lemma pop_spec l x s : vec_is (l ++ [x]) s →
  wp (pop el) (λ o s', o = Some x ∧ vec_is l s' ∧ dropped s' = dropped s) (λ _, False) s.
Proof.
  intros Hl. pose proof (vec_is_cap _ s Hl) as Hcap. pose proof Hl as (Hs&Hr&spare&Hc).
  rewrite length_app in *. simpl in *.
  unfold pop. apply wp_bind, wp_gets. rewrite Hr.
  destruct (Nat.eqb_spec (length l + 1) 0); [lia|]. replace (length l + 1 - 1) with (length l) by lia.
  apply wp_bind, wp_modify. apply wp_bind. unfold wp at 1.
  rewrite capacity_eq by (by apply (raw_ok_cells s)).
  apply wp_bind, wp_assume; [apply Z.ltb_lt; unfold raw_cap; simpl; lia|].
  apply wp_bind. eapply wp_rd_cell; [apply (vec_is_cell _ s _ _ Hl); by apply lookup_mid|].
  apply wp_ret. split; [done|]. split; [|done].
  apply (vec_is_intro l (Some x :: spare) s); try done.
  cbn. by rewrite Hc, fmap_app, <- app_assoc.
Qed.

Lemma pop_nil_spec s : vec_is [] s → pop el s = Ret None s.
Proof. intros (_&Hr&_). unfold pop, len, gets, mbind, prog_bind. by rewrite Hr. Qed.

(** ** Insertion and removal by index *)
(** Moving a cell down over a gap. *)
Lemma shift_cell (A : list (option T)) j junk c rest p q :
  p = length A + S (length junk) → q = length A →
  list_inserts q (take 1 (drop p (A ++ (j :: junk) ++ c :: rest))) (A ++ (j :: junk) ++ c :: rest) =
  (A ++ [c]) ++ (junk ++ [c]) ++ rest.
Proof.
  intros -> ->.
  assert (take 1 (drop (length A + S (length junk)) (A ++ (j :: junk) ++ c :: rest)) = [c]) as ->.
  { rewrite app_assoc, drop_app_length' by (rewrite length_app; done). done. }
  rewrite inserts_app by len. simpl. by rewrite <- !app_assoc.
Qed.

Lemma insert_spec (X : Prop) l i x s : (aborts → X) → vec_is l s →
  wpa X (insert el alloc_ok drop_panics i x)
    (λ _ s', i ≤ length l ∧ vec_is (take i l ++ x :: drop i l) s' ∧ dropped s' = dropped s)
    (λ s', (length l < i ∨ overflows el (Z.of_nat (length l)) 1 s) ∧ vec_is l s' ∧ dropped s' = x :: dropped s) s.
Proof.
  intros HX Hl. unfold insert. apply wpa_bind, wpa_wp, wp_gets. rewrite (vec_is_len l s Hl).
  destruct (Nat.ltb_spec (length l) i).
  { apply wpa_on_panic, wpa_wp, wp_panic, wpa_wp, wp_drop_value;
      [|intros ?; apply HX; right; by do 2 eexists].
    split; [by left|]. split; [|done]. destruct Hl as (Hs&Hr&spare&Hc). by apply (vec_is_intro l spare s). }
  apply wpa_bind, (make_room_spec _ l); [done|done| |].
  2:{ intros s' Hov Hl' Hd'. split_and!; [by right|done|done]. } intros s2 Hl2 Hcap Hd.
  pose proof Hl2 as (Hs2&Hr2&spare&Hc2). apply wpa_wp.
  destruct (list_split_at l i) as (l1&l2&->&Hi); [done|]. subst i.
  rewrite take_app_length, drop_app_length. rewrite fmap_app, <- app_assoc in Hc2.
  destruct spare as [|c0 spare].
  { rewrite Hc2, app_nil_r, !length_app, !length_fmap in Hcap. lia. }
  apply wp_bind. set (junk := match l2 with [] => c0 | y :: _ => Some y end).
  eapply wp_mono with (Q := λ _ s', raw_ok el s' ∧ dropped s' = dropped s2 ∧
    cells s' = (Some <$> l1) ++ junk :: (Some <$> l2) ++ spare) (P := λ _, False); [| |done].
  { rewrite length_app. destruct (Nat.ltb_spec (length l1) (length l1 + length l2)).
    - apply wp_copy_cells; [rewrite Hc2; len|rewrite Hc2; len|].
      split; [|split; [done|]].
      { apply (raw_ok_cells s2); [done|done|]. cbn. by rewrite length_inserts. }
      cbn. rewrite Hc2. destruct l2 as [|y l2]; [simpl in *; lia|]. subst junk.
      replace (length l1 + S (length l2) - length l1) with (length (Some <$> y :: l2))
        by (rewrite length_fmap; simpl; lia).
      rewrite take_drop_mid by (rewrite ?length_fmap; lia).
      replace ((Some <$> l1) ++ (Some <$> y :: l2) ++ c0 :: spare)
        with (((Some <$> l1) ++ [Some y]) ++ ((Some <$> l2) ++ [c0]) ++ spare)
        by (simpl; by rewrite <- !app_assoc).
      rewrite inserts_mid by (rewrite ?length_app, ?length_fmap; simpl; rewrite ?length_fmap; lia).
      by rewrite <- app_assoc.
    - destruct l2 as [|y l2]; [|simpl in *; lia]. apply wp_ret. done. }
  intros [] s3 (Hs3&Hd3&Hc3). apply wp_bind, wp_wr_cell; [rewrite Hc3; len|].
  apply wp_set_len; [apply (raw_ok_cells s3); [done|done|cbn; by rewrite length_insert]| |].
  { cbn. rewrite length_insert, Hc3. len. }
  split; [len|]. split; [|cbn; congruence].
  apply (vec_is_intro _ spare s3); [done|done|cbn; by rewrite length_insert|cbn; len|].
  cbn. rewrite Hc3, insert_mid by (by rewrite length_fmap).
  by rewrite fmap_app, fmap_cons, <- app_assoc.
Qed.

Lemma try_remove_spec l i s : vec_is l s →
  wp (try_remove el i)
    (λ o s', o = l !! i ∧ vec_is (take i l ++ drop (S i) l) s' ∧ dropped s' = dropped s)
    (λ _, False) s.
Proof.
  intros Hl. unfold try_remove. apply wp_bind, wp_gets. rewrite (vec_is_len l s Hl).
  destruct (Nat.leb_spec (length l) i).
  { apply wp_ret. rewrite lookup_ge_None_2, take_ge, drop_ge, app_nil_r by lia. done. }
  destruct (list_split_mid l i) as (l1&x&l2&->&Hi); [done|]. subst i.
  rewrite lookup_mid, take_app_length, (cons_middle x), app_assoc, drop_app_length'
    by (rewrite ?length_app; simpl; lia || done).
  pose proof Hl as (Hs&Hr&spare&Hc). rewrite fmap_app, fmap_cons, <- app_assoc in Hc. simpl in Hc.
  apply wp_bind. eapply wp_rd_cell; [apply (vec_is_cell _ s _ _ Hl); by apply lookup_mid|].
  rewrite length_app. simpl. apply wp_bind.
  apply wp_copy_cells; [rewrite Hc; len|rewrite Hc; len|]. cbn. rewrite Hc.
  replace (length l1 + S (length l2) - length l1 - 1) with (length (Some <$> l2))
    by (rewrite length_fmap; lia).
  rewrite (cons_middle (Some x)), (app_assoc (Some <$> l1)).
  rewrite take_drop_mid by (len || done).
  rewrite <- app_assoc. rewrite inserts_app by len.
  apply wp_bind, wp_set_len; [|cbn; len|].
  { apply (raw_ok_cells s); [done|done|]. cbn. rewrite Hc. len. }
  apply wp_ret. split; [done|]. split; [|done].
  apply (vec_is_intro _ (drop (length (Some <$> l2)) ([Some x] ++ (Some <$> l2) ++ spare)) s);
    [done|done|cbn; rewrite Hc; len|cbn; len|cbn; by rewrite fmap_app, <- app_assoc].
Qed.

Lemma swap_remove_spec l i s : vec_is l s →
  wp (swap_remove el i)
    (λ x s', ∃ l0 y, l = l0 ++ [y] ∧ l !! i = Some x ∧ vec_is (<[i := y]> l0) s' ∧
       dropped s' = dropped s)
    (λ s', s' = s ∧ length l ≤ i) s.
Proof.
  intros Hl. unfold swap_remove. apply wp_bind, wp_gets. rewrite (vec_is_len l s Hl).
  destruct (Nat.leb_spec (length l) i) as [|Hi]; [by apply wp_panic|].
  destruct (lookup_lt_is_Some_2 l i Hi) as [x Hx].
  destruct (list_snoc_inv l) as (l0&y&->); [by intros ->; simpl in *; lia|].
  rewrite length_app in *. simpl in *. replace (length l0 + 1 - 1) with (length l0) by lia.
  pose proof (vec_is_cap _ s Hl) as Hcap. pose proof Hl as (Hs&Hr&spare&Hc).
  rewrite length_app in Hcap. simpl in Hcap.
  apply wp_bind. eapply wp_rd_cell; [by apply (vec_is_cell _ s _ _ Hl)|].
  apply wp_bind, wp_copy_cells; [lia|lia|].
  assert (take 1 (drop (length l0) (cells s)) = [Some y]) as ->.
  { rewrite Hc, fmap_app, <- app_assoc. by rewrite drop_app_length' by by rewrite length_fmap. }
  apply wp_bind, wp_set_len; [apply (raw_ok_cells s); [done|done|by cbn; rewrite length_insert]| |].
  { cbn. rewrite length_insert. lia. }
  apply wp_ret. exists l0, y. split_and!; [done|done| |done].
  apply (vec_is_intro _ (Some y :: spare) s);
    [done|done|by cbn; rewrite length_insert|by cbn; rewrite length_insert|].
  cbn. rewrite Hc, fmap_app, <- app_assoc. simpl. destruct (decide (i = length l0)) as [->|].
  - rewrite insert_mid by by rewrite length_fmap. by rewrite list_insert_ge by lia.
  - rewrite insert_app_l by (rewrite length_fmap; lia). by rewrite list_fmap_insert.
Qed.

(** ** [retain] *)
Section retain.
Context (f : nat → T → option bool) (s0 : vec T) (l : list T).

(** [K] kept, [D] dropped (latest first), [U] not examined yet. *)
Definition retain_inv (g : BackshiftOnDrop) K D U s : Prop :=
  raw_ok el s ∧ regs s = 0 ∧ dropped s = D ++ dropped s0 ∧
  processed_len g = length K + deleted_cnt g ∧ original_len g = processed_len g + length U ∧
  (∃ junk spare, cells s = (Some <$> K) ++ junk ++ (Some <$> U) ++ spare ∧
     length junk = deleted_cnt g) ∧
  K ++ U `sublist_of` l ∧ K ++ D ++ U ≡ₚ l ∧ length D = deleted_cnt g ∧
  (∀ q, (∀ c x, f c x = Some (q x)) →
     List.filter q l = K ++ List.filter q U ∧
     reverse D ++ List.filter (λ x, negb (q x)) U = List.filter (λ x, negb (q x)) l).

(** What is left when the vector has its length back. *)
Definition retained (K D : list T) s : Prop :=
  vec_is K s ∧ dropped s = D ++ dropped s0 ∧ K ++ D ≡ₚ l ∧ K `sublist_of` l.

(** Neither the predicate nor a destructor panics, and the predicate is pure. *)
Definition quiet : Prop :=
  (∃ q, ∀ c x, f c x = Some (q x)) ∧ ∀ c x, drop_panics c x = false.

Definition unwound s : Prop := ¬ quiet ∧ ∃ K D, retained K D s.

Lemma guard_drop_spec g K D U s (Q : () → vec T → Prop) P :
  retain_inv g K D U s →
  (∀ s', retained (K ++ U) D s' → clock s' = clock s → Q () s') →
  wp (BackshiftOnDrop_drop el g) Q P s.
Proof.
  intros (Hs&Hr&Hd&Hp&Ho&(junk&spare&Hc&Hj)&Hsub&Hperm&_) HQ.
  unfold BackshiftOnDrop_drop. apply wp_bind.
  assert (original_len g - processed_len g = length (Some <$> U)) as ->
    by (rewrite length_fmap; lia).
  eapply wp_mono with (P := λ _, False) (Q := λ _ s', raw_ok el s' ∧ regs s' = 0 ∧ dropped s' = dropped s ∧
    clock s' = clock s ∧ ∃ spare', cells s' = (Some <$> K ++ U) ++ spare'); [| |done].
  - destruct (Nat.ltb_spec 0 (deleted_cnt g)).
    + apply wp_copy_cells; [rewrite Hc; len|rewrite Hc; len|].
      cbn. rewrite Hc, app_assoc, (take_drop_mid ((Some <$> K) ++ junk)) by len.
      rewrite <- app_assoc, inserts_app by len. split_and!; [|done..|].
      { apply (raw_ok_cells s); [done|done|]. cbn. rewrite Hc. len. }
      eexists. by rewrite fmap_app, <- app_assoc.
    + apply wp_ret. split_and!; [done..|]. exists spare.
      destruct junk; [|simpl in *; lia]. by rewrite Hc, fmap_app, <- app_assoc.
  - intros [] s1 (Hs1&Hr1&Hd1&Hk1&spare'&Hc1). apply wp_set_len; [done|rewrite Hc1; len|].
    apply HQ; [|done]. split_and!; [|cbn; congruence|by rewrite <- app_assoc, (Permutation_app_comm U)|done].
    apply (vec_is_intro _ spare' s1); [done|done|done|cbn; len|done].
Qed.

Lemma guard_drop_unwound g K D U s :
  retain_inv g K D U s → ¬ quiet →
  wp (BackshiftOnDrop_drop el g) (λ _ s', unwound s') (λ _, False) s.
Proof.
  intros H Hq. eapply guard_drop_spec; [exact H|]. intros s' Hs' _. split; [done|].
  by exists (K ++ U), D.
Qed.

(** The predicate, on the first element that is not examined. *)
Lemma call_retain_spec g K D x U s (Q : bool → vec T → Prop) (P : vec T → Prop) :
  retain_inv g K D (x :: U) s →
  (∀ (b : bool) s', retain_inv g K D (x :: U) s' → f (clock s) x = Some b → Q b s') →
  (∀ s', retain_inv g K D (x :: U) s' → ¬ quiet → P s') →
  wp (call_mut (λ c x, (x, f c x)) (processed_len g)) Q P s.
Proof.
  intros (Hs&Hr&Hd&Hp&Ho&(junk&spare&Hc&Hj)&Hrest) HQ HP. unfold call_mut.
  assert (cells s !! processed_len g = Some (Some x)) as Hx.
  { rewrite Hc, app_assoc. simpl. apply lookup_mid. len. }
  apply wp_bind. eapply wp_rd_cell; [done|]. apply wp_bind, wp_gets.
  apply wp_bind, wp_wr_cell; [by eapply lookup_lt_Some|].
  rewrite list_insert_id by done.
  assert (∀ s', raw_ok el s' → regs s' = 0 → dropped s' = dropped s → cells s' = cells s →
    retain_inv g K D (x :: U) s') as Hinv.
  { intros s' ?? Hd' Hc'. split_and!; [done|done|congruence|done|done| |apply Hrest..].
    exists junk, spare. by rewrite Hc'. }
  apply wp_call; cbn; intros; [apply HQ; [|done]|apply HP]; [by apply Hinv..|].
  intros [[q Hq] _]. by rewrite Hq in *.
Qed.

(** The first unexamined element is kept, or it is deleted. *)
Lemma retain_inv_keep g K D x U s spare junk s' :
  retain_inv g K D (x :: U) s →
  cells s' = (Some <$> K ++ [x]) ++ junk ++ (Some <$> U) ++ spare →
  length junk = deleted_cnt g → length (cells s') = length (cells s) → regs s' = regs s →
  block s' = block s → dropped s' = dropped s →
  (∀ q, (∀ c y, f c y = Some (q y)) → q x = true) →
  retain_inv (Build_BackshiftOnDrop (processed_len g + 1) (deleted_cnt g) (original_len g))
    (K ++ [x]) D U s'.
Proof.
  intros (Hs&Hr&Hd&Hp&Ho&_&Hsub&Hperm&HD&Hq) Hc Hj Hlen Hregs Hb Hdr Hx.
  split_and!; [by apply (raw_ok_cells s)|congruence|congruence|cbn; len|cbn; len|by exists junk, spare|..].
  - by rewrite <- app_assoc.
  - rewrite <- Hperm. solve_Permutation.
  - done.
  - intros q Hf. destruct (Hq q Hf) as [-> <-]. simpl. rewrite (Hx q Hf), <- app_assoc. done.
Qed.

Lemma retain_inv_delete g K D x U s :
  retain_inv g K D (x :: U) s →
  (∀ q, (∀ c y, f c y = Some (q y)) → q x = false) →
  retain_inv (Build_BackshiftOnDrop (processed_len g + 1) (deleted_cnt g + 1) (original_len g))
    K (x :: D) U (Cells.tick (set_dropped (x :: dropped s) s)).
Proof.
  intros (Hs&Hr&Hd&Hp&Ho&(junk&spare&Hc&Hj)&Hsub&Hperm&HD&Hq) Hx.
  split_and!; [done|done|cbn; by rewrite Hd|cbn; len|cbn; len| |..].
  - exists (junk ++ [Some x]), spare. split; [cbn; by rewrite Hc, <- app_assoc|len].
  - etrans; [|exact Hsub]. by apply sublist_app, sublist_cons.
  - rewrite <- Hperm. solve_Permutation.
  - simpl. lia.
  - intros q Hf. destruct (Hq q Hf) as [-> <-]. simpl. rewrite (Hx q Hf). simpl.
    by rewrite reverse_cons, <- app_assoc.
Qed.

Definition stage (deleted : bool) (g : BackshiftOnDrop) (U : list T) : Prop :=
  if deleted then 0 < deleted_cnt g ∨ U = [] else deleted_cnt g = 0.

Lemma process_step_spec deleted g K D U s :
  retain_inv g K D U s → stage deleted g U →
  wp (process_step el drop_panics deleted (λ c x, (x, f c x)) g)
    (λ r s', ∃ K' D' U',
       match r with
       | inl g' => retain_inv g' K' D' U' s' ∧ stage deleted g' U' ∧
           original_len g' - processed_len g' < original_len g - processed_len g
       | inr g' => retain_inv g' K' D' U' s' ∧ stage true g' U' ∧ (deleted = true → U' = [])
       end) unwound s.
Proof.
  intros Hinv Hst. pose proof Hinv as (Hs&Hr&Hd&Hp&Ho&(junk&spare&Hc&Hj)&_).
  destruct g as [p d n]. cbn [process_step processed_len deleted_cnt original_len] in *.
  destruct (Nat.eqb_spec p n).
  { apply wp_ret. exists K, D, U. assert (U = []) as -> by (apply nil_length_inv; lia).
    split_and!; [done|by right|done]. }
  destruct U as [|x U]; [simpl in *; lia|]. clear Hs Hr Hd Hc Hj junk spare.
  apply wp_bind, wp_on_panic.
  apply (call_retain_spec (Build_BackshiftOnDrop p d n) K D x U); [done| |].
  2:{ intros s' Hs' Hq. by eapply guard_drop_unwound. }
  intros b s1 Hinv1 Hf. pose proof Hinv1 as (_&_&_&_&_&(junk&spare&Hc1&Hj1)&_). destruct b.
  - assert (∀ q, (∀ c y, f c y = Some (q y)) → q x = true) as Hx.
    { intros q Hq. rewrite Hq in Hf. by injection Hf. }
    apply wp_bind. destruct deleted; cbn [stage deleted_cnt] in Hst.
    + assert (0 < d) by (by destruct Hst).
      destruct junk as [|j0 junk]; [simpl in *; lia|]. cbn in Hj1.
      apply wp_copy_cells_nonoverlapping; [rewrite Hc1; len|rewrite Hc1; len|lia|].
      apply wp_ret. exists (K ++ [x]), D, U. split; [|split; [left; cbn; lia|cbn; len]].
      eapply (retain_inv_keep (Build_BackshiftOnDrop p d n) _ _ _ _ s1 spare (junk ++ [Some x]));
        [done| |len|cbn; rewrite length_inserts; done|done..].
      rewrite fmap_app. change (cells (set_cells ?c _)) with c. rewrite Hc1.
      refine (shift_cell (Some <$> K) j0 junk (Some x) ((Some <$> U) ++ spare) p (p - d) _ _); len.
    + apply wp_ret, wp_ret. subst d. destruct junk; [|simpl in *; lia].
      exists (K ++ [x]), D, U. split; [|split; [done|cbn; len]].
      eapply (retain_inv_keep (Build_BackshiftOnDrop p 0 n) _ _ _ _ s1 spare []); try done.
      rewrite Hc1. by rewrite fmap_app, <- app_assoc.
  - assert (cells s1 !! p = Some (Some x)) as Hcur.
    { rewrite Hc1, app_assoc. simpl. apply lookup_mid. len. }
    apply wp_bind. eapply wp_rd_cell; [done|].
    apply (retain_inv_delete (Build_BackshiftOnDrop p d n)) in Hinv1;
      [|intros q Hq; rewrite Hq in Hf; by injection Hf].
    cbn [processed_len deleted_cnt original_len] in Hinv1.
    apply wp_bind, wp_on_panic, wp_drop_value.
    2:{ intros Hd'. eapply guard_drop_unwound; [done|]. intros [_ Hq]. by rewrite Hq in Hd'. }
    apply wp_ret. destruct deleted; exists K, (x :: D), U; (split; [exact Hinv1|]);
      (split; [left; cbn; lia|cbn; len || done]).
Qed.

Lemma process_loop_spec deleted g K D U s :
  retain_inv g K D U s → stage deleted g U →
  wp (process_loop el drop_panics deleted (λ c x, (x, f c x)) g)
    (λ g' s', ∃ K' D' U', retain_inv g' K' D' U' s' ∧ stage true g' U' ∧
       (deleted = true → U' = [])) unwound s.
Proof.
  intros Hinv Hst. unfold process_loop.
  apply (wp_loop (λ g s, ∃ K D U, retain_inv g K D U s ∧ stage deleted g U)
    (λ g, original_len g - processed_len g)); [|by exists K, D, U|lia].
  intros g1 s1 (K1&D1&U1&Hinv1&Hst1).
  eapply wp_mono; [by apply (process_step_spec deleted g1 K1 D1 U1)| |done].
  intros [g2|g2] s2 (K2&D2&U2&Hr); [|by exists K2, D2, U2].
  destruct Hr as (?&?&?). split; [by exists K2, D2, U2|done].
Qed.

Lemma retain_spec s :
  s = s0 → vec_is l s →
  wp (retain el drop_panics f)
    (λ _ s', ∃ K D, retained K D s' ∧
       (∀ q, (∀ c x, f c x = Some (q x)) →
          K = List.filter q l ∧ reverse D = List.filter (λ x, negb (q x)) l))
    unwound s.
Proof.
  intros -> Hl. pose proof Hl as (Hs&Hr&spare&Hc). pose proof (vec_is_cap l s0 Hl).
  unfold retain, retain_mut. apply wp_bind, wp_gets. rewrite Hr.
  destruct (Nat.eqb_spec (length l) 0) as [H0|H0].
  { apply nil_length_inv in H0. apply wp_ret. exists [], []. unfold retained. rewrite H0 in *.
    split; [|done]. split; [done|]. split; [done|]. by split. }
  apply wp_bind, wp_set_len; [done|lia|].
  assert (retain_inv (Build_BackshiftOnDrop 0 0 (length l)) [] [] l (set_regs 0 s0)) as Hinv.
  { split_and!; [done..|by exists [], spare|done|done|done|done]. }
  apply wp_bind. eapply wp_mono; [by apply (process_loop_spec false _ [] [] l)| |done].
  intros g1 s1 (K1&D1&U1&Hinv1&Hst1&_).
  apply wp_bind. eapply wp_mono; [by apply (process_loop_spec true g1 K1 D1 U1)| |done].
  intros g2 s2 (K2&D2&U2&Hinv2&_&HU). rewrite (HU eq_refl) in Hinv2.
  eapply guard_drop_spec; [exact Hinv2|]. intros s3 Hs3 _. rewrite app_nil_r in Hs3.
  exists K2, D2. split; [done|]. intros q Hq.
  destruct Hinv2 as (_&_&_&_&_&_&_&_&_&Hpure). destruct (Hpure q Hq) as [HK HD].
  simpl in HK, HD. rewrite app_nil_r in HK, HD. done.
Qed.
End retain.
End spec.

(** ** What the operations of [Vec] that move or drop many elements do. *)

Section spec.
Context {T : Type} (el : Layout) (alloc_ok : Layout → bool) (drop_panics : nat → T → bool).
Hypothesis Hel : elem_ok el.
Implicit Types (s o : vec T) (l xs : list T) (i n : nat) (x : T).

Lemma vec_is_rd_cells l xs i n s (Q : list T → vec T → Prop) P :
  vec_is el l s → xs = take n (drop i l) → n = length xs → Q xs s → wp (rd_cells i n) Q P s.
Proof.
  intros Hl Hxs -> HQ. apply (wp_rd_cells drop_panics); [|done]. intros k x Hk. rewrite Hxs in Hk.
  apply lookup_take_Some in Hk as [Hk _]. rewrite lookup_drop in Hk. by apply (vec_is_cell el l).
Qed.

(** Only the ghost fields and the length of the spare part differ. *)
Lemma vec_is_shorter l1 l2 s s' : vec_is el (l1 ++ l2) s → cells s' = cells s → block s' = block s →
  regs s' = length l1 → vec_is el l1 s'.
Proof.
  intros (Hs&Hr&spare&Hc) Hc' Hb' Hr'.
  apply (vec_is_intro el l1 ((Some <$> l2) ++ spare) s); [done|done|by rewrite Hc'|done|].
  by rewrite Hc', Hc, fmap_app, <- app_assoc.
Qed.

(** [truncate] drops the elements from [n] on; if a destructor panics the others
    are dropped all the same and the vector is already short. *)
Lemma truncate_spec (X : Prop) l n s : (drops_panic drop_panics → X) → vec_is el l s →
  wpa X (truncate drop_panics n)
    (λ _ s', vec_is el (take n l) s' ∧ dropped s' = reverse (drop n l) ++ dropped s)
    (λ s', drops_panic drop_panics ∧
       vec_is el (take n l) s' ∧ dropped s' = reverse (drop n l) ++ dropped s) s.
Proof.
  intros HX Hl. unfold truncate. apply wpa_bind, wpa_wp, wp_gets. rewrite (vec_is_len el l s Hl).
  destruct (Nat.ltb_spec (length l) n).
  { apply wpa_ret. by rewrite take_ge, drop_ge by lia. }
  apply wpa_bind, wpa_wp. apply (vec_is_rd_cells l (drop n l)); [done| |len|].
  { by rewrite take_ge by len. }
  apply wpa_bind, wpa_wp, wp_modify.
  rewrite <- (take_drop n l) in Hl.
  assert (∀ s', dropping (drop n l) (set_regs n s) s' →
    vec_is el (take n l) s' ∧ dropped s' = reverse (drop n l) ++ dropped s) as Hd.
  { intros s' (Hr'&Hc'&Hb'&Hd'). split; [|done].
    apply (vec_is_shorter _ _ s s' Hl); rewrite ?Hr'; try done; cbn; len. }
  eapply wpa_mono; [by apply drop_values_spec|intros [] s'; apply Hd|].
  intros s' [HP Hs']. split; [done|by apply Hd].
Qed.

Lemma vec_clear_spec (X : Prop) l s : (drops_panic drop_panics → X) → vec_is el l s →
  wpa X (clear drop_panics)
    (λ _ s', vec_is el [] s' ∧ dropped s' = reverse l ++ dropped s)
    (λ s', drops_panic drop_panics ∧ vec_is el [] s' ∧ dropped s' = reverse l ++ dropped s) s.
Proof.
  intros HX Hl. unfold clear. apply wpa_bind, wpa_wp, wp_gets. rewrite (vec_is_len el l s Hl).
  apply wpa_bind, wpa_wp, (vec_is_rd_cells l l); [done|by rewrite drop_0, firstn_all|done|].
  apply wpa_bind, wpa_wp, wp_modify.
  assert (∀ s', dropping l (set_regs 0 s) s' → vec_is el [] s' ∧ dropped s' = reverse l ++ dropped s) as Hd.
  { intros s' (Hr'&Hc'&Hb'&Hd'). split; [|done]. by apply (vec_is_shorter [] l s s'). }
  eapply wpa_mono; [by apply drop_values_spec|intros [] s'; apply Hd|].
  intros s' [HP Hs']. split; [done|by apply Hd].
Qed.

Lemma drop_vec_spec (X : Prop) l s : (drops_panic drop_panics → X) → vec_is el l s →
  wpa X (drop_vec el drop_panics)
    (λ _ s', block s' = None ∧ dropped s' = reverse l ++ dropped s)
    (λ s', drops_panic drop_panics ∧ block s' = None ∧ dropped s' = reverse l ++ dropped s) s.
Proof.
  intros HX Hl. unfold drop_vec. apply wpa_bind, wpa_wp, wp_gets. rewrite (vec_is_len el l s Hl).
  apply wpa_bind, wpa_wp, (vec_is_rd_cells l l); [done|by rewrite drop_0, firstn_all|done|].
  apply wpa_bind, wpa_on_panic.
  assert (∀ s', dropping l s s' → deallocate el s' = Ret () (set_block None s') ∧
    dropped (set_block None s') = reverse l ++ dropped s) as Hd.
  { intros s' (Hr'&Hc'&Hb'&Hd'). split; [|done]. apply (deallocate_eq el alloc_ok Hel).
    apply (raw_ok_cells el s); [apply Hl|done|by rewrite Hc']. }
  eapply wpa_mono; [by apply drop_values_spec| |].
  - intros [] s' [Heq ?]%Hd. unfold wpa. by rewrite Heq.
  - intros s' [HP [Heq ?]%Hd]. unfold wpa. by rewrite Heq.
Qed.

Lemma append_elements_spec (X : Prop) l xs s : (out_of_memory alloc_ok → X) → vec_is el l s →
  wpa X (append_elements el alloc_ok xs)
    (λ _ s', vec_is el (l ++ xs) s' ∧ dropped s' = dropped s) (λ s', s' = s ∧ too_big el (Z.of_nat (length l + length xs))) s.
Proof.
  intros HX Hl. pose proof Hl as (Hs&Hr&spare&Hc). pose proof (vec_is_cap el alloc_ok l s Hl).
  unfold append_elements. apply wpa_bind, wpa_wp, wp_gets. rewrite Hr.
  apply wpa_bind, (reserve_spec el alloc_ok Hel); [done|done|unfold raw_cap; lia| |].
  2:{ intros Hc1 Hov. split; [done|]. rewrite Nat2Z.inj_add. by apply (overflows_too_big el alloc_ok Hel _ _ s). }
  intros k b s2 Hs2 Hcap. unfold raw_cap in Hcap.
  assert (cells s2 = (Some <$> l) ++ spare ++ replicate k None) as Hc2
    by (subst s2; cbn; by rewrite Hc, <- app_assoc).
  assert (regs s2 = length l) as Hr2 by done. assert (dropped s2 = dropped s) as Hd2 by done.
  clearbody s2. apply wpa_bind, wpa_wp, wp_gets. rewrite Hr2.
  apply wpa_bind, wpa_wp, wp_wr_cells; [lia|]. apply wpa_wp, wp_modify. split; [|done].
  apply (vec_is_intro el _ (drop (length xs) (spare ++ replicate k None)) s2);
    [done|done|cbn; by rewrite length_inserts|cbn; len|].
  cbn -[drop]. rewrite Hc2 in Hcap |- *. rewrite inserts_app by len.
  by rewrite fmap_app, <- app_assoc, length_fmap.
Qed.

(** [append] on [self] and [other]. *)
Lemma append_spec (X : Prop) l xs s o : (out_of_memory alloc_ok → X) → vec_is el l s → vec_is el xs o →
  wpa X (append el alloc_ok)
    (λ _ '(s', o'), vec_is el (l ++ xs) s' ∧ vec_is el [] o' ∧
       dropped s' = dropped s ∧ dropped o' = dropped o)
    (λ p, p = (s, o) ∧ too_big el (Z.of_nat (length l + length xs))) (s, o).
Proof.
  intros HX Hl Ho. unfold append. apply wpa_bind, wpa_wp, wp_zoom. cbn.
  apply wp_bind, wp_gets. rewrite (vec_is_len el xs o Ho).
  apply (vec_is_rd_cells xs xs); [done|by rewrite drop_0, firstn_all|done|].
  apply wpa_bind, wpa_zoom. cbn. eapply wpa_mono; [by apply append_elements_spec| |by intros s' [-> ?]].
  intros [] s2 [Hl2 Hd2]. cbn. apply wpa_wp, wp_zoom. cbn.
  apply (wp_set_len el alloc_ok drop_panics Hel); [apply Ho|lia|].
  split_and!; [done|by apply (vec_is_shorter [] xs o)|done|done].
Qed.

(** [split_off] allocates, but never more than the vector already holds. *)
Lemma split_off_spec (X : Prop) l n s : (out_of_memory alloc_ok → X) → vec_is el l s →
  wpa X (split_off el alloc_ok n)
    (λ o s', n ≤ length l ∧ vec_is el (take n l) s' ∧ vec_is el (drop n l) o ∧
       dropped s' = dropped s ∧ dropped o = [])
    (λ s', length l < n ∧ s' = s) s.
Proof.
  intros HX Hl. pose proof (vec_is_cap el alloc_ok l s Hl) as Hcap. pose proof Hl as (Hs&_).
  pose proof (elem_bounds el alloc_ok Hel).
  unfold split_off. apply wpa_bind, wpa_wp, wp_gets. rewrite (vec_is_len el l s Hl).
  destruct (Nat.ltb_spec (length l) n); [by apply wpa_wp, wp_panic|].
  assert (array_fits el (Z.of_nat (length l - n)) = true) as Hfit.
  { apply (array_fits_mono el alloc_ok Hel _ (raw_cap s)); [unfold raw_cap; lia|apply Hs]. }
  assert (0 ≤ Z.of_nat (length l - n) ≤ usize_MAX)%Z as Hbound.
  { destruct (array_fits_bounds el alloc_ok Hel (Z.of_nat (length l - n))); [lia|done|].
    unfold usize_MAX, isize_MAX in *. lia. }
  apply wpa_bind, wpa_fresh, (with_capacity_spec el alloc_ok Hel); [done|done|done|done| |by rewrite Hfit].
  intros b o Ho. apply wpa_bind, wpa_wp, (wp_set_len el alloc_ok drop_panics Hel); [done|lia|].
  subst o. rewrite Nat2Z.id in *. set (o := Buffer _ _ _ _ _) in *.
  apply wpa_bind, wpa_wp. rewrite <- (length_drop l n) at 1. apply (wp_rd_cells drop_panics).
  { intros k x Hk. rewrite lookup_drop in Hk. exact (vec_is_cell el l s _ x Hl Hk). }
  apply wpa_bind, wpa_fresh. apply wpa_bind, wpa_wp, wp_wr_cells; [cbn; rewrite length_replicate; len|].
  apply wpa_wp, wp_modify, wpa_ret. split_and!; [done| | |done|done].
  { apply (vec_is_shorter (take n l) (drop n l) s); [by rewrite take_drop|done|done|cbn; len]. }
  apply (vec_is_intro el _ [] o); [done|done|cbn; by rewrite length_inserts|cbn; len|].
  cbn. rewrite app_nil_r, <- (app_nil_r (replicate _ _)), list_inserts_0_r by len. by rewrite app_nil_r.
Qed.

End spec.
