(* ===== verification/VecTheorems.v ===== *)
(** What [Vec] promises, stated on results, with concrete runs. *)

From S2P Require Import Prelude.
From S2P Require Import Layout.
From S2P Require Import RawVec.
From S2P Require Import Cells.
From S2P Require Import Vec.
From S2P Require Import VecSpec.

(** The layout of a [u64], and a vector of them for the concrete runs. *)
Definition u64_layout : Layout := MkLayout 8%Z 8%Z.

Lemma u64_elem_ok : elem_ok u64_layout.
Proof. split; [split; [by exists 3%Z|vm_compute; split; congruence]|]. split; [by exists 1%Z|done]. Qed.

(** A vector of capacity 4 with up to four elements. *)
Definition sample_vec (l : list nat) : vec nat :=
  Buffer (length l) ((Some <$> l) ++ replicate (4 - length l) None) (Some (MkLayout 32%Z 8%Z)) [] 0.

Lemma sample_vec_is (l : list nat) : length l ≤ 4 → vec_is u64_layout l (sample_vec l).
Proof.
  intros Hl. unfold vec_is, sample_vec, raw_ok, raw_cap. cbn -[replicate].
  rewrite length_app, length_fmap, length_replicate. replace (length l + (4 - length l)) with 4 by lia.
  split; [by split|]. split; [done|by eexists].
Qed.

(** [retain], with a predicate and destructors that do not panic, keeps
    exactly the elements the predicate accepts, in their order, and drops the
    others, each once, in their order. *)
Theorem retain_correct {T} (el : Layout) (drop_panics : nat → T → bool) (f : nat → T → option bool)
    (q : T → bool) (l : list T) (s : vec T) :
  elem_ok el → (∀ c x, f c x = Some (q x)) → (∀ c x, drop_panics c x = false) → vec_is el l s →
  ∃ s', retain el drop_panics f s = Ret () s' ∧ vec_is el (List.filter q l) s' ∧
    dropped s' = reverse (List.filter (λ x, negb (q x)) l) ++ dropped s.
Proof.
  intros Hel Hf Hd Hl. pose proof (retain_spec el (λ _, true) drop_panics Hel f s l s eq_refl Hl) as H.
  unfold wp in H. destruct (retain el drop_panics f s) as [[] s'|s'|]; [|by destruct H as [[] _]; split; [exists q|]|done].
  destruct H as (K&D&(HK&HD&_&_)&Hq). destruct (Hq q Hf) as [-> HDq]. exists s'.
  split; [done|]. split; [done|]. by rewrite HD, <- HDq, reverse_involutive.
Qed.

Lemma retain_correct_witness :
  ∃ s', retain u64_layout (λ _ _, false) (λ _ x, Some (Nat.even x)) (sample_vec [1; 2; 4; 3]) = Ret () s' ∧
    vec_is u64_layout (List.filter Nat.even [1; 2; 4; 3]) s' ∧
    dropped s' = reverse (List.filter (λ x, negb (Nat.even x)) [1; 2; 4; 3]) ++ [].
Proof.
  apply (retain_correct u64_layout (λ _ _, false) (λ _ x, Some (Nat.even x)) Nat.even [1; 2; 4; 3]);
    [apply u64_elem_ok|done|done|apply sample_vec_is; simpl; lia].
Defined.

(** C10: [retain] with any predicate, which may answer anything, and any
    destructors, either of which may panic at any call: it has no undefined
    behaviour and terminates, and afterwards, also when it unwinds, every element
    that was in the vector is still in it, in the old order, or has been dropped,
    exactly once; none is leaked. *)
Theorem retain_panic_safe {T} (el : Layout) (drop_panics : nat → T → bool)
    (f : nat → T → option bool) (l : list T) (s : vec T) :
  elem_ok el → vec_is el l s →
  match retain el drop_panics f s with
  | Ret _ s' | Panic s' => ∃ K D, vec_is el K s' ∧ dropped s' = D ++ dropped s ∧
      K ++ D ≡ₚ l ∧ K `sublist_of` l
  | Fault _ => False
  end.
Proof.
  intros Hel Hl. pose proof (retain_spec el (λ _, true) drop_panics Hel f s l s eq_refl Hl) as H.
  unfold wp in H. destruct (retain el drop_panics f s) as [[] s'|s'|]; [| |done].
  - destruct H as (K&D&HKD&_). by exists K, D.
  - destruct H as (_&K&D&HKD). by exists K, D.
Qed.

Lemma retain_panic_safe_witness :
  match retain u64_layout (λ c _, c =? 3) (λ c x, if c =? 5 then None else Some (Nat.even x))
          (sample_vec [1; 2; 4; 3]) with
  | Ret _ s' | Panic s' => ∃ K D, vec_is u64_layout K s' ∧ dropped s' = D ++ [] ∧
      K ++ D ≡ₚ [1; 2; 4; 3] ∧ K `sublist_of` [1; 2; 4; 3]
  | Fault _ => False
  end.
Proof.
  apply (retain_panic_safe u64_layout (λ c _, c =? 3) (λ c x, if c =? 5 then None else Some (Nat.even x))
    [1; 2; 4; 3]); [apply u64_elem_ok|apply sample_vec_is; simpl; lia].
Defined.

(** C11: [insert] puts the element at the index and moves the later ones up, and
    [try_remove] at the same index takes it out again and leaves the vector as it
    was.  [insert] only panics for an index past the end or when the capacity
    overflows: the vector is then unchanged and the element has been dropped.  It
    only aborts when the allocator fails or a destructor panics while unwinding. *)
Theorem insert_remove {T} (el : Layout) (alloc_ok : Layout → bool) (drop_panics : nat → T → bool)
    (i : nat) (x : T) (l : list T) (s : vec T) :
  elem_ok el → vec_is el l s →
  match insert el alloc_ok drop_panics i x s with
  | Ret _ s' => i ≤ length l ∧ vec_is el (take i l ++ x :: drop i l) s' ∧ dropped s' = dropped s ∧
      ∃ s'', try_remove el i s' = Ret (Some x) s'' ∧ vec_is el l s'' ∧ dropped s'' = dropped s
  | Panic s' => (length l < i ∨ overflows el (Z.of_nat (length l)) 1 s) ∧ vec_is el l s' ∧
      dropped s' = x :: dropped s
  | Fault f => f = Aborted ∧ aborts alloc_ok drop_panics
  end.
Proof.
  intros Hel Hl. pose proof (insert_spec el alloc_ok drop_panics Hel _ l i x s (λ H, H) Hl) as H. unfold wpa in H.
  destruct (insert el alloc_ok drop_panics i x s) as [[] s'|s'|[]]; [|done..].
  destruct H as (Hi&Hl'&Hd). split_and!; [done..|].
  pose proof (try_remove_spec el alloc_ok drop_panics Hel _ i s' Hl') as H. unfold wp in H.
  destruct (try_remove el i s') as [o s''|s''|]; [|done..]. destruct H as (->&Hl''&Hd').
  assert (length (take i l) = i) as Hlen by (rewrite length_take; lia).
  rewrite lookup_mid in * by done. exists s''. split; [done|]. split; [|congruence].
  rewrite take_app_length' in Hl'' by done.
  rewrite (cons_middle x), app_assoc, drop_app_length' in Hl'' by (rewrite length_app; simpl; lia).
  by rewrite take_drop in Hl''.
Qed.

Lemma insert_remove_witness :
  match insert u64_layout (λ _, true) (λ _ _, false) 1 9 (sample_vec [5; 6; 7; 8]) with
  | Ret _ s' => 1 ≤ 4 ∧ vec_is u64_layout [5; 9; 6; 7; 8] s' ∧ dropped s' = [] ∧
      ∃ s'', try_remove u64_layout 1 s' = Ret (Some 9) s'' ∧ vec_is u64_layout [5; 6; 7; 8] s'' ∧
        dropped s'' = []
  | Panic s' => (4 < 1 ∨ overflows u64_layout 4 1 (sample_vec [5; 6; 7; 8])) ∧
      vec_is u64_layout [5; 6; 7; 8] s' ∧ dropped s' = [9]
  | Fault f => f = Aborted ∧ aborts (λ _, true) (λ (_ : nat) (_ : nat), false)
  end.
Proof.
  apply (insert_remove u64_layout (λ _, true) (λ _ _, false) 1 9 [5; 6; 7; 8]);
    [apply u64_elem_ok|apply sample_vec_is; simpl; lia].
Defined.
