(* ===== verification/BinaryHeap.v ===== *)
(** [BinaryHeap]: [alloc/src/collections/binary_heap/mod.rs].  A heap is a [Vec];
    its sifting routines work on the slice of the elements. *)

From S2P Require Import Prelude.
From S2P Require Import Order.
From S2P Require Import SortMem.
From S2P Require Import Layout.
From S2P Require Import RawVec.
From S2P Require Import Cells.
From S2P Require Import Vec.

(** The comparison operators of the element type.  They are three independent
    pieces of user code, each of which may answer anything or panic. *)
Class Ord (T : Type) := {
  ord_le : comparator T;
  ord_ge : comparator T;
  ord_lt : comparator T;
}.

(** What the documentation of [Ord] asks of them: they are the operators of one
    total order, whose strict part is [lt]. *)
Class LawfulOrd (T : Type) `{!Ord T} (lt : T → T → bool) : Prop := {
  lawful_le : lawful ord_le (λ a b, negb (lt b a));
  lawful_ge : lawful ord_ge (λ a b, negb (lt a b));
  lawful_lt : lawful ord_lt lt;
}.

(** ** [Hole] *)
Record Hole (T : Type) := MkHole { elt : T; hole_pos : nat }.
Arguments MkHole {T} elt hole_pos.
Arguments elt {T} h.
Arguments hole_pos {T} h.

Section hole.
Context {T : Type}.
Implicit Types (h : Hole T).

Definition Hole_new (pos : nat) : prog (mem T) (Hole T) :=
  len ← len_of BV;
  _ ← assert_ (pos <? len);
  x ← rd BV pos;
  mret (MkHole x pos).

Definition Hole_get h (index : nat) : prog (mem T) T :=
  _ ← assert_ (negb (index =? hole_pos h));
  len ← len_of BV;
  _ ← assert_ (index <? len);
  rd BV index.

Definition Hole_move_to h (index : nat) : prog (mem T) (Hole T) :=
  _ ← assert_ (negb (index =? hole_pos h));
  len ← len_of BV;
  _ ← assert_ (index <? len);
  _ ← copy_nonoverlapping BV index BV (hole_pos h) 1;
  mret (MkHole (elt h) index).

Definition Hole_drop h : prog (mem T) () := wr BV (hole_pos h) (elt h).

(** The part of a routine up to the next move of the hole: the guard fills the
    hole when it unwinds. *)
Definition with_hole {A} h (p : prog (mem T) A) : prog (mem T) A := on_panic p (Hole_drop h).
End hole.

(** ** Sifting, on the slice of the elements *)
Section sift.
Context {T : Type} `{!Ord T}.

Definition sift_up (start pos : nat) : prog (mem T) nat :=
  hole ← Hole_new pos;
  hole ← loop (S pos) (λ hole,
    if negb (start <? hole_pos hole) then mret (inr hole) else
    let parent := (hole_pos hole - 1) / 2 in
    with_hole hole (
      p ← Hole_get hole parent;
      stop ← is_less ord_le (elt hole) p;
      if stop : bool then mret (inr hole) else
      hole ← Hole_move_to hole parent;
      mret (inl hole))) hole;
  _ ← Hole_drop hole;
  mret (hole_pos hole).

(** One turn of the loop of [sift_down_range]: [inr (hole, true)] is its early
    return. *)
Definition sift_down_turn (end_ : nat) (h : Hole T * nat)
  : prog (mem T) (Hole T * nat + (Hole T * nat) * bool) :=
  let '(hole, child) := h in
  if negb (child <=? end_ - 2) then mret (inr ((hole, child), false)) else
  with_hole hole (
    x ← Hole_get hole child; y ← Hole_get hole (child + 1);
    right ← is_less ord_le x y;
    let child := child + Nat.b2n right in
    y ← Hole_get hole child;
    ordered ← is_less ord_ge (elt hole) y;
    if ordered : bool then mret (inr ((hole, child), true)) else
    hole ← Hole_move_to hole child;
    mret (inl (hole, 2 * hole_pos hole + 1))).

Definition sift_down_range (pos end_ : nat) : prog (mem T) nat :=
  hole ← Hole_new pos;
  '((hole, child), returned) ← loop (S end_) (sift_down_turn end_) (hole, 2 * hole_pos hole + 1);
  hole ← (if returned : bool then mret hole else
    with_hole hole (
      last ← usub end_ 1;
      if child =? last then
        y ← Hole_get hole child;
        lt ← is_less ord_lt (elt hole) y;
        if lt : bool then Hole_move_to hole child else mret hole
      else mret hole));
  _ ← Hole_drop hole;
  mret (hole_pos hole).

Definition sift_down (pos : nat) : prog (mem T) nat :=
  len ← len_of BV; sift_down_range pos len.

Definition to_bottom_turn (end_ : nat) (h : Hole T * nat)
  : prog (mem T) (Hole T * nat + Hole T * nat) :=
  let '(hole, child) := h in
  if negb (child <=? end_ - 2) then mret (inr (hole, child)) else
  with_hole hole (
    x ← Hole_get hole child; y ← Hole_get hole (child + 1);
    right ← is_less ord_le x y;
    hole ← Hole_move_to hole (child + Nat.b2n right);
    mret (inl (hole, 2 * hole_pos hole + 1))).

Definition sift_down_to_bottom (pos : nat) : prog (mem T) () :=
  end_ ← len_of BV;
  let start := pos in
  hole ← Hole_new pos;
  '(hole, child) ← loop (S end_) (to_bottom_turn end_) (hole, 2 * hole_pos hole + 1);
  hole ← with_hole hole (
    last ← usub end_ 1;
    if child =? last then Hole_move_to hole child else mret hole);
  let pos := hole_pos hole in
  _ ← Hole_drop hole;
  _ ← sift_up start pos;
  mret ().

Definition rebuild : prog (mem T) () :=
  len ← len_of BV;
  loop (S (len / 2)) (λ n,
    if negb (0 <? n) then mret (inr ()) else
    _ ← sift_down (n - 1); mret (inl (n - 1))) (len / 2).

(** [usize::BITS - x.leading_zeros() - 1] *)
Definition leading_zeros (x : nat) : Z := if x =? 0 then 64 else 63 - Z.of_nat (Nat.log2 x).
Definition log2_fast {S} (x : nat) : prog S Z :=
  let bits := (64 - leading_zeros x)%Z in
  if (1 <=? bits)%Z then mret (bits - 1)%Z else panic.

(** The products wrap at 64 bits, as in a build without overflow checks. *)
Definition wrapping_mul (a b : Z) : Z := (a * b) mod 2 ^ 64.

Definition rebuild_tail (start : nat) : prog (mem T) () :=
  len ← len_of BV;
  if start =? len then mret () else
  tail_len ← usub len start;
  better_to_rebuild ←
    (if start <? tail_len then mret true
     else if len <=? 2048 then
       log ← log2_fast start;
       mret (wrapping_mul 2 (Z.of_nat len) <? wrapping_mul (Z.of_nat tail_len) log)%Z
     else mret (wrapping_mul 2 (Z.of_nat len) <? wrapping_mul (Z.of_nat tail_len) 11)%Z);
  if better_to_rebuild : bool then rebuild
  else for_range (len - start) start (λ i, _ ← sift_up 0 i; mret ()).

(** The loop of [into_sorted_vec]. *)
Definition sort_heap : prog (mem T) () :=
  len ← len_of BV;
  loop (S len) (λ end_,
    if negb (1 <? end_) then mret (inr ()) else
    let end_ := end_ - 1 in
    x ← rd BV 0; y ← rd BV end_;
    _ ← wr BV 0 y; _ ← wr BV end_ x;
    _ ← sift_down_range 0 end_;
    mret (inl end_)) len.
End sift.

(** ** The operations on the heap *)
(** [&mut *self.data]: the slice of the first [len] cells. *)
Definition slice_get {T} (s : vec T) : mem T := Mem (take (regs s) (cells s)) [] (clock s).
Definition slice_put {T} (t : mem T) (s : vec T) : vec T :=
  Buffer (regs s) (mV t ++ drop (regs s) (cells s)) (block s) (dropped s) (calls t).
Definition on_slice {T A} : prog (mem T) A → prog (vec T) A := zoom slice_get slice_put.

Section heap.
Context {T : Type} `{!Ord T} (el : Layout) (alloc_ok : Layout → bool) (drop_panics : nat → T → bool).
Implicit Types (x : T).

Definition is_empty : prog (vec T) bool := n ← len; mret (n =? 0).

Definition peek : prog (vec T) (option T) :=
  n ← len; if n =? 0 then mret None else x ← rd_cell 0; mret (Some x).

(** [push]; the element is dropped by [Vec::push] when that panics. *)
Definition push x : prog (vec T) () :=
  old_len ← len;
  _ ← Vec.push el alloc_ok drop_panics x;
  _ ← on_slice (sift_up 0 old_len);
  mret ().

(** [swap(&mut item, &mut self.data[0])] answers the old root; when the sift
    unwinds, [item] is dropped. *)
Definition pop : prog (vec T) (option T) :=
  o ← Vec.pop el;
  match o with
  | None => mret None
  | Some item =>
      empty ← is_empty;
      if empty : bool then mret (Some item) else
      root ← on_slice (index 0);
      _ ← on_slice (wr BV 0 item);
      let item := root in
      _ ← on_panic (on_slice (sift_down_to_bottom 0)) (drop_value drop_panics item);
      mret (Some item)
  end.

(** [BinaryHeap::from(vec)], in place. *)
Definition from_vec : prog (vec T) () := on_slice rebuild.

(** [into_sorted_vec], in place.  The heap is consumed: when the sift unwinds,
    the vector is dropped. *)
Definition into_sorted_vec : prog (vec T) () :=
  on_panic (on_slice sort_heap) (Vec.drop_vec el drop_panics).

(** [self] and [other]: [mem::swap] exchanges the two vectors. *)
Definition append : prog (vec T * vec T) () :=
  n ← on_self len; m ← on_other len;
  _ ← (if n <? m then swap_vecs else mret ());
  start ← on_self len;
  _ ← Vec.append el alloc_ok;
  on_self (on_slice (rebuild_tail start)).

(** ** [PeekMut] *)
Record PeekMut := { original_len : option nat }.

Definition peek_mut : prog (vec T) (option PeekMut) :=
  empty ← is_empty;
  mret (if empty : bool then None else Some {| original_len := None |}).

(** [get_unchecked(0)] *)
Definition PeekMut_deref (p : PeekMut) : prog (vec T) T :=
  empty ← is_empty; _ ← assert_ (negb empty);
  n ← len; _ ← assume (0 <? n); rd_cell 0.

(** [deref_mut]: the reference is to cell 0; [PeekMut_write] is what the caller
    does with it. *)
Definition PeekMut_deref_mut (p : PeekMut) : prog (vec T) PeekMut :=
  empty ← is_empty; _ ← assert_ (negb empty);
  n ← len;
  p ← (if 1 <? n then _ ← set_len el 1; mret {| original_len := Some n |} else mret p);
  n ← len; _ ← assume (0 <? n);
  mret p.

Definition PeekMut_write x : prog (vec T) () := wr_cell 0 x.

Definition PeekMut_drop (p : PeekMut) : prog (vec T) () :=
  match original_len p with
  | Some n => _ ← set_len el n; _ ← on_slice (sift_down 0); mret ()
  | None => mret ()
  end.

(** [refresh] takes [original_len]; a guard dropped by a later unwinding has
    nothing left to do. *)
Definition PeekMut_refresh (p : PeekMut) : prog (vec T) (PeekMut * bool) :=
  match original_len p with
  | Some n =>
      _ ← set_len el n;
      pos ← on_slice (sift_down 0);
      mret ({| original_len := None |}, negb (pos =? 0))
  | None => mret (p, false)
  end.

Definition PeekMut_pop (p : PeekMut) : prog (vec T) T :=
  _ ← match original_len p with Some n => set_len el n | None => mret () end;
  o ← pop;
  match o with Some x => mret x | None => undefined end.
End heap.
