(* ===== verification/HeapSpec.v ===== *)
(** What the sifting routines of [BinaryHeap] do to the slice of its elements. *)

From S2P Require Import Prelude.
From S2P Require Import Order.
From S2P Require Import SortMem.
From S2P Require Import UpartSpec.
From S2P Require Import HeapsortSpec.
From S2P Require Import Layout.
From S2P Require Import RawVec.
From S2P Require Import Cells.
From S2P Require Import BinaryHeap.

(** The slice is a permutation [k] of [l] with [F k], followed by [l2]. *)
Definition fperm {T} (l l2 : list T) (F : list T → Prop) (m : mem T) : Prop :=
  ∃ k, slice_of (k ++ l2) m ∧ k ≡ₚ l ∧ F k.

(** With the hole [h] filled the slice would be [k ++ l2]; the hole is in [k]. *)
Definition holed {T} (h : Hole T) (k l2 : list T) (m : mem T) : Prop :=
  hole_pos h < length k ∧ ∃ r, slice_of r m ∧ <[hole_pos h := elt h]> r = k ++ l2.

#[export] Instance holed_proper {T} (h : Hole T) k l2 : Proper (eqm ==> iff) (holed h k l2).
Proof. intros m m' Hm. unfold holed. by setoid_rewrite Hm. Qed.

Lemma fperm_mono {T} (l l' l2 : list T) (F F' : list T → Prop) m :
  fperm l l2 F m → l ≡ₚ l' → (∀ k, k ≡ₚ l → F k → F' k) → fperm l' l2 F' m.
Proof. intros (k&Hk&Hp&HF) Hl HF'. exists k. split_and!; [done|by rewrite Hp|by apply HF']. Qed.

(** ** The hole *)
Section hole.
Context {T : Type}.
Implicit Types (h : Hole T) (k l : list T) (m : mem T) (P : mem T → Prop).

Lemma holed_elt h k l2 m : holed h k l2 m → k !! hole_pos h = Some (elt h).
Proof.
  intros (Hp&r&Hr&Heq). assert (length r = length (k ++ l2)) as Hlen by (by rewrite <- Heq, length_insert).
  rewrite length_app in Hlen.
  rewrite <- (lookup_app_l k l2) by done. rewrite <- Heq. apply list_lookup_insert_eq. lia.
Qed.

Lemma wp_hole_new k l2 pos x (Q : Hole T → mem T → Prop) P m :
  slice_of (k ++ l2) m → k !! pos = Some x → (holed (MkHole x pos) k l2 m → Q (MkHole x pos) m) →
  wp (Hole_new pos) Q P m.
Proof.
  intros Hk Hx HQ. pose proof (lookup_lt_Some _ _ _ Hx). unfold Hole_new.
  assert ((k ++ l2) !! pos = Some x) as Hx' by by rewrite lookup_app_l.
  eapply wp_bind, wp_len_v; [done|]. rewrite length_app.
  apply wp_bind, wp_assert; [apply Nat.ltb_lt; lia|].
  apply wp_bind. eapply wp_rd_v; [done..|]. apply wp_ret, HQ. split; [done|].
  exists (k ++ l2). split; [done|]. simpl. by apply list_insert_id.
Qed.

Lemma holed_lookup h k l2 r i y : <[hole_pos h := elt h]> r = k ++ l2 → i ≠ hole_pos h →
  k !! i = Some y → r !! i = Some y.
Proof.
  intros Heq Hi Hy. rewrite <- (list_lookup_insert_ne r (hole_pos h) i (elt h)), Heq by done.
  by apply lookup_app_l_Some.
Qed.

Lemma wp_hole_get h k l2 i y (Q : T → mem T → Prop) P m :
  holed h k l2 m → i ≠ hole_pos h → k !! i = Some y → Q y m → wp (Hole_get h i) Q P m.
Proof.
  intros (Hp&r&Hr&Heq) Hi Hy HQ. pose proof (holed_lookup _ _ _ _ _ _ Heq Hi Hy) as Hry.
  pose proof (lookup_lt_Some _ _ _ Hry). unfold Hole_get.
  apply wp_bind, wp_assert; [by apply negb_true_iff, Nat.eqb_neq|].
  eapply wp_bind, wp_len_v; [done|]. apply wp_bind, wp_assert; [by apply Nat.ltb_lt|].
  by eapply wp_rd_v.
Qed.

Lemma wp_hole_move h k l2 i y (Q : Hole T → mem T → Prop) P m :
  holed h k l2 m → i ≠ hole_pos h → k !! i = Some y →
  (∀ m', holed (MkHole (elt h) i) (<[i := elt h]> (<[hole_pos h := y]> k)) l2 m' →
     Q (MkHole (elt h) i) m') →
  wp (Hole_move_to h i) Q P m.
Proof.
  intros (Hp&r&Hr&Heq) Hi Hy HQ. pose proof (holed_lookup _ _ _ _ _ _ Heq Hi Hy) as Hry.
  pose proof (lookup_lt_Some _ _ _ Hry). pose proof (lookup_lt_Some _ _ _ Hy).
  assert (length r = length (k ++ l2)) as Hlen by (by rewrite <- Heq, length_insert).
  rewrite length_app in Hlen. unfold Hole_move_to.
  apply wp_bind, wp_assert; [by apply negb_true_iff, Nat.eqb_neq|].
  eapply wp_bind, wp_len_v; [done|]. apply wp_bind, wp_assert; [by apply Nat.ltb_lt|].
  apply wp_bind, wp_copy1 with y.
  - unfold slice_of in Hr. simpl. by rewrite Hr, list_lookup_fmap, Hry.
  - right. done.
  - rewrite (slice_size r) by done. lia.
  - apply wp_ret, HQ. split; simpl; [by rewrite !length_insert|].
    exists (<[hole_pos h := y]> r). split; [by apply store_slice|].
    rewrite <- insert_app_l, <- insert_app_l by (rewrite ?length_insert; done).
    rewrite <- Heq. by rewrite list_insert_insert_eq.
Qed.

Lemma wp_hole_drop h k l2 (Q : () → mem T → Prop) P m :
  holed h k l2 m → (∀ m', slice_of (k ++ l2) m' → Q () m') → wp (Hole_drop h) Q P m.
Proof.
  intros (Hp&r&Hr&Heq) HQ. unfold Hole_drop.
  assert (length r = length (k ++ l2)) as Hlen by (by rewrite <- Heq, length_insert).
  rewrite length_app in Hlen.
  eapply wp_wr_v; [done|lia|]. intros m' Hm' _. apply HQ. by rewrite <- Heq.
Qed.

(** The guard: whatever unwinds out of [p] with the hole still open leaves the
    slice filled. *)
Lemma wp_with_hole {A} h (p : prog (mem T) A) l l2 (F : list T → Prop) (Q : A → mem T → Prop) m :
  wp p Q (λ m', ∃ k, holed h k l2 m' ∧ k ≡ₚ l ∧ F k) m →
  wp (with_hole h p) Q (fperm l l2 F) m.
Proof.
  intros Hp. apply wp_on_panic. eapply wp_mono; [exact Hp|done|].
  intros m' (k&Hk&Hl&HF). eapply wp_hole_drop; [done|]. intros m2 Hm2. by exists k.
Qed.
End hole.

(** ** Sifting *)
Section sift.
Context {T : Type} `{!Ord T} (lt : T → T → bool) `{!StrictWeak lt}.
Implicit Types (h : Hole T) (k l : list T) (m : mem T) (P : mem T → Prop) (start pos i j : nat).
Let L : Prop := LawfulOrd T lt.

(** Two memories with the same slice. *)
Lemma holed_eqm h k l m m' : eqm m' m → holed h k l m → holed h k l m'.
Proof. by intros ->. Qed.

Lemma wp_ord_le x y (Q : bool → mem T → Prop) P m :
  (∀ r m', eqm m' m → (L → r = negb (lt y x)) → Q r m') → (∀ m', eqm m' m → ¬ L → P m') →
  wp (is_less ord_le x y) Q P m.
Proof.
  intros HQ HP. apply (wp_cmp _ (λ a b, negb (lt b a))).
  - intros r m' Hm' Hr. apply HQ; [done|]. intros HL. apply Hr, HL.
  - intros m' Hm' Hn. apply HP; [done|]. intros HL. apply Hn, HL.
Qed.

Lemma wp_ord_ge x y (Q : bool → mem T → Prop) P m :
  (∀ r m', eqm m' m → (L → r = negb (lt x y)) → Q r m') → (∀ m', eqm m' m → ¬ L → P m') →
  wp (is_less ord_ge x y) Q P m.
Proof.
  intros HQ HP. apply (wp_cmp _ (λ a b, negb (lt a b))).
  - intros r m' Hm' Hr. apply HQ; [done|]. intros HL. apply Hr, HL.
  - intros m' Hm' Hn. apply HP; [done|]. intros HL. apply Hn, HL.
Qed.

Lemma wp_ord_lt x y (Q : bool → mem T → Prop) P m :
  (∀ r m', eqm m' m → (L → r = lt x y) → Q r m') → (∀ m', eqm m' m → ¬ L → P m') →
  wp (is_less ord_lt x y) Q P m.
Proof.
  intros HQ HP. apply (wp_cmp _ lt).
  - intros r m' Hm' Hr. apply HQ; [done|]. intros HL. apply Hr, HL.
  - intros m' Hm' Hn. apply HP; [done|]. intros HL. apply Hn, HL.
Qed.

(** The state of a sift: the hole, with [G] of the filled slice. *)
Definition hinv h l (l2 : list T) (G : list T → Prop) m : Prop :=
  ∃ k, holed h k l2 m ∧ k ≡ₚ l ∧ G k.

Lemma hinv_drop h l (l2 : list T) G (Q : () → mem T → Prop) P m :
  hinv h l l2 G m → (∀ m', fperm l l2 G m' → Q () m') → wp (Hole_drop h) Q P m.
Proof.
  intros (k&Hk&Hp&HG) HQ. eapply wp_hole_drop; [done|]. intros m' Hm'. apply HQ. by exists k.
Qed.

Lemma hinv_new k (l2 : list T) pos (Q : Hole T → mem T → Prop) P m :
  slice_of (k ++ l2) m → pos < length k →
  (∀ x, hinv (MkHole x pos) k l2 (λ k', k' = k) m → Q (MkHole x pos) m) → wp (Hole_new pos) Q P m.
Proof.
  intros Hk Hpos HQ. destruct (lookup_lt_is_Some_2 k pos Hpos) as [x Hx].
  eapply wp_hole_new; [done..|]. intros Hh. apply HQ. by exists k.
Qed.

Lemma sift_up_spec start pos l (l2 : list T) m :
  slice_of (l ++ l2) m → pos < length l →
  wp (sift_up start pos)
    (λ _, fperm l l2 (λ k, L → start = 0 → rising lt l pos → is_heap lt k))
    (fperm l l2 (λ _, ¬ L)) m.
Proof.
  intros Hl Hpos. unfold sift_up. eapply wp_bind, hinv_new; [done..|]. intros x Hx.
  set (I := λ h k, hole_pos h ≤ pos ∧ (L → start = 0 → rising lt l pos → rising lt k (hole_pos h))).
  apply wp_bind. eapply (wp_loop (λ h, hinv h l l2 (I h)) hole_pos); [| |simpl; lia].
  2:{ destruct Hx as (k&Hk&Hp&->). exists l. by split_and!. }
  clear x Hx Hl m. intros h m (k&Hk&Hp&Hle&Hr). pose proof (holed_elt _ _ _ _ Hk) as Hx.
  assert (∀ m', eqm m' m → (L → start = 0 → rising lt l pos → is_heap lt k) →
    wp (_ ← Hole_drop h; mret (hole_pos h))
      (λ _, fperm l l2 (λ k, L → start = 0 → rising lt l pos → is_heap lt k))
      (fperm l l2 (λ _, ¬ L)) m') as Hstop.
  { intros m' Hm' Hheap. apply wp_bind. eapply hinv_drop; [|intros m2 Hm2; apply wp_ret; exact Hm2].
    exists k. split_and!; [by eapply holed_eqm|done|done]. }
  destruct (Nat.ltb_spec start (hole_pos h)) as [Hs|Hs]; cbn [negb].
  2:{ apply wp_ret, Hstop; [done|]. intros HL -> Hl. eapply rising_stop; [by apply Hr|done|].
      intros i y Hi. unfold child_of in Hi. lia. }
  assert (child_of ((hole_pos h - 1) / 2) (hole_pos h)) as Hc.
  { unfold child_of. pose proof (Nat.div_mod (hole_pos h - 1) 2 ltac:(lia)).
    pose proof (Nat.mod_upper_bound (hole_pos h - 1) 2 ltac:(lia)). lia. }
  set (i := (hole_pos h - 1) / 2) in *.
  assert (i < hole_pos h) as Hi by (unfold child_of in Hc; lia).
  pose proof (lookup_lt_Some _ _ _ Hx).
  destruct (lookup_lt_is_Some_2 k i) as [y Hy]; [lia|].
  cbv zeta. apply (wp_with_hole h _ l l2). apply wp_bind. eapply wp_hole_get; [done|lia|done|].
  apply wp_bind, wp_ord_le.
  2:{ intros m2 Hm2 HnL. exists k. split_and!; [by eapply holed_eqm|done|done]. }
  intros r m2 Hm2 Hr2. destruct r.
  - apply wp_ret, Hstop; [done|]. intros HL Hs0 Hl. eapply rising_stop; [by apply Hr|done|].
    intros i' z Hi' Hz. assert (i' = i) as -> by (unfold child_of in *; lia).
    rewrite Hy in Hz. injection Hz as <-. unfold le. specialize (Hr2 HL). by destruct (lt y (elt h)).
  - apply wp_bind. eapply wp_hole_move; [by eapply holed_eqm|lia|done|].
    intros m3 Hm3. apply wp_ret. split; [|simpl; lia].
    exists (<[i := elt h]> (<[hole_pos h := y]> k)). split_and!; [done| |].
    + rewrite <- Hp. by apply exchange_perm.
    + split; [simpl; lia|]. intros HL Hs0 Hl. simpl. rewrite list_insert_insert_ne by lia.
      apply rising_step; [done|by apply Hr|done|done|done|].
      specialize (Hr2 HL). by destruct (lt y (elt h)).
Qed.

(** The greater of two children. *)
Lemma greater_child {A} h k (l2 : list T) c (K : bool → prog (mem T) A) Q P m :
  holed h k l2 m → c = 2 * hole_pos h + 1 → c + 1 < length k →
  (∀ r m' y, eqm m' m → child_of (hole_pos h) (c + Nat.b2n r) → k !! (c + Nat.b2n r) = Some y →
     (L → ∀ s z, child_of (hole_pos h) s → k !! s = Some z → le lt z y) → wp (K r) Q P m') →
  (∀ m', eqm m' m → ¬ L → P m') →
  wp (x ← Hole_get h c; y ← Hole_get h (c + 1); right ← is_less ord_le x y; K right) Q P m.
Proof.
  intros Hk Hc Hlt HQ HP.
  destruct (lookup_lt_is_Some_2 k c) as [x Hx]; [lia|].
  destruct (lookup_lt_is_Some_2 k (c + 1)) as [y Hy]; [lia|].
  apply wp_bind. eapply wp_hole_get; [done|lia|done|].
  apply wp_bind. eapply wp_hole_get; [done|lia|done|].
  apply wp_bind, wp_ord_le; [|done]. intros r m2 Hm2 Hr.
  assert (∀ s, child_of (hole_pos h) s → s = c ∨ s = c + 1) as Hs by (unfold child_of; lia).
  destruct r; cbn [Nat.b2n].
  - apply (HQ true m2 y); [done|unfold child_of; simpl; lia|done|].
    intros HL s z [->| ->]%Hs Hz; [rewrite Hx in Hz|rewrite Hy in Hz]; injection Hz as <-; [|done].
    specialize (Hr HL). unfold le. by destruct (lt y x).
  - apply (HQ false m2 x); [done|unfold child_of; simpl; lia|by rewrite Nat.add_0_r|].
    intros HL s z [->| ->]%Hs Hz; [rewrite Hx in Hz|rewrite Hy in Hz]; injection Hz as <-; [done|].
    specialize (Hr HL). apply lt_le; [done|]. by destruct (lt y x).
Qed.

(** The heap property below [pos] is established at [pos]. *)
Definition down_inv pos l (h : Hole T) k : Prop :=
  pos ≤ hole_pos h ∧ (L → heap_from lt (pos + 1) l → sifting lt pos k (hole_pos h)).

Lemma sift_down_turn_spec pos l (l2 : list T) h c m :
  hinv h l l2 (down_inv pos l h) m → c = 2 * hole_pos h + 1 →
  wp (sift_down_turn (length l) (h, c))
    (λ r m', match r with
     | inl (h', c') => hinv h' l l2 (down_inv pos l h') m' ∧ c' = 2 * hole_pos h' + 1 ∧
                       hole_pos h < hole_pos h' < length l
     | inr ((h', c'), returned) => hinv h' l l2 (down_inv pos l h') m' ∧
         if returned : bool
         then hinv h' l l2 (λ k, L → heap_from lt (pos + 1) l → heap_from lt pos k) m'
         else c' = 2 * hole_pos h' + 1 ∧ length l - 2 < c'
     end)
    (fperm l l2 (λ _, ¬ L)) m.
Proof.
  intros Hinv Hc. unfold sift_down_turn.
  destruct (Nat.leb_spec c (length l - 2)) as [Hle|Hgt]; cbn [negb]; [|by apply wp_ret].
  destruct Hinv as (k&Hk&Hp&Hpos&Hsift). pose proof (Permutation_length Hp) as Hlen.
  pose proof (holed_elt _ _ _ _ Hk) as Hx.
  apply (wp_with_hole h _ l l2).
  assert (∀ m', eqm m' m → ¬ L → ∃ k, holed h k l2 m' ∧ k ≡ₚ l ∧ ¬ L) as Hpanic.
  { intros m' Hm' HnL. exists k. split_and!; [by eapply holed_eqm|done|done]. }
  eapply greater_child; [done|done|lia| |done]. intros r m2 y Hm2 Hch Hy Hmax.
  set (c' := c + Nat.b2n r) in *. cbv zeta.
  assert (hole_pos h < c') as Hlt by (unfold child_of in Hch; lia).
  pose proof (lookup_lt_Some _ _ _ Hy).
  apply wp_bind. eapply wp_hole_get; [by eapply holed_eqm|lia|done|].
  apply wp_bind, wp_ord_ge. 2:{ intros m3 Hm3 HnL. apply Hpanic; [by etrans|done]. }
  intros o m3 Hm3 Ho. assert (eqm m3 m) as Hm3' by by etrans. destruct o.
  - apply wp_ret. split; exists k.
    { split_and!; [by eapply holed_eqm|done|done]. }
    split_and!; [by eapply holed_eqm|done|]. intros HL Hh.
    eapply sifting_stop; [by apply Hsift|]. intros s u v Hs Hu Hv.
    rewrite Hx in Hu. injection Hu as <-. transitivity y; [by apply (Hmax HL s)|].
    specialize (Ho HL). unfold le. by destruct (lt (elt h) y).
  - apply wp_bind. eapply wp_hole_move; [by eapply holed_eqm|lia|done|].
    intros m4 Hm4. apply wp_ret. split; [|split; simpl; lia].
    eexists. split_and!; [exact Hm4| |].
    + rewrite <- Hp. by apply exchange_perm.
    + split; [simpl; lia|]. intros HL Hh. simpl.
      eapply sifting_step; [done|by apply Hsift|done|done|done|done| |by apply Hmax].
      specialize (Ho HL). by destruct (lt (elt h) y).
Qed.

Lemma sift_down_range_spec pos l (l2 : list T) m :
  slice_of (l ++ l2) m → pos < length l →
  wp (sift_down_range pos (length l))
    (λ _, fperm l l2 (λ k, L → heap_from lt (pos + 1) l → heap_from lt pos k))
    (fperm l l2 (λ _, ¬ L)) m.
Proof.
  intros Hl Hpos. unfold sift_down_range. eapply wp_bind, hinv_new; [done..|]. intros x Hx.
  apply wp_bind. eapply (wp_loop (λ '(h, c) m, hinv h l l2 (down_inv pos l h) m ∧
    c = 2 * hole_pos h + 1 ∧ hole_pos h < length l) (λ '(h, _), length l - hole_pos h));
    [| |simpl; lia].
  2:{ split_and!; [|done|done]. destruct Hx as (k&Hk&Hp&->). exists l. split_and!; [done..|].
      split; [done|]. intros _. apply sifting_start. }
  clear x Hx Hl m. intros [h c] m (Hinv&Hc&Hlt).
  eapply wp_mono; [by apply sift_down_turn_spec| |done].
  intros [[h' c']|[[h' c'] returned]] m2; [intros (?&?&?); split_and!; [done|done|lia|lia]|].
  intros [Hinv2 Hret].
  assert (∀ m', hinv h' l l2 (λ k, L → heap_from lt (pos + 1) l → heap_from lt pos k) m' →
    wp (_ ← Hole_drop h'; mret (hole_pos h'))
    (λ _, fperm l l2 (λ k, L → heap_from lt (pos + 1) l → heap_from lt pos k))
    (fperm l l2 (λ _, ¬ L)) m') as Hstop.
  { intros m' Hm'. apply wp_bind. eapply hinv_drop; [done|]. intros m3 Hm3. by apply wp_ret. }
  destruct returned; [by apply wp_bind, wp_ret, Hstop|]. clear Hstop. destruct Hret as [Hc' Hge].
  destruct Hinv2 as (k&Hk&Hp&Hj&Hsift). pose proof (Permutation_length Hp) as Hlen.
  pose proof (holed_elt _ _ _ _ Hk) as Hx. pose proof (lookup_lt_Some _ _ _ Hx).
  apply wp_bind, (wp_with_hole h' _ l l2). apply wp_bind, wp_usub; [lia|].
  destruct (Nat.eqb_spec c' (length l - 1)) as [Heq|Hne].
  2:{ apply wp_ret, wp_bind. eapply hinv_drop; [|intros m3 Hm3; apply wp_ret; exact Hm3].
      exists k. split_and!; [done..|]. intros HL Hh. eapply sifting_stop; [by apply Hsift|].
      intros s u v Hs _ Hv%lookup_lt_Some. unfold child_of in Hs. lia. }
  destruct (lookup_lt_is_Some_2 k c') as [y Hy]; [lia|].
  apply wp_bind. eapply wp_hole_get; [done|lia|done|].
  apply wp_bind, wp_ord_lt.
  2:{ intros m3 Hm3 HnL. exists k. split_and!; [by eapply holed_eqm|done|done]. }
  assert (∀ s z, child_of (hole_pos h') s → k !! s = Some z → s = c' ∧ z = y) as Honly.
  { intros s z Hs Hz. assert (s = c') as ->; [|by simplify_eq].
    apply lookup_lt_Some in Hz. unfold child_of in Hs. lia. }
  intros o m3 Hm3 Ho. destruct o.
  - eapply wp_hole_move; [by eapply holed_eqm|lia|done|]. intros m4 Hm4.
    apply wp_bind. eapply hinv_drop; [|intros m5 Hm5; apply wp_ret; exact Hm5].
    eexists. split_and!; [exact Hm4| |].
    + rewrite <- Hp. by apply exchange_perm.
    + intros HL Hh. eapply sifting_stop.
      * eapply (sifting_step _ _ _ (hole_pos h') c' (elt h') y); [by apply Hsift|done|unfold child_of; lia|done..| |].
        -- symmetry. by apply Ho.
        -- intros s z Hs Hz. destruct (Honly s z Hs Hz) as [_ ->]. done.
      * intros s u v Hs _ Hv%lookup_lt_Some. rewrite !length_insert in Hv. unfold child_of in Hs. lia.
  - apply wp_ret, wp_bind. eapply hinv_drop; [|intros m4 Hm4; apply wp_ret; exact Hm4].
    exists k. split_and!; [by eapply holed_eqm|done|]. intros HL Hh.
    eapply sifting_stop; [by apply Hsift|]. intros s u v Hs Hu Hv.
    destruct (Honly s v Hs Hv) as [_ ->]. rewrite Hx in Hu. injection Hu as <-. symmetry. by apply Ho.
Qed.

Lemma sift_down_spec pos l m :
  slice_of l m → pos < length l →
  wp (sift_down pos)
    (λ _, fperm l [] (λ k, L → heap_from lt (pos + 1) l → heap_from lt pos k))
    (fperm l [] (λ _, ¬ L)) m.
Proof.
  intros Hl Hpos. unfold sift_down. eapply wp_bind, wp_len_v; [done|].
  apply sift_down_range_spec; [by rewrite app_nil_r|done].
Qed.

(** The way down of [sift_down_to_bottom]: nothing is asked of the element. *)
Definition bottom_inv pos l (h : Hole T) k : Prop :=
  pos ≤ hole_pos h ∧ (L → pos = 0 → heap_from lt 1 l → floating lt k (hole_pos h)).

Lemma bottom_move pos l h k (l2 : list T) c y m (Q : Hole T → mem T → Prop) P :
  holed h k l2 m → k ≡ₚ l → bottom_inv pos l h k → child_of (hole_pos h) c → k !! c = Some y →
  (L → ∀ s z, child_of (hole_pos h) s → k !! s = Some z → le lt z y) →
  (∀ m', hinv (MkHole (elt h) c) l l2 (bottom_inv pos l (MkHole (elt h) c)) m' →
     Q (MkHole (elt h) c) m') →
  wp (Hole_move_to h c) Q P m.
Proof.
  intros Hk Hp [Hpos Hf] Hc Hy Hmax HQ. eapply wp_hole_move; [done|unfold child_of in Hc; lia|done|].
  intros m' Hm'. apply HQ. eexists. split_and!; [exact Hm'| |].
  - rewrite <- Hp. apply exchange_perm; [by eapply holed_elt|done].
  - split; [unfold child_of in Hc; simpl; lia|]. intros HL H0 Hh. simpl.
    apply floating_step; [by apply Hf|done|by eapply holed_elt|done|by apply Hmax].
Qed.

Lemma sift_down_to_bottom_spec pos l m :
  slice_of l m → pos < length l →
  wp (sift_down_to_bottom pos)
    (λ _, fperm l [] (λ k, L → pos = 0 → heap_from lt 1 l → is_heap lt k))
    (fperm l [] (λ _, ¬ L)) m.
Proof.
  intros Hl Hpos. unfold sift_down_to_bottom. eapply wp_bind, wp_len_v; [done|]. cbv zeta.
  rewrite <- (app_nil_r l) in Hl. eapply wp_bind, hinv_new; [done..|]. intros x Hx.
  apply wp_bind. eapply (wp_loop (λ '(h, c) m, hinv h l [] (bottom_inv pos l h) m ∧
    c = 2 * hole_pos h + 1 ∧ hole_pos h < length l) (λ '(h, _), length l - hole_pos h));
    [| |simpl; lia].
  2:{ split_and!; [|done|done]. destruct Hx as (k&Hk&Hp&->). exists l. split_and!; [done..|].
      split; [done|]. intros _ -> ?. by apply floating_start. }
  clear x Hx Hl m. intros [h c] m (Hinv&Hc&Hlt). unfold to_bottom_turn.
  destruct Hinv as (k&Hk&Hp&Hf). pose proof (Permutation_length Hp) as Hlen.
  destruct (Nat.leb_spec c (length l - 2)) as [Hle|Hgt]; cbn [negb].
  { apply (wp_with_hole h _ l []). eapply greater_child; [done|done|lia| |].
    - intros r m2 y Hm2 Hch Hy Hmax. apply wp_bind.
      eapply bottom_move; [by eapply holed_eqm|done|done|done|done|done|].
      intros m3 Hm3. apply wp_ret. pose proof (lookup_lt_Some _ _ _ Hy). unfold child_of in Hch.
      split_and!; [done|done|simpl; lia|simpl; lia].
    - intros m2 Hm2 HnL. exists k. split_and!; [by eapply holed_eqm|done|done]. }
  apply wp_ret, wp_bind. apply (wp_with_hole h _ l []). apply wp_bind, wp_usub; [lia|].
  assert (∀ h' m', hinv h' l [] (bottom_inv pos l h') m' → length l ≤ 2 * hole_pos h' + 1 →
    wp (_ ← Hole_drop h'; _ ← sift_up pos (hole_pos h'); mret ())
    (λ _, fperm l [] (λ k, L → pos = 0 → heap_from lt 1 l → is_heap lt k))
    (fperm l [] (λ _, ¬ L)) m') as Hend.
  { intros h' m' (k'&Hk'&Hp'&Hpos'&Hf') Hleaf. pose proof (Permutation_length Hp') as Hlen'.
    pose proof (lookup_lt_Some _ _ _ (holed_elt _ _ _ _ Hk')).
    apply wp_bind. eapply wp_hole_drop; [done|]. intros m2 Hm2.
    apply wp_bind. eapply wp_mono; [by apply (sift_up_spec pos (hole_pos h') k')| |].
    - intros ? m3 Hm3. apply wp_ret. eapply fperm_mono; [exact Hm3|done|].
      intros k3 _ Hheap HL H0 Hh. apply Hheap; [done|done|]. apply floating_leaf; [by apply Hf'|lia].
    - intros m3 Hm3. by eapply fperm_mono. }
  destruct (Nat.eqb_spec c (length l - 1)).
  - destruct (lookup_lt_is_Some_2 k c) as [y Hy]; [lia|].
    eapply bottom_move; [done|done|done|unfold child_of; lia|done| |].
    + intros _ s z Hs Hz. assert (s = c) as ->; [|by simplify_eq].
      apply lookup_lt_Some in Hz. unfold child_of in Hs. lia.
    + intros m2 Hm2. apply Hend; [done|simpl; lia].
  - apply wp_ret, Hend; [by exists k|lia].
Qed.

Lemma rebuild_spec l m :
  slice_of l m → wp rebuild (λ _, fperm l [] (λ k, L → is_heap lt k)) (fperm l [] (λ _, ¬ L)) m.
Proof.
  intros Hl. unfold rebuild. eapply wp_bind, wp_len_v; [done|].
  pose proof (Nat.Div0.mul_div_le (length l) 2).
  assert (length l ≤ 2 * (length l / 2) + 1) as Hhalf.
  { pose proof (Nat.div_mod (length l) 2 ltac:(lia)). pose proof (Nat.mod_upper_bound (length l) 2 ltac:(lia)). lia. }
  eapply (wp_loop (λ n m, n ≤ length l / 2 ∧ fperm l [] (λ k, L → heap_from lt n k) m) (λ n, n)); [| |lia].
  2:{ split; [done|]. exists l. rewrite app_nil_r. split_and!; [done|done|]. intros _. by apply heap_from_half. }
  clear m Hl. intros n m (Hn&k&Hk&Hp&Hh). pose proof (Permutation_length Hp).
  rewrite app_nil_r in Hk. destruct n as [|n]; cbn [Nat.ltb Nat.leb negb].
  { apply wp_ret. exists k. by rewrite app_nil_r. }
  replace (S n - 1) with n by lia. apply wp_bind.
  eapply wp_mono; [apply (sift_down_spec n k); [done|lia]| |].
  - intros ? m2 Hm2. apply wp_ret. split; [|lia]. split; [lia|].
    eapply fperm_mono; [exact Hm2|done|]. intros k2 _ Hk2 HL. apply Hk2; [done|].
    rewrite Nat.add_1_r. by apply Hh.
  - intros m2 Hm2. by eapply fperm_mono.
Qed.

(** The elements before [i] are in heap order, the others are not touched. *)
Lemma rebuild_tail_turn l k i m :
  slice_of k m → k ≡ₚ l → i < length k →
  wp (sift_up 0 i) (λ _, fperm l [] (λ k', L → is_heap lt (take i k) → is_heap lt (take (i + 1) k')))
    (fperm l [] (λ _, ¬ L)) m.
Proof.
  intros Hk Hp Hi. destruct (list_split_mid k i) as (k1&x&k2&->&Hk1); [done|]. subst i.
  rewrite take_app_length.
  rewrite (cons_middle x), app_assoc in Hk, Hp.
  eapply wp_mono; [apply (sift_up_spec 0 (length k1) (k1 ++ [x]) k2); [done|len]| |].
  - intros ? m2 Hm2. cbn beta in Hm2.
    destruct Hm2 as (k3&Hk3&Hp3&HF). apply Permutation_length in Hp3 as Hlen.
    rewrite length_app in Hlen; simpl in Hlen.
    exists (k3 ++ k2). rewrite app_nil_r. split_and!; [done|by rewrite Hp3|]. intros HL Hh.
    rewrite take_app_length' by done. apply HF; [done|done|by apply rising_snoc].
  - intros m2 (k3&Hk3&Hp3&HF). exists (k3 ++ k2). rewrite app_nil_r. split_and!; [done|by rewrite Hp3|done].
Qed.

Lemma rebuild_tail_spec start l m :
  slice_of l m → start ≤ length l →
  wp (rebuild_tail start)
    (λ _, fperm l [] (λ k, L → is_heap lt (take start l) → is_heap lt k))
    (fperm l [] (λ _, ¬ L)) m.
Proof.
  intros Hl Hs. unfold rebuild_tail. eapply wp_bind, wp_len_v; [done|].
  destruct (Nat.eqb_spec start (length l)) as [->|Hne].
  { apply wp_ret. exists l. rewrite app_nil_r. split_and!; [done|done|]. by rewrite firstn_all. }
  apply wp_bind, wp_usub; [done|].
  apply wp_bind. eapply wp_mono with (Q := λ _ m', m' = m) (P := λ _, False); [| |done].
  { destruct (Nat.ltb_spec start (length l - start)); [by apply wp_ret|].
    destruct (Nat.leb_spec (length l) 2048); [|by apply wp_ret].
    apply wp_bind. unfold log2_fast, leading_zeros. destruct (Nat.eqb_spec start 0); [lia|].
    destruct (Z.leb_spec 1 (64 - (63 - Z.of_nat (Nat.log2 start)))); [|lia].
    by apply wp_ret, wp_ret. }
  intros better ? ->. destruct better.
  - eapply wp_mono; [by apply rebuild_spec| |done].
    intros ? m2 Hm2. eapply fperm_mono; [exact Hm2|done|]. intros k _ Hk HL _. by apply Hk.
  - eapply wp_mono; [apply (wp_for_range (λ i, fperm l []
      (λ k, L → is_heap lt (take start l) → is_heap lt (take i k)))
      (fperm l [] (λ _, ¬ L)))| |done].
    + intros i m2 Hi (k&Hk&Hp&Hh). rewrite app_nil_r in Hk. apply Permutation_length in Hp as Hlen.
      apply wp_bind. eapply wp_mono; [apply (rebuild_tail_turn l k i); [done|done|lia]| |done].
      intros ? m3 Hm3. apply wp_ret. eapply fperm_mono; [exact Hm3|done|auto].
    + exists l. by rewrite app_nil_r.
    + intros ? m2 (k&Hk&Hp&Hh). apply Permutation_length in Hp as Hlen. exists k.
      split_and!; [done|done|]. intros HL H0. specialize (Hh HL H0).
      rewrite take_ge in Hh by lia. done.
Qed.

(** A heap turned into a sorted slice: [k] is what is left of the heap. *)
Lemma sort_heap_turn (C : Prop) x pre z post l m : (C → L) →
  slice_of ((x :: pre ++ [z]) ++ post) m → (x :: pre ++ [z]) ++ post ≡ₚ l →
  (C → is_heap lt (x :: pre ++ [z]) ∧ sorted lt post ∧
    ∀ a b, a ∈ x :: pre ++ [z] → b ∈ post → le lt a b) →
  wp (a ← rd BV 0; b ← rd BV (S (length pre)); _ ← wr BV 0 b; _ ← wr BV (S (length pre)) a;
      _ ← sift_down_range 0 (S (length pre)); mret (inl (S (length pre)) : nat + ()))
    (λ r m', r = inl (S (length pre)) ∧ ∃ k, slice_of (k ++ x :: post) m' ∧ k ++ x :: post ≡ₚ l ∧ length k = S (length pre) ∧
      (C → is_heap lt k ∧ sorted lt (x :: post) ∧ ∀ a b, a ∈ k → b ∈ x :: post → le lt a b))
    (fperm l [] (λ _, ¬ L)) m.
Proof.
  intros HCL Hk Hp Hinv. assert ((x :: pre ++ [z]) ++ post = x :: pre ++ z :: post) as Heq
    by (simpl; by rewrite <- app_assoc).
  rewrite Heq in Hk, Hp. clear Heq.
  apply wp_bind. eapply wp_rd_v; [done..|].
  apply wp_bind. eapply wp_rd_v; [done|simpl; by apply lookup_mid|].
  apply wp_bind. eapply wp_wr_v; [done|simpl; lia|]. intros m2 Hm2 _.
  apply wp_bind. eapply wp_wr_v; [done|simpl; rewrite length_app; simpl; lia|]. intros m3 Hm3 _.
  assert (<[S (length pre) := x]> (<[0 := z]> (x :: pre ++ z :: post)) = (z :: pre) ++ x :: post) as Heq
    by (simpl; by rewrite insert_mid).
  rewrite Heq in Hm3. clear Heq.
  assert ((z :: pre) ++ x :: post ≡ₚ l) as Hp3 by (rewrite <- Hp; simpl; solve_Permutation).
  change (S (length pre)) with (length (z :: pre)).
  apply wp_bind. eapply wp_mono; [apply (sift_down_range_spec 0 (z :: pre) (x :: post)); [exact Hm3|simpl; lia]| |].
  - intros ? m4 Hm4. cbn beta in Hm4. destruct Hm4 as (k&Hk4&Hpk&Hheap). apply wp_ret. split; [done|].
    exists k. split_and!; [done|by rewrite Hpk|by apply Permutation_length in Hpk|].
    intros HC. destruct (Hinv HC) as (Hh&Hs&Hle).
    eapply (heapsort_remove lt pre x z post k); [done..|].
    apply (Hheap (HCL HC)). intros i Hi c u v Hc Hu Hv. apply (Hh i ltac:(lia) c); [done|..].
    + destruct i; [lia|]. simpl in *. by apply lookup_app_l_Some.
    + unfold child_of in Hc. destruct c; [lia|]. simpl in *. by apply lookup_app_l_Some.
  - intros m4 (k&Hk4&Hpk&HnL). exists (k ++ x :: post). rewrite app_nil_r.
    split_and!; [done|by rewrite Hpk|done].
Qed.

Lemma sort_heap_spec l m :
  slice_of l m →
  wp sort_heap (λ _, fperm l [] (λ k, L → is_heap lt l → sorted lt k)) (fperm l [] (λ _, ¬ L)) m.
Proof.
  intros Hl. unfold sort_heap. eapply wp_bind, wp_len_v; [done|].
  eapply (wp_loop (λ e m, ∃ k post, slice_of (k ++ post) m ∧ k ++ post ≡ₚ l ∧ length k = e ∧
    (L ∧ is_heap lt l → is_heap lt k ∧ sorted lt post ∧ ∀ a b, a ∈ k → b ∈ post → le lt a b))
    (λ e, e)); [| |lia].
  2:{ exists l, []. rewrite app_nil_r. split_and!; [done..|]. intros [_ Hh].
      split_and!; [done|constructor|]. intros a b _ Hb. by apply elem_of_nil in Hb. }
  clear m Hl. intros e m (k&post&Hk&Hp&He&Hinv).
  destruct (Nat.ltb_spec 1 e); cbn [negb].
  - destruct (list_nonempty_inv k) as (x&k'&->); [lia|].
    destruct (list_snoc_inv k') as (pre&z&->); [intros ->; simpl in He; lia|].
    assert (e - 1 = S (length pre)) as -> by len.
    eapply wp_mono; [apply (sort_heap_turn (L ∧ is_heap lt l) x pre z post l); [|done|done|exact Hinv]| |done].
    { by intros [? _]. }
    intros ? m2 [-> (k2&Hk2&Hp2&Hlen2&Hinv2)]. split; [by exists k2, (x :: post)|len].
  - apply wp_ret. exists (k ++ post). rewrite app_nil_r. split_and!; [done|done|].
    intros HL Hh. destruct (Hinv (conj HL Hh)) as (_&Hs&Hle).
    destruct k as [|x [|??]]; [done| |simpl in *; lia]. simpl. constructor; [done|].
    apply Forall_forall. intros b Hb. apply Hle; [by left|done].
Qed.
End sift.
