(* ===== verification/HeapOps.v ===== *)
(** What the operations of [BinaryHeap] do to the vector that holds the heap. *)

From S2P Require Import Prelude.
From S2P Require Import Order.
From S2P Require Import SortMem.
From S2P Require Import UpartSpec.
From S2P Require Import Layout.
From S2P Require Import RawVec.
From S2P Require Import Cells.
From S2P Require Vec.
From S2P Require Import VecSpec.
From S2P Require Import BinaryHeap.
From S2P Require Import HeapSpec.

Section ops.
Context {T : Type} `{!Ord T} (lt : T → T → bool) `{!StrictWeak lt}.
Context (el : Layout) (alloc_ok : Layout → bool) (drop_panics : nat → T → bool).
Hypothesis Hel : elem_ok el.
Implicit Types (s : Vec.vec T) (k l : list T) (x : T).
Let L : Prop := LawfulOrd T lt.

(** The vector holds a permutation [k] of [l] with [F k]; nothing was dropped. *)
Definition vec_perm l (F : list T → Prop) s0 s : Prop :=
  ∃ k, vec_is el k s ∧ k ≡ₚ l ∧ F k ∧ dropped s = dropped s0.

Lemma vec_perm_mono l l' (F F' : list T → Prop) s0 s0' s :
  vec_perm l F s0 s → l ≡ₚ l' → (∀ k, k ≡ₚ l → F k → F' k) → dropped s0' = dropped s0 →
  vec_perm l' F' s0' s.
Proof.
  intros (k&Hk&Hp&HF&Hd) Hl HF' Hd'. exists k. split_and!; [done|by rewrite Hp|by apply HF'|congruence].
Qed.

Lemma slice_get_of l s : vec_is el l s → slice_of l (slice_get s).
Proof.
  intros (_&Hr&spare&Hc). unfold slice_of, slice_get. cbn. rewrite Hr, Hc.
  by rewrite take_app_length' by (by rewrite length_fmap).
Qed.

Lemma slice_put_is l k s t : vec_is el l s → slice_of k t → k ≡ₚ l → vec_is el k (slice_put t s).
Proof.
  intros Hl Hk Hp. pose proof Hl as (Hs&Hr&spare&Hc). apply Permutation_length in Hp as Hlen.
  unfold slice_of in Hk.
  assert (drop (regs s) (cells s) = spare) as Hdrop.
  { rewrite Hr, Hc. by rewrite drop_app_length' by (by rewrite length_fmap). }
  apply (vec_is_intro el k spare s); [done|done| |cbn; by rewrite Hlen|].
  - unfold slice_put. cbn -[drop]. rewrite Hdrop, Hk, Hc. len.
  - unfold slice_put. cbn -[drop]. by rewrite Hdrop, Hk.
Qed.

(** A routine on the slice, run on the vector. *)
Lemma wp_on_slice {A} (p : prog (mem T) A) l (F G : list T → Prop) s :
  vec_is el l s →
  (∀ m, slice_of l m → wp p (λ _, fperm l [] F) (fperm l [] G) m) →
  wp (on_slice p) (λ _, vec_perm l F s) (vec_perm l G s) s.
Proof.
  intros Hl Hp. apply wp_zoom. eapply wp_mono; [by apply Hp, slice_get_of| |].
  - intros a t (k&Hk&Hpk&HF). rewrite app_nil_r in Hk. exists k.
    split_and!; [by eapply slice_put_is|done..].
  - intros t (k&Hk&Hpk&HG). rewrite app_nil_r in Hk. exists k.
    split_and!; [by eapply slice_put_is|done..].
Qed.

Lemma wp_is_empty l s (Q : bool → Vec.vec T → Prop) P :
  vec_is el l s → Q (length l =? 0) s → wp is_empty Q P s.
Proof. intros Hl HQ. unfold is_empty. apply wp_bind, wp_gets. by rewrite (vec_is_len el l s Hl). Qed.

Lemma peek_spec l s : vec_is el l s → wp peek (λ o s', o = l !! 0 ∧ s' = s) (λ _, False) s.
Proof.
  intros Hl. unfold peek. apply wp_bind, wp_gets. rewrite (vec_is_len el l s Hl).
  destruct l as [|x l]; [by apply wp_ret|]. simpl. apply wp_bind.
  eapply wp_rd_cell; [by apply (vec_is_cell el _ s 0 x Hl)|]. by apply wp_ret.
Qed.

Lemma heap_push_spec (X : Prop) l x s : (aborts alloc_ok drop_panics → X) → vec_is el l s →
  wpa X (push el alloc_ok drop_panics x)
    (λ _, vec_perm (x :: l) (λ k, L → is_heap lt l → is_heap lt k) s)
    (λ s', overflows el (Z.of_nat (length l)) 1 s ∧ vec_is el l s' ∧ dropped s' = x :: dropped s ∨
       vec_perm (x :: l) (λ _, ¬ L) s s') s.
Proof.
  intros HX Hl. unfold push. apply wpa_bind, wpa_wp, wp_gets. rewrite (vec_is_len el l s Hl).
  apply wpa_bind. eapply wpa_mono; [by apply (push_spec el alloc_ok drop_panics Hel X l x s)| |by left].
  intros [] s2 [Hl2 Hd2]. apply wpa_bind, wpa_wp.
  eapply wp_mono; [eapply (wp_on_slice _ (l ++ [x])); [exact Hl2|]| |].
  - intros m Hm. apply (sift_up_spec lt 0 (length l) (l ++ [x]) []); [by rewrite app_nil_r|len].
  - intros ? s3 Hs3. apply wpa_ret. eapply vec_perm_mono; [exact Hs3|solve_Permutation| |done].
    intros k _ Hk HL Hh. apply Hk; [done|done|by apply rising_snoc].
  - intros s3 Hs3. right. eapply vec_perm_mono; [exact Hs3|solve_Permutation|done|done].
Qed.

(** The root is exchanged with the last element, which is put aside. *)
Lemma heap_pop_spec (X : Prop) l s : (¬ L → drops_panic drop_panics → X) → vec_is el l s →
  wpa X (pop el drop_panics)
    (λ o s', o = l !! 0 ∧ match o with
      | None => l = [] ∧ s' = s
      | Some x => ∃ rest, x :: rest ≡ₚ l ∧ vec_perm rest (λ k, L → heap_from lt 1 l → is_heap lt k) s s'
      end)
    (λ s', ¬ L ∧ ∃ x k, l !! 0 = Some x ∧ vec_is el k s' ∧ x :: k ≡ₚ l ∧ dropped s' = x :: dropped s) s.
Proof.
  intros HX Hl. unfold pop. destruct (decide (l = [])) as [->|Hne].
  { apply wpa_bind. unfold wpa at 1. rewrite (pop_nil_spec el s Hl). by apply wpa_ret. }
  destruct (list_snoc_inv l Hne) as (l'&z&->).
  apply wpa_bind, wpa_wp. eapply wp_mono; [by apply (pop_spec el alloc_ok drop_panics Hel l' z s)| |done].
  intros o s2 (->&Hl2&Hd2). apply wpa_bind, wpa_wp. eapply wp_is_empty; [done|].
  destruct l' as [|x l']; simpl.
  { apply wpa_ret. split; [done|]. exists []. split; [done|]. exists []. split_and!; [done|done| |done].
    intros _ _. apply is_heap_nil. }
  apply wpa_bind, wpa_wp.
  assert (slice_of (x :: l') (slice_get s2)) as Hm by by apply slice_get_of.
  apply wp_zoom. eapply wp_index.
  { unfold slice_of in Hm. rewrite Hm. done. }
  set (s3 := slice_put (slice_get s2) s2).
  assert (vec_is el (x :: l') s3) as Hl3 by by eapply slice_put_is.
  assert (dropped s3 = dropped s) as Hd3 by done. clearbody s3.
  apply wpa_bind, wpa_wp, wp_zoom. eapply wp_wr_v; [by apply slice_get_of|simpl; lia|].
  intros m Hm4 _. simpl in Hm4. set (s4 := slice_put m s3).
  assert (vec_is el (z :: l') s4) as Hl4.
  { destruct Hl3 as (Hr3&Hreg3&spare3&Hc3). simpl in Hreg3, Hc3.
    apply (vec_is_intro el _ spare3 s3); [done|done| |done|].
    - unfold s4, slice_put. cbn -[drop]. unfold slice_of in Hm4. rewrite Hm4, Hreg3, Hc3. len.
    - unfold s4, slice_put. cbn -[drop]. unfold slice_of in Hm4. rewrite Hm4, Hreg3, Hc3. simpl.
      by rewrite drop_app_length' by (by rewrite length_fmap). }
  assert (dropped s4 = dropped s) as Hd4 by done. clearbody s4.
  apply wpa_bind, wpa_on_panic, wpa_wp.
  assert (x :: (z :: l') ≡ₚ x :: l' ++ [z]) as Hp by solve_Permutation.
  eapply wp_mono; [eapply (wp_on_slice _ (z :: l')); [exact Hl4|]| |].
  - intros m5 Hm5. apply (sift_down_to_bottom_spec lt 0 (z :: l')); [done|simpl; lia].
  - intros ? s5 Hs5. apply wpa_ret. split; [done|]. exists (z :: l'). split; [done|].
    eapply vec_perm_mono; [exact Hs5|done| |done].
    intros k _ Hk HL Hh. apply Hk; [done|done|]. intros i Hi c u v Hc Hu Hv.
    apply (Hh i Hi c); [done|..].
    + destruct i; [lia|]. simpl in *. by apply lookup_app_l_Some.
    + unfold child_of in Hc. destruct c; [lia|]. simpl in *. by apply lookup_app_l_Some.
  - intros s5 (k&Hk&Hpk&HnL&Hd5). apply wpa_wp, wp_drop_value.
    + split; [done|]. exists x, k. split_and!; [done|..].
      * destruct Hk as (Hr5&Hreg5&spare5&Hc5). by apply (vec_is_intro el k spare5 s5).
      * by rewrite Hpk.
      * cbn. by rewrite Hd5, Hd4.
    + intros Hdp. apply HX; [done|by do 2 eexists].
Qed.

Lemma from_vec_spec l s : vec_is el l s →
  wp from_vec (λ _, vec_perm l (λ k, L → is_heap lt k) s) (vec_perm l (λ _, ¬ L) s) s.
Proof. intros Hl. by apply wp_on_slice; [|apply rebuild_spec]. Qed.

Lemma into_sorted_vec_spec (X : Prop) l s : (¬ L → drops_panic drop_panics → X) → vec_is el l s →
  wpa X (into_sorted_vec el drop_panics)
    (λ _, vec_perm l (λ k, L → is_heap lt l → sorted lt k) s)
    (λ s', ¬ L ∧ block s' = None ∧ ∃ k, k ≡ₚ l ∧ dropped s' = k ++ dropped s) s.
Proof.
  intros HX Hl. unfold into_sorted_vec. apply wpa_on_panic, wpa_wp.
  eapply wp_mono; [eapply (wp_on_slice _ l _ _ s Hl), (sort_heap_spec lt)|done|].
  intros s2 (k&Hk&Hp&HnL&Hd).
  assert (∀ s', block s' = None ∧ dropped s' = reverse k ++ dropped s2 →
    ¬ L ∧ block s' = None ∧ ∃ k, k ≡ₚ l ∧ dropped s' = k ++ dropped s) as Hdrop.
  { intros s' [Hb Hd']. split_and!; [done|done|]. exists (reverse k).
    split; [by rewrite reverse_Permutation|congruence]. }
  eapply wpa_mono; [apply (drop_vec_spec el alloc_ok drop_panics Hel X k)| |]; [by apply HX|done| |].
  - intros []. apply Hdrop.
  - intros s' [? _]. by apply HX.
Qed.

(** The elements of [self], then those of [other], whichever vector is kept. *)
Lemma append_heap_spec (X : Prop) l1 l2 s o : (out_of_memory alloc_ok → X) →
  vec_is el l1 s → vec_is el l2 o →
  wpa X (append el alloc_ok)
    (λ _ '(s', o'), ∃ k, vec_is el k s' ∧ vec_is el [] o' ∧ k ≡ₚ l1 ++ l2 ∧
       (L → is_heap lt l1 → is_heap lt l2 → is_heap lt k) ∧
       dropped s' = dropped s ∧ dropped o' = dropped o)
    (λ '(s', o'), ∃ k1 k2, vec_is el k1 s' ∧ vec_is el k2 o' ∧ k1 ++ k2 ≡ₚ l1 ++ l2 ∧
       dropped s' = dropped s ∧ dropped o' = dropped o ∧
       (L → k1 = l1 ∧ k2 = l2 ∨ k1 = l2 ∧ k2 = l1)) (s, o).
Proof.
  intros HX Hl1 Hl2. unfold append. apply wpa_bind. unfold wpa at 1, Vec.on_self, zoom. cbn -[Nat.ltb].
  apply wpa_bind. unfold wpa at 1, Vec.on_other, zoom. cbn -[Nat.ltb].
  rewrite (vec_is_len el l1 s Hl1), (vec_is_len el l2 o Hl2).
  apply wpa_bind.
  set (Qs := λ (_ : ()) p, ∃ k1 k2 s1 o1, p = (s1, o1) ∧ vec_is el k1 s1 ∧ vec_is el k2 o1 ∧
    (k1 = l1 ∧ k2 = l2 ∨ k1 = l2 ∧ k2 = l1) ∧ dropped s1 = dropped s ∧ dropped o1 = dropped o).
  eapply wpa_mono with (Q := Qs) (P := λ _, False); [| |done].
  { destruct (length l1 <? length l2); [unfold Vec.swap_vecs; apply wpa_wp, wp_modify|apply wpa_ret].
    - exists l2, l1. do 2 eexists. split; [done|]. split_and!; [..|by right|done|done].
      + destruct Hl2 as (?&?&spare&?). by apply (vec_is_intro el _ spare o).
      + destruct Hl1 as (?&?&spare&?). by apply (vec_is_intro el _ spare s).
    - exists l1, l2, s, o. split_and!; [done..|by left|done|done]. }
  intros [] ? (k1&k2&s1&o1&->&Hk1&Hk2&Hor&Hds&Hdo).
  assert (k1 ++ k2 ≡ₚ l1 ++ l2) as Hp.
  { destruct Hor as [[-> ->]|[-> ->]]; [done|]. by rewrite Permutation_app_comm. }
  apply wpa_bind. unfold wpa at 1. cbn. rewrite (vec_is_len el k1 s1 Hk1).
  apply wpa_bind. eapply wpa_mono; [by apply (VecSpec.append_spec el alloc_ok drop_panics Hel X k1 k2)| |].
  2:{ intros ? [-> _]. by exists k1, k2. }
  intros [] [s2 o2] (Hs2&Ho2&Hds2&Hdo2). apply wpa_wp, wp_zoom. cbn.
  eapply wp_mono; [eapply (wp_on_slice _ (k1 ++ k2) _ _ s2 Hs2)| |].
  - intros m Hm. apply (rebuild_tail_spec lt (length k1) (k1 ++ k2)); [done|len].
  - intros ? s3 (k&Hk&Hpk&Hh&Hd3). exists k. split_and!; [done|done|by rewrite Hpk| |congruence|congruence].
    intros HL H1 H2. apply Hh; [done|]. rewrite take_app_length.
    by destruct Hor as [[-> ->]|[-> ->]].
  - intros s3 (k&Hk&Hpk&HnL&Hd3). exists k, []. rewrite app_nil_r.
    split_and!; [done|done|by rewrite Hpk|congruence|congruence|done].
Qed.

(** ** [PeekMut] *)
(** The state of the guard [p] on a heap of the elements [x :: rest] whose root is
    now [x]: when a reference has been handed out, the vector says that only the
    root is left. *)
Definition peeking (p : PeekMut) x rest s : Prop :=
  vec_is el (x :: rest) (set_regs (S (length rest)) s) ∧
  match original_len p with
  | Some n => n = S (length rest) ∧ regs s = 1
  | None => regs s = S (length rest)
  end.

Lemma peeking_root p x rest s : peeking p x rest s → ∃ rest', vec_is el (x :: rest') s.
Proof.
  intros [Hv Hp]. destruct (original_len p).
  - exists []. destruct Hp as [_ Hr]. by apply (vec_is_shorter el [x] rest _ _ Hv).
  - exists rest. destruct Hv as (Hs&_&spare&Hc). by apply (vec_is_intro el _ spare s).
Qed.

Lemma peek_mut_spec l s : vec_is el l s →
  wp peek_mut (λ o s', s' = s ∧ match l, o with
     | [], None => True
     | x :: rest, Some p => original_len p = None ∧ peeking p x rest s
     | _, _ => False
     end) (λ _, False) s.
Proof.
  intros Hl. unfold peek_mut. apply wp_bind. eapply wp_is_empty; [done|]. apply wp_ret.
  destruct l as [|x rest]; simpl; [done|]. split; [done|]. split; [done|]. split; [|by apply (vec_is_len el (x :: rest))].
  destruct Hl as (Hs&Hr&spare&Hc). by apply (vec_is_intro el _ spare s).
Qed.

Lemma wp_peeking_nonempty p x rest s (Q : bool → Vec.vec T → Prop) P :
  peeking p x rest s → Q false s → wp is_empty Q P s.
Proof.
  intros (rest'&Hl)%peeking_root HQ. by eapply wp_is_empty; [done|].
Qed.

Lemma deref_mut_spec p x rest s : peeking p x rest s →
  wp (PeekMut_deref_mut el p)
    (λ p' s', peeking p' x rest s' ∧ vec_is el [x] s' ∧ dropped s' = dropped s) (λ _, False) s.
Proof.
  intros Hp. unfold PeekMut_deref_mut. apply wp_bind. eapply wp_peeking_nonempty; [done|].
  apply wp_bind, wp_assert; [done|]. apply wp_bind, wp_gets.
  destruct (peeking_root _ _ _ _ Hp) as (rest'&Hl). pose proof (vec_is_len el _ _ Hl) as Hr.
  simpl in Hr. apply wp_bind.
  eapply wp_mono with (P := λ _, False) (Q := λ p' s', peeking p' x rest s' ∧ regs s' = 1 ∧ dropped s' = dropped s);
    [| |done].
  { destruct (Nat.ltb_spec 1 (regs s)).
    - apply wp_bind, (wp_set_len el alloc_ok drop_panics Hel); [apply Hl| |].
      + destruct Hl as (_&_&spare&->). simpl. lia.
      + apply wp_ret. split_and!; [|done|done]. destruct Hp as [Hv Hp].
        split; [done|]. simpl. split; [|done].
        destruct (original_len p); [|done]. destruct Hp. lia.
    - apply wp_ret. split_and!; [done|lia|done]. }
  intros p' s' (Hp'&Hr'&Hd'). apply wp_bind, wp_gets. rewrite Hr'. apply wp_bind, wp_assume; [done|].
  apply wp_ret. split_and!; [done| |done]. destruct Hp' as [Hv _].
  by apply (vec_is_shorter el [x] rest _ _ Hv).
Qed.

Lemma peek_write_spec p x y rest s : peeking p x rest s →
  wp (PeekMut_write y) (λ _ s', peeking p y rest s' ∧ regs s' = regs s ∧ dropped s' = dropped s) (λ _, False) s.
Proof.
  intros [Hv Hp]. pose proof Hv as (Hs&_&spare&Hc). simpl in Hc.
  apply wp_wr_cell; [rewrite Hc; simpl; lia|]. split; [|done].
  split; [|by destruct (original_len p)].
  apply (vec_is_intro el _ spare (set_regs (S (length rest)) s)); [done|done|cbn; by rewrite length_insert|done|].
  cbn. by rewrite Hc.
Qed.

(** Only the root may be out of order. *)
Lemma restore_spec x y rest s : vec_is el (y :: rest) s →
  wp (on_slice (sift_down 0))
    (λ _, vec_perm (y :: rest) (λ k, L → is_heap lt (x :: rest) → is_heap lt k) s)
    (vec_perm (y :: rest) (λ _, ¬ L) s) s.
Proof.
  intros Hl. eapply wp_mono; [eapply (wp_on_slice _ _ _ _ s Hl)| |done].
  - intros m Hm. apply (sift_down_spec lt 0 (y :: rest)); [done|simpl; lia].
  - intros ? s2 Hs2. eapply vec_perm_mono; [exact Hs2|done| |done].
    intros k _ Hk HL Hh. apply (Hk HL). intros i Hi c u v Hc Hu Hv. apply (Hh i ltac:(lia) c); [done|..].
    + by destruct i; [lia|].
    + unfold child_of in Hc. by destruct c; [lia|].
Qed.

Lemma wp_unleak p x rest s n (Q : () → Vec.vec T → Prop) P :
  peeking p x rest s → original_len p = Some n →
  (∀ s', vec_is el (x :: rest) s' → dropped s' = dropped s → Q () s') → wp (Vec.set_len el n) Q P s.
Proof.
  intros [Hv Hp] Hn HQ. rewrite Hn in Hp. destruct Hp as [-> _].
  apply (wp_set_len el alloc_ok drop_panics Hel).
  - by apply (raw_ok_cells el (set_regs (S (length rest)) s)); [apply Hv|..].
  - destruct Hv as (_&_&spare&Hc). cbn in Hc. rewrite Hc. len.
  - by apply HQ.
Qed.

(** No reference has been handed out, or the root is the only element. *)
Lemma peeking_kept p x y rest s : peeking p y rest s → original_len p = None →
  (original_len p = None → y = x ∨ rest = []) →
  vec_perm (y :: rest) (λ k, L → is_heap lt (x :: rest) → is_heap lt k) s s.
Proof.
  intros [Hv Hp] Hn Hx. rewrite Hn in Hp. exists (y :: rest). split_and!; [|done| |done].
  - destruct Hv as (Hs&_&spare&Hc). by apply (vec_is_intro el _ spare s).
  - intros _ Hh. destruct (Hx Hn) as [->| ->]; [done|]. apply heap_from_half. simpl. lia.
Qed.

Lemma PeekMut_drop_spec p x y rest s : peeking p y rest s → (original_len p = None → y = x ∨ rest = []) →
  wp (PeekMut_drop el p)
    (λ _, vec_perm (y :: rest) (λ k, L → is_heap lt (x :: rest) → is_heap lt k) s)
    (vec_perm (y :: rest) (λ _, ¬ L) s) s.
Proof.
  intros Hp Hx. unfold PeekMut_drop. destruct (original_len p) as [n|] eqn:Hn.
  - apply wp_bind. eapply wp_unleak; [done|done|]. intros s2 Hl2 Hd2.
    apply wp_bind. eapply wp_mono; [by apply (restore_spec x)| |].
    + intros ? s3 Hs3. apply wp_ret. eapply vec_perm_mono; [exact Hs3|done|done|congruence].
    + intros s3 Hs3. eapply vec_perm_mono; [exact Hs3|done|done|congruence].
  - apply wp_ret. apply peeking_kept with p; [done..|by rewrite Hn].
Qed.

Lemma PeekMut_refresh_spec p x y rest s : peeking p y rest s → (original_len p = None → y = x ∨ rest = []) →
  wp (PeekMut_refresh el p)
    (λ r s', original_len r.1 = None ∧
       vec_perm (y :: rest) (λ k, L → is_heap lt (x :: rest) → is_heap lt k) s s')
    (vec_perm (y :: rest) (λ _, ¬ L) s) s.
Proof.
  intros Hp Hx. unfold PeekMut_refresh. destruct (original_len p) as [n|] eqn:Hn.
  - apply wp_bind. eapply wp_unleak; [done|done|]. intros s2 Hl2 Hd2.
    apply wp_bind. eapply wp_mono; [by apply (restore_spec x)| |].
    + intros ? s3 Hs3. apply wp_ret. split; [done|].
      eapply vec_perm_mono; [exact Hs3|done|done|congruence].
    + intros s3 Hs3. eapply vec_perm_mono; [exact Hs3|done|done|congruence].
  - apply wp_ret. split; [done|]. apply peeking_kept with p; [done..|by rewrite Hn].
Qed.

(** [PeekMut::pop] does not care what the root is now. *)
Lemma PeekMut_pop_spec (X : Prop) p x y rest s : (¬ L → drops_panic drop_panics → X) →
  peeking p y rest s →
  wpa X (PeekMut_pop el drop_panics p)
    (λ r s', r = y ∧ vec_perm rest (λ k, L → is_heap lt (x :: rest) → is_heap lt k) s s')
    (λ s', ¬ L ∧ ∃ k, vec_is el k s' ∧ k ≡ₚ rest ∧ dropped s' = y :: dropped s) s.
Proof.
  intros HX Hp. unfold PeekMut_pop. apply wpa_bind, wpa_wp.
  eapply wp_mono with (P := λ _, False) (Q := λ _ s', vec_is el (y :: rest) s' ∧ dropped s' = dropped s);
    [| |done].
  { destruct (original_len p) as [n|] eqn:Hn.
    - by eapply wp_unleak; [done|done|].
    - apply wp_ret. split; [|done]. destruct Hp as [Hv Hp]. rewrite Hn in Hp.
      destruct Hv as (Hs&_&spare&Hc). by apply (vec_is_intro el _ spare s). }
  intros ? s2 [Hl2 Hd2]. apply wpa_bind. eapply wpa_mono; [by apply heap_pop_spec| |].
  - intros o s3 [-> Ho]. simpl in *. apply wpa_ret. split; [done|]. destruct Ho as (rest'&Hp'&Hv).
    apply Permutation_cons_inv in Hp'. eapply vec_perm_mono; [exact Hv|done| |done].
    intros k _ Hk HL Hh. apply (Hk HL). intros i Hi c u v Hc Hu Hv'. apply (Hh i ltac:(lia) c); [done|..].
    + by destruct i; [lia|].
    + unfold child_of in Hc. by destruct c; [lia|].
  - intros s3 (HnL&z&k&Hz&Hk&Hpk&Hd3). injection Hz as <-. apply Permutation_cons_inv in Hpk.
    split; [done|]. exists k. split_and!; [done|done|congruence].
Qed.
End ops.
