(* ===== verification/HeapTheorems.v ===== *)
(** What [BinaryHeap] promises: a priority queue. *)

From S2P Require Import Prelude.
From S2P Require Import Order.
From S2P Require Import SortMem.
From S2P Require Import SortTheorems.
From S2P Require Import Layout.
From S2P Require Import RawVec.
From S2P Require Import Cells.
From S2P Require Vec.
From S2P Require Import VecSpec.
From S2P Require Import VecTheorems.
From S2P Require Import BinaryHeap.
From S2P Require Import HeapSpec.
From S2P Require Import HeapOps.

(** ** The abstract priority queue *)
Section queue.
Context {T : Type} (lt : T → T → bool).

(** [Update f] is [peek_mut], a change of the root, and the end of the borrow;
    [UpdatePop f] ends it with [PeekMut::pop]. *)
Inductive op :=
  | Push (x : T) | Pop | Peek | Update (f : T → T) | UpdatePop (f : T → T).

Definition maximum (x : T) (M : list T) : Prop := ∀ y, y ∈ M → le lt y x.

(** One operation on the bag [M] of elements, its answer and the bag after it. *)
Inductive queue_step (M : list T) : op → option T → list T → Prop :=
  | queue_push x : queue_step M (Push x) None (x :: M)
  | queue_pop_empty : M = [] → queue_step M Pop None M
  | queue_pop x M' : x :: M' ≡ₚ M → maximum x M → queue_step M Pop (Some x) M'
  | queue_peek_empty : M = [] → queue_step M Peek None M
  | queue_peek x : x ∈ M → maximum x M → queue_step M Peek (Some x) M
  | queue_update_empty f : M = [] → queue_step M (Update f) None M
  | queue_update f x M' : x :: M' ≡ₚ M → maximum x M → queue_step M (Update f) (Some x) (f x :: M')
  | queue_update_pop_empty f : M = [] → queue_step M (UpdatePop f) None M
  | queue_update_pop f x M' : x :: M' ≡ₚ M → maximum x M → queue_step M (UpdatePop f) (Some (f x)) M'.

Inductive queue_run : list T → list op → list (option T) → list T → Prop :=
  | queue_done M : queue_run M [] [] M
  | queue_next M o r M1 ops rs M2 :
      queue_step M o r M1 → queue_run M1 ops rs M2 → queue_run M (o :: ops) (r :: rs) M2.
End queue.
Arguments op T : clear implicits.

(** ** A client of the heap *)
Section client.
Context {T : Type} `{!Ord T} (el : Layout) (alloc_ok : Layout → bool) (drop_panics : nat → T → bool).

(** The borrow of [peek_mut]: the client reads the root and changes it. *)
Definition with_peek (f : T → T) (finish : PeekMut → T → prog (Vec.vec T) T)
  : prog (Vec.vec T) (option T) :=
  o ← peek_mut;
  match o with
  | None => mret None
  | Some p =>
      x ← PeekMut_deref p;
      p ← PeekMut_deref_mut el p;
      _ ← PeekMut_write (f x);
      r ← finish p x;
      mret (Some r)
  end.

Definition run_op (o : op T) : prog (Vec.vec T) (option T) :=
  match o with
  | Push x => _ ← push el alloc_ok drop_panics x; mret None
  | Pop => pop el drop_panics
  | Peek => peek
  | Update f => with_peek f (λ p x, _ ← PeekMut_drop el p; mret x)
  | UpdatePop f => with_peek f (λ p _, PeekMut_pop el drop_panics p)
  end.

Fixpoint run (ops : list (op T)) : prog (Vec.vec T) (list (option T)) :=
  match ops with
  | [] => mret []
  | o :: ops => r ← run_op o; rs ← run ops; mret (r :: rs)
  end.
End client.

Section refine.
Context {T : Type} `{!Ord T} (lt : T → T → bool) `{!StrictWeak lt}.
Context (el : Layout) (alloc_ok : Layout → bool) (drop_panics : nat → T → bool).
Hypothesis Hel : elem_ok el.
Implicit Types (s : Vec.vec T) (k l M : list T) (x : T).
Let L : Prop := LawfulOrd T lt.

(** The vector is a heap of the bag [M]. *)
Definition heap_is M s : Prop := ∃ l, vec_is el l s ∧ is_heap lt l ∧ l ≡ₚ M.

Lemma heap_root l x M : is_heap lt l → l !! 0 = Some x → l ≡ₚ M → maximum lt x M.
Proof. intros Hh Hx Hp y Hy. rewrite <- Hp in Hy. by eapply is_heap_max_elem. Qed.

Lemma vec_perm_heap l M (F : list T → Prop) s0 s :
  vec_perm el l F s0 s → (∀ k, F k → is_heap lt k) → l ≡ₚ M → heap_is M s.
Proof. intros (k&Hk&Hp&HF&_) Hh HM. exists k. split_and!; [done|auto|by rewrite Hp]. Qed.

Lemma peek_deref_spec p x rest s (Q : T → Vec.vec T → Prop) P :
  peeking el p x rest s → Q x s → wp (PeekMut_deref p) Q P s.
Proof.
  intros Hp HQ. destruct (peeking_root _ _ _ _ _ Hp) as (rest'&Hl).
  unfold PeekMut_deref. apply wp_bind. eapply wp_is_empty; [done|]. apply wp_bind, wp_assert; [done|].
  apply wp_bind, wp_gets. rewrite (vec_is_len el _ _ Hl). apply wp_bind, wp_assume; [done|].
  eapply wp_rd_cell; [by apply (vec_is_cell el _ s 0 x Hl)|done].
Qed.

(** A borrow that hands out a reference and changes the root. *)
Lemma with_peek_spec (X : Prop) f finish l s (Q : option T → Vec.vec T → Prop) P :
  vec_is el l s → (l = [] → Q None s) →
  (∀ x rest p s', l = x :: rest → peeking el p (f x) rest s' → (original_len p = None → rest = []) →
     wpa X (finish p x) (λ r, Q (Some r)) P s') →
  wpa X (with_peek el f finish) Q P s.
Proof.
  intros Hl H0 HQ. unfold with_peek. apply wpa_bind, wpa_wp.
  eapply wp_mono; [by apply peek_mut_spec| |done]. intros o s1 [-> Ho].
  destruct l as [|x rest], o as [p|]; try done; [by apply wpa_ret, H0|]. destruct Ho as [Hn Hp].
  apply wpa_bind, wpa_wp. eapply peek_deref_spec; [done|].
  apply wpa_bind, wpa_wp. eapply wp_mono; [by apply (deref_mut_spec el alloc_ok drop_panics Hel)| |done].
  intros p' s2 (Hp2&Hl2&Hd2). apply wpa_bind, wpa_wp.
  eapply wp_mono; [by apply (peek_write_spec el alloc_ok drop_panics p' x)| |done]. intros [] s3 (Hp3&_&Hd3).
  apply wpa_bind. eapply wpa_mono; [apply (HQ x rest p'); [done|done|]| |done].
  { intros Hn'. destruct Hp2 as [_ Hr]. rewrite Hn' in Hr.
    pose proof (vec_is_len el _ _ Hl2) as Hr2. rewrite Hr in Hr2. by destruct rest. }
  intros r s4 Hr. by apply wpa_ret.
Qed.

(** One operation on a heap whose elements have a lawful order. *)
Lemma run_op_spec o M s : L → heap_is M s →
  wpa (aborts alloc_ok drop_panics) (run_op el alloc_ok drop_panics o)
    (λ r s', ∃ M', queue_step lt M o r M' ∧ heap_is M' s')
    (λ s', (∃ x, o = Push x) ∧ heap_is M s' ∧ overflows el (Z.of_nat (length M)) 1 s) s.
Proof.
  intros HL (l&Hl&Hh&Hp). pose proof (Permutation_length Hp) as Hlen.
  assert (∀ x l', l = x :: l' → maximum lt x M) as Hmax.
  { intros x l' ->. by eapply heap_root. }
  assert (l = [] → M = []) as Hnil by (intros ->; by apply Permutation_nil).
  destruct o as [x| | |f|f]; simpl.
  - apply wpa_bind. eapply wpa_mono.
    + by apply (heap_push_spec lt el alloc_ok drop_panics Hel _ l x).
    + intros [] s2 Hs2. apply wpa_ret. exists (x :: M). split; [constructor|].
      eapply vec_perm_heap; [exact Hs2|auto|by rewrite Hp].
    + intros s2 [(Hov&Hl2&_)|(k&_&_&HnL&_)]; [|done].
      split; [by exists x|]. split; [by exists l|by rewrite <- Hlen].
  - eapply wpa_mono.
    + apply (heap_pop_spec lt el alloc_ok drop_panics Hel _ l); [by intros []|done].
    + intros o s2 [-> Ho]. destruct l as [|x l']; simpl in *.
      * destruct Ho as [_ ->]. rewrite Hnil by done. exists []. split; [by constructor|].
        exists []. by split_and!.
      * destruct Ho as (rest&Hr&Hv). exists rest. split.
        -- apply queue_pop; [by rewrite Hr|by eapply Hmax].
        -- eapply vec_perm_heap; [exact Hv|intros k Hk; apply (Hk HL)|done]. intros i Hi. apply Hh. lia.
    + intros s2 [HnL _]. done.
  - eapply wpa_mono with (P := λ _, False); [by apply wpa_wp, (peek_spec el l)| |done].
    intros r s2 [-> ->]. exists M. destruct l as [|x l']; simpl.
    + split; [constructor; by apply Hnil|]. by exists [].
    + split; [|by exists (x :: l')]. apply queue_peek; [rewrite <- Hp; by left|by eapply Hmax].
  - eapply with_peek_spec; [done| |].
    + intros Hn. exists M. split; [constructor; by apply Hnil|]. by exists l.
    + intros x rest p s2 -> Hp2 Hn. apply wpa_bind, wpa_wp. eapply wp_mono.
      * apply (PeekMut_drop_spec lt el alloc_ok drop_panics Hel p x (f x) rest); [done|]. intros ?. right. auto.
      * intros [] s3 Hs3. apply wpa_ret. exists (f x :: rest). split.
        -- apply queue_update; [done|by eapply Hmax].
        -- eapply vec_perm_heap; [exact Hs3|auto|done].
      * intros s3 (k&_&_&HnL&_). done.
  - eapply with_peek_spec; [done| |].
    + intros Hn. exists M. split; [constructor; by apply Hnil|]. by exists l.
    + intros x rest p s2 -> Hp2 Hn. eapply wpa_mono.
      * apply (PeekMut_pop_spec lt el alloc_ok drop_panics Hel _ p x (f x) rest); [by intros []|done].
      * intros r s3 [-> Hv]. exists rest. split.
        -- apply queue_update_pop; [done|by eapply Hmax].
        -- eapply vec_perm_heap; [exact Hv|auto|done].
      * intros s3 [HnL _]. done.
Qed.

Lemma run_spec ops M s : L → heap_is M s →
  wpa (aborts alloc_ok drop_panics) (run el alloc_ok drop_panics ops)
    (λ rs s', ∃ M', queue_run lt M ops rs M' ∧ heap_is M' s')
    (λ s', ∃ n x rs M' s1, ops !! n = Some (Push x) ∧ queue_run lt M (take n ops) rs M' ∧
       heap_is M' s' ∧ heap_is M' s1 ∧ overflows el (Z.of_nat (length M')) 1 s1) s.
Proof.
  intros HL. revert M s. induction ops as [|o ops IH]; intros M s Hs; simpl.
  { apply wpa_ret. exists M. split; [constructor|done]. }
  apply wpa_bind. eapply wpa_mono; [by apply run_op_spec| |].
  - intros r s2 (M2&Hstep&Hs2). apply wpa_bind. eapply wpa_mono; [by apply IH| |].
    + intros rs s3 (M3&Hrun&Hs3). apply wpa_ret. exists M3. split; [by econstructor|done].
    + intros s3 (n&x&rs&M3&s4&Hn&Hrun&?). exists (S n), x, (r :: rs), M3, s4.
      split; [done|]. split; [by econstructor|done].
  - intros s2 ([x ->]&Hs2&Hov). exists 0, x, [], M, s. split_and!; [done|constructor|done..].
Qed.
End refine.

(** ** Concrete heaps *)
#[export] Instance nat_ord : Ord nat := {|
  ord_le := λ _ a b, Some (a <=? b);
  ord_ge := λ _ a b, Some (b <=? a);
  ord_lt := λ _ a b, Some (a <? b);
|}.

#[export] Instance nat_ord_lawful : LawfulOrd nat Nat.ltb.
Proof.
  split; intros n a b; simpl; try done; f_equal.
  - destruct (Nat.leb_spec a b), (Nat.ltb_spec b a); simpl; lia || done.
  - destruct (Nat.leb_spec b a), (Nat.ltb_spec a b); simpl; lia || done.
Qed.

(** A client that only moves elements in and out. *)
Definition moves {T} (o : option T) : op T := match o with Some x => Push x | None => Pop end.
Definition values {T} (os : list (option T)) : list T := omap id os.

(** What is left when one of them unwinds, of a heap that held [l]: [push] has put
    the element in the heap or dropped it, [pop] has dropped the one at the root. *)
Definition unwound {T} (el : Layout) (o : option T) (l : list T) (s s' : Vec.vec T) : Prop :=
  ∃ k, vec_is el k s' ∧
  match o with
  | Some x => dropped s' = dropped s ∧ k ≡ₚ x :: l ∨ dropped s' = x :: dropped s ∧ k ≡ₚ l
  | None => ∃ x, l !! 0 = Some x ∧ dropped s' = x :: dropped s ∧ x :: k ≡ₚ l
  end.

Lemma run_move_spec {T} `{!Ord T} (el : Layout) (alloc_ok : Layout → bool)
    (drop_panics : nat → T → bool) o l s :
  elem_ok el → vec_is el l s →
  wpa (aborts alloc_ok drop_panics) (run_op el alloc_ok drop_panics (moves o))
    (λ r s', ∃ k, vec_is el k s' ∧ dropped s' = dropped s ∧ k ++ values [r] ≡ₚ values [o] ++ l)
    (unwound el o l s) s.
Proof.
  intros Hel Hl. set (lt := λ _ _ : T, false). assert (StrictWeak lt) as Hlt by apply trivial_order.
  destruct o as [x|]; simpl.
  - apply wpa_bind. eapply wpa_mono; [by apply (heap_push_spec lt el alloc_ok drop_panics Hel _ l x)| |].
    + intros [] s2 (k&Hk&Hpk&_&Hd). apply wpa_ret. exists k. rewrite app_nil_r. by split_and!.
    + intros s2 [(_&Hl2&Hd)|(k&Hk&Hpk&_&Hd)]; [exists l|exists k]; (split; [done|]); [by right|by left].
  - eapply wpa_mono.
    + apply (heap_pop_spec lt el alloc_ok drop_panics Hel _ l); [intros _ ?; by right|done].
    + intros r s2 [-> Hr]. destruct l as [|x l']; simpl in *.
      * destruct Hr as [_ ->]. by exists [].
      * destruct Hr as (rest&Hr&k&Hk&Hpk&_&Hd). exists k. split_and!; [done..|].
        by rewrite <- Hr, <- Hpk, (Permutation_app_comm k [x]).
    + intros s2 [_ (x&k&Hx&Hk&Hpk&Hd)]. exists k. split; [done|]. by exists x.
Qed.

Lemma values_cons {T} (o : option T) os : values (o :: os) = values [o] ++ values os.
Proof. by destruct o. Qed.

Lemma run_moves_spec {T} `{!Ord T} (el : Layout) (alloc_ok : Layout → bool)
    (drop_panics : nat → T → bool) os l s :
  elem_ok el → vec_is el l s →
  wpa (aborts alloc_ok drop_panics) (run el alloc_ok drop_panics (moves <$> os))
    (λ rs s', ∃ k, vec_is el k s' ∧ dropped s' = dropped s ∧ k ++ values rs ≡ₚ values os ++ l)
    (λ s', ∃ n o rs k s1, os !! n = Some o ∧
       run el alloc_ok drop_panics (moves <$> take n os) s = Ret rs s1 ∧
       vec_is el k s1 ∧ dropped s1 = dropped s ∧ k ++ values rs ≡ₚ values (take n os) ++ l ∧
       run_op el alloc_ok drop_panics (moves o) s1 = Panic s' ∧ unwound el o k s1 s') s.
Proof.
  intros Hel. revert l s. induction os as [|o os IH]; intros l s Hl; cbn [fmap list_fmap run].
  { apply wpa_ret. exists l. by rewrite app_nil_r. }
  pose proof (run_move_spec el alloc_ok drop_panics o l s Hel Hl) as Ho. unfold wpa, mbind, prog_bind in *.
  destruct (run_op el alloc_ok drop_panics (moves o) s) as [r s2|s2|f] eqn:Eo; [|exists 0, o, [], l, s; cbn; rewrite app_nil_r; by split_and!|done].
  destruct Ho as (k&Hk&Hd&Hp). specialize (IH k s2 Hk).
  assert (Hgo : ∀ (rs : list (option T)) os0 k3, k3 ++ values rs ≡ₚ values os0 ++ k → k3 ++ values (r :: rs) ≡ₚ values (o :: os0) ++ l).
  { intros rs os0 k3 Hp3. rewrite (values_cons r), (values_cons o).
    rewrite (Permutation_app_comm (values [r])), app_assoc, Hp3, <- app_assoc, Hp, !app_assoc.
    by rewrite (Permutation_app_comm (values os0)). }
  destruct (run el alloc_ok drop_panics (moves <$> os) s2) as [rs s3|s3|f]; [| |done].
  - destruct IH as (k3&Hk3&Hd3&Hp3). exists k3. split_and!; [done|congruence|by apply Hgo].
  - destruct IH as (n&o'&rs&k3&s1&Hn&Hrun&Hk3&Hd3&Hp3&Hop&Hu). exists (S n), o', (r :: rs), k3, s1.
    split_and!; [done| |done|congruence|by apply Hgo|done|done].
    cbn [take fmap list_fmap run]. unfold mbind, prog_bind. by rewrite Eo, Hrun.
Qed.

(** ** Properties *)

(** C6: refinement of a priority queue.  For a lawful order, any sequence of
    [push], [pop], [peek], changes of the root through [peek_mut] and
    [PeekMut::pop] on a heap gives the answers of a bag that is asked for a
    maximum, and leaves a heap of the elements of the bag.  It stops early only in
    a [push] whose capacity overflows, with the queue as it was before; it aborts
    only if the allocator fails or a destructor panics while unwinding. *)
Theorem heap_refines_priority_queue {T} `{!Ord T} (lt : T → T → bool) `{!StrictWeak lt}
    (el : Layout) (alloc_ok : Layout → bool) (drop_panics : nat → T → bool)
    (ops : list (op T)) (M : list T) (s : Vec.vec T) :
  LawfulOrd T lt → elem_ok el → heap_is lt el M s →
  match run el alloc_ok drop_panics ops s with
  | Ret rs s' => ∃ M', queue_run lt M ops rs M' ∧ heap_is lt el M' s'
  | Panic s' => ∃ n x rs M' s1, ops !! n = Some (Push x) ∧ queue_run lt M (take n ops) rs M' ∧
      heap_is lt el M' s' ∧ heap_is lt el M' s1 ∧ overflows el (Z.of_nat (length M')) 1 s1
  | Fault f => f = Aborted ∧ aborts alloc_ok drop_panics
  end.
Proof.
  intros HL Hel Hs. pose proof (run_spec lt el alloc_ok drop_panics Hel ops M s HL Hs) as H.
  unfold wpa in H. by destruct (run _ _ _ _ _) as [| |[]].
Qed.

Lemma sample_heap (l : list nat) : length l ≤ 4 → is_heap Nat.ltb l →
  heap_is Nat.ltb u64_layout l (sample_vec l).
Proof. intros Hl Hh. exists l. split_and!; [by apply sample_vec_is|done|done]. Qed.

Definition sample_ops : list (op nat) := [Push 8; Peek; Update (λ _, 1); Pop; UpdatePop S; Pop].

Lemma heap_refines_priority_queue_witness :
  match run u64_layout (λ _, true) (λ _ _, false) sample_ops (sample_vec [5; 3]) with
  | Ret rs s' => ∃ M', queue_run Nat.ltb [5; 3] sample_ops rs M' ∧ heap_is Nat.ltb u64_layout M' s'
  | Panic s' => ∃ n x rs M' s1, sample_ops !! n = Some (Push x) ∧
      queue_run Nat.ltb [5; 3] (take n sample_ops) rs M' ∧ heap_is Nat.ltb u64_layout M' s' ∧
      heap_is Nat.ltb u64_layout M' s1 ∧ overflows u64_layout (Z.of_nat (length M')) 1 s1
  | Fault f => f = Aborted ∧ aborts (λ _, true) (λ (_ : nat) (_ : nat), false)
  end.
Proof.
  apply (heap_refines_priority_queue Nat.ltb u64_layout (λ _, true) (λ _ _, false) sample_ops [5; 3]);
    [apply nat_ord_lawful|apply u64_elem_ok|]. apply sample_heap; [simpl; lia|].
  intros i _ [|[|c]] x y Hc Hx Hy; unfold child_of in Hc; [lia| |by destruct c].
  assert (i = 0) as -> by lia. by simplify_eq/=.
Defined.

(** What the concrete run answers. *)
Example sample_run :
  match run u64_layout (λ _, true) (λ _ _, false) sample_ops (sample_vec [5; 3]) with
  | Ret rs s' => rs = [None; Some 8; Some 8; Some 5; Some 4; Some 1] ∧ regs s' = 0
  | _ => False
  end.
Proof. vm_compute. by split. Qed.

(** C7: no element is lost or duplicated.  For any comparison, which may answer
    anything and panic at any call, and any destructor: after any sequence of
    [push] and [pop] the elements of the heap and those popped are the ones pushed
    and the ones that were there.  When an operation unwinds, the ones before it
    have returned [rs], and the heap is still a valid vector of all the elements
    it held, except that [push] may have dropped the element being pushed and that
    [pop] has dropped the one it took from the root. *)
Theorem heap_panic_safe {T} `{!Ord T} (el : Layout) (alloc_ok : Layout → bool)
    (drop_panics : nat → T → bool) (os : list (option T)) (l : list T) (s : Vec.vec T) :
  elem_ok el → vec_is el l s →
  match run el alloc_ok drop_panics (moves <$> os) s with
  | Ret rs s' => ∃ k, vec_is el k s' ∧ dropped s' = dropped s ∧ k ++ values rs ≡ₚ values os ++ l
  | Panic s' => ∃ n o rs k s1, os !! n = Some o ∧
      run el alloc_ok drop_panics (moves <$> take n os) s = Ret rs s1 ∧
      vec_is el k s1 ∧ dropped s1 = dropped s ∧ k ++ values rs ≡ₚ values (take n os) ++ l ∧
      run_op el alloc_ok drop_panics (moves o) s1 = Panic s' ∧ unwound el o k s1 s'
  | Fault f => f = Aborted ∧ aborts alloc_ok drop_panics
  end.
Proof.
  intros Hel Hs. pose proof (run_moves_spec el alloc_ok drop_panics os l s Hel Hs) as H.
  unfold wpa in H. by destruct (run _ _ _ _ _) as [| |[]].
Qed.

(** A comparison that panics at the third call. *)
Definition rude_ord : Ord nat := {|
  ord_le := λ n a b, if n =? 2 then None else Some (a <=? b);
  ord_ge := λ n a b, if n =? 2 then None else Some (b <=? a);
  ord_lt := λ n a b, if n =? 2 then None else Some (a <? b);
|}.

Lemma heap_panic_safe_witness :
  let os := [Some 8; Some 9; None] in
  match run (Ord0 := rude_ord) u64_layout (λ _, true) (λ _ _, false) (moves <$> os) (sample_vec [5; 3]) with
  | Ret rs s' => ∃ k, vec_is u64_layout k s' ∧ dropped s' = [] ∧ k ++ values rs ≡ₚ values os ++ [5; 3]
  | Panic s' => ∃ n o rs k s1, os !! n = Some o ∧
      run (Ord0 := rude_ord) u64_layout (λ _, true) (λ _ _, false) (moves <$> take n os) (sample_vec [5; 3]) = Ret rs s1 ∧
      vec_is u64_layout k s1 ∧ dropped s1 = [] ∧ k ++ values rs ≡ₚ values (take n os) ++ [5; 3] ∧
      run_op (Ord0 := rude_ord) u64_layout (λ _, true) (λ _ _, false) (moves o) s1 = Panic s' ∧ unwound u64_layout o k s1 s'
  | Fault f => f = Aborted ∧ aborts (λ _, true) (λ (_ : nat) (_ : nat), false)
  end.
Proof.
  apply (@heap_panic_safe nat rude_ord u64_layout (λ _, true) (λ _ _, false) [Some 8; Some 9; None] [5; 3]);
    [apply u64_elem_ok|apply sample_vec_is; simpl; lia].
Defined.

(** [BinaryHeap::from(vec).into_sorted_vec()] sorts the elements of any vector,
    for a lawful order; it does not panic, and drops nothing. *)
Theorem heap_sorts {T} `{!Ord T} (lt : T → T → bool) `{!StrictWeak lt}
    (el : Layout) (drop_panics : nat → T → bool) (l : list T) (s : Vec.vec T) :
  LawfulOrd T lt → elem_ok el → vec_is el l s →
  ∃ s' k, (_ ← from_vec; into_sorted_vec el drop_panics) s = Ret () s' ∧
    vec_is el k s' ∧ sorted lt k ∧ k ≡ₚ l ∧ dropped s' = dropped s.
Proof.
  intros HL Hel Hl.
  assert (wp (_ ← from_vec; into_sorted_vec el drop_panics)
    (λ _ s', ∃ k, vec_is el k s' ∧ sorted lt k ∧ k ≡ₚ l ∧ dropped s' = dropped s) (λ _, False) s) as H.
  { apply wp_bind. eapply wp_mono; [by apply (from_vec_spec lt el (λ _, true) l)| |].
    2:{ intros s2 (k&_&_&HnL&_). done. }
    intros [] s2 (k&Hk&Hp&Hh&Hd). apply wpa_no_abort.
    eapply wpa_mono; [by apply (into_sorted_vec_spec lt el (λ _, true) drop_panics Hel False k)| |].
    - intros [] s3 (k3&Hk3&Hp3&Hs3&Hd3). exists k3.
      split_and!; [done|by apply Hs3; [|apply Hh]|by rewrite Hp3|congruence].
    - intros s3 [HnL _]. done. }
  case_run H as [[] s'| |]; [|done..]. destruct H as (k&?). by exists s', k.
Qed.

Lemma heap_sorts_witness :
  ∃ s' k, (_ ← from_vec; into_sorted_vec u64_layout (λ _ _, false)) (sample_vec [3; 1; 4; 1]) = Ret () s' ∧
    vec_is u64_layout k s' ∧ sorted Nat.ltb k ∧ k ≡ₚ [3; 1; 4; 1] ∧ dropped s' = [].
Proof.
  apply (heap_sorts Nat.ltb u64_layout (λ _ _, false) [3; 1; 4; 1]);
    [apply nat_ord_lawful|apply u64_elem_ok|apply sample_vec_is; simpl; lia].
Defined.

(** [append], with any comparison: the elements of both heaps end up in
    [self] and [other] is empty, also when the comparison panics while the heap is
    rebuilt; if the capacity overflows each element is still in one of the two.
    For a lawful order the result is a heap, whichever of the two vectors was kept
    and whichever way it was rebuilt. *)
Theorem heap_append_correct {T} `{!Ord T} (lt : T → T → bool) `{!StrictWeak lt}
    (el : Layout) (alloc_ok : Layout → bool) (l1 l2 : list T) (s o : Vec.vec T) :
  elem_ok el → vec_is el l1 s → vec_is el l2 o →
  match append el alloc_ok (s, o) with
  | Ret _ (s', o') => ∃ k, vec_is el k s' ∧ vec_is el [] o' ∧ k ≡ₚ l1 ++ l2 ∧
      (LawfulOrd T lt → is_heap lt l1 → is_heap lt l2 → is_heap lt k) ∧
      dropped s' = dropped s ∧ dropped o' = dropped o
  | Panic (s', o') => ∃ k1 k2, vec_is el k1 s' ∧ vec_is el k2 o' ∧ k1 ++ k2 ≡ₚ l1 ++ l2 ∧
      dropped s' = dropped s ∧ dropped o' = dropped o ∧
      (LawfulOrd T lt → k1 = l1 ∧ k2 = l2 ∨ k1 = l2 ∧ k2 = l1)
  | Fault f => f = Aborted ∧ out_of_memory alloc_ok
  end.
Proof.
  intros Hel Hs Ho.
  pose proof (append_heap_spec lt el alloc_ok (λ _ _, false) Hel _ l1 l2 s o (λ H, H) Hs Ho) as H.
  unfold wpa in H. by destruct (append _ _ _) as [? []|[]|[]].
Qed.

Lemma heap_append_correct_witness :
  match append u64_layout (λ _, true) (sample_vec [5; 3], sample_vec [7; 1; 2]) with
  | Ret _ (s', o') => ∃ k, vec_is u64_layout k s' ∧ vec_is u64_layout [] o' ∧ k ≡ₚ [5; 3] ++ [7; 1; 2] ∧
      (LawfulOrd nat Nat.ltb → is_heap Nat.ltb [5; 3] → is_heap Nat.ltb [7; 1; 2] → is_heap Nat.ltb k) ∧
      dropped s' = [] ∧ dropped o' = []
  | Panic (s', o') => ∃ k1 k2, vec_is u64_layout k1 s' ∧ vec_is u64_layout k2 o' ∧
      k1 ++ k2 ≡ₚ [5; 3] ++ [7; 1; 2] ∧ dropped s' = [] ∧ dropped o' = [] ∧
      (LawfulOrd nat Nat.ltb → k1 = [5; 3] ∧ k2 = [7; 1; 2] ∨ k1 = [7; 1; 2] ∧ k2 = [5; 3])
  | Fault f => f = Aborted ∧ out_of_memory (λ _, true)
  end.
Proof.
  apply (heap_append_correct Nat.ltb u64_layout (λ _, true) [5; 3] [7; 1; 2]);
    [apply u64_elem_ok|apply sample_vec_is; simpl; lia..].
Defined.

(** leak amplification.  From the moment [PeekMut] hands out its mutable
    reference until it is dropped, the vector holds just the root, whatever the
    client makes of it, so leaking the guard is safe; dropping the guard brings
    all the other elements back, also when the comparison panics, and with a
    lawful order it restores the heap. *)
Theorem peek_mut_leak_safe {T} `{!Ord T} (lt : T → T → bool) `{!StrictWeak lt}
    (el : Layout) (f : T → T) (x : T) (rest : list T) (s : Vec.vec T) :
  elem_ok el → vec_is el (x :: rest) s →
  ∃ p s1, (o ← peek_mut; match o with
      | Some p => p ← PeekMut_deref_mut el p; _ ← PeekMut_write (f x); mret (Some p)
      | None => mret None
      end) s = Ret (Some p) s1 ∧
    vec_is el [f x] s1 ∧
    match PeekMut_drop el p s1 with
    | Ret _ s2 => ∃ k, vec_is el k s2 ∧ k ≡ₚ f x :: rest ∧
        (LawfulOrd T lt → is_heap lt (x :: rest) → is_heap lt k)
    | Panic s2 => ∃ k, vec_is el k s2 ∧ k ≡ₚ f x :: rest ∧ ¬ LawfulOrd T lt
    | Fault _ => False
    end.
Proof.
  intros Hel Hl.
  assert (wp (o ← peek_mut; match o with
      | Some p => p ← PeekMut_deref_mut el p; _ ← PeekMut_write (f x); mret (Some p)
      | None => mret None
      end) (λ o s1, ∃ p, o = Some p ∧ vec_is el [f x] s1 ∧ peeking el p (f x) rest s1 ∧
         (original_len p = None → rest = [])) (λ _, False) s) as H.
  { apply wp_bind. eapply wp_mono; [by apply peek_mut_spec| |done]. intros o s1 [-> Ho].
    destruct o as [p|]; [|done]. destruct Ho as [Hn Hp]. apply wp_bind.
    eapply wp_mono; [by apply (deref_mut_spec el (λ _, true) (λ _ _, false) Hel)| |done].
    intros p' s2 (Hp2&Hl2&_). pose proof (vec_is_len el _ _ Hl2) as Hr2. apply wp_bind.
    eapply wp_mono; [by apply (peek_write_spec el (λ _, true) (λ _ _, false) p' x)| |done].
    intros [] s3 (Hp3&Hr3&_). apply wp_ret. exists p'. split_and!; [done| |done|].
    - destruct Hp3 as [Hv _]. apply (vec_is_shorter el [f x] rest _ _ Hv); [done|done|]. by rewrite Hr3, Hr2.
    - intros Hn'. destruct Hp2 as [_ Hr]. rewrite Hn', Hr2 in Hr. by destruct rest. }
  case_run H as [o s1| |]; [|done..]. destruct H as (p&->&Hl1&Hp&Hn).
  exists p, s1. split_and!; [done|done|].
  pose proof (PeekMut_drop_spec lt el (λ _, true) (λ _ _, false) Hel p x (f x) rest s1 Hp
    (λ H, or_intror (Hn H))) as H.
  unfold wp in H. destruct (PeekMut_drop el p s1); [| |done]; destruct H as (k&?&?&?&_); by exists k.
Qed.

Lemma peek_mut_leak_safe_witness :
  ∃ p s1, (o ← peek_mut; match o with
      | Some p => p ← PeekMut_deref_mut u64_layout p; _ ← PeekMut_write 0; mret (Some p)
      | None => mret None
      end) (sample_vec [5; 3; 4]) = Ret (Some p) s1 ∧
    vec_is u64_layout [0] s1 ∧
    match PeekMut_drop u64_layout p s1 with
    | Ret _ s2 => ∃ k, vec_is u64_layout k s2 ∧ k ≡ₚ [0; 3; 4] ∧
        (LawfulOrd nat Nat.ltb → is_heap Nat.ltb [5; 3; 4] → is_heap Nat.ltb k)
    | Panic s2 => ∃ k, vec_is u64_layout k s2 ∧ k ≡ₚ [0; 3; 4] ∧ ¬ LawfulOrd nat Nat.ltb
    | Fault _ => False
    end.
Proof.
  apply (peek_mut_leak_safe Nat.ltb u64_layout (λ _, 0) 5 [3; 4]);
    [apply u64_elem_ok|apply sample_vec_is; simpl; lia].
Defined.
