(* ===== verification/VecDeque.v ===== *)
(** [VecDeque]: [alloc/src/collections/vec_deque/mod.rs].  The registers of the
    buffer are [head] and [len]; capacities and indices are naturals, the wrapping
    arithmetic on them is that of 64 bits. *)

From S2P Require Import Prelude Layout RawVec Cells.

Record ring := Ring { head : nat; dlen : nat }.
Abbreviation deque T := (buffer ring T).

Definition wrapping_add (a b : Z) : Z := ((a + b) mod 2 ^ 64)%Z.
Definition wrapping_sub (a b : Z) : Z := ((a - b) mod 2 ^ 64)%Z.
Definition abs_diff (a b : nat) : nat := if a <? b then b - a else a - b.

Section deque.
Context {T : Type} (el : Layout) (alloc_ok : Layout → bool) (drop_panics : nat → T → bool).
Implicit Types (s : deque T) (i n : nat) (x : T).

Abbreviation drop_value := (drop_value drop_panics).
Abbreviation drop_values := (drop_values drop_panics).

Definition is_zst : bool := (size el =? 0)%Z.
Definition get_head : prog (deque T) nat := gets (λ s, head (regs s)).
Definition len : prog (deque T) nat := gets (λ s, dlen (regs s)).
Definition set_head h : prog (deque T) () := modify (λ s, set_regs (Ring h (dlen (regs s))) s).
Definition set_len n : prog (deque T) () := modify (λ s, set_regs (Ring (head (regs s)) n) s).

Definition capacity : prog (deque T) nat := c ← RawVec.capacity el; mret (Z.to_nat c).

Definition wrap_index (logical_index c : nat) : prog (deque T) nat :=
  _ ← assert_ ((logical_index =? 0) && (c =? 0) || (logical_index <? c) || (logical_index - c <? c));
  if c <=? logical_index then mret (logical_index - c) else mret logical_index.

Definition wrap_add idx addend : prog (deque T) nat :=
  c ← capacity; wrap_index (Z.to_nat (wrapping_add (Z.of_nat idx) (Z.of_nat addend))) c.

Definition to_physical_idx idx : prog (deque T) nat := h ← get_head; wrap_add h idx.

Definition wrap_sub idx subtrahend : prog (deque T) nat :=
  c ← capacity;
  wrap_index (Z.to_nat (wrapping_add (wrapping_sub (Z.of_nat idx) (Z.of_nat subtrahend)) (Z.of_nat c))) c.

Definition is_full : prog (deque T) bool := n ← len; c ← capacity; mret (n =? c).
Definition is_empty : prog (deque T) bool := n ← len; mret (n =? 0).
Definition is_contiguous : prog (deque T) bool :=
  h ← get_head; c ← capacity; n ← len; room ← usub c n; mret (h <=? room).

Definition buffer_read off : prog (deque T) T := rd_cell off.
Definition buffer_write off x : prog (deque T) () := wr_cell off x.

(** ** Moving blocks of cells *)
Definition copy src dst n : prog (deque T) () :=
  c ← capacity;
  _ ← assert_ (dst + n <=? c); _ ← assert_ (src + n <=? c);
  copy_cells src dst n.

Definition copy_nonoverlapping src dst n : prog (deque T) () :=
  c ← capacity;
  _ ← assert_ (dst + n <=? c); _ ← assert_ (src + n <=? c);
  copy_cells_nonoverlapping src dst n.

Definition wrap_copy src dst n : prog (deque T) () :=
  c ← capacity;
  far ← usub c (abs_diff src dst);
  _ ← assert_ (Nat.min (abs_diff src dst) far + n <=? c);
  if is_zst || (src =? dst) || (n =? 0) then mret () else
  d ← wrap_sub dst src;
  let dst_after_src := d <? n in
  src_pre_wrap_len ← usub c src;
  dst_pre_wrap_len ← usub c dst;
  let src_wraps := src_pre_wrap_len <? n in
  let dst_wraps := dst_pre_wrap_len <? n in
  match dst_after_src, src_wraps, dst_wraps with
  | _, false, false => copy src dst n
  | false, false, true =>
      _ ← copy src dst dst_pre_wrap_len;
      copy (src + dst_pre_wrap_len) 0 (n - dst_pre_wrap_len)
  | true, false, true =>
      _ ← copy (src + dst_pre_wrap_len) 0 (n - dst_pre_wrap_len);
      copy src dst dst_pre_wrap_len
  | false, true, false =>
      _ ← copy src dst src_pre_wrap_len;
      copy 0 (dst + src_pre_wrap_len) (n - src_pre_wrap_len)
  | true, true, false =>
      _ ← copy 0 (dst + src_pre_wrap_len) (n - src_pre_wrap_len);
      copy src dst src_pre_wrap_len
  | false, true, true =>
      _ ← assert_ (src_pre_wrap_len <? dst_pre_wrap_len);
      let delta := dst_pre_wrap_len - src_pre_wrap_len in
      _ ← copy src dst src_pre_wrap_len;
      _ ← copy 0 (dst + src_pre_wrap_len) delta;
      copy delta 0 (n - dst_pre_wrap_len)
  | true, true, true =>
      _ ← assert_ (dst_pre_wrap_len <? src_pre_wrap_len);
      let delta := src_pre_wrap_len - dst_pre_wrap_len in
      _ ← copy 0 delta (n - src_pre_wrap_len);
      _ ← copy (c - delta) 0 delta;
      copy src dst dst_pre_wrap_len
  end.

(** ** Growing *)
Definition handle_capacity_increase old_capacity : prog (deque T) () :=
  new_capacity ← capacity;
  _ ← assert_ (old_capacity <=? new_capacity);
  h ← get_head; n ← len;
  room ← usub old_capacity n;
  _ ← (if h <=? room then mret () else
    head_len ← usub old_capacity h;
    tail_len ← usub n head_len;
    if (tail_len <? head_len) && (tail_len <=? new_capacity - old_capacity) then
      copy_nonoverlapping 0 old_capacity tail_len
    else
      new_head ← usub new_capacity head_len;
      _ ← copy h new_head head_len;
      set_head new_head);
  h ← get_head;
  assert_ ((h <? new_capacity) || (new_capacity =? 0)).

Definition grow : prog (deque T) () :=
  full ← is_full; _ ← assert_ full;
  old_cap ← capacity;
  _ ← grow_one el alloc_ok;
  _ ← handle_capacity_increase old_cap;
  full ← is_full; assert_ (negb full).

(** [reserve] and [reserve_exact]; [checked_add] on the length. *)
Definition reserve_with (f : Z → Z → prog (deque T) ()) additional : prog (deque T) () :=
  n ← len;
  if (usize_MAX <? Z.of_nat n + Z.of_nat additional)%Z then panic else
  let new_cap := n + additional in
  old_cap ← capacity;
  if old_cap <? new_cap then
    _ ← f (Z.of_nat n) (Z.of_nat additional);
    handle_capacity_increase old_cap
  else mret ().

Definition reserve additional : prog (deque T) () := reserve_with (RawVec.reserve el alloc_ok) additional.
Definition reserve_exact additional : prog (deque T) () :=
  reserve_with (RawVec.reserve_exact el alloc_ok) additional.

(** ** Access by index *)
Definition get i : prog (deque T) (option T) :=
  n ← len;
  if i <? n then idx ← to_physical_idx i; x ← rd_cell idx; mret (Some x) else mret None.

(** [self[i]] *)
Definition index i : prog (deque T) T :=
  o ← get i; match o with Some x => mret x | None => panic end.

(** [ptr::swap] *)
Definition swap i j : prog (deque T) () :=
  n ← len; _ ← assert_ (i <? n);
  n ← len; _ ← assert_ (j <? n);
  ri ← to_physical_idx i;
  rj ← to_physical_idx j;
  x ← rd_cell ri; y ← rd_cell rj;
  _ ← wr_cell ri y; wr_cell rj x.

(** ** The two ends *)
Definition pop_front : prog (deque T) (option T) :=
  empty ← is_empty;
  if empty : bool then mret None else
  old_head ← get_head;
  h ← to_physical_idx 1;
  _ ← set_head h;
  n ← len; _ ← set_len (n - 1);
  c ← capacity; _ ← assume (n - 1 <? c);
  x ← buffer_read old_head;
  mret (Some x).

Definition pop_back : prog (deque T) (option T) :=
  empty ← is_empty;
  if empty : bool then mret None else
  n ← len; _ ← set_len (n - 1);
  c ← capacity; _ ← assume (n - 1 <? c);
  idx ← to_physical_idx (n - 1);
  x ← buffer_read idx;
  mret (Some x).

(** [if self.is_full() { self.grow() }]; the element is dropped if that panics. *)
Definition make_room x : prog (deque T) () :=
  full ← is_full;
  if full : bool then on_panic grow (drop_value x) else mret ().

Definition push_front x : prog (deque T) () :=
  _ ← make_room x;
  h ← get_head;
  h ← wrap_sub h 1;
  _ ← set_head h;
  n ← len; _ ← set_len (n + 1);
  buffer_write h x.

Definition push_back x : prog (deque T) () :=
  _ ← make_room x;
  n ← len;
  _ ← set_len (n + 1);
  idx ← to_physical_idx n;
  buffer_write idx x.

Definition swap_remove_front i : prog (deque T) (option T) :=
  length ← len;
  if (i <? length) && negb (i =? 0) then _ ← swap i 0; pop_front
  else if length <=? i then mret None
  else pop_front.

Definition swap_remove_back i : prog (deque T) (option T) :=
  length ← len;
  if (0 <? length) && (i <? length - 1) then _ ← swap i (length - 1); pop_back
  else if length <=? i then mret None
  else pop_back.

(** ** In the middle *)
Definition insert i x : prog (deque T) () :=
  n ← len;
  _ ← on_panic (assert_ (i <=? n)) (drop_value x);
  _ ← make_room x;
  n ← len;
  let k := n - i in
  if k <? i then
    src ← to_physical_idx i;
    dst ← to_physical_idx (i + 1);
    _ ← wrap_copy src dst k;
    _ ← set_len (n + 1);
    idx ← to_physical_idx i;
    buffer_write idx x
  else
    old_head ← get_head;
    h ← wrap_sub old_head 1;
    _ ← set_head h;
    _ ← wrap_copy old_head h i;
    _ ← set_len (n + 1);
    idx ← to_physical_idx i;
    buffer_write idx x.

Definition remove i : prog (deque T) (option T) :=
  n ← len;
  if n <=? i then mret None else
  wrapped_idx ← to_physical_idx i;
  elem ← buffer_read wrapped_idx;
  let k := n - i - 1 in
  _ ← (if k <? i then
    src ← wrap_add wrapped_idx 1;
    _ ← wrap_copy src wrapped_idx k;
    set_len (n - 1)
  else
    old_head ← get_head;
    h ← to_physical_idx 1;
    _ ← set_head h;
    _ ← wrap_copy old_head h i;
    set_len (n - 1));
  mret (Some elem).
End deque.

(** ** [VecDeque]: the operations that move or drop many elements
    ([alloc/src/collections/vec_deque/mod.rs]). *)

Section bulk.
Context {T : Type} (el : Layout) (alloc_ok : Layout → bool) (drop_panics : nat → T → bool).
(** Whether a failing allocation unwinds, or aborts the process. *)
Context (oom_unwinds : bool).
Implicit Types (s : deque T) (i n : nat) (x : T).

Abbreviation drop_values := (drop_values drop_panics).
Abbreviation capacity := (capacity el).
Abbreviation to_physical_idx := (to_physical_idx el).

(** ** The two halves *)
(** [slice_ranges(start..end, len)]: two ranges of cells. *)
Definition slice_ranges (start end_ n : nat) : prog (deque T) ((nat * nat) * (nat * nat)) :=
  if negb ((start <=? end_) && (end_ <=? n)) then panic else
  let len := end_ - start in
  if len =? 0 then mret ((0, 0), (0, 0)) else
  wrapped_start ← to_physical_idx start;
  c ← capacity;
  head_len ← usub c wrapped_start;
  if len <=? head_len then mret ((wrapped_start, wrapped_start + len), (0, 0))
  else let tail_len := len - head_len in mret ((wrapped_start, c), (0, tail_len)).

(** The elements of a range of cells. *)
Definition buffer_range (r : nat * nat) : prog (deque T) (list T) := rd_cells r.1 (r.2 - r.1).

Definition as_slices : prog (deque T) (list T * list T) :=
  n ← len;
  '(a_range, b_range) ← slice_ranges 0 n n;
  a ← buffer_range a_range; b ← buffer_range b_range;
  mret (a, b).

(** Dropping [front] with a guard that drops [back]. *)
Definition drop_both (front back : list T) : prog (deque T) () :=
  _ ← on_panic (drop_values front) (drop_values back); drop_values back.

Definition truncate n : prog (deque T) () :=
  k ← len;
  if k <=? n then mret () else
  '(front, back) ← as_slices;
  if length front <? n then
    let begin := n - length front in
    _ ← assume (begin <=? length back);
    _ ← set_len n;
    drop_values (drop begin back)
  else
    _ ← set_len n;
    drop_both (drop n front) back.

Definition truncate_front n : prog (deque T) () :=
  k ← len;
  if k <=? n then mret () else
  '(front, back) ← as_slices;
  if length back <? n then
    end_ ← usub (length front) (n - length back);
    h ← get_head; _ ← set_head (h + end_);
    _ ← set_len n;
    drop_values (take end_ front)
  else
    let end_ := length back - n in
    h ← to_physical_idx (k - n); _ ← set_head h;
    _ ← set_len n;
    drop_both front (take end_ back).

Definition clear : prog (deque T) () := _ ← truncate 0; set_head 0.

(** [Drop for VecDeque], then that of the buffer. *)
Definition drop_deque : prog (deque T) () :=
  '(front, back) ← as_slices;
  _ ← on_panic (drop_both front back) (deallocate el);
  deallocate el.

(** ** Shrinking *)
Definition abort_shrink old_head target_cap : prog (deque T) () :=
  h ← get_head; n ← len;
  room ← usub target_cap n;
  if h <=? room then mret () else
  head_len ← usub target_cap h;
  tail_len ← usub n head_len;
  c ← capacity;
  spare ← usub c target_cap;
  if tail_len <=? Nat.min head_len spare then copy_nonoverlapping el 0 target_cap tail_len
  else
    _ ← copy el h old_head head_len;
    set_head old_head.

(** [self.buf.shrink_to_fit(target_cap)] with [handle_alloc_error]. *)
Definition shrink_buf c : prog (deque T) () :=
  r ← RawVec.shrink el alloc_ok (Z.of_nat c);
  match r with
  | None => mret ()
  | Some CapacityOverflow => panic
  | Some (AllocError _) => if oom_unwinds then panic else abort
  end.

(** The elements are moved below [target_cap]. *)
Definition shrink_move target_cap : prog (deque T) () :=
  h ← get_head; n ← len; c ← capacity;
  let tail_outside := (target_cap + 1 <=? h + n) && (h + n <=? c) in
  if n =? 0 then set_head 0
  else if (target_cap <=? h) && tail_outside then
    _ ← copy_nonoverlapping el h 0 n;
    set_head 0
  else if (h <? target_cap) && tail_outside then
    copy_nonoverlapping el target_cap 0 (h + n - target_cap)
  else
    contiguous ← is_contiguous el;
    if contiguous : bool then mret () else
    head_len ← usub c h;
    new_head ← usub target_cap head_len;
    _ ← copy el h new_head head_len;
    set_head new_head.

Definition shrink_to min_capacity : prog (deque T) () :=
  n ← len;
  let target_cap := Nat.max min_capacity n in
  c ← capacity;
  if is_zst el || (c <=? target_cap) then mret () else
  old_head ← get_head;
  _ ← shrink_move target_cap;
  _ ← on_panic (shrink_buf target_cap) (abort_shrink old_head target_cap);
  h ← get_head; c ← capacity; n ← len;
  _ ← assert_ ((h <? c) || (c =? 0));
  assert_ (n <=? c).

Definition shrink_to_fit : prog (deque T) () := shrink_to 0.

(** ** Two deques *)
Definition on_self {A} : prog (deque T) A → prog (deque T * deque T) A := zoom fst (λ s p, (s, snd p)).
Definition on_other {A} : prog (deque T) A → prog (deque T * deque T) A := zoom snd (λ s p, (fst p, s)).

Definition copy_slice dst (src : list T) : prog (deque T) () :=
  c ← capacity;
  _ ← assert_ (length src <=? c);
  head_room ← usub c dst;
  if length src <=? head_room then wr_cells dst src
  else
    _ ← wr_cells dst (take head_room src);
    wr_cells 0 (drop head_room src).

Definition append : prog (deque T * deque T) () :=
  m ← on_other len;
  _ ← on_self (reserve el alloc_ok m);
  '(left_, right_) ← on_other as_slices;
  _ ← on_self (
    n ← len;
    dst ← to_physical_idx n; _ ← copy_slice dst left_;
    dst ← to_physical_idx (n + length left_); _ ← copy_slice dst right_;
    set_len (n + m));
  on_other (_ ← set_len 0; set_head 0).

Definition new : deque T := Buffer (Ring 0 0) [] None [] 0.

Definition split_off at_ : prog (deque T) (deque T) :=
  n ← len;
  _ ← assert_ (at_ <=? n);
  let other_len := n - at_ in
  other ← fresh (with_capacity_in el alloc_ok (Z.of_nat other_len)) new;
  '(first_half, second_half) ← as_slices;
  let first_len := length first_half in
  other ← fresh (if at_ <? first_len then
      let amount_in_first := first_len - at_ in
      _ ← wr_cells 0 (drop at_ first_half);
      wr_cells amount_in_first second_half
    else
      let offset := at_ - first_len in
      wr_cells 0 (drop offset second_half)) other;
  _ ← set_len at_;
  fresh (set_len other_len) other.

(** ** Rotation *)
Definition rotate_left_inner mid : prog (deque T) () :=
  n ← len; _ ← assert_ (mid * 2 <=? n);
  h ← get_head;
  dst ← to_physical_idx n;
  _ ← wrap_copy el h dst mid;
  h ← to_physical_idx mid;
  set_head h.

Definition rotate_right_inner k : prog (deque T) () :=
  n ← len; _ ← assert_ (k * 2 <=? n);
  h ← get_head;
  h ← wrap_sub el h k;
  _ ← set_head h;
  src ← to_physical_idx n;
  h ← get_head;
  wrap_copy el src h k.

Definition rotate_left n : prog (deque T) () :=
  l ← len; _ ← assert_ (n <=? l);
  let k := l - n in
  if n <=? k then rotate_left_inner n else rotate_right_inner k.

Definition rotate_right n : prog (deque T) () :=
  l ← len; _ ← assert_ (n <=? l);
  let k := l - n in
  if n <=? k then rotate_right_inner n else rotate_left_inner k.

(** ** [retain_mut] *)
(** [f(&mut self[i])] *)
Definition call_at {B} (f : nat → T → T * option B) i : prog (deque T) B :=
  n ← len;
  if i <? n then idx ← to_physical_idx i; call_mut f idx else panic.

Definition retain_mut (f : nat → T → T * option bool) : prog (deque T) () :=
  n ← len;
  '(idx, cur) ← loop (S n) (λ '(idx, cur),
    if negb (cur <? n) then mret (inr (idx, cur)) else
    keep ← call_at f cur;
    if keep : bool then mret (inl (idx + 1, cur + 1)) else mret (inr (idx, cur + 1))) (0, 0);
  '(idx, cur) ← loop (S n) (λ '(idx, cur),
    if negb (cur <? n) then mret (inr (idx, cur)) else
    keep ← call_at f cur;
    if keep : bool then _ ← swap el idx cur; mret (inl (idx + 1, cur + 1))
    else mret (inl (idx, cur + 1))) (idx, cur);
  if negb (cur =? idx) then truncate idx else mret ().

Definition retain (f : nat → T → option bool) : prog (deque T) () := retain_mut (λ c x, (x, f c x)).
End bulk.
