(* ===== verification/RingSpec.v ===== *)
(** [VecDeque]: the ring buffer, and the blocks of cells it moves. *)

From S2P Require Import Prelude.
From S2P Require Import Layout.
From S2P Require Import RawVec.
From S2P Require Import Cells.
From S2P Require Import VecDeque.

(** Positions in a ring of [c] cells: the cell [i] past the start of the buffer,
    for [i] below [2 * c], and how far [p] lies after [d]. *)
Definition wrap (c i : nat) : nat := if c <=? i then i - c else i.
Definition off (c d p : nat) : nat := if d <=? p then p - d else p + c - d.

(** Case analysis on ring positions, and on the cells that were written. *)
Ltac ring_cases := unfold wrap, off in *; repeat (first [case_bool|case_decide]; try (exfalso; lia)).

Lemma wrap_mod c i : i < 2 * c → wrap c i = i mod c.
Proof.
  intros Hi. unfold wrap. case_bool; [|by rewrite Nat.mod_small].
  replace i with (i - c + 1 * c) at 2 by lia. rewrite Nat.Div0.mod_add. by rewrite Nat.mod_small by lia.
Qed.

Lemma wrapping_add_small a b : (Z.of_nat a + Z.of_nat b < 2 ^ 64)%Z →
  Z.to_nat (wrapping_add (Z.of_nat a) (Z.of_nat b)) = a + b.
Proof. intros H. unfold wrapping_add. rewrite Z.mod_small by lia. lia. Qed.

Lemma wrapping_sub_add a b c : b ≤ a + c → (Z.of_nat a + Z.of_nat c < 2 ^ 64)%Z →
  Z.to_nat (wrapping_add (wrapping_sub (Z.of_nat a) (Z.of_nat b)) (Z.of_nat c)) = a + c - b.
Proof.
  intros Hb Hc. unfold wrapping_add, wrapping_sub.
  rewrite Zplus_mod_idemp_l. rewrite Z.mod_small by lia. lia.
Qed.

Section spec.
Context {T : Type} (el : Layout) (alloc_ok : Layout → bool).
Hypothesis Hel : elem_ok el.
Implicit Types (s : deque T) (l : list T) (i n p : nat) (x : T).

(** The buffer is in order and [head] is inside it. *)
Definition ring_ok s : Prop :=
  raw_ok el s ∧ (head (regs s) < length (cells s) ∨ cells s = [] ∧ head (regs s) = 0).

(** The deque holds the elements [l], the first one in the cell [head]. *)
Definition deque_is l s : Prop :=
  ring_ok s ∧ dlen (regs s) = length l ∧ length l ≤ length (cells s) ∧
  ∀ i x, l !! i = Some x → cells s !! wrap (length (cells s)) (head (regs s) + i) = Some (Some x).

Lemma cap_bound s : raw_ok el s → (Z.of_nat (length (cells s)) ≤ 2 ^ 63 - 1)%Z.
Proof.
  intros [Hf _]. pose proof (elem_bounds el alloc_ok Hel).
  destruct (array_fits_bounds el alloc_ok Hel (raw_cap s)); [unfold raw_cap; lia|done|].
  unfold raw_cap, isize_MAX in *. nia.
Qed.

Lemma wp_capacity s (Q : nat → deque T → Prop) P :
  raw_ok el s → Q (length (cells s)) s → wp (capacity el) Q P s.
Proof.
  intros Hs HQ. unfold capacity. apply wp_bind. unfold wp at 1, RawVec.capacity.
  pose proof (elem_bounds el alloc_ok Hel). rewrite (proj2 (Z.eqb_neq (size el) 0)) by lia.
  unfold cap, gets. apply wp_ret. by rewrite Nat2Z.id.
Qed.

Lemma wp_wrap_index i c s (Q : nat → deque T → Prop) P :
  i < 2 * c ∨ i = 0 → Q (wrap c i) s → wp (wrap_index i c) Q P s.
Proof.
  intros Hi HQ. unfold wrap_index. apply wp_bind, wp_assert.
  - rewrite !orb_true_iff, !Nat.ltb_lt. destruct (Nat.eqb_spec i 0); simpl; [|lia].
    destruct (Nat.eqb_spec c 0); simpl; [auto|lia].
  - unfold wrap in HQ. by destruct (c <=? i).
Qed.

Lemma wp_wrap_add i j s (Q : nat → deque T → Prop) P :
  raw_ok el s → i + j < 2 * length (cells s) ∨ i + j = 0 →
  Q (wrap (length (cells s)) (i + j)) s → wp (wrap_add el i j) Q P s.
Proof.
  intros Hs Hij HQ. pose proof (cap_bound s Hs). unfold wrap_add. apply wp_bind, wp_capacity; [done|].
  rewrite wrapping_add_small by lia. by apply wp_wrap_index.
Qed.

Lemma wp_to_physical_idx i s (Q : nat → deque T → Prop) P :
  raw_ok el s → head (regs s) + i < 2 * length (cells s) ∨ head (regs s) + i = 0 →
  Q (wrap (length (cells s)) (head (regs s) + i)) s → wp (to_physical_idx el i) Q P s.
Proof. intros. by apply wp_bind, wp_gets, wp_wrap_add. Qed.

Lemma wp_wrap_sub i j s (Q : nat → deque T → Prop) P :
  raw_ok el s → i < length (cells s) → j ≤ length (cells s) →
  (0 < j ∨ i + length (cells s) < 2 * length (cells s)) →
  Q (wrap (length (cells s)) (i + length (cells s) - j)) s → wp (wrap_sub el i j) Q P s.
Proof.
  intros Hs Hi Hj Hij HQ. pose proof (cap_bound s Hs). unfold wrap_sub. apply wp_bind, wp_capacity; [done|].
  rewrite wrapping_sub_add by lia. apply wp_wrap_index; [lia|done].
Qed.

Lemma wp_wrap_sub_0 i s (Q : nat → deque T → Prop) P :
  raw_ok el s → i < length (cells s) ∨ length (cells s) = 0 ∧ i = 0 → Q i s →
  wp (wrap_sub el i 0) Q P s.
Proof.
  intros Hs Hi HQ. pose proof (cap_bound s Hs). unfold wrap_sub. apply wp_bind, wp_capacity; [done|].
  unfold wrapping_add, wrapping_sub.
  rewrite Z.sub_0_r, Zplus_mod_idemp_l, <- Nat2Z.inj_add, Z.mod_small, Nat2Z.id by lia.
  apply wp_wrap_index; [lia|]. unfold wrap. rewrite (proj2 (Nat.leb_le _ _)), Nat.add_sub by lia. done.
Qed.

(** ** Blocks *)
(** [cs'] is [cs] with the [n] cells from [i] on copied to [j] on. *)
Definition moved (cs cs' : list (option T)) i j n : Prop :=
  length cs' = length cs ∧
  ∀ p, cs' !! p = if decide (j ≤ p < j + n) then cs !! (i + (p - j)) else cs !! p.

Lemma moved_inserts cs i j n : i + n ≤ length cs → j + n ≤ length cs →
  moved cs (list_inserts j (take n (drop i cs)) cs) i j n.
Proof.
  intros Hi Hj. split; [by rewrite length_inserts|]. intros p.
  assert (length (take n (drop i cs)) = n) as Hlen by (rewrite length_take, length_drop; lia).
  case_decide as Hp.
  - rewrite list_lookup_inserts by (rewrite ?Hlen; lia). rewrite lookup_take_lt, lookup_drop by lia. done.
  - destruct (decide (p < j)); [by rewrite list_lookup_inserts_lt|].
    rewrite list_lookup_inserts_ge by (rewrite Hlen; lia). done.
Qed.

Lemma wp_ring_copy src dst n s (Q : () → deque T → Prop) P :
  raw_ok el s → src + n ≤ length (cells s) → dst + n ≤ length (cells s) →
  (∀ cs, moved (cells s) cs src dst n → Q () (set_cells cs s)) → wp (copy el src dst n) Q P s.
Proof.
  intros Hs Hi Hj HQ. unfold copy. apply wp_bind, wp_capacity; [done|].
  apply wp_bind, wp_assert; [by apply Nat.leb_le|]. apply wp_bind, wp_assert; [by apply Nat.leb_le|].
  apply wp_copy_cells; [done|done|]. by apply HQ, moved_inserts.
Qed.

Lemma wp_ring_copy_nonoverlapping src dst n s (Q : () → deque T → Prop) P :
  raw_ok el s → src + n ≤ length (cells s) → dst + n ≤ length (cells s) →
  src + n ≤ dst ∨ dst + n ≤ src ∨ n = 0 →
  (∀ cs, moved (cells s) cs src dst n → Q () (set_cells cs s)) → wp (copy_nonoverlapping el src dst n) Q P s.
Proof.
  intros Hs Hi Hj Hd HQ. unfold copy_nonoverlapping. apply wp_bind, wp_capacity; [done|].
  apply wp_bind, wp_assert; [by apply Nat.leb_le|]. apply wp_bind, wp_assert; [by apply Nat.leb_le|].
  unfold copy_cells_nonoverlapping. apply wp_bind, wp_assume.
  { rewrite !orb_true_iff, !Nat.leb_le, Nat.eqb_eq. lia. }
  apply wp_copy_cells; [done|done|]. by apply HQ, moved_inserts.
Qed.

(** The same for ranges that go round the end of the buffer. *)
Definition ring_moved (cs cs' : list (option T)) src dst n : Prop :=
  length cs' = length cs ∧ ∀ p, p < length cs →
  cs' !! p = if decide (off (length cs) dst p < n)
             then cs !! wrap (length cs) (src + off (length cs) dst p) else cs !! p.

Lemma raw_ok_set_cells cs s : raw_ok el s → length cs = length (cells s) → raw_ok el (set_cells cs s).
Proof. unfold raw_ok, raw_cap. cbn. by intros ? ->. Qed.

(** Two or three blocks copied one after the other. *)
Lemma wp_copy2 i1 j1 n1 i2 j2 n2 s (Q : () → deque T → Prop) P :
  raw_ok el s → i1 + n1 ≤ length (cells s) → j1 + n1 ≤ length (cells s) →
  i2 + n2 ≤ length (cells s) → j2 + n2 ≤ length (cells s) →
  (∀ cs1 cs2, moved (cells s) cs1 i1 j1 n1 → moved cs1 cs2 i2 j2 n2 → Q () (set_cells cs2 s)) →
  wp (_ ← copy el i1 j1 n1; copy el i2 j2 n2) Q P s.
Proof.
  intros Hs ???? HQ. apply wp_bind, wp_ring_copy; [done..|]. intros cs1 Hc1. pose proof Hc1 as [Hlen _].
  apply wp_ring_copy; [by apply raw_ok_set_cells|cbn; lia|cbn; lia|]. intros cs2 Hc2. by apply (HQ cs1).
Qed.

Lemma wp_wrap_copy src dst n s (Q : () → deque T → Prop) P :
  raw_ok el s → src < length (cells s) → dst < length (cells s) →
  Nat.min (abs_diff src dst) (length (cells s) - abs_diff src dst) + n ≤ length (cells s) →
  (∀ cs, ring_moved (cells s) cs src dst n → Q () (set_cells cs s)) →
  wp (wrap_copy el src dst n) Q P s.
Proof.
  intros Hs Hsrc Hdst Hfar HQ. unfold wrap_copy. apply wp_bind, wp_capacity; [done|].
  assert (abs_diff src dst < length (cells s)) by (unfold abs_diff; case_bool; lia).
  apply wp_bind, wp_usub; [lia|]. apply wp_bind, wp_assert; [by apply Nat.leb_le|].
  unfold is_zst. pose proof (elem_bounds el alloc_ok Hel).
  rewrite (proj2 (Z.eqb_neq (size el) 0)) by lia. cbn [orb].
  destruct (Nat.eqb_spec src dst) as [->|Hne]; cbn [orb].
  { apply wp_ret. replace s with (set_cells (cells s) s) by by destruct s. apply HQ.
    split; [done|]. intros p Hp. case_decide; [|done]. f_equal. ring_cases; lia. }
  destruct (Nat.eqb_spec n 0) as [->|Hn]; cbn [orb].
  { apply wp_ret. replace s with (set_cells (cells s) s) by by destruct s. apply HQ.
    split; [done|]. intros p Hp. rewrite decide_False by lia. done. }
  apply wp_bind, wp_wrap_sub; [done|lia|lia|unfold abs_diff in *; lia|].
  apply wp_bind, wp_usub; [lia|]. apply wp_bind, wp_usub; [lia|].
  set (c := length (cells s)) in *.
  assert (∀ p, p < c → off c dst p < c) as Hoff by (intros; unfold off; case_bool; lia).
  assert (∃ d, wrap c (dst + c - src) = d ∧ 0 < d < c ∧
    (src < dst ∧ d = dst - src ∨ dst < src ∧ d = dst + c - src) ∧ Nat.min d (c - d) + n ≤ c)
    as (d&->&Hd&Hor&Hmin).
  { exists (wrap c (dst + c - src)). unfold wrap, abs_diff in *.
    destruct (Nat.ltb_spec src dst); case_bool; lia. }
  clear Hfar. destruct (Nat.ltb_spec d n) as [Has|Has],
    (Nat.ltb_spec (c - src) n) as [Hsw|Hsw], (Nat.ltb_spec (c - dst) n) as [Hdw|Hdw].
  all: try (apply wp_ring_copy; [done|fold c; lia|fold c; lia|];
    intros cs [Hlen Hlk]; apply HQ; (split; [done|]); intros p Hp; rewrite !Hlk; fold c; fold c in Hp;
    ring_cases; try done; f_equal; lia).
  all: try (apply wp_copy2; fold c; [done|lia|lia|lia|lia|];
    intros cs1 cs2 [Hlen1 Hlk1] [Hlen2 Hlk2]; apply HQ; split; [by rewrite Hlen2|];
    intros p Hp; rewrite !Hlk2, !Hlk1; fold c; fold c in Hp; pose proof (Hoff p Hp);
    ring_cases; try done; f_equal; lia).
  all: apply wp_bind, wp_assert; [apply Nat.ltb_lt; lia|].
  all: apply wp_bind, wp_ring_copy; [done|fold c; lia|fold c; lia|]; intros cs1 [Hlen1 Hlk1].
  all: apply wp_copy2; cbn [cells set_cells]; rewrite ?Hlen1; fold c;
    [by apply raw_ok_set_cells|lia|lia|lia|lia|];
    intros cs2 cs3 [Hlen2 Hlk2] [Hlen3 Hlk3]; apply HQ; split; [by rewrite Hlen3, Hlen2|];
    intros p Hp; rewrite !Hlk3, !Hlk2, !Hlk1; fold c; fold c in Hp; pose proof (Hoff p Hp);
    ring_cases; try done; f_equal; lia.
Qed.
End spec.
