(* ===== verification/DequeSpec.v ===== *)
(** What the operations of [VecDeque] do to the elements it holds. *)

From S2P Require Import Prelude.
From S2P Require Import Layout.
From S2P Require Import RawVec.
From S2P Require Import Cells.
From S2P Require Import VecSpec.
From S2P Require Import VecDeque.
From S2P Require Import RingSpec.

Section basic.
Context {T : Type} (el : Layout).
Implicit Types (s : deque T) (l : list T) (i n p : nat) (x : T).

Lemma deque_raw l s : deque_is el l s → raw_ok el s.
Proof. by intros [[]]. Qed.

Lemma deque_len l s : deque_is el l s → dlen (regs s) = length l.
Proof. by intros (_&?&_). Qed.

Lemma deque_head l s : deque_is el l s → l ≠ [] → head (regs s) < length (cells s).
Proof.
  intros ([_ [?|[Hc _]]]&_&Hcap&_) Hl; [done|]. rewrite Hc in Hcap. destruct l; [done|simpl in Hcap; lia].
Qed.

Lemma deque_cap l s : deque_is el l s → length l ≤ length (cells s).
Proof. by intros (_&_&?&_). Qed.

Lemma deque_intro l h s s' : raw_ok el s → block s' = block s → length (cells s') = length (cells s) →
  regs s' = Ring h (length l) → length l ≤ length (cells s) →
  (h < length (cells s) ∨ length (cells s) = 0 ∧ h = 0) →
  (∀ i x, l !! i = Some x → cells s' !! wrap (length (cells s)) (h + i) = Some (Some x)) →
  deque_is el l s'.
Proof.
  intros Hs Hb Hc Hr Hl Hh Hcells. split; [split|].
  - unfold raw_ok, raw_cap in *. by rewrite Hb, Hc.
  - rewrite Hr, Hc. destruct Hh as [?|[H0 ->]]; [by left|right]. split; [|done].
    apply nil_length_inv. lia.
  - rewrite Hr, Hc. by split_and!.
Qed.

(** A part of the deque: the registers move, the cells stay. *)
Lemma deque_part l1 l2 l3 h s s' : deque_is el (l1 ++ l2 ++ l3) s →
  block s' = block s → cells s' = cells s →
  regs s' = Ring h (length l2) → h = wrap (length (cells s)) (head (regs s) + length l1) →
  deque_is el l2 s'.
Proof.
  intros Hl Hb Hc Hr ->. pose proof (deque_cap _ s Hl) as Hcap. pose proof Hl as ([Hs Hhd]&_&_&Hcells).
  rewrite !length_app in Hcap. assert (head (regs s) < length (cells s) ∨ length (cells s) = 0 ∧ head (regs s) = 0) as Hhd'.
  { destruct Hhd as [?|[He ?]]; [by left|right]. by rewrite He. }
  eapply (deque_intro l2 _ s); [done|done|by rewrite Hc|done|lia|unfold wrap; case_bool; lia|].
  intros i x Hi. pose proof (lookup_lt_Some _ _ _ Hi). rewrite Hc, <- (Hcells (length l1 + i) x).
  - f_equal. ring_cases; lia.
  - rewrite lookup_app_r by lia. apply lookup_app_l_Some. by replace (length l1 + i - length l1) with i by lia.
Qed.

(** Only the ghost fields differ. *)
Lemma deque_same l s s' : deque_is el l s → block s' = block s → cells s' = cells s → regs s' = regs s →
  deque_is el l s'.
Proof.
  unfold deque_is, ring_ok, raw_ok, raw_cap. intros Hl Hb Hc Hr. by rewrite Hb, Hc, Hr.
Qed.

Lemma ring_room s n : ring_ok el s → n < length (cells s) → head (regs s) < length (cells s).
Proof. intros [_ [?|[He _]]]; [done|]. rewrite He. simpl. lia. Qed.
End basic.

Section spec.
Context {T : Type} (el : Layout) (alloc_ok : Layout → bool) (drop_panics : nat → T → bool).
Hypothesis Hel : elem_ok el.
Implicit Types (s : deque T) (l : list T) (i n p : nat) (x : T).

Abbreviation wp_ring_copy := (wp_ring_copy el alloc_ok Hel).
Abbreviation wp_ring_copy_nonoverlapping := (wp_ring_copy_nonoverlapping el alloc_ok Hel).
Abbreviation wp_capacity := (wp_capacity el alloc_ok Hel).
Abbreviation wp_wrap_copy := (wp_wrap_copy el alloc_ok Hel).
Abbreviation wp_wrap_add := (wp_wrap_add el alloc_ok Hel).
Abbreviation wp_wrap_sub := (wp_wrap_sub el alloc_ok Hel).
Abbreviation wp_to_physical_idx := (wp_to_physical_idx el alloc_ok Hel).

(** ** Growing *)
(** A full buffer only fails to grow when its elements already take up more than
    half of what a block can have. *)
Definition crowded l : Prop := array_fits el (2 * Z.of_nat (length l)) = false.

Lemma full_overflows l s : length l = length (cells s) →
  overflows el (Z.of_nat (length l)) 1 s → crowded l.
Proof.
  intros Hfull Hov. pose proof (elem_bounds el alloc_ok Hel) as Hb. destruct Hel as [[_ Hlay] _].
  unfold crowded, overflows, amortized_cap, raw_cap in *. rewrite <- Hfull in Hov. clear Hfull.
  unfold array_fits, isize_MAX, min_non_zero_cap in *. rewrite !Z.leb_gt in *.
  set (n := Z.of_nat (length l)) in *. assert (0 ≤ n)%Z by lia. clearbody n.
  assert (n = 0 ∨ n + 1 ≤ 2 * n)%Z as [->|Hn] by lia;
    destruct (Z.eqb_spec (size el) 1), (Z.leb_spec (size el) 1024);
    destruct Hov as [Hov|Hov]; try nia.
Qed.

Lemma handle_capacity_increase_spec l s0 k b :
  let s := Buffer (regs s0) (cells s0 ++ replicate k None) b (dropped s0) (clock s0) in
  deque_is el l s0 → raw_ok el s →
  wp (handle_capacity_increase el (length (cells s0)))
    (λ _ s', deque_is el l s' ∧ length (cells s') = length (cells s0) + k ∧ dropped s' = dropped s0)
    (λ _, False) s.
Proof.
  intros s Hl Hs. pose proof (deque_cap el l s0 Hl) as Hcap. pose proof (deque_len el l s0 Hl) as Hlen.
  pose proof Hl as ([_ Hhead]&_&_&Hl0). unfold handle_capacity_increase.
  assert (length (cells s) = length (cells s0) + k) as Hc by (subst s; cbn; len).
  apply wp_bind, wp_capacity; [done|]. rewrite Hc. apply wp_bind, wp_assert; [apply Nat.leb_le; lia|].
  apply wp_bind, wp_gets. apply wp_bind, wp_gets. change (regs s) with (regs s0). rewrite Hlen.
  set (h := head (regs s0)) in *. set (old := length (cells s0)) in *. set (n := length l) in *.
  assert (∀ i x, l !! i = Some x → i < n ∧ cells s !! wrap old (h + i) = Some (Some x)) as Hls.
  { intros i x Hi. split; [by apply lookup_lt_Some in Hi|]. subst s. cbn.
    by apply lookup_app_l_Some, Hl0. }
  assert (h < old ∨ old = 0 ∧ h = 0) as Hh.
  { destruct Hhead as [?|[He ?]]; [by left|right]. split; [|done]. unfold old. by rewrite He. }
  apply wp_bind, wp_usub; [done|]. apply wp_bind.
  eapply wp_mono with (P := λ _, False) (Q := λ _ s', raw_ok el s' ∧ dropped s' = dropped s0 ∧
    length (cells s') = old + k ∧ dlen (regs s') = n ∧
    (head (regs s') < old + k ∨ old + k = 0 ∧ head (regs s') = 0) ∧
    ∀ i x, l !! i = Some x → cells s' !! wrap (old + k) (head (regs s') + i) = Some (Some x)); [| |done].
  - destruct (Nat.leb_spec h (old - n)).
    { apply wp_ret. split_and!; [done|done|done|done|change (regs s) with (regs s0); fold h; lia|].
      intros i x [Hi Hx]%Hls. rewrite <- Hx. f_equal. change (regs s) with (regs s0). fold h.
      ring_cases; lia. }
    apply wp_bind, wp_usub; [lia|]. apply wp_bind, wp_usub; [lia|].
    destruct (Nat.ltb_spec (n - (old - h)) (old - h)); cbn [andb];
      [destruct (Nat.leb_spec (n - (old - h)) (old + k - old)); cbn [andb]|].
    1: { apply wp_ring_copy_nonoverlapping; rewrite ?Hc; [done|lia|lia|lia|]. intros cs [Hlc Hlk].
      split_and!; [by apply raw_ok_set_cells|done|cbn; lia|done|cbn; fold h; lia|].
      intros i x [Hi Hx]%Hls. cbn. fold h. rewrite Hlk, <- Hx. ring_cases; f_equal; lia. }
    all: apply wp_bind, wp_usub; [lia|]; apply wp_bind, wp_ring_copy; rewrite ?Hc; [done|lia|lia|];
      intros cs [Hlc Hlk]; apply wp_modify;
      (split_and!; [by apply (raw_ok_set_cells el cs s)|done|cbn; lia|done|cbn; lia|]);
      intros i x [Hi Hx]%Hls; cbn; rewrite Hlk, <- Hx; ring_cases; f_equal; lia.
  - intros [] s' (Hs'&Hd'&Hc'&Hn'&Hh'&Hl'). apply wp_bind, wp_gets.
    apply wp_assert. { rewrite orb_true_iff, Nat.ltb_lt, Nat.eqb_eq. lia. }
    split_and!; [|done|done]. split; [split; [done|]|].
    + rewrite Hc'. destruct Hh' as [?|[H0 ?]]; [by left|right]. split; [|done].
      apply nil_length_inv. lia.
    + rewrite Hc'. split_and!; [done|lia|done].
Qed.

Lemma grow_spec (X : Prop) l s (Q : () → deque T → Prop) (P : deque T → Prop) :
  (out_of_memory alloc_ok → X) → deque_is el l s → length l = length (cells s) →
  (∀ s', deque_is el l s' → length l < length (cells s') → dropped s' = dropped s → Q () s') →
  (crowded l → P s) →
  wpa X (grow el alloc_ok) Q P s.
Proof.
  intros HX Hl Hfull HQ HP. pose proof (deque_raw el l s Hl) as Hs. unfold grow.
  unfold is_full. apply wpa_bind, wpa_bind, wpa_wp, wp_gets. rewrite (deque_len el l s Hl).
  apply wpa_bind, wpa_wp, wp_capacity; [done|]. apply wpa_ret. rewrite Hfull, Nat.eqb_refl.
  apply wpa_bind, wpa_wp, wp_assert; [done|]. apply wpa_bind, wpa_wp, wp_capacity; [done|].
  apply wpa_bind, (grow_one_spec el alloc_ok Hel); [done|done| |].
  2:{ intros Hov. apply HP, (full_overflows l s); [done|]. rewrite Hfull. done. }
  intros k b s1 Hs1 Hcap. apply wpa_bind, wpa_wp.
  eapply wp_mono; [by apply (handle_capacity_increase_spec l s)| |done].
  intros [] s2 (Hl2&Hc2&Hd2).
  assert (0 < k) by (unfold raw_cap in Hcap; subst s1; cbn in Hcap; rewrite length_app, length_replicate in Hcap; lia).
  apply wpa_bind, wpa_bind, wpa_wp, wp_gets. rewrite (deque_len el l s2 Hl2).
  apply wpa_bind, wpa_wp, wp_capacity; [by eapply deque_raw|]. apply wpa_ret.
  apply wpa_wp, wp_assert; [by apply negb_true_iff, Nat.eqb_neq; lia|].
  apply HQ; [done|lia|done].
Qed.

Lemma deque_make_room_spec (X : Prop) l x s (Q : () → deque T → Prop) (P : deque T → Prop) :
  (aborts alloc_ok drop_panics → X) → deque_is el l s →
  (∀ s', deque_is el l s' → length l < length (cells s') → dropped s' = dropped s → Q () s') →
  (∀ s', crowded l → deque_is el l s' → dropped s' = x :: dropped s → P s') →
  wpa X (make_room el alloc_ok drop_panics x) Q P s.
Proof.
  intros HX Hl HQ HP. pose proof (deque_raw el l s Hl) as Hs. pose proof (deque_cap el l s Hl).
  unfold make_room, is_full. apply wpa_bind, wpa_bind, wpa_wp, wp_gets. rewrite (deque_len el l s Hl).
  apply wpa_bind, wpa_wp, wp_capacity; [done|]. apply wpa_ret.
  destruct (Nat.eqb_spec (length l) (length (cells s))) as [Hfull|].
  - apply wpa_on_panic, (grow_spec X l); [intros ?; apply HX; by left|done|done|done|].
    intros Hov. apply wpa_wp, wp_drop_value; [|intros ?; apply HX; right; by do 2 eexists].
    apply HP; [done| |done]. by apply (deque_same el l s).
  - apply wpa_ret, HQ; [done|lia|done].
Qed.

(** ** The two ends *)
Lemma push_back_spec (X : Prop) l x s : (aborts alloc_ok drop_panics → X) → deque_is el l s →
  wpa X (push_back el alloc_ok drop_panics x)
    (λ _ s', deque_is el (l ++ [x]) s' ∧ dropped s' = dropped s)
    (λ s', crowded l ∧ deque_is el l s' ∧ dropped s' = x :: dropped s) s.
Proof.
  intros HX Hl. unfold push_back. apply wpa_bind, (deque_make_room_spec X l); [done|done| |done].
  intros s1 Hl1 Hroom Hd1. apply wpa_wp. pose proof Hl1 as (Hr1&_&_&Hcells).
  pose proof (ring_room el _ _ Hr1 Hroom). destruct Hr1 as [Hs1 _].
  apply wp_bind, wp_gets. rewrite (deque_len el l s1 Hl1). apply wp_bind, wp_modify.
  apply wp_bind, wp_to_physical_idx; [done|cbn; lia|]. cbn [cells regs head set_regs].
  apply wp_wr_cell; [cbn; ring_cases; lia|]. split; [|done].
  apply (deque_intro el (l ++ [x]) (head (regs s1)) s1); cbn; [done|done|by rewrite length_insert|by rewrite length_app|len|by left|].
  intros i y Hi. pose proof (lookup_lt_Some _ _ _ Hi) as Hlt. rewrite length_app in Hlt. simpl in Hlt.
  destruct (decide (i = length l)) as [->|Hne].
  - rewrite lookup_mid in Hi by done. injection Hi as <-. apply list_lookup_insert_eq. ring_cases; lia.
  - rewrite list_lookup_insert_ne by (ring_cases; lia). apply Hcells. by rewrite lookup_app_l in Hi by lia.
Qed.

Lemma push_front_spec (X : Prop) l x s : (aborts alloc_ok drop_panics → X) → deque_is el l s →
  wpa X (push_front el alloc_ok drop_panics x)
    (λ _ s', deque_is el (x :: l) s' ∧ dropped s' = dropped s)
    (λ s', crowded l ∧ deque_is el l s' ∧ dropped s' = x :: dropped s) s.
Proof.
  intros HX Hl. unfold push_front. apply wpa_bind, (deque_make_room_spec X l); [done|done| |done].
  intros s1 Hl1 Hroom Hd1. apply wpa_wp. pose proof Hl1 as (Hr1&_&_&Hcells).
  pose proof (ring_room el _ _ Hr1 Hroom). destruct Hr1 as [Hs1 _].
  apply wp_bind, wp_gets. apply wp_bind, wp_wrap_sub; [done|lia|lia|lia|].
  apply wp_bind, wp_modify. apply wp_bind, wp_gets. apply wp_bind, wp_modify.
  set (h := wrap _ _). assert (h < length (cells s1)) as Hh by (unfold h; ring_cases; lia).
  apply wp_wr_cell; [done|]. split; [|done].
  apply (deque_intro el (x :: l) h s1); cbn;
    [done|done|by rewrite length_insert|by rewrite (deque_len el l s1 Hl1), Nat.add_1_r|lia|by left|].
  intros i y Hi. pose proof (lookup_lt_Some _ _ _ Hi) as Hlt. simpl in Hlt. destruct i as [|i].
  - injection Hi as <-. replace (wrap (length (cells s1)) (h + 0)) with h by (ring_cases; lia).
    by apply list_lookup_insert_eq.
  - simpl in Hi. apply Hcells in Hi. rewrite list_lookup_insert_ne by (unfold h; ring_cases; lia).
    rewrite <- Hi. f_equal. unfold h. ring_cases; lia.
Qed.

Lemma pop_front_spec l s : deque_is el l s →
  wp (pop_front el) (λ o s', o = l !! 0 ∧ deque_is el (tail l) s' ∧ dropped s' = dropped s)
    (λ _, False) s.
Proof.
  intros Hl. pose proof (deque_cap el l s Hl) as Hcap. pose proof (deque_raw el l s Hl) as Hs.
  unfold pop_front, is_empty. apply wp_bind, wp_bind, wp_gets. rewrite (deque_len el l s Hl).
  apply wp_ret. destruct l as [|x l]; simpl; [by apply wp_ret|].
  pose proof (deque_head el _ s Hl ltac:(done)) as Hh.
  apply wp_bind, wp_gets. apply wp_bind, wp_to_physical_idx; [done|lia|].
  apply wp_bind, wp_modify. apply wp_bind, wp_gets. apply wp_bind, wp_modify.
  cbn. rewrite (deque_len el _ s Hl). simpl in *. rewrite Nat.sub_0_r.
  apply wp_bind, wp_capacity; [done|]. apply wp_bind, wp_assume; [by apply Nat.ltb_lt|].
  pose proof Hl as (_&_&_&Hcells). apply wp_bind. eapply wp_rd_cell.
  { cbn. rewrite <- (Hcells 0 x) by done. f_equal. ring_cases; lia. }
  apply wp_ret. split_and!; [done| |done].
  eapply (deque_part el [x] l [] _ s); [by rewrite app_nil_r|done|done|done|done].
Qed.

Lemma pop_back_spec l s : deque_is el l s →
  wp (pop_back el) (λ o s', o = last l ∧ deque_is el (removelast l) s' ∧ dropped s' = dropped s)
    (λ _, False) s.
Proof.
  intros Hl. pose proof (deque_cap el l s Hl) as Hcap. pose proof (deque_raw el l s Hl) as Hs.
  unfold pop_back, is_empty. apply wp_bind, wp_bind, wp_gets. rewrite (deque_len el l s Hl).
  apply wp_ret. destruct (decide (l = [])) as [->|Hne]; [by apply wp_ret|].
  destruct (list_snoc_inv l Hne) as (l'&x&->). rewrite length_app in *. simpl in *.
  destruct (Nat.eqb_spec (length l' + 1) 0); [lia|].
  pose proof (deque_head el _ s Hl Hne) as Hh.
  apply wp_bind, wp_gets. apply wp_bind, wp_modify. rewrite (deque_len el _ s Hl), length_app. simpl.
  replace (length l' + 1 - 1) with (length l') by lia.
  apply wp_bind, wp_capacity; [done|]. apply wp_bind, wp_assume; [apply Nat.ltb_lt; cbn; lia|].
  apply wp_bind, wp_to_physical_idx; [done|cbn; lia|].
  pose proof Hl as (_&_&_&Hcells). apply wp_bind. eapply wp_rd_cell.
  { cbn. apply Hcells. by apply lookup_mid. }
  apply wp_ret. rewrite last_snoc, removelast_last. split_and!; [done| |done].
  eapply (deque_part el [] l' [x] _ s); [done|done|done|done|]. simpl. ring_cases; lia.
Qed.

(** ** Access by index *)
Lemma get_spec l i s : deque_is el l s → wp (get el i) (λ o s', o = l !! i ∧ s' = s) (λ _, False) s.
Proof.
  intros Hl. pose proof (deque_cap el l s Hl). unfold get. apply wp_bind, wp_gets. rewrite (deque_len el l s Hl).
  destruct (Nat.ltb_spec i (length l)) as [Hi|]; [|apply wp_ret; by rewrite lookup_ge_None_2].
  destruct (lookup_lt_is_Some_2 l i Hi) as [x Hx]. rewrite Hx.
  assert (head (regs s) < length (cells s)) by (apply (deque_head el l s Hl); by intros ->).
  apply wp_bind, wp_to_physical_idx; [by eapply deque_raw|lia|].
  apply wp_bind. eapply wp_rd_cell; [by apply Hl|]. by apply wp_ret.
Qed.

Lemma deque_wp_index l i s (Q : T → deque T → Prop) (P : deque T → Prop) :
  deque_is el l s → (∀ x, l !! i = Some x → Q x s) → (length l ≤ i → P s) → wp (index el i) Q P s.
Proof.
  intros Hl HQ HP. unfold index. apply wp_bind.
  eapply wp_mono; [by apply get_spec| |done]. intros o s' [-> ->].
  destruct (l !! i) as [x|] eqn:Hx; [apply wp_ret; by apply HQ|apply wp_panic].
  apply HP. by apply lookup_ge_None.
Qed.

Lemma deque_swap_spec l i j s : deque_is el l s →
  wp (swap el i j)
    (λ _ s', ∃ x y, l !! i = Some x ∧ l !! j = Some y ∧
       deque_is el (<[j := x]> (<[i := y]> l)) s' ∧ dropped s' = dropped s)
    (λ s', s' = s ∧ (length l ≤ i ∨ length l ≤ j)) s.
Proof.
  intros Hl. pose proof (deque_cap el l s Hl). pose proof (deque_raw el l s Hl) as Hs.
  unfold swap, assert_. apply wp_bind, wp_gets. rewrite (deque_len el l s Hl).
  destruct (Nat.ltb_spec i (length l)) as [Hi|]; [|by apply wp_bind, wp_panic; auto].
  apply wp_bind, wp_ret, wp_bind, wp_gets. rewrite (deque_len el l s Hl).
  destruct (Nat.ltb_spec j (length l)) as [Hj|]; [|by apply wp_bind, wp_panic; auto].
  apply wp_bind, wp_ret.
  destruct (lookup_lt_is_Some_2 l i Hi) as [x Hx], (lookup_lt_is_Some_2 l j Hj) as [y Hy].
  assert (head (regs s) < length (cells s)) by (apply (deque_head el l s Hl); by intros ->).
  apply wp_bind, wp_to_physical_idx; [done|lia|]. apply wp_bind, wp_to_physical_idx; [done|lia|].
  pose proof Hl as (_&_&_&Hcells).
  apply wp_bind. eapply wp_rd_cell; [by apply Hcells|]. apply wp_bind. eapply wp_rd_cell; [by apply Hcells|].
  apply wp_bind, wp_wr_cell; [ring_cases; lia|]. apply wp_wr_cell; [cbn; rewrite length_insert; ring_cases; lia|].
  exists x, y. split_and!; [done|done| |done].
  apply (deque_intro el _ (head (regs s)) s); cbn; [done|done|by rewrite !length_insert| |by rewrite !length_insert|by left|].
  { rewrite !length_insert. rewrite <- (deque_len el l s Hl). by destruct (regs s). }
  intros k z Hk. pose proof (lookup_lt_Some _ _ _ Hk) as Hlt. rewrite !length_insert in Hlt.
  destruct (decide (k = j)) as [->|Hkj].
  { rewrite list_lookup_insert_eq in Hk by (by rewrite length_insert). injection Hk as <-.
    apply list_lookup_insert_eq. rewrite length_insert. ring_cases; lia. }
  rewrite list_lookup_insert_ne in Hk by done. rewrite list_lookup_insert_ne by (ring_cases; lia).
  destruct (decide (k = i)) as [->|Hki].
  { rewrite list_lookup_insert_eq in Hk by done. injection Hk as <-.
    apply list_lookup_insert_eq. ring_cases; lia. }
  rewrite list_lookup_insert_ne in Hk by done. rewrite list_lookup_insert_ne by (ring_cases; lia). by apply Hcells.
Qed.

(** ** In the middle *)
(** A block moved inside the window of the ring that starts at [h]. *)
Lemma ring_moved_lookup (cs cs' : list (option T)) h a b n j :
  let c := length cs in
  ring_moved cs cs' (wrap c (h + a)) (wrap c (h + b)) n →
  h < c → a + n ≤ c → b + n ≤ c → j < c → 0 < n →
  cs' !! wrap c (h + j) =
    if decide (b ≤ j < b + n) then cs !! wrap c (h + (a + (j - b))) else cs !! wrap c (h + j).
Proof.
  intros c [_ Hlk] Hh Ha Hb Hj Hn. fold c in Hlk.
  rewrite Hlk by (ring_cases; lia). clear Hlk. case_decide as Hd; case_decide as Hd'.
  - f_equal. revert Hd. ring_cases; lia.
  - exfalso. revert Hd. ring_cases; lia.
  - exfalso. revert Hd. ring_cases; lia.
  - done.
Qed.

Lemma ring_moved_none (cs cs' : list (option T)) src dst : ring_moved cs cs' src dst 0 → cs' = cs.
Proof.
  intros [Hlen Hlk]. apply list_eq. intros p. destruct (decide (p < length cs)).
  - rewrite Hlk, decide_False by lia. done.
  - rewrite !lookup_ge_None_2 by lia. done.
Qed.

Lemma wp_move_block h a b src dst n s (Q : () → deque T → Prop) P :
  src = wrap (length (cells s)) (h + a) → dst = wrap (length (cells s)) (h + b) →
  raw_ok el s → h < length (cells s) → a + n ≤ length (cells s) → b + n ≤ length (cells s) →
  (∀ cs, length cs = length (cells s) →
     (∀ j, j < length (cells s) → cs !! wrap (length (cells s)) (h + j) =
        if decide (b ≤ j < b + n) then cells s !! wrap (length (cells s)) (h + (a + (j - b)))
        else cells s !! wrap (length (cells s)) (h + j)) → Q () (set_cells cs s)) →
  wp (wrap_copy el src dst n) Q P s.
Proof.
  intros -> -> Hs Hh Ha Hb HQ. apply wp_wrap_copy; [done|ring_cases; lia|ring_cases; lia| |].
  { unfold abs_diff. ring_cases; lia. }
  intros cs Hcs. apply HQ; [apply Hcs|]. intros j Hj. destruct (decide (n = 0)) as [->|Hn].
  - rewrite decide_False by lia. by rewrite (ring_moved_none _ _ _ _ Hcs).
  - apply (ring_moved_lookup (cells s) cs h a b n j); [done|done|lia..].
Qed.

(** The gap between [l1] and [l2] is filled. *)
Lemma write_gap l1 x l2 h s s' (Q : () → deque T → Prop) P :
  h < length (cells s) → length l1 + length l2 < length (cells s) →
  raw_ok el s' → block s' = block s → length (cells s') = length (cells s) →
  regs s' = Ring h (length l1 + length l2 + 1) →
  (∀ j y, l1 !! j = Some y → cells s' !! wrap (length (cells s)) (h + j) = Some (Some y)) →
  (∀ j y, l2 !! j = Some y →
     cells s' !! wrap (length (cells s)) (h + (length l1 + 1 + j)) = Some (Some y)) →
  (∀ s2, deque_is el (l1 ++ x :: l2) s2 → dropped s2 = dropped s' → Q () s2) →
  wp (idx ← to_physical_idx el (length l1); buffer_write idx x) Q P s'.
Proof.
  intros Hh Hroom Hs' Hb' Hc' Hreg H1 H2 HQ.
  apply wp_bind, wp_to_physical_idx; [done|rewrite Hreg, Hc'; cbn; lia|]. rewrite Hreg, Hc'. cbn [head].
  apply wp_wr_cell; [rewrite Hc'; ring_cases; lia|]. apply HQ; [|done].
  apply (deque_intro el _ h s'); cbn; rewrite ?length_insert, ?Hc'; try done; [|len|by left|].
  { rewrite Hreg. f_equal. len. }
  intros j y [Hj|[Hlt Hj]]%lookup_app_Some.
  - pose proof (lookup_lt_Some _ _ _ Hj). rewrite list_lookup_insert_ne by (ring_cases; lia). by apply H1.
  - destruct (j - length l1) as [|k] eqn:Hk.
    + injection Hj as <-. replace j with (length l1) by lia. apply list_lookup_insert_eq. ring_cases; lia.
    + simpl in Hj. pose proof (lookup_lt_Some _ _ _ Hj).
      rewrite list_lookup_insert_ne by (ring_cases; lia).
      replace j with (length l1 + 1 + k) by lia. by apply H2.
Qed.

Lemma deque_insert_spec (X : Prop) l i x s : (aborts alloc_ok drop_panics → X) → deque_is el l s →
  wpa X (insert el alloc_ok drop_panics i x)
    (λ _ s', i ≤ length l ∧ deque_is el (take i l ++ x :: drop i l) s' ∧ dropped s' = dropped s)
    (λ s', (length l < i ∨ crowded l) ∧ deque_is el l s' ∧
       dropped s' = x :: dropped s) s.
Proof.
  intros HX Hl. unfold insert. apply wpa_bind, wpa_wp, wp_gets. rewrite (deque_len el l s Hl).
  destruct (Nat.leb_spec i (length l)) as [Hi|Hi].
  2:{ apply wpa_bind, wpa_on_panic, wpa_wp, wp_panic, wpa_wp, wp_drop_value;
        [|intros ?; apply HX; right; by do 2 eexists].
      split; [by left|]. split; [|done]. by apply (deque_same el l s). }
  apply wpa_bind, wpa_on_panic, wpa_ret.
  apply wpa_bind, (deque_make_room_spec X l); [done|done| |intros s' ???; split_and!; [by right|done|done]].
  intros s1 Hl1 Hroom Hd1. apply wpa_wp. pose proof Hl1 as (Hr1&_&_&Hcells).
  pose proof (ring_room el _ _ Hr1 Hroom) as Hh. destruct Hr1 as [Hs1 _].
  destruct (list_split_at l i Hi) as (l1&l2&->&<-). rewrite take_app_length, drop_app_length.
  apply wp_bind, wp_gets. rewrite (deque_len el _ s1 Hl1). rewrite length_app in Hroom, Hi |- *.
  replace (length l1 + length l2 - length l1) with (length l2) by lia.
  destruct (Nat.ltb_spec (length l2) (length l1)).
  - apply wp_bind, wp_to_physical_idx; [done|lia|]. apply wp_bind, wp_to_physical_idx; [done|lia|].
    eapply wp_bind, wp_move_block; [done|done|done|done|lia|lia|]. intros cs Hlc Hlk.
    apply wp_bind, wp_modify. apply (write_gap l1 x l2 (head (regs s1)) s1); cbn;
      [done|done|by apply (raw_ok_set_cells el cs s1)|done|done|done| | |intros s2' ? Hd2; split_and!; [lia|done|by rewrite Hd2]].
    + intros j y Hj. pose proof (lookup_lt_Some _ _ _ Hj). rewrite Hlk, decide_False by lia.
      apply Hcells. by apply lookup_app_l_Some.
    + intros j y Hj. pose proof (lookup_lt_Some _ _ _ Hj). rewrite Hlk, decide_True by lia.
      rewrite <- (Hcells (length l1 + j) y); [f_equal; f_equal; lia|].
      rewrite lookup_app_r by lia. by replace (length l1 + j - length l1) with j by lia.
  - apply wp_bind, wp_gets. apply wp_bind, wp_wrap_sub; [done|lia|lia|lia|].
    apply wp_bind, wp_modify. set (h := wrap _ _).
    assert (h < length (cells s1)) as Hh' by (unfold h; ring_cases; lia).
    assert (wrap (length (cells s1)) (h + 1) = head (regs s1)) as Hh1 by (unfold h; ring_cases; lia).
    assert (∀ j, j < length (cells s1) →
      wrap (length (cells s1)) (h + (1 + j)) = wrap (length (cells s1)) (head (regs s1) + j)) as Hshift.
    { intros j Hj. unfold h. ring_cases; lia. }
    clearbody h. set (s2 := set_regs _ _). change (length (cells s1)) with (length (cells s2)) in *.
    apply wp_bind, (wp_move_block h 1 0);
      [by rewrite Hh1|ring_cases; lia|done|done|cbn in *; lia|cbn in *; lia|]. intros cs Hlc Hlk.
    apply wp_bind, wp_modify. apply (write_gap l1 x l2 h s1); cbn;
      [done|done|by apply (raw_ok_set_cells el cs s1)|done|done|done| | |intros s2' ? Hd2; split_and!; [lia|done|by rewrite Hd2]].
    + intros j y Hj. pose proof (lookup_lt_Some _ _ _ Hj). rewrite Hlk, decide_True by (cbn in *; lia).
      rewrite Nat.sub_0_r, Hshift by (cbn in *; lia). apply Hcells. by apply lookup_app_l_Some.
    + intros j y Hj. pose proof (lookup_lt_Some _ _ _ Hj). rewrite Hlk, decide_False by (cbn in *; lia).
      replace (length l1 + 1 + j) with (1 + (length l1 + j)) by lia. rewrite Hshift by (cbn in *; lia).
      apply Hcells. rewrite lookup_app_r by lia. by replace (length l1 + j - length l1) with j by lia.
Qed.

Lemma remove_spec l i s : deque_is el l s →
  wp (remove el i)
    (λ o s', o = l !! i ∧ deque_is el (take i l ++ drop (S i) l) s' ∧ dropped s' = dropped s)
    (λ _, False) s.
Proof.
  intros Hl. unfold remove. apply wp_bind, wp_gets. rewrite (deque_len el l s Hl).
  destruct (Nat.leb_spec (length l) i) as [Hi|Hi].
  { apply wp_ret. by rewrite lookup_ge_None_2, take_ge, drop_ge, app_nil_r by lia. }
  destruct (list_split_mid l i) as (l1&x&l2&->&<-); [done|].
  rewrite lookup_mid, take_app_length, (cons_middle x), app_assoc, drop_app_length'
    by (rewrite ?length_app; simpl; lia || done).
  rewrite <- app_assoc. rewrite length_app in Hi |- *. simpl in *.
  pose proof (deque_raw el _ s Hl) as Hs. pose proof (deque_cap el _ s Hl) as Hcap. rewrite length_app in Hcap. simpl in Hcap.
  assert (head (regs s) < length (cells s)) as Hh by (apply (deque_head el _ s Hl); by destruct l1).
  pose proof Hl as (_&_&_&Hcells).
  assert (∀ j y, l1 !! j = Some y → cells s !! wrap (length (cells s)) (head (regs s) + j) = Some (Some y)) as H1.
  { intros j y Hj. apply Hcells. by apply lookup_app_l_Some. }
  assert (∀ j y, l2 !! j = Some y →
    cells s !! wrap (length (cells s)) (head (regs s) + (length l1 + 1 + j)) = Some (Some y)) as H2.
  { intros j y Hj. apply Hcells. rewrite lookup_app_r by lia.
    by replace (length l1 + 1 + j - length l1) with (S j) by lia. }
  apply wp_bind, wp_to_physical_idx; [done|lia|].
  apply wp_bind. eapply wp_rd_cell; [apply Hcells; by apply lookup_mid|].
  replace (length l1 + S (length l2) - length l1 - 1) with (length l2) by lia.
  assert (∀ P h cs s', h < length (cells s) → block s' = block s → dropped s' = dropped s →
    cells s' = cs → length cs = length (cells s) → regs s' = Ring h (length l1 + length l2) →
    (∀ j y, l1 !! j = Some y → cs !! wrap (length (cells s)) (h + j) = Some (Some y)) →
    (∀ j y, l2 !! j = Some y → cs !! wrap (length (cells s)) (h + (length l1 + j)) = Some (Some y)) →
    wp (mret (Some x)) (λ o s', o = Some x ∧ deque_is el (l1 ++ l2) s' ∧ dropped s' = dropped s) P s')
    as Hdone.
  { intros P h cs s' Hh' Hb' Hd' Hc' Hlc Hreg G1 G2. apply wp_ret. split_and!; [done| |done].
    apply (deque_intro el _ h s); [done|done|by rewrite Hc'|by rewrite length_app|len|by left|].
    rewrite Hc'. intros j y [Hj|[Hlt Hj]]%lookup_app_Some; [by apply G1|].
    replace j with (length l1 + (j - length l1)) by lia. by apply G2. }
  apply wp_bind. destruct (Nat.ltb_spec (length l2) (length l1)).
  - assert (wrap (length (cells s)) (head (regs s) + length l1) < length (cells s)) by (ring_cases; lia).
    apply wp_bind, wp_wrap_add; [done|lia|].
    eapply wp_bind, (wp_move_block (head (regs s)) (length l1 + 1) (length l1));
      [ring_cases; lia|done|done|done|lia|lia|].
    intros cs Hlc Hlk. apply wp_modify.
    apply (Hdone _ (head (regs s)) cs); cbn; [done|done|done|done|done|f_equal; lia|..].
    + intros j y Hj. pose proof (lookup_lt_Some _ _ _ Hj). rewrite Hlk, decide_False by lia. by apply H1.
    + intros j y Hj. pose proof (lookup_lt_Some _ _ _ Hj). rewrite Hlk, decide_True by lia.
      rewrite <- (H2 j y) by done. f_equal. f_equal. lia.
  - apply wp_bind, wp_gets. apply wp_bind, wp_to_physical_idx; [done|lia|].
    apply wp_bind, wp_modify. set (h := wrap (length (cells s)) (head (regs s) + 1)).
    assert (h < length (cells s)) as Hh' by (unfold h; ring_cases; lia).
    assert (∀ j, j < length (cells s) →
      wrap (length (cells s)) (h + j) = wrap (length (cells s)) (head (regs s) + (1 + j)) ∨
      j = length (cells s) - 1) as Hshift.
    { intros j Hj. unfold h. ring_cases; lia. }
    assert (h = wrap (length (cells s)) (head (regs s) + 1)) as Hheq by done. clearbody h.
    set (s2 := set_regs _ _). change (length (cells s)) with (length (cells s2)) in *.
    apply wp_bind, (wp_move_block (head (regs s)) 0 1);
      [ring_cases; lia|done|done|done|cbn in *; lia|cbn in *; lia|].
    intros cs Hlc Hlk. apply wp_modify.
    apply (Hdone _ h cs); cbn; [done|done|done|done|done|f_equal; lia|..].
    + intros j y Hj. pose proof (lookup_lt_Some _ _ _ Hj). cbn in *.
      destruct (Hshift j ltac:(lia)) as [->|?]; [|lia].
      rewrite Hlk, decide_True by lia. rewrite <- (H1 j y) by done. f_equal. f_equal. lia.
    + intros j y Hj. pose proof (lookup_lt_Some _ _ _ Hj). cbn in *.
      destruct (Hshift (length l1 + j) ltac:(lia)) as [->|?]; [|lia].
      rewrite Hlk, decide_False by lia. rewrite <- (H2 j y) by done. f_equal. f_equal. lia.
Qed.

(** [swap_remove_front] and [swap_remove_back] on lists. *)
Definition swap_removed_front i l : list T :=
  if decide (i < length l) then tail (from_option (λ y, <[i := y]> l) l (l !! 0)) else l.
Definition swap_removed_back i l : list T :=
  if decide (i < length l) then removelast (from_option (λ y, <[i := y]> l) l (last l)) else l.

Lemma swap_remove_front_spec l i s : deque_is el l s →
  wp (swap_remove_front el i)
    (λ o s', o = l !! i ∧ deque_is el (swap_removed_front i l) s' ∧ dropped s' = dropped s)
    (λ _, False) s.
Proof.
  intros Hl. unfold swap_remove_front, swap_removed_front. apply wp_bind, wp_gets.
  rewrite (deque_len el l s Hl). destruct (Nat.ltb_spec i (length l)) as [Hi|Hi].
  2:{ rewrite (proj2 (Nat.leb_le _ _) Hi), decide_False by lia. apply wp_ret.
      by rewrite lookup_ge_None_2 by lia. }
  rewrite decide_True by done. destruct l as [|y l]; [simpl in Hi; lia|].
  rewrite (proj2 (Nat.leb_gt _ _) Hi). destruct i as [|i]; cbn [Nat.eqb negb andb].
  { by apply pop_front_spec. }
  apply wp_bind. eapply wp_mono; [by apply deque_swap_spec| |].
  - intros [] s2 (x&z&Hx&Hz&Hl2&Hd2). simpl in Hx, Hz. injection Hz as <-.
    eapply wp_mono; [by apply pop_front_spec| |done]. intros o s3 (->&Hl3&Hd3). simpl in *.
    split_and!; [done|done|congruence].
  - intros s2 (_&[?|?]); simpl in *; lia.
Qed.

Lemma swap_remove_back_spec l i s : deque_is el l s →
  wp (swap_remove_back el i)
    (λ o s', o = l !! i ∧ deque_is el (swap_removed_back i l) s' ∧ dropped s' = dropped s)
    (λ _, False) s.
Proof.
  intros Hl. unfold swap_remove_back, swap_removed_back. apply wp_bind, wp_gets.
  rewrite (deque_len el l s Hl). destruct (decide (i < length l)) as [Hi|Hi].
  2:{ destruct (Nat.ltb_spec i (length l - 1)); [lia|]. rewrite andb_false_r.
      rewrite (proj2 (Nat.leb_le _ _)) by lia. apply wp_ret. by rewrite lookup_ge_None_2 by lia. }
  destruct (list_snoc_inv l) as (l'&y&->); [by intros ->; simpl in Hi; lia|].
  rewrite last_snoc. cbn [from_option]. rewrite length_app in *. simpl in *.
  rewrite (proj2 (Nat.ltb_lt 0 _)), (proj2 (Nat.leb_gt _ _) Hi) by lia. cbn [andb].
  replace (length l' + 1 - 1) with (length l') by lia.
  destruct (Nat.ltb_spec i (length l')).
  - rewrite insert_app_l, removelast_last, lookup_app_l by done.
    apply wp_bind. eapply wp_mono; [by apply deque_swap_spec| |].
    + intros [] s2 (x&z&Hx&Hz&Hl2&Hd2). rewrite lookup_app_l in Hx by done.
      rewrite lookup_mid in Hz by done. injection Hz as <-.
      rewrite insert_app_l, insert_mid in Hl2 by (by rewrite ?length_insert).
      eapply wp_mono; [by apply pop_back_spec| |done]. intros o s3 (->&Hl3&Hd3).
      rewrite last_snoc, Hx. rewrite removelast_last in Hl3. split_and!; [done|done|congruence].
    + intros s2 (_&Hbad). rewrite length_app in Hbad. simpl in Hbad. lia.
  - assert (i = length l') as -> by lia. rewrite insert_mid, lookup_mid by done.
    eapply wp_mono; [by apply pop_back_spec| |done]. intros o s3 (->&Hl3&Hd3).
    by rewrite last_snoc.
Qed.
End spec.
