(* ===== verification/DequeBulkSpec.v ===== *)
(** What the operations of [VecDeque] that move or drop many elements do. *)

From S2P Require Import Prelude.
From S2P Require Import Layout.
From S2P Require Import RawVec.
From S2P Require Import Cells.
From S2P Require Import VecSpec.
From S2P Require Import VecDeque.
From S2P Require Import RingSpec.
From S2P Require Import DequeSpec.

Section spec.
Context {T : Type} (el : Layout) (alloc_ok : Layout → bool) (drop_panics : nat → T → bool).
Hypothesis Hel : elem_ok el.
Implicit Types (s o : deque T) (l xs : list T) (i n p : nat) (x : T).

Abbreviation wp_ring_copy := (wp_ring_copy el alloc_ok Hel).
Abbreviation wp_ring_copy_nonoverlapping := (wp_ring_copy_nonoverlapping el alloc_ok Hel).
Abbreviation wp_capacity := (wp_capacity el alloc_ok Hel).
Abbreviation wp_wrap_copy := (wp_wrap_copy el alloc_ok Hel).
Abbreviation wp_wrap_sub := (wp_wrap_sub el alloc_ok Hel).
Abbreviation wp_to_physical_idx := (wp_to_physical_idx el alloc_ok Hel).

(** ** The two halves *)
Lemma as_slices_spec l s (Q : list T * list T → deque T → Prop) P : deque_is el l s →
  (∀ a b, l = a ++ b → length a = Nat.min (length l) (length (cells s) - head (regs s)) → Q (a, b) s) →
  wp (as_slices el) Q P s.
Proof.
  intros Hl HQ. pose proof (deque_raw el l s Hl) as Hs. pose proof (deque_cap el l s Hl) as Hcap.
  unfold as_slices, slice_ranges, buffer_range. apply wp_bind, wp_gets. rewrite (deque_len el l s Hl).
  rewrite Nat.leb_refl. cbn [Nat.leb andb negb]. rewrite Nat.sub_0_r.
  destruct (Nat.eqb_spec (length l) 0) as [H0|H0].
  { apply wp_bind, wp_ret. apply nil_length_inv in H0 as ->. do 2 apply wp_bind, wp_ret. apply wp_ret.
    by apply HQ. }
  assert (head (regs s) < length (cells s)) as Hh by (apply (deque_head el l s Hl); by intros ->).
  apply wp_bind, wp_bind, wp_to_physical_idx; [done|lia|].
  replace (wrap (length (cells s)) (head (regs s) + 0)) with (head (regs s)) by (ring_cases; lia).
  apply wp_bind, wp_capacity; [done|]. apply wp_bind, wp_usub; [lia|].
  pose proof Hl as (_&_&_&Hcells).
  destruct (Nat.leb_spec (length l) (length (cells s) - head (regs s))).
  - apply wp_ret. cbn [fst snd]. rewrite Nat.sub_diag. apply wp_bind.
    replace (head (regs s) + length l - head (regs s)) with (length l) by lia.
    apply (wp_rd_cells drop_panics).
    { intros k x Hk. pose proof (lookup_lt_Some _ _ _ Hk). rewrite <- (Hcells k x) by done.
      f_equal. ring_cases; lia. }
    apply wp_bind, wp_ret, wp_ret. apply HQ; [by rewrite app_nil_r|lia].
  - destruct (list_split_at l (length (cells s) - head (regs s))) as (a&b&->&Ha); [lia|].
    rewrite length_app in *. apply wp_ret. cbn [fst snd]. rewrite Nat.sub_0_r.
    apply wp_bind. rewrite <- Ha at 1. apply (wp_rd_cells drop_panics).
    { intros k x Hk. pose proof (lookup_lt_Some _ _ _ Hk).
      rewrite <- (Hcells k x) by by apply lookup_app_l_Some. f_equal. ring_cases; lia. }
    apply wp_bind. replace (length a + length b - (length (cells s) - head (regs s))) with (length b) by lia.
    apply (wp_rd_cells drop_panics).
    { intros k x Hk. pose proof (lookup_lt_Some _ _ _ Hk).
      rewrite <- (Hcells (length a + k) x); [f_equal; ring_cases; lia|].
      rewrite lookup_app_r by lia. by replace (length a + k - length a) with k by lia. }
    apply wp_ret, HQ; [done|lia].
Qed.

Lemma drop_both_spec (X : Prop) front back s : (drops_panic drop_panics → X) →
  wpa X (drop_both drop_panics front back) (λ _, dropping (front ++ back) s)
    (λ s', drops_panic drop_panics ∧ dropping (front ++ back) s s') s.
Proof.
  intros HX. assert (∀ s1 s2, dropping front s s1 → dropping back s1 s2 → dropping (front ++ back) s s2) as Htr.
  { intros s1 s2 (R1&C1&B1&D1) (R2&C2&B2&D2). split_and!; [congruence..|].
    by rewrite D2, D1, reverse_app, <- app_assoc. }
  unfold drop_both. apply wpa_bind, wpa_on_panic.
  eapply wpa_mono; [by apply drop_values_spec| |].
  - intros [] s1 Hs1. eapply wpa_mono; [by apply drop_values_spec| |].
    + intros [] s2 Hs2. by eapply Htr.
    + intros s2 [? Hs2]. split; [done|by eapply Htr].
  - intros s1 [HP Hs1]. eapply wpa_mono; [by apply drop_values_spec| |].
    + intros [] s2 Hs2. split; [done|by eapply Htr].
    + intros s2 _. by apply HX.
Qed.

Lemma deque_truncate_spec (X : Prop) l n s : (drops_panic drop_panics → X) → deque_is el l s →
  wpa X (truncate el drop_panics n)
    (λ _ s', deque_is el (take n l) s' ∧ dropped s' = reverse (drop n l) ++ dropped s)
    (λ s', drops_panic drop_panics ∧
       deque_is el (take n l) s' ∧ dropped s' = reverse (drop n l) ++ dropped s) s.
Proof.
  intros HX Hl. unfold truncate. apply wpa_bind, wpa_wp, wp_gets. rewrite (deque_len el l s Hl).
  destruct (Nat.leb_spec (length l) n).
  { apply wpa_ret. by rewrite take_ge, drop_ge by lia. }
  apply wpa_bind, wpa_wp. eapply as_slices_spec; [done|]. intros a b Hab Ha.
  set (s1 := set_regs (Ring (head (regs s)) n) s).
  assert (∀ s', dropping (drop n l) s1 s' →
    deque_is el (take n l) s' ∧ dropped s' = reverse (drop n l) ++ dropped s) as Hd.
  { intros s' (Hr'&Hc'&Hb'&Hd'). split; [|done].
    eapply (deque_part el [] (take n l) (drop n l) _ s); [simpl; by rewrite take_drop|done|done| |].
    - rewrite Hr', length_take_le by lia. done.
    - simpl. rewrite Nat.add_0_r. pose proof (deque_head el l s Hl). unfold wrap. case_bool; [|done].
      destruct l; simpl in *; [lia|]. specialize (H0 ltac:(done)). lia. }
  destruct (Nat.ltb_spec (length a) n).
  - apply wpa_bind, wpa_wp, wp_assume; [apply Nat.leb_le; rewrite Hab, length_app in *; lia|].
    apply wpa_bind, wpa_wp, wp_modify.
    assert (drop (n - length a) b = drop n l) as ->.
    { rewrite Hab, drop_app_ge by lia. done. }
    eapply wpa_mono; [by apply drop_values_spec|intros [] s'; apply Hd|].
    intros s' [? Hs']. split; [done|by apply Hd].
  - apply wpa_bind, wpa_wp, wp_modify.
    assert (drop n a ++ b = drop n l) as Heq by (by rewrite Hab, drop_app_le by lia).
    eapply wpa_mono; [by apply drop_both_spec| |]; rewrite Heq; [intros [] s'; apply Hd|].
    intros s' [? Hs']. split; [done|by apply Hd].
Qed.

Lemma truncate_front_spec (X : Prop) l n s : (drops_panic drop_panics → X) → deque_is el l s →
  let k := length l - n in
  wpa X (truncate_front el drop_panics n)
    (λ _ s', deque_is el (drop k l) s' ∧ dropped s' = reverse (take k l) ++ dropped s)
    (λ s', drops_panic drop_panics ∧
       deque_is el (drop k l) s' ∧ dropped s' = reverse (take k l) ++ dropped s) s.
Proof.
  intros HX Hl k. unfold truncate_front. apply wpa_bind, wpa_wp, wp_gets. rewrite (deque_len el l s Hl).
  destruct (Nat.leb_spec (length l) n).
  { apply wpa_ret. unfold k. by replace (length l - n) with 0 by lia. }
  assert (head (regs s) < length (cells s)) as Hh.
  { apply (deque_head el l s Hl). intros ->. simpl in *. lia. }
  apply wpa_bind, wpa_wp. eapply as_slices_spec; [done|]. intros a b Hab Ha.
  assert (length l = length a + length b) as Hlen by (by rewrite Hab, length_app).
  pose proof (deque_cap el l s Hl).
  assert (∀ h s', h = wrap (length (cells s)) (head (regs s) + k) →
    dropping (take k l) (set_regs (Ring h n) s) s' →
    deque_is el (drop k l) s' ∧ dropped s' = reverse (take k l) ++ dropped s) as Hd.
  { intros h s' Hhd (Hr'&Hc'&Hb'&Hd'). split; [|done].
    eapply (deque_part el (take k l) (drop k l) [] _ s); [by rewrite app_nil_r, take_drop|done|done| |].
    - rewrite Hr', length_drop. cbn. f_equal. lia.
    - rewrite length_take_le by lia. done. }
  destruct (Nat.ltb_spec (length b) n).
  - apply wpa_bind, wpa_wp, wp_usub; [lia|]. apply wpa_bind, wpa_wp, wp_gets.
    apply wpa_bind, wpa_wp, wp_modify. apply wpa_bind, wpa_wp, wp_modify.
    replace (length a - (n - length b)) with k by lia.
    assert (take k a = take k l) as -> by (by rewrite Hab, take_app_le by lia).
    assert (head (regs s) + k = wrap (length (cells s)) (head (regs s) + k)) as Heq by (ring_cases; lia).
    eapply wpa_mono; [by apply drop_values_spec|intros [] s'; by apply Hd|].
    intros s' [? Hs']. split; [done|by eapply Hd].
  - apply wpa_bind, wpa_wp, wp_to_physical_idx; [by eapply deque_raw|lia|].
    apply wpa_bind, wpa_wp, wp_modify. apply wpa_bind, wpa_wp, wp_modify.
    assert (a ++ take (length b - n) b = take k l) as Heq.
    { rewrite Hab, take_app_ge by lia. f_equal. f_equal. lia. }
    eapply wpa_mono; [by apply drop_both_spec| |]; rewrite Heq; [intros [] s'; by apply Hd|].
    intros s' [? Hs']. split; [done|by eapply Hd].
Qed.

Lemma clear_spec (X : Prop) l s : (drops_panic drop_panics → X) → deque_is el l s →
  wpa X (clear el drop_panics) (λ _ s', deque_is el [] s' ∧ dropped s' = reverse l ++ dropped s)
    (λ s', drops_panic drop_panics ∧ deque_is el [] s' ∧ dropped s' = reverse l ++ dropped s) s.
Proof.
  intros HX Hl. unfold clear. apply wpa_bind. eapply wpa_mono; [by apply (deque_truncate_spec X l 0)| |done].
  intros [] s1 [Hl1 Hd1]. apply wpa_wp, wp_modify. split; [|done].
  pose proof (deque_raw el _ s1 Hl1). apply (deque_intro el [] 0 s1); cbn; try done.
  - by rewrite (deque_len el _ s1 Hl1).
  - lia.
  - lia.
Qed.

(** ** Shrinking *)
(** Between the move of the elements and the shrinking of the buffer: the ring of
    the first [tc] cells holds [l]; and if it goes round, the elements can be put
    back, because the cells they came from are at [old_head]. *)
Definition shrink_inv l tc old_head s : Prop :=
  raw_ok el s ∧ dlen (regs s) = length l ∧ length l ≤ tc < length (cells s) ∧
  (head (regs s) < tc ∨ tc = 0 ∧ head (regs s) = 0) ∧
  (∀ i x, l !! i = Some x → cells s !! wrap tc (head (regs s) + i) = Some (Some x)) ∧
  (tc - length l < head (regs s) →
     old_head + (tc - head (regs s)) = length (cells s) ∨
     old_head = head (regs s) ∧
     ∀ i x, l !! i = Some x → cells s !! wrap (length (cells s)) (old_head + i) = Some (Some x)).

Lemma set_regs_id s : set_regs (regs s) s = s.
Proof. by destruct s. Qed.

Lemma shrink_intro l tc old_head s cs h n :
  raw_ok el s → length cs = length (cells s) → n = length l →
  length l ≤ tc < length (cells s) → h < tc ∨ tc = 0 ∧ h = 0 →
  (∀ i x, l !! i = Some x → cs !! wrap tc (h + i) = Some (Some x)) →
  (tc - length l < h → old_head + (tc - h) = length (cells s) ∨
     old_head = h ∧ ∀ i x, l !! i = Some x → cs !! wrap (length (cells s)) (old_head + i) = Some (Some x)) →
  shrink_inv l tc old_head (set_regs (Ring h n) (set_cells cs s)).
Proof.
  intros Hs Hc -> Htc Hh HA HB. split; [by apply (raw_ok_set_cells el cs s)|].
  destruct Htc. cbn. rewrite Hc. by split_and!.
Qed.

Lemma shrink_move_spec l tc s : deque_is el l s → length l ≤ tc < length (cells s) →
  wp (shrink_move el tc)
    (λ _ s', shrink_inv l tc (head (regs s)) s' ∧ length (cells s') = length (cells s) ∧
       dropped s' = dropped s) (λ _, False) s.
Proof.
  intros Hl Htc. pose proof (deque_raw el l s Hl) as Hs. pose proof (deque_len el l s Hl) as Hn.
  pose proof Hl as (Hr&_&_&Hcells). pose proof (ring_room el s (length l) Hr ltac:(lia)) as Hh.
  assert (∀ i x, l !! i = Some x → i < length l ∧
    cells s !! wrap (length (cells s)) (head (regs s) + i) = Some (Some x)) as Hls.
  { intros i x Hi. split; [by eapply lookup_lt_Some|by apply Hcells]. }
  unfold shrink_move. apply wp_bind, wp_gets. apply wp_bind, wp_gets. apply wp_bind, wp_capacity; [done|].
  cbv zeta. rewrite Hn. set (h := head (regs s)) in *. set (n := length l) in *. set (c := length (cells s)) in *.
  assert (regs s = Ring h n) as Hregs by (unfold h; rewrite <- Hn; by destruct (regs s)).
  destruct (Nat.eqb_spec n 0) as [H0|H0].
  { apply wp_modify. split; [|done].
    replace s with (set_cells (cells s) s) by by destruct s.
    apply (shrink_intro l tc h s (cells s) 0); [done|done|cbn; lia|done|lia| |lia].
    intros i x [Hi _]%Hls. lia. }
  destruct (Nat.leb_spec (tc + 1) (h + n)), (Nat.leb_spec (h + n) c); cbn [andb].
  1: { destruct (Nat.leb_spec tc h), (Nat.ltb_spec h tc); cbn [andb]; try lia.
    - apply wp_bind, wp_ring_copy_nonoverlapping; [done|fold c; lia|fold c; lia|lia|]. intros cs [Hlc Hlk].
      apply wp_modify. split; [|done]. apply (shrink_intro l tc h s cs 0); [done|done|done|done|lia| |lia].
      intros i x [Hi Hx]%Hls. rewrite Hlk, <- Hx. ring_cases; f_equal; lia.
    - apply wp_ring_copy_nonoverlapping; [done|fold c; lia|fold c; lia|lia|]. intros cs [Hlc Hlk].
      split; [|done]. rewrite <- (set_regs_id s), Hregs.
      apply (shrink_intro l tc h s cs h); [done|done|done|done|lia| |].
      + intros i x [Hi Hx]%Hls. rewrite Hlk, <- Hx. ring_cases; f_equal; lia.
      + intros _. right. split; [done|]. intros i x [Hi Hx]%Hls. rewrite Hlk, <- Hx. fold c.
        ring_cases; f_equal; lia. }
  all: rewrite ?andb_false_r; cbn [andb]; unfold is_contiguous.
  all: apply wp_bind, wp_bind, wp_gets; fold h.
  all: apply wp_bind, wp_capacity; [done|]; fold c.
  all: apply wp_bind, wp_gets; rewrite Hn; apply wp_bind, wp_usub; [lia|]; apply wp_ret.
  all: destruct (Nat.leb_spec h (c - n)); try lia.
  all: try (apply wp_bind, wp_usub; [lia|]; apply wp_bind, wp_usub; [lia|]).
  2:{ apply wp_ret. split; [|done]. rewrite <- (set_regs_id s), Hregs.
    apply (shrink_intro l tc h s (cells s) h); [done|done|done|done|lia| |lia].
    intros i x [Hi Hx]%Hls. rewrite <- Hx. f_equal. ring_cases; lia. }
  all: apply wp_bind, wp_ring_copy; [done|fold c; lia|fold c; lia|]; intros cs [Hlc Hlk].
  all: apply wp_modify; (split; [|done]).
  all: apply (shrink_intro l tc h s cs (tc - (c - h))); [done|done|done|done|lia| |fold c; lia].
  all: intros i x [Hi Hx]%Hls; rewrite Hlk, <- Hx; ring_cases; f_equal; lia.
Qed.

(** [abort_shrink] gives the elements back whichever way they had been moved. *)
Lemma abort_shrink_spec l tc old_head s :
  shrink_inv l tc old_head s →
  wp (abort_shrink el old_head tc)
    (λ _ s', deque_is el l s' ∧ length (cells s') = length (cells s) ∧ dropped s' = dropped s)
    (λ _, False) s.
Proof.
  intros (Hs&Hn&Htc&Hh&Hl&Hback). unfold abort_shrink. apply wp_bind, wp_gets. apply wp_bind, wp_gets.
  assert (∀ i x, l !! i = Some x → i < length l ∧ cells s !! wrap tc (head (regs s) + i) = Some (Some x)) as Hls.
  { intros i x Hi. split; [by eapply lookup_lt_Some|by apply Hl]. }
  rewrite Hn. apply wp_bind, wp_usub; [lia|].
  set (h := head (regs s)) in *. set (n := length l) in *. set (c := length (cells s)) in *.
  assert (regs s = Ring h n) as Hregs by (unfold h; rewrite <- Hn; by destruct (regs s)).
  destruct (Nat.leb_spec h (tc - n)) as [|Hwrap].
  { apply wp_ret. split; [|done]. apply (deque_intro el l h s); [done|done|done|done|fold n c; lia|fold c; lia|].
    fold c. intros i x [Hi Hx]%Hls. rewrite <- Hx. f_equal. ring_cases; lia. }
  apply wp_bind, wp_usub; [lia|]. apply wp_bind, wp_usub; [lia|]. apply wp_bind, wp_capacity; [done|].
  fold c. apply wp_bind, wp_usub; [lia|].
  destruct (Nat.leb_spec (n - (tc - h)) (Nat.min (tc - h) (c - tc))).
  - apply wp_ring_copy_nonoverlapping; [done|fold c; lia|fold c; lia|lia|]. intros cs [Hlc Hlk].
    split; [|done]. apply (deque_intro el l h s); cbn; [done|done|done|done|fold n c; lia|fold c; lia|].
    fold c. intros i x [Hi Hx]%Hls. rewrite Hlk, <- Hx. ring_cases; f_equal; lia.
  - destruct (Hback Hwrap) as [Hold|[-> Hold]].
    + apply wp_bind, wp_ring_copy; [done|fold c; lia|fold c; lia|]. intros cs [Hlc Hlk].
      apply wp_modify. split; [|done].
      apply (deque_intro el l old_head s); cbn; [done|done|done|by rewrite Hn|fold n c; lia|fold c; lia|].
      fold c. intros i x [Hi Hx]%Hls. rewrite Hlk, <- Hx. ring_cases; f_equal; lia.
    + apply wp_bind, wp_ring_copy; [done|fold c; lia|fold c; lia|]. intros cs [Hlc Hlk].
      apply wp_modify. split; [|done].
      apply (deque_intro el l h s); cbn; [done|done|done|by rewrite Hn|fold n c; lia|fold c; lia|].
      fold c. intros i x Hi. rewrite Hlk, <- (Hold i x Hi). fold c. case_decide; [|done]. f_equal. lia.
Qed.

(** The allocator's answer is not known: the buffer shrinks, or the process
    aborts, or, where a failing allocation unwinds, the elements are put back. *)
Lemma shrink_to_spec (X : Prop) oom_unwinds l m s :
  (oom_unwinds = false → out_of_memory alloc_ok → X) → deque_is el l s →
  wpa X (shrink_to el alloc_ok oom_unwinds m)
    (λ _ s', deque_is el l s' ∧ dropped s' = dropped s ∧
       length (cells s') = Nat.min (length (cells s)) (Nat.max m (length l)))
    (λ s', (oom_unwinds = true ∧ out_of_memory alloc_ok) ∧ deque_is el l s' ∧ dropped s' = dropped s ∧
       length (cells s') = length (cells s)) s.
Proof.
  intros HX Hl. pose proof (deque_raw el l s Hl) as Hs. pose proof (deque_cap el l s Hl) as Hcap.
  unfold shrink_to. apply wpa_bind, wpa_wp, wp_gets. rewrite (deque_len el l s Hl).
  apply wpa_bind, wpa_wp, wp_capacity; [done|]. set (tc := Nat.max m (length l)).
  unfold is_zst. pose proof (elem_bounds el alloc_ok Hel).
  rewrite (proj2 (Z.eqb_neq (size el) 0)) by lia. cbn [orb].
  destruct (Nat.leb_spec (length (cells s)) tc) as [Htc|Htc]; [apply wpa_ret; split_and!; [done|done|lia]|].
  apply wpa_bind, wpa_wp, wp_gets. apply wpa_bind, wpa_wp.
  eapply wp_mono; [by apply (shrink_move_spec l tc s); [|lia]| |done].
  intros [] s1 (Hinv&Hc1&Hd1). pose proof Hinv as (Hs1&Hn1&_&Hh1&Hl1&_).
  assert (0 ≤ Z.of_nat tc ≤ raw_cap s1)%Z as Hrange by (unfold raw_cap; lia).
  apply wpa_bind, wpa_on_panic. unfold shrink_buf. apply wpa_bind. unfold wpa at 1.
  rewrite (shrink_eq el alloc_ok Hel) by done.
  assert (length (cells (shrunk el (Z.of_nat tc) s1)) = tc) as Hct.
  { cbn. rewrite length_take. lia. }
  destruct (_ || alloc_ok _) eqn:Hok.
  - apply wpa_ret. pose proof (shrunk_ok el alloc_ok Hel (Z.of_nat tc) s1 Hs1 Hrange) as Hs2.
    set (s2 := shrunk el (Z.of_nat tc) s1) in *.
    assert (deque_is el l s2) as Hl2.
    { apply (deque_intro el l (head (regs s1)) s2); [done|done|done| |lia|lia|].
      - rewrite <- Hn1. by destruct (regs s1) eqn:?; subst s2; cbn; rewrite Heqr.
      - intros i x Hi. rewrite Hct. unfold s2. cbn. rewrite Nat2Z.id. rewrite lookup_take_lt by (pose proof (lookup_lt_Some _ _ _ Hi); ring_cases; lia).
        by apply Hl1. }
    apply wpa_bind, wpa_wp, wp_gets. apply wpa_bind, wpa_wp, wp_capacity; [done|].
    apply wpa_bind, wpa_wp, wp_gets. rewrite (deque_len el l s2 Hl2), Hct.
    apply wpa_bind, wpa_wp, wp_assert.
    { rewrite orb_true_iff, Nat.ltb_lt, Nat.eqb_eq. unfold s2. cbn. lia. }
    apply wpa_wp, wp_assert; [apply Nat.leb_le; lia|]. split_and!; [done|done|lia].
  - assert (out_of_memory alloc_ok) as Hoom.
    { apply orb_false_iff in Hok as [_ Hok]. by eexists. }
    destruct oom_unwinds; [|by apply HX].
    apply wpa_wp, wp_panic, wpa_wp. eapply wp_mono; [by apply abort_shrink_spec| |done].
    intros [] s2 (Hl2&Hc2&Hd2). split_and!; [done|done|done|congruence|congruence].
Qed.
End spec.
