(* ===== verification/DequeMoveSpec.v ===== *)
(** What rotating, appending and filtering a [VecDeque] does. *)

From S2P Require Import Prelude.
From S2P Require Import Layout.
From S2P Require Import RawVec.
From S2P Require Import Cells.
From S2P Require Import VecSpec.
From S2P Require Import VecDeque.
From S2P Require Import RingSpec.
From S2P Require Import DequeSpec.
From S2P Require Import DequeBulkSpec.

Section spec.
Context {T : Type} (el : Layout) (alloc_ok : Layout → bool) (drop_panics : nat → T → bool).
Hypothesis Hel : elem_ok el.
Implicit Types (s o : deque T) (l xs : list T) (i n p : nat) (x : T).

Abbreviation wp_capacity := (wp_capacity el alloc_ok Hel).
Abbreviation wp_wrap_copy := (wp_wrap_copy el alloc_ok Hel).
Abbreviation wp_wrap_sub := (wp_wrap_sub el alloc_ok Hel).
Abbreviation wp_to_physical_idx := (wp_to_physical_idx el alloc_ok Hel).

(** ** Rotation *)
(** An empty deque has nothing to move. *)
Lemma wp_wrap_copy_self i s (Q : () → deque T → Prop) P :
  raw_ok el s → Q () s → wp (wrap_copy el i i 0) Q P s.
Proof.
  intros Hs HQ. unfold wrap_copy, abs_diff. rewrite Nat.ltb_irrefl, Nat.sub_diag.
  apply wp_bind, wp_capacity; [done|]. apply wp_bind, wp_usub; [lia|].
  apply wp_bind, wp_assert; [apply Nat.leb_le; lia|]. rewrite orb_true_r. by apply wp_ret.
Qed.

Lemma rotate_left_inner_nil s : deque_is el [] s →
  wp (rotate_left_inner el 0) (λ _ s', deque_is el [] s' ∧ dropped s' = dropped s) (λ _, False) s.
Proof.
  intros Hl. pose proof (deque_raw el _ s Hl) as Hs. pose proof (deque_len el _ s Hl) as Hn.
  destruct Hl as ([_ Hh]&Hrest). assert (wrap (length (cells s)) (head (regs s) + 0) = head (regs s)) as Hw.
  { unfold wrap. rewrite Nat.add_0_r. destruct Hh as [?|[-> ->]]; [|done]. case_bool; [lia|done]. }
  unfold rotate_left_inner. apply wp_bind, wp_gets. rewrite Hn. apply wp_bind, wp_assert; [done|].
  apply wp_bind, wp_gets. apply wp_bind, wp_to_physical_idx; [done|lia|]. simpl length. rewrite Hw.
  apply wp_bind, wp_wrap_copy_self; [done|]. apply wp_bind, wp_to_physical_idx; [done|lia|]. rewrite Hw.
  apply wp_modify. split; [|done]. apply (deque_same el [] s); [|done..|cbn; by destruct (regs s)].
  split; [by split|done].
Qed.

Lemma rotate_left_inner_spec l mid s : deque_is el l s → mid * 2 ≤ length l →
  wp (rotate_left_inner el mid)
    (λ _ s', deque_is el (drop mid l ++ take mid l) s' ∧ dropped s' = dropped s) (λ _, False) s.
Proof.
  intros Hl Hmid. destruct (decide (l = [])) as [->|Hne].
  { assert (mid = 0) as -> by (simpl in Hmid; lia). by apply rotate_left_inner_nil. }
  pose proof (deque_raw el l s Hl) as Hs. pose proof (deque_cap el l s Hl) as Hcap.
  pose proof (deque_head el l s Hl Hne) as Hh. pose proof (deque_len el l s Hl) as Hn.
  pose proof Hl as (_&_&_&Hcells). set (c := length (cells s)) in *. set (h := head (regs s)) in *.
  unfold rotate_left_inner. apply wp_bind, wp_gets. rewrite Hn.
  apply wp_bind, wp_assert; [by apply Nat.leb_le|]. apply wp_bind, wp_gets. fold h.
  apply wp_bind, wp_to_physical_idx; [done|fold c h; lia|]. fold c h.
  apply wp_bind, wp_wrap_copy; [done|done|fold c; ring_cases; lia| |].
  { fold c. unfold abs_diff. ring_cases; lia. }
  intros cs [Hlc Hlk]. fold c in Hlc, Hlk.
  apply wp_bind, wp_to_physical_idx; [by apply raw_ok_set_cells|cbn; lia|]. cbn [cells regs set_cells].
  apply wp_modify. split; [|done]. rewrite Hlc. fold h.
  apply (deque_intro el _ (wrap c (h + mid)) s); cbn;
    [done|done|done|rewrite length_app, length_drop, length_take, Hn; f_equal; lia|
     rewrite length_app, length_drop, length_take; fold c; lia|left; fold c; ring_cases; lia|].
  fold c. intros i x [Hi|[Hlt Hi]]%lookup_app_Some.
  - rewrite lookup_drop in Hi. pose proof (lookup_lt_Some _ _ _ Hi).
    rewrite <- (Hcells _ _ Hi), Hlk by (ring_cases; lia). ring_cases; f_equal; lia.
  - rewrite length_drop in *. apply lookup_take_Some in Hi as [Hi Hm].
    rewrite <- (Hcells _ _ Hi), Hlk by (ring_cases; lia). ring_cases; f_equal; lia.
Qed.

Lemma rotate_right_inner_nil s : deque_is el [] s →
  wp (rotate_right_inner el 0) (λ _ s', deque_is el [] s' ∧ dropped s' = dropped s) (λ _, False) s.
Proof.
  intros Hl. pose proof (deque_raw el _ s Hl) as Hs. pose proof (deque_len el _ s Hl) as Hn.
  destruct Hl as ([_ Hh]&Hrest). unfold rotate_right_inner.
  apply wp_bind, wp_gets. rewrite Hn. apply wp_bind, wp_assert; [done|]. apply wp_bind, wp_gets.
  assert (head (regs s) < length (cells s) ∨ length (cells s) = 0 ∧ head (regs s) = 0) as Hz.
  { destruct Hh as [?|[-> ?]]; auto. }
  assert (wrap (length (cells s)) (head (regs s)) = head (regs s)) as Hw.
  { unfold wrap. destruct Hh as [?|[-> ->]]; [|done]. case_bool; [lia|done]. }
  apply wp_bind, (wp_wrap_sub_0 el alloc_ok Hel); [done|done|]. apply wp_bind, wp_modify.
  cbn [regs set_regs]. set (s1 := set_regs _ s).
  assert (raw_ok el s1) as Hs1 by done.
  assert (regs s1 = regs s) as Hr by (cbn; by destruct (regs s)).
  apply wp_bind, wp_to_physical_idx; [done|rewrite Hr; cbn; lia|]. rewrite Hr. simpl length.
  rewrite Nat.add_0_r. change (length (cells s1)) with (length (cells s)). rewrite Hw.
  apply wp_bind, wp_gets. rewrite Hr. apply wp_wrap_copy_self; [done|].
  split; [|done]. apply (deque_same el [] s); [|done..]. split; [by split|done].
Qed.

Lemma rotate_right_inner_spec l k s : deque_is el l s → k * 2 ≤ length l →
  wp (rotate_right_inner el k)
    (λ _ s', deque_is el (drop (length l - k) l ++ take (length l - k) l) s' ∧ dropped s' = dropped s)
    (λ _, False) s.
Proof.
  intros Hl Hk. destruct (decide (l = [])) as [->|Hne].
  { assert (k = 0) as -> by (simpl in Hk; lia). by apply rotate_right_inner_nil. }
  pose proof (deque_raw el l s Hl) as Hs. pose proof (deque_cap el l s Hl) as Hcap.
  pose proof (deque_head el l s Hl Hne) as Hh. pose proof (deque_len el l s Hl) as Hn.
  pose proof Hl as (_&_&_&Hcells). set (c := length (cells s)) in *. set (h := head (regs s)) in *.
  unfold rotate_right_inner. apply wp_bind, wp_gets. rewrite Hn.
  apply wp_bind, wp_assert; [by apply Nat.leb_le|]. apply wp_bind, wp_gets. fold h.
  apply wp_bind, wp_wrap_sub; [done|done|fold c; lia|fold c; lia|]. fold c.
  set (h' := wrap c (h + c - k)). assert (h' + k = h ∨ h < k ∧ h' + k = h + c) as Hh'.
  { unfold h'. ring_cases; lia. }
  assert (h' < c) by lia. clearbody h'.
  apply wp_bind, wp_modify. apply wp_bind, wp_to_physical_idx; [done|cbn; fold c; lia|].
  apply wp_bind, wp_gets. cbn [regs cells set_regs head]. fold c.
  apply wp_wrap_copy; [done|cbn; fold c; ring_cases; lia|done| |].
  { cbn. fold c. unfold abs_diff. ring_cases; lia. }
  cbn [cells set_regs]. fold c. intros cs [Hlc Hlk]. fold c in Hlc, Hlk. split; [|done].
  apply (deque_intro el _ h' s); cbn;
    [done|done|done|rewrite length_app, length_drop, length_take, Hn; f_equal; lia|
     rewrite length_app, length_drop, length_take; fold c; lia|by left|].
  fold c. intros i x [Hi|[Hlt Hi]]%lookup_app_Some.
  - rewrite lookup_drop in Hi. pose proof (lookup_lt_Some _ _ _ Hi).
    rewrite <- (Hcells _ _ Hi), Hlk by (ring_cases; lia). ring_cases; f_equal; lia.
  - rewrite length_drop in *. apply lookup_take_Some in Hi as [Hi Hm].
    rewrite <- (Hcells _ _ Hi), Hlk by (ring_cases; lia). ring_cases; f_equal; lia.
Qed.

Lemma rotate_left_spec l n s : deque_is el l s →
  wp (rotate_left el n)
    (λ _ s', n ≤ length l ∧ deque_is el (drop n l ++ take n l) s' ∧ dropped s' = dropped s)
    (λ s', length l < n ∧ s' = s) s.
Proof.
  intros Hl. unfold rotate_left, assert_. apply wp_bind, wp_gets. rewrite (deque_len el l s Hl).
  destruct (Nat.leb_spec n (length l)); [|by apply wp_bind, wp_panic].
  apply wp_bind, wp_ret. destruct (Nat.leb_spec n (length l - n)).
  - eapply wp_mono; [apply (rotate_left_inner_spec l n); [done|lia]|by intros [] s' []|done].
  - eapply wp_mono; [apply (rotate_right_inner_spec l (length l - n)); [done|lia]| |done].
    intros [] s'. by replace (length l - (length l - n)) with n by lia.
Qed.

Lemma rotate_right_spec l n s : deque_is el l s →
  wp (rotate_right el n)
    (λ _ s', n ≤ length l ∧
       deque_is el (drop (length l - n) l ++ take (length l - n) l) s' ∧ dropped s' = dropped s)
    (λ s', length l < n ∧ s' = s) s.
Proof.
  intros Hl. unfold rotate_right, assert_. apply wp_bind, wp_gets. rewrite (deque_len el l s Hl).
  destruct (Nat.leb_spec n (length l)); [|by apply wp_bind, wp_panic].
  apply wp_bind, wp_ret. destruct (Nat.leb_spec n (length l - n)).
  - eapply wp_mono; [apply (rotate_right_inner_spec l n); [done|lia]|by intros [] s' []|done].
  - eapply wp_mono; [apply (rotate_left_inner_spec l (length l - n)); [done|lia]|by intros [] s' []|done].
Qed.

(** ** Appending *)
(** The allocator is only called when the buffer is too small. *)
Lemma deque_reserve_spec (X : Prop) l n s (Q : () → deque T → Prop) (P : deque T → Prop) :
  (length (cells s) < length l + n → out_of_memory alloc_ok → X) → deque_is el l s →
  (∀ s', deque_is el l s' → length l + n ≤ length (cells s') → dropped s' = dropped s → Q () s') →
  (length (cells s) < length l + n → overflows el (Z.of_nat (length l)) (Z.of_nat n) s → P s) →
  wpa X (reserve el alloc_ok n) Q P s.
Proof.
  intros HX Hl HQ HP. pose proof (deque_raw el l s Hl) as Hs. pose proof (deque_cap el l s Hl) as Hcap.
  pose proof (elem_bounds el alloc_ok Hel) as Hel'.
  unfold reserve, reserve_with. apply wpa_bind, wpa_wp, wp_gets. rewrite (deque_len el l s Hl).
  destruct (Z.ltb_spec usize_MAX (Z.of_nat (length l) + Z.of_nat n)) as [Hov|_].
  { pose proof (cap_bound el alloc_ok Hel s Hs). unfold usize_MAX in Hov.
    apply wpa_wp, wp_panic, HP; [lia|]. left. unfold array_fits, isize_MAX in *. rewrite Z.leb_gt. nia. }
  apply wpa_bind, wpa_wp, wp_capacity; [done|].
  destruct (Nat.ltb_spec (length (cells s)) (length l + n)).
  - apply wpa_bind, (reserve_spec el alloc_ok Hel); [auto|done|unfold raw_cap; lia| |auto].
    intros k b s1 Hs1 Hcap1. unfold raw_cap in Hcap1.
    apply wpa_wp. eapply wp_mono; [by apply (handle_capacity_increase_spec el alloc_ok drop_panics Hel l s)| |done].
    intros [] s2 (Hl2&Hc2&Hd2). apply HQ; [done| |done]. subst s1. cbn in Hcap1.
    rewrite length_app, length_replicate in Hcap1. lia.
  - apply wpa_ret, HQ; [done|lia|done].
Qed.

Lemma wp_copy_slice dst xs s (Q : () → deque T → Prop) P :
  raw_ok el s → dst ≤ length (cells s) → length xs ≤ length (cells s) →
  (∀ cs, length cs = length (cells s) →
     (∀ p, p < length (cells s) → cs !! p =
        if decide (off (length (cells s)) dst p < length xs)
        then Some (xs !! off (length (cells s)) dst p) else cells s !! p) → Q () (set_cells cs s)) →
  wp (copy_slice el dst xs) Q P s.
Proof.
  intros Hs Hdst Hxs HQ. unfold copy_slice. set (c := length (cells s)) in *.
  apply wp_bind, wp_capacity; [done|]. fold c. apply wp_bind, wp_assert; [by apply Nat.leb_le|].
  apply wp_bind, wp_usub; [done|].
  assert (∀ k, k < length xs → (Some <$> xs) !! k = Some (xs !! k)) as Hx.
  { intros k Hk. rewrite list_lookup_fmap. by destruct (lookup_lt_is_Some_2 xs k Hk) as [x ->]. }
  destruct (Nat.leb_spec (length xs) (c - dst)).
  - apply wp_wr_cells; [fold c; lia|]. apply HQ; [by rewrite length_inserts|]. intros p Hp.
    destruct (decide (p < dst)).
    { rewrite list_lookup_inserts_lt by done. by rewrite decide_False by (ring_cases; lia). }
    destruct (decide (p < dst + length xs)).
    { rewrite list_lookup_inserts by (rewrite ?length_fmap; fold c; lia).
      rewrite decide_True by (ring_cases; lia). rewrite Hx by lia. do 2 f_equal. ring_cases; lia. }
    rewrite list_lookup_inserts_ge by (rewrite length_fmap; lia). by rewrite decide_False by (ring_cases; lia).
  - destruct (list_split_at xs (c - dst)) as (a&b&->&Ha); [lia|].
    rewrite (take_app_length' a b), (drop_app_length' a b) by done. rewrite length_app in *.
    apply wp_bind, wp_wr_cells; [fold c; lia|].
    apply wp_wr_cells; [cbn; rewrite length_inserts; fold c; lia|]. cbn [cells set_cells].
    apply HQ; [by rewrite !length_inserts|]. intros p Hp.
    destruct (decide (p < length b)) as [Hb|Hb].
    { rewrite list_lookup_inserts by (rewrite ?length_fmap, ?length_inserts; fold c; lia).
      rewrite decide_True by (ring_cases; lia). rewrite <- Hx by (ring_cases; lia).
      rewrite fmap_app, lookup_app_r by (rewrite length_fmap; ring_cases; lia).
      f_equal. rewrite length_fmap. ring_cases; lia. }
    rewrite list_lookup_inserts_ge by (rewrite length_fmap; lia).
    destruct (decide (p < dst)).
    { rewrite list_lookup_inserts_lt by done. by rewrite decide_False by (ring_cases; lia). }
    rewrite list_lookup_inserts by (rewrite ?length_fmap; fold c; lia).
    rewrite decide_True by (ring_cases; lia). rewrite <- Hx by (ring_cases; lia).
    rewrite fmap_app, lookup_app_l by (rewrite length_fmap; ring_cases; lia). f_equal. ring_cases; lia.
Qed.

Lemma deque_emptied xs o : deque_is el xs o →
  deque_is el [] (set_regs (Ring 0 0) o).
Proof.
  intros Ho. apply (deque_intro el [] 0 o); cbn; try done; [by eapply deque_raw|lia|].
  destruct (length (cells o)); auto with lia.
Qed.

(** [append] on [self] and [other]. *)
Lemma deque_append_spec (X : Prop) l xs s o :
  (length (cells s) < length l + length xs → out_of_memory alloc_ok → X) →
  deque_is el l s → deque_is el xs o →
  wpa X (append el alloc_ok)
    (λ _ '(s', o'), deque_is el (l ++ xs) s' ∧ deque_is el [] o' ∧
       dropped s' = dropped s ∧ dropped o' = dropped o)
    (λ so, so = (s, o) ∧ length (cells s) < length l + length xs ∧
       overflows el (Z.of_nat (length l)) (Z.of_nat (length xs)) s) (s, o).
Proof.
  intros HX Hl Ho. unfold append. apply wpa_bind, wpa_wp, wp_zoom. cbn.
  rewrite (deque_len el xs o Ho).
  apply wpa_bind, wpa_zoom. cbn. apply (deque_reserve_spec X l); [done|done| |by intros].
  intros s1 Hl1 Hroom Hd1. apply wpa_bind, wpa_wp, wp_zoom. cbn.
  apply (as_slices_spec el alloc_ok drop_panics Hel xs); [done|]. intros a b -> Ha. cbn.
  rewrite length_app in *. set (c := length (cells s1)) in *. set (h := head (regs s1)) in *.
  pose proof (deque_raw el l s1 Hl1) as Hs1. pose proof (deque_len el l s1 Hl1) as Hn.
  pose proof Hl1 as ([_ Hh]&_&_&Hcells). fold c h in Hh, Hcells.
  assert (h < c ∨ c = 0 ∧ h = 0) as Hh'.
  { unfold c. destruct Hh as [?|[-> ?]]; [by left|by right]. }
  apply wpa_bind, wpa_wp, wp_zoom. cbn. apply wp_bind, wp_gets. rewrite Hn.
  apply wp_bind, wp_to_physical_idx; [done|fold c h; lia|]. fold c h.
  apply wp_bind, wp_copy_slice; [done|fold c; ring_cases; lia|fold c; lia|]. fold c. intros cs1 Hlc1 Hlk1.
  apply wp_bind, wp_to_physical_idx; [by apply raw_ok_set_cells|cbn; fold h; lia|]. cbn [cells regs set_cells].
  fold h. rewrite Hlc1. apply wp_bind, wp_copy_slice;
    [by apply raw_ok_set_cells|cbn; rewrite Hlc1; ring_cases; lia|cbn; lia|].
  cbn [cells set_cells]. rewrite Hlc1. intros cs2 Hlc2 Hlk2.
  apply wp_modify. cbn.
  split_and!; [|exact (deque_emptied (a ++ b) o Ho)|done|done].
  apply (deque_intro el _ h s1); cbn; [done|done|by rewrite Hlc2|by rewrite !length_app|
    rewrite !length_app; fold c; lia|fold c; lia|].
  fold c. intros i x [Hi|[Hlt Hi]]%lookup_app_Some.
  { pose proof (lookup_lt_Some _ _ _ Hi). rewrite Hlk2, decide_False by (ring_cases; lia).
    rewrite Hlk1, decide_False by (ring_cases; lia). by apply Hcells. }
  apply lookup_app_Some in Hi as [Hi|[Hlt' Hi]]; pose proof (lookup_lt_Some _ _ _ Hi).
  - rewrite Hlk2, decide_False by (ring_cases; lia). rewrite Hlk1, decide_True by (ring_cases; lia).
    rewrite <- Hi. do 2 f_equal. ring_cases; lia.
  - rewrite Hlk2, decide_True by (ring_cases; lia). rewrite <- Hi. do 2 f_equal. ring_cases; lia.
Qed.

(** The new deque gets the elements from [at_] on; it never needs more than the
    old buffer has. *)
Lemma deque_split_off_spec (X : Prop) l n s : (out_of_memory alloc_ok → X) → deque_is el l s →
  wpa X (split_off el alloc_ok n)
    (λ o s', n ≤ length l ∧ deque_is el (take n l) s' ∧ deque_is el (drop n l) o ∧
       length (cells s') = length (cells s) ∧ dropped s' = dropped s ∧ dropped o = [])
    (λ s', length l < n ∧ s' = s) s.
Proof.
  intros HX Hl. pose proof (deque_cap el l s Hl) as Hcap. pose proof (deque_raw el l s Hl) as Hs.
  unfold split_off, assert_. apply wpa_bind, wpa_wp, wp_gets. rewrite (deque_len el l s Hl).
  destruct (Nat.leb_spec n (length l)); [|by apply wpa_bind, wpa_wp, wp_panic].
  apply wpa_bind, wpa_ret.
  assert (array_fits el (Z.of_nat (length l - n)) = true) as Hfit.
  { apply (array_fits_mono el alloc_ok Hel _ (raw_cap s)); [unfold raw_cap; lia|apply Hs]. }
  assert (0 ≤ Z.of_nat (length l - n) ≤ usize_MAX)%Z as Hbound.
  { destruct (array_fits_bounds el alloc_ok Hel (Z.of_nat (length l - n))); [lia|done|].
    unfold usize_MAX, isize_MAX in *. lia. }
  apply wpa_bind, wpa_fresh, (with_capacity_spec el alloc_ok Hel); [done|done|done|done| |by rewrite Hfit].
  intros b o Ho. subst o. rewrite Nat2Z.id in *. set (o := Buffer _ _ _ _ _) in *.
  assert (length (cells o) = length l - n) as Hco by (cbn; apply length_replicate).
  assert (dropped o = [] ∧ head (regs o) = 0) as [Hdo Hho] by done. clearbody o. clear b.
  assert (∀ cs, length cs = length l - n → (∀ k x, drop n l !! k = Some x → cs !! k = Some (Some x)) →
    deque_is el (drop n l) (set_regs (Ring (head (regs o)) (length l - n)) (set_cells cs o))) as Hnew.
  { intros cs Hlc Hcs. rewrite Hho. apply (deque_intro el _ 0 o); cbn;
      [done|done|by rewrite Hco|by rewrite length_drop|by rewrite length_drop, Hco|rewrite Hco; lia|].
    rewrite Hco. intros k x Hk. pose proof (lookup_lt_Some _ _ _ Hk) as Hlt.
    rewrite length_drop in Hlt. rewrite <- (Hcs k x Hk). f_equal. ring_cases; lia. }
  apply wpa_bind, wpa_wp, (as_slices_spec el alloc_ok drop_panics Hel l); [done|]. intros a b' Hab Ha. clear Ha.
  assert (∀ cs, length cs = length l - n → (∀ k x, drop n l !! k = Some x → cs !! k = Some (Some x)) →
    wpa X (_ ← set_len n; fresh (set_len (length l - n)) (set_cells cs o))
      (λ o s', n ≤ length l ∧ deque_is el (take n l) s' ∧ deque_is el (drop n l) o ∧
         length (cells s') = length (cells s) ∧ dropped s' = dropped s ∧ dropped o = []) (λ s', length l < n ∧ s' = s) s) as Hend.
  { intros cs Hlc Hcs. apply wpa_bind, wpa_wp, wp_modify. apply wpa_fresh, wpa_wp, wp_modify.
    split_and!; [done| |by apply Hnew|done|done|done].
    apply (deque_intro el _ (head (regs s)) s); cbn;
      [done|done|done|by rewrite length_take_le|rewrite length_take; lia| |].
    - destruct Hl as ([_ [?|[-> ?]]]&_); [by left|by right].
    - intros k x [Hk _]%lookup_take_Some. by apply Hl. }
  destruct (Nat.ltb_spec n (length a)) as [Hn|Hn]; apply wpa_bind, wpa_fresh.
  - apply wpa_bind, wpa_wp, wp_wr_cells; [rewrite Hco, length_drop, Hab, length_app; lia|].
    apply wpa_wp, wp_wr_cells; [cbn; rewrite length_inserts, Hco, Hab, length_app; lia|].
    cbn [cells set_cells]. apply Hend; [by rewrite !length_inserts, Hco|].
    intros k x Hk. rewrite Hab, drop_app_le in Hk by lia. apply lookup_app_Some in Hk as [Hk|[Hlt Hk]].
    + pose proof (lookup_lt_Some _ _ _ Hk) as Hlt. rewrite length_drop in Hlt.
      rewrite list_lookup_inserts_lt by lia.
      rewrite list_lookup_inserts; rewrite ?length_fmap, ?length_drop, ?Hco, ?Hab, ?length_app; [|lia..].
      by rewrite Nat.sub_0_r, list_lookup_fmap, Hk.
    + pose proof (lookup_lt_Some _ _ _ Hk) as Hlt'. rewrite length_drop in *.
      rewrite list_lookup_inserts; rewrite ?length_fmap, ?length_inserts, ?Hco, ?Hab, ?length_app; [|lia..].
      by rewrite list_lookup_fmap, Hk.
  - apply wpa_wp, wp_wr_cells; [rewrite Hco, length_drop, Hab, length_app; lia|].
    apply Hend; [by rewrite length_inserts, Hco|]. intros k x Hk. rewrite Hab, drop_app_ge in Hk by lia.
    pose proof (lookup_lt_Some _ _ _ Hk) as Hlt. rewrite length_drop in Hlt.
    rewrite list_lookup_inserts; rewrite ?length_fmap, ?length_drop, ?Hco, ?Hab, ?length_app; [|lia..].
    by rewrite Nat.sub_0_r, list_lookup_fmap, Hk.
Qed.
End spec.
