(* ===== verification/DequeRetain.v ===== *)
(** What [VecDeque::retain] does, with any predicate. *)

From S2P Require Import Prelude.
From S2P Require Import Layout.
From S2P Require Import RawVec.
From S2P Require Import Cells.
From S2P Require Import VecSpec.
From S2P Require Import VecDeque.
From S2P Require Import RingSpec.
From S2P Require Import DequeSpec.
From S2P Require Import DequeBulkSpec.

Section retain.
Context {T : Type} (el : Layout) (alloc_ok : Layout → bool) (drop_panics : nat → T → bool).
Hypothesis Hel : elem_ok el.
Context (f : nat → T → option bool).
Implicit Types (s : deque T) (l K J : list T) (i : nat) (x : T) (q : T → bool).

Lemma call_at_spec l i x s (Q : bool → deque T → Prop) (P : deque T → Prop) :
  deque_is el l s → l !! i = Some x →
  (∀ b s', deque_is el l s' → dropped s' = dropped s → f (clock s) x = Some b → Q b s') →
  (∀ s', deque_is el l s' → dropped s' = dropped s → f (clock s) x = None → P s') →
  wp (call_at el (λ c x, (x, f c x)) i) Q P s.
Proof.
  intros Hl Hi HQ HP. pose proof (lookup_lt_Some _ _ _ Hi) as Hlt.
  assert (head (regs s) < length (cells s)) by (apply (deque_head el l s Hl); by intros ->).
  pose proof (deque_cap el l s Hl). pose proof (deque_raw el l s Hl). pose proof Hl as (_&_&_&Hcells).
  unfold call_at. apply wp_bind, wp_gets. rewrite (deque_len el l s Hl), (proj2 (Nat.ltb_lt _ _) Hlt).
  apply wp_bind, (wp_to_physical_idx el alloc_ok Hel); [done|lia|].
  set (p := wrap _ _). assert (cells s !! p = Some (Some x)) as Hp by by apply Hcells.
  unfold call_mut. apply wp_bind. eapply wp_rd_cell; [done|]. apply wp_bind, wp_gets.
  apply wp_bind, wp_wr_cell; [by apply lookup_lt_Some in Hp|]. rewrite list_insert_id by done.
  apply wp_call; cbn; intros; [apply HQ|apply HP]; try done; by apply (deque_same el l s).
Qed.

(** In the middle of the loops: the elements [K] are kept, [J] are to be deleted,
    and those from [cur] on have not been looked at. *)
Definition retaining l idx cur K J s0 s : Prop :=
  deque_is el (K ++ J ++ drop cur l) s ∧ length K = idx ∧ idx + length J = cur ∧ cur ≤ length l ∧
  K ++ J ≡ₚ take cur l ∧ K `sublist_of` take cur l ∧
  (∀ q, (∀ c x, f c x = Some (q x)) → K = List.filter q (take cur l)) ∧ dropped s = dropped s0.

Lemma retaining_next l idx cur K J s0 s : retaining l idx cur K J s0 s → cur < length l →
  ∃ x, (K ++ J ++ drop cur l) !! cur = Some x ∧ drop cur l = x :: drop (cur + 1) l ∧
    take (cur + 1) l = take cur l ++ [x].
Proof.
  intros (_&<-&<-&_) Hcur. destruct (lookup_lt_is_Some_2 l _ Hcur) as [x Hx]. exists x.
  rewrite Nat.add_1_r. split_and!; [|by apply drop_S|by apply take_S_r].
  rewrite app_assoc, lookup_app_r by (by rewrite length_app). rewrite length_app, Nat.sub_diag.
  by rewrite (drop_S _ _ _ Hx).
Qed.

Lemma retaining_delete l idx cur K J s0 s s' : retaining l idx cur K J s0 s → cur < length l →
  deque_is el (K ++ J ++ drop cur l) s' → dropped s' = dropped s →
  (∀ q, (∀ c x, f c x = Some (q x)) → ∀ x, (K ++ J ++ drop cur l) !! cur = Some x → q x = false) →
  ∃ J', retaining l idx (cur + 1) K J' s0 s'.
Proof.
  intros Hr Hcur Hs' Hd' Hq. destruct (retaining_next _ _ _ _ _ _ _ Hr Hcur) as (x&Hx&Hdr&Htk).
  destruct Hr as (_&HK&HJ&_&Hp&Hsub&Hf&Hd). exists (J ++ [x]). unfold retaining. rewrite Htk.
  split_and!; [|done|rewrite length_app; simpl; lia|lia| | | |congruence].
  - by rewrite Hdr in Hs'; rewrite <- app_assoc.
  - by rewrite app_assoc, Hp.
  - by apply sublist_inserts_r.
  - intros q Hfq. rewrite List.filter_app. cbn. rewrite (Hq q Hfq x Hx), app_nil_r. by apply Hf.
Qed.

Lemma retaining_keep l idx cur K J J' x s0 s s' : retaining l idx cur K J s0 s → cur < length l →
  (K ++ J ++ drop cur l) !! cur = Some x → J ≡ₚ J' →
  deque_is el ((K ++ [x]) ++ J' ++ drop (cur + 1) l) s' → dropped s' = dropped s →
  (∀ q, (∀ c x, f c x = Some (q x)) → q x = true) →
  retaining l (idx + 1) (cur + 1) (K ++ [x]) J' s0 s'.
Proof.
  intros Hr Hcur Hx0 HJJ Hs' Hd' Hq. destruct (retaining_next _ _ _ _ _ _ _ Hr Hcur) as (y&Hx&Hdr&Htk).
  rewrite Hx0 in Hx. injection Hx as <-.
  destruct Hr as (_&HK&HJ&_&Hp&Hsub&Hf&Hd). unfold retaining. rewrite Htk.
  split_and!; [done|rewrite length_app; simpl; lia|rewrite <- HJJ; lia|lia| | | |congruence].
  - by rewrite <- HJJ, <- Hp, <- !app_assoc, (Permutation_app_comm [x] J).
  - by apply sublist_app.
  - intros q Hfq. rewrite List.filter_app. cbn. rewrite (Hq q Hfq). f_equal. by apply Hf.
Qed.

(** The first loop leaves at the first element to delete. *)
Lemma retain_prefix_spec l s0 :
  let n := length l in
  deque_is el l s0 →
  wp (loop (S n) (λ '(idx, cur),
    if negb (cur <? n) then mret (inr (idx, cur)) else
    keep ← call_at el (λ c x, (x, f c x)) cur;
    if keep : bool then mret (inl (idx + 1, cur + 1)) else mret (inr (idx, cur + 1))) (0, 0))
  (λ '(idx, cur) s, ∃ K J, retaining l idx cur K J s0 s)
  (λ s, ∃ K J cur c x, retaining l (length K) cur K J s0 s ∧ f c x = None) s0.
Proof.
  intros n Hl. apply (wp_loop (λ '(idx, cur) s, ∃ K, retaining l idx cur K [] s0 s) (λ '(_, cur), n - cur)); [|exists []|lia].
  2:{ split_and!; try done. lia. }
  intros [idx cur] s [K HK]. destruct (Nat.ltb_spec cur n) as [Hcur|]; cbn [negb]; [|apply wp_ret; eauto].
  destruct (retaining_next _ _ _ _ _ _ _ HK Hcur) as (x&Hx&Hdr&Htk). pose proof HK as (Hs&_).
  apply wp_bind. eapply call_at_spec; [done|done| |].
  - intros [] s1 Hs1 Hd1 Hfx; apply wp_ret.
    + split; [|lia]. exists (K ++ [x]).
      eapply retaining_keep; [exact HK|done|exact Hx|done| |done|].
      * by rewrite Hdr, <- app_assoc in *.
      * intros q Hq. rewrite Hq in Hfx. by injection Hfx.
    + destruct (retaining_delete _ _ _ _ _ _ _ s1 HK Hcur Hs1 Hd1) as [J HJ]; [|eauto].
      intros q Hq y Hy. rewrite Hx in Hy. injection Hy as <-. rewrite Hq in Hfx. by injection Hfx.
  - intros s1 Hs1 Hd1 Hfx. exists K, [], cur, (clock s), x. split; [|done].
    destruct HK as (_&<-&HJ&?&?&?&?&Hd). split_and!; try done. congruence.
Qed.

(** The second one swaps each kept element with the first deleted one. *)
Lemma retain_swaps_spec l idx cur K J s0 s :
  let n := length l in
  retaining l idx cur K J s0 s →
  wp (loop (S n) (λ '(idx, cur),
    if negb (cur <? n) then mret (inr (idx, cur)) else
    keep ← call_at el (λ c x, (x, f c x)) cur;
    if keep : bool then _ ← swap el idx cur; mret (inl (idx + 1, cur + 1))
    else mret (inl (idx, cur + 1))) (idx, cur))
  (λ '(idx, cur) s, cur = n ∧ ∃ K J, retaining l idx cur K J s0 s)
  (λ s, ∃ K J cur c x, retaining l (length K) cur K J s0 s ∧ f c x = None) s.
Proof.
  intros n Hr. apply (wp_loop (λ '(idx, cur) s, ∃ K J, retaining l idx cur K J s0 s) (λ '(_, cur), n - cur)); [|eauto|lia].
  clear idx cur K J s Hr. intros [idx cur] s (K&J&HK).
  destruct (Nat.ltb_spec cur n) as [Hcur|]; cbn [negb].
  2:{ apply wp_ret. split; [|eauto]. destruct HK as (_&_&_&?&_). unfold n in *. lia. }
  destruct (retaining_next _ _ _ _ _ _ _ HK Hcur) as (x&Hx&Hdr&Htk). pose proof HK as (Hs&Hidx&HJ&_).
  apply wp_bind. eapply call_at_spec; [done|done| |].
  - intros [] s1 Hs1 Hd1 Hfx.
    + apply wp_bind. eapply wp_mono; [exact (deque_swap_spec el alloc_ok drop_panics Hel _ idx cur s1 Hs1)| |].
      * intros [] s2 (y&z&Hy&Hz&Hl2&Hd2). rewrite Hx in Hz. injection Hz as <-. apply wp_ret.
        split; [|lia]. rewrite Hdr in Hl2, Hy. destruct J as [|j J]; simpl in HJ.
        -- assert (cur = idx) as -> by lia. exists (K ++ [x]), [].
           eapply retaining_keep; [exact HK|done|exact Hx|done| |congruence|].
           ++ simpl in Hy. rewrite lookup_mid in Hy by done. injection Hy as <-. simpl in Hl2.
              rewrite !insert_mid in Hl2 by done. by rewrite <- app_assoc.
           ++ intros q Hq. rewrite Hq in Hfx. by injection Hfx.
        -- exists (K ++ [x]), (J ++ [j]).
           eapply retaining_keep; [exact HK|done|exact Hx|by rewrite Permutation_cons_append| |congruence|].
           ++ simpl in Hy. rewrite lookup_mid in Hy by done. injection Hy as <-. simpl in Hl2.
              rewrite insert_mid in Hl2 by done.
              rewrite (cons_middle x), !app_assoc, insert_mid in Hl2 by (rewrite !length_app; simpl; lia).
              by rewrite <- !app_assoc in *.
           ++ intros q Hq. rewrite Hq in Hfx. by injection Hfx.
      * intros s2 (_&Hbad). rewrite !length_app, length_drop in Hbad. simpl in Hbad.
        exfalso. unfold n in *. lia.
    + apply wp_ret. destruct (retaining_delete _ _ _ _ _ _ _ s1 HK Hcur Hs1 Hd1) as [J' HJ']; [|split; [eauto|lia]].
      intros q Hq y Hy. rewrite Hx in Hy. injection Hy as <-. rewrite Hq in Hfx. by injection Hfx.
  - intros s1 Hs1 Hd1 Hfx. exists K, J, cur, (clock s), x. split; [|done].
    destruct HK as (_&<-&?&?&?&?&?&Hd). split_and!; try done. congruence.
Qed.

Lemma deque_retain_spec (X : Prop) l s : (drops_panic drop_panics → X) → deque_is el l s →
  wpa X (retain el drop_panics f)
    (λ _ s', ∃ K J, deque_is el K s' ∧ dropped s' = reverse J ++ dropped s ∧ K ++ J ≡ₚ l ∧
       K `sublist_of` l ∧ ∀ q, (∀ c x, f c x = Some (q x)) → K = List.filter q l)
    (λ s', ∃ K J, deque_is el K s' ∧ dropped s' = reverse J ++ dropped s ∧ K ++ J ≡ₚ l ∧
       ((∃ c x, f c x = None) ∧ J = [] ∨ drops_panic drop_panics ∧ K `sublist_of` l)) s.
Proof.
  intros HX Hl. unfold retain, retain_mut. apply wpa_bind, wpa_wp, wp_gets. rewrite (deque_len el l s Hl).
  assert (∀ s', (∃ K J cur c x, retaining l (length K) cur K J s s' ∧ f c x = None) →
    ∃ K J, deque_is el K s' ∧ dropped s' = reverse J ++ dropped s ∧ K ++ J ≡ₚ l ∧
       ((∃ c x, f c x = None) ∧ J = [] ∨ drops_panic drop_panics ∧ K `sublist_of` l)) as Hpanic.
  { intros s' (K&J&cur&c&x&(Hs'&_&_&_&Hp&_&_&Hd)&Hf). exists (K ++ J ++ drop cur l), [].
    split_and!; [done|done| |left; eauto]. by rewrite app_nil_r, app_assoc, Hp, take_drop. }
  apply wpa_bind, wpa_wp. eapply wp_mono; [by apply retain_prefix_spec| |apply Hpanic].
  intros [idx cur] s1 (K&J&HK). apply wpa_bind, wpa_wp.
  eapply wp_mono; [by eapply retain_swaps_spec| |apply Hpanic].
  clear idx cur K J HK s1. intros [idx cur] s1 (->&K&J&Hs&Hidx&HJ&_&Hp&Hsub&Hf&Hd).
  rewrite take_ge in Hp, Hsub, Hf by done. rewrite drop_all, app_nil_r in Hs.
  destruct (Nat.eqb_spec (length l) idx) as [Heq|]; cbn [negb].
  - destruct J; [|simpl in HJ; lia]. rewrite app_nil_r in Hs. apply wpa_ret. by exists K, [].
  - eapply wpa_mono; [by apply (deque_truncate_spec el alloc_ok drop_panics Hel X)| |];
      rewrite take_app_length', drop_app_length', Hd by done.
    + intros [] s2 [Hs2 Hd2]. by exists K, J.
    + intros s2 (?&Hs2&Hd2). exists K, J. split_and!; [done..|]. by right.
Qed.
End retain.
