(* ===== verification/DequeTheorems.v ===== *)
(** What [VecDeque] promises: a sequence that can be changed at both ends. *)

From S2P Require Import Prelude.
From S2P Require Import Layout.
From S2P Require Import RawVec.
From S2P Require Import Cells.
From S2P Require Import VecSpec.
From S2P Require Import VecTheorems.
From S2P Require Import VecDeque.
From S2P Require Import RingSpec.
From S2P Require Import DequeSpec.
From S2P Require Import DequeBulkSpec.
From S2P Require Import DequeMoveSpec.
From S2P Require Import DequeRetain.

(** ** The abstract sequence *)
Inductive deque_op (T : Type) :=
  | PushFront (x : T) | PushBack (x : T) | PopFront | PopBack
  | Get (i : nat) | Swap (i j : nat) | SwapRemoveFront (i : nat) | SwapRemoveBack (i : nat)
  | Insert (i : nat) (x : T) | Remove (i : nat)
  | RotateLeft (n : nat) | RotateRight (n : nat)
  | Truncate (n : nat) | TruncateFront (n : nat) | Clear.
Arguments PushFront {T} x.
Arguments PushBack {T} x.
Arguments PopFront {T}.
Arguments PopBack {T}.
Arguments Get {T} i.
Arguments Swap {T} i j.
Arguments SwapRemoveFront {T} i.
Arguments SwapRemoveBack {T} i.
Arguments Insert {T} i x.
Arguments Remove {T} i.
Arguments RotateLeft {T} n.
Arguments RotateRight {T} n.
Arguments Truncate {T} n.
Arguments TruncateFront {T} n.
Arguments Clear {T}.

Section sequence.
Context {T : Type}.
Implicit Types (l D : list T) (o : deque_op T).

(** The answer, the sequence after the operation and the elements it drops, in
    their order; or [None] when the operation is documented to panic. *)
Definition seq_op o l : option (option T * list T * list T) :=
  match o with
  | PushFront x => Some (None, x :: l, [])
  | PushBack x => Some (None, l ++ [x], [])
  | PopFront => Some (l !! 0, tail l, [])
  | PopBack => Some (last l, removelast l, [])
  | Get i => Some (l !! i, l, [])
  | Swap i j =>
      match l !! i, l !! j with
      | Some x, Some y => Some (None, <[j := x]> (<[i := y]> l), [])
      | _, _ => None
      end
  | SwapRemoveFront i => Some (l !! i, swap_removed_front i l, [])
  | SwapRemoveBack i => Some (l !! i, swap_removed_back i l, [])
  | Insert i x => if i <=? length l then Some (None, take i l ++ x :: drop i l, []) else None
  | Remove i => Some (l !! i, take i l ++ drop (S i) l, [])
  | RotateLeft n => if n <=? length l then Some (None, drop n l ++ take n l, []) else None
  | RotateRight n =>
      if n <=? length l then Some (None, drop (length l - n) l ++ take (length l - n) l, []) else None
  | Truncate n => Some (None, take n l, drop n l)
  | TruncateFront n => Some (None, drop (length l - n) l, take (length l - n) l)
  | Clear => Some (None, [], l)
  end.

(** The element that a panicking operation takes with it. *)
Definition argument o : list T :=
  match o with PushFront x | PushBack x | Insert _ x => [x] | _ => [] end.

Fixpoint seq_run (ops : list (deque_op T)) l : option (list (option T) * list T * list T) :=
  match ops with
  | [] => Some ([], l, [])
  | o :: ops =>
      '(r, l1, D1) ← seq_op o l; '(rs, l2, D2) ← seq_run ops l1; Some (r :: rs, l2, D1 ++ D2)
  end.
End sequence.

(** ** A client of the deque *)
Section client.
Context {T : Type} (el : Layout) (alloc_ok : Layout → bool) (drop_panics : nat → T → bool).

Definition run_op (o : deque_op T) : prog (deque T) (option T) :=
  match o with
  | PushFront x => _ ← push_front el alloc_ok drop_panics x; mret None
  | PushBack x => _ ← push_back el alloc_ok drop_panics x; mret None
  | PopFront => pop_front el
  | PopBack => pop_back el
  | Get i => get el i
  | Swap i j => _ ← swap el i j; mret None
  | SwapRemoveFront i => swap_remove_front el i
  | SwapRemoveBack i => swap_remove_back el i
  | Insert i x => _ ← insert el alloc_ok drop_panics i x; mret None
  | Remove i => remove el i
  | RotateLeft n => _ ← rotate_left el n; mret None
  | RotateRight n => _ ← rotate_right el n; mret None
  | Truncate n => _ ← truncate el drop_panics n; mret None
  | TruncateFront n => _ ← truncate_front el drop_panics n; mret None
  | Clear => _ ← clear el drop_panics; mret None
  end.

Fixpoint run (ops : list (deque_op T)) : prog (deque T) (list (option T)) :=
  match ops with
  | [] => mret []
  | o :: ops => r ← run_op o; rs ← run ops; mret (r :: rs)
  end.
End client.

Section refine.
Context {T : Type} (el : Layout) (alloc_ok : Layout → bool) (drop_panics : nat → T → bool).
Hypothesis Hel : elem_ok el.
Hypothesis Hdrop : ∀ c x, drop_panics c x = false.
Implicit Types (s : deque T) (l D : list T) (o : deque_op T).

Lemma no_drop_panics : ¬ drops_panic drop_panics.
Proof. intros (c&x&H). by rewrite Hdrop in H. Qed.

Lemma aborts_oom : aborts alloc_ok drop_panics → out_of_memory alloc_ok.
Proof. intros [?|(c&x&H)]; [done|]. by rewrite Hdrop in H. Qed.

(** What one operation has to do. *)
Definition op_done o l s r s' : Prop :=
  ∃ l' D, seq_op o l = Some (r, l', D) ∧ deque_is el l' s' ∧ dropped s' = reverse D ++ dropped s.
Definition op_panicked o l s s' : Prop :=
  (seq_op o l = None ∨ argument o ≠ [] ∧ crowded el l) ∧ deque_is el l s' ∧ dropped s' = argument o ++ dropped s.

(** An operation without an answer. *)
Lemma op_unit X o l s (m : prog (deque T) ()) :
  wpa X m (λ _, op_done o l s None) (op_panicked o l s) s →
  wpa X (_ ← m; mret None) (op_done o l s) (op_panicked o l s) s.
Proof. intros H. apply wpa_bind. eapply wpa_mono; [exact H|by intros [] s'; apply wpa_ret|done]. Qed.

(** One operation of the deque is one operation of the sequence; when it panics,
    the deque is as it was. *)
Lemma deque_run_op_spec o l s : deque_is el l s →
  wpa (out_of_memory alloc_ok) (run_op el alloc_ok drop_panics o) (op_done o l s) (op_panicked o l s) s.
Proof.
  intros Hl. pose proof aborts_oom as HX.
  assert (drops_panic drop_panics → out_of_memory alloc_ok) as HD by (by intros ?%no_drop_panics).
  destruct o; simpl; try apply op_unit.
  - eapply wpa_mono; [by apply push_front_spec| |]; [intros [] s1 [??]; by do 2 eexists|].
    intros s1 (?&?&?). split; [by right|done].
  - eapply wpa_mono; [by apply push_back_spec| |]; [intros [] s1 [??]; by do 2 eexists|].
    intros s1 (?&?&?). split; [by right|done].
  - apply wpa_wp. eapply wp_mono; [by apply pop_front_spec|intros r s1 (->&?&?); by do 2 eexists|done].
  - apply wpa_wp. eapply wp_mono; [by apply pop_back_spec|intros r s1 (->&?&?); by do 2 eexists|done].
  - apply wpa_wp. eapply wp_mono; [by apply get_spec|intros r s1 [-> ->]; by do 2 eexists|done].
  - apply wpa_wp. eapply wp_mono; [by apply (deque_swap_spec el alloc_ok drop_panics Hel l i j)| |].
    + intros [] s1 (x&y&Hx&Hy&?&?). exists (<[j := x]> (<[i := y]> l)), []. simpl. by rewrite Hx, Hy.
    + intros s1 [-> Hij]. split; [left|done]. simpl. destruct Hij.
      * by rewrite lookup_ge_None_2.
      * rewrite (lookup_ge_None_2 l j) by done. by destruct (l !! i).
  - apply wpa_wp. eapply wp_mono; [by apply swap_remove_front_spec|intros r s1 (->&?&?); by do 2 eexists|done].
  - apply wpa_wp. eapply wp_mono; [by apply swap_remove_back_spec|intros r s1 (->&?&?); by do 2 eexists|done].
  - eapply wpa_mono; [by apply deque_insert_spec| |].
    + intros [] s1 (Hi&?&?). exists (take i l ++ x :: drop i l), []. simpl. by rewrite (proj2 (Nat.leb_le _ _)).
    + intros s1 (Hi&?&?). split; [|done]. destruct Hi as [Hi|?]; [left|by right].
      simpl. by rewrite (proj2 (Nat.leb_gt _ _)).
  - apply wpa_wp. eapply wp_mono; [by apply remove_spec|intros r s1 (->&?&?); by do 2 eexists|done].
  - apply wpa_wp. eapply wp_mono; [by apply rotate_left_spec| |].
    + intros [] s1 (Hn&?&?). do 2 eexists. simpl. by rewrite (proj2 (Nat.leb_le _ _)).
    + intros s1 (Hn&->). split; [left|done]. simpl. by rewrite (proj2 (Nat.leb_gt _ _)).
  - apply wpa_wp. eapply wp_mono; [by apply rotate_right_spec| |].
    + intros [] s1 (Hn&?&?). do 2 eexists. simpl. by rewrite (proj2 (Nat.leb_le _ _)).
    + intros s1 (Hn&->). split; [left|done]. simpl. by rewrite (proj2 (Nat.leb_gt _ _)).
  - eapply wpa_mono; [by apply deque_truncate_spec|intros [] s1 [??]; by do 2 eexists|].
    by intros s1 [?%no_drop_panics _].
  - eapply wpa_mono; [by apply truncate_front_spec|intros [] s1 [??]; by do 2 eexists|].
    by intros s1 [?%no_drop_panics _].
  - eapply wpa_mono; [by apply clear_spec|intros [] s1 [??]; by do 2 eexists|].
    by intros s1 [?%no_drop_panics _].
Qed.

(** A sequence of operations, up to the first one that panics. *)
Lemma deque_run_spec ops l s : deque_is el l s →
  wpa (out_of_memory alloc_ok) (run el alloc_ok drop_panics ops)
    (λ rs s', ∃ l' D, seq_run ops l = Some (rs, l', D) ∧ deque_is el l' s' ∧
       dropped s' = reverse D ++ dropped s)
    (λ s', ∃ ops1 o ops2 rs l' D, ops = ops1 ++ o :: ops2 ∧ seq_run ops1 l = Some (rs, l', D) ∧
       (seq_op o l' = None ∨ argument o ≠ [] ∧ crowded el l') ∧ deque_is el l' s' ∧
       dropped s' = argument o ++ reverse D ++ dropped s) s.
Proof.
  revert l s. induction ops as [|o ops IH]; intros l s Hl; simpl.
  { apply wpa_ret. by exists l, []. }
  apply wpa_bind. eapply wpa_mono; [by apply deque_run_op_spec| |].
  - intros r s1 (l1&D1&Ho&Hl1&Hd1). apply wpa_bind. eapply wpa_mono; [by apply IH| |].
    + intros rs s2 (l2&D2&Hr&Hl2&Hd2). apply wpa_ret. exists l2, (D1 ++ D2).
      rewrite Ho. simpl. rewrite Hr. simpl. split_and!; [done|done|].
      by rewrite Hd2, Hd1, reverse_app, app_assoc.
    + intros s2 (ops1&o'&ops2&rs&l'&D2&->&Hr&Hp&Hl2&Hd2).
      exists (o :: ops1), o', ops2, (r :: rs), l', (D1 ++ D2). split_and!; [done| |done|done|].
      * simpl. rewrite Ho. simpl. by rewrite Hr.
      * by rewrite Hd2, Hd1, reverse_app, <- app_assoc.
  - intros s1 (Hp&Hl1&Hd1). by exists [], o, ops, [], l, [].
Qed.
End refine.

(** A ring of eight cells of [u64], with the elements from the cell [h] on. *)
Definition sample_deque (h : nat) (l : list nat) : deque nat :=
  let cs := (Some <$> l) ++ replicate (8 - length l) None in
  Buffer (Ring h (length l)) (drop (8 - h) cs ++ take (8 - h) cs) (Some (MkLayout 64%Z 8%Z)) [] 0.

Lemma sample_deque_is h (l : list nat) : h < 8 → length l ≤ 8 → deque_is u64_layout l (sample_deque h l).
Proof.
  intros Hh Hl. unfold sample_deque. set (cs := (Some <$> l) ++ _).
  assert (length cs = 8) as Hlen by (subst cs; rewrite length_app, length_fmap, length_replicate; lia).
  assert (∀ i x, l !! i = Some x → i < 8 ∧ cs !! i = Some (Some x)) as Hcs.
  { intros i x Hi. pose proof (lookup_lt_Some _ _ _ Hi). split; [lia|]. subst cs.
    rewrite lookup_app_l by (by rewrite length_fmap). by rewrite list_lookup_fmap, Hi. }
  clearbody cs. set (s := Buffer _ _ _ _ _).
  assert (length (cells s) = 8) as Hc by (cbn; rewrite length_app, length_drop, length_take; lia).
  split; [split|].
  - unfold raw_ok, raw_cap. by rewrite Hc.
  - left. by rewrite Hc.
  - rewrite Hc. split_and!; [done|done|]. intros i x [Hi Hx]%Hcs. cbn -[wrap].
    destruct (decide (h + i < 8)).
    + rewrite lookup_app_r by (rewrite length_drop; ring_cases; lia).
      rewrite lookup_take_lt by (rewrite length_drop; ring_cases; lia).
      rewrite <- Hx. f_equal. rewrite length_drop. ring_cases; lia.
    + rewrite lookup_app_l by (rewrite length_drop; ring_cases; lia).
      rewrite lookup_drop, <- Hx. f_equal. ring_cases; lia.
Qed.

(** ** Properties *)
(** C8: [VecDeque] is a sequence.  Whatever operations are performed (pushing and
    popping at both ends, access and exchange by index, insertion and removal
    anywhere, rotation, truncation at both ends), the answers, the elements left
    and the elements dropped are those of the list.  The
    destructors are assumed not to panic.  A run that panics stops at an operation
    that is documented to panic, or at a push or insertion into a deque so large that
    it cannot double; everything before it has been done, the deque is intact, and
    only the argument of the operation is lost.  The process aborts only when the
    allocator fails, and nothing is undefined behaviour. *)
Theorem deque_refines_sequence {T} (el : Layout) (alloc_ok : Layout → bool) (drop_panics : nat → T → bool)
    (ops : list (deque_op T)) (l : list T) (s : deque T) :
  elem_ok el → (∀ c x, drop_panics c x = false) → deque_is el l s →
  match run el alloc_ok drop_panics ops s with
  | Ret rs s' => ∃ l' D, seq_run ops l = Some (rs, l', D) ∧ deque_is el l' s' ∧
      dropped s' = reverse D ++ dropped s
  | Panic s' => ∃ ops1 o ops2 rs l' D, ops = ops1 ++ o :: ops2 ∧ seq_run ops1 l = Some (rs, l', D) ∧
      (seq_op o l' = None ∨ argument o ≠ [] ∧ crowded el l') ∧ deque_is el l' s' ∧
      dropped s' = argument o ++ reverse D ++ dropped s
  | Fault f => f = Aborted ∧ out_of_memory alloc_ok
  end.
Proof.
  intros Hel Hd Hl. pose proof (deque_run_spec el alloc_ok drop_panics Hel Hd ops l s Hl) as H.
  case_run H as [?|?|[]]; done.
Qed.

(** The run goes round the end of the buffer, in which the elements start at the
    cell 6. *)
Lemma deque_refines_sequence_witness :
  match run u64_layout (λ _, true) (λ _ _, false)
          [PushFront 0; Insert 2 9; RotateLeft 2; Remove 1; PopBack; Truncate 2] (sample_deque 6 [1; 2; 3; 4]) with
  | Ret rs s' => ∃ l' D,
      seq_run [PushFront 0; Insert 2 9; RotateLeft 2; Remove 1; PopBack; Truncate 2] [1; 2; 3; 4] =
        Some (rs, l', D) ∧ deque_is u64_layout l' s' ∧ dropped s' = reverse D ++ []
  | Panic s' => ∃ ops1 o ops2 rs l' D,
      [PushFront 0; Insert 2 9; RotateLeft 2; Remove 1; PopBack; Truncate 2] = ops1 ++ o :: ops2 ∧
      seq_run ops1 [1; 2; 3; 4] = Some (rs, l', D) ∧
      (seq_op o l' = None ∨ argument o ≠ [] ∧ crowded u64_layout l') ∧ deque_is u64_layout l' s' ∧
      dropped s' = argument o ++ reverse D ++ []
  | Fault f => f = Aborted ∧ out_of_memory (λ _, true)
  end.
Proof.
  apply (deque_refines_sequence u64_layout (λ _, true) (λ _ _, false) _ [1; 2; 3; 4] (sample_deque 6 [1; 2; 3; 4]));
    [apply u64_elem_ok|done|apply sample_deque_is; simpl; lia].
Defined.

(** [wrap_copy] is a [memmove] on the ring: whatever the eight ways the two
    ranges may go round the end of the buffer and overlap, every cell of the
    target range ends with what its source cell held before, and no other cell
    changes.  It never reads or writes out of the buffer. *)
Theorem wrap_copy_memmove {T} (el : Layout) (src dst n : nat) (s : deque T) :
  elem_ok el → raw_ok el s → let c := length (cells s) in
  src < c → dst < c → Nat.min (abs_diff src dst) (c - abs_diff src dst) + n ≤ c →
  ∃ cs, wrap_copy el src dst n s = Ret () (set_cells cs s) ∧ length cs = c ∧
    (∀ k, k < n → cs !! ((dst + k) mod c) = cells s !! ((src + k) mod c)) ∧
    ∀ p, p < c → (∀ k, k < n → p ≠ (dst + k) mod c) → cs !! p = cells s !! p.
Proof.
  intros Hel Hs c Hsrc Hdst Hn.
  assert (wp (wrap_copy el src dst n)
    (λ _ s', ∃ cs, s' = set_cells cs s ∧ ring_moved (cells s) cs src dst n) (λ _, False) s) as H.
  { apply (wp_wrap_copy el (λ _, true)); eauto. }
  case_run H as [[] s'| |]; [|done..].
  destruct H as (cs&->&Hlen&Hlk). fold c in Hlk. exists cs. split_and!; [done|done| |].
  - intros k Hk. rewrite <- !wrap_mod by lia. rewrite Hlk by (ring_cases; lia).
    rewrite decide_True by (ring_cases; lia). f_equal. ring_cases; lia.
  - intros p Hp Hout. rewrite Hlk by done. case_decide as Hoff; [|done].
    exfalso. apply (Hout (off c dst p)); [done|]. rewrite <- wrap_mod by (ring_cases; lia).
    ring_cases; lia.
Qed.

Lemma wrap_copy_memmove_witness :
  ∃ cs, wrap_copy u64_layout 5 6 4 (sample_deque 5 [1; 2; 3; 4]) =
      Ret () (set_cells cs (sample_deque 5 [1; 2; 3; 4])) ∧ length cs = 8 ∧
    (∀ k, k < 4 → cs !! ((6 + k) mod 8) = cells (sample_deque 5 [1; 2; 3; 4]) !! ((5 + k) mod 8)) ∧
    ∀ p, p < 8 → (∀ k, k < 4 → p ≠ (6 + k) mod 8) → cs !! p = cells (sample_deque 5 [1; 2; 3; 4]) !! p.
Proof.
  apply (wrap_copy_memmove u64_layout 5 6 4 (sample_deque 5 [1; 2; 3; 4])); [apply u64_elem_ok|by split|cbn; lia..].
Defined.

(** C9: [shrink_to] moves the elements below the new end of the buffer and gives
    the rest back.  If the allocator then fails and the failure unwinds, the
    elements are put back in order in the old buffer: the deque holds the same
    sequence either way, and nothing is dropped.  Otherwise the process aborts. *)
Theorem shrink_keeps_elements {T} (el : Layout) (alloc_ok : Layout → bool) (oom_unwinds : bool)
    (m : nat) (l : list T) (s : deque T) :
  elem_ok el → deque_is el l s →
  match shrink_to el alloc_ok oom_unwinds m s with
  | Ret _ s' => deque_is el l s' ∧ dropped s' = dropped s ∧
      length (cells s') = Nat.min (length (cells s)) (Nat.max m (length l))
  | Panic s' => oom_unwinds = true ∧ out_of_memory alloc_ok ∧ deque_is el l s' ∧
      dropped s' = dropped s ∧ length (cells s') = length (cells s)
  | Fault f => f = Aborted ∧ oom_unwinds = false ∧ out_of_memory alloc_ok
  end.
Proof.
  intros Hel Hl. pose proof (shrink_to_spec el alloc_ok (λ _ _, false) Hel
    (oom_unwinds = false ∧ out_of_memory alloc_ok) oom_unwinds l m s (λ H1 H2, conj H1 H2) Hl) as H.
  case_run H as [?|?|[]]; [done| |done..]. by destruct H as ([? ?]&?).
Qed.

(** The allocator refuses, and the elements, which went round the end of the
    buffer, were already moved. *)
Lemma shrink_keeps_elements_witness :
  match shrink_to u64_layout (λ _, false) true 5 (sample_deque 6 [1; 2; 3; 4]) with
  | Ret _ s' => deque_is u64_layout [1; 2; 3; 4] s' ∧ dropped s' = [] ∧ length (cells s') = Nat.min 8 5
  | Panic s' => true = true ∧ out_of_memory (λ _, false) ∧ deque_is u64_layout [1; 2; 3; 4] s' ∧
      dropped s' = [] ∧ length (cells s') = 8
  | Fault f => f = Aborted ∧ true = false ∧ out_of_memory (λ _, false)
  end.
Proof.
  apply (shrink_keeps_elements u64_layout (λ _, false) true 5 [1; 2; 3; 4] (sample_deque 6 [1; 2; 3; 4]));
    [apply u64_elem_ok|apply sample_deque_is; simpl; lia].
Defined.

(** [retain] with any predicate and any destructors, which may panic at any
    call: no undefined behaviour, and it terminates.  When it returns, the deque
    holds a subsequence of its elements, for a predicate that is a function the
    filtered ones, and the others have been dropped, each once.  When it unwinds,
    every element is still in the deque, or else is dropped, exactly once: all are
    still in it when the predicate panicked, and when a destructor did, the
    deque has only those to keep, in their order.  It only aborts when a second
    destructor panics during the unwinding. *)
Theorem deque_retain_safe {T} (el : Layout) (drop_panics : nat → T → bool) (f : nat → T → option bool)
    (l : list T) (s : deque T) :
  elem_ok el → deque_is el l s →
  match retain el drop_panics f s with
  | Ret _ s' => ∃ K J, deque_is el K s' ∧ dropped s' = reverse J ++ dropped s ∧ K ++ J ≡ₚ l ∧
      K `sublist_of` l ∧ ∀ q, (∀ c x, f c x = Some (q x)) → K = List.filter q l
  | Panic s' => ∃ K J, deque_is el K s' ∧ dropped s' = reverse J ++ dropped s ∧ K ++ J ≡ₚ l ∧
      ((∃ c x, f c x = None) ∧ J = [] ∨ drops_panic drop_panics ∧ K `sublist_of` l)
  | Fault e => e = Aborted ∧ drops_panic drop_panics
  end.
Proof.
  intros Hel Hl. pose proof (deque_retain_spec el (λ _, true) drop_panics Hel f
    (drops_panic drop_panics) l s (λ H, H) Hl) as H.
  case_run H as [?|?|[]]; done.
Qed.

Lemma deque_retain_safe_witness :
  match retain u64_layout (λ c _, c =? 5) (λ _ x, Some (Nat.even x)) (sample_deque 6 [1; 2; 4; 3]) with
  | Ret _ s' => ∃ K J, deque_is u64_layout K s' ∧ dropped s' = reverse J ++ [] ∧ K ++ J ≡ₚ [1; 2; 4; 3] ∧
      K `sublist_of` [1; 2; 4; 3] ∧
      ∀ q, (∀ (_ : nat) x, Some (Nat.even x) = Some (q x)) → K = List.filter q [1; 2; 4; 3]
  | Panic s' => ∃ K J, deque_is u64_layout K s' ∧ dropped s' = reverse J ++ [] ∧ K ++ J ≡ₚ [1; 2; 4; 3] ∧
      ((∃ (_ : nat) x, Some (Nat.even x) = None) ∧ J = [] ∨
       drops_panic (λ c (_ : nat), c =? 5) ∧ K `sublist_of` [1; 2; 4; 3])
  | Fault e => e = Aborted ∧ drops_panic (λ c (_ : nat), c =? 5)
  end.
Proof.
  apply (deque_retain_safe u64_layout (λ c _, c =? 5) (λ _ x, Some (Nat.even x)) [1; 2; 4; 3]
    (sample_deque 6 [1; 2; 4; 3])); [apply u64_elem_ok|apply sample_deque_is; simpl; lia].
Defined.

(** [split_off] followed by [append] is a round trip: the first cuts the
    sequence in two, and panics exactly for an index past the end; the second puts
    the parts together again, and leaves the other deque empty.  The second one
    needs no memory, so it returns whatever the allocator does. *)
Theorem split_off_append {T} (el : Layout) (alloc_ok : Layout → bool) (n : nat) (l : list T) (s : deque T) :
  elem_ok el → deque_is el l s →
  match split_off el alloc_ok n s with
  | Ret o s1 => n ≤ length l ∧ deque_is el (take n l) s1 ∧ deque_is el (drop n l) o ∧
      ∃ s2 o2, append el alloc_ok (s1, o) = Ret () (s2, o2) ∧ deque_is el l s2 ∧ deque_is el [] o2 ∧
        dropped s2 = dropped s ∧ dropped o2 = []
  | Panic s1 => length l < n ∧ s1 = s
  | Fault f => f = Aborted ∧ out_of_memory alloc_ok
  end.
Proof.
  intros Hel Hl. pose proof (deque_cap el l s Hl) as Hcap.
  pose proof (deque_split_off_spec el alloc_ok (λ _ _, false) Hel _ l n s (λ H, H) Hl) as H.
  case_run H as [o s1|s1|[]]; [|done..]. destruct H as (Hn&H1&H2&Hc&Hd1&Hd2). split_and!; [done..|].
  pose proof (deque_append_spec el alloc_ok (λ _ _, false) Hel False (take n l) (drop n l) s1 o) as Ha.
  rewrite take_drop, length_take, length_drop in Ha. specialize (Ha ltac:(lia) H1 H2).
  case_run Ha as [[] [s2 o2]| |[]]; [|lia|done..].
  destruct Ha as (?&?&?&?). exists s2, o2. split_and!; [done..| |]; congruence.
Qed.

Lemma split_off_append_witness :
  match split_off u64_layout (λ _, true) 1 (sample_deque 6 [1; 2; 3; 4]) with
  | Ret o s1 => 1 ≤ 4 ∧ deque_is u64_layout [1] s1 ∧ deque_is u64_layout [2; 3; 4] o ∧
      ∃ s2 o2, append u64_layout (λ _, true) (s1, o) = Ret () (s2, o2) ∧
        deque_is u64_layout [1; 2; 3; 4] s2 ∧ deque_is u64_layout [] o2 ∧ dropped s2 = [] ∧ dropped o2 = []
  | Panic s1 => 4 < 1 ∧ s1 = sample_deque 6 [1; 2; 3; 4]
  | Fault f => f = Aborted ∧ out_of_memory (λ _, true)
  end.
Proof.
  apply (split_off_append u64_layout (λ _, true) 1 [1; 2; 3; 4] (sample_deque 6 [1; 2; 3; 4]));
    [apply u64_elem_ok|apply sample_deque_is; simpl; lia].
Defined.
