(* ===== verification/Words.v ===== *)
(** Machine words as integers: masks and shifts as arithmetic, and words as the
    bytes they consist of. *)

From S2P Require Import Prelude.

#[local] Open Scope Z_scope.

Definition byte_ok (b : Z) : Prop := 0 ≤ b < 256.

#[global] Instance byte_ok_dec b : Decision (byte_ok b).
Proof. unfold byte_ok. apply _. Defined.

(** ** Masks, shifts, and disjoint alternatives *)
Lemma land_low a n : 0 ≤ n → Z.land a (2 ^ n - 1) = a mod 2 ^ n.
Proof. intros Hn. rewrite <- Z.land_ones by done. by rewrite Z.ones_equiv, Z.sub_1_r. Qed.

Lemma testbit_high b n i : 0 ≤ b < 2 ^ n → n ≤ i → Z.testbit b i = false.
Proof.
  intros Hb Hi. assert (0 ≤ n) by (destruct (Z.leb_spec 0 n); [done|]; rewrite Z.pow_neg_r in Hb; lia).
  apply Z.testbit_false; [lia|]. rewrite Z.div_small; [done|]. split; [lia|].
  eapply Z.lt_le_trans; [apply Hb|]. apply Z.pow_le_mono_r; lia.
Qed.

Lemma lor_add a b n : 0 ≤ n → 0 ≤ b < 2 ^ n → a mod 2 ^ n = 0 → Z.lor a b = a + b.
Proof.
  intros Hn Hb Ha. assert (Z.land a b = 0) as H0.
  { apply Z.bits_inj'. intros i Hi. rewrite Z.land_spec, Z.bits_0.
    destruct (Z.ltb_spec i n).
    - assert (a = 2 ^ n * (a / 2 ^ n)) as -> by (pose proof (Z.div_mod a (2 ^ n)); lia).
      rewrite Z.mul_comm. by rewrite Z.mul_pow2_bits_low.
    - rewrite (testbit_high b n) by done. apply andb_false_r. }
  by rewrite <- Z.add_lor_land, H0, Z.add_0_r.
Qed.

Lemma shiftl_lor a b n : 0 ≤ n → 0 ≤ b < 2 ^ n → Z.lor (Z.shiftl a n) b = a * 2 ^ n + b.
Proof.
  intros Hn Hb. rewrite (lor_add _ b n Hn Hb); rewrite Z.shiftl_mul_pow2 by done; [done|].
  by apply Z.mod_mul; lia.
Qed.

(** ** Words as bytes *)
(** The bytes of a word in the order of the memory of a little-endian machine. *)
Fixpoint word_of (bs : list Z) : Z :=
  match bs with [] => 0 | b :: bs => b + 256 * word_of bs end.

Lemma word_of_bound bs : Forall byte_ok bs → 0 ≤ word_of bs < 256 ^ Z.of_nat (length bs).
Proof.
  unfold byte_ok. induction 1 as [|b bs Hb _ IH]; cbn [word_of length]; [done|].
  rewrite Nat2Z.inj_succ, Z.pow_succ_r by lia. lia.
Qed.

(** Bitwise operations work byte by byte. *)
Lemma byte_land a b x y : 0 ≤ a < 256 → 0 ≤ b < 256 →
  Z.land (a + 256 * x) (b + 256 * y) = Z.land a b + 256 * Z.land x y.
Proof.
  intros Ha Hb. rewrite !(Z.add_comm _ (256 * _)), !(Z.mul_comm 256). change 256 with (2 ^ 8).
  assert (0 ≤ Z.land a b < 2 ^ 8) as Hab.
  { assert (Z.land a b = Z.land a b mod 2 ^ 8) as ->; [|by apply Z.mod_pos_bound].
    rewrite <- land_low, <- Z.land_assoc, land_low, Z.mod_small by lia. done. }
  rewrite <- !shiftl_lor by lia. apply Z.bits_inj'. intros i Hi.
  rewrite Z.land_spec, !Z.lor_spec, !Z.shiftl_spec, !Z.land_spec by done.
  destruct (Z.ltb_spec i 8).
  - by rewrite !(Z.testbit_neg_r _ (i - 8)) by lia.
  - rewrite !(testbit_high _ 8 i) by lia. by rewrite !orb_false_r.
Qed.

(** Clearing the low bits. *)
Lemma land_high x k n : 0 ≤ k ≤ n → 0 ≤ x < 2 ^ n → Z.land x (2 ^ n - 2 ^ k) = x - x mod 2 ^ k.
Proof.
  intros Hk Hx. assert (x - x mod 2 ^ k = x / 2 ^ k * 2 ^ k) as -> by (pose proof (Z.div_mod x (2 ^ k)); lia).
  assert (2 ^ n - 2 ^ k = Z.ones (n - k) * 2 ^ k) as ->.
  { rewrite Z.ones_equiv, Z.mul_pred_l, <- Z.pow_add_r by lia. f_equal. f_equal. lia. }
  apply Z.bits_inj'. intros i Hi. rewrite Z.land_spec.
  destruct (Z.ltb_spec i k); [rewrite !Z.mul_pow2_bits_low by done; apply andb_false_r|].
  rewrite !Z.mul_pow2_bits, Z.div_pow2_bits, Z.testbit_ones by lia.
  replace (i - k + k) with i by lia. destruct (Z.ltb_spec i n).
  - rewrite (proj2 (Z.leb_le _ _)), (proj2 (Z.ltb_lt _ _)) by lia. apply andb_true_r.
  - by rewrite (testbit_high x n i).
Qed.

Lemma mod_pow2_div x k g : 0 ≤ g ≤ k → x mod 2 ^ k / 2 ^ g = (x / 2 ^ g) mod 2 ^ (k - g).
Proof.
  intros Hg. assert (2 ^ k = 2 ^ g * 2 ^ (k - g)) as -> by (rewrite <- Z.pow_add_r by lia; f_equal; lia).
  rewrite Z.rem_mul_r by lia.
  rewrite Z.mul_comm, Z.div_add by lia. rewrite Z.div_small by (apply Z.mod_pos_bound; lia). lia.
Qed.

(** [xor] with a number whose low bits are zero. *)
Lemma lxor_high h l k n : 0 ≤ n → 0 ≤ l < 2 ^ n → Z.lxor (h * 2 ^ n + l) (k * 2 ^ n) = Z.lxor h k * 2 ^ n + l.
Proof.
  intros Hn Hl. rewrite <- !shiftl_lor by done. rewrite <- (Z.shiftl_mul_pow2 k) by done.
  apply Z.bits_inj'. intros i Hi. rewrite Z.lxor_spec, !Z.lor_spec, !Z.shiftl_spec, Z.lxor_spec by done.
  destruct (Z.ltb_spec i n); [rewrite !(Z.testbit_neg_r _ (i - n)) by lia|rewrite (testbit_high l n i) by done];
    by rewrite ?xorb_false_r, ?orb_false_r.
Qed.

Lemma lxor_div h k n : 0 ≤ n → 0 ≤ k < 2 ^ n → Z.lxor h k / 2 ^ n = h / 2 ^ n.
Proof.
  intros Hn Hk. apply Z.bits_inj'. intros i Hi.
  rewrite !Z.div_pow2_bits, Z.lxor_spec, (testbit_high k n) by lia. apply xorb_false_r.
Qed.

(** Facts about small numbers, by trying them all. *)
Lemma forallb_range (f : Z → bool) lo n : forallb f (seqZ lo n) = true → ∀ x, lo ≤ x < lo + n → f x = true.
Proof. intros H x Hx. rewrite forallb_forall in H. apply H. apply list_elem_of_In, elem_of_seqZ. lia. Qed.

(** ** The integer types of Rust and their operators.

    An integer of a type is a [Z] in its range.  A definition is [None] where the
    code would panic: on an overflow, on a division by zero, or where it says so;
    an [Option] that the code returns is an [option] inside.  The bit operators of
    [Z] are those of two's complement.  [isize] and [usize] are 64 bits wide. *)

Record int_ty := IntTy { signed : bool; bits : Z }.

Definition uint (w : Z) : int_ty := IntTy false w.
Definition sint (w : Z) : int_ty := IntTy true w.

(** The widths of the integer types *)
Definition width_ok (w : Z) : Prop := w = 8 ∨ w = 16 ∨ w = 32 ∨ w = 64 ∨ w = 128.
Definition int_ok (t : int_ty) : Prop := width_ok (bits t).

Definition MIN (t : int_ty) : Z := if signed t then - 2 ^ (bits t - 1) else 0.
Definition MAX (t : int_ty) : Z := if signed t then 2 ^ (bits t - 1) - 1 else 2 ^ bits t - 1.
Definition in_range (t : int_ty) (x : Z) : Prop := MIN t ≤ x ≤ MAX t.

#[global] Instance in_range_dec t x : Decision (in_range t x).
Proof. unfold in_range. apply _. Defined.

(** The value that is left of [x] in the bits of a type *)
Definition wrap (t : int_ty) (x : Z) : Z :=
  if signed t then (x + 2 ^ (bits t - 1)) mod 2 ^ bits t - 2 ^ (bits t - 1) else x mod 2 ^ bits t.

(** A result that must not overflow: of the operators, and of the [checked_] methods *)
Definition fit (t : int_ty) (x : Z) : option Z := if decide (in_range t x) then Some x else None.
(** The result of the [overflowing_] methods *)
Definition overflowing (t : int_ty) (x : Z) : Z * bool := (wrap t x, negb (bool_decide (in_range t x))).

(** [/] and [%] *)
Definition div (t : int_ty) (a b : Z) : option Z := if b =? 0 then None else fit t (a `quot` b).
Definition rem (t : int_ty) (a b : Z) : option Z := _ ← div t a b; Some (a `rem` b).

(** The instruction that counts leading zeros of [w] bits *)
Definition leading_zeros (w x : Z) : Z := if x =? 0 then w else w - 1 - Z.log2 x.

Definition assert (b : bool) : option () := if b then Some () else None.

(** ** Lemmas *)
Lemma width_pow w : width_ok w → 2 ^ w = 2 * 2 ^ (w - 1) ∧ 128 ≤ 2 ^ (w - 1).
Proof. intros [-> | [-> | [-> | [-> | ->]]]]; done. Qed.

Lemma width_pos w : width_ok w → 8 ≤ w ≤ 128.
Proof. intros [-> | [-> | [-> | [-> | ->]]]]; done. Qed.

(** Turns the bounds of a type into bounds by a variable. *)
Ltac int_bounds t :=
  let m := fresh "m" in let Hm := fresh "Hm" in
  match goal with H : int_ok t |- _ =>
    destruct (width_pow _ H) as [Hm ?];
    unfold fit, wrap, in_range, MIN, MAX in *; rewrite ?Hm in *;
    set (m := 2 ^ (bits t - 1)) in *; clearbody m; clear Hm
  end.

Lemma fit_in t x : in_range t x → fit t x = Some x.
Proof. intros. unfold fit. by rewrite decide_True. Qed.

Lemma fit_out t x : ¬ in_range t x → fit t x = None.
Proof. intros. unfold fit. by rewrite decide_False. Qed.

Lemma fit_Some t x y : fit t x = Some y ↔ y = x ∧ in_range t x.
Proof. unfold fit. case_decide; naive_solver. Qed.

Lemma wrap_range t x : int_ok t → in_range t (wrap t x).
Proof.
  intros Ht. int_bounds t.
  pose proof (Z.mod_pos_bound x (2 * m)). pose proof (Z.mod_pos_bound (x + m) (2 * m)). destruct (signed t); lia.
Qed.

Lemma wrap_id t x : int_ok t → in_range t x → wrap t x = x.
Proof. intros Ht Hx. int_bounds t. destruct (signed t); rewrite Z.mod_small; lia. Qed.

Lemma wrap_cong t x y : int_ok t → wrap t x = wrap t y ↔ x mod 2 ^ bits t = y mod 2 ^ bits t.
Proof.
  intros Ht. destruct (width_pow _ Ht) as [Hm ?]. unfold wrap. destruct (signed t); [|done].
  set (w := 2 ^ bits t) in *. set (m := 2 ^ (bits t - 1)) in *. split; intros Hxy.
  - assert (H1 : ((x + m) mod w - m) mod w = ((y + m) mod w - m) mod w) by (by rewrite Hxy).
    rewrite !Zminus_mod_idemp_l in H1. by rewrite !Z.add_simpl_r in H1.
  - rewrite (Z.add_mod x), (Z.add_mod y), Hxy by lia. done.
Qed.

Lemma wrap_residue t x : int_ok t → wrap t x mod 2 ^ bits t = x mod 2 ^ bits t.
Proof.
  intros Ht. apply wrap_cong; [done|]. apply wrap_id; [done|]. by apply wrap_range.
Qed.

Lemma uint_range w x : in_range (uint w) x ↔ 0 ≤ x < 2 ^ w.
Proof. unfold in_range, MIN, MAX. cbn [uint signed bits]. lia. Qed.

Lemma sint_range w x : in_range (sint w) x ↔ - 2 ^ (w - 1) ≤ x < 2 ^ (w - 1).
Proof. unfold in_range, MIN, MAX. cbn [sint signed bits]. lia. Qed.

Lemma range_weaken t x y : int_ok t → in_range t y → Z.abs x < Z.abs y → (signed t = false → 0 ≤ x) → in_range t x.
Proof. intros Ht Hy Hx Hs. int_bounds t. destruct (signed t); [lia | specialize (Hs eq_refl); lia]. Qed.
