(* ===== verification/AlignOffset.v ===== *)
(** [core::ptr::align_offset] ([core/src/ptr/mod.rs]): how many elements of the
    size [stride] a pointer has to move to be aligned to [a].  Addresses are
    64-bit words; [None] is undefined behaviour. *)

From S2P Require Import Prelude.
From S2P Require Import Layout.
From S2P Require Import Words.

#[local] Open Scope Z_scope.

Definition wrapping (x : Z) : Z := x mod 2 ^ 64.

(** ** The intrinsics *)
Definition unchecked_rem (a b : Z) : unsafe Z := if b =? 0 then None else Some (a mod b).
Definition exact_div (a b : Z) : unsafe Z :=
  if (b =? 0) || negb (a mod b =? 0) then None else Some (a / b).
Definition unchecked_shl (a n : Z) : unsafe Z := if n <? 64 then Some (wrapping (Z.shiftl a n)) else None.
Definition unchecked_shr (a n : Z) : unsafe Z := if n <? 64 then Some (Z.shiftr a n) else None.

Fixpoint pos_cttz (p : positive) : Z :=
  match p with xO p => 1 + pos_cttz p | _ => 0 end.
Definition cttz_nonzero (x : Z) : unsafe Z :=
  match x with Zpos p => Some (pos_cttz p) | _ => None end.

(** ** The inverse of an odd number modulo a power of two *)
Definition INV_TABLE_MOD_16 : list Z := [1; 11; 13; 7; 9; 3; 5; 15].
Definition INV_TABLE_MOD : Z := 16.

Fixpoint mod_inv_loop (fuel : nat) (x m inverse mod_gate : Z) : unsafe Z :=
  match fuel with
  | O => None
  | S fuel =>
      if m <=? mod_gate then Some inverse else
      let inverse := wrapping (inverse * wrapping (2 - wrapping (x * inverse))) in
      let new_gate := mod_gate * mod_gate in
      if usize_MAX <? new_gate then Some inverse else mod_inv_loop fuel x m inverse new_gate
  end.

Definition mod_inv (x m : Z) : unsafe Z :=
  m_minus_one ← unchecked_sub m 1;
  inverse ← INV_TABLE_MOD_16 !! Z.to_nat (Z.shiftr (Z.land x (INV_TABLE_MOD - 1)) 1);
  inverse ← mod_inv_loop 5 x m inverse INV_TABLE_MOD;
  Some (Z.land inverse m_minus_one).

(** ** [align_offset] *)
Definition align_offset (stride addr a : Z) : unsafe Z :=
  a_minus_one ← unchecked_sub a 1;
  if stride =? 0 then
    let p_mod_a := Z.land addr a_minus_one in
    Some (if p_mod_a =? 0 then 0 else usize_MAX)
  else
  a_mod_stride ← unchecked_rem a stride;
  if a_mod_stride =? 0 then
    let aligned_address := Z.land (wrapping (addr + a_minus_one)) (wrapping (0 - a)) in
    let byte_offset := wrapping (aligned_address - addr) in
    _ ← guard (byte_offset < a);
    addr_mod_stride ← unchecked_rem addr stride;
    if addr_mod_stride =? 0 then exact_div byte_offset stride else Some usize_MAX
  else
  x ← cttz_nonzero stride;
  y ← cttz_nonzero a;
  let gcdpow := if x <? y then x else y in
  gcd ← unchecked_shl 1 gcdpow;
  gcd_minus_one ← unchecked_sub gcd 1;
  if Z.land addr gcd_minus_one =? 0 then
    a2 ← unchecked_shr a gcdpow;
    a2minus1 ← unchecked_sub a2 1;
    s2 ← unchecked_shr (Z.land stride a_minus_one) gcdpow;
    p2 ← unchecked_shr (Z.land addr a_minus_one) gcdpow;
    minusp2 ← unchecked_sub a2 p2;
    inv ← mod_inv s2 a2;
    Some (Z.land (wrapping (minusp2 * inv)) a2minus1)
  else Some usize_MAX.

Example align_4 : align_offset 4 20 16 = Some 3. Proof. reflexivity. Qed.
Example align_12 : align_offset 12 4 32 = Some 5. Proof. reflexivity. Qed.
Example align_7 : align_offset 7 1 (2 ^ 40) = Some 628292358729. Proof. reflexivity. Qed.

(** ** Correctness *)
Lemma pos_cttz_spec p : ∃ q, Zpos p = 2 ^ pos_cttz p * (2 * q + 1) ∧ 0 ≤ q ∧ 0 ≤ pos_cttz p.
Proof.
  induction p as [p _|p (q&Hq&?&?)|]; cbn [pos_cttz].
  - exists (Zpos p). change (2 ^ 0) with 1. lia.
  - exists q. rewrite Z.pow_add_r by lia. split_and!; [|done|lia]. rewrite (Pos2Z.inj_xO p), Hq. lia.
  - exists 0. done.
Qed.

Lemma cttz_spec x : 0 < x → ∃ n q, cttz_nonzero x = Some n ∧ x = 2 ^ n * (2 * q + 1) ∧ 0 ≤ q ∧ 0 ≤ n.
Proof.
  intros Hx. destruct x as [|p|p]; [lia| |lia]. destruct (pos_cttz_spec p) as (q&?&?&?). by eexists _, q.
Qed.

Lemma cttz_pow2 k : 0 ≤ k → cttz_nonzero (2 ^ k) = Some k.
Proof.
  intros Hk. destruct (cttz_spec (2 ^ k)) as (n&q&->&Hx&?&?); [lia|]. f_equal.
  destruct (Z.lt_trichotomy n k) as [Hlt|[?|Hgt]]; [|done|].
  - exfalso. replace k with (n + (1 + (k - n - 1))) in Hx by lia.
    rewrite !Z.pow_add_r in Hx by lia. apply Z.mul_reg_l in Hx; [|lia].
    change (2 ^ 1) with 2 in Hx. lia.
  - exfalso. assert (2 ^ k < 2 ^ n) by (apply Z.pow_lt_mono_r; lia). nia.
Qed.

(** [y] is an inverse of [x] modulo [m]. *)
Definition inverse_mod (x y m : Z) : Prop := (m | x * y - 1).

Lemma inverse_mod_smaller x y k n : 0 ≤ k ≤ n → inverse_mod x y (2 ^ n) → inverse_mod x y (2 ^ k).
Proof.
  intros Hk. apply Z.divide_trans. exists (2 ^ (n - k)). rewrite <- Z.pow_add_r by lia. f_equal. lia.
Qed.

Lemma divide_wrapping m x : (m | 2 ^ 64) → (m | x - wrapping x).
Proof.
  intros Hm. unfold wrapping. etransitivity; [exact Hm|].
  exists (x / 2 ^ 64). pose proof (Z.div_mod x (2 ^ 64)). lia.
Qed.

(** One round doubles the number of correct bits. *)
Lemma inverse_step x y n : 0 ≤ n → 2 * n ≤ 64 → inverse_mod x y (2 ^ n) →
  inverse_mod x (wrapping (y * wrapping (2 - wrapping (x * y)))) (2 ^ (2 * n)).
Proof.
  intros Hn H64 [q Hq]. unfold inverse_mod.
  assert ((2 ^ (2 * n) | 2 ^ 64)) as Hd.
  { exists (2 ^ (64 - 2 * n)). rewrite <- Z.pow_add_r by lia. f_equal. lia. }
  destruct (divide_wrapping _ (x * y) Hd) as [a Ha].
  destruct (divide_wrapping _ (2 - wrapping (x * y)) Hd) as [b Hb].
  destruct (divide_wrapping _ (y * wrapping (2 - wrapping (x * y))) Hd) as [c Hc].
  assert (2 ^ (2 * n) = 2 ^ n * 2 ^ n) as Hp by (rewrite <- Z.pow_add_r by lia; f_equal; lia).
  set (u := wrapping (x * y)) in *. set (v := wrapping (2 - u)) in *. set (w := wrapping (y * v)) in *.
  exists (x * y * a - x * y * b - x * c - q * q). clearbody u v w.
  assert (w = y * v - c * 2 ^ (2 * n)) as -> by lia. assert (v = 2 - u - b * 2 ^ (2 * n)) as -> by lia.
  assert (u = x * y - a * 2 ^ (2 * n)) as -> by lia. rewrite Hp in *. nia.
Qed.

Lemma mod_inv_table x : x mod 2 = 1 →
  ∃ y, INV_TABLE_MOD_16 !! Z.to_nat (Z.shiftr (Z.land x (INV_TABLE_MOD - 1)) 1) = Some y ∧ inverse_mod x y (2 ^ 4).
Proof.
  intros Hx. change (INV_TABLE_MOD - 1) with (Z.ones 4). rewrite Z.land_ones by done.
  assert (x mod 2 ^ 4 ∈ [1; 3; 5; 7; 9; 11; 13; 15]) as Hr.
  { change (2 ^ 4) with 16. assert (x mod 16 = 1 ∨ x mod 16 = 3 ∨ x mod 16 = 5 ∨ x mod 16 = 7 ∨
      x mod 16 = 9 ∨ x mod 16 = 11 ∨ x mod 16 = 13 ∨ x mod 16 = 15) as H by dlia.
    rewrite !elem_of_cons. tauto. }
  assert (∀ y, inverse_mod (x mod 2 ^ 4) y (2 ^ 4) → inverse_mod x y (2 ^ 4)) as Hmod.
  { intros y [q Hq]. exists (q + y * (x / 2 ^ 4)). pose proof (Z.div_mod x (2 ^ 4)). nia. }
  rewrite !elem_of_cons in Hr.
  destruct Hr as [Hr|[Hr|[Hr|[Hr|[Hr|[Hr|[Hr|[Hr|Hr%elem_of_nil]]]]]]]]; [..|done];
    rewrite Hr; eexists; (split; [reflexivity|]); apply Hmod; rewrite Hr; by apply Z.mod_divide.
Qed.

Lemma mod_inv_loop_spec fuel k x y n :
  0 ≤ k < 64 → n = 4 ∨ n = 8 ∨ n = 16 ∨ n = 32 → n * 2 ^ Z.of_nat fuel = 128 → inverse_mod x y (2 ^ n) →
  ∃ y', mod_inv_loop fuel x (2 ^ k) y (2 ^ n) = Some y' ∧ inverse_mod x y' (2 ^ k).
Proof.
  intros Hk. revert y n. induction fuel as [|fuel IH]; intros y n Hn Hfuel Hy.
  { change (2 ^ Z.of_nat 0) with 1 in Hfuel. lia. }
  rewrite Nat2Z.inj_succ, Z.pow_succ_r in Hfuel by lia. cbn [mod_inv_loop].
  destruct (Z.leb_spec (2 ^ k) (2 ^ n)) as [Hle|Hlt].
  - exists y. split; [done|]. apply (inverse_mod_smaller _ _ k n); [|done].
    apply Z.pow_le_mono_r_iff in Hle; lia.
  - apply (inverse_step x y n) in Hy; [|lia..]. cbv zeta. rewrite <- Z.pow_add_r, Z.add_diag by lia.
    destruct (Z.ltb_spec usize_MAX (2 ^ (2 * n))) as [Hov|Hov].
    + eexists. split; [done|]. eapply inverse_mod_smaller; [|exact Hy]. split; [lia|].
      unfold usize_MAX in Hov. assert (2 ^ 63 < 2 ^ (2 * n)) as Hgt by lia.
      apply Z.pow_lt_mono_r_iff in Hgt; lia.
    + apply IH; [|lia|done]. unfold usize_MAX in Hov.
      assert (2 ^ (2 * n) < 2 ^ 64) as Hgt by lia. apply Z.pow_lt_mono_r_iff in Hgt; lia.
Qed.

Lemma mod_inv_spec k x : 0 ≤ k < 64 → (x mod 2 = 1 ∨ x = 0 ∧ k = 0) →
  ∃ y, mod_inv x (2 ^ k) = Some y ∧ 0 ≤ y < 2 ^ k ∧ inverse_mod x y (2 ^ k).
Proof.
  intros Hk Hx. unfold mod_inv, unchecked_sub. assert (0 < 2 ^ k) as Hpos by lia.
  rewrite (proj2 (Z.leb_le 1 (2 ^ k))) by lia. cbn [mbind option_bind].
  assert (∃ y y', INV_TABLE_MOD_16 !! Z.to_nat (Z.shiftr (Z.land x (INV_TABLE_MOD - 1)) 1) = Some y ∧
    mod_inv_loop 5 x (2 ^ k) y INV_TABLE_MOD = Some y' ∧ inverse_mod x y' (2 ^ k)) as (y&y'&->&Hy&Hinv).
  { destruct Hx as [Hx|[-> ->]].
    - destruct (mod_inv_table x Hx) as (y&->&Hy).
      destruct (mod_inv_loop_spec 5 k x y 4) as (y'&?&?); [done|auto|done|done|]. eauto.
    - exists 1, 1. split_and!; [done|done|]. by apply Z.divide_1_l. }
  cbn [mbind option_bind]. rewrite Hy. cbn [mbind option_bind].
  rewrite land_low by lia. eexists. split; [done|]. split; [by apply Z.mod_pos_bound|].
  destruct Hinv as [q Hq]. exists (q - x * (y' / 2 ^ k)). pose proof (Z.div_mod y' (2 ^ k)). nia.
Qed.

Section correct.
Context (stride addr k : Z).
Hypothesis Hstride : 0 ≤ stride ≤ isize_MAX.
Hypothesis Haddr : 0 ≤ addr ≤ usize_MAX.
Hypothesis Hk : 0 ≤ k < 64.
Let a := 2 ^ k.

(** [o] elements further the pointer is aligned. *)
Definition aligns (o : Z) : Prop := (a | addr + o * stride).

(** The least number of elements, or none. *)
Definition least_offset (r : Z) : Prop :=
  0 ≤ r < a ∧ aligns r ∧ ∀ o, 0 ≤ o → aligns o → r ≤ o.
Definition offset_or_none (r : Z) : Prop :=
  least_offset r ∨ r = usize_MAX ∧ ∀ o, ¬ aligns o.

Lemma a_bounds : 1 ≤ a ≤ 2 ^ 63.
Proof. subst a. split; [lia|]. apply Z.pow_le_mono_r; lia. Qed.

(** The stride divides the alignment: the byte offset is found by rounding up. *)
Lemma byte_offset_eq :
  wrapping (Z.land (wrapping (addr + (a - 1))) (wrapping (0 - a)) - addr) = (- addr) mod a.
Proof.
  pose proof a_bounds as Ha. unfold wrapping.
  assert ((0 - a) mod 2 ^ 64 = 2 ^ 64 - a) as ->.
  { symmetry. apply (Z.mod_unique_pos _ _ (-1)); lia. }
  unfold a at 2. rewrite land_high by (try apply Z.mod_pos_bound; lia). fold a.
  assert ((a | 2 ^ 64)) as Hd.
  { exists (2 ^ (64 - k)). unfold a. rewrite <- Z.pow_add_r by lia. f_equal. lia. }
  rewrite Z.mod_mod_divide by done.
  pose proof (Z.div_mod (addr + (a - 1)) (2 ^ 64) ltac:(lia)) as Hx.
  pose proof (Z.div_mod (addr + (a - 1)) a ltac:(lia)) as Hr.
  pose proof (Z.mod_pos_bound (addr + (a - 1)) a ltac:(lia)) as Hb.
  set (x := (addr + (a - 1)) mod 2 ^ 64) in *. set (r := (addr + (a - 1)) mod a) in *.
  transitivity (a - 1 - r).
  - symmetry. apply (Z.mod_unique_pos _ _ (- ((addr + (a - 1)) / 2 ^ 64))); lia.
  - apply (Z.mod_unique_pos _ _ (- ((addr + (a - 1)) / a))); lia.
Qed.

(** The stride divides the alignment. *)
Lemma align_by_bytes : 0 < stride → (stride | a) →
  let c := (- addr) mod a in
  (addr mod stride = 0 → exact_div c stride = Some (c / stride) ∧ least_offset (c / stride)) ∧
  (addr mod stride ≠ 0 → ∀ o, ¬ aligns o).
Proof.
  intros Hs [t Ht] c. pose proof a_bounds. pose proof (Z.mod_pos_bound (- addr) a ltac:(lia)) as Hc.
  pose proof (Z.div_mod (- addr) a ltac:(lia)) as Hd. fold c in Hc, Hd. set (e := (- addr) / a) in *. split.
  - intros H0. pose proof (Z.div_mod addr stride ltac:(lia)) as Hq. rewrite H0 in Hq.
    set (q := addr / stride) in *. assert (c = stride * (- q - t * e)) as Hcs by nia.
    set (d := - q - t * e) in *. clearbody d. assert (c / stride = d) as ->.
    { rewrite Hcs, Z.mul_comm. apply Z.div_mul. lia. }
    split.
    + unfold exact_div. rewrite (proj2 (Z.eqb_neq stride 0)) by lia.
      rewrite Hcs, Z.mul_comm, Z.mod_mul, Z.div_mul by lia. done.
    + split; [nia|]. split.
      * exists (- e). nia.
      * intros o Ho [z Hz]. destruct (Z.leb_spec d o); [done|]. exfalso.
        assert (a * (z + e) = (o - d) * stride) by nia.
        assert (z + e < 0) by nia. nia.
  - intros H0 o [z Hz]. apply H0, Z.mod_divide; [lia|]. exists (z * t - o). nia.
Qed.

(** The general case: the congruence is divided by the common power of two. *)
Lemma align_by_inverse g s2 p2 inv :
  let a2 := 2 ^ (k - g) in
  0 ≤ g ≤ k → (2 ^ g | addr) → (2 ^ g | stride) →
  s2 = (stride / 2 ^ g) mod a2 → p2 = (addr / 2 ^ g) mod a2 → inverse_mod s2 inv a2 →
  least_offset ((a2 - p2) * inv mod a2).
Proof.
  intros a2 Hg [p Hp] [s Hs] Hs2 Hp2 [q Hq].
  assert (0 < 2 ^ g) as Hg0 by lia. assert (0 < a2) as Ha2 by (unfold a2; lia).
  assert (a = 2 ^ g * a2) as Haeq by (unfold a, a2; rewrite <- Z.pow_add_r by lia; f_equal; lia).
  rewrite Hs, Z.div_mul in Hs2 by lia. rewrite Hp, Z.div_mul in Hp2 by lia.
  pose proof (Z.div_mod s a2 ltac:(lia)) as Hds. pose proof (Z.div_mod p a2 ltac:(lia)) as Hdp.
  rewrite <- Hs2 in Hds. rewrite <- Hp2 in Hdp.
  pose proof (Z.mod_pos_bound ((a2 - p2) * inv) a2 Ha2) as Hr.
  pose proof (Z.div_mod ((a2 - p2) * inv) a2 ltac:(lia)) as Hdr.
  set (r := (a2 - p2) * inv mod a2) in *. set (e := (a2 - p2) * inv / a2) in *.
  set (ss := s / a2) in *. set (pp := p / a2) in *.
  (* [p + o * s] is a multiple of [a2] *)
  assert (∀ o, aligns o ↔ (a2 | p2 + o * s2)) as Hal.
  { intros o. unfold aligns. rewrite Haeq, Hp, Hs. clear Hdr. split; intros [z Hz].
    - exists (z - pp - o * ss). assert (p + o * s = z * a2) as Hz'; [|rewrite Hds, Hdp in Hz'; lia].
      apply (Z.mul_cancel_r _ _ (2 ^ g)); lia.
    - exists (z + pp + o * ss). rewrite Hds, Hdp. apply (f_equal (λ x, x * 2 ^ g)) in Hz. lia. }
  clear Hp Hs Hs2 Hp2 Hdp Hds Haeq.
  split; [|split].
  - split; [lia|]. apply Z.lt_le_trans with a2; [lia|]. unfold a, a2. apply Z.pow_le_mono_r; lia.
  - apply Hal. exists (1 + (a2 - p2) * q - e * s2).
    apply (f_equal (λ x, (a2 - p2) * x)) in Hq. apply (f_equal (λ x, s2 * x)) in Hdr. lia.
  - intros o Ho [z Hz]%Hal.
    (* [o] and [r] are congruent *)
    assert ((a2 | o - r)) as [w Hw].
    { exists (inv * z - o * q - inv + e).
      apply (f_equal (λ x, o * x)) in Hq. apply (f_equal (λ x, x * inv)) in Hz. lia. }
    destruct (Z.leb_spec r o); [done|]. exfalso. assert (w < 0) by nia. nia.
Qed.

Lemma cttz_min : 0 < stride → ∃ n, cttz_nonzero stride = Some n ∧ 0 ≤ n ∧ (2 ^ n | stride) ∧
  (n < k → (stride / 2 ^ n) mod 2 ^ (k - n) mod 2 = 1).
Proof.
  intros Hs. destruct (cttz_spec stride Hs) as (n&q&->&Hq&?&?). exists n. split_and!; [done|done| |].
  - exists (2 * q + 1). lia.
  - intros Hn. rewrite Hq, Z.mul_comm, Z.div_mul by lia.
    rewrite Z.mod_mod_divide; [rewrite Z.add_comm, Z.mul_comm, Z.mod_add; [done|lia]|].
    exists (2 ^ (k - n - 1)). rewrite <- (Z.pow_1_r 2) at 3. rewrite <- Z.pow_add_r by lia. f_equal. lia.
Qed.

Lemma align_offset_general : 0 < stride → ∃ r,
  (x ← cttz_nonzero stride;
   y ← cttz_nonzero a;
   let gcdpow := if x <? y then x else y in
   gcd ← unchecked_shl 1 gcdpow;
   gcd_minus_one ← unchecked_sub gcd 1;
   if Z.land addr gcd_minus_one =? 0 then
     a2 ← unchecked_shr a gcdpow;
     a2minus1 ← unchecked_sub a2 1;
     s2 ← unchecked_shr (Z.land stride (a - 1)) gcdpow;
     p2 ← unchecked_shr (Z.land addr (a - 1)) gcdpow;
     minusp2 ← unchecked_sub a2 p2;
     inv ← mod_inv s2 a2;
     Some (Z.land (wrapping (minusp2 * inv)) a2minus1)
   else Some usize_MAX) = Some r ∧ offset_or_none r.
Proof.
  intros Hs. destruct (cttz_min Hs) as (n&->&Hn&Hdiv&Hodd). unfold a. rewrite cttz_pow2 by lia.
  cbn [mbind option_bind]. cbv zeta.
  set (g := if n <? k then n else k).
  assert (g = Z.min n k) as Hg by (subst g; destruct (Z.ltb_spec n k); lia). clearbody g.
  assert (0 < 2 ^ g) as Hpg by (apply Z.pow_pos_nonneg; lia). assert (0 < 2 ^ (k - g)) as Hpk by (apply Z.pow_pos_nonneg; lia).
  assert ((2 ^ g | stride)) as Hgs.
  { etransitivity; [|exact Hdiv]. exists (2 ^ (n - g)). rewrite <- Z.pow_add_r by lia. f_equal. lia. }
  unfold unchecked_shl, unchecked_shr. rewrite (proj2 (Z.ltb_lt g 64)) by lia. cbn [mbind option_bind].
  assert (wrapping (Z.shiftl 1 g) = 2 ^ g) as ->.
  { rewrite Z.shiftl_1_l. apply Z.mod_small. split; [lia|]. apply Z.pow_lt_mono_r; lia. }
  assert (∀ x, 1 ≤ x → unchecked_sub x 1 = Some (x - 1)) as Hsub.
  { intros x Hx. unfold unchecked_sub. by rewrite (proj2 (Z.leb_le 1 x)). }
  rewrite (Hsub (2 ^ g)) by lia. cbn [mbind option_bind]. rewrite (land_low addr g) by lia.
  destruct (Z.eqb_spec (addr mod 2 ^ g) 0) as [H0|H0].
  2:{ eexists. split; [done|]. right. split; [done|]. intros o Ho. apply H0, Z.mod_divide; [lia|].
      apply (Z.divide_add_cancel_r _ (o * stride)); [by apply Z.divide_mul_r|].
      rewrite Z.add_comm. etransitivity; [|exact Ho]. unfold a. exists (2 ^ (k - g)).
      rewrite <- Z.pow_add_r by lia. f_equal. lia. }
  assert (Z.shiftr (2 ^ k) g = 2 ^ (k - g)) as ->.
  { rewrite Z.shiftr_div_pow2 by lia. replace k with ((k - g) + g) at 1 by lia.
    rewrite Z.pow_add_r by lia. apply Z.div_mul. lia. }
  rewrite Hsub by lia. cbn [mbind option_bind].
  rewrite !Z.shiftr_div_pow2, !land_low, !mod_pow2_div by lia.
  pose proof (Z.mod_pos_bound (addr / 2 ^ g) (2 ^ (k - g)) ltac:(lia)) as Hp2.
  unfold unchecked_sub. rewrite (proj2 (Z.leb_le _ _)) by lia. cbn [mbind option_bind].
  destruct (mod_inv_spec (k - g) ((stride / 2 ^ g) mod 2 ^ (k - g))) as (inv&->&Hinv&Hi).
  { lia. }
  { destruct (Z.ltb_spec n k); [left|right].
    - replace g with n by lia. auto.
    - replace (k - g) with 0 by lia. split; [apply Z.mod_1_r|done]. }
  cbn [mbind option_bind]. eexists. split; [done|]. left. rewrite land_low by lia. unfold wrapping.
  rewrite Z.mod_mod_divide.
  2:{ exists (2 ^ (64 - (k - g))). rewrite <- Z.pow_add_r by lia. f_equal. lia. }
  apply (align_by_inverse g ((stride / 2 ^ g) mod 2 ^ (k - g))); try done; [lia|by apply Z.mod_divide; [lia|]].
Qed.
End correct.

Lemma align_offset_spec (stride addr k : Z) :
  0 ≤ stride ≤ isize_MAX → 0 ≤ addr ≤ usize_MAX → 0 ≤ k < 64 →
  ∃ r, align_offset stride addr (2 ^ k) = Some r ∧ offset_or_none stride addr k r.
Proof.
  intros Hstride Haddr Hk. assert (0 < 2 ^ k) as Hp by lia.
  assert (unchecked_sub (2 ^ k) 1 = Some (2 ^ k - 1)) as Hsub.
  { unfold unchecked_sub. by rewrite (proj2 (Z.leb_le 1 _)) by lia. }
  unfold align_offset. rewrite Hsub. cbn [mbind option_bind].
  destruct (Z.eqb_spec stride 0) as [->|Hs0].
  { eexists. split; [done|]. rewrite land_low by lia.
    destruct (Z.eqb_spec (addr mod 2 ^ k) 0) as [H0|H0]; [left|right; split; [done|]].
    - split; [lia|]. split; [|lia]. unfold aligns. rewrite Z.add_0_r. by apply Z.mod_divide; [lia|].
    - intros o Ho. apply H0, Z.mod_divide; [lia|]. unfold aligns in Ho. by rewrite Z.mul_0_r, Z.add_0_r in Ho. }
  unfold unchecked_rem. rewrite (proj2 (Z.eqb_neq stride 0)) by done. cbn [mbind option_bind].
  destruct (Z.eqb_spec (2 ^ k mod stride) 0) as [Hd|]; [|by apply align_offset_general; [..|lia]].
  apply Z.mod_divide in Hd; [|done]. cbv zeta.
  rewrite (byte_offset_eq addr k Haddr Hk).
  pose proof (Z.mod_pos_bound (- addr) (2 ^ k) Hp).
  rewrite option_guard_True by lia. cbn [mbind option_bind].
  destruct (align_by_bytes stride addr k) as [Hyes Hno]; [done..|lia|done|].
  destruct (Z.eqb_spec (addr mod stride) 0) as [H0|H0].
  - destruct (Hyes H0) as [-> ?]. eexists. split; [done|by left].
  - eexists. split; [done|]. right. split; [done|]. by apply Hno.
Qed.

(** The address of a byte. *)
Lemma align_offset_bytes addr : 0 ≤ addr ≤ usize_MAX →
  ∃ r, align_offset 1 addr 8 = Some r ∧ 0 ≤ r < 8 ∧ (addr + r) mod 8 = 0.
Proof.
  intros Ha. destruct (align_offset_spec 1 addr 3) as (r&Hr0&Hr); [by unfold isize_MAX|done|done|].
  unfold offset_or_none in Hr. change (2 ^ 3) with 8 in *. exists r. split; [done|].
  destruct Hr as [(Hb&Hal&_)|[_ Hno]].
  - split; [done|]. apply Z.mod_divide; [done|]. unfold aligns in Hal. by rewrite Z.mul_1_r in Hal.
  - exfalso. apply (Hno ((- addr) mod 8)). unfold aligns. apply Z.mod_divide; [done|]. change (2 ^ 3) with 8. dlia.
Qed.

(** C20: [align_offset] computes the least number of elements that a pointer has
    to move to be aligned, for every size of the elements, every address and every
    power of two, or [usize::MAX] when no number does; neither the division-free
    special case nor the inverse modulo a power of two computed by doubling the
    number of correct bits goes wrong, none of the unchecked operations is
    undefined, and the loop ends. *)
Theorem align_offset_correct (stride addr k : Z) :
  0 ≤ stride ≤ isize_MAX → 0 ≤ addr ≤ usize_MAX → 0 ≤ k < 64 →
  ∃ r, align_offset stride addr (2 ^ k) = Some r ∧
    ((0 ≤ r < 2 ^ k ∧ (addr + r * stride) mod 2 ^ k = 0 ∧
      ∀ o, 0 ≤ o → (addr + o * stride) mod 2 ^ k = 0 → r ≤ o) ∨
     (r = usize_MAX ∧ ∀ o, (addr + o * stride) mod 2 ^ k ≠ 0)).
Proof.
  intros Hstride Haddr Hk. assert (0 < 2 ^ k) as Hp by lia.
  destruct (align_offset_spec stride addr k) as (r&Hr&Ho); [done..|].
  assert (∀ o, aligns stride addr k o ↔ (addr + o * stride) mod 2 ^ k = 0) as Hal.
  { intros o. symmetry. apply Z.mod_divide. lia. }
  exists r. split; [done|]. destruct Ho as [(Hb&Ha&Hmin)|[-> Hno]]; [left|right].
  - split; [done|]. split; [by apply Hal|]. intros o ? ?. apply Hmin; [done|by apply Hal].
  - split; [done|]. intros o Ho. by apply (Hno o), Hal.
Qed.

(** Elements of 12 bytes at the address 4, to be aligned to 32. *)
Lemma align_offset_correct_witness :
  ∃ r, align_offset 12 4 (2 ^ 5) = Some r ∧
    ((0 ≤ r < 2 ^ 5 ∧ (4 + r * 12) mod 2 ^ 5 = 0 ∧ ∀ o, 0 ≤ o → (4 + o * 12) mod 2 ^ 5 = 0 → r ≤ o) ∨
     (r = usize_MAX ∧ ∀ o, (4 + o * 12) mod 2 ^ 5 ≠ 0)).
Proof. apply (align_offset_correct 12 4 5); unfold isize_MAX, usize_MAX; lia. Defined.
