(* ===== verification/Utf8.v ===== *)
(** Characters and their encodings: [core/src/char/methods.rs], [core/src/char/convert.rs],
    [core/src/char/decode.rs], [core/src/str/validations.rs], [core/src/str/lossy.rs].
    Bytes, code units and code points are integers; a routine that reads or writes
    memory has the list of the bytes as its state. *)

From S2P Require Import Prelude.
From S2P Require Import Layout.
From S2P Require Import Words.
From S2P Require Import AlignOffset.

#[local] Open Scope Z_scope.

(** [as u8], [as i8] *)
Definition as_u8 (x : Z) : Z := x mod 256.
Definition as_i8 (x : Z) : Z := if x <? 128 then x else x - 256.
Definition in_range (lo hi x : Z) : bool := (lo <=? x) && (x <=? hi).

(** [<<] on a [u32] *)
Definition shl32 (x n : Z) : Z := Z.shiftl x n mod 2 ^ 32.

(** ** [char] *)
Definition char_try_from_u32 (i : Z) : option Z :=
  if 0x110000 - 0x800 <=? (Z.lxor i 0xD800 - 0x800) mod 2 ^ 32 then None else Some i.

Definition from_u32_unchecked {S} (i : Z) : prog S Z :=
  match char_try_from_u32 i with Some c => mret c | None => undefined end.

Definition MAX_ONE_B : Z := 0x80.
Definition MAX_TWO_B : Z := 0x800.
Definition MAX_THREE_B : Z := 0x10000.
Definition TAG_CONT : Z := 0x80.
Definition TAG_TWO_B : Z := 0xC0.
Definition TAG_THREE_B : Z := 0xE0.
Definition TAG_FOUR_B : Z := 0xF0.

Definition len_utf8 (code : Z) : nat :=
  if code <? MAX_ONE_B then 1 else if code <? MAX_TWO_B then 2 else if code <? MAX_THREE_B then 3 else 4.
Definition len_utf16 (code : Z) : nat := if Z.land code 0xFFFF =? code then 1 else 2.

(** [*dst.add(i) = b] is [write i b]. *)
Definition encode_utf8_raw_unchecked {S} (write : nat → Z → prog S ()) (code : Z) : prog S () :=
  let len := len_utf8 code in
  if (len =? 1)%nat then write 0%nat (as_u8 code) else
  let last1 := Z.lor (as_u8 (Z.land (Z.shiftr code 0) 0x3F)) TAG_CONT in
  let last2 := Z.lor (as_u8 (Z.land (Z.shiftr code 6) 0x3F)) TAG_CONT in
  let last3 := Z.lor (as_u8 (Z.land (Z.shiftr code 12) 0x3F)) TAG_CONT in
  let last4 := Z.lor (as_u8 (Z.land (Z.shiftr code 18) 0x3F)) TAG_FOUR_B in
  if (len =? 2)%nat then _ ← write 0%nat (Z.lor last2 TAG_TWO_B); write 1%nat last1 else
  if (len =? 3)%nat then _ ← write 0%nat (Z.lor last3 TAG_THREE_B); _ ← write 1%nat last2; write 2%nat last1 else
  _ ← write 0%nat last4; _ ← write 1%nat last3; _ ← write 2%nat last2; write 3%nat last1.

(** [dst[i] = b] in a buffer. *)
Definition store (i : nat) (b : Z) : prog (list Z) () := λ dst,
  if (i <? length dst)%nat then Ret () (<[i := b]> dst) else Fault Undefined.

(** The answer is the part of the buffer that was written. *)
Definition encode_utf8_raw (code : Z) : prog (list Z) (list Z) :=
  let len := len_utf8 code in
  dst_len ← gets length;
  if (dst_len <? len)%nat then panic else
  _ ← encode_utf8_raw_unchecked store code;
  gets (take len).

Definition encode_utf16_raw (code : Z) : prog (list Z) (list Z) :=
  let len := len_utf16 code in
  dst ← gets (λ dst, dst);
  _ ← match len, dst with
      | 1%nat, _ :: _ => store 0 (code mod 2 ^ 16)
      | 2%nat, _ :: _ :: _ =>
          let code := code - 0x10000 in
          _ ← store 0 (Z.lor (Z.shiftr code 10 mod 2 ^ 16) 0xD800);
          store 1 (Z.lor (Z.land code 0x3FF mod 2 ^ 16) 0xDC00)
      | _, _ => panic
      end;
  gets (take len).

(** [to_digit] and [from_digit]; the first panics for a radix out of range. *)
Definition to_digit {S} (c radix : Z) : prog S (option Z) :=
  _ ← assert_ ((2 <=? radix) && (radix <=? 36));
  let value :=
    if (57 <? c) && (10 <? radix)
    then Z.land ((c - 65) mod 2 ^ 32) (Z.lxor 0x20 (2 ^ 32 - 1)) + 10
    else (c - 48) mod 2 ^ 32 in
  mret (if value <? radix then Some value else None).

Definition from_digit {S} (num radix : Z) : prog S (option Z) :=
  if 36 <? radix then panic else
  mret (if num <? radix then
          let num := as_u8 num in
          Some (if num <? 10 then 48 + num else 97 + num - 10)
        else None).

(** ** Decoding UTF-8 *)
Definition CONT_MASK : Z := 0x3F.
Definition utf8_first_byte (byte width : Z) : Z := Z.land byte (Z.shiftr 0x7F width).
Definition utf8_acc_cont_byte (ch byte : Z) : Z :=
  Z.lor (shl32 ch 6) (Z.land byte CONT_MASK).
Definition utf8_is_cont_byte (byte : Z) : bool := as_i8 byte <? -64.

(** The iterator over the bytes is the list of those left. *)
Definition next_byte : prog (list Z) (option Z) := λ v,
  match v with [] => Ret None [] | b :: v => Ret (Some b) v end.
Definition next_byte_back : prog (list Z) (option Z) := λ v,
  match last v with None => Ret None v | Some b => Ret (Some b) (removelast v) end.
Definition unwrap_unchecked {S A} (o : option A) : prog S A :=
  match o with Some a => mret a | None => undefined end.

Definition next_code_point : prog (list Z) (option Z) :=
  x ← next_byte;
  match x with
  | None => mret None
  | Some x =>
      if x <? 128 then mret (Some x) else
      let init := utf8_first_byte x 2 in
      y ← next_byte; y ← unwrap_unchecked y;
      let ch := utf8_acc_cont_byte init y in
      if 0xE0 <=? x then
        z ← next_byte; z ← unwrap_unchecked z;
        let y_z := utf8_acc_cont_byte (Z.land y CONT_MASK) z in
        let ch := Z.lor (shl32 init 12) y_z in
        if 0xF0 <=? x then
          w ← next_byte; w ← unwrap_unchecked w;
          mret (Some (Z.lor (shl32 (Z.land init 7) 18) (utf8_acc_cont_byte y_z w)))
        else mret (Some ch)
      else mret (Some ch)
  end.

Definition next_code_point_reverse : prog (list Z) (option Z) :=
  w ← next_byte_back;
  match w with
  | None => mret None
  | Some w =>
      if w <? 128 then mret (Some w) else
      z ← next_byte_back; z ← unwrap_unchecked z;
      let ch := utf8_first_byte z 2 in
      ch ← (if utf8_is_cont_byte z then
          y ← next_byte_back; y ← unwrap_unchecked y;
          let ch := utf8_first_byte y 3 in
          ch ← (if utf8_is_cont_byte y then
              x ← next_byte_back; x ← unwrap_unchecked x;
              let ch := utf8_first_byte x 4 in
              mret (utf8_acc_cont_byte ch y)
            else mret ch);
          mret (utf8_acc_cont_byte ch z)
        else mret ch);
      mret (Some (utf8_acc_cont_byte ch w))
  end.

(** [Chars]: [next] and [next_back] *)
Definition chars_next : prog (list Z) (option Z) :=
  o ← next_code_point;
  match o with Some ch => c ← from_u32_unchecked ch; mret (Some c) | None => mret None end.
Definition chars_next_back : prog (list Z) (option Z) :=
  o ← next_code_point_reverse;
  match o with Some ch => c ← from_u32_unchecked ch; mret (Some c) | None => mret None end.

(** ** Decoding UTF-16 *)
Definition is_utf16_surrogate (u : Z) : bool := in_range 0xD800 0xDFFF u.

(** [DecodeUtf16]: the code units left, and one that was read too far. *)
Record DecodeUtf16 := MkDecodeUtf16 { iter : list Z; buf : option Z }.

Definition iter_next : prog DecodeUtf16 (option Z) := λ d,
  match iter d with
  | [] => Ret None d
  | u :: it => Ret (Some u) (MkDecodeUtf16 it (buf d))
  end.

(** An item is a character or the unpaired surrogate of the error. *)
Definition decode_utf16_next : prog DecodeUtf16 (option (Z + Z)) :=
  b ← gets buf;
  _ ← modify (λ d, MkDecodeUtf16 (iter d) None);
  u ← match b with Some u => mret (Some u) | None => iter_next end;
  match u with
  | None => mret None
  | Some u =>
      if negb (is_utf16_surrogate u) then c ← from_u32_unchecked u; mret (Some (inl c))
      else if 0xDC00 <=? u then mret (Some (inr u))
      else
        u2 ← iter_next;
        match u2 with
        | None => mret (Some (inr u))
        | Some u2 =>
            if (u2 <? 0xDC00) || (0xDFFF <? u2) then
              _ ← modify (λ d, MkDecodeUtf16 (iter d) (Some u2));
              mret (Some (inr u))
            else
              let c := Z.lor (shl32 (Z.land u 0x3ff) 10) (Z.land u2 0x3ff) + 0x10000 in
              c ← from_u32_unchecked c; mret (Some (inl c))
        end
  end.

(** The bounds on the number of items, from those of the inner iterator. *)
Definition decode_utf16_size_hint (hint : Z * option Z) (d : DecodeUtf16) : Z * option Z :=
  let '(low, high) := hint in
  let '(low_buf, high_buf) :=
    match buf d with
    | None => (0, 0)
    | Some u =>
        if negb (is_utf16_surrogate u) then (1, 1)
        else if bool_decide (high = Some 0) then (1, 1) else (0, 1)
    end in
  ((low + 1) / 2 + low_buf,
   high ≫= λ h, if h + high_buf <=? usize_MAX then Some (h + high_buf) else None).

(** The whole iterator. *)
Fixpoint decode_utf16_all (fuel : nat) : prog DecodeUtf16 (list (Z + Z)) :=
  match fuel with
  | O => λ _, Fault Exhausted
  | S fuel =>
      o ← decode_utf16_next;
      match o with
      | None => mret []
      | Some r => rs ← decode_utf16_all fuel; mret (r :: rs)
      end
  end.
