(* ===== verification/Utf8Check.v ===== *)
(** Checking, splitting and counting strings of UTF-8: [core/src/str/validations.rs],
    [core/src/str/lossy.rs], [core/src/str/mod.rs], [core/src/str/count.rs].  The
    state of a routine is the list of the bytes; the address of the first one is
    an argument, because the fast paths read aligned words. *)

From S2P Require Import Prelude.
From S2P Require Import Layout.
From S2P Require Import Words.
From S2P Require Import AlignOffset.
From S2P Require Import Utf8.

#[local] Open Scope Z_scope.

Definition USIZE_BYTES : nat := 8.

(** [v[index]] *)
Definition byte_at (i : nat) : prog (list Z) Z := λ v,
  match v !! i with Some b => Ret b v | None => Panic v end.

(** ** Validation *)
(** [UTF8_CHAR_WIDTH], in rows of equal entries. *)
Definition UTF8_CHAR_WIDTH : list nat :=
  replicate 128 1%nat ++ replicate 66 0%nat ++ replicate 30 2%nat ++ replicate 16 3%nat ++
  replicate 5 4%nat ++ replicate 11 0%nat.
Definition utf8_char_width (b : Z) : nat := default 0%nat (UTF8_CHAR_WIDTH !! Z.to_nat b).

Record Utf8Error := MkUtf8Error { valid_up_to : nat; error_len : option nat }.

Definition NONASCII_MASK : Z := word_of (replicate 8 0x80).
Definition contains_nonascii (x : Z) : bool := negb (Z.land x NONASCII_MASK =? 0).

(** The loop's step: go on at another index, or answer. *)
Abbreviation step_result := (nat + option Utf8Error)%type.

(** [err!] and [next!] *)
Definition err (old_offset : nat) (n : option nat) : prog (list Z) step_result :=
  mret (inr (Some (MkUtf8Error old_offset n))).
Definition next (len old_offset index : nat) (k : nat → Z → prog (list Z) step_result) :=
  let index := (index + 1)%nat in
  if (len <=? index)%nat then err old_offset None else b ← byte_at index; k index b.

(** The two-byte prefixes of three and four bytes that RFC 3629 allows. *)
Definition second_of_three (first b : Z) : bool :=
  ((first =? 0xE0) && in_range 0xA0 0xBF b) || (in_range 0xE1 0xEC first && in_range 0x80 0xBF b) ||
  ((first =? 0xED) && in_range 0x80 0x9F b) || (in_range 0xEE 0xEF first && in_range 0x80 0xBF b).
Definition second_of_four (first b : Z) : bool :=
  ((first =? 0xF0) && in_range 0x90 0xBF b) || (in_range 0xF1 0xF3 first && in_range 0x80 0xBF b) ||
  ((first =? 0xF4) && in_range 0x80 0x8F b).

Definition validate_multibyte (len index : nat) (first : Z) : prog (list Z) step_result :=
  let old_offset := index in
  match utf8_char_width first with
  | 2%nat =>
      next len old_offset index (λ index b,
      if -64 <=? as_i8 b then err old_offset (Some 1%nat) else mret (inl (index + 1)%nat))
  | 3%nat =>
      next len old_offset index (λ index b,
      if negb (second_of_three first b) then err old_offset (Some 1%nat) else
      next len old_offset index (λ index b,
      if -64 <=? as_i8 b then err old_offset (Some 2%nat) else mret (inl (index + 1)%nat)))
  | 4%nat =>
      next len old_offset index (λ index b,
      if negb (second_of_four first b) then err old_offset (Some 1%nat) else
      next len old_offset index (λ index b,
      if -64 <=? as_i8 b then err old_offset (Some 2%nat) else
      next len old_offset index (λ index b,
      if -64 <=? as_i8 b then err old_offset (Some 3%nat) else mret (inl (index + 1)%nat))))
  | _ => err old_offset (Some 1%nat)
  end.

Section validate.
(** The address of the first byte, and whether the code runs at compile time. *)
Context (addr : Z) (const_eval : bool).

(** [*(ptr.add(index) as *const usize)]: the word must be in the string, and
    its address aligned. *)
Definition read_word (index : nat) : prog (list Z) Z := λ v,
  if ((addr + Z.of_nat index) mod 8 =? 0) && (index + USIZE_BYTES <=? length v)%nat
  then Ret (word_of (take USIZE_BYTES (drop index v))) v else Fault Undefined.

Definition ascii_block_size : nat := 2 * USIZE_BYTES.

Definition skip_ascii_blocks (blocks_end : nat) (index : nat) : prog (list Z) (nat + nat) :=
  if negb (index <? blocks_end)%nat then mret (inr index) else
  zu ← read_word index;
  zv ← read_word (index + USIZE_BYTES);
  if contains_nonascii zu || contains_nonascii zv then mret (inr index)
  else mret (inl (index + ascii_block_size)%nat).

(** [index < len && v[index] < 128] *)
Definition skip_ascii_bytes (len : nat) (index : nat) : prog (list Z) (nat + nat) :=
  if negb (index <? len)%nat then mret (inr index) else
  b ← byte_at index;
  if b <? 128 then mret (inl (index + 1)%nat) else mret (inr index).

Definition validate_step (len blocks_end : nat) (align : Z) (index : nat) : prog (list Z) step_result :=
  if negb (index <? len)%nat then mret (inr None) else
  first ← byte_at index;
  if 128 <=? first then validate_multibyte len index first
  else if negb (align =? usize_MAX) && (wrapping (align - Z.of_nat index) mod 8 =? 0) then
    index ← loop (S len) (skip_ascii_blocks blocks_end) index;
    index ← loop (S len) (skip_ascii_bytes len) index;
    mret (inl index)
  else mret (inl (index + 1)%nat).

Definition run_utf8_validation : prog (list Z) (option Utf8Error) :=
  len ← gets length;
  let blocks_end := if (ascii_block_size <=? len)%nat then (len - ascii_block_size + 1)%nat else 0%nat in
  align ← (if const_eval then mret usize_MAX else unwrap_unchecked (align_offset 1 addr 8));
  loop (S len) (validate_step len blocks_end align) 0%nat.
End validate.

(** ** [Utf8Chunks] *)
Definition safe_get (xs : list Z) (i : nat) : Z := default 0 (xs !! i).

(** [get_unchecked] and [split_at_unchecked] *)
Definition get_unchecked (i : nat) : prog (list Z) Z := λ v,
  match v !! i with Some b => Ret b v | None => Fault Undefined end.
Definition split_at_unchecked {S} (v : list Z) (i : nat) : prog S (list Z * list Z) :=
  if (i <=? length v)%nat then mret (take i v, drop i v) else undefined.

Definition not_cont (b : Z) : bool := negb (Z.land b 192 =? 128).

(** One turn of the loop, from the indices [i] and [valid_up_to]: the [break]s
    are right. *)
Definition chunk_step (p : nat * nat) : prog (list Z) ((nat * nat) + (nat * nat)) :=
  let '(i, valid_up_to) := p in
  source ← gets (λ v, v);
  if negb (i <? length source)%nat then mret (inr (i, valid_up_to)) else
  byte ← get_unchecked i;
  let i := (i + 1)%nat in
  let break i := mret (inr (i, valid_up_to)) in
  let done i := mret (inl (i, i)) in
  if byte <? 128 then done i else
  match utf8_char_width byte with
  | 2%nat => if not_cont (safe_get source i) then break i else done (i + 1)%nat
  | 3%nat =>
      if negb (second_of_three byte (safe_get source i)) then break i else
      let i := (i + 1)%nat in
      if not_cont (safe_get source i) then break i else done (i + 1)%nat
  | 4%nat =>
      if negb (second_of_four byte (safe_get source i)) then break i else
      let i := (i + 1)%nat in
      if not_cont (safe_get source i) then break i else
      let i := (i + 1)%nat in
      if not_cont (safe_get source i) then break i else done (i + 1)%nat
  | _ => break i
  end.

(** A chunk is its valid and its invalid part; the state is the source left. *)
Definition chunks_next : prog (list Z) (option (list Z * list Z)) :=
  source ← gets (λ v, v);
  if (length source =? 0)%nat then mret None else
  '(i, valid_up_to) ← loop (S (length source)) chunk_step (0, 0)%nat;
  '(inspected, remaining) ← split_at_unchecked source i;
  _ ← modify (λ _, remaining);
  '(valid, invalid) ← split_at_unchecked inspected valid_up_to;
  mret (Some (valid, invalid)).

(** ** Boundaries of characters *)
Definition is_utf8_char_boundary (b : Z) : bool := -0x40 <=? as_i8 b.

Definition is_char_boundary (index : nat) : prog (list Z) bool :=
  if (index =? 0)%nat then mret true else
  len ← gets length;
  if (len <=? index)%nat then mret (index =? len)%nat else
  b ← byte_at index; mret (is_utf8_char_boundary b).

Definition floor_char_boundary (index : nat) : prog (list Z) nat :=
  len ← gets length;
  if (len <=? index)%nat then mret len else
  i ← loop (S index) (λ i,
    if negb (0 <? i)%nat then mret (inr i) else
    b ← byte_at i;
    if is_utf8_char_boundary b then mret (inr i) else mret (inl (i - 1)%nat)) index;
  _ ← assert_ (index - 3 <=? i)%nat;
  mret i.

Definition ceil_char_boundary (index : nat) : prog (list Z) nat :=
  len ← gets length;
  if (len <=? index)%nat then mret len else
  i ← loop (S len) (λ i,
    if negb (i <? len)%nat then mret (inr i) else
    b ← byte_at i;
    if is_utf8_char_boundary b then mret (inr i) else mret (inl (i + 1)%nat)) index;
  _ ← assert_ (i <=? index + 3)%nat;
  mret i.

(** ** Counting characters *)
Definition char_count_general_case (s : list Z) : Z :=
  Z.of_nat (length (List.filter (λ byte, negb (utf8_is_cont_byte byte)) s)).

Definition LSB : Z := word_of (replicate 8 0x01).
Definition not_word (x : Z) : Z := 2 ^ 64 - 1 - x.
Definition contains_non_continuation_byte (w : Z) : Z :=
  Z.land (Z.lor (Z.shiftr (not_word w) 7) (Z.shiftr w 6)) LSB.

Definition LSB_SHORTS : Z := word_of [1; 0; 1; 0; 1; 0; 1; 0].
Definition SKIP_BYTES : Z := word_of [255; 0; 255; 0; 255; 0; 255; 0].
Definition sum_bytes_in_usize (values : Z) : Z :=
  let pair_sum := Z.land values SKIP_BYTES + Z.land (Z.shiftr values 8) SKIP_BYTES in
  Z.shiftr (wrapping (pair_sum * LSB_SHORTS)) ((8 - 2) * 8).

(** [align_to::<usize>()]: the bytes before, the words, and the bytes after. *)
Definition align_to (addr : Z) (s : list Z) : unsafe (list Z * list Z * list Z) :=
  offset ← align_offset 1 addr 8;
  if Z.of_nat (length s) <? offset then Some (s, [], []) else
  let rest := drop (Z.to_nat offset) s in
  let us_len := (length rest / 8)%nat in
  let ts_len := (length rest `mod` 8)%nat in
  Some (take (Z.to_nat offset) s,
        (λ i, word_of (take 8 (drop (8 * i) rest))) <$> seq 0 us_len,
        drop (length rest - ts_len) rest).

Definition CHUNK_SIZE : nat := 192.
Definition UNROLL_INNER : nat := 4.

(** The sum of a chunk's words, byte by byte. *)
Definition count_words (ws : list Z) : Z :=
  foldl (λ counts w, counts + contains_non_continuation_byte w) 0 ws.

(** [for chunk in body.chunks(CHUNK_SIZE)], with the fuel [n] *)
Fixpoint count_chunks (n : nat) (body : list Z) (total : Z) : Z :=
  match n, body with
  | O, _ | _, [] => total
  | S n, _ =>
      let chunk := take CHUNK_SIZE body in
      let unrolled := (length chunk / UNROLL_INNER * UNROLL_INNER)%nat in
      let total := total + sum_bytes_in_usize (count_words (take unrolled chunk)) in
      let remainder := drop unrolled chunk in
      if (length remainder =? 0)%nat then count_chunks n (drop CHUNK_SIZE body) total
      else total + sum_bytes_in_usize (count_words remainder)
  end.

Definition do_count_chars (addr : Z) (s : list Z) : unsafe Z :=
  '(head, body, tail) ← align_to addr s;
  if (length body =? 0)%nat || (8 <? length head)%nat || (8 <? length tail)%nat
  then Some (char_count_general_case s) else
  Some (count_chunks (length body) body (char_count_general_case head + char_count_general_case tail)).

(** [optimize_for_size] is a feature of the build. *)
Definition count_chars (optimize_for_size : bool) (addr : Z) (s : list Z) : unsafe Z :=
  if optimize_for_size || (length s <? 8 * UNROLL_INNER)%nat
  then Some (char_count_general_case s) else do_count_chars addr s.
