(* ===== verification/Utf8Spec.v ===== *)
(** What encoding and decoding a character does, against the table of RFC 3629. *)

From S2P Require Import Prelude.
From S2P Require Import Layout.
From S2P Require Import Words.
From S2P Require Import AlignOffset.
From S2P Require Import Utf8.

#[local] Open Scope Z_scope.

(** ** Characters *)
(** Code points that are not surrogates. *)
Definition scalar (c : Z) : Prop := 0 ≤ c < 0xD800 ∨ 0xE000 ≤ c < 0x110000.

#[global] Instance scalar_dec c : Decision (scalar c).
Proof. unfold scalar. apply _. Defined.

Lemma char_try_from_u32_spec i : 0 ≤ i < 2 ^ 32 →
  char_try_from_u32 i = if decide (scalar i) then Some i else None.
Proof.
  intros Hi. unfold char_try_from_u32. pose proof (Z.div_mod i 2048 ltac:(lia)) as Hd.
  pose proof (Z.mod_pos_bound i 2048 ltac:(lia)) as Hr. set (q := i / 2048) in *. set (r := i mod 2048) in *.
  assert (Z.lxor i 0xD800 = Z.lxor q 27 * 2048 + r) as ->.
  { rewrite Hd, (Z.mul_comm 2048). apply (lxor_high q r 27 11); lia. }
  pose proof (lxor_div q 27 5 ltac:(lia) ltac:(lia)) as Hx. change (2 ^ 5) with 32 in Hx.
  assert (Z.lxor q 27 = 0 ↔ q = 27) as H0 by apply Z.lxor_eq_0_iff.
  assert (0 ≤ Z.lxor q 27) as Hpos by (apply Z.lxor_nonneg; lia).
  set (x := Z.lxor q 27) in *. clearbody x.
  assert (x < 544 ↔ q < 544) as H544 by dlia. assert (x < 2 ^ 21) as Hx21 by dlia.
  unfold scalar. destruct (Z.leb_spec (0x110000 - 0x800) ((x * 2048 + r - 0x800) mod 2 ^ 32)) as [Hle|Hlt];
    case_decide as Hs; [|done|done|]; exfalso.
  - rewrite Z.mod_small in Hle by lia. lia.
  - destruct (decide (x = 0)) as [->|].
    + rewrite <- (Z.mod_add _ 1), Z.mod_small in Hlt by lia. lia.
    + rewrite Z.mod_small in Hlt by lia. lia.
Qed.

Lemma wp_from_u32_unchecked {S} c s (Q : Z → S → Prop) P : scalar c → Q c s → wp (from_u32_unchecked c) Q P s.
Proof.
  intros Hc HQ. unfold from_u32_unchecked. rewrite char_try_from_u32_spec by (unfold scalar in Hc; lia).
  by rewrite decide_True.
Qed.

(** ** The encoding *)
Definition utf8 (c : Z) : list Z :=
  if c <? 0x80 then [c]
  else if c <? 0x800 then [0xC0 + c / 64; 0x80 + c mod 64]
  else if c <? 0x10000 then [0xE0 + c / 4096; 0x80 + c / 64 mod 64; 0x80 + c mod 64]
  else [0xF0 + c / 262144; 0x80 + c / 4096 mod 64; 0x80 + c / 64 mod 64; 0x80 + c mod 64].

Lemma length_utf8 c : length (utf8 c) = len_utf8 c.
Proof. unfold utf8, len_utf8, MAX_ONE_B, MAX_TWO_B, MAX_THREE_B. by repeat case_bool. Qed.

(** A byte of the encoding: value bits, and tag. *)
Lemma value_bits c n : 0 ≤ c → 0 ≤ n → as_u8 (Z.land (Z.shiftr c n) 0x3F) = (c / 2 ^ n) mod 64.
Proof.
  intros Hc Hn. change 0x3F with (2 ^ 6 - 1). rewrite land_low, Z.shiftr_div_pow2 by done.
  change (2 ^ 6) with 64. pose proof (Z.mod_pos_bound (c / 2 ^ n) 64 ltac:(lia)).
  unfold as_u8. by rewrite Z.mod_small by lia.
Qed.

Lemma tags x :
  (0 ≤ x < 64 → Z.lor x TAG_CONT = 0x80 + x) ∧ (0 ≤ x < 32 → Z.lor (0x80 + x) TAG_TWO_B = 0xC0 + x) ∧
  (0 ≤ x < 16 → Z.lor (0x80 + x) TAG_THREE_B = 0xE0 + x) ∧ (0 ≤ x < 8 → Z.lor x TAG_FOUR_B = 0xF0 + x).
Proof.
  split_and!; intros Hx; apply Z.eqb_eq.
  - apply (forallb_range (λ x, Z.lor x TAG_CONT =? 0x80 + x) 0 64); [reflexivity|lia].
  - apply (forallb_range (λ x, Z.lor (0x80 + x) TAG_TWO_B =? 0xC0 + x) 0 32); [reflexivity|lia].
  - apply (forallb_range (λ x, Z.lor (0x80 + x) TAG_THREE_B =? 0xE0 + x) 0 16); [reflexivity|lia].
  - apply (forallb_range (λ x, Z.lor x TAG_FOUR_B =? 0xF0 + x) 0 8); [reflexivity|lia].
Qed.

Lemma wp_store i b dst (Q : () → list Z → Prop) P :
  (i < length dst)%nat → Q () (<[i := b]> dst) → wp (store i b) Q P dst.
Proof. intros Hi HQ. unfold wp, store. by rewrite (proj2 (Nat.ltb_lt _ _) Hi). Qed.

(** The bytes are written one after the other. *)
Fixpoint write_all {S} (write : nat → Z → prog S ()) (i : nat) (bs : list Z) : prog S () :=
  match bs with [] => mret () | b :: bs => _ ← write i b; write_all write (i + 1) bs end.

Lemma encode_unchecked_eq {S} (write : nat → Z → prog S ()) c s : 0 ≤ c < 0x110000 →
  encode_utf8_raw_unchecked write c s = write_all write 0 (utf8 c) s.
Proof.
  intros Hc. unfold encode_utf8_raw_unchecked. rewrite !value_bits by lia.
  change (2 ^ 0) with 1. rewrite Z.div_1_r. change (2 ^ 6) with 64. change (2 ^ 12) with 4096.
  change (2 ^ 18) with 262144.
  assert (∀ x, 0 ≤ x mod 64 < 64) as Hm by (intros x; apply Z.mod_pos_bound; lia).
  rewrite !(proj1 (tags _)) by apply Hm. unfold len_utf8, utf8, MAX_ONE_B, MAX_TWO_B, MAX_THREE_B.
  assert (∀ (m : prog S ()) t, (_ ← m; mret ()) t = m t) as Hret.
  { intros m t. unfold mbind, prog_bind. by destruct (m t) as [[]| |]. }
  assert (∀ (m k k' : prog S ()) t, (∀ t', k t' = k' t') → (_ ← m; k) t = (_ ← m; k') t) as Hseq.
  { intros m k k' t Hk. unfold mbind, prog_bind. by destruct (m t) as [[]| |]. }
  destruct (Z.ltb_spec c 0x80); [|destruct (Z.ltb_spec c 0x800); [|destruct (Z.ltb_spec c 0x10000)]];
    cbn [Nat.eqb write_all Nat.add]; symmetry.
  - rewrite Hret. unfold as_u8. by rewrite Z.mod_small by lia.
  - rewrite (proj1 (proj2 (tags _))), (Z.mod_small (c / 64)) by dlia. apply Hseq, Hret.
  - rewrite (proj1 (proj2 (proj2 (tags _)))), (Z.mod_small (c / 4096)) by dlia.
    apply Hseq. intros t. apply Hseq, Hret.
  - rewrite (proj2 (proj2 (proj2 (tags _)))), (Z.mod_small (c / 262144)) by dlia.
    apply Hseq. intros t. apply Hseq. intros t'. apply Hseq, Hret.
Qed.

Lemma write_all_store bs dst i P : (i + length bs ≤ length dst)%nat →
  wp (write_all store i bs) (λ _ dst', dst' = list_inserts i bs dst) P dst.
Proof.
  revert i dst. induction bs as [|b bs IH]; intros i dst Hlen; simpl in *; [by apply wp_ret|].
  apply wp_bind, wp_store; [lia|].
  eapply wp_mono; [apply IH; rewrite length_insert; lia| |done].
  intros [] d ->. replace (i + 1)%nat with (S i) by lia. symmetry. apply list_insert_inserts_lt. lia.
Qed.

(** [encode_utf8] writes the encoding, or panics when it does not fit. *)
Lemma encode_utf8_eq c dst : 0 ≤ c < 0x110000 →
  encode_utf8_raw c dst =
    if (length dst <? length (utf8 c))%nat then Panic dst else Ret (utf8 c) (utf8 c ++ drop (length (utf8 c)) dst).
Proof.
  intros Hc. unfold encode_utf8_raw, mbind, prog_bind, gets. rewrite length_utf8.
  destruct (Nat.ltb_spec (length dst) (len_utf8 c)); [done|]. rewrite encode_unchecked_eq by done.
  pose proof (write_all_store (utf8 c) dst 0 (λ _, False)) as Hw. rewrite length_utf8 in Hw. specialize (Hw ltac:(lia)).
  case_run Hw as [[] s|s|]; [|done..]. subst s. rewrite <- (take_drop (len_utf8 c) dst) at 1 2.
  rewrite list_inserts_0_r by (rewrite length_take, length_utf8; lia).
  by rewrite take_app_length' by by rewrite length_utf8.
Qed.

Lemma encode_utf8_spec c dst : 0 ≤ c < 0x110000 →
  wp (encode_utf8_raw c)
    (λ r dst', r = utf8 c ∧ dst' = utf8 c ++ drop (length (utf8 c)) dst)
    (λ dst', dst' = dst ∧ (length dst < length (utf8 c))%nat) dst.
Proof.
  intros Hc. unfold wp. rewrite encode_utf8_eq by done.
  by destruct (Nat.ltb_spec (length dst) (length (utf8 c))).
Qed.

(** ** Decoding *)
Lemma first_byte_2 b : utf8_first_byte b 2 = b mod 32.
Proof. exact (land_low b 5 ltac:(lia)). Qed.
Lemma first_byte_3 b : utf8_first_byte b 3 = b mod 16.
Proof. exact (land_low b 4 ltac:(lia)). Qed.
Lemma first_byte_4 b : utf8_first_byte b 4 = b mod 8.
Proof. exact (land_low b 3 ltac:(lia)). Qed.

Lemma acc_cont_bits ch b : 0 ≤ ch < 2 ^ 26 → utf8_acc_cont_byte ch b = ch * 64 + b mod 64.
Proof.
  intros Hch. unfold utf8_acc_cont_byte, shl32, CONT_MASK. change 0x3F with (2 ^ 6 - 1).
  rewrite land_low by lia. change (2 ^ 6) with 64.
  rewrite (Z.mod_small (Z.shiftl ch 6)) by (rewrite Z.shiftl_mul_pow2 by lia; lia).
  apply (shiftl_lor ch (b mod 64) 6); [lia|]. change (2 ^ 6) with 64. apply Z.mod_pos_bound. lia.
Qed.

Lemma shl32_lor x n y : 0 ≤ n → 0 ≤ x → x * 2 ^ n < 2 ^ 32 → 0 ≤ y < 2 ^ n → Z.lor (shl32 x n) y = x * 2 ^ n + y.
Proof.
  intros Hn Hx Hb Hy. unfold shl32.
  rewrite Z.mod_small by (rewrite Z.shiftl_mul_pow2 by lia; lia). by apply shiftl_lor.
Qed.

(** The bytes of an encoding, and the bits of each. *)
Inductive encodes : Z → list Z → Prop :=
  | encodes_1 c : 0 ≤ c < 0x80 → encodes c [c]
  | encodes_2 x y : 0xC2 ≤ x < 0xE0 → 0x80 ≤ y < 0xC0 → encodes ((x - 0xC0) * 64 + (y - 0x80)) [x; y]
  | encodes_3 x y z : 0xE0 ≤ x < 0xF0 → 0x80 ≤ y < 0xC0 → 0x80 ≤ z < 0xC0 → (x = 0xE0 → 0xA0 ≤ y) →
      encodes ((x - 0xE0) * 4096 + (y - 0x80) * 64 + (z - 0x80)) [x; y; z]
  | encodes_4 x y z w : 0xF0 ≤ x < 0xF5 → 0x80 ≤ y < 0xC0 → 0x80 ≤ z < 0xC0 → 0x80 ≤ w < 0xC0 →
      (x = 0xF0 → 0x90 ≤ y) → (x = 0xF4 → y < 0x90) →
      encodes ((x - 0xF0) * 262144 + (y - 0x80) * 4096 + (z - 0x80) * 64 + (w - 0x80)) [x; y; z; w].

Lemma utf8_encodes c : 0 ≤ c < 0x110000 → encodes c (utf8 c).
Proof.
  intros Hc. unfold utf8.
  destruct (Z.ltb_spec c 0x80); [apply encodes_1; lia|destruct (Z.ltb_spec c 0x800); [|destruct (Z.ltb_spec c 0x10000)]].
  - replace c with ((0xC0 + c / 64 - 0xC0) * 64 + (0x80 + c mod 64 - 0x80)) at 1 by dlia. apply encodes_2; dlia.
  - replace c with ((0xE0 + c / 4096 - 0xE0) * 4096 + (0x80 + c / 64 mod 64 - 0x80) * 64 + (0x80 + c mod 64 - 0x80))
      at 1 by dlia. apply encodes_3; dlia.
  - replace c with ((0xF0 + c / 262144 - 0xF0) * 262144 + (0x80 + c / 4096 mod 64 - 0x80) * 4096 +
      (0x80 + c / 64 mod 64 - 0x80) * 64 + (0x80 + c mod 64 - 0x80)) at 1 by dlia. apply encodes_4; dlia.
Qed.

Lemma encodes_utf8 c bs : encodes c bs → 0 ≤ c < 0x110000 ∧ bs = utf8 c.
Proof.
  unfold utf8. destruct 1 as [c|x y|x y z Hx Hy Hz He|x y z w Hx Hy Hz Hw He Hf].
  - split; [lia|]. by rewrite (proj2 (Z.ltb_lt _ _)) by lia.
  - split; [lia|]. rewrite (proj2 (Z.ltb_ge _ _)), (proj2 (Z.ltb_lt _ _)) by lia. repeat f_equal; dlia.
  - split; [lia|]. rewrite !(proj2 (Z.ltb_ge _ _)), (proj2 (Z.ltb_lt _ _)) by lia. repeat f_equal; dlia.
  - split; [lia|]. rewrite !(proj2 (Z.ltb_ge _ _)) by lia. repeat f_equal; dlia.
Qed.

(** Runs the iterator over known bytes. *)
Ltac run_bytes := cbn [next_byte app unwrap_unchecked mret prog_ret].

Lemma next_code_point_utf8 c v : 0 ≤ c < 0x110000 → next_code_point (utf8 c ++ v) = Ret (Some c) v.
Proof.
  intros Hc. destruct (utf8_encodes c Hc) as [c Hx|x y Hx Hy|x y z Hx Hy Hz He|x y z w Hx Hy Hz Hw He Hf];
    unfold next_code_point, mbind, prog_bind; run_bytes.
  - by rewrite (proj2 (Z.ltb_lt _ _)) by lia.
  - rewrite (proj2 (Z.ltb_ge x 128)), (proj2 (Z.leb_gt 0xE0 x)) by lia. run_bytes.
    rewrite first_byte_2, acc_cont_bits by dlia. do 2 f_equal. dlia.
  - rewrite (proj2 (Z.ltb_ge x 128)), (proj2 (Z.leb_le 0xE0 x)), (proj2 (Z.leb_gt 0xF0 x)) by lia. run_bytes.
    rewrite first_byte_2. unfold CONT_MASK. change 0x3F with (2 ^ 6 - 1). rewrite land_low by lia.
    change (2 ^ 6) with 64. rewrite (acc_cont_bits (y mod 64)) by dlia.
    rewrite shl32_lor by dlia. do 2 f_equal. dlia.
  - rewrite (proj2 (Z.ltb_ge x 128)), (proj2 (Z.leb_le 0xE0 x)), (proj2 (Z.leb_le 0xF0 x)) by lia. run_bytes.
    rewrite first_byte_2. unfold CONT_MASK. change 0x3F with (2 ^ 6 - 1). change 7 with (2 ^ 3 - 1).
    rewrite !land_low by lia. change (2 ^ 6) with 64. change (2 ^ 3) with 8.
    rewrite (acc_cont_bits (y mod 64)), acc_cont_bits by dlia.
    rewrite shl32_lor by dlia. do 2 f_equal. dlia.
Qed.

Lemma cont_byte_spec b : byte_ok b → utf8_is_cont_byte b = in_range 0x80 0xBF b.
Proof. 
  unfold byte_ok, utf8_is_cont_byte, as_i8, in_range. intros Hb.
  destruct (Z.ltb_spec b 128); repeat case_bool; first [done|exfalso; lia].
Qed.

Lemma next_back_snoc v b : next_byte_back (v ++ [b]) = Ret (Some b) v.
Proof. unfold next_byte_back. by rewrite last_snoc, removelast_last. Qed.

Lemma next_code_point_reverse_utf8 c v :
  0 ≤ c < 0x110000 → next_code_point_reverse (v ++ utf8 c) = Ret (Some c) v.
Proof.
  intros Hc. assert (∀ b, 0x80 ≤ b < 0xC0 → utf8_is_cont_byte b = true) as Hcont.
  { intros b Hb. rewrite cont_byte_spec by (unfold byte_ok; lia). unfold in_range.
    by rewrite !(proj2 (Z.leb_le _ _)) by lia. }
  assert (∀ b, 0xC0 ≤ b < 0x100 → utf8_is_cont_byte b = false) as Hlead.
  { intros b Hb. rewrite cont_byte_spec by (unfold byte_ok; lia). unfold in_range.
    by rewrite (proj2 (Z.leb_gt b 191)), andb_false_r by lia. }
  destruct (utf8_encodes c Hc) as [c Hx|x y Hx Hy|x y z Hx Hy Hz He|x y z w Hx Hy Hz Hw He Hf];
    unfold next_code_point_reverse, mbind, prog_bind.
  - rewrite next_back_snoc. by rewrite (proj2 (Z.ltb_lt _ _)) by lia.
  - change [x; y] with ([x] ++ [y]). rewrite app_assoc, next_back_snoc.
    rewrite (proj2 (Z.ltb_ge y 128)) by lia. run_bytes. rewrite next_back_snoc. run_bytes.
    rewrite Hlead by lia. run_bytes. rewrite first_byte_2, acc_cont_bits by dlia. do 2 f_equal. dlia.
  - change [x; y; z] with ([x; y] ++ [z]). change [x; y] with ([x] ++ [y]).
    rewrite !app_assoc, next_back_snoc.
    rewrite (proj2 (Z.ltb_ge z 128)) by lia. run_bytes. rewrite next_back_snoc. run_bytes.
    rewrite Hcont by lia. run_bytes. rewrite next_back_snoc. run_bytes. rewrite Hlead by lia. run_bytes.
    rewrite first_byte_3, (acc_cont_bits (x mod 16)), acc_cont_bits by dlia. do 2 f_equal. dlia.
  - change [x; y; z; w] with ([x; y; z] ++ [w]). change [x; y; z] with ([x; y] ++ [z]). change [x; y] with ([x] ++ [y]).
    rewrite !app_assoc, next_back_snoc.
    rewrite (proj2 (Z.ltb_ge w 128)) by lia. run_bytes. rewrite next_back_snoc. run_bytes.
    rewrite Hcont by lia. run_bytes. rewrite next_back_snoc. run_bytes. rewrite Hcont by lia. run_bytes.
    rewrite next_back_snoc. run_bytes.
    rewrite first_byte_4. rewrite (acc_cont_bits (x mod 8)), (acc_cont_bits (x mod 8 * 64 + y mod 64)) by dlia.
    rewrite acc_cont_bits by dlia. do 2 f_equal. dlia.
Qed.

(** No encoding is the start of another one. *)
Lemma utf8_app_inj c1 c2 v1 v2 : 0 ≤ c1 < 0x110000 → 0 ≤ c2 < 0x110000 →
  utf8 c1 ++ v1 = utf8 c2 ++ v2 → c1 = c2 ∧ v1 = v2.
Proof.
  intros H1 H2 Heq. pose proof (next_code_point_utf8 c1 v1 H1) as Hd.
  rewrite Heq, next_code_point_utf8 in Hd by done. by injection Hd.
Qed.

(** [Chars] *)
Lemma scalar_bound c : scalar c → 0 ≤ c < 0x110000.
Proof. unfold scalar. lia. Qed.

Lemma chars_next_utf8 c v : scalar c → chars_next (utf8 c ++ v) = Ret (Some c) v.
Proof.
  intros Hc. unfold chars_next, mbind, prog_bind. rewrite next_code_point_utf8 by by apply scalar_bound.
  unfold from_u32_unchecked. rewrite char_try_from_u32_spec by (unfold scalar in Hc; lia). by rewrite decide_True.
Qed.

Lemma chars_next_back_utf8 c v : scalar c → chars_next_back (v ++ utf8 c) = Ret (Some c) v.
Proof.
  intros Hc. unfold chars_next_back, mbind, prog_bind. rewrite next_code_point_reverse_utf8 by by apply scalar_bound.
  unfold from_u32_unchecked. rewrite char_try_from_u32_spec by (unfold scalar in Hc; lia). by rewrite decide_True.
Qed.

(** ** Strings *)
Definition encode_str (cs : list Z) : list Z := concat (utf8 <$> cs).
Definition valid_utf8 (v : list Z) : Prop := ∃ cs, Forall scalar cs ∧ v = encode_str cs.

Lemma encode_str_app cs1 cs2 : encode_str (cs1 ++ cs2) = encode_str cs1 ++ encode_str cs2.
Proof. unfold encode_str. by rewrite fmap_app, concat_app. Qed.

Lemma valid_nil : valid_utf8 [].
Proof. by exists []. Qed.

Lemma valid_app v1 v2 : valid_utf8 v1 → valid_utf8 v2 → valid_utf8 (v1 ++ v2).
Proof.
  intros (cs1&H1&->) (cs2&H2&->). exists (cs1 ++ cs2). by rewrite Forall_app, encode_str_app.
Qed.

Lemma valid_char c : scalar c → valid_utf8 (utf8 c).
Proof. intros Hc. exists [c]. split; [by constructor|]. unfold encode_str. simpl. by rewrite app_nil_r. Qed.

Lemma valid_ascii v : Forall (λ b, 0 ≤ b < 128) v → valid_utf8 v.
Proof.
  induction 1 as [|b v Hb _ IH]; [apply valid_nil|]. apply (valid_app [b] v); [|done].
  assert ([b] = utf8 b) as ->; [|apply valid_char; left; lia].
  unfold utf8. by rewrite (proj2 (Z.ltb_lt _ _)) by lia.
Qed.

(** What follows a valid string in a valid string is valid. *)
Lemma valid_app_inv v1 v2 : valid_utf8 v1 → valid_utf8 (v1 ++ v2) → valid_utf8 v2.
Proof.
  intros (cs1&H1&->) (cs&H&Heq). revert cs H Heq. induction H1 as [|c cs1 Hc _ IH]; intros cs H Heq.
  - by exists cs.
  - unfold encode_str in Heq. cbn [fmap list_fmap concat] in Heq. rewrite <- app_assoc in Heq.
    destruct H as [|c' cs Hc' H].
    + exfalso. simpl in Heq. apply (f_equal length) in Heq. rewrite length_app, length_utf8 in Heq.
      unfold len_utf8 in Heq. simpl in Heq. repeat (case_match; try lia).
    + cbn [fmap list_fmap concat] in Heq.
      apply utf8_app_inj in Heq as [-> Heq]; [|by apply scalar_bound..]. by apply (IH cs).
Qed.

Lemma valid_cons_inv v : valid_utf8 v → v ≠ [] → ∃ c v', scalar c ∧ v = utf8 c ++ v'.
Proof. intros ([|c cs]&H&->) Hne; [done|]. inversion_clear H. by exists c, (encode_str cs). Qed.
