(* ===== verification/Utf8CheckSpec.v ===== *)
(** What checking and splitting strings of UTF-8 does. *)

From S2P Require Import Prelude.
From S2P Require Import Layout.
From S2P Require Import Words.
From S2P Require Import AlignOffset.
From S2P Require Import Utf8.
From S2P Require Import Utf8Check.
From S2P Require Import Utf8Spec.

#[local] Open Scope Z_scope.

(** ** The first character of a string *)
(** How a nonempty string starts: with a character of [n] bytes; with the start of
    a character that is cut off; or with [n] bytes that no string of characters
    starts with. *)
Definition starts_with_char (v : list Z) (n : nat) : Prop :=
  ∃ c rest, scalar c ∧ v = utf8 c ++ rest ∧ n = length (utf8 c).
Definition starts_a_char (v : list Z) : Prop := ∃ c, scalar c ∧ v `prefix_of` utf8 c.
Definition cut_off (v : list Z) : Prop := v ≠ [] ∧ ∃ c, scalar c ∧ v `prefix_of` utf8 c ∧ v ≠ utf8 c.
Definition ill_formed (v : list Z) (n : nat) : Prop :=
  (1 ≤ n ≤ 3)%nat ∧ (n ≤ length v)%nat ∧ (∀ m, ¬ starts_with_char v m) ∧ (n = 1%nat ∨ starts_a_char (take n v)) ∧ ¬ starts_a_char (take (S n) v).

(** The same in the way the code finds out: [inl n] for a character of [n] bytes,
    [inr (Some n)] for [n] wrong bytes. *)
Definition is_cont (b : Z) : bool := in_range 0x80 0xBF b.
Definition classify (v : list Z) : nat + option nat :=
  match v with
  | [] => inr None
  | b :: v =>
      if b <? 128 then inl 1%nat else
      match utf8_char_width b, v with
      | 2%nat, [] => inr None
      | 2%nat, b1 :: _ => if is_cont b1 then inl 2%nat else inr (Some 1%nat)
      | 3%nat, [] => inr None
      | 3%nat, b1 :: v =>
          if second_of_three b b1 then
            match v with [] => inr None | b2 :: _ => if is_cont b2 then inl 3%nat else inr (Some 2%nat) end
          else inr (Some 1%nat)
      | 4%nat, [] => inr None
      | 4%nat, b1 :: v =>
          if second_of_four b b1 then
            match v with
            | [] => inr None
            | b2 :: v =>
                if is_cont b2 then
                  match v with [] => inr None | b3 :: _ => if is_cont b3 then inl 4%nat else inr (Some 3%nat) end
                else inr (Some 2%nat)
            end
          else inr (Some 1%nat)
      | _, _ => inr (Some 1%nat)
      end
  end.

Lemma char_width_spec b : byte_ok b → utf8_char_width b =
  if b <? 0x80 then 1%nat else if b <? 0xC2 then 0%nat else if b <? 0xE0 then 2%nat
  else if b <? 0xF0 then 3%nat else if b <? 0xF5 then 4%nat else 0%nat.
Proof.
  intros Hb. apply Nat.eqb_eq, (forallb_range (λ b, Nat.eqb (utf8_char_width b)
    (if b <? 0x80 then 1%nat else if b <? 0xC2 then 0%nat else if b <? 0xE0 then 2%nat
     else if b <? 0xF0 then 3%nat else if b <? 0xF5 then 4%nat else 0%nat)) 0 256); [reflexivity|].
  unfold byte_ok in Hb. lia.
Qed.

Lemma is_cont_true b : is_cont b = true ↔ 0x80 ≤ b < 0xC0.
Proof. unfold is_cont, in_range. rewrite andb_true_iff, !Z.leb_le. lia. Qed.

Lemma second_of_three_true b b1 : 0xE0 ≤ b < 0xF0 → second_of_three b b1 = true ↔
  0x80 ≤ b1 < 0xC0 ∧ (b = 0xE0 → 0xA0 ≤ b1) ∧ (b = 0xED → b1 < 0xA0).
Proof.
  intros Hb. unfold second_of_three, in_range.
  rewrite !orb_true_iff, !andb_true_iff, !Z.leb_le, !Z.eqb_eq. lia.
Qed.

Lemma second_of_four_true b b1 : 0xF0 ≤ b < 0xF5 → second_of_four b b1 = true ↔
  0x80 ≤ b1 < 0xC0 ∧ (b = 0xF0 → 0x90 ≤ b1) ∧ (b = 0xF4 → b1 < 0x90).
Proof.
  intros Hb. unfold second_of_four, in_range.
  rewrite !orb_true_iff, !andb_true_iff, !Z.leb_le, !Z.eqb_eq. lia.
Qed.

(** The characters are what [encodes] lists, less the surrogates. *)
Lemma scalar_of_encodes c bs : encodes c bs →
  (∀ x y z, bs = [x; y; z] → x = 0xED → y < 0xA0) → scalar c ∧ bs = utf8 c.
Proof.
  intros Hc Hs. split; [|by apply encodes_utf8]. unfold scalar.
  destruct Hc as [c|x y|x y z|x y z w]; [lia|lia| |lia]. specialize (Hs x y z eq_refl). lia.
Qed.

Lemma scalar_utf8_inv c : scalar c →
  (∃ x, utf8 c = [x] ∧ 0 ≤ x < 0x80) ∨
  (∃ x y, utf8 c = [x; y] ∧ 0xC2 ≤ x < 0xE0 ∧ is_cont y = true) ∨
  (∃ x y z, utf8 c = [x; y; z] ∧ 0xE0 ≤ x < 0xF0 ∧ second_of_three x y = true ∧ is_cont z = true) ∨
  (∃ x y z w, utf8 c = [x; y; z; w] ∧ 0xF0 ≤ x < 0xF5 ∧ second_of_four x y = true ∧
     is_cont z = true ∧ is_cont w = true).
Proof.
  intros Hc. pose proof (scalar_bound c Hc) as Hb. unfold scalar in Hc.
  destruct (utf8_encodes c Hb) as [c Hx|x y Hx Hy|x y z Hx Hy Hz He|x y z w Hx Hy Hz Hw He Hf].
  - left. eauto.
  - right; left. exists x, y. split_and!; [done|lia|lia|]. by apply is_cont_true.
  - right; right; left. exists x, y, z. split_and!; [done|lia|lia| |by apply is_cont_true].
    apply second_of_three_true; lia.
  - right; right; right. exists x, y, z, w. split_and!; [done|lia|lia| |by apply is_cont_true|by apply is_cont_true].
    apply second_of_four_true; lia.
Qed.

Lemma starts_with_char_app c rest : scalar c → starts_with_char (utf8 c ++ rest) (length (utf8 c)).
Proof. intros Hc. by exists c, rest. Qed.

(** A list of bytes that [encodes] lists is a character. *)
Lemma char_intro c bs rest n : encodes c bs →
  (∀ x y z, bs = [x; y; z] → x = 0xED → y < 0xA0) → n = length bs → starts_with_char (bs ++ rest) n.
Proof. intros Hc Hs ->. destruct (scalar_of_encodes c bs Hc Hs) as [? ->]. by exists c, rest. Qed.

(** [v] starts a character of [n] bytes. *)
Definition starts_of (v : list Z) (n : nat) : Prop :=
  ∃ c, scalar c ∧ v `prefix_of` utf8 c ∧ length (utf8 c) = n.

Lemma starts_of_starts v n : starts_of v n → starts_a_char v.
Proof. intros (c&?&?&?). by exists c. Qed.

Lemma starts_of_cut_off v n : starts_of v n → v ≠ [] → (length v < n)%nat → cut_off v.
Proof.
  intros (c&Hc&Hp&Hn) Hne Hlt. split; [done|]. exists c. split_and!; [done..|].
  intros ->. rewrite Hn in Hlt. lia.
Qed.

Lemma starts_intro c bs v n : encodes c bs →
  (∀ x y z, bs = [x; y; z] → x = 0xED → y < 0xA0) → v `prefix_of` bs → n = length bs → starts_of v n.
Proof. intros Hc Hs Hv ->. destruct (scalar_of_encodes c bs Hc Hs) as [? ->]. by exists c. Qed.

Lemma starts_shorter v n m : starts_of v n → starts_of (take m v) n.
Proof. intros (c&Hc&Hv&Hn). exists c. split_and!; [done| |done]. etransitivity; [apply prefix_take|done]. Qed.

(** Every start of a character can be completed. *)
Lemma starts_2 b : 0xC2 ≤ b < 0xE0 → starts_of [b] 2.
Proof.
  intros Hb. eapply (starts_intro _ [b; 0x80]); [apply encodes_2; lia|done|by exists [0x80]|done].
Qed.

Lemma starts_3 b b1 : 0xE0 ≤ b < 0xF0 → second_of_three b b1 = true → starts_of [b; b1] 3.
Proof.
  intros Hb H1%second_of_three_true; [|done].
  eapply (starts_intro _ [b; b1; 0x80]); [apply encodes_3; lia| |by exists [0x80]|done].
  intros ??? [= <- <- <-]. lia.
Qed.

Lemma starts_4 b b1 b2 : 0xF0 ≤ b < 0xF5 → second_of_four b b1 = true → is_cont b2 = true →
  starts_of [b; b1; b2] 4.
Proof.
  intros Hb H1%second_of_four_true H2%is_cont_true; [|done].
  eapply (starts_intro _ [b; b1; b2; 0x80]); [apply encodes_4; lia|done|by exists [0x80]|done].
Qed.

Lemma starts_first_3 b : 0xE0 ≤ b < 0xF0 → starts_of [b] 3.
Proof.
  intros Hb. apply (starts_shorter [b; if b =? 0xE0 then 0xA0 else 0x80] 3 1), starts_3; [done|].
  apply second_of_three_true; [done|]. case_bool; lia.
Qed.

Lemma starts_first_4 b : 0xF0 ≤ b < 0xF5 → starts_of [b] 4.
Proof.
  intros Hb. apply (starts_shorter [b; if b =? 0xF0 then 0x90 else 0x80; 0x80] 4 1), starts_4; [done| |done].
  apply second_of_four_true; [done|]. case_bool; lia.
Qed.

Lemma starts_second_4 b b1 : 0xF0 ≤ b < 0xF5 → second_of_four b b1 = true → starts_of [b; b1] 4.
Proof. intros Hb H1. by apply (starts_shorter [b; b1; 0x80] 4 2), starts_4. Qed.

(** What a string that starts a character must look like. *)
Lemma starts_inv b v : starts_a_char (b :: v) →
  0 ≤ b < 0x80 ∨
  (0xC2 ≤ b < 0xE0 ∧ ∀ b1 v1, v = b1 :: v1 → is_cont b1 = true) ∨
  (0xE0 ≤ b < 0xF0 ∧ ∀ b1 v1, v = b1 :: v1 →
     second_of_three b b1 = true ∧ ∀ b2 v2, v1 = b2 :: v2 → is_cont b2 = true) ∨
  (0xF0 ≤ b < 0xF5 ∧ ∀ b1 v1, v = b1 :: v1 → second_of_four b b1 = true ∧
     ∀ b2 v2, v1 = b2 :: v2 → is_cont b2 = true ∧ ∀ b3 v3, v2 = b3 :: v3 → is_cont b3 = true).
Proof.
  intros (c&Hc&[r Hr]).
  destruct (scalar_utf8_inv c Hc) as [(x&E&?)|[(x&y&E&?&?)|[(x&y&z&E&?&?&?)|(x&y&z&w&E&?&?&?&?)]]];
    rewrite E in Hr; injection Hr as <- Hr; [by left|right; left|right; right; left|right; right; right]; (split; [done|]).
  - intros b1 v1 ->. by injection Hr as <- _.
  - intros b1 v1 ->. injection Hr as <- Hr. split; [done|]. intros b2 v2 ->. by injection Hr as <- _.
  - intros b1 v1 ->. injection Hr as <- Hr. split; [done|]. intros b2 v2 ->. injection Hr as <- Hr.
    split; [done|]. intros b3 v3 ->. by injection Hr as <- _.
Qed.

(** The classification is right. *)
Definition classified (v : list Z) (r : nat + option nat) : Prop :=
  match r with
  | inl n => starts_with_char v n
  | inr None => cut_off v
  | inr (Some n) => ill_formed v n
  end.

(** The first byte tells the length. *)
Definition length_from (b : Z) : nat := if b <? 0x80 then 1 else if b <? 0xE0 then 2 else if b <? 0xF0 then 3 else 4.

Lemma length_from_utf8 c rest b v : scalar c → b :: v = utf8 c ++ rest → length (utf8 c) = length_from b.
Proof.
  intros Hc. unfold length_from.
  destruct (scalar_utf8_inv c Hc) as [(x&->&?)|[(x&y&->&?&?)|[(x&y&z&->&?&?&?)|(x&y&z&w&->&?&?&?&?)]]];
    intros [= -> _]; simpl; repeat (case_bool; try lia).
Qed.

Lemma ill_formed_intro b v n : (1 ≤ n ≤ 3)%nat → (n ≤ length (b :: v))%nat → (n < length_from b)%nat →
  n = 1%nat ∨ starts_a_char (take n (b :: v)) → ¬ starts_a_char (take (S n) (b :: v)) → ill_formed (b :: v) n.
Proof.
  intros Hn Hlen Hb Hs Hno. split_and!; [lia|lia|done| |done|done].
  intros m (c&rest&Hc&Heq&_). apply Hno. exists c. split; [done|].
  pose proof (length_from_utf8 c rest b v Hc Heq) as Hl. rewrite Heq, take_app_le by lia. apply prefix_take.
Qed.

Ltac len_from := unfold length_from; repeat (case_bool; try lia).

Lemma classify_spec v : v ≠ [] → Forall byte_ok v → classified v (classify v).
Proof.
  intros Hne Hv. destruct v as [|b v]; [done|]. apply Forall_cons in Hv as [Hb Hv]. unfold byte_ok in Hb.
  cbn [classify]. rewrite char_width_spec by done.
  destruct (Z.ltb_spec b 0x80).
  { eapply (char_intro _ [b]); [apply encodes_1; lia|done|done]. }
  destruct (Z.ltb_spec b 0xC2).
  { apply ill_formed_intro; [lia|simpl; lia|by len_from|by left|]. intros Hs%starts_inv. lia. }
  destruct (Z.ltb_spec b 0xE0); [|destruct (Z.ltb_spec b 0xF0); [|destruct (Z.ltb_spec b 0xF5)]].
  - destruct v as [|b1 v]; [by apply (starts_of_cut_off _ 2); [apply starts_2; lia|..|simpl; lia]|].
    destruct (is_cont b1) eqn:E1.
    + apply is_cont_true in E1. eapply (char_intro _ [b; b1]); [apply encodes_2; lia|done|done].
    + apply ill_formed_intro; [lia|simpl; lia|by len_from|by left|].
      intros [?|[[_ Hs]|[?|?]]]%starts_inv; try lia. specialize (Hs b1 [] eq_refl). congruence.
  - destruct v as [|b1 v]; [by apply (starts_of_cut_off _ 3); [apply starts_first_3; lia|..|simpl; lia]|].
    destruct (second_of_three b b1) eqn:E1.
    2:{ apply ill_formed_intro; [lia|simpl; lia|by len_from|by left|].
        intros [?|[[? _]|[[_ Hs]|[? _]]]]%starts_inv; try lia. specialize (Hs b1 [] eq_refl). destruct Hs. congruence. }
    destruct v as [|b2 v]; [by apply (starts_of_cut_off _ 3); [apply starts_3; [lia|done]|..|simpl; lia]|].
    destruct (is_cont b2) eqn:E2.
    + apply is_cont_true in E2. apply second_of_three_true in E1; [|lia].
      eapply (char_intro _ [b; b1; b2]); [apply encodes_3; lia| |done]. intros ??? [= <- <- <-]. lia.
    + apply ill_formed_intro; [lia|simpl; lia|by len_from|right; apply (starts_of_starts _ 3), starts_3; [lia|done]|].
      intros [?|[[? _]|[[_ Hs]|[? _]]]]%starts_inv; try lia. destruct (Hs b1 [b2] eq_refl) as [_ Hs'].
      specialize (Hs' b2 [] eq_refl). congruence.
  - destruct v as [|b1 v]; [by apply (starts_of_cut_off _ 4); [apply starts_first_4; lia|..|simpl; lia]|].
    destruct (second_of_four b b1) eqn:E1.
    2:{ apply ill_formed_intro; [lia|simpl; lia|by len_from|by left|].
        intros [?|[[? _]|[[? _]|[_ Hs]]]]%starts_inv; try lia. specialize (Hs b1 [] eq_refl). destruct Hs. congruence. }
    destruct v as [|b2 v]; [by apply (starts_of_cut_off _ 4); [apply starts_second_4; [lia|done]|..|simpl; lia]|].
    destruct (is_cont b2) eqn:E2.
    2:{ apply ill_formed_intro; [lia|simpl; lia|by len_from|right; apply (starts_of_starts _ 4), starts_second_4; [lia|done]|].
        intros [?|[[? _]|[[? _]|[_ Hs]]]]%starts_inv; try lia. destruct (Hs b1 [b2] eq_refl) as [_ Hs'].
        destruct (Hs' b2 [] eq_refl). congruence. }
    destruct v as [|b3 v]; [by apply (starts_of_cut_off _ 4); [apply starts_4; [lia|done|done]|..|simpl; lia]|].
    destruct (is_cont b3) eqn:E3.
    + apply is_cont_true in E2, E3. apply second_of_four_true in E1; [|lia].
      eapply (char_intro _ [b; b1; b2; b3]); [apply encodes_4; lia|done|done].
    + apply ill_formed_intro; [lia|simpl; lia|by len_from|right; apply (starts_of_starts _ 4), starts_4; [lia|done|done]|].
      intros [?|[[? _]|[[? _]|[_ Hs]]]]%starts_inv; try lia. destruct (Hs b1 [b2; b3] eq_refl) as [_ Hs'].
      destruct (Hs' b2 [b3] eq_refl) as [_ Hs'']. specialize (Hs'' b3 [] eq_refl). congruence.
  - apply ill_formed_intro; [lia|simpl; lia|by len_from|by left|]. intros Hs%starts_inv. lia.
Qed.

(** ** Validation *)
Lemma wp_byte_at i v (Q : Z → list Z → Prop) P b : v !! i = Some b → Q b v → wp (byte_at i) Q P v.
Proof. intros Hb HQ. unfold wp, byte_at. by rewrite Hb. Qed.

Lemma not_cont_i8 b : byte_ok b → (-64 <=? as_i8 b) = negb (is_cont b).
Proof.
  unfold byte_ok, as_i8, is_cont, in_range. intros Hb.
  destruct (Z.ltb_spec b 128); repeat case_bool; first [done|exfalso; lia].
Qed.

Lemma wp_next old i k v (Q : step_result → list Z → Prop) P :
  match drop (i + 1) v with
  | [] => Q (inr (Some (MkUtf8Error old None))) v
  | b :: _ => wp (k (i + 1)%nat b) Q P v
  end → wp (next (length v) old i k) Q P v.
Proof.
  intros H. unfold next, err. destruct (drop (i + 1) v) as [|b r] eqn:Hd.
  - apply (f_equal length) in Hd. rewrite length_drop in Hd. simpl in Hd.
    rewrite (proj2 (Nat.leb_le _ _)) by lia. by apply wp_ret.
  - assert (v !! (i + 1)%nat = Some b) as Hb by (rewrite <- (Nat.add_0_r (i + 1)), <- lookup_drop, Hd; done).
    pose proof (lookup_lt_Some _ _ _ Hb). rewrite (proj2 (Nat.leb_gt _ _)) by lia.
    by apply wp_bind, (wp_byte_at _ _ _ _ b).
Qed.

(** The answer for the character at [index]. *)
Definition answer (index : nat) (r : nat + option nat) : step_result :=
  match r with inl n => inl (index + n)%nat | inr e => inr (Some (MkUtf8Error index e)) end.

Lemma drop_tail {A} (x : A) i v r : drop i v = x :: r → drop (i + 1) v = r.
Proof. intros H. by rewrite <- drop_drop, H. Qed.

Lemma multibyte_spec index b v (Q : step_result → list Z → Prop) P :
  Forall byte_ok v → v !! index = Some b → 128 ≤ b → Q (answer index (classify (drop index v))) v →
  wp (validate_multibyte (length v) index b) Q P v.
Proof.
  intros Hv Hb H128 HQ. pose proof (Forall_drop _ index _ Hv) as Hok.
  pose proof (drop_S v b index Hb) as Hd. rewrite Hd in HQ, Hok. unfold validate_multibyte, err.
  cbn [classify] in HQ. rewrite (proj2 (Z.ltb_ge b 128)) in HQ by done. apply drop_tail in Hd.
  revert HQ. set (r := drop (S index) v) in *. clearbody r. apply Forall_cons in Hok as [_ Hok].
  destruct (utf8_char_width b) as [|[|[|[|[|w]]]]]; intros HQ; try (by apply wp_ret);
    apply wp_next; rewrite Hd; (destruct r as [|b1 r]; [by apply wp_ret|]); apply drop_tail in Hd;
    apply Forall_cons in Hok as [Hb1 Hok].
  - rewrite not_cont_i8 by done. destruct (is_cont b1); apply wp_ret; [|done].
    by replace (index + 1 + 1)%nat with (index + 2)%nat by lia.
  - destruct (second_of_three b b1); [|by apply wp_ret]. cbn [negb].
    apply wp_next. rewrite Hd. destruct r as [|b2 r]; [by apply wp_ret|]. apply Forall_cons in Hok as [Hb2 Hok].
    rewrite not_cont_i8 by done. destruct (is_cont b2); apply wp_ret; [|done].
    by replace (index + 1 + 1 + 1)%nat with (index + 3)%nat by lia.
  - destruct (second_of_four b b1); [|by apply wp_ret]. cbn [negb].
    apply wp_next. rewrite Hd. destruct r as [|b2 r]; [by apply wp_ret|]. apply Forall_cons in Hok as [Hb2 Hok].
    apply drop_tail in Hd. rewrite not_cont_i8 by done. destruct (is_cont b2); [|by apply wp_ret]. cbn [negb].
    apply wp_next. rewrite Hd. destruct r as [|b3 r]; [by apply wp_ret|]. apply Forall_cons in Hok as [Hb3 Hok].
    rewrite not_cont_i8 by done. destruct (is_cont b3); apply wp_ret; [|done].
    by replace (index + 1 + 1 + 1 + 1)%nat with (index + 4)%nat by lia.
Qed.

(** ** The fast path over ASCII *)
Lemma contains_nonascii_spec bs : length bs = 8%nat → Forall byte_ok bs →
  contains_nonascii (word_of bs) = false → Forall (λ b, 0 ≤ b < 128) bs.
Proof.
  intros Hlen Hok Hc. unfold contains_nonascii in Hc. apply negb_false_iff, Z.eqb_eq in Hc.
  revert Hc. unfold NONASCII_MASK. rewrite <- Hlen. clear Hlen.
  induction Hok as [|b bs Hb _ IH]; [constructor|]. cbn [length replicate word_of]. unfold byte_ok in Hb.
  rewrite byte_land by lia. intros Hc.
  assert (0 ≤ Z.land b 0x80 ∧ 0 ≤ Z.land (word_of bs) (word_of (replicate (length bs) 0x80))) as [H1 H2].
  { split; apply Z.land_nonneg; [lia|right].
    pose proof (word_of_bound (replicate (length bs) 0x80)) as Hw. apply Hw, Forall_replicate. by unfold byte_ok. }
  constructor; [|apply IH; lia]. assert (Z.land b 0x80 = 0) as Hl by lia.
  destruct (Z.ltb_spec b 128); [lia|]. exfalso.
  pose proof (forallb_range (λ b, negb (Z.land b 0x80 =? 0)) 128 128 eq_refl b ltac:(lia)) as Hf.
  cbv beta in Hf. by rewrite Hl in Hf.
Qed.

(** Bytes in a row that are ASCII. *)
Definition ascii_between (v : list Z) (i j : nat) : Prop :=
  (i ≤ j ≤ length v)%nat ∧ Forall (λ b, 0 ≤ b < 128) (take (j - i) (drop i v)).

Lemma ascii_trans v i j k : ascii_between v i j → ascii_between v j k → ascii_between v i k.
Proof.
  intros [Hij Ha] [Hjk Hb]. split; [lia|]. replace (k - i)%nat with ((j - i) + (k - j))%nat by lia.
  rewrite <- take_take_drop, drop_drop. replace (i + (j - i))%nat with j by lia. by apply Forall_app.
Qed.

Lemma valid_ascii_between v i j : ascii_between v i j → valid_utf8 (take i v) → valid_utf8 (take j v).
Proof.
  intros [Hij Ha] Hi. replace j with (i + (j - i))%nat by lia. rewrite <- take_take_drop.
  apply valid_app; [done|by apply valid_ascii].
Qed.

Section fast.
Context (addr : Z) (v : list Z).
Hypothesis Hv : Forall byte_ok v.
Let len := length v.

Lemma wp_read_word index (Q : Z → list Z → Prop) P :
  (addr + Z.of_nat index) mod 8 = 0 → (index + 8 ≤ len)%nat →
  Q (word_of (take 8 (drop index v))) v → wp (read_word addr index) Q P v.
Proof.
  intros Ha Hi HQ. unfold wp, read_word, USIZE_BYTES. rewrite Ha. cbn [Z.eqb andb].
  by rewrite (proj2 (Nat.leb_le _ _)).
Qed.

Lemma read_ascii index : (index + 8 ≤ len)%nat →
  contains_nonascii (word_of (take 8 (drop index v))) = false → ascii_between v index (index + 8).
Proof.
  intros Hi Hc. split; [unfold len in *; lia|]. replace (index + 8 - index)%nat with 8%nat by lia.
  apply contains_nonascii_spec; [rewrite length_take, length_drop; unfold len in *; lia| |done].
  by apply Forall_take, Forall_drop.
Qed.

Definition blocks_end : nat := if (ascii_block_size <=? len)%nat then (len - ascii_block_size + 1)%nat else 0%nat.

Lemma skip_blocks_spec index (Q : nat → list Z → Prop) P :
  (index ≤ len)%nat → (addr + Z.of_nat index) mod 8 = 0 → (∀ j, ascii_between v index j → Q j v) →
  wp (loop (S len) (skip_ascii_blocks addr blocks_end) index) Q P v.
Proof.
  intros Hi Ha HQ.
  apply (wp_loop (λ j s, s = v ∧ (addr + Z.of_nat j) mod 8 = 0 ∧ ascii_between v index j) (λ j, (len - j)%nat)).
  - intros j s (->&Haj&Hj). unfold skip_ascii_blocks.
    destruct (Nat.ltb_spec j blocks_end) as [Hb|Hb]; cbn [negb]; [|by apply wp_ret, HQ].
    assert (j + 16 ≤ len)%nat as Hroom.
    { unfold blocks_end, ascii_block_size, USIZE_BYTES in Hb. destruct (Nat.leb_spec (2 * 8) len); lia. }
    apply wp_bind, wp_read_word; [done|lia|]. apply wp_bind, wp_read_word; [unfold USIZE_BYTES; dlia|unfold USIZE_BYTES; lia|].
    destruct (contains_nonascii _) eqn:Hz; cbn [orb]; [by apply wp_ret, HQ|].
    destruct (contains_nonascii (word_of (take 8 (drop (j + USIZE_BYTES) v)))) eqn:Hz2; [by apply wp_ret, HQ|].
    apply wp_ret. unfold ascii_block_size, USIZE_BYTES in *. split; [|lia]. split_and!; [done|dlia|].
    eapply ascii_trans; [done|]. replace (j + 2 * 8)%nat with (j + 8 + 8)%nat by lia.
    eapply ascii_trans; apply read_ascii; (lia || done).
  - split_and!; [done|done|]. split; [unfold len in *; lia|]. by rewrite Nat.sub_diag.
  - lia.
Qed.

Lemma skip_bytes_spec index (Q : nat → list Z → Prop) P :
  (index ≤ len)%nat → (∀ j, ascii_between v index j → (∀ b, v !! j = Some b → 128 ≤ b) → Q j v) →
  wp (loop (S len) (skip_ascii_bytes len) index) Q P v.
Proof.
  intros Hi HQ. apply (wp_loop (λ j s, s = v ∧ ascii_between v index j) (λ j, (len - j)%nat)).
  - intros j s (->&Hj). unfold skip_ascii_bytes. destruct (Nat.ltb_spec j len) as [Hb|Hb]; cbn [negb].
    2:{ apply wp_ret, HQ; [done|]. intros b Hjb%lookup_lt_Some. unfold len in *. lia. }
    destruct (lookup_lt_is_Some_2 v j Hb) as [b Hjb]. apply wp_bind. eapply wp_byte_at; [done|].
    destruct (Z.ltb_spec b 128).
    + apply wp_ret. split; [|lia]. split; [done|]. eapply ascii_trans; [done|]. split; [unfold len in *; lia|].
      rewrite (drop_S v b j Hjb). replace (j + 1 - j)%nat with 1%nat by lia. simpl.
      constructor; [|constructor]. pose proof (Forall_lookup_1 _ _ _ _ Hv Hjb) as Hok. unfold byte_ok in Hok. lia.
    + apply wp_ret, HQ; [done|]. intros b' Hb'. rewrite Hjb in Hb'. by injection Hb' as <-.
  - split; [done|]. split; [unfold len in *; lia|]. by rewrite Nat.sub_diag.
  - lia.
Qed.
End fast.
