(* ===== verification/Utf8Valid.v ===== *)
(** What validating a string, splitting it into chunks and finding the boundaries
    of its characters do. *)

From S2P Require Import Prelude.
From S2P Require Import Layout.
From S2P Require Import Words.
From S2P Require Import AlignOffset.
From S2P Require Import Utf8.
From S2P Require Import Utf8Check.
From S2P Require Import Utf8Spec.
From S2P Require Import Utf8CheckSpec.

#[local] Open Scope Z_scope.

(** ** Validation *)
(** What the answer promises. *)
Definition error_right (v : list Z) (e : Utf8Error) : Prop :=
  valid_utf8 (take (valid_up_to e) v) ∧ (valid_up_to e < length v)%nat ∧
  classified (drop (valid_up_to e) v) (inr (error_len e)).
Definition answer_right (v : list Z) (r : option Utf8Error) : Prop :=
  match r with None => valid_utf8 v | Some e => error_right v e end.

Lemma take_char v i n : starts_with_char (drop i v) n → valid_utf8 (take i v) → (i ≤ length v)%nat →
  valid_utf8 (take (i + n) v) ∧ (i < i + n ≤ length v)%nat.
Proof.
  intros (c&rest&Hc&Hd&->) Hv Hi. rewrite <- take_take_drop, Hd, take_app_length.
  split; [by apply valid_app, valid_char|]. apply (f_equal length) in Hd. rewrite length_drop, length_app in Hd.
  rewrite length_utf8 in *. unfold len_utf8 in *. repeat case_match; lia.
Qed.

Lemma classify_drop v i : Forall byte_ok v → (i < length v)%nat → classified (drop i v) (classify (drop i v)).
Proof.
  intros Hv Hi. apply classify_spec; [|by apply Forall_drop].
  intros H0. apply (f_equal length) in H0. rewrite length_drop in H0. simpl in H0. lia.
Qed.

Section validate.
Context (addr : Z) (const_eval : bool) (v : list Z).
Hypothesis Hv : Forall byte_ok v.
Let len := length v.

Definition align_ok (a : Z) : Prop := a = usize_MAX ∨ (addr + a) mod 8 = 0.

Lemma align_index a i : align_ok a → a ≠ usize_MAX → wrapping (a - i) mod 8 = 0 → (addr + i) mod 8 = 0.
Proof.
  intros [?|Ha] Hne Hw; [done|]. unfold wrapping in Hw. change (2 ^ 64) with (8 * 2 ^ 61) in Hw. 
  rewrite Z.rem_mul_r in Hw by lia. set (x := (a - i) / 8 mod 2 ^ 61) in *. clearbody x. dlia.
Qed.

Lemma validate_step_spec a i (Q : step_result → list Z → Prop) P :
  align_ok a → (i ≤ len)%nat → valid_utf8 (take i v) →
  (∀ j, (i < j ≤ len)%nat → valid_utf8 (take j v) → Q (inl j) v) →
  (∀ r, answer_right v r → Q (inr r) v) →
  wp (validate_step addr len (blocks_end v) a i) Q P v.
Proof.
  intros Ha Hi Hval Hgo Hstop. unfold validate_step.
  destruct (Nat.ltb_spec i len) as [Hlt|Hge]; cbn [negb].
  2:{ apply wp_ret, Hstop. simpl. by rewrite take_ge in Hval by (unfold len in *; lia). }
  destruct (lookup_lt_is_Some_2 v i Hlt) as [b Hb]. apply wp_bind, (wp_byte_at _ _ _ _ b Hb).
  assert (0 ≤ b) as Hb0 by (pose proof (Forall_lookup_1 _ _ _ _ Hv Hb) as Hok; unfold byte_ok in Hok; lia).
  destruct (Z.leb_spec 128 b) as [H128|H128].
  - apply multibyte_spec; [done..|]. pose proof (classify_drop v i Hv Hlt) as Hc.
    destruct (classify (drop i v)) as [n|e]; simpl in Hc.
    + destruct (take_char v i n) as [? ?]; [done..|by apply Hgo].
    + by apply Hstop.
  - assert (ascii_between v i (i + 1)) as H1.
    { split; [unfold len in *; lia|]. rewrite (drop_S _ _ _ Hb). replace (i + 1 - i)%nat with 1%nat by lia.
      simpl. repeat constructor; lia. }
    destruct (Z.eqb_spec a usize_MAX) as [|Hne]; cbn [negb andb];
      [apply wp_ret, Hgo; [lia|by eapply valid_ascii_between]|].
    destruct (Z.eqb_spec (wrapping (a - Z.of_nat i) mod 8) 0) as [Hm|];
      [|apply wp_ret, Hgo; [lia|by eapply valid_ascii_between]].
    apply wp_bind, skip_blocks_spec; [done..|by apply (align_index a)|]. intros j Hij.
    apply wp_bind, skip_bytes_spec; [done|by destruct Hij as [? _]; unfold len in *; lia|]. intros k Hjk Hk.
    pose proof (ascii_trans _ _ _ _ Hij Hjk) as Hik. apply wp_ret, Hgo; [|by eapply valid_ascii_between].
    destruct Hik as [Hik _]. split; [|unfold len in *; lia].
    destruct (decide (k = i)) as [->|]; [|lia]. specialize (Hk b Hb). lia.
Qed.

(** A valid string is recognised, and an error is told right. *)
Lemma validation_spec P : 0 ≤ addr ≤ usize_MAX →
  wp (run_utf8_validation addr const_eval) (λ r s, s = v ∧ answer_right v r) P v.
Proof.
  intros Haddr. unfold run_utf8_validation. apply wp_bind, wp_gets. apply wp_bind.
  assert (∀ Q : Z → list Z → Prop, (∀ a, align_ok a → Q a v) →
    wp (if const_eval then mret usize_MAX else unwrap_unchecked (align_offset 1 addr 8)) Q P v) as Halign.
  { intros Q HQ. destruct const_eval; [by apply wp_ret, HQ; left|].
    destruct (align_offset_bytes addr Haddr) as (r&->&_&Hr). apply wp_ret, HQ. by right. }
  apply Halign. intros a Ha. fold (blocks_end v).
  apply (wp_loop (λ i s, s = v ∧ (i ≤ len)%nat ∧ valid_utf8 (take i v)) (λ i, (len - i)%nat)).
  - intros i s (->&Hi&Hval). apply validate_step_spec; [done..| |].
    + intros j Hj Hvj. split; [|lia]. split_and!; [done|lia|done].
    + intros r Hr. done.
  - split_and!; [done|lia|apply valid_nil].
  - unfold len. lia.
Qed.
End validate.

(** What does not start with a character is not a valid string, nor is a prefix of it. *)
Lemma not_char v e : classified v (inr e) → ∀ n, ¬ starts_with_char v n.
Proof.
  destruct e as [k|]; [by intros (_&_&?&_)|]. intros (Hne&c&Hc&[r Hr]&Hneq) n (c'&rest&Hc'&->&_).
  rewrite <- app_assoc, <- (app_nil_r (utf8 c)) in Hr.
  apply utf8_app_inj in Hr as [-> Hr]; [|by apply scalar_bound..].
  destruct rest; [|done]. by rewrite app_nil_r in Hneq.
Qed.

Lemma not_valid v e j : classified v (inr e) → (0 < j ≤ length v)%nat → ¬ valid_utf8 (take j v).
Proof.
  intros He Hj Hval. destruct (valid_cons_inv _ Hval) as (c&v'&Hc&Heq).
  { intros H0. apply (f_equal length) in H0. rewrite length_take in H0. simpl in H0. lia. }
  apply (not_char v e He (length (utf8 c))). exists c, (v' ++ drop j v).
  by rewrite app_assoc, <- Heq, take_drop.
Qed.

Lemma error_longest v e j : error_right v e → (valid_up_to e < j ≤ length v)%nat → ¬ valid_utf8 (take j v).
Proof.
  intros (Hval&Hlt&He) Hj Hvj. replace j with (valid_up_to e + (j - valid_up_to e))%nat in Hvj by lia.
  rewrite <- take_take_drop in Hvj. apply valid_app_inv in Hvj; [|done].
  revert Hvj. apply (not_valid _ (error_len e)); [done|]. rewrite length_drop. lia.
Qed.

Lemma answer_right_valid v r : answer_right v r → r = None ↔ valid_utf8 v.
Proof.
  destruct r as [e|]; [|done]. intros He. split; [done|]. intros Hval. exfalso.
  apply (error_longest v e (length v) He); [destruct He as (_&?&_); lia|]. by rewrite take_ge.
Qed.

(** ** Chunks *)
Lemma wp_get_unchecked i v b (Q : Z → list Z → Prop) P : v !! i = Some b → Q b v → wp (get_unchecked i) Q P v.
Proof. intros Hb HQ. unfold wp, get_unchecked. by rewrite Hb. Qed.

Lemma not_cont_land b : byte_ok b → not_cont b = negb (is_cont b).
Proof.
  intros Hb. apply eqb_prop, (forallb_range (λ b, Bool.eqb (not_cont b) (negb (is_cont b))) 0 256); [reflexivity|].
  unfold byte_ok in Hb. lia.
Qed.

(** The bytes that the loop has inspected when it stops at [valid_up_to]. *)
Definition inspected (v : list Z) (e : option nat) : nat := default (length v) e.

Lemma safe_get_drop v i : safe_get v i = default 0 (head (drop i v)).
Proof. unfold safe_get. by rewrite head_lookup, lookup_drop, Nat.add_0_r. Qed.

Lemma second_none b : second_of_three b 0 = false ∧ second_of_four b 0 = false.
Proof. unfold second_of_three, second_of_four, in_range. cbn [Z.leb]. by rewrite ?andb_false_r. Qed.

Lemma chunk_step_spec v i (Q : (nat * nat) + (nat * nat) → list Z → Prop) P :
  Forall byte_ok v → (i < length v)%nat →
  match classify (drop i v) with
  | inl n => Q (inl (i + n, i + n)%nat) v
  | inr e => Q (inr (i + inspected (drop i v) e, i)%nat) v
  end → wp (chunk_step (i, i)) Q P v.
Proof.
  intros Hv Hi HQ. unfold chunk_step. apply wp_bind, wp_gets.
  rewrite (proj2 (Nat.ltb_lt i _)) by done. cbn [negb].
  destruct (lookup_lt_is_Some_2 v i Hi) as [b Hb]. apply wp_bind, (wp_get_unchecked _ _ b); [done|].
  pose proof (Forall_drop _ i _ Hv) as Hok. pose proof (drop_S v b i Hb) as Hd.
  rewrite Hd in HQ, Hok. unfold inspected in HQ. cbn [classify] in HQ.
  destruct (b <? 128); [by apply wp_ret|]. rewrite !safe_get_drop. apply drop_tail in Hd.
  revert HQ. set (r := drop (S i) v) in *. clearbody r. apply Forall_cons in Hok as [_ Hok].
  assert (not_cont 0 = true) as Hnc by reflexivity.
  destruct (utf8_char_width b) as [|[|[|[|[|w]]]]]; intros HQ; try (by apply wp_ret); rewrite Hd;
    (destruct r as [|b1 r];
     [|apply Forall_cons in Hok as [Hb1 Hok]; apply drop_tail in Hd; rewrite ?Hd]); cbn [head default id].
  - by apply wp_ret.
  - rewrite not_cont_land by done. destruct (is_cont b1); apply wp_ret; [|done].
    by replace (i + 1 + 1)%nat with (i + 2)%nat by lia.
  - rewrite (proj1 (second_none b)). by apply wp_ret.
  - destruct (second_of_three b b1); [|by apply wp_ret]. cbn [negb].
    destruct r as [|b2 r]; cbn [head default id].
    { rewrite Hnc. apply wp_ret. by replace (i + 1 + 1)%nat with (i + 2)%nat by lia. }
    apply Forall_cons in Hok as [Hb2 Hok]. rewrite not_cont_land by done.
    destruct (is_cont b2); apply wp_ret; [by replace (i + 1 + 1 + 1)%nat with (i + 3)%nat by lia|].
    by replace (i + 1 + 1)%nat with (i + 2)%nat by lia.
  - rewrite (proj2 (second_none b)). by apply wp_ret.
  - destruct (second_of_four b b1); [|by apply wp_ret]. cbn [negb].
    destruct r as [|b2 r]; cbn [head default id].
    { rewrite Hnc. apply wp_ret. by replace (i + 1 + 1)%nat with (i + 2)%nat by lia. }
    apply Forall_cons in Hok as [Hb2 Hok]. apply drop_tail in Hd. rewrite not_cont_land by done.
    destruct (is_cont b2); cbn [negb]; [|apply wp_ret; by replace (i + 1 + 1)%nat with (i + 2)%nat by lia].
    rewrite Hd. destruct r as [|b3 r]; cbn [head default id].
    { rewrite Hnc. apply wp_ret. by replace (i + 1 + 1 + 1)%nat with (i + 3)%nat by lia. }
    apply Forall_cons in Hok as [Hb3 _]. rewrite not_cont_land by done.
    destruct (is_cont b3); apply wp_ret; [by replace (i + 1 + 1 + 1 + 1)%nat with (i + 4)%nat by lia|].
    by replace (i + 1 + 1 + 1)%nat with (i + 3)%nat by lia.
Qed.

(** The chunk that an answer of the validation describes, and the rest. *)
Definition chunk_of (v : list Z) (r : option Utf8Error) : (list Z * list Z) * list Z :=
  match r with
  | None => (v, [], [])
  | Some e =>
      let u := drop (valid_up_to e) v in
      (take (valid_up_to e) v, take (inspected u (error_len e)) u, drop (inspected u (error_len e)) u)
  end.

Lemma inspected_le v e : classified v (inr e) → (0 < inspected v e ≤ length v)%nat.
Proof.
  destruct e as [n|]; simpl; [by intros (?&?&_); lia|]. intros [Hne _]. destruct v; [done|simpl; lia].
Qed.

Lemma wp_split_at {S} v i (Q : list Z * list Z → S → Prop) P s :
  (i ≤ length v)%nat → Q (take i v, drop i v) s → wp (split_at_unchecked v i) Q P s.
Proof. intros Hi HQ. unfold split_at_unchecked. rewrite (proj2 (Nat.leb_le _ _)) by done. by apply wp_ret. Qed.

Lemma chunks_next_spec v P : Forall byte_ok v → v ≠ [] →
  wp chunks_next (λ r s, ∃ a, answer_right v a ∧ r = Some (fst (chunk_of v a)) ∧ s = snd (chunk_of v a)) P v.
Proof.
  intros Hv Hne. unfold chunks_next. apply wp_bind, wp_gets.
  assert (0 < length v)%nat by (destruct v; [done|simpl; lia]).
  rewrite (proj2 (Nat.eqb_neq _ _)) by lia. apply wp_bind.
  apply (wp_loop (λ p s, s = v ∧ p.1 = p.2 ∧ (p.1 ≤ length v)%nat ∧ valid_utf8 (take p.1 v))
    (λ p, (length v - p.1)%nat)); [|split_and!; [done|done|simpl; lia|apply valid_nil]|simpl; lia].
  intros [i i'] s (->&Hp&Hi&Hval). cbn [fst snd] in *. subst i'.
  destruct (decide (i = length v)) as [->|].
  - unfold chunk_step. apply wp_bind, wp_gets. rewrite Nat.ltb_irrefl. cbn [negb].
    apply wp_ret, wp_bind, wp_split_at; [done|]. apply wp_bind, wp_modify, wp_bind. rewrite firstn_all in *.
    apply wp_split_at; [done|]. rewrite !drop_all, firstn_all. apply wp_ret. exists None. done.
  - apply chunk_step_spec; [done|lia|]. pose proof (classify_drop v i Hv ltac:(lia)) as Hc.
    destruct (classify (drop i v)) as [k|e]; simpl in Hc.
    + destruct (take_char v i k) as [? ?]; [done..|]. cbn [fst]. split; [|lia]. split_and!; [done|done|lia|done].
    + pose proof (inspected_le _ e Hc) as Hins. rewrite length_drop in Hins.
      apply wp_bind, wp_split_at; [lia|]. apply wp_bind, wp_modify, wp_bind.
      apply wp_split_at; [rewrite length_take; lia|]. apply wp_ret. exists (Some (MkUtf8Error i e)).
      split; [by split_and!; [|simpl; lia|]|]. unfold chunk_of. cbn [valid_up_to error_len fst snd].
      rewrite take_take, Nat.min_l, drop_drop by lia.
      by rewrite firstn_skipn_comm.
Qed.

(** The answer is determined. *)
Lemma prefix_take_le {A} (v : list A) n m : (n ≤ m)%nat → take n v `prefix_of` take m v.
Proof. intros Hnm. replace (take n v) with (take n (take m v)) by (rewrite take_take; f_equal; lia). apply prefix_take. Qed.

Lemma ill_formed_cut v n m : ill_formed v n → (n < m)%nat → ¬ starts_a_char (take m v).
Proof.
  intros (_&_&_&_&Hno) Hnm (c&Hc&Hp). apply Hno. exists c. split; [done|].
  etransitivity; [by apply prefix_take_le|done].
Qed.

Lemma cut_off_ill_formed v n : cut_off v → ¬ ill_formed v n.
Proof.
  intros (_&c&Hc&Hp&_) Hill. eapply (ill_formed_cut v n (S (n + length v))); [done|lia|].
  rewrite take_ge by lia. by exists c.
Qed.

Lemma ill_formed_unique v n m : ill_formed v n → ill_formed v m → n = m.
Proof.
  assert (∀ n m, ill_formed v n → ill_formed v m → ¬ (n < m)%nat) as Hlt.
  { intros n' m' Hn (Hm&_&_&[->|Hs]&_) Hnm; [destruct Hn; lia|]. by eapply ill_formed_cut. }
  intros Hn Hm. pose proof (Hlt n m Hn Hm). pose proof (Hlt m n Hm Hn). lia.
Qed.

Lemma classified_unique v e1 e2 : classified v (inr e1) → classified v (inr e2) → e1 = e2.
Proof.
  destruct e1 as [n|], e2 as [m|]; simpl; intros H1 H2; [f_equal; by eapply ill_formed_unique| | |done];
    exfalso; by eapply cut_off_ill_formed.
Qed.

Lemma error_right_unique v e1 e2 : error_right v e1 → error_right v e2 → e1 = e2.
Proof.
  intros H1 H2. assert (valid_up_to e1 = valid_up_to e2) as Heq.
  { pose proof H1 as (Hv1&Hl1&_). pose proof H2 as (Hv2&Hl2&_).
    destruct (Nat.lt_trichotomy (valid_up_to e1) (valid_up_to e2)) as [?|[?|?]]; [exfalso|done|exfalso].
    - by apply (error_longest v e1 (valid_up_to e2) H1); [lia|].
    - by apply (error_longest v e2 (valid_up_to e1) H2); [lia|]. }
  destruct H1 as (_&_&H1), H2 as (_&_&H2). destruct e1, e2. simpl in *. subst. f_equal.
  by eapply classified_unique.
Qed.

Lemma answer_right_unique v r1 r2 : answer_right v r1 → answer_right v r2 → r1 = r2.
Proof.
  intros H1 H2. destruct r1 as [e1|], r2 as [e2|]; [f_equal; by eapply error_right_unique| | |done]; exfalso.
  - by apply (answer_right_valid v (Some e1) H1) in H2.
  - by apply (answer_right_valid v (Some e2) H2) in H1.
Qed.
