(* ===== verification/Utf8Bound.v ===== *)
(** Where the characters of a valid string begin. *)

From S2P Require Import Prelude.
From S2P Require Import Layout.
From S2P Require Import Words.
From S2P Require Import Utf8.
From S2P Require Import Utf8Check.
From S2P Require Import Utf8Spec.
From S2P Require Import Utf8CheckSpec.
From S2P Require Import Utf8Valid.

#[local] Open Scope Z_scope.

(** A boundary of [v] is a place where the string can be cut in two strings. *)
Definition boundary (v : list Z) (i : nat) : Prop := (i ≤ length v)%nat ∧ valid_utf8 (take i v).

Lemma length_utf8_bound c : (1 ≤ length (utf8 c) ≤ 4)%nat.
Proof. rewrite length_utf8. unfold len_utf8. repeat case_match; lia. Qed.

Lemma boundary_0 v : boundary v 0.
Proof. split; [lia|]. apply valid_nil. Qed.

Lemma boundary_all v : valid_utf8 v → boundary v (length v).
Proof. split; [done|]. by rewrite firstn_all. Qed.

Lemma boundary_drop v i : valid_utf8 v → boundary v i → valid_utf8 (drop i v).
Proof. intros Hv [Hi Hval]. rewrite <- (take_drop i v) in Hv. by apply valid_app_inv in Hv. Qed.

(** After a boundary, the next one is a character further. *)
Lemma boundary_next v i : valid_utf8 v → boundary v i → (i < length v)%nat →
  ∃ c, scalar c ∧ utf8 c `prefix_of` drop i v ∧ boundary v (i + length (utf8 c)).
Proof.
  intros Hv Hi Hlt. pose proof (boundary_drop v i Hv Hi) as Hd.
  destruct (valid_cons_inv _ Hd) as (c&v'&Hc&Heq).
  { intros H0. apply (f_equal length) in H0. rewrite length_drop in H0. simpl in H0. lia. }
  destruct (take_char v i (length (utf8 c))) as [Hval Hlen]; [rewrite Heq; by apply starts_with_char_app|apply Hi|lia|].
  exists c. split_and!; [done|rewrite Heq; by exists v'|by split; [lia|]].
Qed.

(** No boundary is inside a character. *)
Lemma boundary_inside v c i n : scalar c → boundary v i → utf8 c `prefix_of` drop i v →
  (0 < n < length (utf8 c))%nat → ¬ boundary v (i + n).
Proof.
  intros Hc [Hi Hval] [r Hr] Hn [Hin Hval2]. rewrite <- take_take_drop, Hr, take_app_le in Hval2 by lia.
  apply valid_app_inv in Hval2; [|done]. destruct (valid_cons_inv _ Hval2) as (c'&v'&Hc'&Heq).
  { intros H0. apply (f_equal length) in H0. rewrite length_take in H0. simpl in H0. lia. }
  pose proof (take_drop n (utf8 c)) as Hcut. rewrite Heq, <- app_assoc in Hcut.
  rewrite <- (app_nil_r (utf8 c)) in Hcut. apply utf8_app_inj in Hcut as [-> Hnil]; [|by apply scalar_bound..].
  apply (f_equal length) in Heq. rewrite length_take, length_app in Heq. lia.
Qed.

(** What the bytes tell. *)
Lemma tail_byte b : 0x80 ≤ b < 0xC0 → is_utf8_char_boundary b = false.
Proof. intros Hb. unfold is_utf8_char_boundary, as_i8. repeat case_bool; (done || lia). Qed.

Lemma lead_byte b : 0 ≤ b < 0x80 ∨ 0xC0 ≤ b < 0x100 → is_utf8_char_boundary b = true.
Proof. intros Hb. unfold is_utf8_char_boundary, as_i8. repeat case_bool; (done || lia). Qed.

Lemma utf8_byte c n b : scalar c → utf8 c !! n = Some b → is_utf8_char_boundary b = (n =? 0)%nat.
Proof.
  intros Hc. destruct (utf8_encodes c (scalar_bound c Hc)) as [c Hx|x y Hx Hy|x y z Hx Hy Hz _|x y z w Hx Hy Hz Hw _ _];
    (destruct n as [|n]; [intros [= <-]; apply lead_byte; lia|]); cbn [Nat.eqb lookup list_lookup].
  all: repeat (destruct n as [|n]; [intros [= <-]; apply tail_byte; lia|]; cbn [lookup list_lookup]); done.
Qed.

(** A place in the string is at a boundary or inside a character. *)
Lemma boundary_before v i : valid_utf8 v → (i ≤ length v)%nat →
  ∃ j, (j ≤ i)%nat ∧ boundary v j ∧ (∀ k, j < k ≤ i → ¬ boundary v k)%nat ∧
    (j = i ∨ ∃ c, scalar c ∧ utf8 c `prefix_of` drop j v ∧ i < j + length (utf8 c))%nat.
Proof.
  intros Hv. induction i as [|i IH]; intros Hi.
  { exists 0%nat. split_and!; [lia|apply boundary_0|lia|by left]. }
  destruct IH as (j&Hji&Hj&Hno&Hin); [lia|].
  assert (∃ c, scalar c ∧ utf8 c `prefix_of` drop j v ∧ boundary v (j + length (utf8 c)) ∧
    (i < j + length (utf8 c))%nat) as (c&Hc&Hp&Hnext&Hlt).
  { destruct Hin as [->|(c&Hc&Hp&Hlt)].
    - destruct (boundary_next v i Hv Hj) as (c&Hc&Hp&Hnext); [lia|]. exists c.
      split_and!; [done..|]. pose proof (length_utf8_bound c). lia.
    - exists c. split_and!; [done..| |done].
      destruct (boundary_next v j Hv Hj) as (c'&Hc'&[r' Hp']&Hnext); [lia|]. destruct Hp as [r Hp].
      rewrite Hp in Hp'. apply utf8_app_inj in Hp' as [-> _]; [done|by apply scalar_bound..]. }
  destruct (decide (j + length (utf8 c) = S i)%nat) as [He|].
  - exists (S i). rewrite <- He. split_and!; [lia|done|lia|by left].
  - exists j. split_and!; [lia|done| |right; exists c; split_and!; [done..|lia]].
    intros k Hk. destruct (decide (k = S i)) as [->|]; [|apply Hno; lia].
    replace (S i) with (j + (S i - j))%nat by lia. apply (boundary_inside v c); [done..|lia].
Qed.

(** The byte at a place tells. *)
Lemma boundary_byte v i b : valid_utf8 v → v !! i = Some b →
  is_utf8_char_boundary b = true ↔ boundary v i.
Proof.
  intros Hv Hb. pose proof (lookup_lt_Some _ _ _ Hb) as Hi.
  destruct (boundary_before v i Hv) as (j&Hji&Hj&Hno&Hin); [lia|].
  assert (∃ c, scalar c ∧ utf8 c `prefix_of` drop j v ∧ (i < j + length (utf8 c))%nat) as (c&Hc&[r Hr]&Hlt).
  { destruct Hin as [->|?]; [|done]. destruct (boundary_next v i Hv Hj) as (c&Hc&Hp&_); [lia|].
    exists c. split_and!; [done..|]. pose proof (length_utf8_bound c). lia. }
  assert (utf8 c !! (i - j)%nat = Some b) as Hcb.
  { rewrite <- (lookup_app_l _ r), <- Hr, lookup_drop by lia. by replace (j + (i - j))%nat with i by lia. }
  rewrite (utf8_byte c _ b Hc Hcb), Nat.eqb_eq. split.
  - intros He. by replace i with j by lia.
  - intros Hbi. destruct (decide (j = i)) as [->|]; [lia|]. exfalso. apply (Hno i); [lia|done].
Qed.

(** ** The functions *)
Lemma is_char_boundary_spec v i P : valid_utf8 v →
  wp (is_char_boundary i) (λ r s, s = v ∧ (r = true ↔ boundary v i)) P v.
Proof.
  intros Hv. unfold is_char_boundary. destruct (Nat.eqb_spec i 0) as [->|H0].
  { apply wp_ret. split; [done|]. split; [intros; apply boundary_0|done]. }
  apply wp_bind, wp_gets. destruct (Nat.leb_spec (length v) i).
  - apply wp_ret. split; [done|]. rewrite Nat.eqb_eq. split; [intros ->; by apply boundary_all|intros [? _]; lia].
  - destruct (lookup_lt_is_Some_2 v i) as [b Hb]; [lia|]. apply wp_bind, (wp_byte_at _ _ _ _ b Hb).
    apply wp_ret. split; [done|]. by apply boundary_byte.
Qed.

(** The last boundary up to [i], and the first one from [i]. *)
Definition floor_of (v : list Z) (i j : nat) : Prop :=
  (j ≤ i)%nat ∧ boundary v j ∧ (∀ k, j < k ≤ i → ¬ boundary v k)%nat.
Definition ceil_of (v : list Z) (i j : nat) : Prop :=
  (i ≤ j)%nat ∧ boundary v j ∧ (∀ k, i ≤ k < j → ¬ boundary v k)%nat.

Lemma floor_of_near v i j : valid_utf8 v → (i < length v)%nat → floor_of v i j → (i < j + 4)%nat.
Proof.
  intros Hv Hi (Hji&Hj&Hno). destruct (boundary_next v j Hv Hj) as (c&_&_&Hn); [lia|].
  pose proof (length_utf8_bound c). destruct (Nat.lt_ge_cases i (j + length (utf8 c))); [lia|].
  exfalso. by apply (Hno (j + length (utf8 c))%nat); [lia|].
Qed.

Lemma ceil_of_near v i j : valid_utf8 v → (i < length v)%nat → ceil_of v i j → (j < i + 4)%nat.
Proof.
  intros Hv Hi (Hij&Hj&Hno). destruct (boundary_before v i Hv) as (k&Hki&Hk&Hmax&_); [lia|].
  destruct (decide (k = i)) as [->|].
  { destruct (Nat.lt_ge_cases i j); [|lia]. exfalso. apply (Hno i); [lia|done]. }
  destruct (boundary_next v k Hv Hk) as (c&_&_&Hn); [lia|]. pose proof (length_utf8_bound c).
  assert (i < k + length (utf8 c))%nat.
  { destruct (Nat.lt_ge_cases i (k + length (utf8 c))); [done|]. exfalso. by apply (Hmax (k + length (utf8 c))%nat); [lia|]. }
  destruct (Nat.lt_ge_cases (k + length (utf8 c)) j); [|lia]. exfalso. by apply (Hno (k + length (utf8 c))%nat); [lia|].
Qed.

Lemma floor_char_boundary_spec v i P : valid_utf8 v →
  wp (floor_char_boundary i) (λ r s, s = v ∧ floor_of v (Nat.min i (length v)) r) P v.
Proof.
  intros Hv. unfold floor_char_boundary. apply wp_bind, wp_gets. destruct (Nat.leb_spec (length v) i) as [Hle|Hlt].
  { apply wp_ret. rewrite Nat.min_r by done. split; [done|]. split_and!; [done|by apply boundary_all|lia]. }
  rewrite Nat.min_l by lia. apply wp_bind.
  apply (wp_loop (λ j s, s = v ∧ (j ≤ i)%nat ∧ ∀ k, (j < k ≤ i → ¬ boundary v k)%nat) (λ j, j));
    [|split_and!; [done|done|lia]|lia].
  intros j s (->&Hji&Hno).
  assert (floor_of v i j →
    wp (assert_ (i - 3 <=? j)%nat) (λ _ s', wp (mret j) (λ r s, s = v ∧ floor_of v i r) P s') P v) as Hend.
  { intros Hf. pose proof (floor_of_near v i j Hv Hlt Hf).
    apply wp_assert; [apply Nat.leb_le; lia|by apply wp_ret]. }
  destruct (Nat.ltb_spec 0 j) as [Hj|Hj]; cbn [negb].
  2:{ apply wp_ret, wp_bind, Hend. split_and!; [done|assert (j = 0%nat) as -> by lia; apply boundary_0|done]. }
  destruct (lookup_lt_is_Some_2 v j) as [b Hb]; [lia|]. apply wp_bind, (wp_byte_at _ _ _ _ b Hb).
  pose proof (boundary_byte v j b Hv Hb) as Hbb. destruct (is_utf8_char_boundary b).
  - apply wp_ret, wp_bind, Hend. split_and!; [done|by apply Hbb|done].
  - apply wp_ret. split; [|lia]. split_and!; [done|lia|]. intros k Hk.
    destruct (decide (k = j)) as [->|]; [|apply Hno; lia]. intros Hbk%Hbb. done.
Qed.

Lemma ceil_char_boundary_spec v i P : valid_utf8 v →
  wp (ceil_char_boundary i) (λ r s, s = v ∧ ceil_of v (Nat.min i (length v)) r) P v.
Proof.
  intros Hv. unfold ceil_char_boundary. apply wp_bind, wp_gets. destruct (Nat.leb_spec (length v) i) as [Hle|Hlt].
  { apply wp_ret. rewrite Nat.min_r by done. split; [done|]. split_and!; [done|by apply boundary_all|lia]. }
  rewrite Nat.min_l by lia. apply wp_bind.
  apply (wp_loop (λ j s, s = v ∧ (i ≤ j ≤ length v)%nat ∧ ∀ k, (i ≤ k < j → ¬ boundary v k)%nat) (λ j, length v - j)%nat);
    [|split_and!; [done|done|lia|lia]|lia].
  intros j s (->&Hji&Hno).
  assert (ceil_of v i j →
    wp (assert_ (j <=? i + 3)%nat) (λ _ s', wp (mret j) (λ r s, s = v ∧ ceil_of v i r) P s') P v) as Hend.
  { intros Hf. pose proof (ceil_of_near v i j Hv Hlt Hf).
    apply wp_assert; [apply Nat.leb_le; lia|by apply wp_ret]. }
  destruct (Nat.ltb_spec j (length v)) as [Hj|Hj]; cbn [negb].
  2:{ apply wp_ret, wp_bind, Hend. split_and!; [lia|assert (j = length v) as -> by lia; by apply boundary_all|done]. }
  destruct (lookup_lt_is_Some_2 v j) as [b Hb]; [lia|]. apply wp_bind, (wp_byte_at _ _ _ _ b Hb).
  pose proof (boundary_byte v j b Hv Hb) as Hbb. destruct (is_utf8_char_boundary b).
  - apply wp_ret, wp_bind, Hend. split_and!; [lia|by apply Hbb|done].
  - apply wp_ret. split; [|lia]. split_and!; [done|lia|lia|]. intros k Hk.
    destruct (decide (k = j)) as [->|]; [|apply Hno; lia]. intros Hbk%Hbb. done.
Qed.
