(* ===== verification/Utf16Spec.v ===== *)
(** What encoding and decoding UTF-16 does. *)

From S2P Require Import Prelude.
From S2P Require Import Layout.
From S2P Require Import Words.
From S2P Require Import AlignOffset.
From S2P Require Import Utf8.
From S2P Require Import Utf8Spec.

#[local] Open Scope Z_scope.

(** ** The encoding *)
Definition utf16 (c : Z) : list Z :=
  if c <? 0x10000 then [c] else [0xD800 + (c - 0x10000) / 1024; 0xDC00 + (c - 0x10000) mod 1024].

Definition unit_ok (u : Z) : Prop := 0 ≤ u < 2 ^ 16.
Definition leading (u : Z) : Prop := 0xD800 ≤ u < 0xDC00.
Definition trailing (u : Z) : Prop := 0xDC00 ≤ u < 0xE000.

Lemma length_utf16 c : 0 ≤ c → length (utf16 c) = len_utf16 c.
Proof.
  intros Hc. unfold utf16, len_utf16. change 0xFFFF with (2 ^ 16 - 1). rewrite land_low by lia.
  change (2 ^ 16) with 65536. destruct (Z.ltb_spec c 0x10000).
  - rewrite Z.mod_small by lia. by rewrite Z.eqb_refl.
  - rewrite (proj2 (Z.eqb_neq _ _)); [done|dlia].
Qed.

Lemma encode_utf16_spec c dst : 0 ≤ c < 0x110000 →
  wp (encode_utf16_raw c)
    (λ r dst', r = utf16 c ∧ dst' = utf16 c ++ drop (length (utf16 c)) dst)
    (λ dst', dst' = dst ∧ (length dst < length (utf16 c))%nat) dst.
Proof.
  intros Hc. unfold encode_utf16_raw. apply wp_bind, wp_gets. rewrite <- length_utf16 by lia.
  unfold utf16. destruct (Z.ltb_spec c 0x10000); cbn [length].
  - destruct dst as [|d dst]; [apply wp_bind, wp_panic; simpl; split; [done|lia]|].
    apply wp_bind, wp_store; [simpl; lia|]. apply wp_gets. simpl. by rewrite Z.mod_small by lia.
  - destruct dst as [|d [|d2 dst]]; [apply wp_bind, wp_panic; simpl; split; [done|lia]..|].
    apply wp_bind, wp_bind, wp_store; [simpl; lia|]. apply wp_store; [simpl; lia|]. apply wp_gets. simpl.
    rewrite Z.shiftr_div_pow2 by lia. change 0x3FF with (2 ^ 10 - 1). rewrite land_low by lia.
    change (2 ^ 10) with 1024. set (q := c - 0x10000). rewrite !Z.mod_small by (subst q; dlia).
    rewrite !(Z.lor_comm _ 0xD800), !(Z.lor_comm _ 0xDC00), !(lor_add _ _ 10); try done; subst q; dlia.
Qed.

(** ** Decoding *)
(** The code units of an item. *)
Definition units_of (r : Z + Z) : list Z := match r with inl c => utf16 c | inr u => [u] end.
Definition item_ok (r : Z + Z) : Prop :=
  match r with inl c => scalar c | inr u => leading u ∨ trailing u end.

(** The code units left; the one in the buffer is not a trailing surrogate. *)
Definition units_left (d : DecodeUtf16) : list Z := option_list (buf d) ++ iter d.
Definition decode_ok (d : DecodeUtf16) : Prop :=
  Forall unit_ok (units_left d) ∧ ∀ u, buf d = Some u → ¬ trailing u.

Lemma surrogate_true u : is_utf16_surrogate u = true ↔ leading u ∨ trailing u.
Proof. unfold is_utf16_surrogate, in_range, leading, trailing. rewrite andb_true_iff, !Z.leb_le. lia. Qed.

Lemma surrogate_pair u u2 : leading u → trailing u2 →
  ∃ c, Z.lor (shl32 (Z.land u 0x3ff) 10) (Z.land u2 0x3ff) + 0x10000 = c ∧ scalar c ∧ utf16 c = [u; u2].
Proof.
  unfold leading, trailing. intros Hu Hu2. eexists. split; [done|].
  change 0x3FF with (2 ^ 10 - 1). rewrite !land_low by lia. change (2 ^ 10) with 1024.
  rewrite shl32_lor by dlia. change (2 ^ 10) with 1024.
  assert (u mod 1024 = u - 0xD800) as -> by dlia. assert (u2 mod 1024 = u2 - 0xDC00) as -> by dlia.
  split; [right; lia|]. unfold utf16. rewrite (proj2 (Z.ltb_ge _ _)) by lia. repeat f_equal; dlia.
Qed.

(** One item takes its units, and a leading surrogate is reported only when no
    trailing one follows. *)
Definition decoded (d : DecodeUtf16) (r : Z + Z) (d' : DecodeUtf16) : Prop :=
  item_ok r ∧ units_left d = units_of r ++ units_left d' ∧
  match r with inr u => leading u → ∀ u2, head (units_left d') = Some u2 → ¬ trailing u2 | inl _ => True end.

Lemma decode_next_spec d P : decode_ok d →
  wp decode_utf16_next
    (λ o d', decode_ok d' ∧ match o with None => units_left d = [] ∧ units_left d' = [] | Some r => decoded d r d' end) P d.
Proof.
  destruct d as [it b]. intros [Hok Hb]. unfold decode_utf16_next. apply wp_bind, wp_gets.
  apply wp_bind, wp_modify, wp_bind. cbn [iter buf].
  assert (∀ u it', Forall unit_ok (u :: it') → units_left (MkDecodeUtf16 it b) = u :: it' →
    wp (if negb (is_utf16_surrogate u) then c ← from_u32_unchecked u; mret (Some (inl c))
        else if 0xDC00 <=? u then mret (Some (inr u))
        else
          u2 ← iter_next;
          match u2 with
          | None => mret (Some (inr u))
          | Some u2 =>
              if (u2 <? 0xDC00) || (0xDFFF <? u2) then
                _ ← modify (λ d, MkDecodeUtf16 (iter d) (Some u2)); mret (Some (inr u))
              else
                let c := Z.lor (shl32 (Z.land u 0x3ff) 10) (Z.land u2 0x3ff) + 0x10000 in
                c ← from_u32_unchecked c; mret (Some (inl c))
          end)
      (λ o d', decode_ok d' ∧ match o with None => units_left (MkDecodeUtf16 it b) = [] ∧ units_left d' = []
         | Some r => decoded (MkDecodeUtf16 it b) r d' end) P (MkDecodeUtf16 it' None)) as Hgo.
  { clear. intros u it' [Hu Hit]%Forall_cons Hd. unfold decoded. rewrite Hd. clear Hd it b.
    pose proof (surrogate_true u) as Hs. destruct (is_utf16_surrogate u); cbn [negb].
    - destruct Hs as [Hs _]. specialize (Hs eq_refl). destruct (Z.leb_spec 0xDC00 u) as [Htr|Htr].
      { apply wp_ret. split; [by split|]. cbn. split_and!; [done|done|]. unfold leading. lia. }
      assert (leading u) as Hlead by (unfold leading, trailing in *; lia).
      apply wp_bind. unfold iter_next, wp at 1. cbn [iter buf]. destruct it' as [|u2 it'].
      { apply wp_ret. split; [by split|]. cbn. by split_and!. }
      apply Forall_cons in Hit as [Hu2 Hit].
      destruct (Z.ltb_spec u2 0xDC00), (Z.ltb_spec 0xDFFF u2); cbn [orb].
      4:{ cbv zeta. destruct (surrogate_pair u u2) as (c&->&Hc&Hc16); [done|unfold trailing; lia|].
          apply wp_bind, wp_from_u32_unchecked; [done|]. apply wp_ret. split; [by split|]. cbn. by rewrite Hc16. }
      all: apply wp_bind, wp_modify, wp_ret; split; [split; [by constructor|]|];
        [cbn; intros ? [= <-]; unfold trailing; lia|].
      all: cbn; split_and!; [done|done|]; intros _ ? [= <-]; unfold trailing; lia.
    - assert (scalar u) as Hsc by (unfold scalar, leading, trailing, unit_ok in *; destruct Hs; lia).
      apply wp_bind, wp_from_u32_unchecked; [done|]. apply wp_ret. split; [by split|]. cbn.
      unfold utf16. unfold unit_ok in Hu. by rewrite (proj2 (Z.ltb_lt _ _)) by lia. }
  destruct b as [u|]; cbn [option_list app] in *.
  - apply wp_ret. by apply Hgo.
  - unfold iter_next, wp at 1. cbn [iter buf]. destruct it as [|u it'].
    + apply wp_ret. split; [by split|done].
    + by apply Hgo.
Qed.

(** ** The whole iterator *)
(** The items cover the units, and no leading surrogate is reported before a
    trailing one. *)
Fixpoint covers (rs : list (Z + Z)) (v : list Z) : Prop :=
  match rs with
  | [] => v = []
  | r :: rs => item_ok r ∧ ∃ v', v = units_of r ++ v' ∧ covers rs v' ∧
      match r with inr u => leading u → ∀ u2, head v' = Some u2 → ¬ trailing u2 | inl _ => True end
  end.

Lemma units_of_length r : (1 ≤ length (units_of r) ≤ 2)%nat.
Proof. destruct r as [c|u]; simpl; [|lia]. unfold utf16. destruct (c <? 0x10000); simpl; lia. Qed.

Lemma decode_all_spec fuel d P : decode_ok d → (length (units_left d) < fuel)%nat →
  wp (decode_utf16_all fuel) (λ rs d', covers rs (units_left d) ∧ units_left d' = []) P d.
Proof.
  revert d. induction fuel as [|fuel IH]; intros d Hd Hf; [lia|]. cbn [decode_utf16_all].
  apply wp_bind. eapply wp_mono; [exact (decode_next_spec d P Hd)| |done].
  intros [r|] d' [Hd' H]; [|apply wp_ret; cbn; apply H].
  destruct H as (Hr&Hu&Hlead). pose proof (units_of_length r). rewrite Hu, length_app in Hf.
  apply wp_bind. eapply wp_mono; [exact (IH d' Hd' ltac:(lia))| |done].
  intros rs d2 [Hrs Hd2]. apply wp_ret. split; [|done]. cbn. eauto 10.
Qed.

Lemma covers_length rs v : covers rs v → (length rs ≤ length v ≤ 2 * length rs)%nat.
Proof.
  revert v. induction rs as [|r rs IH]; intros v; cbn; [by intros ->|].
  intros (_&v'&->&Hc%IH&_). rewrite length_app. pose proof (units_of_length r). lia.
Qed.

Lemma utf16_head c u v : scalar c → head (utf16 c ++ v) = Some u → ¬ trailing u ∧
  (leading u → ∃ u2, utf16 c = [u; u2] ∧ trailing u2).
Proof.
  unfold utf16, scalar, leading, trailing. intros Hc.
  destruct (Z.ltb_spec c 0x10000); cbn; intros [= <-]; (split; [dlia|]).
  - lia.
  - intros _. eexists. split; [done|dlia].
Qed.

Lemma utf16_app_inj c1 c2 v1 v2 : scalar c1 → scalar c2 → utf16 c1 ++ v1 = utf16 c2 ++ v2 → c1 = c2 ∧ v1 = v2.
Proof.
  unfold utf16, scalar. intros H1 H2. destruct (Z.ltb_spec c1 0x10000), (Z.ltb_spec c2 0x10000); cbn.
  - by intros [= -> ->].
  - intros [= -> _]. exfalso. dlia.
  - intros [= <- _]. exfalso. dlia.
  - intros [= Ha Hb ->]. split; [dlia|done].
Qed.

(** Two coverings agree. *)
Lemma covers_unique rs1 rs2 v : covers rs1 v → covers rs2 v → rs1 = rs2.
Proof.
  revert rs2 v. induction rs1 as [|r1 rs1 IH]; intros [|r2 rs2] v; cbn; [done|..].
  - intros -> (_&v'&H&_). pose proof (units_of_length r2). apply (f_equal length) in H.
    rewrite length_app in H. simpl in H. lia.
  - intros (_&v'&H&_) ->. pose proof (units_of_length r1). apply (f_equal length) in H.
    rewrite length_app in H. simpl in H. lia.
  - assert (∀ c u v1 v2, scalar c → leading u ∨ trailing u → utf16 c ++ v1 = u :: v2 →
      (leading u → ∀ u2, head v2 = Some u2 → ¬ trailing u2) → False) as Hmix.
    { intros c u v1 v2 Hc Hu Heq Hno. destruct (utf16_head c u v1 Hc) as [Ht Hl]; [by rewrite Heq|].
      destruct Hu as [Hu|]; [|done]. destruct (Hl Hu) as (u2&Hu2&Ht2). rewrite Hu2 in Heq.
      injection Heq as <-. by apply (Hno Hu u2). }
    intros (H1&v1&->&Hc1&Hl1) (H2&v2&Heq&Hc2&Hl2).
    destruct r1 as [c1|u1], r2 as [c2|u2]; cbn in *.
    + apply utf16_app_inj in Heq as [-> ->]; [|done..]. f_equal. by eapply IH.
    + exfalso. by eapply (Hmix c1 u2).
    + exfalso. symmetry in Heq. by eapply (Hmix c2 u1).
    + injection Heq as -> ->. f_equal. by eapply IH.
Qed.

Lemma covers_encoded cs : Forall scalar cs → covers (inl <$> cs) (concat (utf16 <$> cs)).
Proof. induction 1 as [|c cs Hc _ IH]; cbn; [done|]. split; [done|]. eauto. Qed.

Lemma scalar_units c : scalar c → Forall unit_ok (utf16 c).
Proof.
  unfold scalar, utf16. intros Hc. assert (∀ u, 0 ≤ u < 65536 → unit_ok u) as Hok by done.
  destruct (Z.ltb_spec c 0x10000); repeat constructor; apply Hok; dlia.
Qed.

(** ** [size_hint] *)
Definition hint_right (n : nat) (hint : Z * option Z) : Prop :=
  0 ≤ fst hint ≤ Z.of_nat n ∧ match snd hint with Some h => Z.of_nat n ≤ h | None => True end.

Lemma size_hint_spec hint d rs : decode_ok d → covers rs (units_left d) →
  hint_right (length (iter d)) hint → hint_right (length rs) (decode_utf16_size_hint hint d).
Proof.
  destruct d as [it b], hint as [low high]. intros [Hok Hb] Hrs [Hlow Hhigh]. cbn in *.
  pose proof (covers_length _ _ Hrs) as Hlen. unfold units_left in *. cbn in *.
  unfold decode_utf16_size_hint, hint_right. cbn [buf].
  assert (∀ lb hb, low + 1 < 2 * (Z.of_nat (length rs) - lb) + 2 → Z.of_nat (length rs) ≤ Z.of_nat (length it) + hb → 0 ≤ lb →
    (0 ≤ (low + 1) / 2 + lb ≤ Z.of_nat (length rs)) ∧
    match (high ≫= λ h, if h + hb <=? usize_MAX then Some (h + hb) else None) with
    | Some h => Z.of_nat (length rs) ≤ h | None => True end) as Hgo.
  { intros lb hb Hl Hh Hlb. split; [dlia|]. destruct high as [h|]; [|done]. cbn in Hhigh |- *.
    destruct (h + hb <=? usize_MAX); [lia|done]. }
  destruct b as [u|]; [|apply Hgo; simpl in Hlen; lia].
  change (option_list (Some u) ++ it) with (u :: it) in *. cbn [length] in *. pose proof (surrogate_true u) as Hs.
  destruct (is_utf16_surrogate u); cbn [negb].
  - destruct (bool_decide_reflect (high = Some 0)) as [->|]; cbn in Hhigh; apply Hgo; lia.
  - destruct rs as [|r rs]; [simpl in Hlen; lia|]. destruct Hrs as (Hr&v'&Heq&Hrs&_).
    assert (v' = it) as ->.
    { destruct r as [c|u']; cbn in Hr, Heq; [|injection Heq as -> ->; by apply Hs in Hr].
      assert (scalar u ∧ utf16 u = [u]) as [Hu Hu1].
      { apply Forall_cons in Hok as [Hu _]. unfold unit_ok, scalar, leading, trailing, utf16 in *.
        rewrite (proj2 (Z.ltb_lt _ _)) by lia. split; [|done]. destruct Hs. lia. }
      change (u :: it) with ([u] ++ it) in Heq. rewrite <- Hu1 in Heq. by apply utf16_app_inj in Heq as [_ ->]. }
    apply covers_length in Hrs. cbn [length]. apply Hgo; cbn [length]; lia.
Qed.
