(* ===== verification/Utf8Theorems.v ===== *)
(** What the routines on UTF-8 and UTF-16 promise. *)

From S2P Require Import Prelude.
From S2P Require Import Layout.
From S2P Require Import Words.
From S2P Require Import AlignOffset.
From S2P Require Import Utf8.
From S2P Require Import Utf8Check.
From S2P Require Import Utf8Spec.
From S2P Require Import Utf8CheckSpec.
From S2P Require Import Utf8Valid.
From S2P Require Import Utf8Bound.
From S2P Require Import Utf16Spec.

#[local] Open Scope Z_scope.

Lemma valid_answer addr const_eval v : 0 ≤ addr ≤ usize_MAX → Forall byte_ok v →
  ∃ r, run_utf8_validation addr const_eval v = Ret r v ∧ answer_right v r.
Proof.
  intros Ha Hv. pose proof (validation_spec addr const_eval v Hv (λ _, False) Ha) as H.
  case_run H as [r s|s|]; [|done..]. destruct H as [-> Hr]. by exists r.
Qed.

Lemma chunk_answer v r : Forall byte_ok v → v ≠ [] → answer_right v r →
  chunks_next v = Ret (Some (fst (chunk_of v r))) (snd (chunk_of v r)).
Proof.
  intros Hv Hne Hr. pose proof (chunks_next_spec v (λ _, False) Hv Hne) as H.
  case_run H as [o s|s|]; [|done..]. destruct H as (r'&Hr'&->&->).
  by rewrite (answer_right_unique v r r').
Qed.

(** ** Properties *)
(** C14: [run_utf8_validation] recognises exactly the encodings of characters, for
    every address of the string and at compile time as well, so the fast path over
    aligned words changes nothing.  [valid_up_to] is the length of the longest
    prefix that is valid; [error_len] is [None] when the string ends inside a
    character, and else the number of bytes after which no character can be meant.
    [Utf8Chunks] splits the string at the same places. *)
Theorem validation_correct (addr : Z) (const_eval : bool) (v : list Z) :
  0 ≤ addr ≤ usize_MAX → Forall byte_ok v →
  ∃ r, run_utf8_validation addr const_eval v = Ret r v ∧ (r = None ↔ valid_utf8 v) ∧
    (∀ e, r = Some e → valid_utf8 (take (valid_up_to e) v) ∧
       (∀ j, (valid_up_to e < j ≤ length v)%nat → ¬ valid_utf8 (take j v)) ∧
       match error_len e with
       | None => cut_off (drop (valid_up_to e) v)
       | Some n => ill_formed (drop (valid_up_to e) v) n
       end) ∧
    (v ≠ [] → chunks_next v = Ret (Some (fst (chunk_of v r))) (snd (chunk_of v r))).
Proof.
  intros Ha Hv. destruct (valid_answer addr const_eval v Ha Hv) as (r&Hrun&Hr). exists r.
  split; [done|]. split; [by apply answer_right_valid|]. split; [|by intros; apply chunk_answer].
  intros e ->. pose proof Hr as (Hval&_&Hc). split_and!; [done| |by destruct (error_len e)].
  intros j. by apply error_longest.
Qed.

(** A character, then one whose third byte is wrong, at an aligned address. *)
Lemma validation_correct_witness :
  let v := [0x61; 0xE2; 0x82; 0x62] in
  ∃ r, run_utf8_validation 16 false v = Ret r v ∧ (r = None ↔ valid_utf8 v) ∧
    (∀ e, r = Some e → valid_utf8 (take (valid_up_to e) v) ∧
       (∀ j, (valid_up_to e < j ≤ length v)%nat → ¬ valid_utf8 (take j v)) ∧
       match error_len e with
       | None => cut_off (drop (valid_up_to e) v)
       | Some n => ill_formed (drop (valid_up_to e) v) n
       end) ∧
    (v ≠ [] → chunks_next v = Ret (Some (fst (chunk_of v r))) (snd (chunk_of v r))).
Proof. apply validation_correct; [by unfold usize_MAX|by repeat constructor]. Defined.

(** C18: [encode_utf8] writes one to four bytes, as many as [len_utf8] says, for
    every character, or panics without writing when the buffer is too small.
    [Chars] reads the character back from either end of a string, whatever
    follows or precedes it. *)
Theorem utf8_roundtrip (c : Z) : scalar c →
  ∃ bs, length bs = len_utf8 c ∧ (1 ≤ length bs ≤ 4)%nat ∧
    (∀ dst, encode_utf8_raw c dst =
       if (length dst <? length bs)%nat then Panic dst else Ret bs (bs ++ drop (length bs) dst)) ∧
    (∀ v, chars_next (bs ++ v) = Ret (Some c) v) ∧
    (∀ v, chars_next_back (v ++ bs) = Ret (Some c) v).
Proof.
  intros Hc. exists (utf8 c).
  split_and!; [apply length_utf8|apply length_utf8_bound..| |intros; by apply chars_next_utf8|intros; by apply chars_next_back_utf8].
  intros dst. by apply encode_utf8_eq, scalar_bound.
Qed.

Lemma utf8_roundtrip_witness : scalar 0x20AC ∧
  ∃ bs, length bs = len_utf8 0x20AC ∧ (1 ≤ length bs ≤ 4)%nat ∧
    (∀ dst, encode_utf8_raw 0x20AC dst =
       if (length dst <? length bs)%nat then Panic dst else Ret bs (bs ++ drop (length bs) dst)) ∧
    (∀ v, chars_next (bs ++ v) = Ret (Some 0x20AC) v) ∧
    (∀ v, chars_next_back (v ++ bs) = Ret (Some 0x20AC) v).
Proof. split; [left; lia|apply (utf8_roundtrip 0x20AC); left; lia]. Defined.

(** C19: [DecodeUtf16] terminates on all code units and loses none of them: the
    items, encoded again, are the input.  A surrogate is reported only when it is
    unpaired, so the items are the only ones that cover the input and the encoding
    of characters decodes to these characters.  From any state of the iterator,
    [size_hint] bounds the number of items when the inner bounds are right. *)
Theorem decode_utf16_lossless (d : DecodeUtf16) (hint : Z * option Z) :
  decode_ok d → hint_right (length (iter d)) hint →
  ∃ rs, decode_utf16_all (S (length (units_left d))) d = Ret rs (MkDecodeUtf16 [] None) ∧
    covers rs (units_left d) ∧ (∀ rs', covers rs' (units_left d) → rs' = rs) ∧
    (∀ cs, Forall scalar cs → units_left d = concat (utf16 <$> cs) → rs = inl <$> cs) ∧
    hint_right (length rs) (decode_utf16_size_hint hint d).
Proof.
  intros Hd Hh. pose proof (decode_all_spec (S (length (units_left d))) d (λ _, False) Hd ltac:(lia)) as H.
  case_run H as [rs [it b]|s|]; [|done..]. destruct H as [Hrs Hnil]. exists rs. split_and!.
  - by destruct b, it.
  - done.
  - intros rs' Hrs'. by apply (covers_unique rs' rs (units_left d)).
  - intros cs Hcs Heq. apply (covers_unique _ _ (units_left d)); [done|]. rewrite Heq. by apply covers_encoded.
  - by apply size_hint_spec.
Qed.

(** A pair, and a leading surrogate before a character, with another one read
    already. *)
Lemma decode_utf16_lossless_witness :
  let d := MkDecodeUtf16 [0xD83D; 0xDE00; 0xD800; 0x61] (Some 0xD801) in
  ∃ rs, decode_utf16_all (S (length (units_left d))) d = Ret rs (MkDecodeUtf16 [] None) ∧
    covers rs (units_left d) ∧ (∀ rs', covers rs' (units_left d) → rs' = rs) ∧
    (∀ cs, Forall scalar cs → units_left d = concat (utf16 <$> cs) → rs = inl <$> cs) ∧
    hint_right (length rs) (decode_utf16_size_hint (4, Some 4) d).
Proof.
  apply (decode_utf16_lossless (MkDecodeUtf16 [0xD83D; 0xDE00; 0xD800; 0x61] (Some 0xD801)) (4, Some 4)).
  - split; [by repeat constructor|]. intros u [= <-]. unfold trailing. lia.
  - split; simpl; lia.
Defined.

(** on valid strings [is_char_boundary] answers whether the string can be cut
    there into two valid strings, and the fixed bounds with which
    [floor_char_boundary] and [ceil_char_boundary] look for the nearest such place
    are enough, so their assertions hold. *)
Theorem char_boundary_correct (v : list Z) (i : nat) : valid_utf8 v →
  (∃ b, is_char_boundary i v = Ret b v ∧
     (b = true ↔ (i ≤ length v)%nat ∧ valid_utf8 (take i v) ∧ valid_utf8 (drop i v))) ∧
  (∃ j, floor_char_boundary i v = Ret j v ∧ floor_of v (Nat.min i (length v)) j) ∧
  (∃ j, ceil_char_boundary i v = Ret j v ∧ ceil_of v (Nat.min i (length v)) j).
Proof.
  intros Hv. split_and!.
  - pose proof (is_char_boundary_spec v i (λ _, False) Hv) as H. case_run H as [b s|s|]; [|done..].
    destruct H as [-> Hb]. exists b. split; [done|]. rewrite Hb. split; [|by intros (?&?&_)].
    intros Hi. split_and!; [apply Hi..|by apply boundary_drop].
  - pose proof (floor_char_boundary_spec v i (λ _, False) Hv) as H. case_run H as [j s|s|]; [|done..].
    destruct H as [-> Hj]. by exists j.
  - pose proof (ceil_char_boundary_spec v i (λ _, False) Hv) as H. case_run H as [j s|s|]; [|done..].
    destruct H as [-> Hj]. by exists j.
Qed.

(** Inside the four bytes of a character. *)
Lemma char_boundary_correct_witness :
  let v := [0x61; 0xF0; 0x9F; 0x98; 0x80] in valid_utf8 v ∧
  (∃ b, is_char_boundary 4 v = Ret b v ∧
     (b = true ↔ (4 ≤ length v)%nat ∧ valid_utf8 (take 4 v) ∧ valid_utf8 (drop 4 v))) ∧
  (∃ j, floor_char_boundary 4 v = Ret j v ∧ floor_of v (Nat.min 4 (length v)) j) ∧
  (∃ j, ceil_char_boundary 4 v = Ret j v ∧ ceil_of v (Nat.min 4 (length v)) j).
Proof.
  assert (valid_utf8 [0x61; 0xF0; 0x9F; 0x98; 0x80]) as Hv.
  { exists [0x61; 0x1F600]. split; [|reflexivity]. constructor; [left; lia|]. constructor; [right; lia|constructor]. }
  split; [exact Hv|exact (char_boundary_correct _ 4 Hv)].
Defined.
