(* ===== verification/Strings.v ===== *)
(** [String]: [alloc/src/string.rs].  A string is a vector of bytes; the routines
    of [core] that only read run on the list of the bytes of a slice. *)

From S2P Require Import Prelude.
From S2P Require Import Layout.
From S2P Require Import RawVec.
From S2P Require Import Cells.
From S2P Require Import Vec.
From S2P Require Import AlignOffset.
From S2P Require Import Utf8.
From S2P Require Import Utf8Check.

Definition byte_layout : Layout := MkLayout 1%Z 1%Z.
Abbreviation el := byte_layout (only parsing).
Abbreviation String := (vec Z).

(** A routine on a value that is not part of the state. *)
Definition run_local {S I A} (m : prog I A) (i : I) : prog S (A * I) := λ s,
  match m i with Ret a i => Ret (a, i) s | Panic _ => Panic s | Fault f => Fault f end.

(** A routine that reads the slice of [n] bytes from [start]. *)
Definition on_str {A} (start n : nat) (m : prog (list Z) A) : prog String A :=
  bs ← rd_cells start n; '(a, _) ← run_local m bs; mret a.

(** Bytes have no destructor. *)
Definition no_drop (c : nat) (b : Z) : bool := false.

Section strings.
Context (alloc_ok : Layout → bool).
Implicit Types (n idx : nat) (ch : Z).

Definition is_char_boundary idx : prog String bool :=
  n ← len; on_str 0 n (Utf8Check.is_char_boundary idx).

(** [with_capacity] *)
Definition with_capacity {S} n : prog S String := fresh (with_capacity_in el alloc_ok (Z.of_nat n)) new.

Definition push ch : prog String () :=
  n ← len;
  let ch_len := len_utf8 ch in
  _ ← reserve el alloc_ok (Z.of_nat n) (Z.of_nat ch_len);
  m ← len;
  _ ← encode_utf8_raw_unchecked (λ i b, wr_cell (m + i) b) ch;
  set_len el (n + ch_len).

Definition push_str (string : list Z) : prog String () := append_elements el alloc_ok string.

Definition pop : prog String (option Z) :=
  n ← len;
  ch ← on_str 0 n chars_next_back;
  match ch with
  | None => mret None
  | Some ch =>
      newlen ← usub n (len_utf8 ch);
      _ ← set_len el newlen;
      mret (Some ch)
  end.

Definition truncate new_len : prog String () :=
  n ← len;
  if new_len <=? n then
    b ← is_char_boundary new_len; _ ← assert_ b;
    Vec.truncate no_drop new_len
  else mret ().

Definition clear : prog String () := Vec.clear no_drop.

(** [self[idx..]] panics when [idx] is not at a boundary. *)
Definition remove idx : prog String Z :=
  n ← len;
  b ← is_char_boundary idx; _ ← assert_ b;
  ch ← on_str idx (n - idx) chars_next;
  match ch with
  | None => panic
  | Some ch =>
      let next := idx + len_utf8 ch in
      _ ← copy_cells next idx (n - next);
      _ ← set_len el (n - (next - idx));
      mret ch
  end.

Definition insert idx ch : prog String () :=
  b ← is_char_boundary idx; _ ← assert_ b;
  n ← len;
  let ch_len := len_utf8 ch in
  _ ← reserve el alloc_ok (Z.of_nat n) (Z.of_nat ch_len);
  _ ← copy_cells idx (idx + ch_len) (n - idx);
  _ ← encode_utf8_raw_unchecked (λ i b, wr_cell (idx + i) b) ch;
  set_len el (n + ch_len).

Definition insert_str idx (string : list Z) : prog String () :=
  b ← is_char_boundary idx; _ ← assert_ b;
  n ← len;
  let amt := length string in
  _ ← reserve el alloc_ok (Z.of_nat n) (Z.of_nat amt);
  _ ← copy_cells idx (idx + amt) (n - idx);
  _ ← wr_cells idx string;
  set_len el (n + amt).

Definition split_off at_ : prog String String :=
  b ← is_char_boundary at_; _ ← assert_ b;
  Vec.split_off el alloc_ok at_.

(** ** [retain] *)
Record SetLenOnDrop := MkSetLenOnDrop { guard_idx : nat; del_bytes : nat }.

Definition SetLenOnDrop_drop (g : SetLenOnDrop) : prog String () :=
  new_len ← usub (guard_idx g) (del_bytes g);
  n ← len;
  _ ← assert_ (new_len <=? n);
  set_len el new_len.

(** [ch.encode_utf8] into the slice of [n] bytes at [i] *)
Definition encode_at i n ch : prog String () :=
  bs ← rd_cells i n;
  '(_, bs) ← run_local (encode_utf8_raw ch) bs;
  wr_cells i bs.

Definition retain_step (f : nat → Z → option bool) n (g : SetLenOnDrop) : prog String (SetLenOnDrop + SetLenOnDrop) :=
  if negb (guard_idx g <? n) then mret (inr g) else
  on_panic (
    ch ← on_str (guard_idx g) (n - guard_idx g) chars_next;
    ch ← unwrap_unchecked ch;
    let ch_len := len_utf8 ch in
    keep ← call (λ c, f c ch);
    if negb keep then mret (inl (MkSetLenOnDrop (guard_idx g + ch_len) (del_bytes g + ch_len))) else
    _ ← (if 0 <? del_bytes g then encode_at (guard_idx g - del_bytes g) ch_len ch else mret ());
    mret (inl (MkSetLenOnDrop (guard_idx g + ch_len) (del_bytes g))))
  (SetLenOnDrop_drop g).

Definition retain (f : nat → Z → option bool) : prog String () :=
  n ← len;
  guard ← loop (S n) (retain_step f n) (MkSetLenOnDrop 0 0);
  SetLenOnDrop_drop guard.

(** ** Conversions *)
(** The error gives the bytes back: the state is the vector. *)
Definition from_utf8 (addr : Z) : prog String (option Utf8Error) :=
  n ← len; on_str 0 n (run_utf8_validation addr false).

Definition REPLACEMENT : list Z := [0xEF; 0xBF; 0xBD]%Z.

(** [for chunk in iter { .. }] *)
Definition push_chunk (res : list Z * String) : prog () ((list Z * String) + String) :=
  let '(iter, res) := res in
  '(chunk, iter) ← run_local chunks_next iter;
  match chunk with
  | None => mret (inr res)
  | Some (valid, invalid) =>
      '(_, res) ← run_local (push_str valid) res;
      '(_, res) ← (if length invalid =? 0 then mret ((), res) else run_local (push_str REPLACEMENT) res);
      mret (inl (iter, res))
  end.
Definition push_chunks (iter : list Z) (res : String) : prog () String :=
  loop (S (length iter)) push_chunk (iter, res).

(** [inl] is a borrowed string, [inr] an owned one. *)
Definition from_utf8_lossy (v : list Z) : prog () (list Z + String) :=
  '(chunk, iter) ← run_local chunks_next v;
  match chunk with
  | None => mret (inl [])
  | Some (valid, invalid) =>
      if length invalid =? 0 then
        _ ← assert_ (length valid =? length v);
        mret (inl valid)
      else
        res ← with_capacity (length v);
        '(_, res) ← run_local (push_str valid) res;
        '(_, res) ← run_local (push_str REPLACEMENT) res;
        res ← push_chunks iter res;
        mret (inr res)
  end.

Definition into_utf8_lossy (bytes : list Z) (error : Utf8Error) : prog () String :=
  v ← with_capacity (length bytes);
  _ ← assert_ (valid_up_to error <=? length bytes);
  '(_, res) ← run_local (push_str (take (valid_up_to error) bytes)) v;
  push_chunks (drop (valid_up_to error) bytes) res.

Definition from_utf16_step (p : DecodeUtf16 * String) : prog () ((DecodeUtf16 * String) + option String) :=
  let '(iter, ret) := p in
  '(c, iter) ← run_local decode_utf16_next iter;
  match c with
  | None => mret (inr (Some ret))
  | Some (inl c) => '(_, ret) ← run_local (push c) ret; mret (inl (iter, ret))
  | Some (inr _) => mret (inr None)
  end.
Definition from_utf16 (v : list Z) : prog () (option String) :=
  ret ← with_capacity (length v);
  loop (S (length v)) from_utf16_step (MkDecodeUtf16 v None, ret).
End strings.
