(* ===== verification/StringSpec.v ===== *)
(** What the operations of [String] do: they act on the sequence of characters
    that the bytes encode. *)

From S2P Require Import Prelude.
From S2P Require Import Layout.
From S2P Require Import RawVec.
From S2P Require Import Cells.
From S2P Require Import Vec.
From S2P Require Import VecSpec.
From S2P Require Import Utf8.
From S2P Require Import Utf8Check.
From S2P Require Import Utf8Spec.
From S2P Require Import Utf8Bound.
From S2P Require Import Strings.

#[local] Abbreviation el := byte_layout (only parsing).

Lemma byte_elem_ok : elem_ok byte_layout.
Proof.
  split; [split; [by exists 0%Z|done]|split; [by exists 1%Z|done]].
Qed.

(** ** Characters of a list of bytes *)
Lemma encode_cons c cs : encode_str (c :: cs) = utf8 c ++ encode_str cs.
Proof. done. Qed.

Lemma encode_single c : encode_str [c] = utf8 c.
Proof. unfold encode_str. simpl. apply app_nil_r. Qed.

Lemma encode_str_inj cs1 cs2 : Forall scalar cs1 → Forall scalar cs2 → encode_str cs1 = encode_str cs2 → cs1 = cs2.
Proof.
  intros H1. revert cs2. induction H1 as [|c1 cs1 Hc1 _ IH]; intros cs2 H2 Heq.
  - destruct H2 as [|c2 cs2 _ _]; [done|]. rewrite encode_cons in Heq. pose proof (length_utf8_bound c2).
    apply (f_equal length) in Heq. rewrite length_app in Heq. simpl in Heq. lia.
  - destruct H2 as [|c2 cs2 Hc2 H2].
    + rewrite encode_cons in Heq. pose proof (length_utf8_bound c1).
      apply (f_equal length) in Heq. rewrite length_app in Heq. simpl in Heq. lia.
    + rewrite !encode_cons in Heq. apply utf8_app_inj in Heq as [-> Heq]; [|by apply scalar_bound..].
      f_equal. by apply IH.
Qed.

Lemma boundary_chars cs i : Forall scalar cs → boundary (encode_str cs) i →
  ∃ cs1 cs2, cs = cs1 ++ cs2 ∧ i = length (encode_str cs1).
Proof.
  intros Hcs Hi. assert (valid_utf8 (encode_str cs)) as Hv by by exists cs.
  destruct (boundary_drop _ i Hv Hi) as (cs2&H2&Hd). destruct Hi as [Hi (cs1&H1&Ht)].
  exists cs1, cs2. split.
  - apply encode_str_inj; [done|by apply Forall_app|].
    by rewrite encode_str_app, <- Ht, <- Hd, take_drop.
  - rewrite <- Ht, length_take. lia.
Qed.

Lemma chars_boundary cs1 cs2 : Forall scalar cs1 → boundary (encode_str (cs1 ++ cs2)) (length (encode_str cs1)).
Proof.
  intros H1. rewrite encode_str_app. split; [rewrite length_app; lia|]. rewrite take_app_length. by exists cs1.
Qed.

Section spec.
Context (alloc_ok : Layout → bool).
Implicit Types (s : String) (v : list Z) (cs : list Z) (c : Z).

Abbreviation vec_is := (vec_is byte_layout).
Abbreviation oom := (out_of_memory alloc_ok).
Abbreviation too_big := (too_big byte_layout).

(** The string holds the characters [cs]. *)
Definition string_is cs s : Prop := Forall scalar cs ∧ vec_is (encode_str cs) s.

(** ** Reading *)
Lemma wp_run_local {S I A} (m : prog I A) i (Q : A * I → S → Prop) P (s : S) :
  wp m (λ a i', Q (a, i') s) (λ _, P s) i → wp (run_local m i) Q P s.
Proof. unfold wp, run_local. by destruct (m i). Qed.

Lemma wp_on_str {A} v start n bs (m : prog (list Z) A) (Q : A → String → Prop) P s :
  vec_is v s → bs = take n (drop start v) → n = length bs →
  wp m (λ a _, Q a s) (λ _, P s) bs → wp (on_str start n m) Q P s.
Proof.
  intros Hv Hbs Hn Hm. unfold on_str. apply wp_bind, (vec_is_rd_cells el no_drop v bs); [done..|].
  apply wp_bind. unfold wp, run_local in *. destruct (m bs); done.
Qed.

Lemma wp_on_all {A} v (m : prog (list Z) A) (Q : A → String → Prop) P s n :
  vec_is v s → n = length v → wp m (λ a _, Q a s) (λ _, P s) v → wp (on_str 0 n m) Q P s.
Proof. intros Hv -> Hm. apply (wp_on_str v _ _ v); [done|by rewrite drop_0, firstn_all|done|done]. Qed.

Lemma wp_on_str_ret {A} v start n v1 v2 (m : prog (list Z) A) a v' (Q : A → String → Prop) P s :
  vec_is (v1 ++ v2) s → start = length v1 → n = length v2 → v = v2 → m v = Ret a v' → Q a s →
  wp (on_str start n m) Q P s.
Proof.
  intros Hv -> -> -> Hm HQ. apply (wp_on_str (v1 ++ v2) _ _ v2); [done|by rewrite drop_app_length, firstn_all|done|].
  unfold wp. by rewrite Hm.
Qed.

Lemma wp_string_boundary cs i s (Q : bool → String → Prop) P : string_is cs s →
  (∀ b : bool, (b = true ↔ boundary (encode_str cs) i) → Q b s) →
  wp (is_char_boundary i) Q P s.
Proof.
  intros [Hcs Hv] HQ. unfold is_char_boundary. apply wp_bind, wp_gets. rewrite (vec_is_len el _ s Hv).
  apply (wp_on_all (encode_str cs)); [done..|].
  eapply wp_mono; [apply (is_char_boundary_spec _ _ (λ _, False)); by exists cs| |done].
  intros b v [_ Hb]. by apply HQ.
Qed.

(** An operation at [i]: at a boundary, or it panics. *)
Lemma wpa_assert_boundary X {A} cs i s (m : prog String A) (Q : A → String → Prop) P : string_is cs s →
  (∀ cs1 cs2, cs = cs1 ++ cs2 → i = length (encode_str cs1) → wpa X m Q P s) →
  (¬ boundary (encode_str cs) i → P s) →
  wpa X (b ← is_char_boundary i; _ ← assert_ b; m) Q P s.
Proof.
  intros Hs Hyes Hno. apply wpa_bind, wpa_wp, (wp_string_boundary cs); [done|]. intros [] Hb; apply wpa_bind, wpa_wp.
  - apply wp_assert; [done|]. destruct Hb as [Hb _].
    destruct (boundary_chars cs i) as (cs1&cs2&?&?); [apply Hs|by apply Hb|]. by apply (Hyes cs1 cs2).
  - apply Hno. intros Hi%Hb. done.
Qed.

(** ** Writing *)
(** The buffer holds [v1], a gap and [v2]. *)
Definition gap_is v1 (gap : nat) v2 s : Prop :=
  raw_ok el s ∧ ∃ junk spare, length junk = gap ∧ cells s = (Some <$> v1) ++ junk ++ (Some <$> v2) ++ spare.

Lemma write_all_cells i bs s (Q : () → String → Prop) P k :
  i + k + length bs ≤ length (cells s) →
  (∀ s', regs s' = regs s → block s' = block s → cells s' = list_inserts (i + k) (Some <$> bs) (cells s) → Q () s') →
  wp (write_all (λ j b, wr_cell (i + j) b) k bs) Q P s.
Proof.
  revert k s. induction bs as [|b bs IH]; intros k s Hlen HQ; simpl in *; [by apply wp_ret, HQ|].
  apply wp_bind, wp_wr_cell; [lia|]. apply IH; [cbn; rewrite length_insert; lia|].
  intros s' Hr Hb Hc. apply HQ; [done|done|]. rewrite Hc. cbn. replace (i + (k + 1)) with (S (i + k)) by lia.
  symmetry. apply list_insert_inserts_lt. lia.
Qed.

(** Filling the gap makes a string. *)
Lemma fill_gap v1 v2 bs s s' n : gap_is v1 (length bs) v2 s → block s' = block s →
  cells s' = list_inserts (length v1) (Some <$> bs) (cells s) → n = length (v1 ++ bs ++ v2) →
  vec_is (v1 ++ bs ++ v2) (set_regs n s').
Proof.
  intros (Hs&junk&spare&Hj&Hc) Hb Hc' Hn.
  apply (vec_is_intro el _ spare s); [done|done|cbn; by rewrite Hc', length_inserts|done|].
  cbn. rewrite Hc', Hc. rewrite inserts_mid by len. by rewrite !fmap_app, <- !app_assoc.
Qed.

Lemma gap_room v1 gap v2 s : gap_is v1 gap v2 s → length v1 + gap + length v2 ≤ length (cells s).
Proof. intros (_&junk&spare&Hj&->). len. Qed.

Lemma encode_gap_spec v1 v2 c s n (Q : () → String → Prop) P : (0 ≤ c < 0x110000)%Z →
  gap_is v1 (length (utf8 c)) v2 s → n = length (v1 ++ utf8 c ++ v2) →
  (∀ s', vec_is (v1 ++ utf8 c ++ v2) s' → Q () s') →
  wp (_ ← encode_utf8_raw_unchecked (λ i b, wr_cell (length v1 + i) b) c; set_len el n) Q P s.
Proof.
  intros Hc Hgap Hn HQ. pose proof (gap_room _ _ _ _ Hgap) as Hroom. apply wp_bind. unfold wp at 1.
  rewrite encode_unchecked_eq by done. apply (write_all_cells _ _ _ _ _ 0); [lia|].
  intros s' Hr Hb Hcs. rewrite Nat.add_0_r in Hcs. pose proof (fill_gap v1 v2 _ s s' n Hgap Hb Hcs Hn) as Hv.
  apply (wp_set_len el alloc_ok no_drop byte_elem_ok); [apply Hv| |by apply HQ].
  rewrite Hcs, length_inserts, Hn. len.
Qed.

Lemma write_gap_spec v1 v2 bs s n (Q : () → String → Prop) P :
  gap_is v1 (length bs) v2 s → n = length (v1 ++ bs ++ v2) →
  (∀ s', vec_is (v1 ++ bs ++ v2) s' → Q () s') →
  wp (_ ← wr_cells (length v1) bs; set_len el n) Q P s.
Proof.
  intros Hgap Hn HQ. pose proof (gap_room _ _ _ _ Hgap) as Hroom. apply wp_bind, wp_wr_cells; [lia|].
  pose proof (fill_gap v1 v2 bs s (set_cells (list_inserts (length v1) (Some <$> bs) (cells s)) s) n Hgap eq_refl eq_refl Hn) as Hv.
  apply (wp_set_len el alloc_ok no_drop byte_elem_ok); [apply Hv| |by apply HQ].
  cbn. rewrite length_inserts, Hn. len.
Qed.

(** Room at the end is a gap; moving the tail makes one in the middle. *)
Lemma room_gap v gap s : vec_is v s → length v + gap ≤ length (cells s) → gap_is v gap [] s.
Proof.
  intros (Hs&_&spare&Hc) Hroom. split; [done|]. exists (take gap spare), (drop gap spare).
  rewrite Hc in *. split; [len|]. simpl. by rewrite take_drop.
Qed.

Lemma open_gap_spec v1 v2 gap s (Q : () → String → Prop) P :
  vec_is (v1 ++ v2) s → length (v1 ++ v2) + gap ≤ length (cells s) →
  (∀ s', gap_is v1 gap v2 s' → Q () s') →
  wp (copy_cells (length v1) (length v1 + gap) (length v2)) Q P s.
Proof.
  intros (Hs&Hr&spare&Hc) Hroom HQ. rewrite fmap_app, <- app_assoc in Hc.
  apply wp_copy_cells; [len|len|]. apply HQ. split; [by apply (raw_ok_cells el s); [..|cbn; rewrite length_inserts]|].
  cbn. rewrite Hc, take_drop_mid by len.
  assert (gap ≤ length ((Some <$> v2) ++ spare)) as Hgap by (rewrite Hc in Hroom; len).
  rewrite <- (take_drop gap ((Some <$> v2) ++ spare)), (app_assoc (Some <$> v1)).
  rewrite inserts_app by (rewrite ?Hc in Hroom; len). rewrite <- app_assoc.
  eexists (take gap _), _. split; [|done]. len.
Qed.

(** ** Room *)
Lemma string_reserve_spec (X : Prop) v n s (Q : () → String → Prop) (P : String → Prop) : (oom → X) → vec_is v s →
  (∀ s', vec_is v s' → length v + n ≤ length (cells s') → Q () s') →
  (too_big (Z.of_nat (length v + n)) → P s) →
  wpa X (reserve el alloc_ok (Z.of_nat (length v)) (Z.of_nat n)) Q P s.
Proof.
  intros HX Hv HQ HP. pose proof (vec_is_cap el alloc_ok v s Hv) as Hcap. pose proof Hv as (Hs&Hr&spare&Hc).
  apply (reserve_spec el alloc_ok byte_elem_ok); [done|done|unfold raw_cap; lia| |].
  - intros k b s' Hs' Hroom. unfold raw_cap in Hroom. apply HQ; [|subst s'; lia].
    split; [done|]. split; [done|]. exists (spare ++ replicate k None). cbn. by rewrite Hc, <- app_assoc.
  - intros Hlt Hov. apply HP. rewrite Nat2Z.inj_add. by apply (overflows_too_big el alloc_ok byte_elem_ok _ _ s).
Qed.

(** ** The operations *)
Lemma string_push_spec (X : Prop) cs c s : (oom → X) → string_is cs s → scalar c →
  wpa X (push alloc_ok c) (λ _ s', string_is (cs ++ [c]) s')
    (λ s', s' = s ∧ too_big (Z.of_nat (length (encode_str (cs ++ [c]))))) s.
Proof.
  intros HX [Hcs Hv] Hc. unfold push. apply wpa_bind, wpa_wp, wp_gets. rewrite (vec_is_len el _ s Hv).
  rewrite encode_str_app, encode_single, length_app, <- length_utf8.
  apply wpa_bind, string_reserve_spec; [done|done| |done]. intros s1 Hv1 Hroom.
  apply wpa_bind, wpa_wp, wp_gets. rewrite (vec_is_len el _ s1 Hv1). apply wpa_wp.
  apply (encode_gap_spec _ []); [by apply scalar_bound|by apply room_gap|by rewrite app_nil_r, length_app|].
  intros s2 Hv2. rewrite app_nil_r in Hv2. split; [apply Forall_app; by split; [|constructor]|].
  by rewrite encode_str_app, encode_single.
Qed.

Lemma push_str_spec (X : Prop) v bs s : (oom → X) → vec_is v s →
  wpa X (push_str alloc_ok bs) (λ _ s', vec_is (v ++ bs) s')
    (λ s', s' = s ∧ too_big (Z.of_nat (length (v ++ bs)))) s.
Proof.
  intros HX Hv. unfold push_str. rewrite length_app.
  eapply wpa_mono; [by apply (append_elements_spec el alloc_ok no_drop byte_elem_ok)|by intros [] s' [? _]|done].
Qed.

Lemma string_pop_spec cs c s P : string_is (cs ++ [c]) s →
  wp pop (λ o s', o = Some c ∧ string_is cs s') P s.
Proof.
  intros [[Hcs Hc]%Forall_app Hv]. rewrite Forall_singleton in Hc. rewrite encode_str_app, encode_single in Hv.
  pose proof (vec_is_cap el alloc_ok _ s Hv) as Hcap. rewrite length_app in Hcap.
  unfold pop. apply wp_bind, wp_gets. rewrite (vec_is_len el _ s Hv).
  apply wp_bind. eapply (wp_on_str_ret _ _ _ []); [done|done|done|done|by apply chars_next_back_utf8|].
  cbv beta iota. rewrite <- length_utf8, length_app. apply wp_bind, wp_usub; [lia|].
  replace (_ + _ - _) with (length (encode_str cs)) by lia.
  apply wp_bind, (wp_set_len el alloc_ok no_drop byte_elem_ok); [apply Hv|lia|]. apply wp_ret. split; [done|].
  split; [done|]. by apply (vec_is_shorter el _ (utf8 c) s).
Qed.

Lemma string_pop_nil_spec s P : string_is [] s → wp pop (λ o s', o = None ∧ s' = s) P s.
Proof.
  intros [_ Hv]. unfold pop. apply wp_bind, wp_gets. rewrite (vec_is_len el _ s Hv).
  apply wp_bind. by eapply (wp_on_str_ret _ _ _ []).
Qed.

Lemma no_byte_drop (X : Prop) : drops_panic no_drop → X.
Proof. by intros (?&?&?). Qed.

Lemma string_truncate_spec (X : Prop) cs n s : string_is cs s →
  wpa X (truncate n)
    (λ _ s', (length (encode_str cs) < n ∧ s' = s) ∨
       ∃ cs1 cs2, cs = cs1 ++ cs2 ∧ n = length (encode_str cs1) ∧ string_is cs1 s')
    (λ s', s' = s ∧ n ≤ length (encode_str cs) ∧ ¬ boundary (encode_str cs) n) s.
Proof.
  intros Hs. pose proof Hs as [Hcs Hv]. unfold truncate. apply wpa_bind, wpa_wp, wp_gets. rewrite (vec_is_len el _ s Hv).
  destruct (Nat.leb_spec n (length (encode_str cs))); [|apply wpa_ret; left; split; [lia|done]].
  apply (wpa_assert_boundary _ cs); [done| |done]. intros cs1 cs2 -> ->.
  apply Forall_app in Hcs as [H1 H2].
  eapply wpa_mono; [apply (truncate_spec el alloc_ok no_drop X); [apply no_byte_drop|exact Hv]| |].
  - intros [] s' [Hv' _]. right. exists cs1, cs2. split_and!; [done..|]. split; [done|].
    rewrite encode_str_app in Hv'. by rewrite take_app_length in Hv'.
  - intros s' [Hd _]. by apply no_byte_drop.
Qed.

Lemma string_clear_spec (X : Prop) cs s : string_is cs s →
  wpa X clear (λ _ s', string_is [] s') (λ _, False) s.
Proof.
  intros [_ Hv]. unfold clear.
  eapply wpa_mono; [apply (vec_clear_spec el no_drop X); [apply no_byte_drop|exact Hv]| |].
  - by intros [] s' [Hv' _].
  - intros s' [Hd _]. by apply no_byte_drop.
Qed.

Lemma string_remove_spec (X : Prop) cs idx s : string_is cs s →
  wpa X (remove idx)
    (λ c s', ∃ cs1 cs2, cs = cs1 ++ c :: cs2 ∧ idx = length (encode_str cs1) ∧ string_is (cs1 ++ cs2) s')
    (λ s', s' = s ∧ (length (encode_str cs) ≤ idx ∨ ¬ boundary (encode_str cs) idx)) s.
Proof.
  intros Hs. pose proof Hs as [Hcs Hv]. unfold remove. apply wpa_bind, wpa_wp, wp_gets. rewrite (vec_is_len el _ s Hv).
  apply (wpa_assert_boundary _ cs); [done| |by auto]. intros cs1 cs2 -> ->. apply Forall_app in Hcs as [H1 H2].
  rewrite encode_str_app in *. apply wpa_bind, wpa_wp. destruct H2 as [|c cs2 Hc H2].
  - eapply (wp_on_str_ret _ _ _ (encode_str cs1) []); [exact Hv|done|len|done|done|]. cbv beta iota. apply wpa_wp, wp_panic.
    split; [done|]. left. len.
  - rewrite encode_cons in *. eapply (wp_on_str_ret _ _ _ (encode_str cs1)); [exact Hv|done|len|done|by apply chars_next_utf8|].
    cbv beta iota zeta. apply wpa_wp. rewrite <- length_utf8. pose proof (vec_is_cap el alloc_ok _ s Hv). pose proof Hv as (Hr&_&spare&Hcells).
    rewrite !fmap_app, <- !app_assoc in Hcells.
    apply wp_bind, wp_copy_cells; [len|len|].
    apply wp_bind, (wp_set_len el alloc_ok no_drop byte_elem_ok); [by apply (raw_ok_cells el s); [..|cbn; rewrite length_inserts]|cbn; len|].
    apply wp_ret. exists cs1, cs2. split_and!; [done|done|]. split; [by apply Forall_app|].
    apply (vec_is_intro el _ (drop (length (encode_str cs2)) ((Some <$> utf8 c) ++ (Some <$> encode_str cs2) ++ spare)) s);
      [done|done|cbn; by rewrite length_inserts|cbn; rewrite encode_str_app; len|].
    cbn -[drop]. rewrite Hcells, encode_str_app, fmap_app, <- app_assoc.
    rewrite (app_assoc (Some <$> encode_str cs1)), take_drop_mid by len. rewrite <- app_assoc.
    rewrite inserts_app by len. by rewrite length_fmap.
Qed.

(** The three operations that make room. *)
Lemma make_gap_spec (X : Prop) v1 v2 gap s (m : nat → prog String ()) (Q : () → String → Prop) (P : String → Prop) :
  (oom → X) → vec_is (v1 ++ v2) s →
  (∀ s', gap_is v1 gap v2 s' → wpa X (m (length (v1 ++ v2))) Q P s') →
  (too_big (Z.of_nat (length (v1 ++ v2) + gap)) → P s) →
  wpa X (n ← len;
         _ ← reserve el alloc_ok (Z.of_nat n) (Z.of_nat gap);
         _ ← copy_cells (length v1) (length v1 + gap) (n - length v1); m n) Q P s.
Proof.
  intros HX Hv Hm HP. apply wpa_bind, wpa_wp, wp_gets. rewrite (vec_is_len el _ s Hv).
  apply wpa_bind, string_reserve_spec; [done|done| |done]. intros s1 Hv1 Hroom.
  apply wpa_bind, wpa_wp. replace (_ - _) with (length v2) by len.
  by apply open_gap_spec.
Qed.

Lemma string_insert_spec (X : Prop) cs idx c s : (oom → X) → string_is cs s → scalar c →
  wpa X (insert alloc_ok idx c)
    (λ _ s', ∃ cs1 cs2, cs = cs1 ++ cs2 ∧ idx = length (encode_str cs1) ∧ string_is (cs1 ++ c :: cs2) s')
    (λ s', s' = s ∧ (¬ boundary (encode_str cs) idx ∨ too_big (Z.of_nat (length (encode_str cs ++ utf8 c))))) s.
Proof.
  intros HX Hs Hc. pose proof Hs as [Hcs Hv]. unfold insert.
  apply (wpa_assert_boundary _ cs); [done| |by auto]. intros cs1 cs2 -> ->. apply Forall_app in Hcs as [H1 H2].
  rewrite encode_str_app in *. rewrite <- length_utf8.
  apply (make_gap_spec X (encode_str cs1) (encode_str cs2) (length (utf8 c)) s
    (λ n, _ ← encode_utf8_raw_unchecked _ c; set_len el (n + length (utf8 c)))); [done|done| |].
  - intros s1 Hgap. apply wpa_wp, (encode_gap_spec _ (encode_str cs2)); [by apply scalar_bound|done|len|].
    intros s2 Hv2. exists cs1, cs2. split_and!; [done|done|]. split; [apply Forall_app; split; [done|by constructor]|].
    by rewrite encode_str_app, encode_cons.
  - intros Hbig. split; [done|]. right. by rewrite length_app.
Qed.

Lemma string_insert_str_spec (X : Prop) cs idx bs s : (oom → X) → string_is cs s → Forall scalar bs →
  wpa X (insert_str alloc_ok idx (encode_str bs))
    (λ _ s', ∃ cs1 cs2, cs = cs1 ++ cs2 ∧ idx = length (encode_str cs1) ∧ string_is (cs1 ++ bs ++ cs2) s')
    (λ s', s' = s ∧ (¬ boundary (encode_str cs) idx ∨ too_big (Z.of_nat (length (encode_str (cs ++ bs)))))) s.
Proof.
  intros HX Hs Hb. pose proof Hs as [Hcs Hv]. unfold insert_str.
  apply (wpa_assert_boundary _ cs); [done| |by auto]. intros cs1 cs2 -> ->. apply Forall_app in Hcs as [H1 H2].
  rewrite !encode_str_app in *.
  apply (make_gap_spec X (encode_str cs1) (encode_str cs2) (length (encode_str bs)) s
    (λ n, _ ← wr_cells _ _; set_len el (n + length (encode_str bs)))); [done|done| |].
  - intros s1 Hgap. apply wpa_wp, (write_gap_spec _ (encode_str cs2)); [done|len|].
    intros s2 Hv2. exists cs1, cs2. split_and!; [done|done|].
    split; [by rewrite !Forall_app|]. by rewrite !encode_str_app.
  - intros Hbig. split; [done|]. right. by rewrite length_app.
Qed.

Lemma string_split_off_spec (X : Prop) cs n s : (oom → X) → string_is cs s →
  wpa X (split_off alloc_ok n)
    (λ o s', ∃ cs1 cs2, cs = cs1 ++ cs2 ∧ n = length (encode_str cs1) ∧ string_is cs1 s' ∧ string_is cs2 o)
    (λ s', s' = s ∧ ¬ boundary (encode_str cs) n) s.
Proof.
  intros HX Hs. pose proof Hs as [Hcs Hv]. unfold split_off.
  apply (wpa_assert_boundary _ cs); [done| |done]. intros cs1 cs2 -> ->. apply Forall_app in Hcs as [H1 H2].
  rewrite encode_str_app in Hv.
  eapply wpa_mono; [by apply (split_off_spec el alloc_ok no_drop byte_elem_ok X)| |].
  - intros o s' (_&Hv1&Hv2&_). rewrite take_app_length in Hv1. rewrite drop_app_length in Hv2.
    by exists cs1, cs2.
  - intros s' [Hlt _]. exfalso. len.
Qed.

(** ** [retain] *)
Section retain.
Context (f : nat → Z → option bool) (cs : list Z).

(** [K] is kept of the [D] examined so far, [U] is left; between them are the
    bytes that were deleted. *)
Definition retain_inv (g : SetLenOnDrop) K D U s : Prop :=
  cs = D ++ U ∧ Forall scalar K ∧ Forall scalar U ∧ K `sublist_of` D ∧
  (∀ q, (∀ k x, f k x = Some (q x)) → K = List.filter q D) ∧
  guard_idx g = length (encode_str D) ∧
  ∃ J, del_bytes g = length J ∧ guard_idx g = length (encode_str K) + length J ∧
    vec_is (encode_str K ++ J ++ encode_str U) s.

Lemma string_guard_drop_spec g K D U s (Q : () → String → Prop) P :
  retain_inv g K D U s → (∀ s', string_is K s' → Q () s') → wp (SetLenOnDrop_drop g) Q P s.
Proof.
  intros (_&HK&_&_&_&_&J&Hdel&Hidx&Hv) HQ. unfold SetLenOnDrop_drop.
  apply wp_bind, wp_usub; [lia|]. replace (_ - _) with (length (encode_str K)) by lia.
  apply wp_bind, wp_gets. rewrite (vec_is_len el _ s Hv). pose proof (vec_is_cap el alloc_ok _ s Hv).
  apply wp_bind, wp_assert; [apply Nat.leb_le; len|].
  apply (wp_set_len el alloc_ok no_drop byte_elem_ok); [apply Hv|len|]. apply HQ. split; [done|].
  by apply (vec_is_shorter el _ (J ++ encode_str U) s).
Qed.

Lemma encode_at_spec v1 J c v2 s (Q : () → String → Prop) P : (0 ≤ c < 0x110000)%Z →
  vec_is (v1 ++ (J ++ utf8 c) ++ v2) s →
  (∀ s', vec_is (v1 ++ utf8 c ++ drop (length (utf8 c)) (J ++ utf8 c) ++ v2) s' → Q () s') →
  wp (encode_at (length v1) (length (utf8 c)) c) Q P s.
Proof.
  intros Hc Hv HQ. unfold encode_at. set (old := take (length (utf8 c)) (J ++ utf8 c)).
  assert (length old = length (utf8 c)) as Hold by (subst old; len).
  apply wp_bind, (vec_is_rd_cells el no_drop (v1 ++ (J ++ utf8 c) ++ v2) old); [done| |done|].
  { rewrite drop_app_length, take_app_le; [done|]. len. }
  apply wp_bind, wp_run_local. eapply wp_mono; [exact (encode_utf8_spec c old Hc)| |intros s' [_ ?]; lia].
  intros r bs [_ ->]. rewrite drop_ge, app_nil_r by lia.
  pose proof (vec_is_cap el alloc_ok _ s Hv). pose proof Hv as (Hs&Hr&spare&Hcells).
  apply wp_wr_cells; [len|]. apply HQ.
  apply (vec_is_intro el _ spare s); [done|done|cbn; by rewrite length_inserts|cbn; rewrite Hr; len|].
  rewrite <- (take_drop (length (utf8 c)) (J ++ utf8 c)) in Hcells. fold old in Hcells. cbn. rewrite Hcells.
  rewrite !fmap_app, <- !app_assoc, inserts_mid by len. done.
Qed.

Lemma retain_step_spec g K D U s :
  retain_inv g K D U s →
  wp (retain_step f (length (encode_str cs)) g)
    (λ r s', match r with
       | inl g' => ∃ K' c U', U = c :: U' ∧ retain_inv g' K' (D ++ [c]) U' s' ∧ guard_idx g' = guard_idx g + length (utf8 c)
       | inr g' => U = [] ∧ g' = g ∧ s' = s
       end)
    (λ s', (∃ k x, f k x = None) ∧ string_is K s') s.
Proof.
  intros Hinv. pose proof Hinv as (Hcs&HK&HU&Hsub&Hq&HD&J&Hdel&Hidx&Hv). unfold retain_step.
  rewrite Hcs, encode_str_app, length_app, <- HD. destruct HU as [|c U Hc HU].
  { rewrite (proj2 (Nat.ltb_ge _ _)) by (cbn; lia). by apply wp_ret. }
  rewrite encode_cons in *. pose proof (length_utf8_bound c).
  rewrite (proj2 (Nat.ltb_lt _ _)) by len. cbn [negb].
  apply wp_on_panic, wp_bind.
  eapply (wp_on_str_ret _ _ _ (encode_str K ++ J)); [rewrite <- app_assoc; exact Hv|len|len|done|by apply chars_next_utf8|].
  apply wp_bind. cbn [unwrap_unchecked]. apply wp_ret, wp_bind, wp_call.
  2:{ intros Hf. apply (string_guard_drop_spec g K D (c :: U)).
      - split_and!; try done; [by constructor|]. exists J. by split_and!.
      - intros s' ?. split; [by do 2 eexists|done]. }
  assert (Forall scalar (K ++ [c])) as HKc by (apply Forall_app; by split; [|constructor]).
  assert (length (encode_str (D ++ [c])) = guard_idx g + length (utf8 c)) as HDc.
  { by rewrite encode_str_app, encode_single, length_app, HD. }
  assert (cs = (D ++ [c]) ++ U) as Hcs' by by rewrite <- app_assoc.
  rewrite <- length_utf8. intros [] Hf; cbn [negb].
  - apply wp_bind. eapply (wp_mono _ (λ _ s', ∃ J', length J' = length J ∧ vec_is (encode_str (K ++ [c]) ++ J' ++ encode_str U) s') _ (λ _, False)); [|..|done].
    { rewrite encode_str_app, encode_single. destruct (Nat.ltb_spec 0 (del_bytes g)).
      - replace (guard_idx g - del_bytes g) with (length (encode_str K)) by lia.
        eapply (encode_at_spec _ J c (encode_str U)); [by apply scalar_bound|by rewrite <- app_assoc|].
        intros s' Hv'. exists (drop (length (utf8 c)) (J ++ utf8 c)). split; [len|]. by rewrite <- app_assoc.
      - apply wp_ret. exists []. destruct J; [|simpl in *; lia]. split; [done|]. by rewrite <- app_assoc. }
    intros [] s' (J'&HJ'&Hv'). apply wp_ret. exists (K ++ [c]), c, U. split; [done|]. split; [|done].
    split_and!; [done|done|done|by apply sublist_app| |by cbn; rewrite HDc|].
    + intros q Hfq. rewrite List.filter_app, <- (Hq q Hfq). simpl. rewrite Hfq in Hf. by injection Hf as ->.
    + exists J'. cbn. rewrite HJ', encode_str_app, encode_single, length_app. split_and!; [done|lia|].
      by rewrite encode_str_app, encode_single in Hv'.
  - apply wp_ret. exists K, c, U. split; [done|]. split; [|done].
    split_and!; [done|done|done|by apply sublist_inserts_r| |by cbn; rewrite HDc|].
    + intros q Hfq. rewrite List.filter_app, <- (Hq q Hfq). simpl. rewrite Hfq in Hf. injection Hf as ->. by rewrite app_nil_r.
    + exists (J ++ utf8 c). cbn. rewrite length_app. split_and!; [lia|lia|]. by rewrite <- app_assoc.
Qed.

Lemma string_retain_spec s : string_is cs s →
  wp (retain f)
    (λ _ s', ∃ K, string_is K s' ∧ K `sublist_of` cs ∧ ∀ q, (∀ k x, f k x = Some (q x)) → K = List.filter q cs)
    (λ s', (∃ k x, f k x = None) ∧ ∃ K, string_is K s' ∧ K `sublist_of` cs) s.
Proof.
  intros [Hcs Hv]. unfold retain. apply wp_bind, wp_gets. rewrite (vec_is_len el _ s Hv). apply wp_bind.
  apply (wp_loop (λ g s, ∃ K D U, retain_inv g K D U s) (λ g, length (encode_str cs) - guard_idx g)); [|
    exists [], [], cs; split_and!; try done; by exists []|cbn; lia].
  intros g s1 (K&D&U&Hinv). pose proof Hinv as (Heq&_&_&Hsub&Hq&HD&_).
  eapply wp_mono; [by apply (retain_step_spec g K D U)| |].
  - intros [g'|g'] s2.
    + intros (K'&c&U'&->&Hinv'&Hg'). split; [by exists K', (D ++ [c]), U'|].
      pose proof (length_utf8_bound c). rewrite Heq, Hg', HD, encode_str_app, encode_cons. len.
    + intros (->&->&->). apply (string_guard_drop_spec g K D []); [done|]. intros s3 Hs3.
      rewrite app_nil_r in Heq. subst D. by exists K.
  - intros s2 [Hf HK]. split; [done|]. exists K. split; [done|]. rewrite Heq. by apply sublist_inserts_r.
Qed.
End retain.
End spec.
