(* ===== verification/StringTheorems.v ===== *)
(** What the conversions to [String] do. *)

From S2P Require Import Prelude Layout RawVec Vec VecSpec Words Utf8 Utf8Check Utf8Spec Utf8CheckSpec Utf8Valid Utf8Bound Utf16Spec Utf8Theorems Strings StringSpec.

#[local] Abbreviation el := byte_layout (only parsing).

(** ** Replacing what is ill-formed *)
Inductive lossy : list Z → list Z → Prop :=
  | lossy_valid v : valid_utf8 v → lossy v v
  | lossy_error v e r : error_right v e → lossy (snd (chunk_of v (Some e))) r →
      lossy v (take (valid_up_to e) v ++ REPLACEMENT ++ r).

Lemma replacement_valid : valid_utf8 REPLACEMENT.
Proof. change REPLACEMENT with (utf8 0xFFFD). apply valid_char. right. lia. Qed.

Lemma lossy_result_valid v r : lossy v r → valid_utf8 r.
Proof.
  induction 1 as [v Hv|v e r (He&_) _ IH]; [done|].
  apply valid_app; [done|]. apply valid_app; [apply replacement_valid|done].
Qed.

Lemma lossy_of_valid v r : lossy v r → valid_utf8 v → r = v.
Proof. intros H Hv. destruct H as [v|v e r He _]; [done|]. by apply (answer_right_valid v (Some e) He) in Hv. Qed.

Lemma chunk_rest v e : error_right v e → let '(valid, invalid, rest) := chunk_of v (Some e) in
  v = valid ++ invalid ++ rest ∧ invalid ≠ [] ∧ valid = take (valid_up_to e) v.
Proof.
  intros (_&Hlt&He). cbn. apply inspected_le in He. split; [by rewrite take_drop, take_drop|]. split; [|done].
  intros H0. apply (f_equal length) in H0. rewrite length_take in H0. simpl in H0. lia.
Qed.

(** A decoder that replaces exists, and is a function. *)
Lemma lossy_function v r1 r2 : lossy v r1 → lossy v r2 → r1 = r2.
Proof.
  intros H1. revert r2. induction H1 as [v Hv|v e r He Hr IH]; intros r2 H2.
  - symmetry. by apply lossy_of_valid.
  - destruct H2 as [v2 Hv2|v2 e2 r2 He2 Hr2]; [by apply (answer_right_valid _ (Some e) He) in Hv2|].
    pose proof (error_right_unique _ _ _ He He2) as ->. do 2 f_equal. by apply IH.
Qed.

(** The part before the first error can be put aside. *)
Lemma lossy_from v e r : error_right v e → lossy (drop (valid_up_to e) v) r → lossy v (take (valid_up_to e) v ++ r).
Proof.
  intros He Hr. pose proof He as (Hval&Hlt&Hcl). remember (drop (valid_up_to e) v) as u eqn:Hu.
  assert (error_right u (MkUtf8Error 0 (error_len e))) as Hue.
  { subst u. split_and!; [apply valid_nil|rewrite length_drop; simpl; lia|done]. }
  destruct Hr as [u Hval'|u e' r He' Hr]; [by apply (answer_right_valid u (Some _) Hue) in Hval'|].
  pose proof (error_right_unique u _ _ He' Hue) as ->. cbn [take app valid_up_to]. apply lossy_error; [done|].
  cbn in Hr |- *. by rewrite <- Hu.
Qed.

Lemma lossy_exists v : Forall byte_ok v → ∃ r, lossy v r.
Proof.
  induction v as [v IH] using (induction_ltof1 _ (@length Z)). unfold ltof in IH. intros Hok.
  destruct (valid_answer 0 false v) as ([e|]&_&Hr); [by unfold usize_MAX|done| |exists v; by apply lossy_valid].
  pose proof (chunk_rest v e Hr) as Hrest. pose proof (λ r, lossy_error v e r Hr) as Hlossy.
  destruct (chunk_of v (Some e)) as [[valid invalid] rest]. destruct Hrest as (Heq&Hinv&_). cbn [fst snd] in *.
  destruct (IH rest) as [r Hrr]; [|rewrite Heq in Hok; by do 2 apply Forall_app in Hok as [_ Hok]|by eexists; apply Hlossy].
  rewrite Heq, !length_app. destruct invalid; [done|simpl; lia].
Qed.

Section conv.
Context (alloc_ok : Layout → bool).
Abbreviation vec_is := (vec_is byte_layout).
Abbreviation oom := (out_of_memory alloc_ok).
Abbreviation too_big := (too_big byte_layout).

Lemma too_big_mono n m : (0 ≤ n ≤ m)%Z → too_big n → too_big m.
Proof.
  unfold too_big. intros Hnm Hn. destruct (array_fits el (2 * m)) eqn:Hm; [|done].
  rewrite (array_fits_mono el alloc_ok byte_elem_ok (2 * n) (2 * m)) in Hn; [done|lia|done].
Qed.

Lemma with_capacity_string (X : Prop) {S} n (s : S) (Q : String → S → Prop) (P : S → Prop) : (oom → X) →
  (Z.of_nat n ≤ usize_MAX)%Z → (∀ v, vec_is [] v → Q v s) → (too_big (Z.of_nat n) → P s) →
  wpa X (with_capacity alloc_ok n) Q P s.
Proof.
  intros HX Hn HQ HP. apply wpa_fresh, (with_capacity_spec el alloc_ok byte_elem_ok); [done|done|done|lia| |].
  - intros b s' Hs'. apply HQ. split; [done|]. split; [done|]. by eexists.
  - intros Hf. apply HP. unfold too_big. destruct (array_fits el (2 * Z.of_nat n)) eqn:Hm; [|done].
    rewrite (array_fits_mono el alloc_ok byte_elem_ok _ (2 * Z.of_nat n)) in Hf; [done|lia|done].
Qed.

Lemma wpa_run_local {S I A} (X : Prop) (m : prog I A) i (Q : A * I → S → Prop) P (s : S) :
  wpa X m (λ a i', Q (a, i') s) (λ _, P s) i → wpa X (run_local m i) Q P s.
Proof. unfold wpa, run_local. by destruct (m i). Qed.

(** Adding to a string whose final length is bounded. *)
Lemma push_bounded (X : Prop) {S} v bs n s (t : S) (Q : () * String → S → Prop) (P : S → Prop) : (oom → X) → vec_is v s →
  length v + length bs ≤ n → (∀ s', vec_is (v ++ bs) s' → Q ((), s') t) → (too_big (Z.of_nat n) → P t) →
  wpa X (run_local (push_str alloc_ok bs) s) Q P t.
Proof.
  intros HX Hv Hn HQ HP. apply wpa_run_local. eapply wpa_mono; [by apply push_str_spec|intros []; apply HQ|].
  intros s' [_ Hbig]. apply HP. eapply too_big_mono; [|exact Hbig]. rewrite length_app. lia.
Qed.

Lemma no_error_nil e : ¬ error_right [] e.
Proof. intros (_&Hlt&_). simpl in Hlt. lia. Qed.

Lemma lossy_nil r : lossy [] r → r = [].
Proof. intros H. apply (lossy_of_valid _ _ H), valid_nil. Qed.

(** The loop over the chunks turns what is left into what replaces it. *)
Lemma push_chunks_spec (X : Prop) (R : list Z → Prop) iter acc res n : (oom → X) →
  Forall byte_ok iter → vec_is acc res → length acc + 3 * length iter ≤ n →
  (∀ r, lossy iter r → R (acc ++ r)) →
  wpa X (push_chunks alloc_ok iter res) (λ res' _, ∃ r, R r ∧ vec_is r res') (λ _, too_big (Z.of_nat n)) ().
Proof.
  intros HX Hok Hres Hn HR. unfold push_chunks.
  apply (wpa_loop (λ p _, Forall byte_ok p.1 ∧ ∃ acc, vec_is acc p.2 ∧ length acc + 3 * length p.1 ≤ n ∧
    ∀ r, lossy p.1 r → R (acc ++ r)) (λ p, length p.1)); [|by eauto 10|cbn; lia].
  clear Hok Hres Hn HR acc res iter. intros [iter res] [] (Hok&acc&Hres&Hn&HR). cbn in *. unfold push_chunk.
  apply wpa_bind, wpa_wp, wp_run_local. destruct (decide (iter = [])) as [->|Hne].
  { unfold wp. cbn. exists acc. split; [|done]. rewrite <- (app_nil_r acc). apply HR, lossy_valid, valid_nil. }
  eapply wp_mono; [exact (chunks_next_spec iter (λ _, False) Hok Hne)| |done].
  intros o rest (a&Ha&->&->). destruct a as [e|].
  - pose proof (chunk_rest iter e Ha) as Hrest. pose proof (λ r, lossy_error iter e r Ha) as Hlossy.
    destruct (chunk_of iter (Some e)) as [[valid invalid] rest]. destruct Hrest as (Heq&Hinv&Hvalid).
    cbn [fst snd] in *. rewrite <- Hvalid in Hlossy.
    assert (length invalid ≠ 0) as Hinv0 by (by destruct invalid). rewrite Heq, !length_app in Hn.
    apply wpa_bind, (push_bounded X acc valid n); [done|done|lia| |done]. intros res1 Hres1.
    rewrite (proj2 (Nat.eqb_neq _ _)) by done.
    apply wpa_bind, (push_bounded X (acc ++ valid) REPLACEMENT n); [done|done|rewrite length_app; cbn; lia| |done].
    intros res2 Hres2. apply wpa_ret. cbn. split; [|rewrite Heq, !length_app; lia].
    split; [rewrite Heq in Hok; by do 2 apply Forall_app in Hok as [_ Hok]|].
    exists ((acc ++ valid) ++ REPLACEMENT). split; [done|]. split; [rewrite !length_app; cbn; lia|].
    intros r Hr. rewrite <- !app_assoc. by apply HR, Hlossy.
  - cbn [chunk_of fst snd]. apply wpa_bind, (push_bounded X acc iter n); [done|done|lia| |done]. intros res1 Hres1.
    cbn [length Nat.eqb]. apply wpa_bind, wpa_ret. cbn beta. apply wpa_ret. cbn. split; [|by destruct iter; [|simpl; lia]].
    split; [done|]. exists (acc ++ iter). split; [done|]. split; [rewrite length_app; lia|].
    intros r ->%lossy_nil. rewrite app_nil_r. apply HR. by apply lossy_valid.
Qed.

(** [from_utf8_lossy] borrows a valid string, and else replaces. *)
Lemma from_utf8_lossy_spec (X : Prop) v : (oom → X) → Forall byte_ok v → (Z.of_nat (length v) ≤ usize_MAX)%Z →
  wpa X (from_utf8_lossy alloc_ok v)
    (λ r _, match r with
            | inl b => b = v ∧ valid_utf8 v
            | inr s => ¬ valid_utf8 v ∧ ∃ r, lossy v r ∧ vec_is r s
            end) (λ _, too_big (Z.of_nat (3 * length v))) ().
Proof.
  intros HX Hok Hlen. unfold from_utf8_lossy. apply wpa_bind, wpa_wp, wp_run_local.
  destruct (decide (v = [])) as [->|Hne]; [by split; [|apply valid_nil]|].
  eapply wp_mono; [exact (chunks_next_spec v (λ _, False) Hok Hne)| |done].
  intros o rest (a&Ha&->&->). destruct a as [e|].
  - pose proof (chunk_rest v e Ha) as Hrest. pose proof (λ r, lossy_error v e r Ha) as Hlossy.
    destruct (chunk_of v (Some e)) as [[valid invalid] rest]. destruct Hrest as (Heq&Hinv&Hvalid).
    cbn [fst snd] in *. rewrite <- Hvalid in Hlossy.
    assert (0 < length invalid) as Hinv0 by (destruct invalid; [done|simpl; lia]).
    rewrite (proj2 (Nat.eqb_neq _ _)) by lia.
    assert (length v = length valid + (length invalid + length rest)) as Hlenv by (by rewrite Heq at 1; rewrite !length_app).
    apply wpa_bind, with_capacity_string; [done|done| |apply too_big_mono; lia]. intros s0 Hs0.
    apply wpa_bind, (push_bounded X [] valid (3 * length v)); [done|done|simpl; lia| |done]. intros s1 Hs1.
    apply wpa_bind, (push_bounded X valid REPLACEMENT (3 * length v)); [done|done|simpl; lia| |done]. intros s2 Hs2.
    apply wpa_bind. eapply wpa_mono; [apply (push_chunks_spec X (lossy v) rest (valid ++ REPLACEMENT) s2 (3 * length v) HX)| |done].
    + rewrite Heq in Hok. by do 2 apply Forall_app in Hok as [_ Hok].
    + done.
    + rewrite length_app. simpl. lia.
    + intros r Hr. rewrite <- app_assoc. by apply Hlossy.
    + intros s3 [] (r&Hr&Hs3). apply wpa_ret. split; [|by exists r].
      intros Hval. by apply (answer_right_valid v (Some e) Ha) in Hval.
  - cbn [chunk_of fst snd length Nat.eqb]. apply wpa_bind, wpa_wp, wp_assert; [by apply Nat.eqb_refl|].
    apply wpa_ret. done.
Qed.

(** [into_utf8_lossy] starts from the error of [from_utf8]. *)
Lemma into_utf8_lossy_spec (X : Prop) v e : (oom → X) → Forall byte_ok v → (Z.of_nat (length v) ≤ usize_MAX)%Z →
  error_right v e →
  wpa X (into_utf8_lossy alloc_ok v e) (λ s _, ∃ r, lossy v r ∧ vec_is r s) (λ _, too_big (Z.of_nat (3 * length v))) ().
Proof.
  intros HX Hok Hlen He. pose proof He as (Hval&Hlt&Hcl). unfold into_utf8_lossy.
  apply wpa_bind, with_capacity_string; [done|done| |apply too_big_mono; lia]. intros s0 Hs0.
  apply wpa_bind, wpa_wp, wp_assert; [apply Nat.leb_le; lia|].
  apply wpa_bind, (push_bounded X [] _ (3 * length v)); [done|done|rewrite length_take; simpl; lia| |done]. intros s1 Hs1.
  eapply wpa_mono; [apply (push_chunks_spec X (lossy v) (drop (valid_up_to e) v) (take (valid_up_to e) v) s1 (3 * length v) HX)| |done].
  - by apply Forall_drop.
  - exact Hs1.
  - rewrite length_drop, length_take. simpl. lia.
  - intros r Hr. by apply lossy_from.
  - by intros.
Qed.

(** ** UTF-16 *)
Lemma units_utf8 cs : Forall scalar cs → length (encode_str cs) ≤ 3 * length (concat (utf16 <$> cs)).
Proof.
  induction 1 as [|c cs Hc _ IH]; [cbn; lia|]. rewrite encode_cons. cbn [fmap list_fmap concat].
  rewrite !length_app. assert (length (utf8 c) ≤ 3 * length (utf16 c)); [|lia].
  rewrite length_utf8. unfold len_utf8, utf16, MAX_ONE_B, MAX_TWO_B, MAX_THREE_B. repeat case_bool; cbn; lia.
Qed.

(** What an encoding starts with can be taken away. *)
Lemma utf16_strip cs cs' w : Forall scalar cs → Forall scalar cs' →
  concat (utf16 <$> cs) ++ w = concat (utf16 <$> cs') → ∃ cs2, Forall scalar cs2 ∧ w = concat (utf16 <$> cs2).
Proof.
  intros Hcs. revert cs'. induction Hcs as [|c cs Hc _ IH]; intros cs' Hcs'; cbn; [by exists cs'|].
  destruct Hcs' as [|c' cs' Hc' Hcs']; cbn.
  - intros Heq. exfalso. apply (f_equal length) in Heq. rewrite !length_app in Heq. simpl in Heq.
    pose proof (units_of_length (inl c)). simpl in *. lia.
  - rewrite <- app_assoc. intros [_ Heq]%utf16_app_inj; [|done..]. by apply (IH cs').
Qed.

(** An unpaired surrogate does not occur in an encoding. *)
Lemma utf16_unpaired u w cs : Forall scalar cs → leading u ∨ trailing u →
  (leading u → ∀ u2, head w = Some u2 → ¬ trailing u2) → u :: w ≠ concat (utf16 <$> cs).
Proof.
  intros Hcs Hu Hno Heq. destruct Hcs as [|c cs Hc Hcs]; [done|]. cbn in Heq.
  destruct (utf16_head c u (concat (utf16 <$> cs)) Hc) as [Ht Hl]; [by rewrite <- Heq|].
  destruct Hu as [Hu|]; [|done]. destruct (Hl Hu) as (u2&Hc2&Htr). rewrite Hc2 in Heq.
  injection Heq as ->. by apply (Hno Hu u2).
Qed.

Lemma from_utf16_spec (X : Prop) v : (oom → X) → Forall unit_ok v → (Z.of_nat (length v) ≤ usize_MAX)%Z →
  wpa X (from_utf16 alloc_ok v)
    (λ r _, match r with
            | Some s => ∃ cs, string_is cs s ∧ v = concat (utf16 <$> cs)
            | None => ∀ cs, Forall scalar cs → v ≠ concat (utf16 <$> cs)
            end) (λ _, too_big (Z.of_nat (3 * length v))) ().
Proof.
  intros HX Hok Hlen. unfold from_utf16.
  apply wpa_bind, with_capacity_string; [done|done| |apply too_big_mono; lia]. intros s0 Hs0.
  apply (wpa_loop (λ p _, decode_ok p.1 ∧ ∃ cs, string_is cs p.2 ∧ v = concat (utf16 <$> cs) ++ units_left p.1)
    (λ p, length (units_left p.1))); [| |cbn; lia].
  2:{ split; [by split|]. exists []. by split. }
  intros [iter ret] [] (Hd&cs&Hs&Hv). cbn [fst snd] in *. unfold from_utf16_step.
  apply wpa_bind, wpa_wp, wp_run_local. eapply wp_mono; [exact (decode_next_spec iter (λ _, False) Hd)| |done].
  intros [[c|u]|] d' [Hd' Ho].
  - destruct Ho as (Hc&Hu&_). cbn in Hc. apply wpa_bind, wpa_run_local.
    eapply wpa_mono; [by apply (string_push_spec alloc_ok X cs c ret)| |].
    + intros [] s' Hs'. apply wpa_ret. cbn [fst snd]. rewrite Hu in *. cbn [units_of] in *. split.
      * split; [done|]. exists (cs ++ [c]). split; [done|]. rewrite fmap_app, concat_app. cbn.
        by rewrite app_nil_r, <- app_assoc.
      * rewrite length_app. pose proof (units_of_length (inl c)). cbn in *. lia.
    + intros s' [_ Hbig]. eapply too_big_mono; [|exact Hbig]. rewrite Hv, Hu. cbn [units_of].
      pose proof (units_utf8 (cs ++ [c])) as Hlen8. rewrite Forall_app, fmap_app, concat_app in Hlen8. cbn in Hlen8.
      rewrite app_nil_r in Hlen8. rewrite !length_app in *. destruct Hs as [Hs _]. specialize (Hlen8 (conj Hs (proj2 (Forall_singleton _ _) Hc))). lia.
  - destruct Ho as (Hu&Hunits&Hno). cbn in Hu. apply wpa_ret. intros cs' Hcs' Heq.
    rewrite Hv, Hunits in Heq. destruct (utf16_strip cs cs' _ (proj1 Hs) Hcs' Heq) as (cs2&Hcs2&Hw).
    by apply (utf16_unpaired u (units_left d') cs2).
  - destruct Ho as [Hnil _]. apply wpa_ret. exists cs. split; [done|]. by rewrite Hv, Hnil, app_nil_r.
Qed.
End conv.

(** ** What [String] promises: a sequence of characters. *)

(** ** The abstract sequence *)
(** Cuts the characters where [n] bytes of their encoding are to the left. *)
Fixpoint cut n (cs : list Z) : option (list Z * list Z) :=
  match n, cs with
  | O, _ => Some ([], cs)
  | _, [] => None
  | _, c :: cs => if n <? len_utf8 c then None else '(l, r) ← cut (n - len_utf8 c) cs; Some (c :: l, r)
  end.

Lemma cut_length cs1 cs2 : cut (length (encode_str cs1)) (cs1 ++ cs2) = Some (cs1, cs2).
Proof.
  induction cs1 as [|c cs1 IH]; [by destruct cs2|]. rewrite encode_cons, length_app, length_utf8. cbn [app].
  pose proof (length_utf8_bound c) as Hl. rewrite length_utf8 in Hl.
  destruct (len_utf8 c + length (encode_str cs1)) as [|n] eqn:Hn; [lia|]. cbn [cut]. rewrite <- Hn.
  rewrite (proj2 (Nat.ltb_ge _ _)) by lia. replace (_ + _ - _) with (length (encode_str cs1)) by lia. by rewrite IH.
Qed.

Lemma cut_Some n cs cs1 cs2 : cut n cs = Some (cs1, cs2) → cs = cs1 ++ cs2 ∧ n = length (encode_str cs1).
Proof.
  revert n cs1. induction cs as [|c cs IH]; intros [|n] cs1; cbn [cut]; [by intros [= <- <-]|done|by intros [= <- <-]|].
  destruct (Nat.ltb_spec (S n) (len_utf8 c)); [done|].
  destruct (cut _ cs) as [[l r]|] eqn:Hc; [|done]. intros [= <- <-]. destruct (IH _ _ Hc) as [-> Hn].
  split; [done|]. rewrite encode_cons, length_app, length_utf8. lia.
Qed.

Lemma cut_None n cs : Forall scalar cs → ¬ boundary (encode_str cs) n → cut n cs = None.
Proof.
  intros Hcs Hn. destruct (cut n cs) as [[cs1 cs2]|] eqn:Hc; [|done]. exfalso. apply Hn.
  apply cut_Some in Hc as [-> ->]. apply Forall_app in Hcs as [H1 _]. by apply chars_boundary.
Qed.

(** The operations; a predicate given to [Retain] neither panics nor depends on
    the calls made before. *)
Inductive string_op :=
  | Push (c : Z) | PushStr (str : list Z) | Pop | Truncate (n : nat) | Clear
  | Remove (i : nat) | Insert (i : nat) (c : Z) | InsertStr (i : nat) (str : list Z) | Retain (q : Z → bool).

(** The answer and the characters after the operation, or [None] when it is
    documented to panic. *)
Definition chars_op (o : string_op) (cs : list Z) : option (option Z * list Z) :=
  match o with
  | Push c => Some (None, cs ++ [c])
  | PushStr str => Some (None, cs ++ str)
  | Pop => Some (last cs, removelast cs)
  | Truncate n =>
      if length (encode_str cs) <? n then Some (None, cs) else '(l, _) ← cut n cs; Some (None, l)
  | Clear => Some (None, [])
  | Remove i => '(l, r) ← cut i cs; match r with [] => None | c :: r => Some (Some c, l ++ r) end
  | Insert i c => '(l, r) ← cut i cs; Some (None, l ++ c :: r)
  | InsertStr i str => '(l, r) ← cut i cs; Some (None, l ++ str ++ r)
  | Retain q => Some (None, List.filter q cs)
  end.

(** The characters that an operation adds. *)
Definition added (o : string_op) : list Z :=
  match o with Push c | Insert _ c => [c] | PushStr str | InsertStr _ str => str | _ => [] end.

Fixpoint chars_run (ops : list string_op) (cs : list Z) : option (list (option Z) * list Z) :=
  match ops with
  | [] => Some ([], cs)
  | o :: ops => '(r, cs1) ← chars_op o cs; '(rs, cs2) ← chars_run ops cs1; Some (r :: rs, cs2)
  end.

(** ** A client of the string *)
Definition run_op (alloc_ok : Layout → bool) (o : string_op) : prog String (option Z) :=
  match o with
  | Push c => _ ← push alloc_ok c; mret None
  | PushStr str => _ ← push_str alloc_ok (encode_str str); mret None
  | Pop => pop
  | Truncate n => _ ← truncate n; mret None
  | Clear => _ ← clear; mret None
  | Remove i => c ← remove i; mret (Some c)
  | Insert i c => _ ← insert alloc_ok i c; mret None
  | InsertStr i str => _ ← insert_str alloc_ok i (encode_str str); mret None
  | Retain q => _ ← retain (λ _ c, Some (q c)); mret None
  end.

Fixpoint run (alloc_ok : Layout → bool) (ops : list string_op) : prog String (list (option Z)) :=
  match ops with
  | [] => mret []
  | o :: ops => r ← run_op alloc_ok o; rs ← run alloc_ok ops; mret (r :: rs)
  end.

Section refine.
Context (alloc_ok : Layout → bool).
Abbreviation oom := (out_of_memory alloc_ok).
Implicit Types (s : String) (cs : list Z) (o : string_op).

Definition op_done o cs r s' : Prop := ∃ cs', chars_op o cs = Some (r, cs') ∧ string_is cs' s'.
Definition op_panicked o cs s' : Prop :=
  (chars_op o cs = None ∨ too_big byte_layout (Z.of_nat (length (encode_str (cs ++ added o))))) ∧ string_is cs s'.

Lemma string_op_unit o cs s (m : prog String ()) :
  wpa oom m (λ _, op_done o cs None) (op_panicked o cs) s →
  wpa oom (_ ← m; mret None) (op_done o cs) (op_panicked o cs) s.
Proof. intros H. apply wpa_bind. eapply wpa_mono; [exact H|by intros [] s'; apply wpa_ret|done]. Qed.

Lemma string_run_op_spec o cs s : string_is cs s → Forall scalar (added o) →
  wpa oom (run_op alloc_ok o) (op_done o cs) (op_panicked o cs) s.
Proof.
  intros Hs Ho. pose proof (proj1 Hs) as Hcs.
  destruct o as [c|str| |n| |i|i c|i str|q]; cbn [run_op added] in *; try apply string_op_unit;
    unfold op_done, op_panicked; cbn [chars_op added].
  - rewrite Forall_singleton in Ho. eapply wpa_mono; [by apply string_push_spec|by eexists|].
    intros s' [-> ?]. by split; [right|].
  - eapply wpa_mono; [by apply (push_str_spec alloc_ok _ (encode_str cs)); [|apply Hs]| |].
    + intros [] s' Hv. eexists. split; [done|]. split; [by apply Forall_app|]. by rewrite encode_str_app.
    + intros s' [-> ?]. split; [right|done]. by rewrite encode_str_app.
  - apply wpa_wp. destruct (decide (cs = [])) as [->|(cs1&c&->)%list_snoc_inv].
    + eapply wp_mono; [by apply (string_pop_nil_spec s (λ _, False))| |done]. intros r s' [-> ->]. by eexists.
    + eapply wp_mono; [by apply (string_pop_spec alloc_ok cs1 c s (λ _, False))| |done].
      intros r s' [-> ?]. rewrite last_snoc, removelast_last. by eexists.
  - eapply wpa_mono; [by apply (string_truncate_spec alloc_ok _ cs)| |].
    + intros [] s' [[Hn ->]|(cs1&cs2&->&->&?)].
      * rewrite (proj2 (Nat.ltb_lt _ _)) by done. by eexists.
      * rewrite (proj2 (Nat.ltb_ge _ _)) by (rewrite encode_str_app, length_app; lia). rewrite cut_length. by eexists.
    + intros s' (->&Hn&Hb). split; [left|done].
      rewrite (proj2 (Nat.ltb_ge _ _)) by done. by rewrite cut_None.
  - eapply wpa_mono; [by apply (string_clear_spec _ cs)|by eexists|done].
  - apply wpa_bind. eapply wpa_mono; [by apply (string_remove_spec alloc_ok _ cs)| |].
    + intros c s' (cs1&cs2&->&->&?). apply wpa_ret. rewrite cut_length. by eexists.
    + intros s' [-> Hi]. split; [left|done]. destruct (cut i cs) as [[cs1 cs2]|] eqn:Hc; [|done].
      apply cut_Some in Hc as [-> ->]. destruct Hi as [Hi|Hi]; [|exfalso; apply Hi, chars_boundary; by apply Forall_app in Hcs as [? _]].
      destruct cs2 as [|c cs2]; [done|]. rewrite encode_str_app, encode_cons, !length_app in Hi.
      pose proof (length_utf8_bound c). lia.
  - rewrite Forall_singleton in Ho. eapply wpa_mono; [by apply (string_insert_spec alloc_ok _ cs)| |].
    + intros [] s' (cs1&cs2&->&->&?). rewrite cut_length. by eexists.
    + intros s' [-> Hi]. split; [|done]. destruct Hi as [Hi|Hi]; [left|right].
      * by rewrite cut_None.
      * by rewrite encode_str_app, encode_single.
  - eapply wpa_mono; [by apply (string_insert_str_spec alloc_ok _ cs)| |].
    + intros [] s' (cs1&cs2&->&->&?). rewrite cut_length. by eexists.
    + intros s' [-> Hi]. split; [|done]. destruct Hi as [Hi|Hi]; [left|by right].
      by rewrite cut_None.
  - apply wpa_wp. eapply wp_mono; [by apply (string_retain_spec alloc_ok)| |].
    + intros [] s' (K&HK&_&Hq). eexists. split; [done|]. by rewrite <- (Hq q).
    + by intros s' [(?&?&?) _].
Qed.

Lemma string_run_spec ops cs s : string_is cs s → Forall (λ o, Forall scalar (added o)) ops →
  wpa oom (run alloc_ok ops)
    (λ rs s', ∃ cs', chars_run ops cs = Some (rs, cs') ∧ string_is cs' s')
    (λ s', ∃ ops1 o ops2 rs cs', ops = ops1 ++ o :: ops2 ∧ chars_run ops1 cs = Some (rs, cs') ∧ op_panicked o cs' s') s.
Proof.
  intros Hs Hops. revert cs s Hs. induction Hops as [|o ops Ho _ IH]; intros cs s Hs; cbn [run].
  { apply wpa_ret. by exists cs. }
  apply wpa_bind. eapply wpa_mono; [by apply string_run_op_spec| |].
  - intros r s1 (cs1&Ho1&Hs1). apply wpa_bind. eapply wpa_mono; [by apply IH| |].
    + intros rs s2 (cs2&Hr&Hs2). apply wpa_ret. exists cs2. cbn. rewrite Ho1. cbn. by rewrite Hr.
    + intros s2 (ops1&o'&ops2&rs&cs'&->&Hr&Hp). exists (o :: ops1), o', ops2, (r :: rs), cs'.
      split_and!; [done| |done]. cbn. rewrite Ho1. cbn. by rewrite Hr.
  - intros s1 Hp. by exists [], o, ops, [], cs.
Qed.
End refine.

(** [from_utf8] leaves the bytes where they are. *)
Lemma from_utf8_spec addr v s : (0 ≤ addr ≤ usize_MAX)%Z → Forall byte_ok v →
  vec_is byte_layout v s → ∃ r, from_utf8 addr s = Ret r s ∧ answer_right v r.
Proof.
  intros Ha Hok Hv. destruct (valid_answer addr false v Ha Hok) as (r&Hrun&Hr). exists r. split; [|done].
  assert (wp (from_utf8 addr) (λ r' s', r' = r ∧ s' = s) (λ _, False) s) as H.
  { unfold from_utf8. apply wp_bind, wp_gets. rewrite (vec_is_len byte_layout v s Hv).
    by eapply (wp_on_str_ret _ _ _ [] v). }
  case_run H as [? ?|?|]; [|done..]. by destruct H as [-> ->].
Qed.

(** A string in a block of 16 bytes. *)
Definition sample_string (cs : list Z) : String :=
  let v := encode_str cs in
  Buffer (length v) ((Some <$> v) ++ replicate (16 - length v) None) (Some (MkLayout 16%Z 1%Z)) [] 0.

Lemma sample_string_is cs : Forall scalar cs → length (encode_str cs) ≤ 16 → string_is cs (sample_string cs).
Proof.
  intros Hcs Hl. split; [done|]. unfold sample_string.
  assert (length ((Some <$> encode_str cs) ++ replicate (16 - length (encode_str cs)) (None : option Z)) = 16) as Hlen
    by (rewrite length_app, length_fmap, length_replicate; lia).
  split; [|split; [done|by eexists]]. split; unfold raw_cap; cbn -[encode_str]; by rewrite Hlen.
Qed.

(** ** Properties *)
(** C15: [String] is a sequence of characters.  Any sequence of operations gives
    the answers and the characters of the list of characters, where positions are
    given in bytes; in particular the bytes are valid UTF-8 after every operation.
    A run that panics stops at an operation with a position that is not between
    two characters (or out of range), or with a string so large that it cannot
    double, and leaves the string as it was.  The process aborts only when the
    allocator fails, and nothing is undefined behaviour. *)
Theorem string_refines_chars (alloc_ok : Layout → bool) (ops : list string_op) (cs : list Z) (s : String) :
  string_is cs s → Forall (λ o, Forall scalar (added o)) ops →
  match run alloc_ok ops s with
  | Ret rs s' => ∃ cs', chars_run ops cs = Some (rs, cs') ∧ string_is cs' s'
  | Panic s' => ∃ ops1 o ops2 rs cs', ops = ops1 ++ o :: ops2 ∧ chars_run ops1 cs = Some (rs, cs') ∧
      (chars_op o cs' = None ∨ too_big byte_layout (Z.of_nat (length (encode_str (cs' ++ added o))))) ∧
      string_is cs' s'
  | Fault f => f = Aborted ∧ out_of_memory alloc_ok
  end.
Proof.
  intros Hs Hops. pose proof (string_run_spec alloc_ok ops cs s Hs Hops) as H.
  by case_run H as [?|?|[]].
Qed.

(** The last position is inside the euro sign. *)
Lemma string_refines_chars_witness :
  match run (λ _, true) [Push 0x1F600%Z; Insert 1 0xE9%Z; Remove 0; Pop; Insert 3 0x62%Z] (sample_string [0x61; 0x20AC]%Z) with
  | Ret rs s' => ∃ cs', chars_run [Push 0x1F600%Z; Insert 1 0xE9%Z; Remove 0; Pop; Insert 3 0x62%Z] [0x61; 0x20AC]%Z =
      Some (rs, cs') ∧ string_is cs' s'
  | Panic s' => ∃ ops1 o ops2 rs cs',
      [Push 0x1F600%Z; Insert 1 0xE9%Z; Remove 0; Pop; Insert 3 0x62%Z] = ops1 ++ o :: ops2 ∧
      chars_run ops1 [0x61; 0x20AC]%Z = Some (rs, cs') ∧
      (chars_op o cs' = None ∨ too_big byte_layout (Z.of_nat (length (encode_str (cs' ++ added o))))) ∧
      string_is cs' s'
  | Fault f => f = Aborted ∧ out_of_memory (λ _, true)
  end.
Proof.
  apply (string_refines_chars (λ _, true) _ [0x61; 0x20AC]%Z).
  - apply sample_string_is; [|vm_compute; lia]. repeat constructor; lia.
  - apply (bool_decide_unpack _). vm_compute. exact I.
Defined.

(** C16: [String::retain] with any predicate: what is left is a part of the string
    in its old order, and valid UTF-8, also when the predicate panics after some
    characters were removed and moved. *)
Theorem string_retain_panic_safe (f : nat → Z → option bool) (cs : list Z) (s : String) : string_is cs s →
  match retain f s with
  | Ret _ s' => ∃ K, string_is K s' ∧ K `sublist_of` cs ∧
      ∀ q, (∀ k x, f k x = Some (q x)) → K = List.filter q cs
  | Panic s' => (∃ k x, f k x = None) ∧ ∃ K, string_is K s' ∧ K `sublist_of` cs
  | Fault _ => False
  end.
Proof.
  intros Hs. pose proof (string_retain_spec (λ _, true) f cs s Hs) as H. by case_run H as [[] ?|?|].
Qed.

(** The third call panics, after one character was deleted. *)
Lemma string_retain_panic_safe_witness :
  let f k (x : Z) := if k =? 2 then None else Some (x =? 0x20AC)%Z in
  match retain f (sample_string [0x61; 0x20AC; 0x62]%Z) with
  | Ret _ s' => ∃ K, string_is K s' ∧ K `sublist_of` [0x61; 0x20AC; 0x62]%Z ∧
      ∀ q, (∀ k x, f k x = Some (q x)) → K = List.filter q [0x61; 0x20AC; 0x62]%Z
  | Panic s' => (∃ k x, f k x = None) ∧ ∃ K, string_is K s' ∧ K `sublist_of` [0x61; 0x20AC; 0x62]%Z
  | Fault _ => False
  end.
Proof.
  apply (string_retain_panic_safe (λ k (x : Z), if k =? 2 then None else Some (x =? 0x20AC)%Z) [0x61; 0x20AC; 0x62]%Z).
  apply sample_string_is; [|vm_compute; lia]. repeat constructor; lia.
Defined.

(** C17: a lossy conversion always gives a valid string: [from_utf8_lossy] borrows
    the bytes exactly when they are valid, and else puts a replacement character
    for each ill-formed sequence, as validation delimits them.  [into_utf8_lossy],
    which starts from the error of [from_utf8], gives the same string. *)
Theorem from_utf8_lossy_correct (alloc_ok : Layout → bool) (addr : Z) (v : list Z) (s : String) :
  Forall byte_ok v → (Z.of_nat (length v) ≤ usize_MAX)%Z → (0 ≤ addr ≤ usize_MAX)%Z → vec_is byte_layout v s →
  ∃ r, lossy v r ∧ valid_utf8 r ∧
    match from_utf8_lossy alloc_ok v () with
    | Ret (inl b) _ => valid_utf8 v ∧ b = v ∧ r = v
    | Ret (inr s') _ => ¬ valid_utf8 v ∧ vec_is byte_layout r s'
    | Panic _ => too_big byte_layout (Z.of_nat (3 * length v))
    | Fault f => f = Aborted ∧ out_of_memory alloc_ok
    end ∧
    match from_utf8 addr s with
    | Ret None s' => s' = s ∧ valid_utf8 v
    | Ret (Some e) s' => s' = s ∧ ¬ valid_utf8 v ∧
        match into_utf8_lossy alloc_ok v e () with
        | Ret s'' _ => vec_is byte_layout r s''
        | Panic _ => too_big byte_layout (Z.of_nat (3 * length v))
        | Fault f => f = Aborted ∧ out_of_memory alloc_ok
        end
    | _ => False
    end.
Proof.
  intros Hok Hlen Ha Hv. destruct (lossy_exists v Hok) as [r Hr]. exists r. split; [done|].
  split; [by eapply lossy_result_valid|]. split.
  - pose proof (from_utf8_lossy_spec alloc_ok _ v (λ H, H) Hok Hlen) as H.
    case_run H as [[b|s'] ?|?|[]]; try done.
    + destruct H as [-> Hval]. split_and!; [done..|]. by apply (lossy_of_valid v).
    + destruct H as (Hno&r'&Hr'&Hs'). split; [done|]. by rewrite (lossy_function v r r').
  - destruct (from_utf8_spec addr v s Ha Hok Hv) as (a&->&Hans). destruct a as [e|]; [|done].
    split; [done|]. split; [intros Hval; by apply (answer_right_valid v (Some e) Hans) in Hval|].
    pose proof (into_utf8_lossy_spec alloc_ok _ v e (λ H, H) Hok Hlen Hans) as H.
    case_run H as [s'|?|[]]; try done. destruct H as (r'&Hr'&Hs'). by rewrite (lossy_function v r r').
Qed.

(** A character that is cut short by another one. *)
Lemma from_utf8_lossy_correct_witness :
  let v := [0x61; 0xE2; 0x82; 0x62]%Z in
  let s := Buffer 4 (Some <$> v) (Some (MkLayout 4%Z 1%Z)) [] 0 in
  ∃ r, lossy v r ∧ valid_utf8 r ∧
    match from_utf8_lossy (λ _, true) v () with
    | Ret (inl b) _ => valid_utf8 v ∧ b = v ∧ r = v
    | Ret (inr s') _ => ¬ valid_utf8 v ∧ vec_is byte_layout r s'
    | Panic _ => too_big byte_layout (Z.of_nat (3 * length v))
    | Fault f => f = Aborted ∧ out_of_memory (λ _, true)
    end ∧
    match from_utf8 4096 s with
    | Ret None s' => s' = s ∧ valid_utf8 v
    | Ret (Some e) s' => s' = s ∧ ¬ valid_utf8 v ∧
        match into_utf8_lossy (λ _, true) v e () with
        | Ret s'' _ => vec_is byte_layout r s''
        | Panic _ => too_big byte_layout (Z.of_nat (3 * length v))
        | Fault f => f = Aborted ∧ out_of_memory (λ _, true)
        end
    | _ => False
    end.
Proof.
  apply (from_utf8_lossy_correct (λ _, true) 4096 [0x61; 0xE2; 0x82; 0x62]%Z);
    [by repeat constructor|done|done|]. split; [by split|]. split; [done|by exists []].
Defined.

(** [String::from_utf16] succeeds exactly on the UTF-16 encodings of
    characters, and the string then holds these characters. *)
Theorem from_utf16_correct (alloc_ok : Layout → bool) (v : list Z) :
  Forall unit_ok v → (Z.of_nat (length v) ≤ usize_MAX)%Z →
  match from_utf16 alloc_ok v () with
  | Ret (Some s) _ => ∃ cs, string_is cs s ∧ v = concat (utf16 <$> cs)
  | Ret None _ => ∀ cs, Forall scalar cs → v ≠ concat (utf16 <$> cs)
  | Panic _ => too_big byte_layout (Z.of_nat (3 * length v))
  | Fault f => f = Aborted ∧ out_of_memory alloc_ok
  end.
Proof.
  intros Hok Hlen. pose proof (from_utf16_spec alloc_ok _ v (λ H, H) Hok Hlen) as H.
  by case_run H as [[s|] ?|?|[]].
Qed.

Lemma from_utf16_correct_witness :
  match from_utf16 (λ _, true) [0x61; 0xD83D; 0xDE00]%Z () with
  | Ret (Some s) _ => ∃ cs, string_is cs s ∧ [0x61; 0xD83D; 0xDE00]%Z = concat (utf16 <$> cs)
  | Ret None _ => ∀ cs, Forall scalar cs → [0x61; 0xD83D; 0xDE00]%Z ≠ concat (utf16 <$> cs)
  | Panic _ => too_big byte_layout (Z.of_nat (3 * length [0x61; 0xD83D; 0xDE00]%Z))
  | Fault f => f = Aborted ∧ out_of_memory (λ _, true)
  end.
Proof. apply (from_utf16_correct (λ _, true) [0x61; 0xD83D; 0xDE00]%Z); [by repeat constructor|done]. Defined.
