(* ===== verification/Threads.v ===== *)
(** Threads that share atomic variables and sleep on futexes.

    A primitive gives the points a thread can be at, each with the local variables
    that are live there, and what a thread does in one atomic step.  A system is
    the shared memory and the point of every thread; its steps interleave those of
    the threads in any order.  Memory is sequentially consistent.  The futex calls
    are the operating system's: [futex_wait] puts the thread to sleep if the value
    is still the expected one, and may return at any time without a reason;
    [futex_wake] wakes one thread if any sleeps, and tells whether it did. *)

From stdpp Require Export relations.
From S2P Require Import Prelude.

(** What a thread asks for at the end of its step: [Wake] goes on with the answer
    of [futex_wake]. *)
Inductive request (L F : Type) :=
  | Go (l : L)
  | Wake (f : F) (k : bool → L)
  | WakeAll (f : F) (l : L).
Arguments Go {L F} l.
Arguments Wake {L F} f k.
Arguments WakeAll {L F} f l.

(** The code of a thread: memory [S], points [L], futexes [F].  A thread that has
    no step waits to be woken or for its next call; the boolean is what the
    hardware may choose. *)
Class Threaded (S L F : Type) := {
  run_thread : bool → S → L → option (S * request L F);
  asleep_on : L → option F;
  woken : L → L;
  calls : L → list L;
}.

Record sys (S L : Type) := Sys { shared : S; threads : list L }.
Arguments Sys {S L} shared threads.
Arguments shared {S L} s.
Arguments threads {S L} s.

Section steps.
Context {S L F : Type} `{EqDecision F} `{!Threaded S L F}.
Implicit Types (σ : sys S L) (s : S) (l m : L) (t u : nat) (f : F) (ths : list L).

Definition wake_on f m : L := if decide (asleep_on m = Some f) then woken m else m.

(** The steps of the threads. *)
Inductive step σ : sys S L → Prop :=
  | step_go t c l s' l' : threads σ !! t = Some l →
      run_thread c (shared σ) l = Some (s', Go l') →
      step σ (Sys s' (<[t := l']> (threads σ)))
  | step_wake t c l s' f k u m : threads σ !! t = Some l →
      run_thread c (shared σ) l = Some (s', Wake f k) →
      threads σ !! u = Some m → asleep_on m = Some f →
      step σ (Sys s' (<[t := k true]> (<[u := woken m]> (threads σ))))
  | step_wake_none t c l s' f k : threads σ !! t = Some l →
      run_thread c (shared σ) l = Some (s', Wake f k) →
      (∀ m, m ∈ threads σ → asleep_on m ≠ Some f) →
      step σ (Sys s' (<[t := k false]> (threads σ)))
  | step_wake_all t c l s' f l' : threads σ !! t = Some l →
      run_thread c (shared σ) l = Some (s', WakeAll f l') →
      step σ (Sys s' (<[t := l']> (wake_on f <$> threads σ))).

(** What happens to the threads from outside: a new call, and a return of
    [futex_wait] without a reason. *)
Inductive outside σ : sys S L → Prop :=
  | step_call t l l' : threads σ !! t = Some l → l' ∈ calls l →
      outside σ (Sys (shared σ) (<[t := l']> (threads σ)))
  | step_spurious t l f : threads σ !! t = Some l → asleep_on l = Some f →
      outside σ (Sys (shared σ) (<[t := woken l]> (threads σ))).

Definition any_step σ σ' : Prop := step σ σ' ∨ outside σ σ'.
Definition reachable σ0 σ : Prop := rtc any_step σ0 σ.

Lemma reachable_inv (I : sys S L → Prop) σ0 σ : I σ0 →
  (∀ σ σ', I σ → any_step σ σ' → I σ') → reachable σ0 σ → I σ.
Proof. intros H0 Hstep. unfold reachable. induction 1; eauto. Qed.

Lemma steps_inv (I : sys S L → Prop) σ0 σ : I σ0 →
  (∀ σ σ', I σ → any_step σ σ' → I σ') → rtc step σ0 σ → I σ.
Proof. intros H0 Hstep. induction 1 as [|σ1 σ2 σ3 H12 _ IH]; [done|]. apply IH. eapply Hstep; [done|by left]. Qed.

(** Termination by three numbers, the first one weighing most. *)
Definition lex_lt (p q : nat * nat * nat) : Prop :=
  p.1.1 < q.1.1 ∨ p.1.1 = q.1.1 ∧ (p.1.2 < q.1.2 ∨ p.1.2 = q.1.2 ∧ p.2 < q.2).

Lemma lex_lt_wf : well_founded lex_lt.
Proof.
  intros [[a b] c]. revert b c. induction (lt_wf a) as [a _ IHa]. intros b. induction (lt_wf b) as [b _ IHb].
  intros c. induction (lt_wf c) as [c _ IHc]. constructor. intros [[a' b'] c']. unfold lex_lt. cbn.
  intros [?|[-> [?|[-> ?]]]]; eauto.
Qed.

Lemma sn_by (I : sys S L → Prop) (μ : sys S L → nat * nat * nat) σ :
  (∀ σ σ', I σ → step σ σ' → I σ' ∧ lex_lt (μ σ') (μ σ)) → I σ → sn step σ.
Proof.
  intros Hstep. remember (μ σ) as m eqn:Hm. revert σ Hm. induction (lex_lt_wf m) as [m _ IH].
  intros σ -> HI. constructor. intros σ' Hσ'. destruct (Hstep σ σ' HI Hσ') as [HI' Hlt]. by eapply IH.
Qed.
End steps.

(** ** Sums over the threads *)
Section total.
Context {L : Type}.
Implicit Types (w : L → nat) (P : L → bool) (ths : list L) (l : L).

Definition total w ths : nat := sum_list_with w ths.
Definition count P ths : nat := total (λ l, Nat.b2n (P l)) ths.

Lemma total_insert w ths t l l' : ths !! t = Some l → total w (<[t := l']> ths) + w l = total w ths + w l'.
Proof.
  unfold total. revert t. induction ths as [|m ths IH]; intros [|t] Hl; simplify_eq/=; [lia|].
  pose proof (IH t Hl). lia.
Qed.

Lemma total_in w ths t l : ths !! t = Some l → w l ≤ total w ths.
Proof.
  unfold total. revert t. induction ths as [|m ths IH]; intros [|t] Hl; simplify_eq/=; [lia|].
  pose proof (IH t Hl). lia.
Qed.

Lemma total_le w w' ths : (∀ l, w l ≤ w' l) → total w ths ≤ total w' ths.
Proof. unfold total. intros H. induction ths as [|m ths IH]; simpl; [lia|]. pose proof (H m). lia. Qed.

Lemma total_fmap w g ths : total w (g <$> ths) = total (λ l, w (g l)) ths.
Proof. unfold total. induction ths as [|m ths IH]; [done|]. rewrite fmap_cons. cbn [sum_list_with]. by rewrite IH. Qed.

Lemma total_ext w w' ths : (∀ l, w l = w' l) → total w ths = total w' ths.
Proof. intros H. unfold total. induction ths as [|m ths IH]; simpl; [done|]. by rewrite IH, H. Qed.

Lemma count_insert P ths t l l' : ths !! t = Some l →
  count P (<[t := l']> ths) + Nat.b2n (P l) = count P ths + Nat.b2n (P l').
Proof. apply total_insert. Qed.

Lemma count_in P ths t l : ths !! t = Some l → P l = true → 0 < count P ths.
Proof.
  intros Hl HP. pose proof (total_in (λ l, Nat.b2n (P l)) ths t l Hl) as H. unfold count.
  cbv beta in H. rewrite HP in H. simpl in H. lia.
Qed.

Lemma count_pos P ths : 0 < count P ths → ∃ t l, ths !! t = Some l ∧ P l = true.
Proof.
  unfold count, total. induction ths as [|m ths IH]; simpl; [lia|]. destruct (P m) eqn:Hm.
  - intros _. by exists 0, m.
  - simpl. intros (t&l&?&?)%IH. by exists (S t), l.
Qed.

Lemma count_zero P ths : count P ths = 0 → Forall (λ l, P l = false) ths.
Proof.
  unfold count, total. induction ths as [|m ths IH]; simpl; [constructor|]. intros H.
  constructor; [destruct (P m); simpl in *; [lia|done]|apply IH; lia].
Qed.
End total.

#[global] Arguments total : simpl never.
#[global] Arguments count : simpl never.
