(* ===== verification/FutexMutex.v ===== *)
(** The futex mutex: [std/src/sys/sync/mutex/futex.rs]. *)

From S2P Require Import Prelude.
From S2P Require Import Threads.

Inductive State := UNLOCKED | LOCKED | CONTENDED.

#[global] Instance State_eq_dec : EqDecision State.
Proof. solve_decision. Defined.

(** Where a thread is.  [Holding] is a thread that has locked the mutex and has not
    called [unlock] yet. *)
Inductive point :=
  | Idle
  | TryLock                               (* [try_lock] *)
  | Lock                                  (* [lock], before its [compare_exchange] *)
  | Spin (again : bool) (spin : nat)      (* [spin], called before the loop or in it *)
  | LockUnlocked                          (* the [compare_exchange] of [lock_contended] *)
  | Swap                                  (* [swap(CONTENDED)] *)
  | Wait                                  (* [futex_wait(CONTENDED)] *)
  | Asleep
  | Holding
  | WakeOne.                              (* [wake] *)

(** The loop of [lock_contended] with [state]. *)
Definition lock_loop (state : State) : point := match state with CONTENDED => Wait | _ => Swap end.

(** After [spin] has returned [state]. *)
Definition after_spin (again : bool) (state : State) : point :=
  match again, state with false, UNLOCKED => LockUnlocked | _, _ => lock_loop state end.

Definition mutex_run (futex : State) (p : point) : option (State * request point ()) :=
  match p with
  | Idle | Asleep => None
  | TryLock => Some (if decide (futex = UNLOCKED) then (LOCKED, Go Holding) else (futex, Go Idle))
  | Lock => Some (if decide (futex = UNLOCKED) then (LOCKED, Go Holding) else (futex, Go (Spin false 100)))
  | Spin again spin =>
      Some (futex, Go (if decide (futex = LOCKED)
                       then match spin with O => after_spin again futex | S spin => Spin again spin end
                       else after_spin again futex))
  | LockUnlocked => Some (if decide (futex = UNLOCKED) then (LOCKED, Go Holding) else (futex, Go (lock_loop futex)))
  | Swap => Some (CONTENDED, Go (if decide (futex = UNLOCKED) then Holding else Wait))
  | Wait => Some (futex, Go (if decide (futex = CONTENDED) then Asleep else Spin true 100))
  | Holding => Some (UNLOCKED, Go (if decide (futex = CONTENDED) then WakeOne else Idle))
  | WakeOne => Some (futex, Wake () (λ _, Idle))
  end.

#[global] Instance mutex : Threaded State point () := {
  run_thread := λ _, mutex_run;
  asleep_on p := match p with Asleep => Some () | _ => None end;
  woken p := match p with Asleep => Spin true 100 | p => p end;
  calls p := match p with Idle => [TryLock; Lock] | _ => [] end;
}.

(** [Mutex::new], and [n] threads that do not use it yet. *)
Definition new (n : nat) : sys State point := Sys UNLOCKED (replicate n Idle).

(** ** The invariant *)
Definition holding p : bool := match p with Holding => true | _ => false end.
Definition sleeping p : bool := match p with Asleep => true | _ => false end.
(** Threads that will see to it that a sleeping thread is woken: one that is about
    to wake one, and those that will write [CONTENDED]. *)
Definition responsible p : bool := match p with WakeOne | Spin true _ | Swap | Wait => true | _ => false end.

Definition locked (s : State) : nat := match s with UNLOCKED => 0 | _ => 1 end.
Definition contended (s : State) : nat := match s with CONTENDED => 1 | _ => 0 end.

Record mutex_ok (σ : sys State point) : Prop := MutexOk {
  ok_holding : count holding (threads σ) = locked (shared σ);
  ok_sleeping : 0 < count sleeping (threads σ) → 0 < contended (shared σ) + count responsible (threads σ);
}.

Lemma mutex_ok_new n : mutex_ok (new n).
Proof.
  assert (∀ P : point → bool, P Idle = false → count P (replicate n Idle) = 0) as H0.
  { intros P HP. unfold count, total. induction n as [|n IH]; simpl; [done|]. by rewrite HP. }
  split; unfold new; cbn [shared threads]; rewrite !H0 by done; [done|lia].
Qed.

(** The counts after a change of one thread. *)
Ltac counts Hl l' :=
  pose proof (count_insert holding _ _ _ l' Hl); pose proof (count_insert sleeping _ _ _ l' Hl);
  pose proof (count_insert responsible _ _ _ l' Hl).

Lemma mutex_ok_step σ σ' : mutex_ok σ → any_step σ σ' → mutex_ok σ'.
Proof.
  destruct σ as [s ths]. intros [Hh Hs] [Hst|Hst]; cbn [shared threads] in *.
  - destruct Hst as [t c l s' l' Hl Hr|t c l s' f k u m Hl Hr Hu Hm|t c l s' f k Hl Hr Hno|t c l s' f l' Hl Hr];
      cbn [shared threads] in *; pose proof (count_in holding _ _ _ Hl) as Hin.
    + counts Hl l'.
      destruct l as [| | |again spin| | | | | |]; cbn in Hr; try done; destruct s; repeat case_decide; simplify_eq/=;
        try (split; cbn in *; lia).
      * destruct again; split; cbn in *; lia.
      * destruct spin, again; split; cbn in *; lia.
      * destruct again; split; cbn in *; lia.
    + destruct l; cbn in Hr; try done; repeat case_decide; simplify_eq/=. destruct m; try done.
      assert (t ≠ u) as Htu by congruence. assert (<[u := Spin true 100]> ths !! t = Some WakeOne) as Hl' by by rewrite list_lookup_insert_ne.
      counts Hu (Spin true 100). counts Hl' Idle. cbn in *. split; cbn; lia.
    + destruct l; cbn in Hr; try done; repeat case_decide; simplify_eq/=.
      counts Hl Idle. cbn in *. assert (count sleeping ths = 0) as Hz.
      { destruct (Nat.eq_0_gt_0_cases (count sleeping ths)) as [|Hpos]; [done|]. exfalso.
        destruct (count_pos _ _ Hpos) as (u&m&Hm&Hsl). apply (Hno m); [by eapply list_elem_of_lookup_2|by destruct m]. }
      split; cbn; lia.
    + destruct l; cbn in Hr; repeat case_decide; simplify_eq/=.
  - destruct Hst as [t l l' Hl Hc|t l f Hl Hf]; cbn [shared threads] in *.
    + counts Hl l'. destruct l; cbn in Hc; set_unfold; destruct_or?; subst; try done; cbn in *; split; cbn; lia.
    + destruct l; try done. counts Hl (Spin true 100). cbn in *. split; cbn; lia.
Qed.

Lemma mutex_ok_reachable n σ : reachable (new n) σ → mutex_ok σ.
Proof. apply reachable_inv; [apply mutex_ok_new|intros; by eapply mutex_ok_step]. Qed.

(** ** Termination *)
(** Threads that have still to unlock or to give up; threads about to wake one; and
    how far each thread can go while the mutex is not unlocked: it sees the state
    change at most once, to [CONTENDED]. *)
Definition busy p : bool := match p with Idle | WakeOne => false | _ => true end.
Definition waker p : bool := match p with WakeOne => true | _ => false end.
Definition rank (s : State) p : nat :=
  match p with
  | Idle | Asleep | Holding | WakeOne => 0
  | Wait => match s with CONTENDED => 1 | _ => 300 end
  | TryLock => 1
  | Swap => 2
  | LockUnlocked => 3
  | Spin _ spin => 4 + spin
  | Lock => 200
  end.
Definition mutex_measure (σ : sys State point) : nat * nat * nat :=
  (count busy (threads σ), count waker (threads σ), total (rank (shared σ)) (threads σ)).

Lemma rank_contended s ths : total (rank CONTENDED) ths ≤ total (rank s) ths.
Proof. apply total_le. intros []; cbn; try lia. destruct s; lia. Qed.

Lemma rank_locked ths : total (rank LOCKED) ths = total (rank UNLOCKED) ths.
Proof. apply total_ext. by intros []. Qed.

Lemma mutex_step_less σ σ' : step σ σ' → lex_lt (mutex_measure σ') (mutex_measure σ).
Proof.
  destruct σ as [s ths]. unfold lex_lt, mutex_measure. intros Hst.
  destruct Hst as [t c l s' l' Hl Hr|t c l s' f k u m Hl Hr Hu Hm|t c l s' f k Hl Hr Hno|t c l s' f l' Hl Hr];
    cbn [shared threads fst snd] in *.
  - pose proof (count_insert busy _ _ _ l' Hl). pose proof (count_insert waker _ _ _ l' Hl).
    pose proof (total_insert (rank s') _ _ _ l' Hl). pose proof (rank_contended s ths). pose proof (rank_locked ths).
    destruct l as [| | |again spin| | | | | |]; cbn in Hr; try done; destruct s; repeat case_decide; simplify_eq/=;
      try lia; try (destruct again; cbn in *; lia).
    destruct spin, again; cbn in *; lia.
  - destruct l; cbn in Hr; try done; repeat case_decide; simplify_eq/=. destruct m; try done.
    assert (t ≠ u) as Htu by congruence. assert (<[u := Spin true 100]> ths !! t = Some WakeOne) as Hl' by by rewrite list_lookup_insert_ne.
    pose proof (count_insert busy _ _ _ (Spin true 100) Hu). pose proof (count_insert busy _ _ _ Idle Hl').
    pose proof (count_insert waker _ _ _ (Spin true 100) Hu). pose proof (count_insert waker _ _ _ Idle Hl').
    cbn in *. lia.
  - destruct l; cbn in Hr; try done; repeat case_decide; simplify_eq/=.
    pose proof (count_insert busy _ _ _ Idle Hl). pose proof (count_insert waker _ _ _ Idle Hl). cbn in *. lia.
  - destruct l; cbn in Hr; repeat case_decide; simplify_eq/=.
Qed.

Lemma mutex_terminates σ : sn step σ.
Proof. apply (sn_by (λ _, True) mutex_measure); [|done]. intros σ1 σ2 _ Hst. split; [done|by apply mutex_step_less]. Qed.

Lemma mutex_can_run s p : p = Idle ∨ p = Asleep ∨ p = WakeOne ∨ ∃ s' l', mutex_run s p = Some (s', Go l').
Proof. destruct p; cbn; eauto 6; repeat case_decide; eauto 6. Qed.

(** Only a mutex that nobody uses has no step left. *)
Lemma mutex_stuck σ : mutex_ok σ → (∀ σ', ¬ step σ σ') → Forall (λ p, p = Idle) (threads σ).
Proof.
  destruct σ as [s ths]. intros [Hh Hs] Hstuck. cbn [shared threads] in *.
  assert (∀ t p, ths !! t = Some p → p = Idle ∨ p = Asleep) as Hp.
  { intros t p Hl. destruct (mutex_can_run s p) as [-> | [-> | [-> | (s'&l'&Hr)]]]; auto; exfalso;
      [|by eapply Hstuck, (step_go _ t true)].
    destruct (decide (Exists (λ m, asleep_on m = Some ()) ths)) as [Hex|Hno].
    - apply Exists_exists in Hex as (m&Hm&Hm'). apply list_elem_of_lookup in Hm as [u Hu].
      by eapply Hstuck, (step_wake _ t true).
    - eapply Hstuck, (step_wake_none _ t true); [exact Hl|reflexivity|]. intros m Hm Hm'. apply Hno, Exists_exists. eauto. }
  apply Forall_lookup. intros t p Hl. destruct (Hp t p Hl) as [ | -> ]; [done|]. exfalso.
  pose proof (count_in sleeping ths t Asleep Hl eq_refl) as Hsl. specialize (Hs Hsl).
  assert (count responsible ths = 0) as Hz.
  { destruct (Nat.eq_0_gt_0_cases (count responsible ths)) as [|Hpos]; [done|].
    destruct (count_pos _ _ Hpos) as (u&q&Hq&Hr). by destruct (Hp u q Hq) as [->| ->]. }
  destruct s; cbn in *; try lia. destruct (count_pos holding ths) as (u&q&Hq&Hr); [lia|].
  by destruct (Hp u q Hq) as [->| ->].
Qed.

(** ** Properties *)
(** C21: mutual exclusion.  However the threads interleave, whatever calls they
    make and whenever [futex_wait] returns without a reason, at most one thread
    holds the mutex, and it is unlocked exactly when no thread does. *)
Theorem mutex_exclusion (n : nat) (σ : sys State point) : reachable (new n) σ →
  (∀ t u, threads σ !! t = Some Holding → threads σ !! u = Some Holding → t = u) ∧
  (shared σ = UNLOCKED ↔ ∀ t, threads σ !! t ≠ Some Holding).
Proof.
  intros [Hh _]%mutex_ok_reachable. split.
  - intros t u Ht Hu. destruct (decide (t = u)) as [|Hne]; [done|exfalso].
    pose proof (count_insert holding _ _ _ Idle Ht) as H1. cbn in H1.
    assert (<[t := Idle]> (threads σ) !! u = Some Holding) as Hu' by by rewrite list_lookup_insert_ne.
    pose proof (count_in holding _ _ _ Hu' eq_refl). unfold locked in Hh. destruct (shared σ); lia.
  - split.
    + intros Hs t Ht. pose proof (count_in holding _ _ _ Ht eq_refl). rewrite Hs in Hh. cbn in Hh. lia.
    + intros Hno. destruct (Nat.eq_0_gt_0_cases (count holding (threads σ))) as [Hz|Hpos].
      * by destruct (shared σ); cbn in Hh; [|lia..].
      * destruct (count_pos _ _ Hpos) as (u&p&Hu&Hp). destruct p; try done. by apply Hno in Hu.
Qed.

Lemma mutex_exclusion_witness : let σ := Sys LOCKED [Holding; Lock] in
  (∀ t u, threads σ !! t = Some Holding → threads σ !! u = Some Holding → t = u) ∧
  (shared σ = UNLOCKED ↔ ∀ t, threads σ !! t ≠ Some Holding).
Proof.
  apply (mutex_exclusion 2).
  eapply rtc_l; [right; apply (step_call _ 0 Idle Lock); [reflexivity|set_solver]|].
  eapply rtc_l; [right; apply (step_call _ 1 Idle Lock); [reflexivity|set_solver]|].
  eapply rtc_l; [left; by apply (step_go _ 0 true Lock LOCKED Holding)|]. apply rtc_refl.
Defined.

(** C22: every call of [lock] returns.  When no further calls are made, threads
    that hold the mutex unlock it and [futex_wait] returns only when woken, every
    run comes to an end, whatever the scheduler does, and then no thread waits: no
    wake-up is ever lost. *)
Theorem mutex_no_lost_wakeup (n : nat) (σ : sys State point) : reachable (new n) σ →
  sn step σ ∧
  ∀ σ', rtc step σ σ' → (∀ σ'', ¬ step σ' σ'') → Forall (λ p, p = Idle) (threads σ') ∧ shared σ' = UNLOCKED.
Proof.
  intros Hσ. split; [apply mutex_terminates|]. intros σ' Hrun Hstuck.
  assert (mutex_ok σ') as Hok.
  { apply (steps_inv mutex_ok σ); [by eapply mutex_ok_reachable|intros; by eapply mutex_ok_step|done]. }
  pose proof (mutex_stuck σ' Hok Hstuck) as Hidle. split; [done|].
  destruct Hok as [Hh _]. assert (count holding (threads σ') = 0) as Hz.
  { destruct (Nat.eq_0_gt_0_cases (count holding (threads σ'))) as [|Hpos]; [done|].
    destruct (count_pos _ _ Hpos) as (u&p&Hu&Hp). rewrite Forall_lookup in Hidle. by rewrite (Hidle u p Hu) in Hp. }
  by destruct (shared σ'); cbn in Hh; [|lia..].
Qed.

(** One thread holds the mutex, another one sleeps. *)
Lemma mutex_no_lost_wakeup_witness : let σ := Sys LOCKED [Holding; Lock] in
  sn step σ ∧
  ∀ σ', rtc step σ σ' → (∀ σ'', ¬ step σ' σ'') → Forall (λ p, p = Idle) (threads σ') ∧ shared σ' = UNLOCKED.
Proof.
  apply (mutex_no_lost_wakeup 2).
  eapply rtc_l; [right; apply (step_call _ 0 Idle Lock); [reflexivity|set_solver]|].
  eapply rtc_l; [right; apply (step_call _ 1 Idle Lock); [reflexivity|set_solver]|].
  eapply rtc_l; [left; by apply (step_go _ 0 true Lock LOCKED Holding)|]. apply rtc_refl.
Defined.
