(* ===== verification/FutexRwLock.v ===== *)
(** The futex read-write lock: [std/src/sys/sync/rwlock/futex.rs]. *)

From S2P Require Import Prelude.
From S2P Require Import Threads.

#[local] Open Scope Z_scope.

(** ** The state word *)
Definition READ_LOCKED : Z := 1.
Definition MASK : Z := Z.shiftl 1 30 - 1.
Definition WRITE_LOCKED : Z := MASK.
Definition wrapping_u32 (x : Z) : Z := x mod 2 ^ 32.
Definition DOWNGRADE : Z := wrapping_u32 (READ_LOCKED - WRITE_LOCKED).
Definition MAX_READERS : Z := MASK - 1.
Definition READERS_WAITING : Z := Z.shiftl 1 30.
Definition WRITERS_WAITING : Z := Z.shiftl 1 31.

Definition is_unlocked (state : Z) : bool := Z.land state MASK =? 0.
Definition is_write_locked (state : Z) : bool := Z.land state MASK =? WRITE_LOCKED.
Definition has_readers_waiting (state : Z) : bool := negb (Z.land state READERS_WAITING =? 0).
Definition has_writers_waiting (state : Z) : bool := negb (Z.land state WRITERS_WAITING =? 0).
Definition is_read_lockable (state : Z) : bool :=
  (Z.land state MASK <? MAX_READERS) && negb (has_readers_waiting state) && negb (has_writers_waiting state).
Definition is_read_lockable_after_wakeup (state : Z) : bool :=
  (Z.land state MASK <? MAX_READERS) && negb (has_readers_waiting state) &&
  negb (is_write_locked state) && negb (is_unlocked state).
Definition has_reached_max_readers (state : Z) : bool := Z.land state MASK =? MAX_READERS.

(** The shared memory; [notifications] counts the increments of [writer_notify]. *)
Record RwLock := MkRwLock { state : Z; writer_notify : Z; notifications : Z }.
Definition set_state (s : Z) (m : RwLock) : RwLock := MkRwLock s (writer_notify m) (notifications m).

(** The two futexes. *)
Inductive futex := StateFutex | NotifyFutex.
#[global] Instance futex_eq_dec : EqDecision futex.
Proof. solve_decision. Defined.

(** ** The threads *)
(** Where a thread is, with its local variables.  [Reading] and [Writing] hold the
    lock; [Panicked] is a reader that found too many readers, [Failed] a thread
    whose assertion does not hold. *)
Inductive point :=
  | Idle | Panicked | Failed
  | TryRead | TryReadCas (s : Z)
  | Read | ReadCas (s : Z)
  | ReadSpin (has_slept : bool) (spin : nat) | ReadLoopCas (has_slept : bool) (s : Z)
  | ReadSetWaiting (has_slept : bool) (s : Z) | ReadWait (s : Z) | ReadAsleep
  | Reading
  | TryWrite | TryWriteCas (s : Z)
  | Write | WriteSpin (other_writers_waiting : Z) (spin : nat) | WriteCas (other_writers_waiting s : Z)
  | WriteSetWaiting (other_writers_waiting s : Z) | WriteSeq | WriteCheck (seq : Z) | WriteWait (seq : Z) | WriteAsleep
  | Writing
  | DowngradeClear | DowngradeWake
  | WakeWriters | WakeBoth | Notify (both : bool) | WakeWriter (both : bool) | WakeReaders | WakeAllReaders.

(** The loop of [fetch_update] *)
Definition try_read_loop (s : Z) : point := if is_read_lockable s then TryReadCas s else Idle.
Definition try_write_loop (s : Z) : point := if is_unlocked s then TryWriteCas s else Idle.

(** The loop of [read_contended] *)
Definition read_loop (has_slept : bool) (s : Z) : point :=
  if (has_slept && is_read_lockable_after_wakeup s) || is_read_lockable s then ReadLoopCas has_slept s
  else if has_reached_max_readers s then Panicked
  else if negb (has_readers_waiting s) then ReadSetWaiting has_slept s
  else ReadWait s.

(** The loop of [write_contended] *)
Definition write_loop (other_writers_waiting s : Z) : point :=
  if is_unlocked s then WriteCas other_writers_waiting s
  else if negb (has_writers_waiting s) then WriteSetWaiting other_writers_waiting s
  else WriteSeq.

(** [wake_writer_or_readers], from its second and third [if], and from the start. *)
Definition wake_readers (s : Z) : point := if s =? READERS_WAITING then WakeReaders else Idle.
Definition wake_both (s : Z) : point := if s =? READERS_WAITING + WRITERS_WAITING then WakeBoth else wake_readers s.
Definition wake_writer_or_readers (s : Z) : point :=
  if negb (is_unlocked s) then Failed else if s =? WRITERS_WAITING then WakeWriters else wake_both s.

(** [spin_until]: go on spinning, or leave the loop with the state. *)
Definition spin_until (f : Z → bool) (spin : nat) (s : Z) (again : nat → point) (done : Z → point) : point :=
  if f s then done s else match spin with O => done s | S spin => again spin end.
Definition spin_read (has_slept : bool) (spin : nat) (s : Z) : point :=
  spin_until (λ s, negb (is_write_locked s) || has_readers_waiting s || has_writers_waiting s) spin s
    (ReadSpin has_slept) (read_loop has_slept).
Definition spin_write (other_writers_waiting : Z) (spin : nat) (s : Z) : point :=
  spin_until (λ s, is_unlocked s || has_writers_waiting s) spin s
    (WriteSpin other_writers_waiting) (write_loop other_writers_waiting).

(** [compare_exchange], and the weak one, which may fail for no reason ([c]). *)
Definition compare_exchange (m : RwLock) (expected new : Z) (ok : point) (err : Z → point) : RwLock * request point futex :=
  if state m =? expected then (set_state new m, Go ok) else (m, Go (err (state m))).
Definition compare_exchange_weak (c : bool) (m : RwLock) (expected new : Z) (ok : point) (err : Z → point) :=
  if c then compare_exchange m expected new ok err else (m, Go (err (state m))).

(** [try_read], [read], [read_contended] and [read_unlock] *)
Definition readers_run (c : bool) (m : RwLock) (p : point) : option (RwLock * request point futex) :=
  let s := state m in
  match p with
  | TryRead => Some (m, Go (try_read_loop s))
  | TryReadCas s => Some (compare_exchange_weak c m s (s + READ_LOCKED) Reading try_read_loop)
  | Read => Some (m, Go (if is_read_lockable s then ReadCas s else ReadSpin false 100))
  | ReadCas s => Some (compare_exchange_weak c m s (s + READ_LOCKED) Reading (λ _, ReadSpin false 100))
  | ReadSpin has_slept spin => Some (m, Go (spin_read has_slept spin s))
  | ReadLoopCas has_slept s => Some (compare_exchange_weak c m s (s + READ_LOCKED) Reading (read_loop has_slept))
  | ReadSetWaiting has_slept s =>
      Some (compare_exchange m s (Z.lor s READERS_WAITING) (ReadWait s) (read_loop has_slept))
  | ReadWait s' => Some (m, Go (if s =? Z.lor s' READERS_WAITING then ReadAsleep else ReadSpin true 100))
  | Reading =>
      let s := wrapping_u32 (s - READ_LOCKED) in
      Some (set_state s m, Go (
        if has_readers_waiting s && negb (has_writers_waiting s) then Failed
        else if is_unlocked s && has_writers_waiting s then wake_writer_or_readers s else Idle))
  | _ => None
  end.

(** [try_write], [write], [write_contended], and [write_unlock] or [downgrade] *)
Definition writers_run (c : bool) (m : RwLock) (p : point) : option (RwLock * request point futex) :=
  let s := state m in
  match p with
  | TryWrite => Some (m, Go (try_write_loop s))
  | TryWriteCas s => Some (compare_exchange_weak c m s (s + WRITE_LOCKED) Writing try_write_loop)
  | Write => Some (compare_exchange_weak c m 0 WRITE_LOCKED Writing (λ _, WriteSpin 0 100))
  | WriteSpin other spin => Some (m, Go (spin_write other spin s))
  | WriteCas other s => Some (compare_exchange_weak c m s (Z.lor (Z.lor s WRITE_LOCKED) other) Writing (write_loop other))
  | WriteSetWaiting other s => Some (compare_exchange m s (Z.lor s WRITERS_WAITING) WriteSeq (write_loop other))
  | WriteSeq => Some (m, Go (WriteCheck (writer_notify m)))
  | WriteCheck seq =>
      Some (m, Go (if is_unlocked s || negb (has_writers_waiting s) then write_loop WRITERS_WAITING s else WriteWait seq))
  | WriteWait seq => Some (m, Go (if writer_notify m =? seq then WriteAsleep else WriteSpin WRITERS_WAITING 100))
  | Writing =>
      if c then
        let s := wrapping_u32 (s - WRITE_LOCKED) in
        Some (set_state s m, Go (
          if negb (is_unlocked s) then Failed
          else if has_writers_waiting s || has_readers_waiting s then wake_writer_or_readers s else Idle))
      else
        Some (set_state (wrapping_u32 (s + DOWNGRADE)) m, Go (
          if negb (is_write_locked s) then Failed
          else if has_readers_waiting s then DowngradeClear else Reading))
  | DowngradeClear => Some (set_state (wrapping_u32 (s - READERS_WAITING)) m, Go DowngradeWake)
  | DowngradeWake => Some (m, WakeAll StateFutex Reading)
  | _ => None
  end.

(** [wake_writer_or_readers] and [wake_writer] *)
Definition wake_run (m : RwLock) (p : point) : option (RwLock * request point futex) :=
  match p with
  | WakeWriters => Some (compare_exchange m WRITERS_WAITING 0 (Notify false) wake_both)
  | WakeBoth => Some (compare_exchange m (READERS_WAITING + WRITERS_WAITING) READERS_WAITING (Notify true) (λ _, Idle))
  | Notify both =>
      Some (MkRwLock (state m) (wrapping_u32 (writer_notify m + 1)) (notifications m + 1), Go (WakeWriter both))
  | WakeWriter both =>
      Some (m, Wake NotifyFutex (λ woke, if both && negb woke then wake_readers READERS_WAITING else Idle))
  | WakeReaders => Some (compare_exchange m READERS_WAITING 0 WakeAllReaders (λ _, Idle))
  | WakeAllReaders => Some (m, WakeAll StateFutex Idle)
  | _ => None
  end.

Definition rwlock_run (c : bool) (m : RwLock) (p : point) : option (RwLock * request point futex) :=
  match readers_run c m p with
  | Some r => Some r
  | None => match writers_run c m p with Some r => Some r | None => wake_run m p end
  end.

#[global] Instance rwlock : Threaded RwLock point futex := {
  run_thread := rwlock_run;
  asleep_on p := match p with ReadAsleep => Some StateFutex | WriteAsleep => Some NotifyFutex | _ => None end;
  woken p := match p with ReadAsleep => ReadSpin true 100 | WriteAsleep => WriteSpin WRITERS_WAITING 100 | p => p end;
  calls p := match p with Idle => [TryRead; Read; TryWrite; Write] | _ => [] end;
}.

(** [RwLock::new], and [n] threads that do not use it yet. *)
Definition new (n : nat) : sys RwLock point := Sys (MkRwLock 0 0 0) (replicate n Idle).
