(* ===== verification/RwLockSpec.v ===== *)
(** The invariant of the futex read-write lock. *)

From S2P Require Import Prelude.
From S2P Require Import Threads.
From S2P Require Import Words.
From S2P Require Import FutexRwLock.

#[local] Open Scope Z_scope.

Lemma land_bit x k : 0 ≤ k → Z.land x (2 ^ k) = if Z.testbit x k then 2 ^ k else 0.
Proof.
  intros Hk. apply Z.bits_inj'. intros i Hi. rewrite Z.land_spec, Z.pow2_bits_eqb by done.
  destruct (Z.eqb_spec k i) as [->|Hne].
  - rewrite andb_true_r. destruct (Z.testbit x i); [by rewrite Z.pow2_bits_true|by rewrite Z.bits_0].
  - rewrite andb_false_r. destruct (Z.testbit x k); [by rewrite Z.pow2_bits_false|by rewrite Z.bits_0].
Qed.

Lemma lor_bit x k : 0 ≤ k → Z.lor x (2 ^ k) = if Z.testbit x k then x else x + 2 ^ k.
Proof.
  intros Hk. pose proof (Z.add_lor_land x (2 ^ k)) as H. rewrite land_bit in H by done.
  destruct (Z.testbit x k); lia.
Qed.

(** ** The state word: a count and two flags *)
Definition word (n : Z) (r w : bool) : Z := n + (if r then 2 ^ 30 else 0) + (if w then 2 ^ 31 else 0).

Section word.
Context (n : Z) (r w : bool) (Hn : 0 ≤ n < 2 ^ 30).

Lemma word_mask : Z.land (word n r w) MASK = n.
Proof using Hn.
  change MASK with (2 ^ 30 - 1). rewrite land_low by done. unfold word.
  destruct r, w; [replace (n + 2 ^ 30 + 2 ^ 31) with (n + 3 * 2 ^ 30) by lia|replace (n + 2 ^ 30 + 0) with (n + 1 * 2 ^ 30) by lia|
    replace (n + 0 + 2 ^ 31) with (n + 2 * 2 ^ 30) by lia|replace (n + 0 + 0) with (n + 0 * 2 ^ 30) by lia];
    rewrite Z.mod_add by done; by apply Z.mod_small.
Qed.

Lemma word_bit30 : Z.testbit (word n r w) 30 = r.
Proof using Hn.
  apply Bool.eq_iff_eq_true. rewrite Z.testbit_true by done. unfold word.
  destruct r, w; split; intros H; (done || dlia).
Qed.

Lemma word_bit31 : Z.testbit (word n r w) 31 = w.
Proof using Hn.
  apply Bool.eq_iff_eq_true. rewrite Z.testbit_true by done. unfold word.
  destruct r, w; split; intros H; (done || dlia).
Qed.

Lemma word_unlocked : is_unlocked (word n r w) = (n =? 0).
Proof using Hn. unfold is_unlocked. by rewrite word_mask. Qed.
Lemma word_write_locked : is_write_locked (word n r w) = (n =? MASK).
Proof using Hn. unfold is_write_locked. by rewrite word_mask. Qed.
Lemma word_max : has_reached_max_readers (word n r w) = (n =? MAX_READERS).
Proof using Hn. unfold has_reached_max_readers. by rewrite word_mask. Qed.
Lemma word_readers : has_readers_waiting (word n r w) = r.
Proof using Hn.
  unfold has_readers_waiting. change READERS_WAITING with (2 ^ 30). rewrite land_bit, word_bit30 by done. by destruct r.
Qed.
Lemma word_writers : has_writers_waiting (word n r w) = w.
Proof using Hn.
  unfold has_writers_waiting. change WRITERS_WAITING with (2 ^ 31). rewrite land_bit, word_bit31 by done. by destruct w.
Qed.
Lemma word_lockable : is_read_lockable (word n r w) = (n <? MAX_READERS) && negb r && negb w.
Proof using Hn. unfold is_read_lockable. by rewrite word_mask, word_readers, word_writers. Qed.
Lemma word_lockable_after : is_read_lockable_after_wakeup (word n r w) =
  (n <? MAX_READERS) && negb r && negb (n =? MASK) && negb (n =? 0).
Proof using Hn. unfold is_read_lockable_after_wakeup. by rewrite word_mask, word_readers, word_write_locked, word_unlocked. Qed.

Lemma word_set_readers : Z.lor (word n r w) READERS_WAITING = word n true w.
Proof using Hn.
  change READERS_WAITING with (2 ^ 30). rewrite lor_bit, word_bit30 by done. unfold word. destruct r; lia.
Qed.
Lemma word_set_writers : Z.lor (word n r w) WRITERS_WAITING = word n r true.
Proof using Hn.
  change WRITERS_WAITING with (2 ^ 31). rewrite lor_bit, word_bit31 by done. unfold word. destruct w; lia.
Qed.
End word.

Lemma word_write_lock r w : Z.lor (word 0 r w) WRITE_LOCKED = word MASK r w.
Proof.
  pose proof (Z.add_lor_land (word 0 r w) WRITE_LOCKED) as H. unfold WRITE_LOCKED in H.
  rewrite word_mask in H by done. change WRITE_LOCKED with MASK. unfold word in *. lia.
Qed.

Lemma word_inj n r w n' r' w' : 0 ≤ n < 2 ^ 30 → 0 ≤ n' < 2 ^ 30 →
  word n r w = word n' r' w' → n = n' ∧ r = r' ∧ w = w'.
Proof. unfold word. destruct r, w, r', w'; intros; split_and!; (done || lia). Qed.

(** The constants *)
Lemma word_0 : 0 = word 0 false false. Proof. done. Qed.
Lemma word_rw : READERS_WAITING = word 0 true false. Proof. done. Qed.
Lemma word_ww : WRITERS_WAITING = word 0 false true. Proof. done. Qed.
Lemma word_rww : READERS_WAITING + WRITERS_WAITING = word 0 true true. Proof. done. Qed.

Lemma word_eqb n r w n' r' w' : 0 ≤ n < 2 ^ 30 → 0 ≤ n' < 2 ^ 30 →
  (word n r w =? word n' r' w') = (n =? n') && Bool.eqb r r' && Bool.eqb w w'.
Proof.
  intros Hn Hn'. destruct (Z.eqb_spec (word n r w) (word n' r' w')) as [Heq|Hne].
  - apply word_inj in Heq as (->&->&->); [|done..]. by rewrite Z.eqb_refl, !Bool.eqb_reflx.
  - symmetry. rewrite !andb_false_iff, Z.eqb_neq, !Bool.eqb_false_iff.
    destruct (decide (n = n')) as [->|]; [|by left; left]. destruct (decide (r = r')) as [->|]; [|by left; right].
    right. by intros ->.
Qed.

(** Adding and taking away. *)
Lemma word_add n k r w : word n r w + k = word (n + k) r w.
Proof. unfold word. lia. Qed.

Lemma word_wrap n r w : 0 ≤ n < 2 ^ 30 → wrapping_u32 (word n r w) = word n r w.
Proof. intros Hn. unfold wrapping_u32. apply Z.mod_small. unfold word. destruct r, w; lia. Qed.

Lemma word_downgrade r w : wrapping_u32 (word MASK r w + DOWNGRADE) = word 1 r w.
Proof. by destruct r, w. Qed.

Lemma word_clear_readers n w : word n true w - READERS_WAITING = word n false w.
Proof. change READERS_WAITING with (2 ^ 30). unfold word. lia. Qed.

#[global] Opaque word.

(** What the tests say of a decoded word. *)
Ltac tests := rewrite ?word_unlocked, ?word_write_locked, ?word_max, ?word_readers, ?word_writers,
  ?word_lockable, ?word_lockable_after in * by lia.

(** ** What a thread knows *)
(** A state that the thread has loaded is a word, and [P] held of it. *)
Definition seen (s : Z) (P : Z → bool → bool → Prop) : Prop := ∃ n r w, s = word n r w ∧ 0 ≤ n < 2 ^ 30 ∧ P n r w.

Definition flag_or_zero (x : Z) : Prop := x = 0 ∨ x = WRITERS_WAITING.

Definition point_ok (p : point) : Prop :=
  match p with
  | Failed => False
  | TryReadCas s | ReadCas s => seen s (λ n r _, n < MAX_READERS ∧ r = false)
  | ReadLoopCas _ s => seen s (λ n r _, n < MAX_READERS ∧ r = false)
  | ReadSetWaiting _ s => seen s (λ n r w, r = false ∧ (w = true ∨ n = MASK))
  | ReadWait s => seen s (λ _ _ _, True)
  | TryWriteCas s => seen s (λ n _ _, n = 0)
  | WriteSpin other _ => flag_or_zero other
  | WriteCas other s => flag_or_zero other ∧ seen s (λ n _ _, n = 0)
  | WriteSetWaiting other s => flag_or_zero other ∧ seen s (λ n _ w, n ≠ 0 ∧ w = false)
  | _ => True
  end.

Definition reading p : bool := match p with Reading | DowngradeClear | DowngradeWake => true | _ => false end.
Definition writing p : bool := match p with Writing => true | _ => false end.
Definition clearing p : bool := match p with DowngradeClear => true | _ => false end.

(** A point outside the lock. *)
Definition away p : bool := negb (reading p || writing p).

(** Decides what remains about words: [n], [r] and [w] are given. *)
Ltac consts := change MAX_READERS with (2 ^ 30 - 2) in *; change WRITE_LOCKED with (2 ^ 30 - 1) in *;
  change MASK with (2 ^ 30 - 1) in *.
Ltac know := unfold seen, flag_or_zero in *; split_and?; try (by auto); try (do 3 eexists; split_and!; [reflexivity|consts; auto; lia..]).

Section points.
Context (n : Z) (r w : bool) (Hn : 0 ≤ n < 2 ^ 30).

Lemma read_loop_ok b : away (read_loop b (word n r w)) = true ∧ point_ok (read_loop b (word n r w)).
Proof using Hn.
  unfold read_loop. tests. consts.
  destruct r, w, b; repeat case_match; (split; [done|]); cbn; know.
Qed.

Lemma write_loop_ok other : flag_or_zero other →
  away (write_loop other (word n r w)) = true ∧ point_ok (write_loop other (word n r w)).
Proof using Hn.
  intros Hother. unfold write_loop. tests.
  destruct w; repeat case_match; (split; [done|]); cbn; know.
Qed.

Lemma try_read_loop_ok : away (try_read_loop (word n r w)) = true ∧ point_ok (try_read_loop (word n r w)).
Proof using Hn. unfold try_read_loop. tests. destruct r; repeat case_match; (split; [done|]); cbn; know. Qed.

Lemma try_write_loop_ok : away (try_write_loop (word n r w)) = true ∧ point_ok (try_write_loop (word n r w)).
Proof using Hn. unfold try_write_loop. tests. repeat case_match; (split; [done|]); cbn; know. Qed.

Lemma spin_read_ok b spin : away (spin_read b spin (word n r w)) = true ∧ point_ok (spin_read b spin (word n r w)).
Proof using Hn. unfold spin_read, spin_until. repeat case_match; try apply read_loop_ok; done. Qed.

Lemma spin_write_ok other spin : flag_or_zero other →
  away (spin_write other spin (word n r w)) = true ∧ point_ok (spin_write other spin (word n r w)).
Proof using Hn. intros Ho. unfold spin_write, spin_until. repeat case_match; try by apply write_loop_ok. by split. Qed.
End points.

Lemma wake_both_ok s : away (wake_both s) = true ∧ point_ok (wake_both s).
Proof. unfold wake_both, wake_readers. by repeat case_match. Qed.

Lemma wake_writer_or_readers_ok r w :
  away (wake_writer_or_readers (word 0 r w)) = true ∧ point_ok (wake_writer_or_readers (word 0 r w)).
Proof. unfold wake_writer_or_readers. tests. cbn [Z.eqb negb]. case_match; [done|]. apply wake_both_ok. Qed.

(** ** The invariant of exclusion *)
Implicit Types (ths : list point) (t u : nat) (p q : point) (m : RwLock).

Record safe (m : RwLock) (ths : list point) (n : Z) (r w : bool) : Prop := Safe {
  safe_state : state m = word n r w;
  safe_range : 0 ≤ n < 2 ^ 30;
  safe_locked : Z.of_nat (count writing ths) = 0 ∧ n = Z.of_nat (count reading ths) ∧ n ≤ MAX_READERS ∨
                Z.of_nat (count writing ths) = 1 ∧ Z.of_nat (count reading ths) = 0 ∧ n = MASK;
  safe_clearing : (0 < count clearing ths)%nat → n = 1 ∧ r = true;
  safe_waiting : 0 < n < MASK → r = true → w = true ∨ (0 < count clearing ths)%nat;
  safe_points : ∀ (t : nat) p, ths !! t = Some p → point_ok p;
}.

Lemma points_insert ths t p : (∀ (u : nat) q, ths !! u = Some q → point_ok q) → point_ok p →
  ∀ (u : nat) q, <[t := p]> ths !! u = Some q → point_ok q.
Proof. intros H Hp u q [(->&->&_)|[_ ?]]%list_lookup_insert_Some; [done|by eapply H]. Qed.

Lemma away_counts p : away p = true → reading p = false ∧ writing p = false ∧ clearing p = false.
Proof. by destruct p. Qed.

Ltac lock_counts Hl p' :=
  pose proof (count_insert reading _ _ _ p' Hl); pose proof (count_insert writing _ _ _ p' Hl);
  pose proof (count_insert clearing _ _ _ p' Hl).

(** A thread goes from outside the lock to outside the lock; the flags may change. *)
Lemma safe_flags m m' ths n r w r' w' t p p' : safe m ths n r w → ths !! t = Some p →
  away p = true → away p' = true ∧ point_ok p' → state m' = word n r' w' →
  (0 < n < MASK → r' = r ∧ w' = w ∨ w' = true ∧ (r = true → r' = true)) → safe m' (<[t := p']> ths) n r' w'.
Proof.
  intros [Hs Hn Hlk Hcl Hwt Hpt] Hl Hp [Hp' Hok] Hs' Hf. lock_counts Hl p'.
  apply away_counts in Hp as (Ep1&Ep2&Ep3), Hp' as (Eq1&Eq2&Eq3). rewrite Ep1, Ep2, Ep3, Eq1, Eq2, Eq3 in *. cbn in *.
  split; [done..|lia| | |by apply points_insert].
  - intros Hc. destruct Hcl as [-> ->]; [lia|]. split; [done|]. destruct Hf as [[-> ->]|[-> Hr]]; auto. consts. lia.
  - intros Hn' ->. destruct (Hf Hn') as [[<- ->]|[-> _]]; [|by left]. destruct (Hwt Hn' eq_refl); [by left|right; lia].
Qed.

Lemma safe_stay m ths n r w t p p' : safe m ths n r w → ths !! t = Some p →
  away p = true → away p' = true ∧ point_ok p' → safe m (<[t := p']> ths) n r w.
Proof. intros Hsafe Hl Hp Hp'. eapply safe_flags; [done..|by destruct Hsafe|by left]. Qed.

Lemma safe_read_lock m m' ths n r w t p : safe m ths n r w → ths !! t = Some p → away p = true →
  n < MAX_READERS → r = false → state m' = word (n + 1) r w → safe m' (<[t := Reading]> ths) (n + 1) r w.
Proof.
  intros [Hs Hn Hlk Hcl Hwt Hpt] Hl Hp Hmax -> Hs'. lock_counts Hl Reading.
  apply away_counts in Hp as (Ep1&Ep2&Ep3). rewrite Ep1, Ep2, Ep3 in *. cbn in *. consts.
  split; [done|lia|consts; lia| |done|by apply points_insert].
  intros Hc. destruct Hcl as [_ ?]; [lia|done].
Qed.

Lemma safe_write_lock m m' ths r w w' t p : safe m ths 0 r w → ths !! t = Some p → away p = true →
  state m' = word MASK r w' → safe m' (<[t := Writing]> ths) MASK r w'.
Proof.
  intros [Hs Hn Hlk Hcl Hwt Hpt] Hl Hp Hs'. lock_counts Hl Writing.
  apply away_counts in Hp as (Ep1&Ep2&Ep3). rewrite Ep1, Ep2, Ep3 in *. cbn in *. consts.
  split; [done|lia|consts; lia| |consts; lia|by apply points_insert].
  intros Hc. destruct Hcl as [? _]; [lia|done].
Qed.

Lemma safe_same m m' ths n r w : safe m ths n r w → state m' = state m → safe m' ths n r w.
Proof. intros [Hs Hn Hlk Hcl Hwt Hpt] Heq. split; [by rewrite Heq|done..]. Qed.

(** The two outcomes of a compare-and-exchange. *)
Lemma compare_exchange_go m e new ok err m' p : compare_exchange m e new ok err = (m', Go p) →
  state m = e ∧ m' = set_state new m ∧ p = ok ∨ state m ≠ e ∧ m' = m ∧ p = err (state m).
Proof. unfold compare_exchange. destruct (Z.eqb_spec (state m) e); intros [= <- <-]; auto. Qed.

Lemma compare_exchange_weak_go c m e new ok err m' p : compare_exchange_weak c m e new ok err = (m', Go p) →
  state m = e ∧ m' = set_state new m ∧ p = ok ∨ m' = m ∧ p = err (state m).
Proof.
  unfold compare_exchange_weak. destruct c; [|by intros [= <- <-]; right].
  intros [?|(_&?&?)]%compare_exchange_go; auto.
Qed.

(** A loaded state that the memory still holds tells about it. *)
Lemma seen_now n r w s P : word n r w = s → 0 ≤ n < 2 ^ 30 → seen s P → P n r w.
Proof. intros Heq Hn (n'&r'&w'&Hs&Hn'&HP). rewrite Hs in Heq. by apply word_inj in Heq as (->&->&->). Qed.

Lemma count_clearing ths : (count clearing ths ≤ count reading ths)%nat.
Proof. apply total_le. by intros []; cbn; lia. Qed.

(** The lock is released. *)
Lemma safe_read_unlock m m' ths n r w t p' : safe m ths n r w → ths !! t = Some Reading →
  state m' = word (n - 1) r w → away p' = true → point_ok p' → safe m' (<[t := p']> ths) (n - 1) r w.
Proof.
  intros [Hs Hn Hlk Hcl Hwt Hpt] Hl Hs' Hp Hok. lock_counts Hl p'. pose proof (count_in reading _ _ _ Hl eq_refl).
  pose proof (count_clearing (<[t := p']> ths)).
  apply away_counts in Hp as (Ep1&Ep2&Ep3). rewrite Ep1, Ep2, Ep3 in *. cbn in *. consts.
  split; [done|lia|consts; lia|lia| |by apply points_insert].
  intros ? Hr. destruct Hwt; [consts; lia|done|by left|lia].
Qed.

Lemma safe_write_unlock m m' ths n r w t p' : safe m ths n r w → ths !! t = Some Writing →
  state m' = word 0 r w → away p' = true → point_ok p' → safe m' (<[t := p']> ths) 0 r w.
Proof.
  intros [Hs Hn Hlk Hcl Hwt Hpt] Hl Hs' Hp Hok. lock_counts Hl p'. pose proof (count_in writing _ _ _ Hl eq_refl).
  pose proof (count_clearing (<[t := p']> ths)).
  apply away_counts in Hp as (Ep1&Ep2&Ep3). rewrite Ep1, Ep2, Ep3 in *. cbn in *. consts.
  split; [done|lia|consts; lia|lia|lia|by apply points_insert].
Qed.

Lemma safe_writing m ths n r w t : safe m ths n r w → ths !! t = Some Writing → n = MASK.
Proof. intros [Hs Hn Hlk Hcl Hwt Hpt] Hl. pose proof (count_in writing _ _ _ Hl eq_refl). lia. Qed.

Lemma safe_reading m ths n r w t : safe m ths n r w → ths !! t = Some Reading →
  0 < n < MASK ∧ (r = true → w = true).
Proof.
  intros [Hs Hn Hlk Hcl Hwt Hpt] Hl. pose proof (count_in reading _ _ _ Hl eq_refl).
  lock_counts Hl Idle. pose proof (count_clearing (<[t := Idle]> ths)). cbn in *. consts.
  split; [lia|]. intros Hr. destruct Hwt; [lia|done|done|lia].
Qed.

(** A writer becomes a reader. *)
Lemma safe_downgrade m m' ths n r w t : safe m ths n r w → ths !! t = Some Writing →
  state m' = word 1 r w → safe m' (<[t := if r then DowngradeClear else Reading]> ths) 1 r w.
Proof.
  intros [Hs Hn Hlk Hcl Hwt Hpt] Hl Hs'. pose proof (count_in writing _ _ _ Hl eq_refl). 
  pose proof (count_clearing (<[t := Idle]> ths)). lock_counts Hl Idle.
  lock_counts Hl (if r then DowngradeClear else Reading). consts.
  destruct r; cbn in *; (split; [done|lia|consts; lia|auto; lia|try done; right; lia|by apply points_insert]).
Qed.

Lemma safe_clear m m' ths n r w t : safe m ths n r w → ths !! t = Some DowngradeClear →
  state m' = word n false w → safe m' (<[t := DowngradeWake]> ths) n false w.
Proof.
  intros [Hs Hn Hlk Hcl Hwt Hpt] Hl Hs'. lock_counts Hl DowngradeWake. lock_counts Hl Idle.
  pose proof (count_in clearing _ _ _ Hl eq_refl). pose proof (count_clearing (<[t := Idle]> ths)). cbn in *. consts.
  split; [done|lia|consts; lia| |done|by apply points_insert]. intros ?. lia.
Qed.

(** ** Every step keeps it *)
Section go.
Context (m : RwLock) (ths : list point) (n : Z) (r w : bool) (Hsafe : safe m ths n r w).

Lemma range : 0 ≤ n < 2 ^ 30.
Proof using Hsafe. by destruct Hsafe. Qed.
Lemma point_now t p : ths !! t = Some p → point_ok p.
Proof using Hsafe. destruct Hsafe. eauto. Qed.
Lemma state_now : state m = word n r w.
Proof using Hsafe. by destruct Hsafe. Qed.

Definition still_safe m' ths' : Prop := ∃ n' r' w', safe m' ths' n' r' w'.

Lemma stay_safe t p p' : ths !! t = Some p → away p = true → away p' = true ∧ point_ok p' → still_safe m (<[t := p']> ths).
Proof using Hsafe. intros. exists n, r, w. by eapply safe_stay. Qed.

Ltac pt Hl := pose proof (point_now _ _ Hl) as Hpt; cbn [point_ok] in Hpt; pose proof range as Hn; pose proof state_now as Hnow.
Ltac stay Hl := eapply stay_safe; [exact Hl|done|].

Lemma read_cas_safe c t p s err m' p' : ths !! t = Some p →
  compare_exchange_weak c m s (s + READ_LOCKED) Reading err = (m', Go p') → away p = true →
  seen s (λ n r _, n < MAX_READERS ∧ r = false) → away (err (word n r w)) = true ∧ point_ok (err (word n r w)) →
  still_safe m' (<[t := p']> ths).
Proof using Hsafe.
  intros Hl [(Heq&->&->)|[-> ->]]%compare_exchange_weak_go Hp Hs Herr.
  - rewrite state_now in Heq. destruct (seen_now _ _ _ _ _ Heq range Hs) as [Hmax Hr].
    exists (n + 1), r, w. eapply safe_read_lock; [done..|]. cbn. rewrite <-Heq. apply word_add.
  - rewrite state_now. by eapply stay_safe.
Qed.

Lemma write_cas_safe c t p s s' err m' p' : ths !! t = Some p →
  compare_exchange_weak c m s s' Writing err = (m', Go p') → away p = true →
  seen s (λ n _ _, n = 0) → (∀ r w, s = word 0 r w → ∃ w', s' = word MASK r w') →
  away (err (word n r w)) = true ∧ point_ok (err (word n r w)) →
  still_safe m' (<[t := p']> ths).
Proof using Hsafe.
  intros Hl [(Heq&->&->)|[-> ->]]%compare_exchange_weak_go Hp Hs Hs' Herr.
  - rewrite state_now in Heq. pose proof (seen_now _ _ _ _ _ Heq range Hs) as H0. cbn in H0.
    destruct (Hs' r w) as [w' ->]; [by rewrite <-H0|]. exists MASK, r, w'.
    eapply safe_write_lock; [by rewrite <-H0|done..].
  - rewrite state_now. by eapply stay_safe.
Qed.

Lemma flag_cas_safe t p s new ok err m' p' r' w' : ths !! t = Some p →
  compare_exchange m s new ok err = (m', Go p') → away p = true →
  (word n r w = s → new = word n r' w') → (word n r w = s → 0 < n < MASK → r' = r ∧ w' = w ∨ w' = true ∧ (r = true → r' = true)) →
  away ok = true ∧ (word n r w = s → point_ok ok) → away (err (word n r w)) = true ∧ point_ok (err (word n r w)) →
  still_safe m' (<[t := p']> ths).
Proof using Hsafe.
  intros Hl [(Heq&->&->)|(_&->&->)]%compare_exchange_go Hp Hnew Hf [Hok Hok'] Herr; rewrite state_now in *.
  - exists n, r', w'. eapply safe_flags; [done..|auto| |auto]. by apply Hnew.
  - by eapply stay_safe.
Qed.

Lemma try_safe c t p m' p' : ths !! t = Some p →
  (p = TryRead ∨ p = TryWrite ∨ ∃ s, p = TryReadCas s ∨ p = TryWriteCas s) →
  rwlock_run c m p = Some (m', Go p') → still_safe m' (<[t := p']> ths).
Proof using Hsafe.
  intros Hl Hp Hr. pt Hl. destruct Hp as [-> | [-> | (s & [-> | ->])]]; cbn in Hr; try injection Hr as <- <-; try rewrite state_now.
  - stay Hl. by apply try_read_loop_ok.
  - stay Hl. by apply try_write_loop_ok.
  - eapply read_cas_safe; [exact Hl|by injection Hr|done|done| ]. by apply try_read_loop_ok.
  - eapply write_cas_safe; [exact Hl|by injection Hr|done|done| | ].
    + intros r0 w0 ->. exists w0. by rewrite word_add.
    + by apply try_write_loop_ok.
Qed.

Lemma read_safe c t p m' p' : ths !! t = Some p →
  (p = Read ∨ (∃ s, p = ReadCas s ∨ p = ReadWait s) ∨ (∃ b x, p = ReadSpin b x) ∨ ∃ b s, p = ReadLoopCas b s ∨ p = ReadSetWaiting b s) →
  rwlock_run c m p = Some (m', Go p') → still_safe m' (<[t := p']> ths).
Proof using Hsafe.
  intros Hl Hp Hr. pt Hl.
  destruct Hp as [-> | [(s & [-> | ->]) | [(b & x & ->) | (b & s & [-> | ->])]]]; cbn in Hr; try injection Hr as <- <-; try rewrite state_now.
  - stay Hl. tests. destruct r, w; repeat case_match; (split; [done|]); cbn; know.
  - eapply read_cas_safe; [exact Hl|by injection Hr|done|done| ]. done.
  - stay Hl. by case_match.
  - stay Hl. by apply spin_read_ok.
  - eapply read_cas_safe; [exact Hl|by injection Hr|done|done| ]. by apply read_loop_ok.
  - eapply (flag_cas_safe _ _ _ _ _ _ _ _ true w); [exact Hl|by injection Hr|done| | |split; [done|] | ].
    + intros <-. by apply word_set_readers.
    + intros Heq Hn'. destruct (seen_now _ _ _ _ _ Heq range Hpt) as [-> [-> | ->]]; auto. lia.
    + intros <-. by exists n, r, w.
    + by apply read_loop_ok.
Qed.

Lemma write_safe c t p m' p' : ths !! t = Some p →
  (p = Write ∨ p = WriteSeq ∨ (∃ x, p = WriteCheck x ∨ p = WriteWait x) ∨
   (∃ o x, p = WriteSpin o x) ∨ ∃ o s, p = WriteCas o s ∨ p = WriteSetWaiting o s) →
  rwlock_run c m p = Some (m', Go p') → still_safe m' (<[t := p']> ths).
Proof using Hsafe.
  intros Hl Hp Hr. pt Hl.
  destruct Hp as [-> | [-> | [(s & [-> | ->]) | [(b & x & ->) | (b & s & [-> | ->])]]]]; cbn in Hr; try injection Hr as <- <-; try rewrite state_now.
  - eapply (write_cas_safe _ _ _ 0); [exact Hl|by injection Hr|done| | | ].
    + by exists 0, false, false.
    + intros r0 w0 Heq. rewrite word_0 in Heq. apply word_inj in Heq as (_&<-&<-); [|done..]. by exists false.
    + split; [done|]. by left.
  - by stay Hl.
  - stay Hl. case_match; [|done]. apply write_loop_ok; [done|by right].
  - stay Hl. case_match; split; [done|done|done|by right].
  - stay Hl. by apply spin_write_ok.
  - destruct Hpt as [Ho Hpt]. eapply write_cas_safe; [exact Hl|by injection Hr|done|done| | ].
    + intros r0 w0 ->. rewrite word_write_lock. destruct Ho as [-> | ->].
      * rewrite Z.lor_0_r. by exists w0.
      * rewrite word_set_writers by done. by exists true.
    + by apply write_loop_ok.
  - destruct Hpt as [Ho Hpt]. eapply (flag_cas_safe _ _ _ _ _ _ _ _ r true); [exact Hl|by injection Hr|done| | |done| ].
    + intros <-. by apply word_set_writers.
    + auto.
    + by apply write_loop_ok.
Qed.

Lemma unlock_safe c t p m' p' : ths !! t = Some p → (p = Reading ∨ p = Writing ∨ p = DowngradeClear) →
  rwlock_run c m p = Some (m', Go p') → still_safe m' (<[t := p']> ths).
Proof using Hsafe.
  intros Hl Hp Hr. pt Hl. destruct Hp as [-> | [-> | ->]]; cbn in Hr.
  - destruct (safe_reading _ _ _ _ _ _ Hsafe Hl) as [Hn' Hw].
    rewrite state_now in Hr. replace (word n r w - READ_LOCKED) with (word (n - 1) r w) in Hr by by rewrite <-(word_add n (-1)).
    consts. rewrite word_wrap in Hr by lia. tests. injection Hr as <- <-.
    exists (n - 1), r, w. eapply safe_read_unlock; [exact Hsafe|exact Hl|done|..];
      (destruct r; [rewrite Hw by done|]; cbn [negb andb]; destruct (Z.eqb_spec (n - 1) 0) as [-> |]; destruct w; cbn [andb]; try done);
      apply wake_writer_or_readers_ok.
  - pose proof (safe_writing _ _ _ _ _ _ Hsafe Hl) as Hmask. rewrite state_now, Hmask in Hr. destruct c.
    + replace (word MASK r w - WRITE_LOCKED) with (word 0 r w) in Hr by by rewrite <-(word_add MASK (- MASK)).
      rewrite word_wrap in Hr by done. tests. injection Hr as <- <-. exists 0, r, w.
      eapply safe_write_unlock; [exact Hsafe|exact Hl|done|..];
        cbn [Z.eqb negb]; destruct (w || r); try done; apply wake_writer_or_readers_ok.
    + rewrite word_downgrade in Hr. rewrite word_write_locked, word_readers, Z.eqb_refl in Hr by done. injection Hr as <- <-.
      exists 1, r, w. cbn [negb]. by eapply safe_downgrade.
  - injection Hr as <- <-. exists n, false, w. eapply safe_clear; [exact Hsafe|exact Hl|]. cbn.
    assert (r = true) as Hrt by (destruct Hsafe; apply safe_clearing0, (count_in _ _ _ _ Hl); done).
    rewrite state_now, Hrt, word_clear_readers. by rewrite word_wrap.
Qed.

Lemma wake_safe c t p m' p' : ths !! t = Some p → (p = WakeWriters ∨ p = WakeBoth ∨ p = WakeReaders ∨ ∃ b, p = Notify b) →
  rwlock_run c m p = Some (m', Go p') → still_safe m' (<[t := p']> ths).
Proof using Hsafe.
  intros Hl Hp Hr. pt Hl. destruct Hp as [-> | [-> | [-> | [b ->]]]]; cbn in Hr.
  - eapply (flag_cas_safe _ _ _ _ _ _ _ _ false false); [exact Hl|by injection Hr|done| | |done| ].
    + rewrite word_ww. by intros (->&_&_)%word_inj.
    + rewrite word_ww. intros (->&_&_)%word_inj; [lia|done..].
    + apply wake_both_ok.
  - eapply (flag_cas_safe _ _ _ _ _ _ _ _ true false); [exact Hl|by injection Hr|done| | |done|done].
    + rewrite word_rww. by intros (->&_&_)%word_inj.
    + rewrite word_rww. intros (->&_&_)%word_inj; [lia|done..].
  - eapply (flag_cas_safe _ _ _ _ _ _ _ _ false false); [exact Hl|by injection Hr|done| | |done|done].
    + rewrite word_rw. by intros (->&_&_)%word_inj.
    + rewrite word_rw. intros (->&_&_)%word_inj; [lia|done..].
  - injection Hr as <- <-. destruct (stay_safe t (Notify b) (WakeWriter b) Hl eq_refl) as (n'&r'&w'&Hs); [done|].
    exists n', r', w'. by eapply safe_same.
Qed.

Lemma go_safe c t p m' p' : ths !! t = Some p → rwlock_run c m p = Some (m', Go p') → still_safe m' (<[t := p']> ths).
Proof using Hsafe.
  intros Hl Hr. destruct p; try done;
    first [by eapply try_safe; eauto 6|by eapply read_safe; eauto 10|by eapply write_safe; eauto 10|
           by eapply unlock_safe; eauto|by eapply wake_safe; eauto].
Qed.
End go.

(** The steps that wake threads. *)
Lemma safe_fmap m ths n r w (g : point → point) : safe m ths n r w →
  (∀ p, reading (g p) = reading p ∧ writing (g p) = writing p ∧ clearing (g p) = clearing p ∧ (point_ok p → point_ok (g p))) →
  safe m (g <$> ths) n r w.
Proof.
  intros [Hs Hn Hlk Hcl Hwt Hpt] Hg.
  assert (∀ P, (∀ p, P (g p) = P p) → count P (g <$> ths) = count P ths) as Hc.
  { intros P HP. unfold count. rewrite total_fmap. apply total_ext. intros p. by rewrite HP. }
  rewrite <-(Hc reading), <-(Hc writing) in Hlk by (intros p; apply (Hg p)).
  rewrite <-(Hc clearing) in Hcl, Hwt by (intros p; apply (Hg p)).
  split; [done..|]. intros t p. rewrite list_lookup_fmap. destruct (ths !! t) as [q|] eqn:Hq; [|done].
  intros [= <-]. apply Hg. by eapply Hpt.
Qed.

Lemma wake_on_same (f : futex) p : let g := wake_on f in
  reading (g p) = reading p ∧ writing (g p) = writing p ∧ clearing (g p) = clearing p ∧ (point_ok p → point_ok (g p)).
Proof. unfold wake_on. destruct p, f; cbn; try done. split_and!; try done. intros _. by right. Qed.

Lemma woken_ok p f : asleep_on p = Some f → away p = true ∧ away (woken p) = true ∧ point_ok (woken p).
Proof. destruct p; cbn; try done. intros _. split_and!; try done. by right. Qed.

(** Which points wake threads. *)
Lemma run_wake c m p m' f k : rwlock_run c m p = Some (m', Wake f k) →
  ∃ both, p = WakeWriter both ∧ m' = m ∧ f = NotifyFutex ∧
    k = λ woke, if both && negb woke then wake_readers READERS_WAITING else Idle.
Proof.
  destruct p; cbn; unfold compare_exchange_weak, compare_exchange; intros Hr; repeat case_match; simplify_eq; eauto.
Qed.

Lemma run_wake_all c m p m' f p' : rwlock_run c m p = Some (m', WakeAll f p') →
  m' = m ∧ f = StateFutex ∧ (p = DowngradeWake ∧ p' = Reading ∨ p = WakeAllReaders ∧ p' = Idle).
Proof.
  destruct p; cbn; unfold compare_exchange_weak, compare_exchange; intros Hr; repeat case_match; simplify_eq; auto.
Qed.

Definition rwlock_ok (σ : sys RwLock point) : Prop := still_safe (shared σ) (threads σ).

Lemma rwlock_ok_new n : rwlock_ok (new n).
Proof.
  assert (∀ P : point → bool, P Idle = false → count P (replicate n Idle) = 0%nat) as H0.
  { intros P HP. unfold count, total. induction n as [|n IH]; simpl; [done|]. by rewrite HP. }
  exists 0, false, false. split; cbn [new shared threads]; rewrite ?H0 by done; [done|lia|left; consts; lia|lia|lia|].
  intros t p [-> _]%lookup_replicate. done.
Qed.

Lemma rwlock_ok_step σ σ' : rwlock_ok σ → step σ σ' → rwlock_ok σ'.
Proof.
  destruct σ as [m ths]. intros (n&r&w&Hs) Hst.
  destruct Hst as [t c l s' l' Hl Hr|t c l s' f k u q Hl Hr Hu Hm|t c l s' f k Hl Hr Hno|t c l s' f l' Hl Hr];
    cbn [shared threads] in *; unfold rwlock_ok; cbn [shared threads].
  - by eapply go_safe.
  - apply run_wake in Hr as (both&->&->&->&->). assert (t ≠ u) as Htu by (intros ->; rewrite Hl in Hu; by simplify_eq).
    destruct (woken_ok q _ Hm) as (Hq&Hw). pose proof (safe_stay _ _ _ _ _ _ _ (woken q) Hs Hu Hq Hw) as Hs1.
    exists n, r, w. eapply safe_stay; [exact Hs1|rewrite list_lookup_insert_ne by done; exact Hl|done|].
    by destruct both.
  - apply run_wake in Hr as (both&->&->&->&->).
    exists n, r, w. eapply safe_stay; [exact Hs|exact Hl|done|]. by destruct both.
  - apply run_wake_all in Hr as (->&->&Hp).
    assert (safe m (wake_on StateFutex <$> ths) n r w) as Hs' by (apply safe_fmap; [done|intros p; apply wake_on_same]).
    assert ((wake_on StateFutex <$> ths) !! t = Some l) as Hl'.
    { rewrite list_lookup_fmap, Hl. by destruct Hp as [[-> _]|[-> _]]. }
    exists n, r, w. destruct Hp as [[-> ->]|[-> ->]].
    + destruct Hs' as [? ? Hlk Hcl Hwt Hpt]. lock_counts Hl' Reading. cbn in *.
      split; [done|done|lia|intros; apply Hcl; lia|intros Hn1 Hr1; destruct (Hwt Hn1 Hr1); auto; lia|by apply points_insert].
    + eapply safe_stay; [exact Hs'|exact Hl'|done|done].
Qed.

Lemma rwlock_ok_any σ σ' : rwlock_ok σ → any_step σ σ' → rwlock_ok σ'.
Proof.
  intros Hok [Hst|Hst]; [by eapply rwlock_ok_step|]. destruct σ as [m ths], Hok as (n&r&w&Hs). exists n, r, w.
  destruct Hst as [t l l' Hl Hc|t l f Hl Hf]; cbn [shared threads] in *.
  - destruct l; cbn in Hc; try by apply elem_of_nil in Hc.
    eapply safe_stay; [exact Hs|exact Hl|done|]. rewrite !elem_of_cons, elem_of_nil in Hc.
    by destruct Hc as [-> | [-> | [-> | [-> | []]]]].
  - destruct (woken_ok _ _ Hf). by eapply safe_stay.
Qed.

Lemma rwlock_ok_reachable k σ : reachable (new k) σ → rwlock_ok σ.
Proof. apply reachable_inv; [apply rwlock_ok_new|intros; by eapply rwlock_ok_any]. Qed.
