(* ===== verification/RwLockTheorems.v ===== *)
(** The futex read-write lock loses no wake-up: the invariant that says which
    thread will wake the threads that sleep. *)

From S2P Require Import Prelude Threads FutexRwLock RwLockSpec.

#[local] Open Scope Z_scope.

Implicit Types (ths : list point) (t u : nat) (p q : point) (m : RwLock).

(** ** Who sleeps, and who is about to wake them *)
Definition sleeping_reader p : bool := match p with ReadAsleep => true | _ => false end.
Definition sleeping_writer p : bool := match p with WriteAsleep => true | _ => false end.
Definition waking_readers p : bool := match p with WakeAllReaders | DowngradeWake => true | _ => false end.
Definition waking_writers p : bool := match p with WakeWriters => true | _ => false end.
Definition waking_both p : bool := match p with WakeBoth => true | _ => false end.
Definition notifying p : bool := match p with Notify _ => true | _ => false end.
(** Will look at the lock, or wake the readers, before it sleeps or leaves. *)
Definition attending p : bool :=
  match p with
  | Notify both | WakeWriter both => both
  | WakeReaders | WriteSpin _ _ | WriteCas _ _ | WriteSetWaiting _ _ | WriteSeq | WriteCheck _ => true
  | _ => false
  end.
(** Will wake a writer, or is a writer that will keep or set the waiting flag. *)
Definition awake_writer p : bool :=
  match p with
  | Notify _ | WakeWriter _ | WriteSeq | WriteCheck _ => true
  | WriteSpin other _ | WriteCas other _ | WriteSetWaiting other _ => negb (other =? 0)
  | _ => false
  end.
Definition sequence p : option Z := match p with WriteCheck seq | WriteWait seq => Some seq | _ => None end.
Definition about_to_sleep p (seq : Z) : Prop := p = WriteWait seq.

Record live (m : RwLock) ths (n : Z) (r w : bool) : Prop := Live {
  live_sleeping_readers : (0 < count sleeping_reader ths)%nat → r = true ∨ (0 < count waking_readers ths)%nat;
  live_writers_flag : n = 0 → w = true → r = false → (0 < count waking_writers ths)%nat;
  live_both_flags : n = 0 → w = true → r = true → (0 < count waking_writers ths + count waking_both ths)%nat;
  live_readers_flag : n = 0 → w = false → r = true → (0 < count attending ths)%nat;
  live_sleeping_writers : (0 < count sleeping_writer ths)%nat → w = true ∨ (0 < count awake_writer ths)%nat;
  live_about_to_sleep : ∀ (t : nat), ths !! t = Some (WriteWait (writer_notify m)) →
                        w = true ∨ (0 < count notifying ths)%nat;
  live_sequence : ∀ (t : nat) p seq, ths !! t = Some p → sequence p = Some seq → seq ≤ writer_notify m;
}.

Lemma count_change (P : point → bool) ths t p p' : ths !! t = Some p →
  (count P (<[t := p']> ths) + Nat.b2n (P p) = count P ths + Nat.b2n (P p') ∧ Nat.b2n (P p) ≤ count P ths)%nat.
Proof. intros Hl. split; [by apply count_insert|exact (total_in (λ l, Nat.b2n (P l)) _ _ _ Hl)]. Qed.

Ltac live_counts Hl p' :=
  pose proof (count_change sleeping_reader _ _ _ p' Hl); pose proof (count_change sleeping_writer _ _ _ p' Hl);
  pose proof (count_change waking_readers _ _ _ p' Hl); pose proof (count_change waking_writers _ _ _ p' Hl);
  pose proof (count_change waking_both _ _ _ p' Hl); pose proof (count_change notifying _ _ _ p' Hl);
  pose proof (count_change attending _ _ _ p' Hl); pose proof (count_change awake_writer _ _ _ p' Hl).

(** One thread goes from [p] to [p'] and the state from [n], [r] and [w] to [n'],
    [r'] and [w']: what that must not do. *)
Record gentle (m : RwLock) p (n : Z) (r w : bool) p' (n' : Z) (r' w' : bool) : Prop := Gentle {
  gentle_sleep : sleeping_reader p' = true → r' = true;
  gentle_readers : r = true → r' = true ∨ waking_readers p' = true;
  gentle_waking : waking_readers p = false ∧ notifying p = false;
  gentle_writers_flag : n' = 0 → w' = true → r' = false →
    waking_writers p' = true ∨ n = 0 ∧ w = true ∧ r = false ∧ waking_writers p = false;
  gentle_both_flags : n' = 0 → w' = true → r' = true → waking_writers p' || waking_both p' = true ∨
    n = 0 ∧ w = true ∧ waking_writers p = false ∧ waking_both p = false;
  gentle_readers_flag : n' = 0 → w' = false → r' = true →
    attending p' = true ∨ n = 0 ∧ w = false ∧ r = true ∧ attending p = false;
  gentle_writers : w = true → w' = true ∨ notifying p' = true;
  gentle_awake : awake_writer p = true → awake_writer p' = true ∨ w' = true;
  gentle_writer_sleeps : sleeping_writer p' = true → p = WriteWait (writer_notify m);
  gentle_about_to_sleep : p' = WriteWait (writer_notify m) → w' = true;
  gentle_sequence : ∀ seq, sequence p' = Some seq → seq ≤ writer_notify m;
}.

Lemma notifying_awake ths : (count notifying ths ≤ count awake_writer ths)%nat.
Proof. apply total_le. by intros []; cbn; lia. Qed.

Lemma live_gentle m m' ths n r w n' r' w' t p p' : live m ths n r w → ths !! t = Some p →
  writer_notify m' = writer_notify m → gentle m p n r w p' n' r' w' → live m' (<[t := p']> ths) n' r' w'.
Proof.
  intros [L1 L2 L3 L4 L5 L6 L7] Hl Hm [G1 G2 [G3 G3'] G4 G5 G6 G7 G8 G9 G10 G11].
  pose proof (notifying_awake (<[t := p']> ths)). live_counts Hl p'. rewrite G3, G3' in *.
  split.
  - intros ?. destruct r'; [by left|right]. destruct (sleeping_reader p'); [by discriminate G1|].
    destruct r; [destruct G2 as [? | G2]; [done|done|rewrite G2 in *; cbn in *; lia]|].
    cbn in *. destruct L1; [lia|done|lia].
  - intros Hn Hw Hr. destruct (G4 Hn Hw Hr) as [G|(->&->&->&G)]; rewrite G in *; cbn in *; [lia|].
    specialize (L2 eq_refl eq_refl eq_refl). lia.
  - intros Hn Hw Hr. destruct (G5 Hn Hw Hr) as [[G|G]%orb_true_iff|(->&->&Ga&Gb)]; [rewrite G in *; cbn in *; lia..|].
    rewrite Ga, Gb in *. cbn in *.
    destruct r; [specialize (L3 eq_refl eq_refl eq_refl)|specialize (L2 eq_refl eq_refl eq_refl)]; lia.
  - intros Hn Hw Hr. destruct (G6 Hn Hw Hr) as [G|(->&->&->&G)]; rewrite G in *; cbn in *; [lia|].
    specialize (L4 eq_refl eq_refl eq_refl). lia.
  - intros ?. destruct w' eqn:Hw'; [by left|right].
    destruct w; [destruct G7 as [|G]; [done..|rewrite G in *; cbn in *; lia]|].
    assert (0 < count awake_writer ths)%nat.
    { destruct (sleeping_writer p'); cbn in *; [|destruct L5; [lia|done|done]].
      pose proof (notifying_awake ths). destruct (L6 t); [by rewrite <-G9|done|lia]. }
    destruct (awake_writer p); cbn in *; [|lia]. destruct G8 as [G|]; [done|rewrite G in *; cbn in *; lia|done].
  - intros u Hu. rewrite Hm in Hu. destruct w' eqn:Hw'; [by left|right].
    destruct w; [destruct G7 as [|G]; [done..|rewrite G in *; cbn in *; lia]|].
    apply list_lookup_insert_Some in Hu as [(->&->&_)|[_ Hu]]; [by discriminate G10|].
    destruct (L6 u Hu); [done|]. cbn in *. lia.
  - intros u q seq [(->&->&_)|[_ Hu]]%list_lookup_insert_Some Hq; rewrite Hm; [by apply G11|by eapply L7].
Qed.

(** ** Every step is gentle *)
(** Points that have no part in waking or sleeping, and those of a writer. *)
Definition silent p : bool := match sequence p with None => true | _ => false end.
Definition quiet p : bool :=
  negb (sleeping_reader p || sleeping_writer p || waking_readers p || waking_writers p || waking_both p ||
        notifying p || attending p || awake_writer p) && silent p.
Definition contending (awake : bool) p : bool :=
  negb (sleeping_reader p || sleeping_writer p || waking_readers p || waking_writers p || waking_both p || notifying p) &&
  attending p && implb awake (awake_writer p) && silent p.

Lemma quiet_read_loop b s : quiet (read_loop b s) = true.
Proof. unfold read_loop. by repeat case_match. Qed.
Lemma quiet_spin_read b spin s : quiet (spin_read b spin s) = true.
Proof. unfold spin_read, spin_until. repeat case_match; try apply quiet_read_loop; done. Qed.
Lemma quiet_try_read s : quiet (try_read_loop s) = true.
Proof. unfold try_read_loop. by case_match. Qed.
Lemma quiet_try_write s : quiet (try_write_loop s) = true.
Proof. unfold try_write_loop. by case_match. Qed.
Lemma contending_write_loop other s : contending (negb (other =? 0)) (write_loop other s) = true.
Proof. unfold write_loop. destruct (is_unlocked s), (has_writers_waiting s); unfold contending; cbn -[Z.eqb]; by destruct (other =? 0). Qed.
Lemma contending_spin_write other spin s : contending (negb (other =? 0)) (spin_write other spin s) = true.
Proof.
  unfold spin_write, spin_until. destruct (is_unlocked s || has_writers_waiting s), spin;
    try apply contending_write_loop; unfold contending; cbn -[Z.eqb]; by destruct (other =? 0).
Qed.

Lemma quiet_facts p : quiet p = true →
  sleeping_reader p = false ∧ sleeping_writer p = false ∧ waking_readers p = false ∧ waking_writers p = false ∧
  waking_both p = false ∧ notifying p = false ∧ attending p = false ∧ awake_writer p = false ∧ sequence p = None.
Proof.
  unfold quiet, silent. rewrite andb_true_iff, negb_true_iff, !orb_false_iff. intros [??]. split_and?; try tauto.
  by destruct (sequence p).
Qed.

Lemma contending_facts b p : contending b p = true →
  sleeping_reader p = false ∧ sleeping_writer p = false ∧ waking_readers p = false ∧ waking_writers p = false ∧
  waking_both p = false ∧ notifying p = false ∧ attending p = true ∧ (b = true → awake_writer p = true) ∧ sequence p = None.
Proof.
  unfold contending, silent. rewrite !andb_true_iff, negb_true_iff, !orb_false_iff. intros [[[??]?]?].
  split_and?; try tauto; [by intros ->|by destruct (sequence p)].
Qed.

Section gentle.
Context (m : RwLock) (n : Z) (r w : bool).

Lemma gentle_quiet p p' n' r' : quiet p = true → quiet p' = true →
  (r = true → r' = true) → (n' = 0 → n = 0 ∧ (r' = r ∨ w = true)) → gentle m p n r w p' n' r' w.
Proof.
  intros (A1&A2&A3&A4&A5&A6&A7&A8&A9)%quiet_facts (B1&B2&B3&B4&B5&B6&B7&B8&B9)%quiet_facts Hr Hn.
  split; rewrite ?B1, ?B2, ?B3, ?B4, ?B5, ?B6, ?B7, ?B8, ?B9; try done.
  - auto.
  - intros [-> Hr']%Hn -> ->. right. destruct r; [by discriminate Hr|done].
  - intros [-> Hr']%Hn -> _. by right.
  - intros [-> [-> | ->]]%Hn; [by right|done].
  - by left.
  - rewrite A8. done.
  - intros ->. done.
Qed.

Lemma gentle_contending p p' :
  waking_readers p = false ∧ notifying p = false ∧ waking_writers p = false ∧ waking_both p = false →
  contending (awake_writer p) p' = true →
  gentle m p n r w p' n r w.
Proof.
  intros (A1&A2&A3&A4) (B1&B2&B3&B4&B5&B6&B7&B8&B9)%contending_facts.
  split; rewrite ?B1, ?B2, ?B3, ?B4, ?B5, ?B6, ?B7, ?B9; try done.
  - auto.
  - intros ->. auto.
  - intros ->. auto.
  - auto.
  - auto.
  - auto.
  - intros ->. done.
Qed.
(** The thread that unlocks looks after whoever waits. *)
Lemma gentle_unlock p r' w' p' : quiet p = true → r' = r → w' = w →
  p' = (if w then if r then WakeBoth else WakeWriters else if r then WakeReaders else Idle) → gentle m p n r w p' 0 r' w'.
Proof.
  intros (A1&A2&A3&A4&A5&A6&A7&A8&A9)%quiet_facts -> -> ->.
  destruct r, w; split; try done; auto; rewrite ?A8; done.
Qed.

Lemma wake_writer_or_readers_word r' w' : wake_writer_or_readers (word 0 r' w') =
  if w' then if r' then WakeBoth else WakeWriters else if r' then WakeReaders else Idle.
Proof. by destruct r', w'. Qed.
End gentle.

(** What a step of the thread at [p] does, beside keeping the lock [safe]. *)
Definition goes_gently (m : RwLock) p (n : Z) (r w : bool) m' p' : Prop :=
  ∃ n' r' w', state m' = word n' r' w' ∧ 0 ≤ n' < 2 ^ 30 ∧ writer_notify m' = writer_notify m ∧
    notifications m' = notifications m ∧ gentle m p n r w p' n' r' w'.

Section steps.
Context (m : RwLock) (ths : list point) (n : Z) (r w : bool) (Hsafe : safe m ths n r w).

Lemma goes_stay p p' : gentle m p n r w p' n r w → goes_gently m p n r w m p'.
Proof using Hsafe. destruct Hsafe as [Hs Hn _ _ _ _]. by exists n, r, w. Qed.

Lemma goes_to p s' n' r' w' p' : gentle m p n r w p' n' r' w' → s' = word n' r' w' → 0 ≤ n' < 2 ^ 30 →
  goes_gently m p n r w (set_state s' m) p'.
Proof using. intros Hg -> Hn. by exists n', r', w'. Qed.

Lemma read_cas_gently c p s err m' p' :
  compare_exchange_weak c m s (s + READ_LOCKED) Reading err = (m', Go p') → quiet p = true →
  seen s (λ n r _, n < MAX_READERS ∧ r = false) → quiet (err (state m)) = true → goes_gently m p n r w m' p'.
Proof using Hsafe.
  intros [(Heq&->&->)|(->&->)]%compare_exchange_weak_go Hp Hs Herr; [|apply goes_stay, gentle_quiet; auto].
  pose proof (range _ _ _ _ _ Hsafe) as Hn. rewrite (state_now _ _ _ _ _ Hsafe) in Heq.
  destruct (seen_now _ _ _ _ _ Heq Hn Hs) as [Hmax Hr]. consts.
  eapply (goes_to _ _ (n + 1) r w); [apply gentle_quiet; auto; lia|rewrite <-Heq; apply word_add|lia].
Qed.

Ltac pt Hl := pose proof (point_now _ _ _ _ _ Hsafe _ _ Hl) as Hpt; cbn [point_ok] in Hpt;
  pose proof (range _ _ _ _ _ Hsafe) as Hn; pose proof (state_now _ _ _ _ _ Hsafe) as Hnow.

Lemma try_gently c t p m' p' : ths !! t = Some p →
  (p = TryRead ∨ p = TryWrite ∨ ∃ s, p = TryReadCas s ∨ p = TryWriteCas s) →
  rwlock_run c m p = Some (m', Go p') → goes_gently m p n r w m' p'.
Proof using Hsafe.
  intros Hl Hp Hr. pt Hl. destruct Hp as [-> | [-> | (s & [-> | ->])]]; cbn in Hr.
  - injection Hr as <- <-. apply goes_stay, gentle_quiet; auto using quiet_try_read.
  - injection Hr as <- <-. apply goes_stay, gentle_quiet; auto using quiet_try_write.
  - eapply read_cas_gently; [by injection Hr|done..|apply quiet_try_read].
  - injection Hr as Hr. apply compare_exchange_weak_go in Hr as [(Heq&->&->)|(->&->)];
      [|apply goes_stay, gentle_quiet; auto using quiet_try_write].
    rewrite Hnow in Heq. pose proof (seen_now _ _ _ _ _ Heq Hn Hpt) as H0. cbn in H0.
    eapply (goes_to _ _ MASK r w); [by apply gentle_quiet; auto|rewrite <-Heq, H0; apply word_add|done].
Qed.

Lemma read_gently c t p m' p' : ths !! t = Some p →
  (p = Read ∨ (∃ s, p = ReadCas s ∨ p = ReadWait s) ∨ (∃ b x, p = ReadSpin b x) ∨
   ∃ b s, p = ReadLoopCas b s ∨ p = ReadSetWaiting b s) →
  rwlock_run c m p = Some (m', Go p') → goes_gently m p n r w m' p'.
Proof using Hsafe.
  intros Hl Hp Hr. pt Hl.
  destruct Hp as [-> | [(s & [-> | ->]) | [(b & x & ->) | (b & s & [-> | ->])]]]; cbn in Hr.
  - injection Hr as <- <-. apply goes_stay, gentle_quiet; auto. by case_match.
  - eapply read_cas_gently; [by injection Hr|done..].
  - injection Hr as <- <-. apply goes_stay. destruct Hpt as (n0&r0&w0&->&Hn0&_).
    rewrite word_set_readers, Hnow, word_eqb by done. case_match eqn:Heq; [|by apply gentle_quiet; auto].
    rewrite !andb_true_iff, Bool.eqb_true_iff in Heq. destruct Heq as [[_ ->] _]. by split; auto.
  - injection Hr as <- <-. apply goes_stay, gentle_quiet; auto using quiet_spin_read.
  - eapply read_cas_gently; [by injection Hr|done..|apply quiet_read_loop].
  - injection Hr as Hr. apply compare_exchange_go in Hr as [(Heq&->&->)|(_&->&->)];
      [|apply goes_stay, gentle_quiet; auto using quiet_read_loop].
    rewrite Hnow in Heq. destruct (seen_now _ _ _ _ _ Heq Hn Hpt) as [Hr Hw].
    eapply (goes_to _ _ n true w); [|by rewrite <-Heq; apply word_set_readers|done].
    apply gentle_quiet; auto. intros ->. destruct Hw as [-> |]; [auto|done].
Qed.

Lemma write_cas_gently c p s s' err m' p' :
  compare_exchange_weak c m s s' Writing err = (m', Go p') → waking_readers p = false ∧ notifying p = false →
  (state m = s → ∃ w', s' = word MASK r w' ∧ (w = true → w' = true) ∧ (awake_writer p = true → w' = true)) →
  gentle m p n r w (err (state m)) n r w → goes_gently m p n r w m' p'.
Proof using Hsafe.
  intros [(Heq&->&->)|(->&->)]%compare_exchange_weak_go Hp Hs Herr; [|by apply goes_stay].
  destruct (Hs Heq) as (w'&->&Hw&Ha). eapply (goes_to _ _ MASK r w'); [|done..]. split; try done; auto.
Qed.

Lemma write_gently c t p m' p' : ths !! t = Some p → (∀ seq, sequence p = Some seq → seq ≤ writer_notify m) →
  (p = Write ∨ p = WriteSeq ∨ (∃ x, p = WriteCheck x ∨ p = WriteWait x) ∨ (∃ o x, p = WriteSpin o x) ∨
   ∃ o s, p = WriteCas o s ∨ p = WriteSetWaiting o s) →
  rwlock_run c m p = Some (m', Go p') → goes_gently m p n r w m' p'.
Proof using Hsafe.
  intros Hl Hseq Hp Hr. pt Hl.
  destruct Hp as [-> | [-> | [(s & [-> | ->]) | [(o & x & ->) | (o & s & [-> | ->])]]]]; cbn in Hr.
  - eapply write_cas_gently; [by injection Hr|done| |by apply gentle_contending; auto].
    rewrite Hnow, word_0. intros (->&->&->)%word_inj; [|done..]. by exists false.
  - injection Hr as <- <-. apply goes_stay. split; try done; auto. intros seq [= <-]. lia.
  - injection Hr as <- <-. apply goes_stay. rewrite Hnow, word_unlocked, word_writers by done.
    destruct (n =? 0) eqn:E0, w; cbn [orb negb];
      try (by apply gentle_contending; [done|apply contending_write_loop]).
    apply Z.eqb_neq in E0. split; try done; auto.
  - injection Hr as <- <-. apply goes_stay. case_match eqn:Heq; [|by apply gentle_contending].
    apply Z.eqb_eq in Heq as <-. by split; auto.
  - injection Hr as <- <-. apply goes_stay, gentle_contending; [done|apply contending_spin_write].
  - destruct Hpt as [Ho Hpt]. eapply write_cas_gently; [by injection Hr|done|..].
    + rewrite Hnow. intros Heq. pose proof (seen_now _ _ _ _ _ Heq Hn Hpt) as H0. cbn in H0.
      rewrite <-Heq, H0, word_write_lock. destruct Ho as [-> | ->].
      * rewrite Z.lor_0_r. by exists w.
      * rewrite word_set_writers by done. by exists true.
    + apply gentle_contending; [done|apply contending_write_loop].
  - destruct Hpt as [Ho Hpt]. injection Hr as Hr. apply compare_exchange_go in Hr as [(Heq&->&->)|(_&->&->)].
    + rewrite Hnow in Heq. destruct (seen_now _ _ _ _ _ Heq Hn Hpt) as [H0 _].
      eapply (goes_to _ _ n r true); [|by rewrite <-Heq; apply word_set_writers|done]. split; try done; auto.
    + apply goes_stay, gentle_contending; [done|apply contending_write_loop].
Qed.

Lemma unlock_gently c t p m' p' : ths !! t = Some p → (p = Reading ∨ p = Writing ∨ p = DowngradeClear) →
  rwlock_run c m p = Some (m', Go p') → goes_gently m p n r w m' p'.
Proof using Hsafe.
  intros Hl Hp Hr. pt Hl. destruct Hp as [-> | [-> | ->]]; cbn in Hr.
  - destruct (safe_reading _ _ _ _ _ _ Hsafe Hl) as [Hn' Hw].
    rewrite Hnow in Hr. replace (word n r w - READ_LOCKED) with (word (n - 1) r w) in Hr by by rewrite <-(word_add n (-1)).
    consts. rewrite word_wrap in Hr by lia. rewrite word_readers, word_writers, word_unlocked in Hr by lia.
    injection Hr as <- <-. eapply (goes_to _ _ (n - 1) r w); [|done|lia].
    destruct (Z.eqb_spec (n - 1) 0) as [-> |].
    + apply gentle_unlock; [done..|]. rewrite wake_writer_or_readers_word. destruct r, w; try done. by discriminate Hw.
    + apply gentle_quiet; try done. destruct r; [rewrite Hw by done|]; by destruct w.
  - pose proof (safe_writing _ _ _ _ _ _ Hsafe Hl) as Hmask. rewrite Hnow, Hmask in Hr. destruct c.
    + replace (word MASK r w - WRITE_LOCKED) with (word 0 r w) in Hr by by rewrite <-(word_add MASK (- MASK)).
      rewrite word_wrap, word_unlocked, word_writers, word_readers in Hr by done. injection Hr as <- <-.
      eapply (goes_to _ _ 0 r w); [|done..]. apply gentle_unlock; [done..|]. rewrite wake_writer_or_readers_word.
      by destruct r, w.
    + rewrite word_downgrade, word_write_locked, word_readers, Z.eqb_refl in Hr by done. injection Hr as <- <-.
      eapply (goes_to _ _ 1 r w); [|done..]. apply gentle_quiet; try done. by destruct r.
  - injection Hr as <- <-. assert (n = 1 ∧ r = true) as [Hn1 Hrt].
    { destruct Hsafe as [_ _ _ Hcl _ _]. by apply Hcl, (count_in _ _ _ _ Hl). }
    eapply (goes_to _ _ n false w); [|rewrite Hnow, Hrt, word_clear_readers; by apply word_wrap|done].
    split; try done; auto; lia.
Qed.

Lemma wake_gently c t p m' p' : ths !! t = Some p → (p = WakeWriters ∨ p = WakeBoth ∨ p = WakeReaders) →
  rwlock_run c m p = Some (m', Go p') → goes_gently m p n r w m' p'.
Proof using Hsafe.
  intros Hl Hp Hr. pt Hl. destruct Hp as [-> | [-> | ->]]; cbn in Hr; injection Hr as Hr;
    apply compare_exchange_go in Hr as [(Heq&->&->)|(Heq&->&->)]; rewrite Hnow in Heq.
  - rewrite word_ww in Heq. apply word_inj in Heq as (Hn0&Hr0&Hw0); [|done..].
    eapply (goes_to _ _ 0 false false); [|done..]. split; try done; auto. congruence.
  - apply goes_stay. rewrite Hnow. unfold wake_both, wake_readers. rewrite word_rww, word_rw, word_ww, !word_eqb in * by done.
    destruct (Z.eqb_spec n 0) as [-> |]; [destruct r, w|]; cbn [andb Bool.eqb]; (split; try done; auto).
  - rewrite word_rww in Heq. apply word_inj in Heq as (Hn0&Hr0&Hw0); [|done..].
    eapply (goes_to _ _ 0 true false); [|done..]. split; try done; auto.
  - apply goes_stay. rewrite word_rww in Heq. split; try done; auto. intros -> -> ->. done.
  - rewrite word_rw in Heq. apply word_inj in Heq as (Hn0&Hr0&Hw0); [|done..].
    eapply (goes_to _ _ 0 false false); [|done..]. split; try done; auto. congruence.
  - apply goes_stay. rewrite word_rw in Heq. split; try done; auto. intros -> -> ->. done.
Qed.

Lemma go_gently c t p m' p' : ths !! t = Some p → (∀ seq, sequence p = Some seq → seq ≤ writer_notify m) →
  (∀ b, p ≠ Notify b) → rwlock_run c m p = Some (m', Go p') → goes_gently m p n r w m' p'.
Proof using Hsafe.
  intros Hl Hseq Hno Hr. destruct p; try done;
    first [by eapply try_gently; eauto 6|by eapply read_gently; eauto 10|by eapply write_gently; eauto 10|
           by eapply unlock_gently; eauto|by eapply wake_gently; eauto|by edestruct Hno].
Qed.
End steps.

(** ** The invariant of all steps *)
Definition rwlock_live (σ : sys RwLock point) : Prop :=
  ∃ n r w, safe (shared σ) (threads σ) n r w ∧
    (notifications (shared σ) < 2 ^ 32 →
     writer_notify (shared σ) = notifications (shared σ) ∧ 0 ≤ notifications (shared σ) ∧ live (shared σ) (threads σ) n r w).

Lemma live_notify m ths n r w t b : live m ths n r w → ths !! t = Some (Notify b) →
  live (MkRwLock (state m) (writer_notify m + 1) (notifications m + 1)) (<[t := WakeWriter b]> ths) n r w.
Proof.
  intros [L1 L2 L3 L4 L5 L6 L7] Hl. live_counts Hl (WakeWriter b). cbn in *.
  split; cbn [writer_notify]; try (intros; lia).
  - intros. destruct L1; auto; lia.
  - intros u [(_&?&_)|[_ Hu]]%list_lookup_insert_Some; [done|]. pose proof (L7 _ _ _ Hu eq_refl). lia.
  - intros u q seq [(_&<-&_)|[_ Hu]]%list_lookup_insert_Some Hq; [done|]. pose proof (L7 _ _ _ Hu Hq). lia.
Qed.

(** A writer is woken. *)
Lemma live_wake m ths n r w t u b q : live m ths n r w → ths !! t = Some (WakeWriter b) → ths !! u = Some q →
  asleep_on q = Some NotifyFutex → live m (<[t := Idle]> (<[u := woken q]> ths)) n r w.
Proof.
  intros [L1 L2 L3 L4 L5 L6 L7] Hl Hu Hq. destruct q; try done. cbn [woken rwlock].
  assert (t ≠ u) as Htu by congruence. set (q := WriteSpin WRITERS_WAITING 100). live_counts Hu q.
  assert (<[u := q]> ths !! t = Some (WakeWriter b)) as Hl' by by rewrite list_lookup_insert_ne.
  live_counts Hl' Idle. subst q. change (awake_writer (WriteSpin WRITERS_WAITING 100)) with true in *.
  destruct b; cbn in *; (split; try (intros; lia)).
  all: try (intros v Hv; rewrite !list_lookup_insert_Some in Hv; destruct Hv as [(_&?&_)|[_ [(_&?&_)|[_ Hv]]]];
    [done..|]; destruct (L6 v Hv); auto; lia).
  all: try (intros v q seq Hv ?; rewrite !list_lookup_insert_Some in Hv;
    destruct Hv as [(_&<-&_)|[_ [(_&<-&_)|[_ Hv]]]]; [done..|]; by eapply L7).
  all: intros; first [destruct L1; auto; lia|destruct L5; auto; lia].
Qed.

(** No writer sleeps. *)
Lemma live_wake_none m ths n r w t b : live m ths n r w → ths !! t = Some (WakeWriter b) →
  (∀ q, q ∈ ths → asleep_on q ≠ Some NotifyFutex) →
  live m (<[t := if b then WakeReaders else Idle]> ths) n r w.
Proof.
  intros [L1 L2 L3 L4 L5 L6 L7] Hl Hno. live_counts Hl (if b then WakeReaders else Idle).
  assert (count sleeping_writer ths = 0)%nat as Hz.
  { destruct (Nat.eq_0_gt_0_cases (count sleeping_writer ths)) as [|Hpos]; [done|]. exfalso.
    destruct (count_pos _ _ Hpos) as (u&q&Hq&Hs). apply (Hno q); [by eapply list_elem_of_lookup_2|by destruct q]. }
  destruct b; cbn in *; (split; try (intros; lia)).
  all: try (intros v [(_&?&_)|[_ Hv]]%list_lookup_insert_Some; [done|]; destruct (L6 v Hv); auto; lia).
  all: try (intros v q seq [(_&<-&_)|[_ Hv]]%list_lookup_insert_Some ?; [done|]; by eapply L7).
  all: intros; destruct L1; auto; lia.
Qed.

(** All the readers are woken. *)
Lemma live_wake_all m ths n r w t p p' : live m ths n r w → ths !! t = Some p →
  (p = DowngradeWake ∧ p' = Reading ∨ p = WakeAllReaders ∧ p' = Idle) →
  live m (<[t := p']> (wake_on StateFutex <$> ths)) n r w.
Proof.
  intros [L1 L2 L3 L4 L5 L6 L7] Hl Hp.
  assert (wake_on StateFutex p = p) as Hwp by by destruct Hp as [[-> _]|[-> _]].
  assert ((wake_on StateFutex <$> ths) !! t = Some p) as Hl' by by rewrite list_lookup_fmap, Hl; cbn; rewrite Hwp.
  assert (∀ P, (∀ q, P (wake_on StateFutex q) = P q) → count P (wake_on StateFutex <$> ths) = count P ths) as Hc.
  { intros P HP. unfold count. rewrite total_fmap. apply total_ext. intros q. by rewrite HP. }
  assert (count sleeping_reader (wake_on StateFutex <$> ths) = 0%nat) as Hz.
  { destruct (Nat.eq_0_gt_0_cases (count sleeping_reader (wake_on StateFutex <$> ths))) as [|Hpos]; [done|]. exfalso.
    destruct (count_pos _ _ Hpos) as (u&q&Hq&Hs). rewrite list_lookup_fmap in Hq.
    destruct (ths !! u) as [q'|]; simplify_eq/=. by destruct q'. }
  live_counts Hl' p'.
  rewrite (Hc waking_readers), (Hc waking_writers), (Hc waking_both), (Hc notifying), (Hc attending), (Hc awake_writer),
    (Hc sleeping_writer) in * by (intros []; done).
  assert (∀ (v : nat) q s, (wake_on StateFutex <$> ths) !! v = Some q → sequence q = Some s → ths !! v = Some q) as Hq.
  { intros v q s. rewrite list_lookup_fmap. destruct (ths !! v) as [q'|]; [|done]. intros [= <-]. by destruct q'. }
  destruct Hp as [[-> ->]|[-> ->]]; cbn in *; (split; try (intros; lia)).
  all: try (intros v [(_&?&_)|[_ Hv]]%list_lookup_insert_Some; [done|]; destruct (L6 v); [by eapply Hq|auto|right; lia]).
  all: try (intros v q seq [(_&<-&_)|[_ Hv]]%list_lookup_insert_Some Hs; [done|]; eapply L7; [by eapply Hq|done]).
  all: intros; destruct L5; auto; lia.
Qed.

(** What happens from outside. *)
Lemma live_outside m ths n r w σ : live m ths n r w → outside (Sys m ths) σ →
  shared σ = m ∧ live m (threads σ) n r w.
Proof.
  intros Hlive Hst. destruct Hst as [t l l' Hl Hc|t l f Hl Hf]; cbn [shared threads] in *; (split; [done|]);
    (eapply live_gentle; [exact Hlive|exact Hl|done|]).
  - destruct l; cbn in Hc; try by apply elem_of_nil in Hc. rewrite !elem_of_cons, elem_of_nil in Hc.
    apply gentle_quiet; [done| |done|auto]. by destruct Hc as [-> | [-> | [-> | [-> | []]]]].
  - destruct l; try done; cbn [woken rwlock]; split; try done; auto.
Qed.

Lemma run_notifications c m p m' (q : request point futex) : rwlock_run c m p = Some (m', q) → notifications m ≤ notifications m'.
Proof.
  destruct p; cbn; unfold compare_exchange_weak, compare_exchange; intros Hr; repeat case_match; simplify_eq; cbn; lia.
Qed.

Lemma safe_unique m' ths' n' r' w' n1 r1 w1 : safe m' ths' n' r' w' → state m' = word n1 r1 w1 →
  0 ≤ n1 < 2 ^ 30 → n' = n1 ∧ r' = r1 ∧ w' = w1.
Proof. intros [Hs Hn _ _ _ _] Heq Hn1. rewrite Hs in Heq. by apply word_inj in Heq. Qed.

Lemma live_go c m ths n r w t p m' p' : safe m ths n r w → live m ths n r w → ths !! t = Some p →
  rwlock_run c m p = Some (m', Go p') → notifications m' < 2 ^ 32 → writer_notify m = notifications m → 0 ≤ notifications m →
  ∃ n' r' w', state m' = word n' r' w' ∧ 0 ≤ n' < 2 ^ 30 ∧ writer_notify m' = notifications m' ∧ 0 ≤ notifications m' ∧
    live m' (<[t := p']> ths) n' r' w'.
Proof.
  intros Hs HL Hl Hr Hlt Heq H0. destruct (match p with Notify b => Some b | _ => None end) as [b|] eqn:Hb.
  - destruct p; try done. cbn in Hr. injection Hr as <- <-. cbn in *. exists n, r, w. destruct Hs as [Hst Hn _ _ _ _].
    unfold wrapping_u32. rewrite Z.mod_small by lia. split_and!; [done|lia..|]. by apply live_notify.
  - destruct (go_gently m ths n r w Hs c t p m' p' Hl) as (n'&r'&w'&Hst&Hn'&Hwn&Hnt&Hg); [|by intros b ->|done|].
    { intros seq Hseq. by eapply (live_sequence _ _ _ _ _ HL). }
    exists n', r', w'. split_and!; [done|lia..|]. by eapply live_gentle.
Qed.

Lemma rwlock_live_step σ σ' : rwlock_live σ → step σ σ' → rwlock_live σ'.
Proof.
  destruct σ as [m ths]. intros (n&r&w&Hs&HL) Hst. pose proof Hs as [Hword Hn _ _ _ _].
  assert (rwlock_ok σ') as (n1&r1&w1&Hs') by (eapply rwlock_ok_step; [by exists n, r, w|done]).
  exists n1, r1, w1. split; [done|]. intros Hlt.
  destruct Hst as [t c l m' l' Hl Hr|t c l m' f k u q Hl Hr Hu Hm|t c l m' f k Hl Hr Hno|t c l m' f l' Hl Hr];
    cbn [shared threads] in *; pose proof (run_notifications _ _ _ _ _ Hr);
    (destruct HL as (Heq&H0&HL); [lia|]).
  - destruct (live_go c m ths n r w t l m' l') as (n'&r'&w'&Hst&Hn'&?&?&?); [done..|].
    by destruct (safe_unique _ _ _ _ _ _ _ _ Hs' Hst Hn') as (->&->&->).
  - apply run_wake in Hr as (both&->&->&->&->). cbn [negb]. rewrite andb_false_r in *.
    destruct (safe_unique _ _ _ _ _ _ _ _ Hs' Hword Hn) as (->&->&->).
    split_and!; [done..|]. by eapply live_wake.
  - apply run_wake in Hr as (both&->&->&->&->). cbn [negb]. rewrite andb_true_r in *.
    destruct (safe_unique _ _ _ _ _ _ _ _ Hs' Hword Hn) as (->&->&->).
    split_and!; [done..|]. by eapply live_wake_none.
  - apply run_wake_all in Hr as (->&->&Hp).
    destruct (safe_unique _ _ _ _ _ _ _ _ Hs' Hword Hn) as (->&->&->).
    split_and!; [done..|]. by eapply live_wake_all.
Qed.

Lemma rwlock_live_any σ σ' : rwlock_live σ → any_step σ σ' → rwlock_live σ'.
Proof.
  intros HL [Hst|Hst]; [by eapply rwlock_live_step|]. destruct σ as [m ths], HL as (n&r&w&Hs&HL).
  assert (rwlock_ok σ') as (n1&r1&w1&Hs') by (eapply rwlock_ok_any; [by exists n, r, w|by right]).
  exists n1, r1, w1. split; [done|]. intros Hlt. cbn [shared threads] in *. pose proof Hs as [Hword Hn _ _ _ _].
  assert (shared σ' = m) as Hm by by destruct Hst.
  rewrite Hm in *. destruct (HL Hlt) as (Heq&H0&Hlive). split_and!; [done..|].
  destruct (safe_unique _ _ _ _ _ _ _ _ Hs' Hword Hn) as (->&->&->).
  by apply (live_outside _ _ _ _ _ _ Hlive).
Qed.

Lemma rwlock_live_reachable k σ : reachable (new k) σ → rwlock_live σ.
Proof.
  apply reachable_inv; [|intros; by eapply rwlock_live_any].
  assert (∀ P : point → bool, P Idle = false → count P (replicate k Idle) = 0%nat) as H0.
  { intros P HP. unfold count, total. induction k as [|k IH]; simpl; [done|]. by rewrite HP. }
  assert (rwlock_ok (new k)) as (n&r&w&Hs) by apply rwlock_ok_new. exists n, r, w. split; [done|]. intros _.
  destruct (safe_unique _ _ _ _ _ 0 false false Hs) as (->&->&->); [done..|].
  split_and!; [done..|]. split; cbn [new threads]; rewrite ?H0 by done; try lia; try done.
  - by intros t [? _]%lookup_replicate.
  - intros t p seq [-> _]%lookup_replicate. done.
Qed.

(** ** Nobody waits for nothing *)
Lemma rwlock_stuck σ : rwlock_live σ → (∀ σ', ¬ step σ σ') → notifications (shared σ) < 2 ^ 32 →
  Forall (λ p, p = Idle ∨ p = Panicked) (threads σ) ∧ state (shared σ) = 0.
Proof.
  destruct σ as [m ths]. intros (n&r&w&[Hs Hn Hlk Hcl Hwt Hpt]&HL) Hstuck Hlt. cbn [shared threads] in *.
  destruct (HL Hlt) as (_&_&[L1 L2 L3 L4 L5 L6 L7]).
  assert (∀ t p, ths !! t = Some p → p = Idle ∨ p = Panicked ∨ p = ReadAsleep ∨ p = WriteAsleep) as Hp.
  { intros t p Hl. pose proof (Hpt t p Hl) as Hok. destruct (rwlock_run true m p) as [[m' [l'|f k|f l']]|] eqn:Hr.
    - exfalso. by eapply Hstuck, (step_go _ t true).
    - exfalso. destruct (decide (Exists (λ q, asleep_on q = Some f) ths)) as [Hex|Hno].
      + apply Exists_exists in Hex as (q&Hq&Hq'). apply list_elem_of_lookup in Hq as [u Hu].
        by eapply Hstuck, (step_wake _ t true).
      + eapply Hstuck, (step_wake_none _ t true); [exact Hl|exact Hr|]. intros q Hq Hq'. apply Hno, Exists_exists. eauto.
    - exfalso. by eapply Hstuck, (step_wake_all _ t true).
    - destruct p; try done; auto. }
  assert (∀ P : point → bool, P Idle = false → P Panicked = false → P ReadAsleep = false → P WriteAsleep = false →
    count P ths = 0%nat) as H0.
  { intros P H1 H2 H3 H4. destruct (Nat.eq_0_gt_0_cases (count P ths)) as [|Hpos]; [done|].
    destruct (count_pos _ _ Hpos) as (u&q&Hq&Hr). destruct (Hp u q Hq) as [-> | [-> | [-> | ->]]]; congruence. }
  rewrite (H0 writing), (H0 reading) in Hlk by done. rewrite (H0 waking_writers) in L2, L3 by done.
  rewrite (H0 waking_both) in L3 by done.
  rewrite (H0 attending) in L4 by done. rewrite (H0 waking_readers) in L1 by done. rewrite (H0 awake_writer) in L5 by done.
  assert (n = 0) as -> by lia. assert (r = false ∧ w = false) as [-> ->].
  { destruct r, w; try done; exfalso; [specialize (L3 eq_refl eq_refl eq_refl)|specialize (L4 eq_refl eq_refl eq_refl)|
      specialize (L2 eq_refl eq_refl eq_refl)]; lia. }
  split; [|done]. apply Forall_lookup. intros t p Hl. destruct (Hp t p Hl) as [-> | [-> | [-> | ->]]]; auto; exfalso.
  - destruct L1; [by apply (count_in _ _ _ _ Hl)|done|lia].
  - destruct L5; [by apply (count_in _ _ _ _ Hl)|done|lia].
Qed.

(** ** What the futex read-write lock guarantees: [std/src/sys/sync/rwlock/futex.rs]. *)

(** C23: readers or one writer.  However the threads interleave, whatever they call
    (downgrades included), whenever a weak exchange fails or [futex_wait] returns
    without a reason: a writer is alone, the count of the state word is that of the
    readers, below its limit, or says that a writer holds the lock, and none of the
    lock's own assertions fails. *)
Theorem rwlock_exclusion (k : nat) (σ : sys RwLock point) : reachable (new k) σ →
  (∀ (t u : nat) p q, threads σ !! t = Some p → threads σ !! u = Some q →
    writing p = true → reading q || writing q = true → t = u) ∧
  Z.land (state (shared σ)) MASK =
    (if decide (count writing (threads σ) = 0%nat) then Z.of_nat (count reading (threads σ)) else WRITE_LOCKED) ∧
  Z.of_nat (count reading (threads σ)) ≤ MAX_READERS ∧
  ∀ t : nat, threads σ !! t ≠ Some Failed.
Proof.
  intros (n&r&w&[Hs Hn Hlk Hcl Hwt Hpt])%rwlock_ok_reachable. split_and!.
  - intros t u p q Hp Hq Hwp Hh. destruct (decide (t = u)) as [|Hne]; [done|exfalso].
    pose proof (count_insert writing _ _ _ Idle Hp) as H1. pose proof (count_insert reading _ _ _ Idle Hp) as H2.
    assert (reading p = false) as Hrp by by destruct p.
    assert (<[t := Idle]> (threads σ) !! u = Some q) as Hq' by by rewrite list_lookup_insert_ne.
    rewrite Hwp, Hrp in *. cbn in *. apply orb_true_iff in Hh as [Hh|Hh]; pose proof (count_in _ _ _ _ Hq' Hh); lia.
  - rewrite Hs, word_mask by done. consts. case_decide; lia.
  - consts. lia.
  - intros t Ht. by apply Hpt in Ht.
Qed.

(** A reader holds the lock, a writer calls. *)
Example readers_run : reachable (new 2) (Sys (MkRwLock 1 0 0) [Reading; Write]).
Proof.
  eapply rtc_l; [right; apply (step_call _ 0 Idle Read); [reflexivity|set_solver]|].
  eapply rtc_l; [left; by apply (step_go _ 0 true Read (MkRwLock 0 0 0) (ReadCas 0))|].
  eapply rtc_l; [left; by apply (step_go _ 0 true (ReadCas 0) (MkRwLock 1 0 0) Reading)|].
  eapply rtc_l; [right; apply (step_call _ 1 Idle Write); [reflexivity|set_solver]|]. apply rtc_refl.
Defined.

Lemma rwlock_exclusion_witness : let σ := Sys (MkRwLock 1 0 0) [Reading; Write] in
  (∀ (t u : nat) p q, threads σ !! t = Some p → threads σ !! u = Some q →
    writing p = true → reading q || writing q = true → t = u) ∧
  Z.land (state (shared σ)) MASK =
    (if decide (count writing (threads σ) = 0%nat) then Z.of_nat (count reading (threads σ)) else WRITE_LOCKED) ∧
  Z.of_nat (count reading (threads σ)) ≤ MAX_READERS ∧
  ∀ t : nat, threads σ !! t ≠ Some Failed.
Proof. apply (rwlock_exclusion 2), readers_run. Defined.

(** C24: no wake-up is lost.  As long as fewer than 2^32 writers have been
    notified ([writer_notify] would wrap around), whenever no thread has a step
    left, every thread has left the lock, none sleeps, and the lock is as new: a
    thread that waits is never forgotten, whatever the interleaving. *)
Theorem rwlock_no_lost_wakeup (k : nat) (σ : sys RwLock point) : reachable (new k) σ →
  notifications (shared σ) < 2 ^ 32 → (∀ σ', ¬ step σ σ') →
  Forall (λ p, p = Idle ∨ p = Panicked) (threads σ) ∧ state (shared σ) = 0.
Proof. intros Hσ Hlt Hstuck. by apply rwlock_stuck; [eapply rwlock_live_reachable|..]. Qed.

(** A writer has come, has become a reader, and has gone. *)
Example unlocked_run : reachable (new 2) (Sys (MkRwLock 0 0 0) [Idle; Idle]).
Proof.
  eapply rtc_l; [right; apply (step_call _ 1 Idle Write); [reflexivity|set_solver]|].
  eapply rtc_l; [left; by apply (step_go _ 1 true Write (MkRwLock WRITE_LOCKED 0 0) Writing)|].
  eapply rtc_l; [left; by apply (step_go _ 1 false Writing (MkRwLock 1 0 0) Reading)|].
  eapply rtc_l; [left; by apply (step_go _ 1 true Reading (MkRwLock 0 0 0) Idle)|]. apply rtc_refl.
Defined.

Lemma rwlock_no_lost_wakeup_witness : let σ := Sys (MkRwLock 0 0 0) [Idle; Idle] in
  Forall (λ p, p = Idle ∨ p = Panicked) (threads σ) ∧ state (shared σ) = 0.
Proof.
  apply (rwlock_no_lost_wakeup 2); [apply unlocked_run|reflexivity|].
  intros σ' Hst. destruct Hst as [[|[|]] c l s' l' Hl Hr|[|[|]] c l s' f k u m Hl Hr _ _|[|[|]] c l s' f k Hl Hr _|
    [|[|]] c l s' f l' Hl Hr]; cbn in Hl; try discriminate Hl; injection Hl as <-; discriminate Hr.
Defined.
