(* ===== verification/Once.v ===== *)
(** One-time initialisation: [std/src/sys/sync/once/futex.rs].

    The memory is the word of the [Once] and, beside it, how many closures have
    completed.  The closure of [call] may return, return after it has called
    [poison], or panic; what it does between is not modelled. *)

From S2P Require Import Prelude.
From S2P Require Import Threads.

#[local] Open Scope Z_scope.

Definition INCOMPLETE : Z := 3.
Definition POISONED : Z := 2.
Definition RUNNING : Z := 1.
Definition COMPLETE : Z := 0.
Definition QUEUED : Z := 4.
Definition STATE_MASK : Z := 3.

Record once := Once { state_and_queued : Z; completions : nat }.

(** Where a thread is; [ign] is [ignore_poisoning], [s] the value last read. *)
Inductive point :=
  | Idle
  | Returned                              (* [call] or [wait] has returned, and the closure has not poisoned the [Once] *)
  | Panicked
  | CallLoad (ign : bool)
  | CallRegister (ign : bool) (s : Z)     (* the [compare_exchange_weak] that makes it the running thread *)
  | CallQueue (ign : bool) (s : Z)        (* the one that sets [QUEUED] *)
  | CallWait (ign : bool) (s : Z)
  | CallAsleep (ign : bool)
  | Running (poisoned : bool)             (* in the closure *)
  | Finished                              (* the closure has returned *)
  | Dropping (set_state_to : Z) (unwinding : bool)
  | WakeWaiters (completed unwinding : bool)
  | WaitLoad (ign : bool)
  | WaitQueue (ign : bool) (s : Z)
  | WaitWait (ign : bool) (s : Z)
  | WaitAsleep (ign : bool)
  | Failed.                               (* the assertion of [call] *)

Definition queued (s : Z) : bool := negb (Z.land s QUEUED =? 0).

(** The body of the loops of [call] and of [wait], up to the next access *)
Definition call_loop (ign : bool) (s : Z) : point :=
  let state := Z.land s STATE_MASK in
  if state =? COMPLETE then Returned
  else if (state =? POISONED) && negb ign then Panicked
  else if (state =? INCOMPLETE) || (state =? POISONED) then CallRegister ign s
  else if negb (state =? RUNNING) then Failed
  else if queued s then CallWait ign s else CallQueue ign s.

Definition wait_loop (ign : bool) (s : Z) : point :=
  let state := Z.land s STATE_MASK in
  if state =? COMPLETE then Returned
  else if (state =? POISONED) && negb ign then Panicked
  else if queued s then WaitWait ign s else WaitQueue ign s.

Definition set_word (m : once) (w : Z) : once := Once w (completions m).

(** [compare_exchange_weak], which may fail for no reason ([c]) *)
Definition compare_exchange_weak (c : bool) (m : once) (expected new : Z) (ok : point) (err : Z → point) : once * request point () :=
  if c && (state_and_queued m =? expected) then (set_word m new, Go ok) else (m, Go (err (state_and_queued m))).

(** After the guard has been dropped *)
Definition finish (completed unwinding : bool) : point :=
  if unwinding then Panicked else if completed then Returned else Idle.

Definition once_run (c : bool) (m : once) (p : point) : option (once * request point ()) :=
  match p with
  | Idle | Returned | Panicked | Failed | CallAsleep _ | WaitAsleep _ => None
  | CallLoad ign => Some (m, Go (call_loop ign (state_and_queued m)))
  | CallRegister ign s =>
      let next := RUNNING + if queued s then QUEUED else 0 in
      Some (compare_exchange_weak c m s next (Running (Z.land s STATE_MASK =? POISONED)) (call_loop ign))
  | CallQueue ign s =>
      Some (compare_exchange_weak c m (Z.land s STATE_MASK) (s + QUEUED) (CallWait ign (s + QUEUED)) (call_loop ign))
  | CallWait ign s => Some (m, Go (if state_and_queued m =? s then CallAsleep ign else CallLoad ign))
  | Running _ => Some (m, Go (if c then Finished else Dropping POISONED true))
  | Finished => Some (m, Go (Dropping (if c then COMPLETE else POISONED) false))
  | Dropping set_state_to unwinding =>
      let completed := set_state_to =? COMPLETE in
      Some (Once set_state_to (completions m + Nat.b2n completed),
            Go (if queued (state_and_queued m) then WakeWaiters completed unwinding else finish completed unwinding))
  | WakeWaiters completed unwinding => Some (m, WakeAll () (finish completed unwinding))
  | WaitLoad ign => Some (m, Go (wait_loop ign (state_and_queued m)))
  | WaitQueue ign s =>
      Some (compare_exchange_weak c m (Z.land s STATE_MASK) (s + QUEUED) (WaitWait ign (s + QUEUED)) (wait_loop ign))
  | WaitWait ign s => Some (m, Go (if state_and_queued m =? s then WaitAsleep ign else WaitLoad ign))
  end.

#[global] Instance once_threads : Threaded once point () := {
  run_thread := once_run;
  asleep_on p := match p with CallAsleep _ | WaitAsleep _ => Some () | _ => None end;
  woken p := match p with CallAsleep ign => CallLoad ign | WaitAsleep ign => WaitLoad ign | p => p end;
  calls p := match p with Idle | Returned => [CallLoad false; CallLoad true; WaitLoad false; WaitLoad true] | _ => [] end;
}.

(** [Once::new], and [n] threads that do not use it yet *)
Definition new (n : nat) : sys once point := Sys (Once INCOMPLETE 0) (replicate n Idle).

(** [is_completed], and [state] of a [Once] that nobody uses *)
Definition is_completed (m : once) : bool := state_and_queued m =? COMPLETE.
Inductive ExclusiveState := Incomplete | Poisoned | Complete.
Definition state (m : once) : option ExclusiveState :=
  if state_and_queued m =? INCOMPLETE then Some Incomplete
  else if state_and_queued m =? POISONED then Some Poisoned
  else if state_and_queued m =? COMPLETE then Some Complete else None.
Definition set_state (m : once) (new_state : ExclusiveState) : once :=
  set_word m match new_state with Incomplete => INCOMPLETE | Poisoned => POISONED | Complete => COMPLETE end.

(** ** The invariant *)
Definition running p : bool := match p with Running _ | Finished | Dropping _ _ => true | _ => false end.
Definition sleeping p : bool := match p with CallAsleep _ | WaitAsleep _ => true | _ => false end.
Definition call_sleeping p : bool := match p with CallAsleep _ => true | _ => false end.
Definition waking p : bool := match p with WakeWaiters _ _ => true | _ => false end.
Definition returned p : bool := match p with Returned => true | WakeWaiters true false => true | _ => false end.

Definition words : list Z := [0; 1; 2; 3; 5; 6; 7].
(** A thread in [wait] that [w] lets wait *)
Definition waits (w : Z) p : bool :=
  match p with WaitLoad ign | WaitQueue ign _ | WaitWait ign _ | WaitAsleep ign => ign || (w =? INCOMPLETE + QUEUED) | _ => false end.
Definition wait_word (w : Z) : bool := (w =? INCOMPLETE + QUEUED) || (w =? POISONED + QUEUED).

(** What the local variables can be *)
Definition point_ok p : bool :=
  match p with
  | CallRegister _ s => bool_decide (s ∈ [2; 3; 6; 7])
  | CallQueue _ s => s =? 1
  | CallWait _ s => s =? 5
  | WaitQueue ign s => bool_decide (s ∈ [1; 2; 3]) && (ign || negb (s =? 2))
  | WaitWait ign s => bool_decide (s ∈ [5; 6; 7]) && (ign || negb (s =? 6))
  | Dropping s u => (s =? 0) && negb u || (s =? 2)
  | WakeWaiters c u => negb (c && u)
  | Failed => false
  | _ => true
  end.

Definition is_running (w : Z) : nat := Nat.b2n (Z.land w STATE_MASK =? RUNNING).
Definition is_queued (w : Z) : nat := Nat.b2n (queued w).

Record once_ok (σ : sys once point) : Prop := OnceOk {
  ok_word : state_and_queued (shared σ) ∈ words;
  ok_points : count (λ p, negb (point_ok p)) (threads σ) = 0%nat;
  ok_running : count running (threads σ) = is_running (state_and_queued (shared σ));
  ok_sleeping : (0 < count sleeping (threads σ) → 0 < is_queued (state_and_queued (shared σ)) + count waking (threads σ))%nat;
  ok_calls : (0 < count call_sleeping (threads σ) →
    0 < is_running (state_and_queued (shared σ)) * is_queued (state_and_queued (shared σ)) + count waking (threads σ))%nat;
  ok_waiters : wait_word (state_and_queued (shared σ)) = true → (0 < count (waits (state_and_queued (shared σ))) (threads σ))%nat;
  ok_completions : completions (shared σ) = Nat.b2n (is_completed (shared σ));
  ok_returned : (0 < count returned (threads σ))%nat → state_and_queued (shared σ) = COMPLETE;
}.

Lemma once_ok_new n : once_ok (new n).
Proof.
  assert (∀ P : point → bool, P Idle = false → count P (replicate n Idle) = 0%nat) as H0.
  { intros P HP. unfold count, total. induction n as [|n IH]; simpl; [done|]. by rewrite HP. }
  split; unfold new; cbn [shared threads state_and_queued]; rewrite ?H0 by done; try done; try lia.
  unfold words. set_solver.
Qed.

(** The counts after a change of one thread *)
#[local] Ltac counts Hl l' :=
  pose proof (count_insert (λ p, negb (point_ok p)) _ _ _ l' Hl); pose proof (count_insert running _ _ _ l' Hl);
  pose proof (count_insert sleeping _ _ _ l' Hl); pose proof (count_insert call_sleeping _ _ _ l' Hl);
  pose proof (count_insert waking _ _ _ l' Hl); pose proof (count_insert returned _ _ _ l' Hl).


Lemma points_ok ths t l : count (λ p, negb (point_ok p)) ths = 0%nat → ths !! t = Some l → point_ok l = true.
Proof. intros H Hl. apply count_zero in H. apply (Forall_lookup_1 _ _ _ _ H) in Hl. by destruct (point_ok l). Qed.

Definition in_words (w : Z) : bool := bool_decide (w ∈ words).

(** What a thread at [l] does to the word [w] for the invariant to hold still *)
Record keeps (w : Z) (l : point) (w' : Z) (l' : point) : Prop := Keeps {
  keep_word : in_words w' = true;
  keep_point : point_ok l' = true;
  keep_running : (Nat.b2n (running l') + is_running w = Nat.b2n (running l) + is_running w')%nat;
  keep_sleeping : (Nat.b2n (sleeping l') ≤ is_queued w')%nat;
  keep_queued : (is_queued w ≤ is_queued w' + Nat.b2n (waking l'))%nat;
  keep_calls : (Nat.b2n (call_sleeping l') ≤ is_running w' * is_queued w')%nat;
  keep_calls_queued : (is_running w * is_queued w ≤ is_running w' * is_queued w' + Nat.b2n (waking l'))%nat;
  keep_returned : (Nat.b2n (returned l') ≤ Nat.b2n (w' =? COMPLETE)%Z)%nat;
  keep_completed : (Nat.b2n (w =? COMPLETE)%Z ≤ Nat.b2n (w' =? COMPLETE)%Z)%nat;
  keep_waking : waking l = false;
  keep_waiters : negb (wait_word w') || waits w' l' || (w' =? w) && implb (waits w l) (waits w l') = true;
}.

Lemma in_words_cases (P : Z → Prop) : P 0 → P 1 → P 2 → P 3 → P 5 → P 6 → P 7 → ∀ w, in_words w = true → P w.
Proof. intros. unfold in_words, words in *. case_bool_decide as Hw; [|done]. set_unfold in Hw. by destruct_or! Hw; subst. Qed.

(** All the words, points and choices, with what [Hrun] computes there *)
#[local] Ltac run_cases l Hpl :=
  destruct l as [| | |ign|ign s|ign s|ign s|ign|po| |s u|co u|ign|ign s|ign s|ign|]; try done; cbn in Hpl;
  try (apply bool_decide_eq_true_1 in Hpl; set_unfold in Hpl; destruct_or! Hpl; subst s);
  try (apply andb_true_iff in Hpl as [Hpl Hpi]; apply bool_decide_eq_true_1 in Hpl; set_unfold in Hpl; destruct_or! Hpl; subst s);
  try (apply Z.eqb_eq in Hpl; subst s);
  try (apply orb_true_iff in Hpl as [[Hpl Hpu]%andb_true_iff|Hpl]; apply Z.eqb_eq in Hpl; subst s);
  try destruct ign; try destruct u; try done.

Lemma run_keeps c w n l m' l' : in_words w = true → point_ok l = true →
  (running l = true → is_running w = 1%nat) → once_run c (Once w n) l = Some (m', Go l') →
  keeps w l (state_and_queued m') l' ∧
  (completions m' + Nat.b2n (w =? COMPLETE)%Z = n + Nat.b2n (is_completed m'))%nat.
Proof.
  intros Hw Hpl. revert w Hw. apply (in_words_cases (λ w, (running l = true → is_running w = 1%nat) → once_run c (Once w n) l = Some (m', Go l') → _)).
  all: run_cases l Hpl; destruct c; try done; intros Hin Hrun; cbv -[Nat.add] in Hin, Hrun; simplify_eq; try (by specialize (Hin eq_refl)).
  all: split; [split; vm_compute; auto with lia|cbn; try lia].
Qed.

Lemma waiters_go ths t l l' w w' : ths !! t = Some l → (wait_word w = true → (0 < count (waits w) ths)%nat) →
  negb (wait_word w') || waits w' l' || (w' =? w) && implb (waits w l) (waits w l') = true →
  wait_word w' = true → (0 < count (waits w') (<[t := l']> ths))%nat.
Proof.
  intros Hl Hc Hk Hw'. rewrite Hw' in Hk. pose proof (count_insert (waits w') _ _ _ l' Hl) as Hi. destruct (waits w' l') eqn:E.
  - apply (count_in _ _ t l'); [|done]. apply list_lookup_insert_eq. by eapply lookup_lt_Some.
  - cbn in Hk. apply andb_true_iff in Hk as [->%Z.eqb_eq Hk]. specialize (Hc Hw'). rewrite E in Hk.
    destruct (waits w l); cbn in *; [done|lia].
Qed.

Lemma waiters_same ths t l l' w : ths !! t = Some l → (wait_word w = true → (0 < count (waits w) ths)%nat) →
  implb (waits w l) (waits w l') = true → wait_word w = true → (0 < count (waits w) (<[t := l']> ths))%nat.
Proof. intros Hl Hc Hk. apply (waiters_go _ _ _ _ _ _ Hl Hc). by rewrite Z.eqb_refl, Hk, orb_true_r. Qed.

Lemma once_ok_go m ths t c l m' l' : once_ok (Sys m ths) → ths !! t = Some l →
  once_run c m l = Some (m', Go l') → once_ok (Sys m' (<[t := l']> ths)).
Proof.
  intros [Hw Hp Hr Hs Hc Hwt Hn Hd] Hl Hrun. cbn [shared threads] in *. pose proof (points_ok _ _ _ Hp Hl) as Hpl.
  pose proof (count_in running _ _ _ Hl) as Hin. destruct m as [w n]. cbn [state_and_queued completions] in *.
  destruct (run_keeps c w n l m' l') as [[Kw Kp Kr Ks Kq Kc Kcq Kd Kdd Kwk Kwt] Kn]; try done.
  { by apply bool_decide_eq_true. }
  { intros Hrl. specialize (Hin Hrl). rewrite Hr in Hin. unfold is_running in *. by destruct (_ =? _); cbn in *; [|lia]. }
  counts Hl l'. clear Hrun. cbv beta in *.
  assert (Nat.b2n (negb (point_ok l)) = 0 ∧ Nat.b2n (negb (point_ok l')) = 0 ∧ Nat.b2n (waking l) = 0)%nat as (?&?&?) by by rewrite Hpl, Kp, Kwk.
  unfold is_completed in Hn. cbn [state_and_queued] in Hn.
  split; cbn [shared threads state_and_queued completions]; [by apply bool_decide_eq_true in Kw| | | | | | |]; [| | | |by eapply waiters_go| |];
    set (q := is_queued w) in *; set (q' := is_queued (state_and_queued m')) in *;
    set (r := is_running w) in *; set (r' := is_running (state_and_queued m')) in *; clearbody q q' r r'; cbn [negb Nat.b2n] in *.
  - lia.
  - lia.
  - destruct (sleeping l'), (sleeping l), (waking l'); cbn [Nat.b2n] in *; lia.
  - set (x := (r * q)%nat) in *. set (x' := (r' * q')%nat) in *. clearbody x x'.
    destruct (call_sleeping l'), (call_sleeping l), (waking l'); cbn [Nat.b2n] in *; lia.
  - lia.
  - intros Hpos. apply Z.eqb_eq. destruct (state_and_queued m' =? COMPLETE) eqn:E; [done|exfalso].
    destruct (returned l'), (returned l), (w =? COMPLETE) eqn:Ew; cbn [Nat.b2n] in *; try lia;
      apply Z.eqb_neq in Ew; apply Ew, Hd; lia.
Qed.

Lemma count_woken P ths : (∀ l, P (wake_on () l) = P l) → count P (wake_on () <$> ths) = count P ths.
Proof. intros H. unfold count. rewrite total_fmap. apply total_ext. intros l. by rewrite H. Qed.

Lemma count_none P ths : (∀ l, P (wake_on () l) = false) → count P (wake_on () <$> ths) = 0%nat.
Proof.
  intros H. unfold count. rewrite total_fmap, (total_ext _ (λ _, 0%nat)) by (intros l; by rewrite H).
  unfold total. by induction ths.
Qed.

Lemma once_ok_step σ σ' : once_ok σ → any_step σ σ' → once_ok σ'.
Proof.
  destruct σ as [m ths]. intros Hok [Hst|Hst]; cbn [shared threads] in *.
  - destruct Hst as [t c l s' l' Hl Hr|t c l s' f k u p Hl Hr Hu Hm|t c l s' f k Hl Hr Hno|t c l s' f l' Hl Hr];
      cbn [shared threads] in *.
    + by eapply once_ok_go.
    + exfalso. destruct l; cbn in Hr; unfold compare_exchange_weak in Hr; repeat case_match; done.
    + exfalso. destruct l; cbn in Hr; unfold compare_exchange_weak in Hr; repeat case_match; done.
    + destruct l; cbn in Hr; unfold compare_exchange_weak in Hr; repeat case_match; try done. simplify_eq.
      destruct Hok as [Hw Hp Hru Hs Hc Hwt Hn Hd]. cbn [shared threads] in *. pose proof (points_ok _ _ _ Hp Hl) as Hpl.
      assert (Hl' : (wake_on () <$> ths) !! t = Some (WakeWaiters completed unwinding)) by by rewrite list_lookup_fmap, Hl.
      counts Hl' (finish completed unwinding).
      rewrite (count_none sleeping), (count_none call_sleeping) in * by by intros [].
      rewrite !(count_woken _ ths) in * by by intros [].
      assert (Hwt' : wait_word (state_and_queued s') = true → (0 < count (waits (state_and_queued s')) (<[t := finish completed unwinding]> (wake_on () <$> ths)))%nat).
      { apply (waiters_same _ _ _ _ _ Hl'); [by rewrite count_woken by by intros []|by destruct completed, unwinding]. }
      destruct completed, unwinding; cbn in *; try done; split; cbn [shared threads state_and_queued completions]; try done; lia || (intros; apply Hd; lia).
  - destruct Hok as [Hw Hp Hru Hs Hc Hwt Hn Hd]. destruct Hst as [t l l' Hl Hca|t l f Hl Hf]; cbn [shared threads] in *.
    + counts Hl l'. destruct l; cbn in Hca; try done; set_unfold in Hca; destruct_or! Hca; subst l'; cbn in *;
        split; cbn [shared threads state_and_queued completions]; try done; try lia; try (intros; first [apply Hs|apply Hc|apply Hd]; lia) || (apply (waiters_same _ _ _ _ _ Hl Hwt); cbn; by try destruct (_ || _)).
    + counts Hl (woken l). destruct l; try done; cbn in *;
        split; cbn [shared threads state_and_queued completions]; try done; lia || (intros; first [apply Hs|apply Hc|apply Hd]; lia) || (apply (waiters_same _ _ _ _ _ Hl Hwt); cbn; by try destruct (_ || _)).
Qed.

Lemma once_ok_reachable n σ : reachable (new n) σ → once_ok σ.
Proof. apply reachable_inv; [apply once_ok_new|intros; by eapply once_ok_step]. Qed.

(** ** Termination *)
(** Exchanges that fail only where the value is not the expected one *)
Definition strong_run (c : bool) (m : once) (p : point) : option (once * request point ()) :=
  match p with CallRegister _ _ | CallQueue _ _ | WaitQueue _ _ => once_run true m p | _ => once_run c m p end.

Definition strong_threads : Threaded once point () := {| run_thread := strong_run; asleep_on := asleep_on; woken := woken; calls := calls |}.
Definition strong_step : sys once point → sys once point → Prop := @step once point () _ strong_threads.

Lemma strong_is_step σ σ' : strong_step σ σ' → step σ σ'.
Proof.
  assert (Hrun : ∀ c m p, ∃ c', strong_run c m p = once_run c' m p) by (intros c m []; cbn [strong_run]; eauto).
  intros [t c l s' l' Hl Hr|t c l s' f k u p Hl Hr Hu Hm|t c l s' f k Hl Hr Hno|t c l s' f l' Hl Hr];
    cbn [run_thread strong_threads] in Hr; destruct (Hrun c (shared σ) l) as [c' Hc']; rewrite Hc' in Hr.
  - exact (step_go σ t c' l s' l' Hl Hr).
  - exact (step_wake σ t c' l s' f k u p Hl Hr Hu Hm).
  - exact (step_wake_none σ t c' l s' f k Hl Hr Hno).
  - exact (step_wake_all σ t c' l s' f l' Hl Hr).
Qed.

(** What is left of the calls; how often the word can change before a closure has
    ended; and how far a thread can go while it does not change. *)
Definition unfinished p : nat :=
  match p with
  | CallLoad _ | CallRegister _ _ | CallQueue _ _ | CallWait _ _ | CallAsleep _ | Running _ | Finished | Dropping _ _ => 2
  | WakeWaiters _ _ => 1
  | _ => 0
  end.
Definition word_rank (w : Z) : nat := (match is_running w with O => 3 | _ => 1 end - is_queued w)%nat.
Definition rank (w : Z) p : nat :=
  match p with
  | CallLoad _ | WaitLoad _ => 2
  | CallRegister _ s | CallQueue _ s | WaitQueue _ s => if (s =? w)%Z then 1 else 2
  | CallWait _ s | WaitWait _ s => if (s =? w)%Z then 1 else 3
  | Running _ => 3
  | Finished => 2
  | Dropping _ _ => 1
  | _ => 0
  end.
Definition once_measure (σ : sys once point) : nat * nat * nat :=
  (total unfinished (threads σ), word_rank (state_and_queued (shared σ)), total (rank (state_and_queued (shared σ))) (threads σ)).

Lemma run_less c w n l m' l' : in_words w = true → point_ok l = true → strong_run c (Once w n) l = Some (m', Go l') →
  (unfinished l' < unfinished l ∨ unfinished l' = unfinished l ∧
   (word_rank (state_and_queued m') < word_rank w ∨ state_and_queued m' = w ∧ rank w l' < rank w l))%nat.
Proof.
  intros Hw Hpl. revert w Hw. apply (in_words_cases (λ w, strong_run c (Once w n) l = Some (m', Go l') → _)).
  all: run_cases l Hpl; destruct c; try done; intros Hrun; cbv -[Nat.add] in Hrun; simplify_eq; vm_compute; auto with lia.
Qed.

Lemma once_step_less σ σ' : once_ok σ → strong_step σ σ' → lex_lt (once_measure σ') (once_measure σ).
Proof.
  destruct σ as [[w n] ths]. intros [Hw Hp _ _ _ _ _ _] Hst. apply (bool_decide_eq_true_2 _) in Hw.
  unfold lex_lt, once_measure. cbn [shared threads state_and_queued] in *.
  destruct Hst as [t c l s' l' Hl Hr|t c l s' f k u p Hl Hr Hu Hm|t c l s' f k Hl Hr Hno|t c l s' f l' Hl Hr];
    cbn [run_thread strong_threads shared threads fst snd] in *; pose proof (points_ok _ _ _ Hp Hl) as Hpl.
  - pose proof (total_insert unfinished _ _ _ l' Hl). pose proof (total_insert (rank w) _ _ _ l' Hl).
    destruct (run_less c w n l s' l' Hw Hpl Hr) as [?|[? [?|[-> ?]]]]; lia.
  - exfalso. destruct l; cbn in Hr; unfold compare_exchange_weak in Hr; repeat case_match; done.
  - exfalso. destruct l; cbn in Hr; unfold compare_exchange_weak in Hr; repeat case_match; done.
  - left. destruct l; cbn in Hr; unfold compare_exchange_weak in Hr; repeat case_match; try done. simplify_eq.
    assert (Hl' : (wake_on (Threaded0 := strong_threads) () <$> ths) !! t = Some (WakeWaiters completed unwinding)) by by rewrite list_lookup_fmap, Hl.
    pose proof (total_insert unfinished _ _ _ (finish completed unwinding) Hl') as Hins.
    rewrite total_fmap, (total_ext (λ l, unfinished (_ l)) unfinished) in Hins by by intros [].
    destruct completed, unwinding; cbn in *; lia.
Qed.

Lemma once_terminates σ : once_ok σ → sn strong_step σ.
Proof.
  apply (sn_by (Threaded0 := strong_threads) once_ok once_measure). intros σ1 σ2 Hok Hst.
  split; [|by apply once_step_less]. eapply once_ok_step; [done|]. left. by apply strong_is_step.
Qed.

Lemma once_can_run m p : point_ok p = true →
  p = Idle ∨ p = Returned ∨ p = Panicked ∨ (∃ ign, p = CallAsleep ign) ∨ (∃ ign, p = WaitAsleep ign) ∨
  (∃ c u, p = WakeWaiters c u) ∨ ∃ s' l', strong_run true m p = Some (s', Go l').
Proof.
  destruct p; try done; intros _; cbn; unfold compare_exchange_weak; eauto 12; repeat case_match; eauto 12.
Qed.

Lemma once_stuck σ : once_ok σ → (∀ σ', ¬ strong_step σ σ') → ∀ t p, threads σ !! t = Some p →
  p = Idle ∨ p = Returned ∨ p = Panicked ∨ (∃ ign, p = WaitAsleep ign) ∧ state_and_queued (shared σ) ∈ [INCOMPLETE + QUEUED; POISONED + QUEUED].
Proof.
  destruct σ as [m ths]. intros [Hw Hp Hr Hs Hc _ _ _] Hstuck. cbn [shared threads] in *.
  assert (Hall : ∀ t p, ths !! t = Some p → p = Idle ∨ p = Returned ∨ p = Panicked ∨ (∃ ign, p = CallAsleep ign) ∨ ∃ ign, p = WaitAsleep ign).
  { intros t p Hl. destruct (once_can_run m p (points_ok _ _ _ Hp Hl)) as [|[|[|[|[|[(co&u&->)|(s'&l'&Hrun)]]]]]]; auto 6; exfalso.
    - by eapply Hstuck, (step_wake_all (Threaded0 := strong_threads) _ t true).
    - by eapply Hstuck, (step_go (Threaded0 := strong_threads) _ t true). }
  assert (Hz : ∀ P : point → bool, (∀ p, P p = true → running p = true ∨ waking p = true) → count P ths = 0%nat).
  { intros P HP. destruct (Nat.eq_0_gt_0_cases (count P ths)) as [|Hpos]; [done|]. exfalso.
    destruct (count_pos _ _ Hpos) as (u&q&Hq&Hpq). apply HP in Hpq.
    destruct (Hall u q Hq) as [->|[->|[->|[[? ->]|[? ->]]]]]; cbn in Hpq; by destruct Hpq. }
  rewrite (Hz running) in Hr by auto. rewrite (Hz waking) in Hs, Hc by auto.
  intros t p Hl. destruct (Hall t p Hl) as [|[|[|[[ign ->]|[ign ->]]]]]; auto.
  - pose proof (count_in call_sleeping _ _ _ Hl eq_refl). rewrite <- Hr in Hc. lia.
  - do 3 right. split; [eauto|]. pose proof (count_in sleeping _ _ _ Hl eq_refl) as H. specialize (Hs H).
    unfold words in Hw. set_unfold. unfold is_running, is_queued in *. destruct_or! Hw; rewrite Hw in *;
      first [by left|by right; left|by vm_compute in Hr|exfalso; revert Hs; vm_compute; lia].
Qed.

(** Nothing is left behind in the word of a [Once] that nobody uses. *)
Lemma once_state_unused σ : once_ok σ → (∀ t p, threads σ !! t = Some p → p ∈ [Idle; Returned; Panicked]) → is_Some (state (shared σ)).
Proof.
  intros [Hw Hp Hr _ _ Hwt _ _] Hall.
  assert (Hz : ∀ P : point → bool, P Idle = false → P Returned = false → P Panicked = false → count P (threads σ) = 0%nat).
  { intros P H1 H2 H3. destruct (Nat.eq_0_gt_0_cases (count P (threads σ))) as [|Hpos]; [done|]. exfalso.
    destruct (count_pos _ _ Hpos) as (t&p&Ht&HP). apply Hall in Ht. set_unfold in Ht. destruct_or! Ht; subst p; congruence. }
  rewrite (Hz running) in Hr by done. rewrite (Hz (waits _)) in Hwt by done. unfold state, is_running in *.
  unfold words in Hw. set_unfold. destruct_or! Hw; rewrite Hw in *; try (by vm_compute in Hr); try (by eexists); exfalso; specialize (Hwt eq_refl); lia.
Qed.

Lemma completions_le σ σ' : any_step σ σ' → (completions (shared σ) ≤ completions (shared σ'))%nat.
Proof.
  intros [Hst|Hst]; destruct Hst as [t c l s' l' Hl Hr|t c l s' f k u p Hl Hr Hu Hm|t c l s' f k Hl Hr Hno|t c l s' f l' Hl Hr] || destruct Hst;
    cbn [shared] in *; try done;
    destruct l; cbn in Hr; unfold compare_exchange_weak, set_word in Hr; repeat case_match; simplify_eq; cbn; lia.
Qed.

(** ** Properties *)
(** C39: at most once.  However the threads interleave, whatever they call, whenever a
    closure panics or poisons, a weak exchange fails or [futex_wait] returns without
    a reason: at most one thread is in a closure, one closure at most completes, and
    exactly then the [Once] is completed; from then on no closure runs and it stays
    completed; a call that returned finds it completed; and neither the
    assertion of [call] nor the [unreachable!] of [state] is reached. *)
Theorem once_exclusion (n : nat) (σ : sys once point) : reachable (new n) σ →
  (∀ t u p q, threads σ !! t = Some p → threads σ !! u = Some q → running p = true → running q = true → t = u) ∧
  completions (shared σ) = Nat.b2n (is_completed (shared σ)) ∧
  (is_completed (shared σ) = true → ∀ t p, threads σ !! t = Some p → running p = false) ∧
  (is_completed (shared σ) = true → ∀ σ', reachable σ σ' → is_completed (shared σ') = true) ∧
  (∀ t, threads σ !! t = Some Returned → is_completed (shared σ) = true) ∧
  (∀ t, threads σ !! t ≠ Some Failed) ∧
  ((∀ t p, threads σ !! t = Some p → p ∈ [Idle; Returned; Panicked]) → is_Some (state (shared σ))).
Proof.
  intros Hσ. pose proof (once_ok_reachable n σ Hσ) as Hok. pose proof Hok as [_ Hp Hr _ _ _ Hn Hd]. split_and!.
  - intros t u p q Ht Hu Hrp Hrq. destruct (decide (t = u)) as [|Hne]; [done|exfalso].
    pose proof (count_insert running _ _ _ Idle Ht) as H1. rewrite Hrp in H1. cbn in H1.
    assert (<[t := Idle]> (threads σ) !! u = Some q) as Hu' by by rewrite list_lookup_insert_ne.
    pose proof (count_in running _ _ _ Hu' Hrq). unfold is_running in Hr. destruct (_ =? _); cbn in Hr; lia.
  - done.
  - intros Hco t p Ht. apply not_true_iff_false. intros Hrp. pose proof (count_in running _ _ _ Ht Hrp).
    apply Z.eqb_eq in Hco. rewrite Hco in Hr. change (count running (threads σ) = 0%nat) in Hr. lia.
  - intros Hco σ' Hσ'. assert (H1 : (1 ≤ completions (shared σ'))%nat).
    { apply (reachable_inv (λ σ', 1 ≤ completions (shared σ'))%nat σ); [rewrite Hn, Hco; done| |done].
      intros σ1 σ2 ? Hst. cbv beta in *. pose proof (completions_le _ _ Hst). lia. }
    destruct (once_ok_reachable n σ') as [_ _ _ _ _ _ Hn' _]; [by unfold reachable in *; etrans|]. by destruct (is_completed (shared σ')); cbn in Hn'; [|lia].
  - intros t Ht. apply Z.eqb_eq, Hd. by apply (count_in _ _ t Returned).
  - intros t Ht. by apply (points_ok _ _ _ Hp) in Ht.
  - by apply once_state_unused.
Qed.

(** A closure runs, and another thread waits for it. *)
Lemma once_exclusion_witness : let σ := Sys (Once 5 0) [Running false; WaitAsleep false] in
  (∀ t u p q, threads σ !! t = Some p → threads σ !! u = Some q → running p = true → running q = true → t = u) ∧
  completions (shared σ) = Nat.b2n (is_completed (shared σ)) ∧
  (is_completed (shared σ) = true → ∀ t p, threads σ !! t = Some p → running p = false) ∧
  (is_completed (shared σ) = true → ∀ σ', reachable σ σ' → is_completed (shared σ') = true) ∧
  (∀ t, threads σ !! t = Some Returned → is_completed (shared σ) = true) ∧
  (∀ t, threads σ !! t ≠ Some Failed) ∧
  ((∀ t p, threads σ !! t = Some p → p ∈ [Idle; Returned; Panicked]) → is_Some (state (shared σ))).
Proof.
  apply (once_exclusion 2).
  eapply rtc_l; [right; apply (step_call _ 0 Idle (CallLoad false)); [reflexivity|set_solver]|].
  eapply rtc_l; [right; apply (step_call _ 1 Idle (WaitLoad false)); [reflexivity|set_solver]|].
  eapply rtc_l; [left; by apply (step_go _ 0 true (CallLoad false) (Once 3 0) (CallRegister false 3))|].
  eapply rtc_l; [left; by apply (step_go _ 0 true (CallRegister false 3) (Once 1 0) (Running false))|].
  eapply rtc_l; [left; by apply (step_go _ 1 true (WaitLoad false) (Once 1 0) (WaitQueue false 1))|].
  eapply rtc_l; [left; by apply (step_go _ 1 true (WaitQueue false 1) (Once 5 0) (WaitWait false 5))|].
  eapply rtc_l; [left; by apply (step_go _ 1 true (WaitWait false 5) (Once 5 0) (WaitAsleep false))|]. apply rtc_refl.
Defined.

(** C40: no lost wake-up.  When no further calls are made, [futex_wait] returns only
    when woken and the exchanges fail only where the value differs, every run comes
    to an end.  Then every [call] has returned or panicked, and a [wait] sleeps only
    if no closure has completed and none has started since it began to wait. *)
Theorem once_no_lost_wakeup (n : nat) (σ : sys once point) : reachable (new n) σ →
  sn strong_step σ ∧
  ∀ σ', rtc strong_step σ σ' → (∀ σ'', ¬ strong_step σ' σ'') → ∀ t p, threads σ' !! t = Some p →
    p = Idle ∨ p = Returned ∨ p = Panicked ∨
    (∃ ign, p = WaitAsleep ign) ∧ state_and_queued (shared σ') ∈ [INCOMPLETE + QUEUED; POISONED + QUEUED].
Proof.
  intros Hσ%once_ok_reachable. split; [by apply once_terminates|]. intros σ' Hrun. apply once_stuck. revert Hσ.
  induction Hrun as [|σ1 σ2 σ3 H12 _ IH]; [done|]. intros Hok. apply IH. eapply once_ok_step; [done|].
  left. by apply strong_is_step.
Qed.

Lemma once_no_lost_wakeup_witness : let σ := Sys (Once 5 0) [Running false; WaitAsleep false] in
  sn strong_step σ ∧
  ∀ σ', rtc strong_step σ σ' → (∀ σ'', ¬ strong_step σ' σ'') → ∀ t p, threads σ' !! t = Some p →
    p = Idle ∨ p = Returned ∨ p = Panicked ∨
    (∃ ign, p = WaitAsleep ign) ∧ state_and_queued (shared σ') ∈ [INCOMPLETE + QUEUED; POISONED + QUEUED].
Proof.
  apply (once_no_lost_wakeup 2).
  eapply rtc_l; [right; apply (step_call _ 0 Idle (CallLoad false)); [reflexivity|set_solver]|].
  eapply rtc_l; [right; apply (step_call _ 1 Idle (WaitLoad false)); [reflexivity|set_solver]|].
  eapply rtc_l; [left; by apply (step_go _ 0 true (CallLoad false) (Once 3 0) (CallRegister false 3))|].
  eapply rtc_l; [left; by apply (step_go _ 0 true (CallRegister false 3) (Once 1 0) (Running false))|].
  eapply rtc_l; [left; by apply (step_go _ 1 true (WaitLoad false) (Once 1 0) (WaitQueue false 1))|].
  eapply rtc_l; [left; by apply (step_go _ 1 true (WaitQueue false 1) (Once 5 0) (WaitWait false 5))|].
  eapply rtc_l; [left; by apply (step_go _ 1 true (WaitWait false 5) (Once 5 0) (WaitAsleep false))|]. apply rtc_refl.
Defined.
