(* ===== verification/Arc.v ===== *)
(** Reference counting between threads: [alloc/src/sync.rs].

    One allocation and all the handles to it.  A handle, an [Arc] or a [Weak], may
    be borrowed by any number of operations that take it by shared reference, each
    in its own thread; operations that consume the handle or borrow it mutably
    start when no other operation borrows it, as the type system demands.  Every
    access to the counters or to the value is one atomic step, and checks that the
    memory has not been given back; memory is sequentially consistent. *)

From S2P Require Import Prelude.
From S2P Require Import Threads.

#[local] Open Scope Z_scope.

Definition MAX_REFCOUNT : Z := 2 ^ 63 - 1.
Definition usize_MAX : Z := 2 ^ 64 - 1.
Definition wrapping_usize (x : Z) : Z := x mod 2 ^ 64.

(** ** The allocation *)
Inductive contents := Uninit | Alive | Taken.

(** [ArcInner]; [freed] says whether the block has been given back, [takes] and
    [frees] count how often the value was dropped or moved out and the block freed. *)
Record ArcInner := MkInner { strong : Z; weak : Z; data : contents; freed : bool; takes : nat; frees : nat }.

Definition set_strong (n : Z) (a : ArcInner) : ArcInner := MkInner n (weak a) (data a) (freed a) (takes a) (frees a).
Definition set_weak (n : Z) (a : ArcInner) : ArcInner := MkInner (strong a) n (data a) (freed a) (takes a) (frees a).
Definition write_data (a : ArcInner) : ArcInner := MkInner (strong a) (weak a) Alive (freed a) (takes a) (frees a).
Definition take_data (a : ArcInner) : ArcInner := MkInner (strong a) (weak a) Taken (freed a) (S (takes a)) (frees a).
Definition free (a : ArcInner) : ArcInner := MkInner (strong a) (weak a) (data a) true (takes a) (S (frees a)).

(** ** Operations in progress *)
(** Those that borrow a handle: [Clone], [Downgrade] and the reading of the value
    and of the counters on an [Arc]; [Upgrade], [WeakClone], [WeakCounts] on a [Weak]. *)
Inductive op :=
  | Clone | CloneCheck (old_size : Z)
  | Deref
  | Downgrade | DowngradeCas (cur : Z)
  | StrongCount | WeakCount
  | Upgrade | UpgradeCas (n : Z)
  | WeakClone | WeakCloneCheck (old_size : Z)
  | WeakCounts | WeakCountsStrong (weak : Z).

(** A handle that exists, with the operations that borrow it, or one that an
    operation has consumed or borrowed mutably.  [ArcForgotten] and [WeakForgotten]
    have been passed to [mem::forget]; [MutBorrow] is an [Arc] whose value a
    [&mut T] refers to; [Cyclic] is the [Weak] of [new_cyclic]. *)
Inductive handle :=
  | ArcRef (ops : list op) | WeakRef (ops : list op)
  | ArcForgotten | WeakForgotten | Gone
  | Drop | DropSlow | WeakDrop | Free
  | TryUnwrap | IntoInner | TakeData
  | IsUnique | IsUniqueLoad | IsUniqueStore (unique : bool) | MutBorrow
  | MakeMut | MakeMutClone | MakeMutWeak | MakeMutMove | MakeMutStore
  | Cyclic (ops : list op) | CyclicWrite | CyclicAdd.

(** What a step comes to: it goes on with [next] and may have made a new handle; the
    process aborts; or the step has undefined behaviour. *)
Inductive outcome (A : Type) := Ok (a : ArcInner) (next : A) (made : list handle) | Abort | Undefined.
Arguments Ok {A} a next made.
Arguments Abort {A}.
Arguments Undefined {A}.

Definition access {A} (a : ArcInner) (k : outcome A) : outcome A := if freed a then Undefined else k.
Definition on_value {A} (a : ArcInner) (k : outcome A) : outcome A :=
  access a match data a with Alive => k | _ => Undefined end.

(** [compare_exchange_weak] may fail for no reason ([c] is false). *)
Definition exchange {A} (c : bool) (value expected : Z) (ok err : outcome A) : outcome A :=
  if c && (value =? expected) then ok else err.

(** The loop of [downgrade] with [cur], a panic ends the operation. *)
Definition downgrade_loop (a : ArcInner) (cur : Z) : outcome (option op) :=
  if cur =? usize_MAX then Ok a (Some Downgrade) []
  else if cur <=? MAX_REFCOUNT then Ok a (Some (DowngradeCas cur)) [] else Ok a None [].

(** The loop of [fetch_update] with [checked_increment]. *)
Definition upgrade_loop (a : ArcInner) (n : Z) : outcome (option op) :=
  if n =? 0 then Ok a None [] else if n <=? MAX_REFCOUNT then Ok a (Some (UpgradeCas n)) [] else Ok a None [].

(** A subtraction that must not underflow. *)
Definition minus_one (a : ArcInner) (n : Z) : outcome (option op) := if n <=? 0 then Undefined else Ok a None [].

(** [Arc::clone] *)
Definition clone_add (a : ArcInner) : outcome (option op) :=
  access a (Ok (set_strong (wrapping_usize (strong a + 1)) a) (Some (CloneCheck (strong a))) []).
Definition clone_check (a : ArcInner) (old_size : Z) : outcome (option op) :=
  if MAX_REFCOUNT <? old_size then Abort else Ok a None [ArcRef []].

(** [Arc::deref], and the use of the value *)
Definition deref (a : ArcInner) : outcome (option op) := on_value a (Ok a None []).

(** [Arc::downgrade] *)
Definition downgrade_load (a : ArcInner) : outcome (option op) := access a (downgrade_loop a (weak a)).
Definition downgrade_cas (c : bool) (a : ArcInner) (cur : Z) : outcome (option op) :=
  access a (exchange c (weak a) cur (Ok (set_weak (cur + 1) a) None [WeakRef []]) (downgrade_loop a (weak a))).

(** [Arc::strong_count], [Weak::strong_count], [Arc::weak_count], and [Weak::weak_count] *)
Definition strong_count (a : ArcInner) : outcome (option op) := access a (Ok a None []).
Definition weak_count (a : ArcInner) : outcome (option op) :=
  access a (if weak a =? usize_MAX then Ok a None [] else minus_one a (weak a)).
Definition weak_weak_count (a : ArcInner) : outcome (option op) := access a (Ok a (Some (WeakCountsStrong (weak a))) []).
Definition weak_weak_count_strong (a : ArcInner) (weak : Z) : outcome (option op) :=
  access a (if strong a =? 0 then Ok a None [] else minus_one a weak).

(** [Weak::upgrade] *)
Definition upgrade_load (a : ArcInner) : outcome (option op) := access a (upgrade_loop a (strong a)).
Definition upgrade_cas (c : bool) (a : ArcInner) (n : Z) : outcome (option op) :=
  access a (exchange c (strong a) n (Ok (set_strong (n + 1) a) None [ArcRef []]) (upgrade_loop a (strong a))).

(** [Weak::clone] *)
Definition weak_clone_add (a : ArcInner) : outcome (option op) :=
  access a (Ok (set_weak (wrapping_usize (weak a + 1)) a) (Some (WeakCloneCheck (weak a))) []).
Definition weak_clone_check (a : ArcInner) (old_size : Z) : outcome (option op) :=
  if MAX_REFCOUNT <? old_size then Abort else Ok a None [WeakRef []].

Definition run_op (c : bool) (a : ArcInner) (o : op) : outcome (option op) :=
  match o with
  | Clone => clone_add a
  | CloneCheck old_size => clone_check a old_size
  | Deref => deref a
  | Downgrade => downgrade_load a
  | DowngradeCas cur => downgrade_cas c a cur
  | StrongCount => strong_count a
  | WeakCount => weak_count a
  | Upgrade => upgrade_load a
  | UpgradeCas n => upgrade_cas c a n
  | WeakClone => weak_clone_add a
  | WeakCloneCheck old_size => weak_clone_check a old_size
  | WeakCounts => weak_weak_count a
  | WeakCountsStrong weak => weak_weak_count_strong a weak
  end.

(** [Arc::drop], [drop_slow], [Weak::drop] *)
Definition drop_strong (a : ArcInner) : outcome handle :=
  access a (Ok (set_strong (wrapping_usize (strong a - 1)) a) (if strong a =? 1 then DropSlow else Gone) []).
Definition drop_slow (a : ArcInner) : outcome handle := on_value a (Ok (take_data a) WeakDrop []).
Definition drop_weak (a : ArcInner) : outcome handle :=
  access a (Ok (set_weak (wrapping_usize (weak a - 1)) a) (if weak a =? 1 then Free else Gone) []).
Definition deallocate (a : ArcInner) : outcome handle := access a (Ok (free a) Gone []).

(** [Arc::try_unwrap], [Arc::into_inner] *)
Definition try_unwrap (a : ArcInner) : outcome handle :=
  access a (exchange true (strong a) 1 (Ok (set_strong 0 a) TakeData []) (Ok a (ArcRef []) [])).
Definition into_inner (a : ArcInner) : outcome handle :=
  access a (Ok (set_strong (wrapping_usize (strong a - 1)) a) (if strong a =? 1 then TakeData else Gone) []).
Definition read_out (a : ArcInner) : outcome handle := on_value a (Ok (take_data a) WeakDrop []).

(** [Arc::is_unique], and the end of the borrow that [get_mut] gives *)
Definition is_unique_lock (a : ArcInner) : outcome handle :=
  access a (exchange true (weak a) 1 (Ok (set_weak usize_MAX a) IsUniqueLoad []) (Ok a (ArcRef []) [])).
Definition is_unique_load (a : ArcInner) : outcome handle := access a (Ok a (IsUniqueStore (strong a =? 1)) []).
Definition is_unique_store (a : ArcInner) (unique : bool) : outcome handle :=
  access a (Ok (set_weak 1 a) (if unique then MutBorrow else ArcRef []) []).
Definition get_mut_end (a : ArcInner) : outcome handle := on_value a (Ok a (ArcRef []) []).

(** [Arc::make_mut]; cloning the value panics when [c] is false. *)
Definition make_mut_cas (a : ArcInner) : outcome handle :=
  access a (exchange true (strong a) 1 (Ok (set_strong 0 a) MakeMutWeak []) (Ok a MakeMutClone [])).
Definition make_mut_clone (c : bool) (a : ArcInner) : outcome handle := on_value a (Ok a (if c then Drop else ArcRef []) []).
Definition make_mut_weak (a : ArcInner) : outcome handle :=
  access a (Ok a (if weak a =? 1 then MakeMutStore else MakeMutMove) []).
Definition make_mut_move (a : ArcInner) : outcome handle := on_value a (Ok (take_data a) WeakDrop []).
Definition make_mut_store (a : ArcInner) : outcome handle := access a (Ok (set_strong 1 a) MutBorrow []).

(** [Arc::new_cyclic] after its closure has returned *)
Definition cyclic_write (a : ArcInner) : outcome handle := access a (Ok (write_data a) CyclicAdd []).
Definition cyclic_add (a : ArcInner) : outcome handle :=
  access a (Ok (set_strong (wrapping_usize (strong a + 1)) a) (ArcRef []) []).

(** The steps of an operation that owns its handle; [None] where it has none. *)
Definition run_handle (c : bool) (a : ArcInner) (h : handle) : option (outcome handle) :=
  match h with
  | ArcRef _ | WeakRef _ | ArcForgotten | WeakForgotten | Gone | Cyclic _ => None
  | Drop => Some (drop_strong a)
  | DropSlow => Some (drop_slow a)
  | WeakDrop => Some (drop_weak a)
  | Free => Some (deallocate a)
  | TryUnwrap => Some (try_unwrap a)
  | IntoInner => Some (into_inner a)
  | TakeData => Some (read_out a)
  | IsUnique => Some (is_unique_lock a)
  | IsUniqueLoad => Some (is_unique_load a)
  | IsUniqueStore unique => Some (is_unique_store a unique)
  | MutBorrow => Some (get_mut_end a)
  | MakeMut => Some (make_mut_cas a)
  | MakeMutClone => Some (make_mut_clone c a)
  | MakeMutWeak => Some (make_mut_weak a)
  | MakeMutMove => Some (make_mut_move a)
  | MakeMutStore => Some (make_mut_store a)
  | CyclicWrite => Some (cyclic_write a)
  | CyclicAdd => Some (cyclic_add a)
  end.

(** ** The system *)
Record state := State { inner : ArcInner; handles : list handle }.

Definition borrows (h : handle) : list op := match h with ArcRef ops | WeakRef ops | Cyclic ops => ops | _ => [] end.
Definition with_ops (h : handle) (ops : list op) : handle :=
  match h with ArcRef _ => ArcRef ops | WeakRef _ => WeakRef ops | Cyclic _ => Cyclic ops | h => h end.
(** The operations that a handle can be borrowed for, or given to. *)
Definition shared_calls (h : handle) : list op :=
  match h with
  | ArcRef _ => [Clone; Deref; Downgrade; StrongCount; WeakCount]
  | WeakRef _ | Cyclic _ => [Upgrade; WeakClone; StrongCount; WeakCounts]
  | _ => []
  end.
Definition owned_calls (h : handle) : list handle :=
  match h with
  | ArcRef [] => [Drop; TryUnwrap; IntoInner; IsUnique; MakeMut; ArcForgotten]
  | WeakRef [] => [WeakDrop; WeakForgotten]
  | Cyclic [] => [CyclicWrite; WeakDrop]
  | _ => []
  end.

(** Threads at work on borrowed handles. *)
Definition at_work (hs : list handle) : nat := total (λ h, length (borrows h)) hs.

(** One operation goes on. *)
Definition next_ops (ops : list op) (j : nat) (next : option op) : list op :=
  match next with Some o => <[j := o]> ops | None => delete j ops end.

Section steps.
(** How many threads there can be. *)
Context (max_threads : nat).

Inductive step : state → state → Prop :=
  | step_op a hs c i h j o a' next made : hs !! i = Some h → borrows h !! j = Some o →
      run_op c a o = Ok a' next made →
      step (State a hs) (State a' (<[i := with_ops h (next_ops (borrows h) j next)]> hs ++ made))
  | step_handle a hs c i h a' h' made : hs !! i = Some h → run_handle c a h = Some (Ok a' h' made) →
      step (State a hs) (State a' (<[i := h']> hs ++ made))
  | step_borrow a hs i h o : hs !! i = Some h → o ∈ shared_calls h → (at_work hs < max_threads)%nat →
      step (State a hs) (State a (<[i := with_ops h (o :: borrows h)]> hs))
  | step_own a hs i h h' : hs !! i = Some h → h' ∈ owned_calls h →
      step (State a hs) (State a (<[i := h']> hs)).

(** A step with undefined behaviour is possible. *)
Inductive undefined : state → Prop :=
  | undefined_op a hs c i h j o : hs !! i = Some h → borrows h !! j = Some o → run_op c a o = Undefined → undefined (State a hs)
  | undefined_handle a hs c i h : hs !! i = Some h → run_handle c a h = Some Undefined → undefined (State a hs).

Definition new_arc : state := State (MkInner 1 1 Alive false 0 0) [ArcRef []].
Definition new_cyclic : state := State (MkInner 0 1 Uninit false 0 0) [Cyclic []].

Definition reachable (σ : state) : Prop := rtc step new_arc σ ∨ rtc step new_cyclic σ.
End steps.
