(* ===== verification/ArcSpec.v ===== *)
(** The invariant of reference counting: what the counters count, who will drop the
    value and who will free the block. *)

From S2P Require Import Prelude.
From S2P Require Import Threads.
From S2P Require Import Arc.

#[local] Open Scope Z_scope.
Implicit Types (a : ArcInner) (h : handle) (hs : list handle) (o : op) (ops : list op) (i j : nat).

(** ** Sums *)
Lemma total_app {L} (w : L → nat) l1 l2 : total w (l1 ++ l2) = (total w l1 + total w l2)%nat.
Proof. unfold total. induction l1 as [|x l1 IH]; simpl; [done|lia]. Qed.

Lemma total_delete {L} (w : L → nat) l i x : l !! i = Some x → (total w (delete i l) + w x = total w l)%nat.
Proof.
  unfold total. revert i. induction l as [|y l IH]; intros [|i] Hx; simplify_eq/=; [lia|].
  pose proof (IH i Hx). simpl. lia.
Qed.

(** What is counted elsewhere than at [i]. *)
Lemma total_apart {L} (w v : L → nat) l i x : l !! i = Some x → (∀ y, w y ≤ v y)%nat → w x = 0%nat →
  (total w l + v x ≤ total v l)%nat.
Proof.
  intros Hx Hle H0. revert i Hx. unfold total. induction l as [|y l IH]; intros [|i] Hx; simplify_eq/=.
  - rewrite H0. pose proof (total_le w v l Hle) as H. unfold total in H. lia.
  - pose proof (IH i Hx). pose proof (Hle y). lia.
Qed.

(** ** What each handle and each operation stands for *)
(** References counted by [strong]; by [weak] (the last owner of the value holds the
    reference that the [Arc]s share). *)
Definition strong_unit h : nat :=
  match h with
  | ArcRef _ | ArcForgotten | Drop | TryUnwrap | IntoInner | IsUnique | IsUniqueLoad | IsUniqueStore _ | MutBorrow
  | MakeMut | MakeMutClone => 1
  | _ => 0
  end.
Definition weak_unit h : nat :=
  match h with
  | WeakRef _ | WeakForgotten | WeakDrop | Cyclic _ | CyclicWrite | CyclicAdd
  | DropSlow | TakeData | MakeMutWeak | MakeMutMove | MakeMutStore => 1
  | _ => 0
  end.
Definition last_owner h : nat := match h with DropSlow | TakeData | MakeMutWeak | MakeMutMove | MakeMutStore => 1 | _ => 0 end.
Definition cyclic h : nat := match h with Cyclic _ | CyclicWrite | CyclicAdd => 1 | _ => 0 end.
Definition cyclic_written h : nat := match h with CyclicAdd => 1 | _ => 0 end.
Definition locking h : nat := match h with IsUniqueLoad | IsUniqueStore _ => 1 | _ => 0 end.
Definition freeing h : nat := match h with Free => 1 | _ => 0 end.
(** The only handle that is left. *)
Definition sole h : nat := match h with MutBorrow | IsUniqueStore true => 1 | _ => 0 end.
Definition sole_weak h : nat := match h with MakeMutStore => 1 | _ => 0 end.

(** New references whose counter has been checked by nobody yet; those that will
    abort the process. *)
Definition new_strong o : nat := match o with CloneCheck _ => 1 | _ => 0 end.
Definition new_weak o : nat := match o with WeakCloneCheck _ => 1 | _ => 0 end.
Definition over_strong o : nat := match o with CloneCheck n => Nat.b2n (MAX_REFCOUNT <? n) | _ => 0 end.
Definition over_weak o : nat := match o with WeakCloneCheck n => Nat.b2n (MAX_REFCOUNT <? n) | _ => 0 end.

Definition total_ops (w : op → nat) hs : nat := total (λ h, total w (borrows h)) hs.

Definition strongs hs : nat := (total strong_unit hs + total_ops new_strong hs)%nat.
Definition weaks hs : nat := (total weak_unit hs + total_ops new_weak hs + Nat.min 1 (strongs hs))%nat.

(** What an operation knows, and which handles it may borrow. *)
Definition op_ok h o : Prop :=
  match o, h with
  | (Clone | CloneCheck _ | Deref | Downgrade | WeakCount), ArcRef _ => True
  | StrongCount, (ArcRef _ | WeakRef _ | Cyclic _) => True
  | DowngradeCas cur, ArcRef _ => cur ≤ MAX_REFCOUNT
  | (Upgrade | WeakClone | WeakCloneCheck _ | WeakCounts), (WeakRef _ | Cyclic _) => True
  | UpgradeCas n, (WeakRef _ | Cyclic _) => 0 < n ≤ MAX_REFCOUNT
  | WeakCountsStrong n, (WeakRef _ | Cyclic _) => 0 < n
  | _, _ => False
  end.

(** The counters and the value agree with the handles. *)
Record balanced a hs : Prop := Balanced {
  ok_strong : strong a = Z.of_nat (strongs hs);
  ok_weak : (total locking hs = 0)%nat ∧ weak a = Z.of_nat (weaks hs) ∨
            (total locking hs = 1)%nat ∧ weak a = usize_MAX ∧ (weaks hs = 1)%nat;
  ok_strong_bound : Z.of_nat (strongs hs) ≤ 2 ^ 63 + Z.of_nat (total_ops over_strong hs);
  ok_weak_bound : Z.of_nat (weaks hs) ≤ 2 ^ 63 + Z.of_nat (total_ops over_weak hs);
  ok_last : (total last_owner hs + total cyclic hs ≤ 1)%nat ∧
            ((0 < total last_owner hs + total cyclic hs)%nat → strongs hs = 0%nat);
  ok_data : match data a with
            | Alive => (0 < strongs hs + total last_owner hs + total cyclic_written hs)%nat ∧ takes a = 0%nat
            | Uninit => (strongs hs + total last_owner hs + total cyclic_written hs)%nat = 0%nat ∧ takes a = 0%nat
            | Taken => (strongs hs + total last_owner hs + total cyclic hs)%nat = 0%nat ∧ takes a = 1%nat
            end;
  ok_freed : if freed a then (weaks hs + total freeing hs = 0)%nat ∧ frees a = 1%nat
             else (Nat.min 1 (weaks hs) + total freeing hs = 1)%nat ∧ frees a = 0%nat;
  ok_sole : (0 < total sole hs)%nat → strongs hs = 1%nat ∧ weaks hs = 1%nat;
  ok_sole_weak : (0 < total sole_weak hs)%nat → weaks hs = 1%nat;
}.

(** ** Changes of one handle *)
Lemma ops_insert w hs i h h' : hs !! i = Some h →
  (total_ops w (<[i := h']> hs) + total w (borrows h) = total_ops w hs + total w (borrows h'))%nat.
Proof. apply (total_insert (λ h, total w (borrows h))). Qed.

Lemma ops_same w hs i h h' : hs !! i = Some h → borrows h = [] → borrows h' = [] →
  total_ops w (<[i := h']> hs) = total_ops w hs.
Proof. intros Hi Hb Hb'. pose proof (ops_insert w hs i h h' Hi) as H. rewrite Hb, Hb' in H. cbn in H. lia. Qed.

Lemma work_insert hs i h h' : hs !! i = Some h →
  (at_work (<[i := h']> hs) + length (borrows h) = at_work hs + length (borrows h'))%nat.
Proof. apply (total_insert (λ h, length (borrows h))). Qed.

Lemma work_ops hs : (total_ops over_strong hs ≤ at_work hs)%nat ∧ (total_ops over_weak hs ≤ at_work hs)%nat.
Proof.
  unfold total_ops, at_work. split; apply total_le; intros h; unfold total;
    (induction (borrows h) as [|o ops IH]; simpl; [lia|]); destruct o; simpl; try lia;
    destruct (MAX_REFCOUNT <? _); simpl; lia.
Qed.

(** The counts that matter, before and after a change of the handle at [i]. *)
Lemma counts_change hs i h h' : hs !! i = Some h →
  (total strong_unit (<[i := h']> hs) + strong_unit h = total strong_unit hs + strong_unit h' ∧
   total weak_unit (<[i := h']> hs) + weak_unit h = total weak_unit hs + weak_unit h' ∧
   total last_owner (<[i := h']> hs) + last_owner h = total last_owner hs + last_owner h' ∧
   total cyclic (<[i := h']> hs) + cyclic h = total cyclic hs + cyclic h' ∧
   total cyclic_written (<[i := h']> hs) + cyclic_written h = total cyclic_written hs + cyclic_written h' ∧
   total locking (<[i := h']> hs) + locking h = total locking hs + locking h' ∧
   total freeing (<[i := h']> hs) + freeing h = total freeing hs + freeing h' ∧
   total sole (<[i := h']> hs) + sole h = total sole hs + sole h' ∧
   total sole_weak (<[i := h']> hs) + sole_weak h = total sole_weak hs + sole_weak h')%nat.
Proof. intros Hi. split_and!; by apply total_insert. Qed.

(** The handles other than [i]. *)
Lemma counts_apart hs i h : hs !! i = Some h →
  (strong_unit h ≤ total strong_unit hs ∧ weak_unit h ≤ total weak_unit hs ∧
   last_owner h ≤ total last_owner hs ∧ cyclic h ≤ total cyclic hs ∧ locking h ≤ total locking hs ∧
   freeing h ≤ total freeing hs ∧ sole h ≤ total sole hs ∧ sole_weak h ≤ total sole_weak hs ∧
   cyclic_written h ≤ total cyclic_written hs ∧
   (locking h = 0 → total locking hs + strong_unit h ≤ total strong_unit hs) ∧
   (sole h = 0 → total sole hs + strong_unit h ≤ total strong_unit hs) ∧
   (sole_weak h = 0 → total sole_weak hs + weak_unit h ≤ total weak_unit hs) ∧
   (last_owner h = 0 → total last_owner hs + weak_unit h ≤ total weak_unit hs) ∧
   (cyclic h = 0 → total cyclic hs + weak_unit h ≤ total weak_unit hs) ∧
   (cyclic_written h = 0 → total cyclic_written hs + cyclic h ≤ total cyclic hs))%nat.
Proof.
  intros Hi. split_and!; try (by apply (total_in _ _ _ _ Hi)); intros H0; apply (total_apart _ _ _ _ _ Hi); try done;
    intros [| | | | | | | | | | | | | |[]| | | | | | | | |]; simpl; lia.
Qed.

Section invariant.
Context (max_threads : nat) (Hmax : Z.of_nat max_threads < 2 ^ 62).

Record arc_ok a hs : Prop := ArcOk {
  ok_balanced : balanced a hs;
  ok_work : (at_work hs ≤ max_threads)%nat;
  ok_ops : ∀ i h, hs !! i = Some h → Forall (op_ok h) (borrows h);
}.

(** ** Safety of what owns a handle *)
Lemma run_handle_defined a hs c i h : arc_ok a hs → hs !! i = Some h → run_handle c a h ≠ Some Undefined.
Proof.
  intros [[Hs Hw _ _ Hl Hd Hf _ _] _ _] Hi. pose proof (counts_apart _ _ _ Hi) as Hc. unfold weaks, strongs in *.
  assert (freed a = true → (strong_unit h + weak_unit h + freeing h = 0)%nat) as Hfr.
  { intros Ef. rewrite Ef in Hf. lia. }
  assert (data a ≠ Alive → (strong_unit h + last_owner h = 0)%nat) as Hda.
  { intros Ed. destruct (data a); [lia|done|lia]. }
  destruct h; cbn [run_handle]; try done; 
    unfold drop_strong, drop_slow, drop_weak, deallocate, try_unwrap, into_inner, read_out, is_unique_lock, is_unique_load,
    is_unique_store, get_mut_end, make_mut_cas, make_mut_clone, make_mut_weak, make_mut_move, make_mut_store, cyclic_write, cyclic_add;
    unfold on_value, access, exchange; cbn in Hfr, Hda;
    (destruct (freed a); [by specialize (Hfr eq_refl)|]);
    repeat case_match; try done; by specialize (Hda ltac:(discriminate)).
Qed.

(** ** Every step of an operation that owns its handle keeps the invariant *)
Lemma ops_ok_insert hs i h' : (∀ j h, hs !! j = Some h → Forall (op_ok h) (borrows h)) → Forall (op_ok h') (borrows h') →
  ∀ j h, <[i := h']> hs !! j = Some h → Forall (op_ok h) (borrows h).
Proof. intros H Hh' j h [(_&<-&_)|[_ ?]]%list_lookup_insert_Some; [done|by eapply H]. Qed.

(** A handle without borrows becomes another one: it is enough to count. *)
Lemma handle_change a hs i h h' a' : arc_ok a hs → hs !! i = Some h → borrows h = [] → borrows h' = [] →
  ((∀ w, total_ops w (<[i := h']> hs) = total_ops w hs) → balanced a' (<[i := h']> hs)) → arc_ok a' (<[i := h']> hs).
Proof.
  intros [_ Hwk Hop] Hi Hb Hb' H. split.
  - apply H. intros w. by eapply ops_same.
  - pose proof (work_insert _ _ _ h' Hi) as Hk. rewrite Hb, Hb' in Hk. cbn in Hk. lia.
  - apply ops_ok_insert; [done|by rewrite Hb'].
Qed.

Lemma mod_usize n : 0 ≤ n < 2 ^ 64 → wrapping_usize n = n.
Proof. apply Z.mod_small. Qed.
(** Keeps of the conditional counts those whose condition holds. *)
Ltac tidy_counts := cbn [strong_unit weak_unit last_owner cyclic cyclic_written locking freeing sole sole_weak] in *;
  repeat match goal with
  | H : 0%nat = 0%nat → _ |- _ => specialize (H eq_refl)
  | H : 1%nat = 0%nat → _ |- _ => clear H
  | H : (0 ≤ _)%nat |- _ => clear H
  end; rewrite ?Nat.add_0_r in *.

(** Everything [lia] needs to know about the change of one handle. *)
Ltac count Hi h' :=
  pose proof (counts_change _ _ _ h' Hi) as (?&?&?&?&?&?&?&?&?);
  pose proof (counts_apart _ _ _ Hi) as (?&?&?&?&?&?&?&?&?&?&?&?&?&?&?); tidy_counts.

Ltac balance Hok Ef Hi h' :=
  let Ht := fresh "Ht" in eapply handle_change; [exact Hok|exact Hi|done|done|]; intros Ht; count Hi h';
  let hs := match type of Hi with ?hs !! _ = _ => hs end in pose proof (work_ops hs) as [Hos Hoa];
  destruct Hok as [[Hs Hw Hsb Hwb [Hl Hl'] Hd Hf Hso Hsw] Hwk _];
  unfold weaks, strongs, usize_MAX in *; rewrite Ef in Hf; try match goal with E : data ?a = _ |- _ => rewrite E in * end;
  split; unfold weaks, strongs, usize_MAX; rewrite ?Ht;
  cbn [strong weak data freed takes frees set_strong set_weak take_data free write_data] in *;
  rewrite ?Ef;
  try match goal with E : data ?a = _ |- context [data ?a] => rewrite E | |- context [data ?a] => is_var a; destruct (data a) end; try rewrite mod_usize by lia;
  intros; split_and?; try lia.

Ltac runs Hr := cbn in Hr; unfold drop_strong, drop_slow, drop_weak, deallocate, try_unwrap, into_inner, read_out, is_unique_lock, is_unique_load,
    is_unique_store, get_mut_end, make_mut_cas, make_mut_clone, make_mut_weak, make_mut_move, make_mut_store, cyclic_write, cyclic_add in Hr; unfold on_value, access, exchange in Hr; cbn [andb] in Hr;
  match type of Hr with context [freed ?a] => destruct (freed a) eqn:Ef; [done|] end.

Lemma drop_ok a hs c i h a' h' made : arc_ok a hs → hs !! i = Some h →
  (h = Drop ∨ h = DropSlow ∨ h = WeakDrop ∨ h = Free) → run_handle c a h = Some (Ok a' h' made) →
  made = [] ∧ arc_ok a' (<[i := h']> hs).
Proof.
  intros Hok Hi Hh Hr. destruct Hh as [-> | [-> | [-> | ->]]]; runs Hr.
  - injection Hr as <- <- <-. split; [done|]. destruct (Z.eqb_spec (strong a) 1) as [E1|E1].
    + balance Hok Ef Hi DropSlow.
    + balance Hok Ef Hi Gone.
  - destruct (data a) eqn:Ed; try done. injection Hr as <- <- <-. split; [done|]. balance Hok Ef Hi WeakDrop.
  - injection Hr as <- <- <-. split; [done|]. destruct (Z.eqb_spec (weak a) 1) as [E1|E1].
    + balance Hok Ef Hi Free.
    + balance Hok Ef Hi Gone.
  - injection Hr as <- <- <-. split; [done|]. balance Hok Ef Hi Gone.
Qed.

Lemma unwrap_ok a hs c i h a' h' made : arc_ok a hs → hs !! i = Some h →
  (h = TryUnwrap ∨ h = IntoInner ∨ h = TakeData) → run_handle c a h = Some (Ok a' h' made) →
  made = [] ∧ arc_ok a' (<[i := h']> hs).
Proof.
  intros Hok Hi Hh Hr. destruct Hh as [-> | [-> | ->]]; runs Hr.
  - destruct (Z.eqb_spec (strong a) 1) as [E1|E1]; injection Hr as <- <- <-; (split; [done|]).
    + balance Hok Ef Hi TakeData.
    + balance Hok Ef Hi (ArcRef []).
  - injection Hr as <- <- <-. split; [done|]. destruct (Z.eqb_spec (strong a) 1) as [E1|E1].
    + balance Hok Ef Hi TakeData.
    + balance Hok Ef Hi Gone.
  - destruct (data a) eqn:Ed; try done. injection Hr as <- <- <-. split; [done|]. balance Hok Ef Hi WeakDrop.
Qed.

Lemma unique_ok a hs c i h a' h' made : arc_ok a hs → hs !! i = Some h →
  (h = IsUnique ∨ h = IsUniqueLoad ∨ (∃ b, h = IsUniqueStore b) ∨ h = MutBorrow) → run_handle c a h = Some (Ok a' h' made) →
  made = [] ∧ arc_ok a' (<[i := h']> hs).
Proof.
  intros Hok Hi Hh Hr. destruct Hh as [-> | [-> | [[b ->] | ->]]]; runs Hr.
  - destruct (Z.eqb_spec (weak a) 1) as [E1|E1]; injection Hr as <- <- <-; (split; [done|]).
    + balance Hok Ef Hi IsUniqueLoad.
    + balance Hok Ef Hi (ArcRef []).
  - injection Hr as <- <- <-. split; [done|]. destruct (Z.eqb_spec (strong a) 1) as [E1|E1].
    + balance Hok Ef Hi (IsUniqueStore true).
    + balance Hok Ef Hi (IsUniqueStore false).
  - injection Hr as <- <- <-. split; [done|]. destruct b.
    + balance Hok Ef Hi MutBorrow.
    + balance Hok Ef Hi (ArcRef []).
  - destruct (data a) eqn:Ed; try done. injection Hr as <- <- <-. split; [done|]. balance Hok Ef Hi (ArcRef []).
Qed.

Lemma make_mut_ok a hs c i h a' h' made : arc_ok a hs → hs !! i = Some h →
  (h = MakeMut ∨ h = MakeMutClone ∨ h = MakeMutWeak ∨ h = MakeMutMove ∨ h = MakeMutStore) →
  run_handle c a h = Some (Ok a' h' made) → made = [] ∧ arc_ok a' (<[i := h']> hs).
Proof.
  intros Hok Hi Hh Hr. destruct Hh as [-> | [-> | [-> | [-> | ->]]]]; runs Hr.
  - destruct (Z.eqb_spec (strong a) 1) as [E1|E1]; injection Hr as <- <- <-; (split; [done|]).
    + balance Hok Ef Hi MakeMutWeak.
    + balance Hok Ef Hi MakeMutClone.
  - destruct (data a) eqn:Ed; try done. injection Hr as <- <- <-. split; [done|]. destruct c.
    + balance Hok Ef Hi Drop.
    + balance Hok Ef Hi (ArcRef []).
  - injection Hr as <- <- <-. split; [done|]. destruct (Z.eqb_spec (weak a) 1) as [E1|E1].
    + balance Hok Ef Hi MakeMutStore.
    + balance Hok Ef Hi MakeMutMove.
  - destruct (data a) eqn:Ed; try done. injection Hr as <- <- <-. split; [done|]. balance Hok Ef Hi WeakDrop.
  - injection Hr as <- <- <-. split; [done|]. balance Hok Ef Hi MutBorrow.
Qed.

Lemma cyclic_ok a hs c i h a' h' made : arc_ok a hs → hs !! i = Some h →
  (h = CyclicWrite ∨ h = CyclicAdd) → run_handle c a h = Some (Ok a' h' made) →
  made = [] ∧ arc_ok a' (<[i := h']> hs).
Proof.
  intros Hok Hi Hh Hr. destruct Hh as [-> | ->]; runs Hr.
  - injection Hr as <- <- <-. split; [done|]. destruct (data a) eqn:Ed; balance Hok Ef Hi CyclicAdd.
  - injection Hr as <- <- <-. split; [done|]. balance Hok Ef Hi (ArcRef []).
Qed.
End invariant.

#[global] Arguments arc_ok max_threads a hs : assert.
#[global] Arguments ok_balanced {max_threads a hs}.
#[global] Arguments ok_work {max_threads a hs}.
#[global] Arguments ok_ops {max_threads a hs}.
