(* ===== verification/ArcOps.v ===== *)
(** The invariant of reference counting, continued: operations that borrow a handle,
    and the calls. *)

From S2P Require Import Prelude.
From S2P Require Import Threads.
From S2P Require Import Arc.
From S2P Require Import ArcSpec.

#[local] Open Scope Z_scope.
Implicit Types (a : ArcInner) (h : handle) (hs : list handle) (o : op) (ops : list op) (i j : nat).

(** ** Changing the operations of a handle *)
Lemma ops_app w hs made : total_ops w (hs ++ made) = (total_ops w hs + total_ops w made)%nat.
Proof. apply total_app. Qed.

Lemma borrowed h o : op_ok h o → ∀ ops, borrows (with_ops h ops) = ops ∧
  strong_unit (with_ops h ops) = strong_unit h ∧ weak_unit (with_ops h ops) = weak_unit h ∧
  last_owner (with_ops h ops) = 0%nat ∧ last_owner h = 0%nat ∧ cyclic (with_ops h ops) = cyclic h ∧
  cyclic_written (with_ops h ops) = 0%nat ∧ cyclic_written h = 0%nat ∧
  locking (with_ops h ops) = 0%nat ∧ locking h = 0%nat ∧ freeing (with_ops h ops) = 0%nat ∧ freeing h = 0%nat ∧
  sole (with_ops h ops) = 0%nat ∧ sole h = 0%nat ∧ sole_weak (with_ops h ops) = 0%nat ∧ sole_weak h = 0%nat.
Proof. by destruct o, h. Qed.

Lemma op_ok_with h ops o o' : op_ok h o → op_ok (with_ops h ops) o' ↔ op_ok h o'.
Proof. by destruct o, h; try done; destruct o'. Qed.

Definition weigh (w : op → nat) (next : option op) : nat := match next with Some o => w o | None => 0 end.

Lemma next_ops_total (w : op → nat) ops j o next : ops !! j = Some o →
  (total w (next_ops ops j next) + w o = total w ops + weigh w next)%nat.
Proof.
  intros Hj. destruct next as [o'|]; cbn [next_ops weigh].
  - by apply total_insert.
  - pose proof (total_delete w ops j o Hj). lia.
Qed.

Lemma total_one {L} (w : L → nat) (x : L) : total w [x] = w x.
Proof. unfold total. simpl. lia. Qed.

Lemma total_nil {L} (w : L → nat) : total w [] = 0%nat.
Proof. done. Qed.

Lemma ops_one w h : total_ops w [h] = total w (borrows h).
Proof. apply (total_one (λ h, total w (borrows h))). Qed.

Section change.
Context (max_threads : nat) (Hmax : Z.of_nat max_threads < 2 ^ 62).
Context (a : ArcInner) (hs : list handle) (Hok : arc_ok max_threads a hs).
Context (i : nat) (h : handle) (Hi : hs !! i = Some h).

Lemma op_now j o : borrows h !! j = Some o → op_ok h o.
Proof using Hok Hi. intros Hj. pose proof (ok_ops Hok i h Hi) as Hf. rewrite Forall_lookup in Hf. eauto. Qed.

(** What [lia] needs to know about the change of the operations of a handle. *)
Lemma ops_change w o ops : op_ok h o →
  (total_ops w (<[i := with_ops h ops]> hs) + total w (borrows h) = total_ops w hs + total w ops)%nat.
Proof using Hi.
  intros Ho. destruct (borrowed h o Ho ops) as (Hb&_). pose proof (ops_insert w hs i h (with_ops h ops) Hi) as H.
  by rewrite Hb in H.
Qed.

Lemma base_same o ops : op_ok h o → let hs' := <[i := with_ops h ops]> hs in
  total strong_unit hs' = total strong_unit hs ∧ total weak_unit hs' = total weak_unit hs ∧
  total last_owner hs' = total last_owner hs ∧ total cyclic hs' = total cyclic hs ∧
  total cyclic_written hs' = total cyclic_written hs ∧ total locking hs' = total locking hs ∧
  total freeing hs' = total freeing hs ∧ total sole hs' = total sole hs ∧ total sole_weak hs' = total sole_weak hs.
Proof using Hi.
  intros Ho hs'. destruct (borrowed h o Ho ops) as (_&H1&H2&H3&H3'&H4&H5&H5'&H6&H6'&H7&H7'&H8&H8'&H9&H9').
  pose proof (counts_change hs i h (with_ops h ops) Hi) as Hc. subst hs'. clear - Hc H1 H2 H3 H3' H4 H5 H5' H6 H6' H7 H7' H8 H8' H9 H9'. lia.
Qed.

Lemma ops_ok_change o ops : op_ok h o → Forall (op_ok h) ops →
  ∀ k h', <[i := with_ops h ops]> hs !! k = Some h' → Forall (op_ok h') (borrows h').
Proof using Hok Hi.
  intros Ho Hops. apply ops_ok_insert; [by apply Hok|]. destruct (borrowed h o Ho ops) as (->&_).
  eapply Forall_impl; [done|]. intros o' Ho'. by rewrite op_ok_with.
Qed.

(** An operation takes a step: it is enough to count. *)
Lemma op_change a' j o next made : borrows h !! j = Some o →
  (∀ o', next = Some o' → op_ok h o') → Forall (λ h, borrows h = []) made →
  let hs' := <[i := with_ops h (next_ops (borrows h) j next)]> hs in
  ((∀ w : op → nat, total_ops w hs' + w o = total_ops w hs + weigh w next)%nat → balanced a' (hs' ++ made)) →
  arc_ok max_threads a' (hs' ++ made).
Proof using Hok Hi.
  intros Hj Hnext Hmade hs' H. pose proof (op_now j o Hj) as Ho.
  assert (∀ w, total_ops w hs' + w o = total_ops w hs + weigh w next)%nat as Ht.
  { intros w. pose proof (ops_change w o (next_ops (borrows h) j next) Ho).
    pose proof (next_ops_total w (borrows h) j o next Hj). subst hs'. lia. }
  split; [by apply H| |].
  - pose proof (Ht (λ _, 1%nat)) as H1.
    assert (∀ l, total_ops (λ _, 1%nat) l = at_work l) as Hw.
    { intros l. unfold total_ops, at_work. apply total_ext. intros h'. unfold total.
      induction (borrows h') as [|? ? IH]; simpl; [done|]. by rewrite IH. }
    rewrite (Hw hs'), (Hw hs) in H1. unfold at_work at 1. rewrite total_app. fold (at_work hs').
    assert (total (λ h, length (borrows h)) made = 0%nat) as ->.
    { unfold total. clear H. induction Hmade as [|h' l Hh' _ IH]; simpl; [done|]. by rewrite Hh', IH. }
    pose proof (ok_work Hok). destruct next; cbn in H1; lia.
  - intros k h' Hk. apply lookup_app_Some in Hk as [Hk|[_ Hk]].
    + eapply ops_ok_change; [exact Ho| |exact Hk]. pose proof (ok_ops Hok i h Hi) as Hf.
      destruct next as [o'|]; cbn [next_ops]; [apply Forall_insert; auto|by apply Forall_delete].
    + rewrite Forall_lookup in Hmade. by rewrite (Hmade _ h' Hk).
Qed.

(** Facts about the handle that the operation borrows. *)
Lemma op_counts o ops : op_ok h o → let hs' := <[i := with_ops h ops]> hs in
  (strong_unit h ≤ total strong_unit hs ∧ weak_unit h ≤ total weak_unit hs ∧
   total locking hs + strong_unit h ≤ total strong_unit hs ∧ total sole hs + strong_unit h ≤ total strong_unit hs ∧
   total sole_weak hs + weak_unit h ≤ total weak_unit hs ∧ cyclic h ≤ total cyclic hs ∧
   total cyclic_written hs + cyclic h ≤ total cyclic hs ∧
   total last_owner hs + weak_unit h ≤ total weak_unit hs)%nat.
Proof using Hi.
  intros Ho hs'. destruct (borrowed h o Ho []) as (_&H1&H2&H3&H3'&H4&H5&H5'&H6&H6'&H7&H7'&H8&H8'&H9&H9').
  pose proof (counts_apart hs i h Hi) as Hc. clear - Hc H3' H5' H6' H8' H9'. intuition lia.
Qed.

(** A borrowed handle keeps the block alive. *)
Lemma op_not_freed j o : borrows h !! j = Some o → freed a = false.
Proof using Hok Hi.
  intros Hj. pose proof (op_now j o Hj) as Ho. pose proof (op_counts o [] Ho) as (H1&H2&_).
  destruct (freed a) eqn:Ef; [|done]. pose proof (ok_freed _ _ (ok_balanced Hok)) as Hf. rewrite Ef in Hf.
  unfold weaks, strongs in Hf. destruct o, h; try done; cbn in H1, H2; lia.
Qed.

(** An operation goes on, or ends, without changing anything. *)
Lemma op_neutral j o next : borrows h !! j = Some o → (∀ o', next = Some o' → op_ok h o') →
  new_strong o = weigh new_strong next ∧ new_weak o = weigh new_weak next ∧
  over_strong o = weigh over_strong next ∧ over_weak o = weigh over_weak next →
  arc_ok max_threads a (<[i := with_ops h (next_ops (borrows h) j next)]> hs ++ []).
Proof using Hok Hi.
  intros Hj Hnext (Hw1&Hw2&Hw3&Hw4). eapply op_change; [done|done|by apply Forall_nil_2|]. intros Ht. rewrite app_nil_r.
  destruct (base_same o (next_ops (borrows h) j next) (op_now j o Hj)) as (E1&E2&E3&E4&E5&E6&E7&E8&E9).
  pose proof (Ht new_strong) as H1. pose proof (Ht new_weak) as H2.
  pose proof (Ht over_strong) as H3. pose proof (Ht over_weak) as H4.
  rewrite Hw1, Hw2, Hw3, Hw4 in *. apply Nat.add_cancel_r in H1, H2, H3, H4.
  destruct (ok_balanced Hok) as [Hs Hw Hsb Hwb Hl Hd Hf Hso Hsw]. unfold weaks, strongs in *.
  split; unfold weaks, strongs; by rewrite ?H1, ?H2, ?H3, ?H4, ?E1, ?E2, ?E3, ?E4, ?E5, ?E6, ?E7, ?E8, ?E9.
Qed.
End change.

Ltac expand_made := rewrite ?app_nil_r, ?total_app, ?ops_app, ?ops_one, ?total_one; cbn [borrows]; rewrite ?total_nil.

(** Turns the claim about the new state into arithmetic. *)
Ltac balance_op Hok Ef Hi Hj :=
  let Ht := fresh "Ht" in let Ho := fresh "Ho" in let Hws := fresh "Hws" in
  pose proof (op_now _ _ _ Hok _ _ Hi _ _ Hj) as Ho;
  eapply op_change; [exact Hok|exact Hi|exact Hj| |by repeat first [apply Forall_nil_2|apply Forall_cons_2]|];
  [|intros Ht; pose proof (op_counts _ _ _ Hi _ [] Ho) as (?&?&?&?&?&?&?&?);
    pose proof (λ ops, base_same _ _ _ Hi _ ops Ho) as Hbase;
    let ops := match goal with |- context [with_ops _ ?ops] => ops end in
    destruct (Hbase ops) as (E1&E2&E3&E4&E5&E6&E7&E8&E9); clear Hbase;
    pose proof (Ht new_strong); pose proof (Ht new_weak); pose proof (Ht over_strong); pose proof (Ht over_weak); clear Ht;
    let hs := match type of Hi with ?hs !! _ = _ => hs end in pose proof (work_ops hs) as [Hos Hoa];
    match goal with |- balanced _ (?hs' ++ _) => set (hs1 := hs') in * end;
    pose proof (ok_work Hok) as Hwk; pose proof (ok_balanced Hok) as Hbal; destruct Hbal as [Hs Hw Hsb Hwb [Hl Hl'] Hd Hf Hso Hsw]].

Ltac finish_op Ef :=
  match goal with H : if freed _ then _ else _ |- _ => rewrite Ef in H end; unfold weaks, strongs, usize_MAX in *; cbn [weigh new_strong new_weak over_strong over_weak] in *;
  match goal with Ho : op_ok ?h _ |- _ => destruct h; try done end; cbn [strong_unit weak_unit cyclic op_ok] in *;
  try match goal with E : (MAX_REFCOUNT <? ?n) = _ |- _ => rewrite E in * end;
  repeat match goal with H : context [MAX_REFCOUNT <? ?n] |- _ => destruct (Z.ltb_spec MAX_REFCOUNT n) end;
  unfold MAX_REFCOUNT in *; cbn [Nat.b2n] in *; rewrite ?Nat.add_0_r in *;
  try match goal with E : data ?a = _ |- _ => rewrite E in * end;
  split; unfold weaks, strongs, usize_MAX; expand_made;
  cbn [strong weak data freed takes frees set_strong set_weak]; rewrite ?Ef;
  repeat match goal with E : total ?w ?l = _ |- context [total ?w ?l] => rewrite E end;
  cbn [strong_unit weak_unit last_owner cyclic cyclic_written locking freeing sole sole_weak];
  try match goal with E : data ?a = _ |- context [data ?a] => rewrite E | |- context [data ?a] => is_var a; destruct (data a) end;
  try rewrite mod_usize by lia; intros; split_and?; try lia.

Section ops.
Context (max_threads : nat) (Hmax : Z.of_nat max_threads < 2 ^ 62).
Context (a : ArcInner) (hs : list handle) (Hok : arc_ok max_threads a hs).
Context (i : nat) (h : handle) (Hi : hs !! i = Some h) (j : nat).

Ltac run_op_case Hj Hr := pose proof (op_not_freed _ _ _ Hok _ _ Hi _ _ Hj) as Ef;
  pose proof (op_now _ _ _ Hok _ _ Hi _ _ Hj) as Hop; cbn [op_ok] in Hop;
  cbn [run_op] in Hr; unfold clone_add, clone_check, deref, downgrade_load, downgrade_cas, strong_count, weak_count, weak_weak_count, weak_weak_count_strong,
    upgrade_load, upgrade_cas, weak_clone_add, weak_clone_check in Hr; unfold on_value, access, exchange, downgrade_loop, upgrade_loop, minus_one in Hr; rewrite ?Ef in Hr.

Lemma clone_ok c o a' next made : borrows h !! j = Some o →
  (o = Clone ∨ ∃ n, o = CloneCheck n) → run_op c a o = Ok a' next made →
  arc_ok max_threads a' (<[i := with_ops h (next_ops (borrows h) j next)]> hs ++ made).
Proof using All.
  intros Hj Ho Hr. destruct Ho as [-> | [n ->]]; run_op_case Hj Hr.
  - injection Hr as <- <- <-. balance_op Hok Ef Hi Hj; [intros o' [= <-]; by destruct h|finish_op Ef].
  - destruct (MAX_REFCOUNT <? n) eqn:En; [done|]. injection Hr as <- <- <-. balance_op Hok Ef Hi Hj; [done|finish_op Ef].
Qed.

Lemma read_ok c o a' next made : borrows h !! j = Some o →
  (o = Deref ∨ o = StrongCount ∨ o = WeakCount ∨ o = WeakCounts ∨ ∃ n, o = WeakCountsStrong n) →
  run_op c a o = Ok a' next made →
  arc_ok max_threads a' (<[i := with_ops h (next_ops (borrows h) j next)]> hs ++ made).
Proof using All.
  intros Hj Ho Hr. destruct Ho as [-> | [-> | [-> | [-> | [n ->]]]]]; run_op_case Hj Hr.
  - destruct (data a) eqn:Ed; try done. injection Hr as <- <- <-. by eapply op_neutral.
  - injection Hr as <- <- <-. by eapply op_neutral.
  - destruct (weak a =? usize_MAX), (weak a <=? 0); try done; injection Hr as <- <- <-; by eapply op_neutral.
  - pose proof (op_now _ _ _ Hok _ _ Hi _ _ Hj) as Ho. injection Hr as <- <- <-. eapply op_neutral; [done..| |done].
    intros o' [= <-]. pose proof (ok_weak _ _ (ok_balanced Hok)) as Hw. pose proof (op_counts _ _ _ Hi _ [] Ho) as (H1&H2&_).
    unfold weaks, strongs, usize_MAX in Hw. destruct h; try done; cbn in H2 |- *; lia.
  - destruct (strong a =? 0), (n <=? 0); try done; injection Hr as <- <- <-; by eapply op_neutral.
Qed.

Lemma downgrade_ok c o a' next made : borrows h !! j = Some o →
  (o = Downgrade ∨ ∃ n, o = DowngradeCas n) → run_op c a o = Ok a' next made →
  arc_ok max_threads a' (<[i := with_ops h (next_ops (borrows h) j next)]> hs ++ made).
Proof using All.
  intros Hj Ho Hr.
  assert (∀ a' next made, downgrade_loop a (weak a) = Ok a' next made →
    a' = a ∧ made = [] ∧ (next = None ∨ next = Some Downgrade ∨ weak a ≤ MAX_REFCOUNT ∧ next = Some (DowngradeCas (weak a)))) as Hloop.
  { unfold downgrade_loop. intros ??? H. destruct (weak a =? usize_MAX); [injection H as <- <- <-; auto|].
    destruct (Z.leb_spec (weak a) MAX_REFCOUNT); injection H as <- <- <-; auto 6. }
  assert (∀ o a' next made, borrows h !! j = Some o → (o = Downgrade ∨ ∃ n, o = DowngradeCas n) →
    downgrade_loop a (weak a) = Ok a' next made →
    arc_ok max_threads a' (<[i := with_ops h (next_ops (borrows h) j next)]> hs ++ made)) as Hagain.
  { clear Hj Ho Hr o a' next made. intros o a' next made Hj Ho (->&->&Hn)%Hloop.
    pose proof (op_not_freed _ _ _ Hok _ _ Hi _ _ Hj) as Ef.
    destruct Ho as [-> | [n ->]], Hn as [-> | [-> | [? ->]]]; 
      pose proof (op_now _ _ _ Hok _ _ Hi _ _ Hj) as Hop;
      (eapply op_neutral; [done..|try done; intros o' [= <-]; by destruct h|done]). }
  destruct Ho as [-> | [n ->]]; pose proof (op_not_freed _ _ _ Hok _ _ Hi _ _ Hj) as Ef;
    cbn in Hr; unfold downgrade_load, downgrade_cas, upgrade_load, upgrade_cas, access in Hr; rewrite Ef in Hr; [eapply Hagain; eauto|].
  unfold exchange in Hr. destruct c; cbn [andb] in Hr; [|eapply Hagain; eauto].
  destruct (Z.eqb_spec (weak a) n) as [Heq|]; [|eapply Hagain; eauto].
  injection Hr as <- <- <-. pose proof (op_now _ _ _ Hok _ _ Hi _ _ Hj) as Hop.
  balance_op Hok Ef Hi Hj; [done|]. finish_op Ef.
Qed.

Lemma upgrade_ok c o a' next made : borrows h !! j = Some o →
  (o = Upgrade ∨ ∃ n, o = UpgradeCas n) → run_op c a o = Ok a' next made →
  arc_ok max_threads a' (<[i := with_ops h (next_ops (borrows h) j next)]> hs ++ made).
Proof using All.
  intros Hj Ho Hr.
  assert (0 ≤ strong a) as H0 by (rewrite (ok_strong _ _ (ok_balanced Hok)); lia).
  assert (∀ a' next made, upgrade_loop a (strong a) = Ok a' next made →
    a' = a ∧ made = [] ∧ (next = None ∨ 0 < strong a ≤ MAX_REFCOUNT ∧ next = Some (UpgradeCas (strong a)))) as Hloop.
  { unfold upgrade_loop. intros ??? H. destruct (Z.eqb_spec (strong a) 0); [injection H as <- <- <-; auto|].
    destruct (Z.leb_spec (strong a) MAX_REFCOUNT); injection H as <- <- <-; auto 8 with lia. }
  assert (∀ o a' next made, borrows h !! j = Some o → (o = Upgrade ∨ ∃ n, o = UpgradeCas n) →
    upgrade_loop a (strong a) = Ok a' next made →
    arc_ok max_threads a' (<[i := with_ops h (next_ops (borrows h) j next)]> hs ++ made)) as Hagain.
  { clear Hj Ho Hr o a' next made. intros o a' next made Hj Ho (->&->&Hn)%Hloop.
    pose proof (op_not_freed _ _ _ Hok _ _ Hi _ _ Hj) as Ef.
    destruct Ho as [-> | [n ->]], Hn as [-> | [? ->]]; 
      pose proof (op_now _ _ _ Hok _ _ Hi _ _ Hj) as Hop;
      (eapply op_neutral; [done..|try done; intros o' [= <-]; by destruct h|done]). }
  destruct Ho as [-> | [n ->]]; pose proof (op_not_freed _ _ _ Hok _ _ Hi _ _ Hj) as Ef;
    cbn in Hr; unfold downgrade_load, downgrade_cas, upgrade_load, upgrade_cas, access in Hr; rewrite Ef in Hr; [eapply Hagain; eauto|].
  unfold exchange in Hr. destruct c; cbn [andb] in Hr; [|eapply Hagain; eauto].
  destruct (Z.eqb_spec (strong a) n) as [Heq|]; [|eapply Hagain; eauto].
  injection Hr as <- <- <-. balance_op Hok Ef Hi Hj; [done|]. finish_op Ef.
Qed.

Lemma weak_clone_ok c o a' next made : borrows h !! j = Some o →
  (o = WeakClone ∨ ∃ n, o = WeakCloneCheck n) → run_op c a o = Ok a' next made →
  arc_ok max_threads a' (<[i := with_ops h (next_ops (borrows h) j next)]> hs ++ made).
Proof using All.
  intros Hj Ho Hr. destruct Ho as [-> | [n ->]]; run_op_case Hj Hr.
  - injection Hr as <- <- <-. balance_op Hok Ef Hi Hj; [intros o' [= <-]; by destruct h|finish_op Ef].
  - destruct (MAX_REFCOUNT <? n) eqn:En; [done|]. injection Hr as <- <- <-. balance_op Hok Ef Hi Hj; [done|finish_op Ef].
Qed.

Lemma run_op_ok c o a' next made : borrows h !! j = Some o → run_op c a o = Ok a' next made →
  arc_ok max_threads a' (<[i := with_ops h (next_ops (borrows h) j next)]> hs ++ made).
Proof using All.
  intros Hj Hr. destruct o; first [by eapply clone_ok; eauto|by eapply read_ok; eauto 8|by eapply downgrade_ok; eauto|
    by eapply upgrade_ok; eauto|by eapply weak_clone_ok; eauto].
Qed.

(** No operation has undefined behaviour. *)
Lemma run_op_defined c o : borrows h !! j = Some o → run_op c a o ≠ Undefined.
Proof using All.
  intros Hj. pose proof (op_not_freed _ _ _ Hok _ _ Hi _ _ Hj) as Ef. pose proof (op_now _ _ _ Hok _ _ Hi _ _ Hj) as Ho.
  pose proof (op_counts _ _ _ Hi _ [] Ho) as (H1&H2&_). destruct (ok_balanced Hok) as [Hs Hw _ _ Hl Hd _ _ _].
  destruct o; cbn [run_op]; unfold clone_add, clone_check, deref, downgrade_load, downgrade_cas, strong_count, weak_count, weak_weak_count, weak_weak_count_strong,
    upgrade_load, upgrade_cas, weak_clone_add, weak_clone_check;
    unfold on_value, access, exchange, downgrade_loop, upgrade_loop, minus_one; rewrite ?Ef.
  all: try (by repeat case_match).
  - destruct (data a); try done; exfalso; destruct h; try done; cbn in H1; unfold strongs in Hd; lia.
  - destruct (weak a =? usize_MAX); [done|]. destruct (Z.leb_spec (weak a) 0); [|done]. exfalso.
    destruct h; try done; cbn in H1; unfold weaks, strongs, usize_MAX in *; lia.
  - destruct (strong a =? 0); [done|]. destruct (Z.leb_spec weak 0); [|done]. exfalso.
    destruct h; try done; cbn in Ho; lia.
Qed.
End ops.
