(* ===== verification/ArcTheorems.v ===== *)
(** What [Arc] and [Weak] guarantee: [alloc/src/sync.rs]. *)

From S2P Require Import Prelude.
From S2P Require Import Threads.
From S2P Require Import Arc.
From S2P Require Import ArcSpec.
From S2P Require Import ArcOps.

#[local] Open Scope Z_scope.

(** ** Calls, and all the steps *)
Section steps.
Context (max_threads : nat) (Hmax : Z.of_nat max_threads < 2 ^ 62).

Lemma borrow_ok a hs i h o : arc_ok max_threads a hs → hs !! i = Some h → o ∈ shared_calls h →
  (at_work hs < max_threads)%nat → arc_ok max_threads a (<[i := with_ops h (o :: borrows h)]> hs).
Proof.
  intros Hok Hi Ho Hlt.
  assert (op_ok h o ∧ new_strong o = 0%nat ∧ new_weak o = 0%nat ∧ over_strong o = 0%nat ∧ over_weak o = 0%nat)
    as (Hop&W1&W2&W3&W4).
  { destruct h; cbn in Ho; try by apply elem_of_nil in Ho.
    all: rewrite !elem_of_cons, elem_of_nil in Ho; by destruct_or! Ho; subst. }
  assert (∀ w : op → nat, w o = 0%nat → total_ops w (<[i := with_ops h (o :: borrows h)]> hs) = total_ops w hs) as Ht.
  { intros w Hw. pose proof (ops_change _ _ _ Hi w o (o :: borrows h) Hop) as H. unfold total in H. cbn in H.
    rewrite Hw in H. fold (total w (borrows h)) in H. unfold total in H. lia. }
  destruct (base_same _ _ _ Hi o (o :: borrows h) Hop) as (E1&E2&E3&E4&E5&E6&E7&E8&E9).
  destruct (borrowed h o Hop (o :: borrows h)) as [Hb _].
  destruct (ok_balanced Hok) as [Hs Hw Hsb Hwb Hl Hd Hf Hso Hsw]. unfold weaks, strongs in *. split.
  - split; unfold weaks, strongs; rewrite ?(Ht new_strong W1), ?(Ht new_weak W2), ?(Ht over_strong W3), ?(Ht over_weak W4);
      by rewrite ?E1, ?E2, ?E3, ?E4, ?E5, ?E6, ?E7, ?E8, ?E9.
  - pose proof (work_insert hs i h (with_ops h (o :: borrows h)) Hi) as H. rewrite Hb in H. cbn in H. lia.
  - intros k h'. eapply ops_ok_change; [done|done|exact Hop|]. constructor; [done|by eapply (ok_ops Hok)].
Qed.

Lemma own_ok a hs i h h' : arc_ok max_threads a hs → hs !! i = Some h → h' ∈ owned_calls h →
  arc_ok max_threads a (<[i := h']> hs).
Proof.
  intros Hok Hi Hh.
  assert (borrows h = [] ∧ borrows h' = [] ∧ strong_unit h' = strong_unit h ∧ weak_unit h' = weak_unit h ∧
    last_owner h' = last_owner h ∧ cyclic h' ≤ cyclic h ∧ cyclic_written h' = cyclic_written h ∧ locking h' = locking h ∧
    freeing h' = freeing h ∧ sole h' = sole h ∧ sole_weak h' = sole_weak h)%nat as (Hb&Hb'&Hc).
  { destruct h as [[]|[]| | | | | | | | | | | | | | | | | | | |[]| |]; cbn in Hh; try by apply elem_of_nil in Hh.
    all: rewrite !elem_of_cons, elem_of_nil in Hh; destruct_or! Hh; subst; cbn; split_and!; try done; lia. }
  eapply handle_change; [exact Hok|exact Hi|done|done|]. intros Ht.
  pose proof (counts_change _ _ _ h' Hi) as Hn. destruct (ok_balanced Hok) as [Hs Hw Hsb Hwb Hl Hd Hf Hso Hsw].
  unfold weaks, strongs in *.
  assert (total strong_unit (<[i := h']> hs) = total strong_unit hs) as E1 by lia.
  assert (total weak_unit (<[i := h']> hs) = total weak_unit hs) as E2 by lia.
  split; unfold weaks, strongs; rewrite ?Ht, ?E1, ?E2; try done.
  - replace (total locking (<[i := h']> hs)) with (total locking hs) by lia. done.
  - lia.
  - destruct (data a); lia.
  - replace (total freeing (<[i := h']> hs)) with (total freeing hs) by lia. done.
  - replace (total sole (<[i := h']> hs)) with (total sole hs) by lia. done.
  - replace (total sole_weak (<[i := h']> hs)) with (total sole_weak hs) by lia. done.
Qed.

Definition state_ok (σ : state) : Prop := arc_ok max_threads (inner σ) (handles σ).

Lemma run_handle_ok a hs c i h a' h' made : arc_ok max_threads a hs → hs !! i = Some h →
  run_handle c a h = Some (Ok a' h' made) → made = [] ∧ arc_ok max_threads a' (<[i := h']> hs).
Proof.
  intros Hok Hi Hr. destruct h; try done;
    first [by eapply drop_ok; eauto 6|by eapply unwrap_ok; eauto|by eapply unique_ok; eauto 6|
           by eapply make_mut_ok; eauto 8|by eapply cyclic_ok; eauto].
Qed.

Lemma step_ok σ σ' : state_ok σ → step max_threads σ σ' → state_ok σ'.
Proof.
  unfold state_ok. intros Hok Hst. 
    destruct Hst as [a hs c i h j o a' next made Hi Hj Hr|a hs c i h a' h' made Hi Hr|a hs i h o Hi Ho Hlt|a hs i h h' Hi Hh];
    cbn [inner handles] in *.
  - by eapply run_op_ok.
  - destruct (run_handle_ok a hs c i h a' h' made) as [-> ?]; [done..|]. by rewrite app_nil_r.
  - by apply borrow_ok.
  - by eapply own_ok.
Qed.

Lemma new_ok : state_ok new_arc ∧ state_ok new_cyclic.
Proof.
  unfold state_ok, new_arc, new_cyclic. cbn [inner handles].
  split; (split; [split; vm_compute; intuition (discriminate || lia)|apply Nat.le_0_l|]);
    intros [|i] h Hi; simplify_eq/=; constructor.
Qed.

Lemma steps_ok σ σ' : state_ok σ → rtc (step max_threads) σ σ' → state_ok σ'.
Proof. intros Hok. induction 1; eauto using step_ok. Qed.

Lemma reachable_ok σ : reachable max_threads σ → state_ok σ.
Proof. destruct new_ok. intros [Hr|Hr]; [by apply (steps_ok new_arc)|by apply (steps_ok new_cyclic)]. Qed.
End steps.

(** A handle that stands for nothing is gone. *)
Lemma nothing_left h : strong_unit h = 0%nat → weak_unit h = 0%nat → freeing h = 0%nat → h = Gone.
Proof. by destruct h. Qed.

Lemma total_zero {L} (w : L → nat) l : (∀ x, x ∈ l → w x = 0%nat) → total w l = 0%nat.
Proof.
  unfold total. induction l as [|x l IH]; simpl; intros H; [done|]. rewrite (H x) by (by left). apply IH. intros y Hy.
  apply H. by right.
Qed.

(** ** Properties *)
(** C25: memory safety of reference counting.  However the operations on the handles
    interleave, in up to 2^62 threads: no access goes to memory that has been given
    back or to a value that is not there and no count underflows; while there is an
    [Arc] the value is alive, while there is a [Weak] the block is; and while
    [get_mut] or [make_mut] lends the value mutably no other handle is left. *)
Theorem arc_safe (max_threads : nat) (σ : state) : Z.of_nat max_threads < 2 ^ 62 → reachable max_threads σ →
  ¬ undefined σ ∧
  (∀ i ops, handles σ !! i = Some (ArcRef ops) → data (inner σ) = Alive ∧ freed (inner σ) = false) ∧
  (∀ i ops, handles σ !! i = Some (WeakRef ops) → freed (inner σ) = false) ∧
  (∀ i k h, handles σ !! i = Some MutBorrow → handles σ !! k = Some h → k ≠ i → h = Gone).
Proof.
  intros Hmax Hok%reachable_ok; [|done]. pose proof (ok_balanced Hok) as [Hs Hw _ _ Hl Hd Hf Hso _].
  unfold weaks, strongs in *. split_and!.
  - intros Hu. inversion Hu as [a hs c i h j o Hi Hj Hr Heq|a hs c i h Hi Hr Heq]; subst σ;
      [exact (run_op_defined _ Hmax _ _ Hok _ _ Hi _ _ _ Hj Hr)|exact (run_handle_defined _ _ _ _ _ _ Hok Hi Hr)].
  - intros i ops Hi. pose proof (total_in strong_unit _ _ _ Hi) as H1. cbn in H1.
    destruct (data (inner σ)); [lia| |lia]. split; [done|]. destruct (freed (inner σ)); [lia|done].
  - intros i ops Hi. pose proof (total_in weak_unit _ _ _ Hi) as H1. cbn in H1. destruct (freed (inner σ)); [lia|done].
  - intros i k h Hi Hk Hne. pose proof (total_in sole _ _ _ Hi) as H1. pose proof (total_in strong_unit _ _ _ Hi) as H2.
    cbn in H1, H2. specialize (Hso ltac:(lia)).
    assert (<[i := Gone]> (handles σ) !! k = Some h) as Hk' by by rewrite list_lookup_insert_ne.
    pose proof (total_in strong_unit _ _ _ Hk') as H3. pose proof (total_insert strong_unit _ _ _ Gone Hi) as H4.
    pose proof (total_in weak_unit _ _ _ Hk) as H5. pose proof (total_in freeing _ _ _ Hk) as H6. cbn in H4.
    apply nothing_left; [lia..|]. destruct (freed (inner σ)); lia.
Qed.

(** C26: the value goes once and the block is freed once.  Neither ever happens
    twice; and when no handle is left the block has been freed and the value has been
    dropped or moved out, unless the closure of [new_cyclic] never gave one. *)
Theorem arc_reclaims (max_threads : nat) (σ : state) : Z.of_nat max_threads < 2 ^ 62 → reachable max_threads σ →
  (takes (inner σ) ≤ 1)%nat ∧ (frees (inner σ) ≤ 1)%nat ∧
  ((∀ h, h ∈ handles σ → h = Gone) →
   frees (inner σ) = 1%nat ∧
   (data (inner σ) = Taken ∧ takes (inner σ) = 1%nat ∨ data (inner σ) = Uninit ∧ takes (inner σ) = 0%nat)).
Proof.
  intros Hmax Hok%reachable_ok; [|done]. pose proof (ok_balanced Hok) as [Hs Hw _ _ Hl Hd Hf Hso _].
  unfold weaks, strongs in *. split_and!.
  - destruct (data (inner σ)); lia.
  - destruct (freed (inner σ)); lia.
  - intros Hgone. assert (∀ w : handle → nat, w Gone = 0%nat → total w (handles σ) = 0%nat) as H0.
    { intros w Hw0. apply total_zero. intros h ->%Hgone. done. }
    rewrite (H0 strong_unit), (H0 weak_unit), (H0 freeing), (H0 last_owner), (H0 cyclic_written), (H0 cyclic) in * by done.
    unfold total_ops in *. rewrite !(H0 (λ h, total _ (borrows h))) in * by done.
    split; [destruct (freed (inner σ)); lia|]. destruct (data (inner σ)); [right; split; [done|lia]|lia|left; split; [done|lia]].
Qed.

(** C27: the counters count.  [strong] is the number of [Arc]s, those being dropped,
    unwrapped or forgotten included, and of clones about to be handed out; [weak],
    unless [is_unique] has locked it, that of the [Weak]s and one for all the [Arc]s
    together.  Although a clone checks for overflow only after it has counted, no
    counter ever wraps around. *)
Theorem arc_counters (max_threads : nat) (σ : state) : Z.of_nat max_threads < 2 ^ 62 → reachable max_threads σ →
  strong (inner σ) = Z.of_nat (total strong_unit (handles σ) + total_ops new_strong (handles σ)) ∧
  (total locking (handles σ) = 1%nat ∧ weak (inner σ) = usize_MAX ∨
   weak (inner σ) = Z.of_nat (total weak_unit (handles σ) + total_ops new_weak (handles σ)) + Z.min 1 (strong (inner σ))) ∧
  strong (inner σ) ≤ 2 ^ 63 + Z.of_nat max_threads ∧
  (weak (inner σ) = usize_MAX ∨ weak (inner σ) ≤ 2 ^ 63 + Z.of_nat max_threads).
Proof.
  intros Hmax Hok%reachable_ok; [|done]. pose proof (ok_balanced Hok) as [Hs Hw Hsb Hwb Hl Hd Hf Hso _].
  pose proof (work_ops (handles σ)) as [H1 H2]. pose proof (ok_work Hok) as H3.
  unfold weaks, strongs in *. split_and!; lia.
Qed.

(** ** A run *)
Ltac own i h' := eapply rtc_l; [eapply (step_own _ _ _ i _ h'); [reflexivity|set_solver]|]; cbn [insert list_insert].
Ltac go i := eapply rtc_l; [eapply (step_handle _ _ _ true i); [reflexivity|vm_compute; reflexivity]|]; cbn -[Z.pow].

(** An [Arc] is cloned, the first one dropped, and the second one asked for a
    mutable borrow. *)
Example borrowed_run : reachable 1 (State (MkInner 1 1 Alive false 0 0) [Gone; MutBorrow]).
Proof.
  left. eapply rtc_l; [apply (step_borrow _ _ _ 0 (ArcRef []) Clone); [reflexivity|set_solver|vm_compute; lia]|]. cbn [insert list_insert].
  eapply rtc_l; [eapply (step_op _ _ _ true 0 _ 0); [reflexivity|reflexivity|vm_compute; reflexivity]|]. cbn -[Z.pow].
  eapply rtc_l; [eapply (step_op _ _ _ true 0 _ 0); [reflexivity|reflexivity|vm_compute; reflexivity]|]. cbn -[Z.pow].
  own 0%nat Drop. go 0%nat.
  own 1%nat IsUnique. go 1%nat. go 1%nat. go 1%nat.
  apply rtc_refl.
Defined.

Lemma arc_safe_witness : let σ := State (MkInner 1 1 Alive false 0 0) [Gone; MutBorrow] in
  ¬ undefined σ ∧
  (∀ i ops, handles σ !! i = Some (ArcRef ops) → data (inner σ) = Alive ∧ freed (inner σ) = false) ∧
  (∀ i ops, handles σ !! i = Some (WeakRef ops) → freed (inner σ) = false) ∧
  (∀ i k h, handles σ !! i = Some MutBorrow → handles σ !! k = Some h → k ≠ i → h = Gone).
Proof. apply (arc_safe 1); [done|apply borrowed_run]. Defined.

(** The only [Arc] is dropped while its [Weak] is upgraded: the upgrade comes too
    late, the [Weak] frees the block. *)
Example dropped_run : reachable 1 (State (MkInner 0 0 Taken true 1 1) [Gone; Gone]).
Proof.
  left. eapply rtc_l; [apply (step_borrow _ _ _ 0 (ArcRef []) Downgrade); [reflexivity|set_solver|vm_compute; lia]|]. cbn [insert list_insert].
  eapply rtc_l; [eapply (step_op _ _ _ true 0 _ 0); [reflexivity|reflexivity|vm_compute; reflexivity]|]. cbn -[Z.pow].
  eapply rtc_l; [eapply (step_op _ _ _ true 0 _ 0); [reflexivity|reflexivity|vm_compute; reflexivity]|]. cbn -[Z.pow].
  eapply rtc_l; [apply (step_borrow _ _ _ 1 (WeakRef []) Upgrade); [reflexivity|set_solver|vm_compute; lia]|]. cbn [insert list_insert].
  eapply rtc_l; [eapply (step_op _ _ _ true 1 _ 0); [reflexivity|reflexivity|vm_compute; reflexivity]|]. cbn -[Z.pow].
  own 0%nat Drop. go 0%nat.
  eapply rtc_l; [eapply (step_op _ _ _ true 1 _ 0); [reflexivity|reflexivity|vm_compute; reflexivity]|]. cbn -[Z.pow].
  go 0%nat. go 0%nat. own 1%nat WeakDrop. go 1%nat. go 1%nat. apply rtc_refl.
Defined.

Lemma arc_reclaims_witness : let σ := State (MkInner 0 0 Taken true 1 1) [Gone; Gone] in
  (takes (inner σ) ≤ 1)%nat ∧ (frees (inner σ) ≤ 1)%nat ∧
  ((∀ h, h ∈ handles σ → h = Gone) →
   frees (inner σ) = 1%nat ∧
   (data (inner σ) = Taken ∧ takes (inner σ) = 1%nat ∨ data (inner σ) = Uninit ∧ takes (inner σ) = 0%nat)).
Proof. apply (arc_reclaims 1); [done|apply dropped_run]. Defined.

Lemma arc_counters_witness : let σ := State (MkInner 1 1 Alive false 0 0) [Gone; MutBorrow] in
  strong (inner σ) = Z.of_nat (total strong_unit (handles σ) + total_ops new_strong (handles σ)) ∧
  (total locking (handles σ) = 1%nat ∧ weak (inner σ) = usize_MAX ∨
   weak (inner σ) = Z.of_nat (total weak_unit (handles σ) + total_ops new_weak (handles σ)) + Z.min 1 (strong (inner σ))) ∧
  strong (inner σ) ≤ 2 ^ 63 + Z.of_nat 1 ∧
  (weak (inner σ) = usize_MAX ∨ weak (inner σ) ≤ 2 ^ 63 + Z.of_nat 1).
Proof. apply (arc_counters 1); [done|apply borrowed_run]. Defined.
