(* ===== verification/IntArith.v ===== *)
(** Arithmetic methods of the integer types: rounding divisions, multiples, powers
    of two, carries, differences and averages, of [core/src/num/uint_macros.rs]
    (the names with [u_]), [int_macros.rs] ([i_]) and [num/mod.rs]. *)

From S2P Require Import Prelude Words.

#[local] Open Scope Z_scope.

(** ** Unsigned division *)
Definition u_div_euclid (w self rhs : Z) : option Z := div (uint w) self rhs.
Definition u_rem_euclid (w self rhs : Z) : option Z := rem (uint w) self rhs.
Definition u_div_floor (w self rhs : Z) : option Z := div (uint w) self rhs.
Definition u_div_ceil (w self rhs : Z) : option Z :=
  d ← div (uint w) self rhs; r ← rem (uint w) self rhs;
  if 0 <? r then fit (uint w) (d + 1) else Some d.

Definition u_next_multiple_of (w self rhs : Z) : option Z :=
  r ← rem (uint w) self rhs;
  if r =? 0 then Some self else k ← fit (uint w) (rhs - r); fit (uint w) (self + k).
Definition u_checked_next_multiple_of (w self rhs : Z) : option (option Z) :=
  match rem (uint w) self rhs with
  | None => Some None
  | Some r => if r =? 0 then Some (Some self) else k ← fit (uint w) (rhs - r); Some (fit (uint w) (self + k))
  end.
Definition u_is_multiple_of (w self rhs : Z) : option bool :=
  if rhs =? 0 then Some (self =? 0) else r ← rem (uint w) self rhs; Some (r =? 0).

(** ** Signed division *)
Definition i_div_euclid (w self rhs : Z) : option Z :=
  q ← div (sint w) self rhs; r ← rem (sint w) self rhs;
  if r <? 0 then if 0 <? rhs then fit (sint w) (q - 1) else fit (sint w) (q + 1) else Some q.

Definition wrapping_abs (w self : Z) : Z := if self <? 0 then wrap (sint w) (- self) else self.

Definition i_rem_euclid (w self rhs : Z) : option Z :=
  r ← rem (sint w) self rhs;
  Some (if r <? 0 then wrap (sint w) (r + wrapping_abs w rhs) else r).

Definition i_div_floor (w self rhs : Z) : option Z :=
  d ← div (sint w) self rhs; r ← rem (sint w) self rhs;
  let correction := Z.shiftr (Z.lxor self rhs) (w - 1) in
  if negb (r =? 0) then fit (sint w) (d + correction) else Some d.

Definition i_div_ceil (w self rhs : Z) : option Z :=
  d ← div (sint w) self rhs; r ← rem (sint w) self rhs;
  correction ← fit (sint w) (1 + Z.shiftr (Z.lxor self rhs) (w - 1));
  if negb (r =? 0) then fit (sint w) (d + correction) else Some d.

Definition i_next_multiple_of (w self rhs : Z) : option Z :=
  if rhs =? -1 then Some self
  else
    r ← rem (sint w) self rhs;
    m ← (if ((0 <? r) && (rhs <? 0)) || ((r <? 0) && (0 <? rhs)) then fit (sint w) (r + rhs) else Some r);
    if m =? 0 then Some self else k ← fit (sint w) (rhs - m); fit (sint w) (self + k).

Definition i_checked_next_multiple_of (w self rhs : Z) : option (option Z) :=
  if rhs =? -1 then Some (Some self)
  else
    match rem (sint w) self rhs with
    | None => Some None
    | Some r =>
        m ← (if ((0 <? r) && (rhs <? 0)) || ((r <? 0) && (0 <? rhs)) then fit (sint w) (r + rhs) else Some r);
        if m =? 0 then Some (Some self) else k ← fit (sint w) (rhs - m); Some (fit (sint w) (self + k))
    end.

(** ** Powers of two *)
Definition one_less_than_next_power_of_two (w self : Z) : option Z :=
  if self <=? 1 then Some 0
  else
    p ← fit (uint w) (self - 1); _ ← assert (negb (p =? 0));
    Some (Z.shiftr (MAX (uint w)) (leading_zeros w p)).
Definition next_power_of_two (w self : Z) : option Z :=
  p ← one_less_than_next_power_of_two w self; fit (uint w) (p + 1).
Definition checked_next_power_of_two (w self : Z) : option (option Z) :=
  p ← one_less_than_next_power_of_two w self; Some (fit (uint w) (p + 1)).
Definition wrapping_next_power_of_two (w self : Z) : option Z :=
  p ← one_less_than_next_power_of_two w self; Some (wrap (uint w) (p + 1)).

(** ** Carries and borrows *)
Definition carrying_add (w self rhs : Z) (carry : bool) : option (Z * bool) :=
  let '(a, c1) := overflowing (uint w) (self + rhs) in
  let '(b, c2) := overflowing (uint w) (a + Z.b2z carry) in
  _ ← assert (negb (c1 && c2)); Some (b, c1 || c2).
Definition borrowing_sub (w self rhs : Z) (borrow : bool) : option (Z * bool) :=
  let '(a, c1) := overflowing (uint w) (self - rhs) in
  let '(b, c2) := overflowing (uint w) (a - Z.b2z borrow) in
  _ ← assert (negb (c1 && c2)); Some (b, c1 || c2).

(** [rhs] is signed. *)
Definition overflowing_add_signed (w self rhs : Z) : Z * bool :=
  let '(res, overflowed) := overflowing (uint w) (self + wrap (uint w) rhs) in (res, xorb overflowed (rhs <? 0)).
Definition overflowing_sub_signed (w self rhs : Z) : Z * bool :=
  let '(res, overflow) := overflowing (uint w) (self - wrap (uint w) rhs) in (res, xorb overflow (rhs <? 0)).

(** ** Differences *)
Definition u_abs_diff (w self other : Z) : option Z :=
  if w =? 8 then Some (wrap (uint 8) (Z.abs (wrap (sint 32) (self - other))))
  else if self <? other then fit (uint w) (other - self) else fit (uint w) (self - other).
Definition i_abs_diff (w self other : Z) : Z :=
  let U := wrap (uint w) in
  if self <? other then U (U other - U self) else U (U self - U other).

(** ** Averages: without and with a type of [wide] bits *)
Definition u_midpoint (w self rhs : Z) : option Z :=
  fit (uint w) (Z.shiftr (Z.lxor self rhs) 1 + Z.land self rhs).
Definition i_midpoint (w self rhs : Z) : option Z :=
  t ← fit (sint w) (Z.shiftr (Z.lxor self rhs) 1 + Z.land self rhs);
  fit (sint w) (t + Z.land (if t <? 0 then 1 else 0) (Z.lxor self rhs)).
Definition u_midpoint_wide (w wide self rhs : Z) : option Z :=
  s ← fit (uint wide) (self + rhs); q ← div (uint wide) s 2; Some (wrap (uint w) q).
Definition i_midpoint_wide (w wide self rhs : Z) : option Z :=
  s ← fit (sint wide) (self + rhs); q ← div (sint wide) s 2; Some (wrap (sint w) q).

(** ** Lemmas *)

(** A quotient overflows only for [MIN / -1]. *)
Definition div_fails (t : int_ty) (a b : Z) : Prop := b = 0 ∨ signed t = true ∧ a = MIN t ∧ b = -1.

#[global] Instance div_fails_dec t a b : Decision (div_fails t a b).
Proof. unfold div_fails. apply _. Defined.

Lemma div_None t a b : int_ok t → in_range t a → div_fails t a b → div t a b = None.
Proof.
  unfold div. intros Ht Ha [-> | (Hs & -> & ->)]; [done|]. cbn [Z.eqb].
  apply fit_out. change (-1) with (- (1)). rewrite Z.quot_opp_r, Z.quot_1_r by lia. int_bounds t. rewrite Hs. lia.
Qed.

Lemma quot_abs a b : b ≠ 0 → a = b * (a `quot` b) + a `rem` b ∧ Z.abs (a `rem` b) < Z.abs b ∧ 0 ≤ a * (a `rem` b).
Proof.
  intros Hb. split_and!; [apply Z.quot_rem' | by apply Z.rem_bound_abs |].
  pose proof (Z.rem_sign_mul a b Hb). lia.
Qed.

Lemma div_Some t a b : int_ok t → in_range t a → in_range t b → ¬ div_fails t a b → div t a b = Some (a `quot` b).
Proof.
  unfold div_fails, div. intros Ht Ha Hb Hf.
  assert (b ≠ 0) by tauto. rewrite (proj2 (Z.eqb_neq b 0)) by done. apply fit_in.
  destruct (quot_abs a b) as (H1 & H2 & H3); [done|].
  set (q := a `quot` b) in *. set (r := a `rem` b) in *. clearbody q r.
  destruct (decide (b = -1)) as [->|]; [|destruct (decide (b = 1)) as [->|]].
  - int_bounds t. destruct (signed t); [|lia]. assert (a ≠ -m) by tauto. lia.
  - int_bounds t. destruct (signed t); lia.
  - destruct (decide (a = 0)) as [->|].
    { assert (q = 0) by nia. subst. done. }
    assert (Z.abs q < Z.abs a) by nia. apply range_weaken with a; [done..|].
    intros Hs. int_bounds t. rewrite Hs in *. nia.
Qed.

Lemma rem_None t a b : int_ok t → in_range t a → div_fails t a b → rem t a b = None.
Proof. intros. unfold rem. by rewrite div_None. Qed.

Lemma rem_Some t a b : int_ok t → in_range t a → in_range t b → ¬ div_fails t a b → rem t a b = Some (a `rem` b).
Proof. intros. unfold rem. by rewrite div_Some. Qed.

(** The mask that is all ones when the signs differ *)
Lemma sign_mask w a b : width_ok w → in_range (sint w) a → in_range (sint w) b →
  Z.shiftr (Z.lxor a b) (w - 1) = if xorb (a <? 0) (b <? 0) then -1 else 0.
Proof.
  intros Hw Ha%sint_range Hb%sint_range. pose proof (width_pos w Hw). rewrite Z.shiftr_lxor, !Z.shiftr_div_pow2 by lia.
  assert (H1 : ∀ x, - 2 ^ (w - 1) ≤ x < 2 ^ (w - 1) → x / 2 ^ (w - 1) = if x <? 0 then -1 else 0).
  { intros x Hx. case_match; symmetry; [eapply Z.div_unique with (x + 2 ^ (w - 1)) | eapply Z.div_unique with x]; lia. }
  rewrite !H1 by done. by do 2 case_match.
Qed.

(** Away from a division that fails, the truncated quotient and remainder. *)
Lemma trunc_spec t a b : int_ok t → in_range t a → in_range t b → ¬ div_fails t a b →
  ∃ q r, div t a b = Some q ∧ rem t a b = Some r ∧ a = b * q + r ∧ Z.abs r < Z.abs b ∧ 0 ≤ a * r ∧ (r = 0 ∨ 2 * Z.abs q ≤ Z.abs a) ∧
    (signed t = false → 0 ≤ q ∧ 0 ≤ r).
Proof.
  intros Ht Ha Hb Hf. exists (a `quot` b), (a `rem` b). rewrite div_Some, rem_Some by done.
  assert (b ≠ 0) by (unfold div_fails in Hf; tauto). destruct (quot_abs a b) as (H1 & H2 & H3); [done|].
  assert (a `rem` b = 0 ∨ 2 * Z.abs (a `quot` b) ≤ Z.abs a).
  { destruct (decide (a `rem` b = 0)); [by left | right]. rewrite <- Z.quot_abs, Z.quot_div_nonneg by lia.
    assert (Z.abs a / Z.abs b ≤ Z.abs a / 2) by (apply Z.div_le_compat_l; lia).
    pose proof (Z.mul_div_le (Z.abs a) 2). lia. }
  split_and!; [done..|]. intros Hs.
  assert (0 ≤ a ∧ 0 ≤ b) as [] by (unfold in_range, MIN in *; rewrite Hs in *; lia).
  split; [apply Z.quot_pos; lia | by apply Z.rem_nonneg].
Qed.

Lemma euclid_unique a b q r q0 : b ≠ 0 → a = b * q + r → 0 ≤ r < Z.abs b → q0 = q →
  q0 = Z.sgn b * (a / Z.abs b).
Proof.
  intros Hb Ha Hr ->. assert (a / Z.abs b = Z.sgn b * q) as ->; [|by destruct b; cbn; lia].
  symmetry. apply Z.div_unique with r; [left; lia|]. rewrite Ha. destruct b; cbn [Z.abs Z.sgn] in *; nia.
Qed.

Lemma i_div_euclid_spec w a b : width_ok w → in_range (sint w) a → in_range (sint w) b → ¬ div_fails (sint w) a b →
  i_div_euclid w a b = Some (Z.sgn b * (a / Z.abs b)).
Proof.
  intros Hw Ha Hb Hf. assert (Ht : int_ok (sint w)) by done.
  destruct (trunc_spec _ _ _ Ht Ha Hb Hf) as (q & r & Hq & Hr & Heq & Habs & Hsg & Hsm & _).
  unfold i_div_euclid. rewrite Hq, Hr. cbn [mbind option_bind].
  assert (in_range (sint w) (q - 1) ∨ r = 0) as H1 by (int_bounds (sint w); cbn [signed sint] in *; lia).
  assert (in_range (sint w) (q + 1) ∨ r = 0) as H2 by (int_bounds (sint w); cbn [signed sint] in *; lia).
  assert (b ≠ 0) by (unfold div_fails in Hf; tauto).
  destruct (Z.ltb_spec r 0); [destruct (Z.ltb_spec 0 b)|].
  - rewrite fit_in by (destruct H1; [done | lia]). f_equal. apply euclid_unique with (q - 1) (r + b); lia.
  - rewrite fit_in by (destruct H2; [done | lia]). f_equal. apply euclid_unique with (q + 1) (r - b); lia.
  - f_equal. apply euclid_unique with q r; lia.
Qed.

Lemma i_rem_euclid_spec w a b : width_ok w → in_range (sint w) a → in_range (sint w) b → ¬ div_fails (sint w) a b →
  i_rem_euclid w a b = Some (a mod Z.abs b).
Proof.
  intros Hw Ha Hb Hf. assert (Ht : int_ok (sint w)) by done.
  destruct (trunc_spec _ _ _ Ht Ha Hb Hf) as (q & r & _ & Hr & Heq & Habs & Hsg & _).
  unfold i_rem_euclid. rewrite Hr. cbn [mbind option_bind]. f_equal.
  assert (b ≠ 0) by (unfold div_fails in Hf; tauto). clear Hf.
  assert (Hu : ∀ x, 0 ≤ x < Z.abs b → (∃ k, a = b * k + x) → x = a mod Z.abs b).
  { intros x Hx [k Hk]. apply Z.mod_unique with (Z.sgn b * k); [left; lia|]. rewrite Hk. destruct b; cbn [Z.abs Z.sgn] in *; nia. }
  destruct (Z.ltb_spec r 0); [|apply Hu; [lia | by exists q]].
  transitivity (r + Z.abs b); [|apply Hu; [lia|]; exists (q - Z.sgn b); destruct b; cbn [Z.abs Z.sgn] in *; lia].
  rewrite <- (wrap_id (sint w) (r + Z.abs b)); [|done|by int_bounds (sint w); cbn [signed sint] in *; lia].
  apply wrap_cong; [done|]. unfold wrapping_abs. destruct (Z.ltb_spec b 0); [|by rewrite Z.abs_eq by lia].
  rewrite Z.add_mod, (wrap_residue (sint w)), <- Z.add_mod, Z.abs_neq by (done || by destruct (width_pow _ Hw); cbn [bits sint]; lia). done.
Qed.

(** The truncated results, corrected to the floor *)
Lemma floor_of_trunc a b q r : b ≠ 0 → a = b * q + r → Z.abs r < Z.abs b → 0 ≤ a * r →
  a / b = (if (r =? 0) || eqb (a <? 0) (b <? 0) then q else q - 1) ∧
  a mod b = if ((0 <? r) && (b <? 0)) || ((r <? 0) && (0 <? b)) then r + b else r.
Proof.
  intros Hb Ha Hr Hs.
  assert (0 < r → 0 < a) by (intros; destruct (Z.lt_trichotomy a 0) as [| [-> |]]; [nia | | done]; destruct (Z.lt_trichotomy q 0) as [| [-> |]]; nia).
  assert (r < 0 → a < 0) by (intros; destruct (Z.lt_trichotomy a 0) as [| [-> |]]; [done | | nia]; destruct (Z.lt_trichotomy q 0) as [| [-> |]]; nia).
  assert (Hu : ∀ q' r', a = b * q' + r' → 0 ≤ r' < b ∨ b < r' ≤ 0 → a / b = q' ∧ a mod b = r').
  { intros q' r' Heq Hr'. split; symmetry; [by apply Z.div_unique with r' | by apply Z.mod_unique with q']. }
  destruct (Z.eqb_spec r 0) as [->|]; cbn [orb].
  { rewrite andb_false_l. cbn [orb Z.ltb Z.compare andb]. apply Hu; lia. }
  destruct (Z.ltb_spec a 0), (Z.ltb_spec b 0), (Z.ltb_spec 0 r), (Z.ltb_spec r 0), (Z.ltb_spec 0 b);
    cbn [andb orb eqb]; (lia || apply Hu; lia).
Qed.

Lemma ceil_of_floor a b : b ≠ 0 → - (- a / b) = if a mod b =? 0 then a / b else a / b + 1.
Proof.
  intros Hb. destruct (Z.eqb_spec (a mod b) 0).
  - rewrite Z.div_opp_l_z by done. lia.
  - rewrite Z.div_opp_l_nz by done. lia.
Qed.

Lemma rem_mod_zero a b q r : b ≠ 0 → a = b * q + r → Z.abs r < Z.abs b → (a mod b =? 0) = (r =? 0).
Proof.
  intros Hb -> Hr. rewrite Z.add_comm, Z.mul_comm, Z.mod_add by done.
  destruct (Z.eqb_spec r 0) as [->|]; [by rewrite Z.mod_0_l|].
  apply Z.eqb_neq. intros [k Hk]%Z.mod_divide; [|done]. rewrite Hk, Z.abs_mul in Hr.
  assert (k ≠ 0) by (intros ->; lia). nia.
Qed.

Section floor.
Context (w a b : Z) (Hw : width_ok w) (Ha : in_range (sint w) a) (Hb : in_range (sint w) b) (Hf : ¬ div_fails (sint w) a b).

Lemma i_div_floor_spec : i_div_floor w a b = Some (a / b).
Proof using All.
  destruct (trunc_spec (sint w) a b) as (q & r & Hq & Hr & Heq & Habs & Hsg & Hsm & _); [done..|].
  assert (b ≠ 0) by (unfold div_fails in Hf; tauto).
  unfold i_div_floor. rewrite Hq, Hr. cbn [mbind option_bind]. rewrite sign_mask by done.
  destruct (floor_of_trunc a b q r) as [-> _]; [done..|].
  destruct (Z.eqb_spec r 0); cbn [negb orb]; [done|].
  assert (in_range (sint w) (q - 1) ∧ in_range (sint w) q) as [].
  { assert (Ht : int_ok (sint w)) by done. int_bounds (sint w); cbn [signed sint] in *; lia. }
  destruct (a <? 0), (b <? 0); cbn [xorb eqb]; rewrite ?Z.add_0_r, ?Z.add_opp_r; by apply fit_in.
Qed.

Lemma i_div_ceil_spec : i_div_ceil w a b = Some (- (- a / b)).
Proof using All.
  destruct (trunc_spec (sint w) a b) as (q & r & Hq & Hr & Heq & Habs & Hsg & Hsm & _); [done..|].
  assert (b ≠ 0) by (unfold div_fails in Hf; tauto).
  unfold i_div_ceil. rewrite Hq, Hr. cbn [mbind option_bind]. rewrite sign_mask by done.
  rewrite ceil_of_floor, (rem_mod_zero a b q r) by done.
  destruct (floor_of_trunc a b q r) as [-> _]; [done..|].
  assert (Ht : int_ok (sint w)) by done.
  assert (in_range (sint w) 0 ∧ in_range (sint w) 1) as [] by (clear - Ht; int_bounds (sint w); cbn [signed sint] in *; lia).
  rewrite (fit_in (sint w) (1 + _)) by (by destruct (xorb _ _)). cbn [mbind option_bind].
  destruct (Z.eqb_spec r 0); cbn [negb orb]; [done|].
  assert (in_range (sint w) (q + 1) ∧ in_range (sint w) q) as [].
  { clear - Hw Ht Ha Hb Hsm n. int_bounds (sint w); cbn [signed sint] in *; lia. }
  destruct (a <? 0), (b <? 0); cbn [xorb eqb]; rewrite fit_in by (rewrite ?Z.add_0_r; done); f_equal; lia.
Qed.
End floor.

(** ** The multiple of [b] that is next to [a], away from zero if [b] is positive *)
Definition next_multiple (a b : Z) : Z := b * - (- a / b).

Lemma next_multiple_eq a b : b ≠ 0 → next_multiple a b = if a mod b =? 0 then a else a + (b - a mod b).
Proof.
  intros Hb. unfold next_multiple. rewrite ceil_of_floor by done. pose proof (Z.div_mod a b Hb).
  destruct (Z.eqb_spec (a mod b) 0); lia.
Qed.

Lemma next_multiple_least a b : 0 < b → a ≤ next_multiple a b < a + b ∧ next_multiple a b mod b = 0.
Proof.
  intros Hb. rewrite next_multiple_eq by lia. pose proof (Z.mod_pos_bound a b Hb).
  split; [destruct (Z.eqb_spec (a mod b) 0); lia|].
  rewrite <- next_multiple_eq by lia. unfold next_multiple. rewrite Z.mul_comm. apply Z.mod_mul. lia.
Qed.

Lemma next_multiple_greatest a b : b < 0 → a + b < next_multiple a b ≤ a ∧ next_multiple a b mod b = 0.
Proof.
  intros Hb. rewrite next_multiple_eq by lia. pose proof (Z.mod_neg_bound a b Hb).
  split; [destruct (Z.eqb_spec (a mod b) 0); lia|].
  rewrite <- next_multiple_eq by lia. unfold next_multiple. rewrite Z.mul_comm. apply Z.mod_mul. lia.
Qed.

Lemma i_next_multiple_spec w a b : width_ok w → in_range (sint w) a → in_range (sint w) b →
  i_next_multiple_of w a b = (if b =? 0 then None else fit (sint w) (next_multiple a b)) ∧
  i_checked_next_multiple_of w a b = Some (if b =? 0 then None else fit (sint w) (next_multiple a b)).
Proof.
  intros Hw Ha Hb. assert (Ht : int_ok (sint w)) by done.
  unfold i_next_multiple_of, i_checked_next_multiple_of.
  destruct (Z.eqb_spec b 0) as [->|]; [done|].
  destruct (Z.eqb_spec b (-1)) as [->|].
  { assert (next_multiple a (-1) = a) as -> by (pose proof (next_multiple_greatest a (-1)); lia). by rewrite fit_in. }
  destruct (trunc_spec (sint w) a b) as (q & r & _ & Hr & Heq & Habs & Hsg & _); [done..|unfold div_fails; lia|].
  rewrite Hr. cbn [mbind option_bind].
  destruct (floor_of_trunc a b q r) as [_ Hm]; [done..|]. rewrite next_multiple_eq, Hm by done.
  match goal with |- context [if ?c then fit _ _ else _] => destruct c eqn:Hc end.
  - rewrite (fit_in _ (r + b)) by (clear - Ht Hb Habs Hc; int_bounds (sint w); cbn [signed sint] in *; lia).
    cbn [mbind option_bind]. destruct (Z.eqb_spec (r + b) 0); [by rewrite fit_in|].
    by rewrite fit_in by (clear - Ht Hb Habs Hc; int_bounds (sint w); cbn [signed sint] in *; lia).
  - cbn [mbind option_bind]. destruct (Z.eqb_spec r 0); [by rewrite fit_in|].
    by rewrite fit_in by (clear - Ht Hb Habs Hc n1; int_bounds (sint w); cbn [signed sint] in *; lia).
Qed.

Lemma u_trunc w a b : width_ok w → in_range (uint w) a → in_range (uint w) b → b ≠ 0 →
  div (uint w) a b = Some (a / b) ∧ rem (uint w) a b = Some (a mod b).
Proof.
  intros Hw Ha Hb Hn. assert (¬ div_fails (uint w) a b) by (unfold div_fails; cbn; naive_solver).
  rewrite div_Some, rem_Some by done. rewrite !uint_range in *.
  by rewrite Z.quot_div_nonneg, Z.rem_mod_nonneg by lia.
Qed.

Lemma u_div_ceil_spec w a b : width_ok w → in_range (uint w) a → in_range (uint w) b → b ≠ 0 →
  u_div_ceil w a b = Some (- (- a / b)).
Proof.
  intros Hw Ha Hb Hn. unfold u_div_ceil. destruct (u_trunc w a b) as [-> ->]; [done..|]. cbn [mbind option_bind].
  rewrite ceil_of_floor by done. rewrite uint_range in *. pose proof (Z.mod_pos_bound a b).
  pose proof (Z.mul_div_le a b). assert (0 ≤ a / b) by (apply Z.div_pos; lia).
  destruct (Z.ltb_spec 0 (a mod b)), (Z.eqb_spec (a mod b) 0); try lia; [|done].
  apply fit_in, uint_range. nia.
Qed.

Lemma u_next_multiple_spec w a b : width_ok w → in_range (uint w) a → in_range (uint w) b →
  u_next_multiple_of w a b = (if b =? 0 then None else fit (uint w) (next_multiple a b)) ∧
  u_checked_next_multiple_of w a b = Some (if b =? 0 then None else fit (uint w) (next_multiple a b)).
Proof.
  intros Hw Ha Hb. unfold u_next_multiple_of, u_checked_next_multiple_of.
  destruct (Z.eqb_spec b 0) as [->|]; [done|].
  destruct (u_trunc w a b) as [_ ->]; [done..|]. cbn [mbind option_bind].
  rewrite next_multiple_eq by done. destruct (Z.eqb_spec (a mod b) 0); [by rewrite fit_in|].
  rewrite (fit_in _ (b - _)); [done|]. rewrite uint_range in *. pose proof (Z.mod_pos_bound a b). lia.
Qed.

(** ** Powers of two, carries, differences, averages *)
Lemma one_less_spec w n : width_ok w → in_range (uint w) n →
  one_less_than_next_power_of_two w n = Some (2 ^ Z.log2_up n - 1).
Proof.
  intros Hw Hn%uint_range. unfold one_less_than_next_power_of_two.
  destruct (Z.leb_spec n 1); [by rewrite Z.log2_up_eqn0 by done|].
  rewrite fit_in by (apply uint_range; lia). cbn [mbind option_bind].
  unfold assert, leading_zeros, MAX. cbn [uint signed bits].
  destruct (Z.eqb_spec (n - 1) 0); [lia|]. cbn [negb mbind option_bind]. f_equal.
  rewrite Z.log2_up_eqn by done. replace (Z.pred n) with (n - 1) by lia.
  assert (0 ≤ Z.log2 (n - 1) < w) as [].
  { split; [apply Z.log2_nonneg | apply Z.log2_lt_pow2; lia]. }
  rewrite Z.shiftr_div_pow2 by lia. symmetry. apply Z.div_unique with (2 ^ (w - 1 - Z.log2 (n - 1)) - 1).
  - pose proof (Z.pow_pos_nonneg 2 (w - 1 - Z.log2 (n - 1))). lia.
  - rewrite Z.mul_sub_distr_l, <- Z.pow_add_r by lia.
    replace (w - 1 - Z.log2 (n - 1) + Z.succ (Z.log2 (n - 1))) with w by lia. lia.
Qed.

Lemma overflowing_add w a b : width_ok w → in_range (uint w) a → 0 ≤ b ≤ 2 ^ w - 1 →
  ∃ s c, overflowing (uint w) (a + b) = (s, c) ∧ a + b = s + Z.b2z c * 2 ^ w ∧ 0 ≤ s < 2 ^ w.
Proof.
  intros Hw Ha%uint_range Hb. destruct (width_pow w Hw) as [Hm ?]. do 2 eexists. split; [done|].
  unfold wrap. cbn [uint signed bits].
  assert ((a + b) mod 2 ^ w = if decide (in_range (uint w) (a + b)) then a + b else a + b - 2 ^ w) as ->.
  { case_decide as Hr; rewrite uint_range in Hr; [by apply Z.mod_small|].
    symmetry. apply Z.mod_unique with 1; lia. }
  case_decide as Hr; [rewrite bool_decide_true by done | rewrite bool_decide_false by done];
    rewrite uint_range in Hr; cbn [negb Z.b2z]; lia.
Qed.

Lemma overflowing_sub w a b : width_ok w → in_range (uint w) a → 0 ≤ b ≤ 2 ^ w - 1 →
  ∃ s c, overflowing (uint w) (a - b) = (s, c) ∧ a - b = s - Z.b2z c * 2 ^ w ∧ 0 ≤ s < 2 ^ w.
Proof.
  intros Hw Ha%uint_range Hb. destruct (width_pow w Hw) as [Hm ?]. do 2 eexists. split; [done|].
  unfold wrap. cbn [uint signed bits].
  assert ((a - b) mod 2 ^ w = if decide (in_range (uint w) (a - b)) then a - b else a - b + 2 ^ w) as ->.
  { case_decide as Hr; rewrite uint_range in Hr; [by apply Z.mod_small|].
    symmetry. apply Z.mod_unique with (-1); lia. }
  case_decide as Hr; [rewrite bool_decide_true by done | rewrite bool_decide_false by done];
    rewrite uint_range in Hr; cbn [negb Z.b2z]; lia.
Qed.

Lemma carrying_add_spec w a b c : width_ok w → in_range (uint w) a → in_range (uint w) b →
  ∃ s c', carrying_add w a b c = Some (s, c') ∧ a + b + Z.b2z c = s + Z.b2z c' * 2 ^ w ∧ 0 ≤ s < 2 ^ w.
Proof.
  intros Hw Ha Hb. destruct (width_pow w Hw) as [Hm ?]. unfold carrying_add.
  destruct (overflowing_add w a b Hw Ha) as (s & c1 & -> & H1 & Hs); [rewrite uint_range in Hb; lia|].
  destruct (overflowing_add w s (Z.b2z c) Hw) as (s' & c2 & -> & H2 & Hs'); [by apply uint_range | by destruct c; cbn [Z.b2z]; lia |].
  rewrite uint_range in *.
  assert (Hc : c1 && c2 = false) by (destruct c, c1, c2; cbn [Z.b2z andb] in *; lia || done).
  rewrite Hc. do 2 eexists. split; [done|]. destruct c1, c2; cbn [Z.b2z orb andb] in *; done || lia.
Qed.

Lemma borrowing_sub_spec w a b c : width_ok w → in_range (uint w) a → in_range (uint w) b →
  ∃ s c', borrowing_sub w a b c = Some (s, c') ∧ a - b - Z.b2z c = s - Z.b2z c' * 2 ^ w ∧ 0 ≤ s < 2 ^ w.
Proof.
  intros Hw Ha Hb. destruct (width_pow w Hw) as [Hm ?]. unfold borrowing_sub.
  destruct (overflowing_sub w a b Hw Ha) as (s & c1 & -> & H1 & Hs); [rewrite uint_range in Hb; lia|].
  destruct (overflowing_sub w s (Z.b2z c) Hw) as (s' & c2 & -> & H2 & Hs'); [by apply uint_range | by destruct c; cbn [Z.b2z]; lia |].
  rewrite uint_range in *.
  assert (Hc : c1 && c2 = false) by (destruct c, c1, c2; cbn [Z.b2z andb] in *; lia || done).
  rewrite Hc. do 2 eexists. split; [done|]. destruct c1, c2; cbn [Z.b2z orb andb] in *; done || lia.
Qed.

Lemma average a b : Z.shiftr (Z.lxor a b) 1 + Z.land a b = (a + b) / 2 ∧ Z.land 1 (Z.lxor a b) = (a + b) mod 2.
Proof.
  pose proof (Z.add_lxor_2land a b) as H. rewrite Z.shiftr_div_pow2, (Z.land_comm 1) by done.
  assert (Z.land (Z.lxor a b) 1 = Z.lxor a b mod 2) as -> by (apply (land_low _ 1); done).
  change (2 ^ 1) with 2. rewrite <- H, (Z.mul_comm 2). by rewrite Z.div_add, Z.mod_add by done.
Qed.

Lemma abs_diff_spec w a b : width_ok w →
  (in_range (uint w) a → in_range (uint w) b → u_abs_diff w a b = Some (Z.abs (a - b))) ∧
  (in_range (sint w) a → in_range (sint w) b → i_abs_diff w a b = Z.abs (a - b)).
Proof.
  intros Hw. split; intros Ha Hb.
  - rewrite uint_range in *. unfold u_abs_diff. destruct (Z.eqb_spec w 8) as [->|].
    + rewrite (wrap_id (sint 32)) by (unfold int_ok, width_ok; cbn; auto || apply sint_range; cbn in *; lia).
      rewrite wrap_id by (unfold int_ok, width_ok; cbn; auto || apply uint_range; cbn in *; lia). done.
    + destruct (Z.ltb_spec a b); rewrite fit_in by (apply uint_range; lia); f_equal; lia.
  - rewrite sint_range in *. destruct (width_pow w Hw) as [Hm ?].
    assert (Hd : ∀ x y, 0 ≤ x - y < 2 ^ w → wrap (uint w) (wrap (uint w) x - wrap (uint w) y) = x - y).
    { intros x y Hxy. unfold wrap. cbn [uint signed bits]. rewrite <- Zminus_mod. by apply Z.mod_small. }
    unfold i_abs_diff. destruct (Z.ltb_spec a b); rewrite Hd; lia.
Qed.

Lemma midpoint_spec w wide a b : width_ok w → width_ok wide → w < wide →
  (in_range (uint w) a → in_range (uint w) b →
     u_midpoint w a b = Some ((a + b) / 2) ∧ u_midpoint_wide w wide a b = Some ((a + b) / 2)) ∧
  (in_range (sint w) a → in_range (sint w) b →
     i_midpoint w a b = Some ((a + b) `quot` 2) ∧ i_midpoint_wide w wide a b = Some ((a + b) `quot` 2)).
Proof.
  intros Hw Hv Hlt. destruct (width_pow w Hw) as [Hm ?]. destruct (width_pow wide Hv) as [Hm' ?].
  assert (2 ^ w ≤ 2 ^ (wide - 1)) by (apply Z.pow_le_mono_r; lia).
  destruct (average a b) as [Hf Hp]. pose proof (Z.div_mod (a + b) 2 ltac:(done)). pose proof (Z.mod_pos_bound (a + b) 2 ltac:(done)).
  split; intros Ha Hb; [rewrite uint_range in * | rewrite sint_range in *]; split.
  - unfold u_midpoint. rewrite Hf. apply fit_in, uint_range. lia.
  - unfold u_midpoint_wide. rewrite fit_in by (apply uint_range; lia). cbn [mbind option_bind].
    destruct (u_trunc wide (a + b) 2) as [-> _]; [done|apply uint_range; lia..|done|].
    cbn [mbind option_bind]. rewrite wrap_id by (done || apply uint_range; lia). done.
  - unfold i_midpoint. rewrite Hf. rewrite fit_in by (apply sint_range; lia). cbn [mbind option_bind].
    assert (Hq : (a + b) `quot` 2 = (a + b) / 2 + if (a + b) / 2 <? 0 then (a + b) mod 2 else 0).
    { destruct (quot_abs (a + b) 2) as (? & ? & Hs); [done|].
      assert ((a + b) `rem` 2 = -1 ∨ (a + b) `rem` 2 = 0 ∨ (a + b) `rem` 2 = 1) as [Hr | [Hr | Hr]] by lia;
        rewrite Hr in *; destruct (Z.ltb_spec ((a + b) / 2) 0); lia. }
    rewrite Hq. destruct (Z.ltb_spec ((a + b) / 2) 0); [rewrite Hp | rewrite Z.land_0_l]; apply fit_in, sint_range; lia.
  - unfold i_midpoint_wide. rewrite fit_in by (apply sint_range; lia). cbn [mbind option_bind].
    rewrite div_Some by (done || unfold div_fails; try apply sint_range; lia). cbn [mbind option_bind].
    rewrite wrap_id; [done..|]. apply sint_range.
    destruct (quot_abs (a + b) 2) as (? & ? & ?); [done|]. nia.
Qed.

(** ** Properties *)

(** C33: Signed division: the four roundings fail exactly on a division by zero and on
    [MIN / -1]; otherwise no intermediate result overflows, [div_euclid] and
    [rem_euclid] are the quotient and the remainder in [0, |b|), and [div_floor]
    and [div_ceil] round the exact quotient down and up. *)
Theorem division_correct (w a b : Z) (Hw : width_ok w) (Ha : in_range (sint w) a) (Hb : in_range (sint w) b) :
  if decide (div_fails (sint w) a b) then
    i_div_euclid w a b = None ∧ i_rem_euclid w a b = None ∧ i_div_floor w a b = None ∧ i_div_ceil w a b = None
  else
    (∃ q r, i_div_euclid w a b = Some q ∧ i_rem_euclid w a b = Some r ∧ a = b * q + r ∧ 0 ≤ r < Z.abs b) ∧
    (∃ d, i_div_floor w a b = Some d ∧ (if decide (0 < b) then b * d ≤ a < b * (d + 1) else b * (d + 1) < a ≤ b * d)) ∧
    (∃ d, i_div_ceil w a b = Some d ∧ (if decide (0 < b) then b * (d - 1) < a ≤ b * d else b * d ≤ a < b * (d - 1))).
Proof.
  case_decide as Hf.
  { unfold i_div_euclid, i_rem_euclid, i_div_floor, i_div_ceil. by rewrite !rem_None, !div_None. }
  rewrite i_div_euclid_spec, i_rem_euclid_spec, i_div_floor_spec, i_div_ceil_spec by done.
  assert (Hb0 : b ≠ 0) by (unfold div_fails in Hf; tauto). clear Hf Ha Hb.
  pose proof (Z.div_mod a b Hb0). pose proof (Z.div_mod (- a) b Hb0).
  split_and!; eexists _.
  - eexists _. split_and!; [done..| | |]; pose proof (Z.mod_pos_bound a (Z.abs b)); pose proof (Z.div_mod a (Z.abs b));
      destruct b; cbn [Z.abs Z.sgn] in *; lia.
  - split; [done|]. case_decide; [pose proof (Z.mod_pos_bound a b) | pose proof (Z.mod_neg_bound a b)]; lia.
  - split; [done|]. case_decide; [pose proof (Z.mod_pos_bound (- a) b) | pose proof (Z.mod_neg_bound (- a) b)]; lia.
Qed.

Lemma division_correct_witness :
  i_div_euclid 8 (-128) 7 = Some (-19) ∧ i_rem_euclid 8 (-128) 7 = Some 5 ∧ i_div_floor 8 (-128) (-1) = None ∧
  ∃ d, i_div_floor 8 (-128) 7 = Some d ∧ (if decide (0 < 7) then 7 * d ≤ -128 < 7 * (d + 1) else 7 * (d + 1) < -128 ≤ 7 * d).
Proof.
  split_and!; [done..|]. by apply (division_correct 8 (-128) 7 ltac:(left; done) ltac:(done) ltac:(done)).
Defined.

(** Rounding up to a multiple: the result is the multiple of [b] next to [a], up if
    [b] is positive and down if it is negative; there is none exactly when [b] is
    zero or that multiple is out of range, and no intermediate result overflows. *)
Theorem next_multiple_of_correct (t : int_ty) (a b : Z) (Ht : int_ok t) (Ha : in_range t a) (Hb : in_range t b) :
  let result := if b =? 0 then None else fit t (next_multiple a b) in
  let w := bits t in
  (if signed t then i_next_multiple_of w a b else u_next_multiple_of w a b) = result ∧
  (if signed t then i_checked_next_multiple_of w a b else u_checked_next_multiple_of w a b) = Some result ∧
  (b ≠ 0 → next_multiple a b mod b = 0 ∧
    if decide (0 < b) then a ≤ next_multiple a b < a + b else a + b < next_multiple a b ≤ a).
Proof.
  destruct t as [[] w]; cbn zeta; cbn [signed bits].
  - destruct (i_next_multiple_spec w a b) as [-> ->]; [done..|]. split_and!; [done..|].
    intros. case_decide; [pose proof (next_multiple_least a b) | pose proof (next_multiple_greatest a b)]; lia.
  - destruct (u_next_multiple_spec w a b) as [-> ->]; [done..|]. split_and!; [done..|].
    intros. case_decide; [pose proof (next_multiple_least a b) | pose proof (next_multiple_greatest a b)]; lia.
Qed.

Lemma next_multiple_of_correct_witness :
  i_next_multiple_of 8 (-10) 4 = Some (-8) ∧ i_checked_next_multiple_of 8 127 4 = Some None ∧
  i_checked_next_multiple_of 8 127 4 = Some (if 4 =? 0 then None else fit (sint 8) (next_multiple 127 4)).
Proof.
  split_and!; [done..|]. by apply (next_multiple_of_correct (sint 8) 127 4 ltac:(left; done) ltac:(done) ltac:(done)).
Defined.

(** [next_power_of_two] is the least power of two that is not below the argument;
    when it does not fit, the three variants panic, return [None], return 0. *)
Theorem next_power_of_two_correct (w n : Z) (Hw : width_ok w) (Hn : in_range (uint w) n) :
  ∃ k, 0 ≤ k ≤ w ∧ n ≤ 2 ^ k ∧ (∀ j, 0 ≤ j → n ≤ 2 ^ j → 2 ^ k ≤ 2 ^ j) ∧
    next_power_of_two w n = (if k =? w then None else Some (2 ^ k)) ∧
    checked_next_power_of_two w n = Some (if k =? w then None else Some (2 ^ k)) ∧
    wrapping_next_power_of_two w n = Some (if k =? w then 0 else 2 ^ k).
Proof.
  exists (Z.log2_up n). unfold next_power_of_two, checked_next_power_of_two, wrapping_next_power_of_two.
  rewrite one_less_spec by done. cbn [mbind option_bind]. rewrite !Z.sub_add.
  rewrite uint_range in Hn. pose proof (Z.log2_up_nonneg n). pose proof (width_pos w Hw).
  assert (Hle : ∀ j, 0 ≤ j → n ≤ 2 ^ j → Z.log2_up n ≤ j).
  { intros j ? ?. destruct (decide (0 < n)); [by apply Z.log2_up_le_pow2 | by rewrite Z.log2_up_eqn0 by lia]. }
  assert (Z.log2_up n ≤ w) by (apply Hle; lia).
  split; [done|]. split; [|split].
  - destruct (decide (0 < n)); [by apply Z.log2_log2_up_spec | by rewrite Z.log2_up_eqn0 by lia; lia].
  - intros j ? ?. apply Z.pow_le_mono_r; [lia|]. by apply Hle.
  - destruct (Z.eqb_spec (Z.log2_up n) w) as [->|].
    + rewrite fit_out by (rewrite uint_range; lia). split_and!; [done..|].
      unfold wrap. cbn [uint signed bits]. by rewrite Z.mod_same by lia.
    + assert (2 ^ Z.log2_up n < 2 ^ w) by (apply Z.pow_lt_mono_r; lia).
      rewrite fit_in, wrap_id; try done; apply uint_range; pose proof (Z.pow_pos_nonneg 2 (Z.log2_up n)); lia.
Qed.

Lemma next_power_of_two_correct_witness :
  next_power_of_two 8 65 = Some 128 ∧ checked_next_power_of_two 8 129 = Some None ∧
  ∃ k, 0 ≤ k ≤ 8 ∧ 65 ≤ 2 ^ k ∧ (∀ j, 0 ≤ j → 65 ≤ 2 ^ j → 2 ^ k ≤ 2 ^ j) ∧
    next_power_of_two 8 65 = (if k =? 8 then None else Some (2 ^ k)) ∧
    checked_next_power_of_two 8 65 = Some (if k =? 8 then None else Some (2 ^ k)) ∧
    wrapping_next_power_of_two 8 65 = Some (if k =? 8 then 0 else 2 ^ k).
Proof. split; [vm_compute; done|]. split; [vm_compute; done|]. apply (next_power_of_two_correct 8 65); [by left | done]. Defined.
