(* ===== verification/IntPow.v ===== *)
(** The methods [pow] of the integer types, [core/src/num/uint_macros.rs] and
    [int_macros.rs]: exponentiation by squaring, with the six treatments of
    overflow.

    The loops halve the exponent, so they recurse on its binary representation:
    [exp & 1] is its last constructor, [exp / 2] what is below.  [pow] and
    [wrapping_pow] have two loops, for exponents known to the compiler or not,
    that do the same operations in the same order. *)

From S2P Require Import Prelude Words.

#[local] Open Scope Z_scope.

Fixpoint pow_loop (t : int_ty) (acc base : Z) (exp : positive) : option Z :=
  match exp with
  | xH => fit t (acc * base)
  | xI exp => acc ← fit t (acc * base); base ← fit t (base * base); pow_loop t acc base exp
  | xO exp => base ← fit t (base * base); pow_loop t acc base exp
  end.

Fixpoint wrapping_pow_loop (t : int_ty) (acc base : Z) (exp : positive) : Z :=
  match exp with
  | xH => wrap t (acc * base)
  | xI exp => wrapping_pow_loop t (wrap t (acc * base)) (wrap t (base * base)) exp
  | xO exp => wrapping_pow_loop t acc (wrap t (base * base)) exp
  end.

Fixpoint overflowing_pow_loop (t : int_ty) (acc base : Z) (overflown : bool) (exp : positive) : Z * bool :=
  match exp with
  | xH => let r := overflowing t (acc * base) in (r.1, r.2 || overflown)
  | xI exp =>
      let r := overflowing t (acc * base) in
      let '(acc, overflown) := (r.1, overflown || r.2) in
      let r := overflowing t (base * base) in
      overflowing_pow_loop t acc r.1 (overflown || r.2) exp
  | xO exp =>
      let r := overflowing t (base * base) in
      overflowing_pow_loop t acc r.1 (overflown || r.2) exp
  end.

Definition pow (t : int_ty) (self exp : Z) : option Z :=
  match exp with Zpos e => pow_loop t 1 self e | _ => Some 1 end.
Definition strict_pow (t : int_ty) (self exp : Z) : option Z :=
  match exp with Zpos e => pow_loop t 1 self e | _ => Some 1 end.
Definition checked_pow (t : int_ty) (self exp : Z) : option Z :=
  match exp with Zpos e => pow_loop t 1 self e | _ => Some 1 end.
Definition wrapping_pow (t : int_ty) (self exp : Z) : Z :=
  match exp with Zpos e => wrapping_pow_loop t 1 self e | _ => 1 end.
Definition overflowing_pow (t : int_ty) (self exp : Z) : Z * bool :=
  match exp with Zpos e => overflowing_pow_loop t 1 self false e | _ => (1, false) end.

Definition saturating_pow (t : int_ty) (self exp : Z) : Z :=
  match checked_pow t self exp with
  | Some x => x
  | None => if signed t && (self <? 0) && (exp mod 2 =? 1) then MIN t else MAX t
  end.

(** ** The loops *)
Lemma mul_pos_ge b e : 0 ≤ b → b ≤ b * Zpos e.
Proof. nia. Qed.

Section pow.
Context (t : int_ty) (x : Z) (Ht : int_ok t) (Hx : in_range t x).

(** A lower power of an integer is in range if a higher one is. *)
Lemma pow_range_mono i j : in_range t (x ^ j) → 0 ≤ i ≤ j → in_range t (x ^ i).
Proof using All.
  intros Hj Hi. destruct (decide (i = j)) as [->|]; [done|].
  assert (signed t = false → 0 ≤ x) as Hs by (intros Hs; unfold in_range, MIN in Hx; rewrite Hs in Hx; lia).
  destruct (decide (Z.abs x ≤ 1)) as [Hs1|].
  - assert (Z.abs (x ^ i) ≤ 1).
    { rewrite Z.abs_pow. assert (Z.abs x = 0 ∨ Z.abs x = 1) as [-> | ->] by lia;
        [destruct (decide (i = 0)) as [->|]; [done|]; rewrite Z.pow_0_l; lia | rewrite Z.pow_1_l; lia]. }
    assert (signed t = false → 0 ≤ x ^ i) by (intros; apply Z.pow_nonneg; auto).
    clear - Ht H H0. int_bounds t. destruct (signed t); [lia | specialize (H0 eq_refl); lia].
  - apply range_weaken with (x ^ j); [done..| |intros; apply Z.pow_nonneg; auto].
    rewrite !Z.abs_pow. apply Z.pow_lt_mono_r; lia.
Qed.

Lemma fit_pow {A} i j (k : Z → option A) r : 0 ≤ i ≤ j → (in_range t (x ^ i) → k (x ^ i) = r) →
  (¬ in_range t (x ^ j) → r = None) → (y ← fit t (x ^ i); k y) = r.
Proof using All.
  intros Hi Hk Hr. destruct (decide (in_range t (x ^ i))) as [H|H]; [rewrite fit_in by done; by apply Hk|].
  rewrite fit_out by done. symmetry. apply Hr. contradict H. by eapply pow_range_mono.
Qed.

Lemma pow_loop_spec e : ∀ a b, 0 ≤ a → 0 ≤ b → pow_loop t (x ^ a) (x ^ b) e = fit t (x ^ (a + b * Zpos e)).
Proof using All.
  induction e as [e IH|e IH|]; intros a b Hpa Hpb; cbn [pow_loop];
    try pose proof (mul_pos_ge b e Hpb).
  - rewrite <- !Z.pow_add_r by done. apply fit_pow with (a + b * Zpos e~1); [lia| |by apply fit_out].
    intros _. apply fit_pow with (a + b * Zpos e~1); [lia| |by apply fit_out].
    intros _. rewrite IH by lia. do 2 f_equal. lia.
  - rewrite <- !Z.pow_add_r by done. apply fit_pow with (a + b * Zpos e~0); [lia| |by apply fit_out].
    intros _. rewrite IH by lia. do 2 f_equal. lia.
  - rewrite <- Z.pow_add_r by done. do 2 f_equal. lia.
Qed.

Lemma wrap_mul a b c d : wrap t a = wrap t c → wrap t b = wrap t d → wrap t (a * b) = wrap t (c * d).
Proof using Ht.
  rewrite !wrap_cong by done. intros H1 H2. destruct (width_pow _ Ht).
  by rewrite (Z.mul_mod a), (Z.mul_mod c), H1, H2 by lia.
Qed.

Lemma wrap_wrap a : wrap t (wrap t a) = wrap t a.
Proof using Ht. apply wrap_id; [done | by apply wrap_range]. Qed.

Lemma wrapping_pow_loop_spec e : ∀ a b acc base, 0 ≤ a → 0 ≤ b → wrap t acc = wrap t (x ^ a) → wrap t base = wrap t (x ^ b) →
  wrapping_pow_loop t acc base e = wrap t (x ^ (a + b * Zpos e)).
Proof using Ht.
  induction e as [e IH|e IH|]; intros a b acc base Hpa Hpb Ha Hb; cbn [wrapping_pow_loop].
  - rewrite (IH (a + b) (b + b)); [do 2 f_equal; lia|lia..| |]; rewrite wrap_wrap, Z.pow_add_r by done; by apply wrap_mul.
  - rewrite (IH a (b + b)); [do 2 f_equal; lia|lia|lia|done|]. rewrite wrap_wrap, Z.pow_add_r by done; by apply wrap_mul.
  - replace (a + b * 1) with (a + b) by lia. rewrite Z.pow_add_r by done. by apply wrap_mul.
Qed.

(** [o] tells that an overflow has already happened; until then nothing has wrapped. *)
Lemma overflowing_pow_loop_spec e : ∀ a b acc base o, 0 ≤ a → 0 ≤ b →
  wrap t acc = wrap t (x ^ a) → wrap t base = wrap t (x ^ b) → (o = false → acc = x ^ a ∧ base = x ^ b) →
  (o = true → ¬ in_range t (x ^ (a + b * Zpos e))) →
  overflowing_pow_loop t acc base o e = overflowing t (x ^ (a + b * Zpos e)).
Proof using All.
  induction e as [e IH|e IH|]; intros a b acc base o Hpa Hpb Ha Hb Ho Hr; cbn [overflowing_pow_loop overflowing fst snd].
  - rewrite (IH (a + b) (b + b)); [f_equal; f_equal; lia|lia..| | | |].
    + rewrite wrap_wrap, Z.pow_add_r by done; by apply wrap_mul.
    + rewrite wrap_wrap, Z.pow_add_r by done; by apply wrap_mul.
    + intros [[-> H1]%orb_false_iff H2]%orb_false_iff. destruct (Ho eq_refl) as [-> ->].
      rewrite !Z.pow_add_r by done. rewrite negb_false_iff, bool_decide_eq_true in *. by rewrite !wrap_id.
    + replace (a + b + (b + b) * Zpos e) with (a + b * Zpos e~1) by lia. intros Hov Hin.
      pose proof (mul_pos_ge b e Hpb). destruct o; [by apply Hr|].
      destruct (Ho eq_refl) as [-> ->]. rewrite !bool_decide_true in Hov; [done|..]; rewrite <- Z.pow_add_r by done;
        apply (pow_range_mono _ _ Hin); lia.
  - rewrite (IH a (b + b)); [f_equal; f_equal; lia|lia..|done| | |].
    + rewrite wrap_wrap, Z.pow_add_r by done; by apply wrap_mul.
    + intros [-> H2]%orb_false_iff. destruct (Ho eq_refl) as [-> ->].
      rewrite !Z.pow_add_r by done. rewrite negb_false_iff, bool_decide_eq_true in *. by rewrite !wrap_id.
    + replace (a + (b + b) * Zpos e) with (a + b * Zpos e~0) by lia. intros Hov Hin.
      pose proof (mul_pos_ge b e Hpb). destruct o; [by apply Hr|].
      destruct (Ho eq_refl) as [-> ->]. rewrite !bool_decide_true in Hov; [done|..]; rewrite <- Z.pow_add_r by done;
        apply (pow_range_mono _ _ Hin); lia.
  - replace (a + b * 1) with (a + b) in * by lia. rewrite Z.pow_add_r in * by done. unfold overflowing. f_equal; [by apply wrap_mul|].
    destruct o; [rewrite orb_true_r; by rewrite bool_decide_false by auto|].
    destruct (Ho eq_refl) as [-> ->]. apply orb_false_r.
Qed.
End pow.

(** ** Properties *)

(** Exponentiation: no intermediate power overflows unless the result does, so
    that, whatever the type, [pow], [strict_pow] and [checked_pow] give the power
    when it is in range and otherwise panic, panic, return [None]; [wrapping_pow] and
    [overflowing_pow] give the wrapped power, with a flag that tells exactly whether
    it is out of range, and [saturating_pow] the value of the range nearest to the
    power. *)
Theorem pow_correct (t : int_ty) (x e : Z) (Ht : int_ok t) (Hx : in_range t x) (He : 0 ≤ e) :
  pow t x e = fit t (x ^ e) ∧ strict_pow t x e = fit t (x ^ e) ∧ checked_pow t x e = fit t (x ^ e) ∧
  wrapping_pow t x e = wrap t (x ^ e) ∧ overflowing_pow t x e = overflowing t (x ^ e) ∧
  saturating_pow t x e = Z.max (MIN t) (Z.min (MAX t) (x ^ e)).
Proof.
  assert (H1 : in_range t 1) by (int_bounds t; destruct (signed t); lia).
  assert (Hc : checked_pow t x e = fit t (x ^ e)).
  { destruct e as [|e|]; [by rewrite fit_in| |lia]. pose proof (pow_loop_spec t x Ht Hx e 0 1 ltac:(done) ltac:(done)) as H.
    by rewrite Z.pow_0_r, Z.pow_1_r, Z.mul_1_l in H. }
  split_and!; [done..| | |].
  - destruct e as [|e|]; [by rewrite wrap_id| |lia].
    pose proof (wrapping_pow_loop_spec t x Ht e 0 1 1 x ltac:(done) ltac:(done)) as H.
    rewrite Z.pow_0_r, Z.pow_1_r, Z.mul_1_l in H. by apply H.
  - destruct e as [|e|]; [by unfold overflowing; rewrite wrap_id, bool_decide_true| |lia].
    pose proof (overflowing_pow_loop_spec t x Ht Hx e 0 1 1 x false ltac:(done) ltac:(done)) as H.
    rewrite Z.pow_0_r, Z.pow_1_r, Z.mul_1_l in H. by apply H.
  - unfold saturating_pow. rewrite Hc. destruct (decide (in_range t (x ^ e))) as [Hr|Hr].
    { rewrite fit_in by done. unfold in_range in Hr. lia. }
    rewrite fit_out by done. assert (MIN t ≤ MAX t) by (unfold in_range in H1; lia).
    unfold in_range in Hr, Hx. 
    assert (Hz : MIN t ≤ 0 ≤ MAX t) by (clear - Ht; int_bounds t; destruct (signed t); lia).
    destruct (Z.ltb_spec x 0) as [Hneg|]; [|assert (0 ≤ x ^ e) by (by apply Z.pow_nonneg)].
    2:{ rewrite andb_false_r, andb_false_l. lia. }
    assert (signed t = true) as -> by (unfold MIN in Hx; destruct (signed t); [done | lia]). cbn [andb].
    rewrite Zmod_odd. destruct (Z.odd e) eqn:Hodd; cbn [Z.eqb Pos.eqb].
    + assert (0 ≤ x ^ (e - 1)).
      { apply Z.pow_even_nonneg, Z.even_spec. by rewrite Z.even_sub, <- Z.negb_odd, Hodd. }
      assert (x ^ e = x * x ^ (e - 1)) as Hp by (rewrite <- Z.pow_succ_r by (destruct e; done || lia); f_equal; lia).
      nia.
    + assert (0 ≤ x ^ e) by (apply Z.pow_even_nonneg, Z.even_spec; by rewrite <- Z.negb_odd, Hodd). lia.
Qed.

Lemma pow_correct_witness :
  pow (sint 8) (-2) 7 = Some (-128) ∧ checked_pow (sint 8) (-2) 8 = None ∧ overflowing_pow (uint 8) 3 6 = (217, true) ∧
  saturating_pow (sint 8) (-3) 5 = -128 ∧
  saturating_pow (sint 8) (-3) 5 = Z.max (MIN (sint 8)) (Z.min (MAX (sint 8)) ((-3) ^ 5)).
Proof. split_and!; [done..|]. apply (pow_correct (sint 8) (-3) 5); [by left | done | done]. Defined.
