(* ===== verification/IntLog.v ===== *)
(** Integer logarithms: [core/src/num/int_log10.rs] and the methods [ilog],
    [ilog2], [ilog10] of [uint_macros.rs], [int_macros.rs] and [nonzero.rs]. *)

From S2P Require Import Prelude Words IntArith IntPow.

#[local] Open Scope Z_scope.

(** ** Logarithms to base 10 *)
Definition int_log10_u8 (val : Z) : option Z :=
  let C1 := 0x300 - 10 in
  let C2 := 0x200 - 100 in
  a ← fit (uint 32) (val + C1); b ← fit (uint 32) (val + C2);
  Some (Z.shiftr (Z.land a b) 8).

Definition less_than_5 (val : Z) : option Z :=
  let C1 := 0x60000 - 10 in
  let C2 := 0x80000 - 100 in
  let C3 := 0xe0000 - 1000 in
  let C4 := 0x80000 - 10000 in
  a ← fit (uint 32) (val + C1); b ← fit (uint 32) (val + C2);
  c ← fit (uint 32) (val + C3); d ← fit (uint 32) (val + C4);
  Some (Z.shiftr (Z.lxor (Z.land a b) (Z.land c d)) 17).

Definition int_log10_u16 (val : Z) : option Z := less_than_5 val.

Definition int_log10_u32 (val : Z) : option Z :=
  let '(val, log) := if 100000 <=? val then (val / 100000, 5) else (val, 0) in
  l ← less_than_5 val; fit (uint 32) (log + l).

Definition int_log10_u64 (val : Z) : option Z :=
  let '(val, log) := if 10000000000 <=? val then (val / 10000000000, 10) else (val, 0) in
  let '(val, log) := if 100000 <=? val then (val / 100000, log + 5) else (val, log) in
  l ← less_than_5 (wrap (uint 32) val); fit (uint 32) (log + l).

Definition int_log10_u128 (val : Z) : option Z :=
  if 100000000000000000000000000000000 <=? val then
    let val := val / 100000000000000000000000000000000 in
    l ← int_log10_u32 (wrap (uint 32) val); fit (uint 32) (32 + l)
  else
    let '(val, log) := if 10000000000000000 <=? val then (val / 10000000000000000, 16) else (val, 0) in
    l ← int_log10_u64 (wrap (uint 64) val); fit (uint 32) (log + l).

(** The function of the width of the type *)
Definition int_log10_of_width (w : Z) : Z → option Z :=
  if w =? 8 then int_log10_u8 else if w =? 16 then int_log10_u16 else if w =? 32 then int_log10_u32 else if w =? 64 then int_log10_u64 else int_log10_u128.

(** ** Logarithms of unsigned integers *)
Definition checked_ilog2 (w self : Z) : option (option Z) :=
  if self =? 0 then Some None else r ← fit (uint 32) (w - 1 - leading_zeros w self); Some (Some r).
Definition ilog2 (w self : Z) : option Z := r ← checked_ilog2 w self; r.

Definition checked_ilog10 (w self : Z) : option (option Z) :=
  if self =? 0 then Some None else r ← int_log10_of_width w self; Some (Some r).
Definition ilog10 (w self : Z) : option Z := r ← checked_ilog10 w self; r.

Fixpoint ilog_loop (fuel : nat) (w self base n r : Z) : option Z :=
  match fuel with
  | O => None
  | S fuel =>
      d ← div (uint w) self base;
      if r <=? d then n ← fit (uint 32) (n + 1); r ← fit (uint w) (r * base); ilog_loop fuel w self base n r
      else Some n
  end.

(** [known] says whether the compiler knows the base. *)
Definition checked_ilog (known : bool) (w self base : Z) : option (option Z) :=
  if known && (base =? 2) then checked_ilog2 w self
  else if known && (base =? 10) then checked_ilog10 w self
  else if (self <=? 0) || (base <=? 1) then Some None
  else if self <? base then Some (Some 0)
  else
    '(n, r) ← (if w =? 128 then
                 a ← ilog2 w self; b ← ilog2 w base; b ← fit (uint 32) (b + 1);
                 r ← pow (uint w) base (a / b); Some (a / b, r)
               else Some (1, base));
    n ← ilog_loop (Z.to_nat w) w self base n r; Some (Some n).
Definition ilog (known : bool) (w self base : Z) : option Z :=
  _ ← assert (2 <=? base); r ← checked_ilog known w self base; r.

(** ** Logarithms of signed integers *)
Definition i_checked_ilog (known : bool) (w self base : Z) : option (option Z) :=
  if (self <=? 0) || (base <=? 1) then Some None
  else checked_ilog known w (wrap (uint w) self) (wrap (uint w) base).
Definition i_checked_ilog2 (w self : Z) : option (option Z) :=
  if self <=? 0 then Some None else r ← fit (uint 32) (w - 1 - leading_zeros w self); Some (Some r).
Definition i_checked_ilog10 (w self : Z) : option (option Z) :=
  if 0 <? self then r ← int_log10_of_width w (wrap (uint w) self); Some (Some r) else Some None.

Example ilog_u128 : ilog false 128 (5 ^ 30 + 7) 5 = Some 30.
Proof. vm_compute. reflexivity. Qed.

(** ** What a logarithm is *)
Definition is_log (base n k : Z) : Prop := 0 ≤ k ∧ base ^ k ≤ n < base ^ (k + 1).

Lemma is_log_unique base n k k' : 1 < base → is_log base n k → is_log base n k' → k = k'.
Proof.
  assert (Hle : ∀ k k', 1 < base → is_log base n k → is_log base n k' → k ≤ k').
  { intros j j' Hb (? & ? & ?) (? & ? & ?). apply Z.lt_succ_r, (Z.pow_lt_mono_r_iff base); lia. }
  intros. apply Z.le_antisymm; by apply Hle.
Qed.

Lemma is_log_div n c j k : 0 ≤ j → c = 10 ^ j → is_log 10 (n / c) k → is_log 10 n (j + k).
Proof.
  intros Hj -> (? & H1 & H2). pose proof (Z.pow_pos_nonneg 10 j). pose proof (Z.mul_div_le n (10 ^ j)).
  pose proof (Z.mul_succ_div_gt n (10 ^ j)). split; [lia|].
  rewrite <- Z.add_assoc, (Z.pow_add_r 10 j k), (Z.pow_add_r 10 j (k + 1)) by lia.
  set (c := 10 ^ j) in *. set (q := n / c) in *. set (a := 10 ^ k) in *. set (b := 10 ^ (k + 1)) in *. clearbody c q a b. nia.
Qed.

Lemma fit32 x : 0 ≤ x < 4294967296 → fit (uint 32) x = Some x.
Proof. intros. by apply fit_in, uint_range. Qed.

(** A sum of which the high bits depend on one threshold *)
Lemma threshold k v c lim b : 0 ≤ k → lim = b * 2 ^ k - c → (b - 1) * 2 ^ k ≤ v + c < (b + 1) * 2 ^ k →
  Z.shiftr (v + c) k = if v <? lim then b - 1 else b.
Proof.
  intros Hk -> Hv. rewrite Z.shiftr_div_pow2 by done. symmetry.
  destruct (Z.ltb_spec v (b * 2 ^ k - c)).
  - apply Z.div_unique with (v + c - (b - 1) * 2 ^ k); lia.
  - apply Z.div_unique with (v + c - b * 2 ^ k); lia.
Qed.

Ltac give_value :=
  match goal with |- context [Some ?e] => let k := eval vm_compute in e in exists k end.

Lemma log10_less_than_5_spec v : 0 < v < 100000 → ∃ k, less_than_5 v = Some k ∧ k ≤ 4 ∧ is_log 10 v k.
Proof.
  intros Hv. unfold less_than_5. rewrite !fit32 by lia. cbn [mbind option_bind].
  rewrite Z.shiftr_lxor, !Z.shiftr_land.
  rewrite (threshold 17 v _ 10 3), (threshold 17 v _ 100 4), (threshold 17 v _ 1000 7), (threshold 17 v _ 10000 4)
    by first [done | change (2 ^ 17) with 131072; lia].
  destruct (Z.ltb_spec v 10), (Z.ltb_spec v 100), (Z.ltb_spec v 1000), (Z.ltb_spec v 10000); try lia;
    (give_value; unfold is_log; split; [reflexivity|]; split; [done|]; split; [done|]; cbn; lia).
Qed.

Lemma log10_u8_spec v : 0 < v < 256 → ∃ k, int_log10_u8 v = Some k ∧ is_log 10 v k.
Proof.
  intros Hv. unfold int_log10_u8. rewrite !fit32 by lia. cbn [mbind option_bind].
  rewrite Z.shiftr_land. rewrite (threshold 8 v _ 10 3), (threshold 8 v _ 100 2)
    by first [done | change (2 ^ 8) with 256; lia].
  destruct (Z.ltb_spec v 10), (Z.ltb_spec v 100); try lia;
    (give_value; unfold is_log; split; [reflexivity|]; split; [done|]; cbn; lia).
Qed.

Lemma log10_u32_spec v : 0 < v < 2 ^ 32 → ∃ k, int_log10_u32 v = Some k ∧ k ≤ 9 ∧ is_log 10 v k.
Proof.
  change (2 ^ 32) with 4294967296. intros Hv. unfold int_log10_u32. destruct (Z.leb_spec 100000 v).
  - destruct (log10_less_than_5_spec (v / 100000)) as (k & -> & Hk & Hl).
    { split; [apply Z.div_str_pos; lia | apply Z.div_lt_upper_bound; lia]. }
    cbn [mbind option_bind]. pose proof Hl as [? _]. rewrite fit32 by lia.
    eexists. split; [done|]. split; [lia|]. by eapply is_log_div with (c := 100000).
  - destruct (log10_less_than_5_spec v) as (k & -> & Hk & Hl); [lia|].
    cbn [mbind option_bind]. pose proof Hl as [? _]. rewrite fit32 by lia. eexists. split; [done|]. split; [lia|done].
Qed.

(** Dividing out [10 ^ j] reduces the argument below its bound. *)
Lemma log10_u64_spec v : 0 < v < 2 ^ 64 → ∃ k, int_log10_u64 v = Some k ∧ k ≤ 19 ∧ is_log 10 v k.
Proof.
  change (2 ^ 64) with 18446744073709551616. intros Hv. unfold int_log10_u64.
  assert (Hin : ∀ v log, 0 ≤ log ≤ 10 → 0 < v < 10000000000 → ∃ k,
    (let '(v, log) := if 100000 <=? v then (v / 100000, log + 5) else (v, log) in
     l ← less_than_5 (wrap (uint 32) v); fit (uint 32) (log + l)) = Some k ∧ k ≤ log + 9 ∧ is_log 10 v (k - log)).
  { clear v Hv. intros v log Hlog Hv. destruct (Z.leb_spec 100000 v).
    - assert (0 < v / 100000 < 100000) by (split; [apply Z.div_str_pos; lia | apply Z.div_lt_upper_bound; lia]).
      rewrite wrap_id by (unfold int_ok, width_ok; cbn; auto || apply uint_range; cbn in *; lia).
      destruct (log10_less_than_5_spec (v / 100000)) as (k & -> & Hk & Hl); [done|].
      cbn [mbind option_bind]. pose proof Hl as [? _]. rewrite fit32 by lia.
      eexists. split; [done|]. split; [lia|]. replace (log + 5 + k - log) with (5 + k) by lia. by eapply is_log_div with (c := 100000).
    - rewrite wrap_id by (unfold int_ok, width_ok; cbn; auto || apply uint_range; cbn in *; lia).
      destruct (log10_less_than_5_spec v) as (k & -> & Hk & Hl); [lia|].
      cbn [mbind option_bind]. pose proof Hl as [? _]. rewrite fit32 by lia. eexists. split; [done|]. split; [lia|].
      by replace (log + k - log) with k by lia. }
  destruct (Z.leb_spec 10000000000 v).
  - destruct (Hin (v / 10000000000) 10) as (k & Heq & Hk & Hl).
    { done. } { split; [apply Z.div_str_pos; lia | apply Z.div_lt_upper_bound; lia]. }
    exists k. split; [done|]. split; [lia|]. replace k with (10 + (k - 10)) by lia. by eapply is_log_div with (c := 10000000000).
  - destruct (Hin v 0) as (k & Heq & Hk & Hl); [done|lia|].
    exists k. split; [done|]. split; [lia|]. by rewrite Z.sub_0_r in Hl.
Qed.

Lemma log10_u128_spec v : 0 < v < 2 ^ 128 → ∃ k, int_log10_u128 v = Some k ∧ is_log 10 v k.
Proof.
  intros Hv. unfold int_log10_u128.
  assert (H128 : 2 ^ 128 < 100000000000000000000000000000000 * 2 ^ 32) by done.
  destruct (Z.leb_spec 100000000000000000000000000000000 v).
  - assert (0 < v / 100000000000000000000000000000000 < 2 ^ 32) by (split; [apply Z.div_str_pos; lia | apply Z.div_lt_upper_bound; lia]).
    rewrite wrap_id by (first [right; right; left; done | apply uint_range; lia]).
    destruct (log10_u32_spec (v / 100000000000000000000000000000000)) as (k & -> & Hk & Hl); [done|].
    cbn [mbind option_bind]. pose proof Hl as [? _]. rewrite fit32 by lia.
    eexists. split; [done|]. by eapply is_log_div with (c := 100000000000000000000000000000000).
  - assert (H64 : 100000000000000000000000000000000 ≤ 10000000000000000 * 2 ^ 64) by done.
    assert (H64' : 10000000000000000 ≤ 2 ^ 64) by done.
    destruct (Z.leb_spec 10000000000000000 v).
    + assert (0 < v / 10000000000000000 < 2 ^ 64) by (split; [apply Z.div_str_pos; lia | apply Z.div_lt_upper_bound; lia]).
      rewrite wrap_id by (first [right; right; right; left; done | apply uint_range; lia]).
      destruct (log10_u64_spec (v / 10000000000000000)) as (k & -> & Hk & Hl); [done|].
      cbn [mbind option_bind]. pose proof Hl as [? _]. rewrite fit32 by lia.
      eexists. split; [done|]. by eapply is_log_div with (c := 10000000000000000).
    + rewrite wrap_id by (first [right; right; right; left; done | apply uint_range; lia]).
      destruct (log10_u64_spec v) as (k & -> & Hk & Hl); [lia|].
      cbn [mbind option_bind]. pose proof Hl as [? _]. rewrite fit32 by lia. by eexists.
Qed.

Lemma log10_of_width_spec w v : width_ok w → 0 < v < 2 ^ w → ∃ k, int_log10_of_width w v = Some k ∧ is_log 10 v k.
Proof.
  unfold int_log10_of_width. intros [-> | [-> | [-> | [-> | ->]]]] Hv; cbn [Z.eqb Pos.eqb].
  - by apply log10_u8_spec.
  - destruct (log10_less_than_5_spec v) as (k & ? & ? & ?); [cbn in Hv; lia|]. by exists k.
  - destruct (log10_u32_spec v Hv) as (k & ? & ? & ?). by exists k.
  - destruct (log10_u64_spec v Hv) as (k & ? & ? & ?). by exists k.
  - by apply log10_u128_spec.
Qed.

(** ** Logarithms to other bases *)
Lemma log2_spec w n : width_ok w → 0 < n < 2 ^ w →
  fit (uint 32) (w - 1 - leading_zeros w n) = Some (Z.log2 n) ∧ is_log 2 n (Z.log2 n) ∧ Z.log2 n < w.
Proof.
  intros Hw Hn. pose proof (width_pos w Hw). unfold leading_zeros. rewrite (proj2 (Z.eqb_neq n 0)) by lia.
  replace (w - 1 - (w - 1 - Z.log2 n)) with (Z.log2 n) by lia.
  assert (0 ≤ Z.log2 n < w) by (split; [apply Z.log2_nonneg | apply Z.log2_lt_pow2; lia]).
  rewrite fit32 by lia. split; [done|]. split; [|lia]. split; [lia|]. apply Z.log2_spec. lia.
Qed.

Lemma ilog2_spec w n : width_ok w → 0 < n < 2 ^ w → ilog2 w n = Some (Z.log2 n).
Proof.
  intros Hw Hn. destruct (log2_spec w n) as [Hf _]; [done..|].
  unfold ilog2, checked_ilog2. rewrite (proj2 (Z.eqb_neq n 0)), Hf by lia. done.
Qed.

Section ilog.
Context (w self base : Z) (Hw : width_ok w) (Hs : 0 < self < 2 ^ w) (Hb : 1 < base < 2 ^ w).

Lemma power_small n : 0 ≤ n → base ^ n ≤ self → n < w.
Proof using All.
  intros Hn Hp. destruct (Z.lt_ge_cases n w); [done|]. pose proof (width_pos w Hw).
  assert (2 ^ w ≤ 2 ^ n) by (apply Z.pow_le_mono_r; lia).
  assert (2 ^ n ≤ base ^ n) by (apply Z.pow_le_mono_l; lia). lia.
Qed.

(** The loop keeps [r = base ^ n <= self]; the exponent stays below [w], so the fuel
    is enough. *)
Lemma ilog_loop_spec fuel n : 0 ≤ n → base ^ n ≤ self → w ≤ Z.of_nat fuel + n →
  ∃ k, ilog_loop fuel w self base n (base ^ n) = Some k ∧ is_log base self k.
Proof using All.
  revert n. induction fuel as [|fuel IH]; intros n Hn Hp Hf; pose proof (power_small n Hn Hp); [lia|].
  cbn [ilog_loop]. pose proof (width_pos w Hw).
  destruct (u_trunc w self base) as [-> _]; [done|apply uint_range; lia..|lia|]. cbn [mbind option_bind].
  pose proof (Z.mul_div_le self base). pose proof (Z.mul_succ_div_gt self base).
  destruct (Z.leb_spec (base ^ n) (self / base)).
  - rewrite fit32 by lia. cbn [mbind option_bind].
    assert (base ^ (n + 1) = base ^ n * base) as Hpow by (rewrite Z.pow_add_r, Z.pow_1_r by lia; done).
    assert (base ^ n * base ≤ self) by nia. pose proof (Z.pow_pos_nonneg base n).
    rewrite fit_in by (apply uint_range; nia). cbn [mbind option_bind]. rewrite <- Hpow. apply IH; lia.
  - exists n. split; [done|]. split; [done|]. split; [done|]. rewrite Z.pow_add_r, Z.pow_1_r by lia. nia.
Qed.

Lemma log_lower_bound : base ^ (Z.log2 self / (Z.log2 base + 1)) ≤ self.
Proof using Hs Hb.
  pose proof (Z.log2_nonneg self). pose proof (Z.log2_nonneg base).
  assert (0 ≤ Z.log2 self / (Z.log2 base + 1)) by (apply Z.div_pos; lia).
  transitivity (2 ^ Z.log2 self); [|apply Z.log2_spec; lia].
  transitivity ((2 ^ (Z.log2 base + 1)) ^ (Z.log2 self / (Z.log2 base + 1))).
  - apply Z.pow_le_mono_l. pose proof (Z.log2_spec base). lia.
  - rewrite <- Z.pow_mul_r by lia. apply Z.pow_le_mono_r; [lia|]. apply Z.mul_div_le. lia.
Qed.

Lemma generic_ilog_spec : ∃ k, checked_ilog false w self base = Some (Some k) ∧ is_log base self k.
Proof using All.
  unfold checked_ilog. cbn [andb]. pose proof (width_pos w Hw).
  destruct (Z.leb_spec self 0); [lia|]. destruct (Z.leb_spec base 1); [lia|]. cbn [orb].
  destruct (Z.ltb_spec self base).
  { exists 0. split; [done|]. split; [done|]. rewrite Z.pow_0_r, Z.add_0_l, Z.pow_1_r. lia. }
  destruct (Z.eqb_spec w 128).
  - rewrite !ilog2_spec by (done || lia). cbn [mbind option_bind].
    destruct (log2_spec w base) as (_ & [Hl0 _] & Hl); [done|lia|]. rewrite fit32 by lia. cbn [mbind option_bind].
    assert (0 ≤ Z.log2 self / (Z.log2 base + 1)) by (apply Z.div_pos; [apply Z.log2_nonneg | lia]).
    pose proof log_lower_bound. destruct (pow_correct (uint w) base (Z.log2 self / (Z.log2 base + 1))) as [-> _];
      [done | apply uint_range; lia | done |].
    assert (0 ≤ base ^ (Z.log2 self / (Z.log2 base + 1))) by (apply Z.pow_nonneg; lia).
    rewrite fit_in by (apply uint_range; lia). cbn [mbind option_bind].
    destruct (ilog_loop_spec (Z.to_nat w) (Z.log2 self / (Z.log2 base + 1))) as (k & -> & Hk); [done|done|lia|]. by exists k.
  - cbn [mbind option_bind]. destruct (ilog_loop_spec (Z.to_nat w) 1) as (k & Hk & Hl); [done|rewrite Z.pow_1_r; lia|lia|].
    rewrite Z.pow_1_r in Hk. rewrite Hk. by exists k.
Qed.

Lemma checked_ilog10_spec : ∃ k, checked_ilog10 w self = Some (Some k) ∧ is_log 10 self k.
Proof using Hw Hs.
  unfold checked_ilog10. rewrite (proj2 (Z.eqb_neq self 0)) by lia.
  destruct (log10_of_width_spec w self) as (k & -> & Hk); [done..|]. by exists k.
Qed.

Lemma checked_ilog_spec known : ∃ k, checked_ilog known w self base = Some (Some k) ∧ is_log base self k.
Proof using All.
  destruct known; [|apply generic_ilog_spec]. pose proof generic_ilog_spec as Hg.
  unfold checked_ilog in *. cbn [andb] in *.
  destruct (Z.eqb_spec base 2) as [Hb2|]; [|destruct (Z.eqb_spec base 10) as [Hb10|]; [|done]].
  - exists (Z.log2 self). rewrite Hb2. destruct (log2_spec w self) as (Hf & Hl & _); [done..|]. split; [|done].
    unfold checked_ilog2. rewrite (proj2 (Z.eqb_neq self 0)), Hf by lia. done.
  - rewrite Hb10. apply checked_ilog10_spec.
Qed.
End ilog.

(** ** Properties *)

(** C32: Logarithms: for every width, every base of at least 2 and every positive integer
    [n], whatever the compiler knows, [checked_ilog] returns without an overflow the
    [k] with [base ^ k <= n < base ^ (k + 1)], [checked_ilog2] and [checked_ilog10]
    (which has no loop) that of their base; they return [None], and [ilog] panics,
    for an integer or a base that is too small. *)
Theorem ilog_correct (known : bool) (t : int_ty) (n base : Z)
    (Ht : int_ok t) (Hn : in_range t n) (Hb : in_range t base) :
  let w := bits t in
  let checked base := if signed t then i_checked_ilog known w n base else checked_ilog known w n base in
  let checked2 := if signed t then i_checked_ilog2 w n else checked_ilog2 w n in
  let checked10 := if signed t then i_checked_ilog10 w n else checked_ilog10 w n in
  if decide (0 < n) then
    (∃ k, checked2 = Some (Some k) ∧ is_log 2 n k) ∧ (∃ k, checked10 = Some (Some k) ∧ is_log 10 n k) ∧
    if decide (1 < base) then ∃ k, checked base = Some (Some k) ∧ is_log base n k else checked base = Some None
  else checked2 = Some None ∧ checked10 = Some None ∧ checked base = Some None.
Proof.
  destruct t as [sg w]. cbn [bits signed]. cbn zeta. assert (Hw : width_ok w) by done. pose proof (width_pow w Hw).
  assert (Hr : ∀ x, 0 < x → in_range (IntTy sg w) x → 0 < x < 2 ^ w ∧ wrap (uint w) x = x).
  { intros x Hx Hin. assert (0 < x < 2 ^ w) by (unfold in_range, MAX in Hin; cbn [signed bits] in Hin; destruct sg; lia).
    split; [done|]. apply wrap_id; [done|]. apply uint_range. lia. }
  unfold i_checked_ilog, i_checked_ilog2, i_checked_ilog10.
  destruct (decide (0 < n)) as [Hp|Hp].
  - destruct (Hr n Hp Hn) as [Hn' ->]. rewrite (proj2 (Z.leb_gt n 0)), (proj2 (Z.ltb_lt 0 n)) by lia. cbn [orb].
    destruct (checked_ilog10_spec w n Hw Hn') as (k10 & Hk10 & Hl10).
    destruct (log2_spec w n Hw Hn') as (Hf2 & Hl2 & _).
    destruct (log10_of_width_spec w n Hw Hn') as (k & Hk & Hl). unfold checked_ilog2, checked_ilog10.
    rewrite (proj2 (Z.eqb_neq n 0)), Hf2, Hk by lia. cbn [mbind option_bind].
    split; [exists (Z.log2 n); by destruct sg|]. split; [exists k; by destruct sg|].
    case_decide as Hb1.
    + destruct (Hr base) as [Hb' ->]; [lia|done|]. rewrite (proj2 (Z.leb_gt base 1)) by lia.
      destruct (checked_ilog_spec w n base Hw Hn' ltac:(lia) known) as (j & Hj & Hlj). exists j. by destruct sg.
    + rewrite (proj2 (Z.leb_le base 1)) by lia. destruct sg; [done|]. unfold checked_ilog.
      rewrite (proj2 (Z.eqb_neq base 2)), (proj2 (Z.eqb_neq base 10)), (proj2 (Z.leb_le base 1)) by lia.
      by rewrite !andb_false_r, orb_true_r.
  - rewrite (proj2 (Z.leb_le n 0)), (proj2 (Z.ltb_ge 0 n)) by lia. cbn [orb].
    destruct sg; [done|]. assert (n = 0) as -> by (unfold in_range, MIN in Hn; cbn in Hn; lia).
    unfold checked_ilog, checked_ilog2, checked_ilog10. cbn. by destruct known, (base =? 2), (base =? 10).
Qed.

Lemma ilog_correct_witness :
  ilog false 128 (5 ^ 30 + 7) 5 = Some 30 ∧ checked_ilog10 64 (10 ^ 19) = Some (Some 19) ∧
  (∃ k, checked_ilog2 8 200 = Some (Some k) ∧ is_log 2 200 k) ∧
  (∃ k, checked_ilog10 8 200 = Some (Some k) ∧ is_log 10 200 k) ∧
  ∃ k, checked_ilog false 8 200 5 = Some (Some k) ∧ is_log 5 200 k.
Proof.
  split; [vm_compute; done|]. split; [vm_compute; done|].
  pose proof (ilog_correct false (uint 8) 200 5 ltac:(by left) ltac:(done) ltac:(done)) as H.
  cbn zeta in H. cbn [bits signed uint] in H. by rewrite !decide_True in H.
Defined.
