(* ===== verification/IntSqrt.v ===== *)
(** Integer square roots: [core/src/num/int_sqrt.rs] (Karatsuba's algorithm on a
    normalised argument) and the methods [isqrt] of [uint_macros.rs] and
    [int_macros.rs]. *)

From S2P Require Import Prelude Words.

#[local] Open Scope Z_scope.

(** [x << k] in [w] bits *)
Definition shl (w x k : Z) : Z := wrap (uint w) (Z.shiftl x k).

(** The loop that builds the table of the square roots and remainders of bytes *)
Fixpoint table_loop (len : nat) (n isqrt_n : Z) : list (Z * Z) :=
  match len with
  | O => []
  | S len =>
      (wrap (uint 8) isqrt_n, wrap (uint 8) (n - isqrt_n ^ 2)) ::
      table_loop len (n + 1) (if n + 1 =? (isqrt_n + 1) ^ 2 then isqrt_n + 1 else isqrt_n)
  end.
Definition U8_ISQRT_WITH_REMAINDER : list (Z * Z) := table_loop 256 0 0.

Definition u8 (n : Z) : option Z := fst <$> U8_ISQRT_WITH_REMAINDER !! Z.to_nat n.

Definition first_stage (original_bits n : Z) : option (Z * Z) :=
  _ ← assert (negb (n =? 0));
  let n := Z.shiftr n (original_bits - 8) in
  '(s, r) ← U8_ISQRT_WITH_REMAINDER !! Z.to_nat n;
  _ ← assert (negb (s =? 0)); Some (s, r).

(** [s] has the type of [ty / 2] bits. *)
Definition middle_stage (original_bits ty n s r : Z) : option (Z * Z) :=
  _ ← assert (negb (s =? 0));
  let n := wrap (uint ty) (Z.shiftr n (original_bits - ty)) in
  let HALF_BITS := Z.shiftr ty 1 in
  let QUARTER_BITS := Z.shiftr ty 2 in
  let LOWER_HALF_1_BITS := 2 ^ HALF_BITS - 1 in
  let LOWEST_QUARTER_1_BITS := 2 ^ QUARTER_BITS - 1 in
  let lo := Z.land n LOWER_HALF_1_BITS in
  let numerator := Z.lor (shl ty r QUARTER_BITS) (Z.shiftr lo QUARTER_BITS) in
  let denominator := shl ty s 1 in
  q ← div (uint ty) numerator denominator; u ← rem (uint ty) numerator denominator;
  s ← fit (uint ty) (shl HALF_BITS s QUARTER_BITS + q);
  q2 ← fit (uint ty) (q * q);
  let '(r, overflow) := overflowing (uint ty) (Z.lor (shl ty u QUARTER_BITS) (Z.land lo LOWEST_QUARTER_1_BITS) - q2) in
  '(s, r) ← (if overflow : bool then
               s2 ← fit (uint ty) (2 * s); s2 ← fit (uint ty) (s2 - 1);
               s ← fit (uint ty) (s - 1); Some (s, wrap (uint ty) (r + s2))
             else Some (s, r));
  _ ← assert (negb (s =? 0)); Some (s, r).

Definition last_stage (ty n s r : Z) : option Z :=
  _ ← assert (negb (s =? 0));
  let HALF_BITS := Z.shiftr ty 1 in
  let QUARTER_BITS := Z.shiftr ty 2 in
  let LOWER_HALF_1_BITS := 2 ^ HALF_BITS - 1 in
  let lo := Z.land n LOWER_HALF_1_BITS in
  let numerator := Z.lor (shl ty r QUARTER_BITS) (Z.shiftr lo QUARTER_BITS) in
  let denominator := shl ty s 1 in
  q ← div (uint ty) numerator denominator;
  s ← fit (uint ty) (shl HALF_BITS s QUARTER_BITS + q);
  let '(s_squared, overflow) := overflowing (uint ty) (s * s) in
  if overflow || (n <? s_squared) then fit (uint ty) (s - 1) else Some s.

Definition u16_stages (n : Z) : option Z :=
  '(s, r) ← first_stage 16 n; last_stage 16 n s r.
Definition u32_stages (n : Z) : option Z :=
  '(s, r) ← first_stage 32 n; '(s, r) ← middle_stage 32 16 n s r; last_stage 32 n s r.
Definition u64_stages (n : Z) : option Z :=
  '(s, r) ← first_stage 64 n; '(s, r) ← middle_stage 64 16 n s r;
  '(s, r) ← middle_stage 64 32 n s r; last_stage 64 n s r.
Definition u128_stages (n : Z) : option Z :=
  '(s, r) ← first_stage 128 n; '(s, r) ← middle_stage 128 16 n s r;
  '(s, r) ← middle_stage 128 32 n s r; '(s, r) ← middle_stage 128 64 n s r; last_stage 128 n s r.

(** The macro [unsigned_fn]: [half] is the function of the type of half the bits. *)
Definition unsigned_fn (w : Z) (half stages : Z → option Z) (n : Z) : option Z :=
  if n <=? MAX (uint (w / 2)) then half n
  else
    let EVEN_MAKING_BITMASK := 2 ^ 32 - 2 in
    let normalization_shift := Z.land (leading_zeros w n) EVEN_MAKING_BITMASK in
    s ← stages (shl w n normalization_shift);
    let denormalization_shift := Z.shiftr normalization_shift 1 in
    Some (Z.shiftr s denormalization_shift).

Definition u16 : Z → option Z := unsigned_fn 16 u8 u16_stages.
Definition u32 : Z → option Z := unsigned_fn 32 u16 u32_stages.
Definition u64 : Z → option Z := unsigned_fn 64 u32 u64_stages.
Definition u128 : Z → option Z := unsigned_fn 128 u64 u128_stages.

(** The function of the width of the type *)
Definition int_sqrt (w : Z) : Z → option Z :=
  if w =? 8 then u8 else if w =? 16 then u16 else if w =? 32 then u32 else if w =? 64 then u64 else u128.
Definition int_sqrt_signed (w n : Z) : option Z :=
  _ ← assert (0 <=? n); s ← int_sqrt w (wrap (uint w) n); Some (wrap (sint w) s).

(** The methods; a false [assert_unchecked] is undefined behaviour. *)
Definition isqrt (w self : Z) : option Z :=
  result ← int_sqrt w self; MAX_RESULT ← int_sqrt w (MAX (uint w));
  _ ← assert (result <=? MAX_RESULT); Some result.
Definition i_checked_isqrt (w self : Z) : option (option Z) :=
  if self <? 0 then Some None
  else
    result ← int_sqrt_signed w self; MAX_RESULT ← int_sqrt_signed w (MAX (sint w));
    _ ← assert (0 <=? result); _ ← assert (result <=? MAX_RESULT); Some (Some result).
Definition i_isqrt (w self : Z) : option Z := r ← i_checked_isqrt w self; r.

Example isqrt_u128 : isqrt 128 (123456789012345678 ^ 2 + 99) = Some 123456789012345678.
Proof. vm_compute. reflexivity. Qed.

(** ** One step of Karatsuba's algorithm *)
Definition sqrt_rem (n s r : Z) : Prop := s = Z.sqrt n ∧ n = s * s + r ∧ 0 ≤ r ≤ 2 * s ∧ 0 ≤ s.

Lemma sqrt_rem_intro n s r : 0 ≤ s → n = s * s + r → 0 ≤ r ≤ 2 * s → sqrt_rem n s r.
Proof. intros Hs Hn Hr. split_and!; [|lia..]. symmetry. apply Z.sqrt_unique. nia. Qed.

Lemma sqrt_rem_of n : 0 ≤ n → sqrt_rem n (Z.sqrt n) (n - Z.sqrt n * Z.sqrt n).
Proof.
  intros Hn. pose proof (Z.sqrt_spec n Hn) as H. cbn zeta in H. pose proof (Z.sqrt_nonneg n).
  apply sqrt_rem_intro; [done | lia | nia].
Qed.

(** The root [s] of the high half [h] and its remainder give, with one division, the
    root of [n] or one more; [Q] is the base of the quarters. *)
Section karatsuba.
Context (Q h lo s r : Z) (HQ : 2 ≤ Q) (Hs : sqrt_rem h s r) (Hlow : Q ≤ 2 * s) (Hhigh : s < Q) (Hlo : 0 ≤ lo < Q * Q).
Let N := r * Q + lo / Q.
Let q := N / (2 * s).
Let u := N mod (2 * s).
Let s1 := s * Q + q.
Let r1 := u * Q + lo mod Q - q * q.
Let n := h * (Q * Q) + lo.

Lemma karatsuba_step : 0 ≤ N < 2 * Q * Q ∧ 0 ≤ q ≤ Q ∧ 0 ≤ u < 2 * s ∧ n = s1 * s1 + r1 ∧ 0 < s1 ≤ Q * Q ∧
  (0 ≤ r1 → sqrt_rem n s1 r1) ∧ (r1 < 0 → sqrt_rem n (s1 - 1) (r1 + (2 * s1 - 1))).
Proof using All.
  destruct Hs as (_ & Hh & Hr & _).
  assert (Hl : lo = Q * (lo / Q) + lo mod Q) by (apply Z.div_mod; lia).
  pose proof (Z.mod_pos_bound lo Q ltac:(lia)) as Hm.
  assert (Hd : 0 ≤ lo / Q < Q) by (split; [apply Z.div_pos; lia | apply Z.div_lt_upper_bound; lia]).
  assert (HN : N = 2 * s * q + u) by (apply Z.div_mod; lia).
  pose proof (Z.mod_pos_bound N (2 * s) ltac:(lia)) as Hu. fold u in Hu.
  assert (HN0 : 0 ≤ N ≤ 2 * s * Q + Q - 1) by (unfold N; nia).
  assert (Hq : 0 ≤ q ≤ Q).
  { unfold q. split; [apply Z.div_pos; lia|]. apply Z.lt_succ_r, Z.div_lt_upper_bound; lia. }
  assert (Hn : n = s1 * s1 + r1).
  { transitivity (s * s * Q * Q + Q * N + lo mod Q); [|rewrite HN; unfold s1, r1; ring].
    unfold n, N. rewrite Hh. transitivity ((s * s + r) * (Q * Q) + (Q * (lo / Q) + lo mod Q)); [by rewrite <- Hl | ring]. }
  assert (u * Q ≤ (2 * s - 1) * Q) by (apply Z.mul_le_mono_nonneg_r; lia).
  assert (0 ≤ u * Q) by (apply Z.mul_nonneg_nonneg; lia).
  assert (q * q ≤ Q * Q) by (apply Z.mul_le_mono_nonneg; lia).
  assert (Q * Q ≤ 2 * s * Q) by (apply Z.mul_le_mono_nonneg_r; lia).
  assert (1 * Q ≤ s * Q ≤ (Q - 1) * Q) by (split; apply Z.mul_le_mono_nonneg_r; lia).
  pose proof (Z.square_nonneg q).
  assert (Hb1 : r1 ≤ 2 * s1) by (unfold r1, s1; lia).
  assert (Hb2 : 0 ≤ r1 + (2 * s1 - 1)).
  { unfold r1, s1. destruct (decide (q = 0)) as [->|]; lia. }
  assert (Hs1 : 0 < s1 ≤ Q * Q) by (unfold s1; lia).
  clearbody s1 r1 n q u. clear - HN0 HQ Hq Hu Hn Hb1 Hb2 Hs1 Hhigh Hs.
  assert (N < 2 * Q * Q) by (clear - HN0 Hhigh HQ; nia).
  repeat (split; [lia|]); split; intros; apply sqrt_rem_intro; lia.
Qed.
End karatsuba.

(** ** The stages *)
Lemma fit_u w x : 0 ≤ x < 2 ^ w → fit (uint w) x = Some x.
Proof. intros. by apply fit_in, uint_range. Qed.

Lemma div_u w a b : 0 ≤ a < 2 ^ w → 0 < b → div (uint w) a b = Some (a / b) ∧ rem (uint w) a b = Some (a mod b).
Proof.
  intros Ha Hb. unfold rem, div. rewrite (proj2 (Z.eqb_neq b 0)), Z.quot_div_nonneg, Z.rem_mod_nonneg by lia.
  assert (a / b ≤ a / 1) as Hle by (apply Z.div_le_compat_l; lia). rewrite Z.div_1_r in Hle.
  rewrite fit_u; [done|]. split; [apply Z.div_pos; lia | lia].
Qed.

Lemma shl_u w x k : 0 ≤ k → 0 ≤ x * 2 ^ k < 2 ^ w → shl w x k = x * 2 ^ k.
Proof. intros Hk Hx. unfold shl, wrap. rewrite Z.shiftl_mul_pow2 by done. by apply Z.mod_small. Qed.

Lemma overflowing_u w x : 0 ≤ x < 2 ^ w → overflowing (uint w) x = (x, false).
Proof.
  intros Hx. unfold overflowing, wrap. cbn [uint signed bits]. rewrite Z.mod_small by done.
  by rewrite bool_decide_true by (by apply uint_range).
Qed.

Lemma overflowing_out w x : ¬ 0 ≤ x < 2 ^ w → overflowing (uint w) x = (x mod 2 ^ w, true).
Proof. intros Hx. unfold overflowing. by rewrite bool_decide_false by (by rewrite uint_range). Qed.

Lemma table_spec n : 0 ≤ n < 256 → U8_ISQRT_WITH_REMAINDER !! Z.to_nat n = Some (Z.sqrt n, n - Z.sqrt n * Z.sqrt n).
Proof.
  intros Hn. assert (U8_ISQRT_WITH_REMAINDER = (λ n, (Z.sqrt n, n - Z.sqrt n * Z.sqrt n)) <$> seqZ 0 256) as ->.
  { vm_compute. reflexivity. }
  rewrite list_lookup_fmap, lookup_seqZ_lt by lia. cbn [fmap option_fmap option_map].
  by replace (0 + Z.of_nat (Z.to_nat n)) with n by lia.
Qed.

#[local] Opaque U8_ISQRT_WITH_REMAINDER.

(** The types of [4 * k] bits *)
Section stage.
Context (k m s r : Z) (Hk : 4 ≤ k ≤ 32) (Hm : 2 ^ (4 * k - 2) ≤ m < 2 ^ (4 * k)) (Hs : sqrt_rem (m / 2 ^ (2 * k)) s r).
Context (Q lo N : Z) (HQ : Q = 2 ^ k) (Hlo : lo = m mod (Q * Q)) (HN : N = r * Q + lo / Q).

Lemma stage_pow : 2 ^ (2 * k) = Q * Q ∧ 2 ^ (4 * k) = Q * Q * (Q * Q) ∧ 16 ≤ Q.
Proof using Hk HQ.
  clear - Hk HQ. subst Q. rewrite <- !Z.pow_add_r by lia. split_and!; [f_equal; lia..|].
  apply (Z.pow_le_mono_r 2 4 k); lia.
Qed.

Lemma stage_root : Q ≤ 2 * s ∧ s < Q ∧ 0 ≤ r < 2 * Q ∧ s ≠ 0.
Proof using Hk Hm Hs HQ.
  destruct Hs as (_ & Hh & Hr & Hs0). destruct stage_pow as (H2 & H4 & HQ16).
  assert (HP : Q = 2 * 2 ^ (k - 1)).
  { rewrite HQ, <- Z.pow_succ_r by (clear - Hk; lia). f_equal. clear. lia. }
  set (P := 2 ^ (k - 1)) in *.
  assert (HPm : P * P * 2 ^ (2 * k) = 2 ^ (4 * k - 2)).
  { unfold P. clear - Hk. rewrite <- !Z.pow_add_r by lia. f_equal. lia. }
  assert (Hl : P * P ≤ m / 2 ^ (2 * k)).
  { apply Z.div_le_lower_bound; [apply Z.pow_pos_nonneg; clear - Hk; lia|]. rewrite Z.mul_comm, HPm. apply Hm. }
  assert (Hu : m / 2 ^ (2 * k) < Q * Q).
  { apply Z.div_lt_upper_bound; [apply Z.pow_pos_nonneg; clear - Hk; lia|]. rewrite H2, <- H4. apply Hm. }
  set (h := m / 2 ^ (2 * k)) in *. clearbody h P. clear - Hh Hr Hs0 HQ16 HP Hl Hu.
  assert (P ≤ s).
  { destruct (Z.le_gt_cases P s); [done|]. assert ((s + 1) * (s + 1) ≤ P * P) by (apply Z.mul_le_mono_nonneg; lia). lia. }
  assert (s < Q).
  { destruct (Z.lt_ge_cases s Q); [done|]. assert (Q * Q ≤ s * s) by (apply Z.mul_le_mono_nonneg; lia). lia. }
  lia.
Qed.

Lemma stage_facts : Z.shiftr (4 * k) 1 = 2 * k ∧ Z.shiftr (4 * k) 2 = k ∧
  Z.land m (2 ^ (2 * k) - 1) = lo ∧ 0 ≤ lo < Q * Q ∧ Z.shiftr lo k = lo / Q ∧
  Z.lor (shl (4 * k) r k) (lo / Q) = N ∧ shl (4 * k) s 1 = 2 * s ∧ shl (2 * k) s k = s * Q ∧
  m = m / 2 ^ (2 * k) * (Q * Q) + lo.
Proof using All.
  destruct stage_pow as (H2 & H4 & HQ16). destruct stage_root as (? & ? & ? & ?).
  assert (Hlo' : 0 ≤ lo < Q * Q) by (rewrite Hlo; apply Z.mod_pos_bound; clear - HQ16; nia).
  assert (Hd : 0 ≤ lo / Q < Q).
  { clear - HQ16 Hlo'. split; [apply Z.div_pos; lia | apply Z.div_lt_upper_bound; lia]. }
  assert (HQ4 : 2 * Q * Q ≤ Q * Q * (Q * Q)) by (clear - HQ16; nia).
  assert (H2s : 0 ≤ 2 * s < Q * Q) by (clear - H H0 HQ16; nia).
  assert (Hrq : 0 ≤ r * Q < 2 * Q * Q) by (clear - H1 HQ16; nia).
  assert (Hsq : 0 ≤ s * Q < Q * Q) by (clear - H H0 HQ16; nia).
  assert (0 ≤ k) by (clear - Hk; lia).
  split_and!; [| | |apply Hlo'..| | | | |].
  - rewrite Z.shiftr_div_pow2 by done. change (2 ^ 1) with 2. symmetry. apply Z.div_unique with 0; clear; lia.
  - rewrite Z.shiftr_div_pow2 by done. change (2 ^ 2) with 4. symmetry. apply Z.div_unique with 0; clear; lia.
  - rewrite land_low by (clear - Hk; lia). by rewrite H2, Hlo.
  - by rewrite Z.shiftr_div_pow2, <- HQ by done.
  - rewrite shl_u by first [done | rewrite <- HQ, H4; clear - Hrq HQ4; lia]. rewrite <- Z.shiftl_mul_pow2 by done. rewrite shiftl_lor by (rewrite <- ?HQ; done).
    by rewrite HN, <- HQ.
  - rewrite shl_u by first [done | change (2 ^ 1) with 2; rewrite H4; clear - H2s HQ4 HQ16; nia]. change (2 ^ 1) with 2. clear; lia.
  - rewrite shl_u by (rewrite <- ?HQ, ?H2; done). by rewrite <- HQ.
  - rewrite Hlo, H2, Z.mul_comm. apply Z.div_mod. clear - HQ16. nia.
Qed.

(** What both kinds of stage compute before the correction *)
Let q := N / (2 * s).
Let u := N mod (2 * s).

Lemma stage_division : assert (negb (s =? 0)) = Some () ∧
  div (uint (4 * k)) N (2 * s) = Some q ∧ rem (uint (4 * k)) N (2 * s) = Some u ∧
  fit (uint (4 * k)) (s * Q + q) = Some (s * Q + q).
Proof using All.
  destruct stage_pow as (H2 & H4 & HQ16). destruct stage_root as (? & ? & ? & ?).
  destruct stage_facts as (_ & _ & _ & Hlo' & _).
  destruct (karatsuba_step Q (m / 2 ^ (2 * k)) lo s r) as (HN1 & Hq & Hu & _ & Hs1 & _); [clear - HQ16; lia|done..|].
  rewrite <- HN in *. assert (2 * Q * Q ≤ Q * Q * (Q * Q)) by (clear - HQ16; nia).
  assert (Q * Q < Q * Q * (Q * Q)) by (clear - HQ16; nia).
  destruct (div_u (4 * k) N (2 * s)) as [-> ->]; [rewrite H4; clear - HN1 H5; lia|clear - H HQ16; lia|].
  rewrite fit_u by (rewrite H4; fold q in Hs1; clear - Hs1 H6; lia). by rewrite (proj2 (Z.eqb_neq s 0)).
Qed.
End stage.

Lemma middle_stage_spec ob k n s r : 4 ≤ k ≤ 32 → 4 * k ≤ ob → 
  let m := Z.shiftr n (ob - 4 * k) in
  2 ^ (4 * k - 2) ≤ m < 2 ^ (4 * k) → sqrt_rem (m / 2 ^ (2 * k)) s r →
  ∃ s1 r1, middle_stage ob (4 * k) n s r = Some (s1, r1) ∧ sqrt_rem m s1 r1.
Proof.
  intros Hk Hob m Hm Hs. assert (∃ Q, Q = 2 ^ k) as [Q HQ] by eauto.
  assert (∃ lo, lo = m mod (Q * Q)) as [lo Hlom] by eauto. assert (∃ N, N = r * Q + lo / Q) as [N HN] by eauto.
  destruct (stage_pow k Hk Q HQ) as (H2 & H4 & HQ16).
  destruct (stage_root k m s r Hk Hm Hs Q HQ) as (Hl & Hh & Hr & Hs0).
  destruct (stage_facts k m s r Hk Hm Hs Q lo N HQ Hlom HN) as (E1 & E2 & E3 & Hlo & E4 & E5 & E6 & E7 & Em).
  destruct (stage_division k m s r Hk Hm Hs Q lo N HQ Hlom HN) as (D1 & D2 & D3 & D4).
  destruct (karatsuba_step Q (m / 2 ^ (2 * k)) lo s r) as (_ & Hq & Hu & Hn & Hs1 & Hpos & Hneg); [clear - HQ16; lia|done..|].
  rewrite <- HN in *. rewrite <- Em in Hn, Hpos, Hneg.
  generalize dependent (N / (2 * s)). generalize dependent (N mod (2 * s)). intros u D3 Hu q D2 D4 Hq Hn Hs1 Hpos Hneg.
  unfold middle_stage. rewrite D1. cbn [mbind option_bind]. fold m.
  assert (wrap (uint (4 * k)) m = m) as ->.
  { apply Z.mod_small. split; [|apply Hm]. transitivity (2 ^ (4 * k - 2)); [by apply Z.pow_nonneg | apply Hm]. }
  rewrite E1, E2, E3, E4, E5, E6, E7, D2, D3. cbn [mbind option_bind]. rewrite D4. cbn [mbind option_bind].
  assert (Hqq : 0 ≤ q * q ≤ Q * Q) by (clear - Hq; nia).
  assert (HQ4 : 4 * Q * Q ≤ Q * Q * (Q * Q)) by (clear - HQ16; nia).
  assert (HQQ : 16 * 16 ≤ Q * Q) by (apply Z.mul_le_mono_nonneg; clear - HQ16; lia).
  rewrite (fit_u _ (q * q)) by (rewrite H4; clear - Hqq HQ4 HQQ; lia). cbn [mbind option_bind].
  assert (HuQ : 0 ≤ u * Q < 2 * Q * Q).
  { clear - Hu Hh HQ16. assert (0 * Q ≤ u * Q ≤ (2 * Q - 1) * Q) by (split; apply Z.mul_le_mono_nonneg_r; lia). lia. }
  assert (Z.lor (shl (4 * k) u k) (Z.land lo (2 ^ k - 1)) = u * Q + lo mod Q) as ->.
  { rewrite shl_u by first [clear - Hk; lia | rewrite <- HQ, H4; clear - HuQ HQ4; lia].
    rewrite <- Z.shiftl_mul_pow2 by (clear - Hk; lia). rewrite land_low by (clear - Hk; lia).
    rewrite HQ. apply shiftl_lor; [clear - Hk; lia|]. apply Z.mod_pos_bound. rewrite <- HQ. clear - HQ16; lia. }
  set (r1 := u * Q + lo mod Q - q * q) in *. set (s1 := s * Q + q) in *. clearbody r1 s1.
  destruct (decide (0 ≤ r1)) as [Hr1|Hr1].
  - specialize (Hpos Hr1). pose proof Hpos as (_ & _ & ? & _).
    rewrite overflowing_u by (rewrite H4; clear - H Hs1 HQ4 HQQ; lia). cbn [mbind option_bind].
    rewrite (proj2 (Z.eqb_neq s1 0)) by (clear - Hs1; lia). by exists s1, r1.
  - assert (r1 < 0) as Hr1' by (clear - Hr1; lia). specialize (Hneg Hr1'). pose proof Hneg as (_ & _ & ? & _).
    rewrite overflowing_out by (clear - Hr1; lia). cbn [mbind option_bind].
    rewrite !fit_u by (rewrite H4; clear - Hs1 H HQ4 HQQ; lia). cbn [mbind option_bind].
    rewrite fit_u by (rewrite H4; clear - Hs1 H HQ4 HQQ; lia). cbn [mbind option_bind].
    assert (s1 - 1 ≠ 0).
    { pose proof Hneg as (-> & _). apply Z.neq_sym, Z.lt_neq, Z.sqrt_pos.
      apply Z.lt_le_trans with (2 ^ (4 * k - 2)); [apply Z.pow_pos_nonneg; clear - Hk; lia | apply Hm]. }
    rewrite (proj2 (Z.eqb_neq (s1 - 1) 0)) by done. cbn [negb assert mbind option_bind].
    exists (s1 - 1), (r1 + (2 * s1 - 1)). split; [|done]. f_equal. f_equal.
    unfold wrap. cbn [uint signed bits]. rewrite Z.add_mod_idemp_l by (rewrite H4; clear - HQ4 HQQ; lia).
    apply Z.mod_small. rewrite H4. clear - H Hs1 HQ4 HQQ. lia.
Qed.

Lemma last_stage_spec k m s r : 4 ≤ k ≤ 32 →
  2 ^ (4 * k - 2) ≤ m < 2 ^ (4 * k) → sqrt_rem (m / 2 ^ (2 * k)) s r →
  last_stage (4 * k) m s r = Some (Z.sqrt m).
Proof.
  intros Hk Hm Hs. assert (∃ Q, Q = 2 ^ k) as [Q HQ] by eauto.
  assert (∃ lo, lo = m mod (Q * Q)) as [lo Hlom] by eauto. assert (∃ N, N = r * Q + lo / Q) as [N HN] by eauto.
  destruct (stage_pow k Hk Q HQ) as (H2 & H4 & HQ16).
  destruct (stage_root k m s r Hk Hm Hs Q HQ) as (Hl & Hh & Hr & Hs0).
  destruct (stage_facts k m s r Hk Hm Hs Q lo N HQ Hlom HN) as (E1 & E2 & E3 & Hlo & E4 & E5 & E6 & E7 & Em).
  destruct (stage_division k m s r Hk Hm Hs Q lo N HQ Hlom HN) as (D1 & D2 & D3 & D4).
  destruct (karatsuba_step Q (m / 2 ^ (2 * k)) lo s r) as (_ & Hq & _ & Hn & Hs1 & Hpos & Hneg); [clear - HQ16; lia|done..|].
  rewrite <- HN in *. rewrite <- Em in Hn, Hpos, Hneg.
  unfold last_stage. rewrite D1. cbn [mbind option_bind].
  rewrite E1, E2, E3, E4, E5, E6, E7, D2. cbn [mbind option_bind]. rewrite D4. cbn [mbind option_bind].
  set (s1 := s * Q + N / (2 * s)) in *. set (r1 := N mod (2 * s) * Q + lo mod Q - N / (2 * s) * (N / (2 * s))) in *. clearbody r1 s1.
  assert (HQQ : 16 * 16 ≤ Q * Q) by (apply Z.mul_le_mono_nonneg; clear - HQ16; lia).
  assert (H1 : s1 * s1 ≤ Q * Q * (Q * Q)) by (apply Z.mul_le_mono_nonneg; clear - Hs1; lia).
  assert (Hmlt : m < Q * Q * (Q * Q)) by (rewrite <- H4; apply Hm).
  assert (Hcmp : (let '(s_squared, overflow) := overflowing (uint (4 * k)) (s1 * s1) in overflow || (m <? s_squared)) = (r1 <? 0)).
  { destruct (decide (s1 * s1 < Q * Q * (Q * Q))) as [Hlt|Hge].
    - rewrite overflowing_u by (rewrite H4; clear - Hlt Hs1; nia). cbn [orb].
      destruct (Z.ltb_spec m (s1 * s1)), (Z.ltb_spec r1 0); (done || (clear - Hn H H0; lia)).
    - rewrite overflowing_out by (rewrite H4; clear - Hge; lia). cbn [orb].
      symmetry. apply Z.ltb_lt. clear - Hn Hge H1 Hmlt. lia. }
  destruct (overflowing _ _) as [s_squared overflow]. rewrite Hcmp. clear Hcmp.
  destruct (Z.ltb_spec r1 0) as [Hr1|Hr1].
  - rewrite fit_u by (rewrite H4; clear - Hs1 HQQ; nia). f_equal. by apply Hneg.
  - f_equal. by apply Hpos.
Qed.

(** ** Normalised arguments *)
Definition normalised (w n : Z) : Prop := 2 ^ (w - 2) ≤ n < 2 ^ w.

Lemma normalised_top w n j : 8 ≤ j ≤ w → normalised w n → normalised j (Z.shiftr n (w - j)).
Proof.
  intros Hj [Hl Hu]. unfold normalised. rewrite Z.shiftr_div_pow2 by lia. split.
  - apply Z.div_le_lower_bound; [apply Z.pow_pos_nonneg; lia|]. rewrite <- Z.pow_add_r by lia. by replace (w - j + (j - 2)) with (w - 2) by lia.
  - apply Z.div_lt_upper_bound; [apply Z.pow_pos_nonneg; lia|]. rewrite <- Z.pow_add_r by lia. by replace (w - j + j) with w by lia.
Qed.

Lemma top_half w n k : 0 ≤ k → 4 * k ≤ w → Z.shiftr n (w - 4 * k) / 2 ^ (2 * k) = Z.shiftr n (w - 2 * k).
Proof. intros. rewrite <- Z.shiftr_div_pow2, Z.shiftr_shiftr by lia. f_equal. lia. Qed.

Lemma first_stage_spec w n : 8 ≤ w → normalised w n → ∃ s r, first_stage w n = Some (s, r) ∧ sqrt_rem (Z.shiftr n (w - 8)) s r.
Proof.
  intros Hw Hn. destruct (normalised_top w n 8 ltac:(lia) Hn) as [Hm1 Hm2].
  assert (0 < n) by (destruct Hn; pose proof (Z.pow_pos_nonneg 2 (w - 2)); lia).
  unfold first_stage. rewrite (proj2 (Z.eqb_neq n 0)) by lia. generalize dependent (Z.shiftr n (w - 8)). intros m Hm1 Hm2.
  rewrite table_spec by (split; [by transitivity (2 ^ (8 - 2)) | done]).
  assert (0 < Z.sqrt m) by (by apply Z.sqrt_pos, Z.lt_le_trans with (2 ^ (8 - 2))).
  exists (Z.sqrt m), (m - Z.sqrt m * Z.sqrt m). cbn [negb assert mbind option_bind].
  rewrite (proj2 (Z.eqb_neq (Z.sqrt m) 0)) by lia. split; [done|]. apply sqrt_rem_of. by transitivity (2 ^ (8 - 2)).
Qed.

(** [ty] bits follow from half of them. *)
Lemma middle_step w ty k n s r : ty = 4 * k → 4 ≤ k ≤ 32 → ty ≤ w → normalised w n → sqrt_rem (Z.shiftr n (w - ty / 2)) s r →
  ∃ s1 r1, middle_stage w ty n s r = Some (s1, r1) ∧ sqrt_rem (Z.shiftr n (w - ty)) s1 r1.
Proof.
  intros -> Hk Hw Hn Hs. replace (4 * k / 2) with (2 * k) in Hs by (apply Z.div_unique with 0; lia).
  apply middle_stage_spec; [done..| |by rewrite top_half by lia]. apply (normalised_top w n (4 * k)); [lia | done].
Qed.

Lemma last_step ty k n s r : ty = 4 * k → 4 ≤ k ≤ 32 → normalised ty n → sqrt_rem (Z.shiftr n (ty - ty / 2)) s r →
  last_stage ty n s r = Some (Z.sqrt n).
Proof.
  intros -> Hk Hn Hs. replace (4 * k / 2) with (2 * k) in Hs by (apply Z.div_unique with 0; lia).
  apply last_stage_spec; [done|done|].
  rewrite <- Z.shiftr_div_pow2 by lia. by replace (4 * k - 2 * k) with (2 * k) in Hs by lia.
Qed.

Lemma u16_stages_spec n : normalised 16 n → u16_stages n = Some (Z.sqrt n).
Proof.
  intros Hn. unfold u16_stages. destruct (first_stage_spec 16 n) as (s & r & -> & Hs); [done..|]. cbn [mbind option_bind].
  by apply (last_step 16 4).
Qed.

Lemma u32_stages_spec n : normalised 32 n → u32_stages n = Some (Z.sqrt n).
Proof.
  intros Hn. unfold u32_stages. destruct (first_stage_spec 32 n) as (s & r & -> & Hs); [done..|]. cbn [mbind option_bind].
  destruct (middle_step 32 16 4 n s r) as (s1 & r1 & -> & Hs1); [done..|]. cbn [mbind option_bind].
  by apply (last_step 32 8).
Qed.

Lemma u64_stages_spec n : normalised 64 n → u64_stages n = Some (Z.sqrt n).
Proof.
  intros Hn. unfold u64_stages. destruct (first_stage_spec 64 n) as (s & r & -> & Hs); [done..|]. cbn [mbind option_bind].
  destruct (middle_step 64 16 4 n s r) as (s1 & r1 & -> & Hs1); [done..|]. cbn [mbind option_bind].
  destruct (middle_step 64 32 8 n s1 r1) as (s2 & r2 & -> & Hs2); [done..|]. cbn [mbind option_bind].
  by apply (last_step 64 16).
Qed.

Lemma u128_stages_spec n : normalised 128 n → u128_stages n = Some (Z.sqrt n).
Proof.
  intros Hn. unfold u128_stages. destruct (first_stage_spec 128 n) as (s & r & -> & Hs); [done..|]. cbn [mbind option_bind].
  destruct (middle_step 128 16 4 n s r) as (s1 & r1 & -> & Hs1); [done..|]. cbn [mbind option_bind].
  destruct (middle_step 128 32 8 n s1 r1) as (s2 & r2 & -> & Hs2); [done..|]. cbn [mbind option_bind].
  destruct (middle_step 128 64 16 n s2 r2) as (s3 & r3 & -> & Hs3); [done..|]. cbn [mbind option_bind].
  by apply (last_step 128 32).
Qed.

(** ** The functions *)
Lemma sqrt_shift n p : 0 ≤ n → 0 ≤ p → Z.shiftr (Z.sqrt (n * 2 ^ (2 * p))) p = Z.sqrt n.
Proof.
  intros Hn Hp. rewrite Z.shiftr_div_pow2 by done. assert (HP : 0 < 2 ^ p) by (by apply Z.pow_pos_nonneg).
  assert (H2 : 2 ^ (2 * p) = 2 ^ p * 2 ^ p) by (rewrite <- Z.pow_add_r by done; f_equal; lia). rewrite H2.
  set (P := 2 ^ p) in *. clearbody P. pose proof (Z.sqrt_spec n Hn) as [Hl Hu]. pose proof (Z.sqrt_nonneg n).
  set (s := Z.sqrt n) in *. clearbody s.
  assert (s * P ≤ Z.sqrt (n * (P * P))) by (apply Z.sqrt_le_square; nia).
  assert (Z.sqrt (n * (P * P)) < (s + 1) * P) by (apply Z.sqrt_lt_square; nia).
  symmetry. apply Z.div_unique with (Z.sqrt (n * (P * P)) - s * P); nia.
Qed.

Lemma unsigned_fn_spec w half stages n : width_ok w →
  (∀ n, 0 ≤ n < 2 ^ (w / 2) → half n = Some (Z.sqrt n)) → (∀ n, normalised w n → stages n = Some (Z.sqrt n)) →
  0 ≤ n < 2 ^ w → unsigned_fn w half stages n = Some (Z.sqrt n).
Proof.
  intros Hw Hhalf Hstages Hn. unfold unsigned_fn, MAX. cbn [uint signed bits]. pose proof (width_pos w Hw).
  destruct (Z.leb_spec n (2 ^ (w / 2) - 1)); [apply Hhalf; lia|].
  assert (0 < 2 ^ (w / 2)) by (apply Z.pow_pos_nonneg; [done | apply Z.div_pos; lia]).
  unfold leading_zeros. rewrite (proj2 (Z.eqb_neq n 0)) by lia.
  assert (Hlog : 0 ≤ Z.log2 n < w) by (split; [apply Z.log2_nonneg | apply Z.log2_lt_pow2; lia]).
  pose proof (Z.log2_spec n ltac:(lia)) as Hspec. set (l := Z.log2 n) in *. clearbody l.
  change (2 ^ 32 - 2) with (2 ^ 32 - 2 ^ 1). rewrite land_high by (change (2 ^ 32) with 4294967296; lia). change (2 ^ 1) with 2.
  pose proof (Z.div_mod (w - 1 - l) 2 ltac:(done)). pose proof (Z.mod_pos_bound (w - 1 - l) 2 ltac:(done)).
  set (p := (w - 1 - l) / 2) in *. replace (w - 1 - l - (w - 1 - l) mod 2) with (2 * p) by lia.
  assert (0 ≤ p) by lia. assert (Hz : 0 ≤ 2 * p) by lia.
  assert (Hnorm : normalised w (n * 2 ^ (2 * p))).
  { split.
    - transitivity (2 ^ l * 2 ^ (2 * p)); [|apply Z.mul_le_mono_nonneg_r; [by apply Z.pow_nonneg | lia]].
      rewrite <- Z.pow_add_r by lia. apply Z.pow_le_mono_r; lia.
    - apply Z.lt_le_trans with (2 ^ Z.succ l * 2 ^ (2 * p)); [apply Z.mul_lt_mono_pos_r; [by apply Z.pow_pos_nonneg | lia]|].
      rewrite <- Z.pow_add_r by lia. apply Z.pow_le_mono_r; lia. }
  rewrite shl_u, Hstages by (done || destruct Hnorm; pose proof (Z.pow_nonneg 2 (2 * p)); lia). cbn [mbind option_bind].
  assert (Z.shiftr (2 * p) 1 = p) as ->.
  { rewrite Z.shiftr_div_pow2 by done. change (2 ^ 1) with 2. symmetry. apply Z.div_unique with 0; lia. }
  f_equal. apply sqrt_shift; lia.
Qed.

Lemma u8_spec n : 0 ≤ n < 2 ^ 8 → u8 n = Some (Z.sqrt n).
Proof. intros Hn. unfold u8. by rewrite table_spec. Qed.

Lemma int_sqrt_spec w n : width_ok w → 0 ≤ n < 2 ^ w → int_sqrt w n = Some (Z.sqrt n).
Proof.
  assert (H16 : ∀ n, 0 ≤ n < 2 ^ 16 → u16 n = Some (Z.sqrt n)).
  { intros. apply unsigned_fn_spec; [by right; left|apply u8_spec|apply u16_stages_spec|done]. }
  assert (H32 : ∀ n, 0 ≤ n < 2 ^ 32 → u32 n = Some (Z.sqrt n)).
  { intros. apply unsigned_fn_spec; [by right; right; left|apply H16|apply u32_stages_spec|done]. }
  assert (H64 : ∀ n, 0 ≤ n < 2 ^ 64 → u64 n = Some (Z.sqrt n)).
  { intros. apply unsigned_fn_spec; [by right; right; right; left|apply H32|apply u64_stages_spec|done]. }
  intros [-> | [-> | [-> | [-> | ->]]]] Hn; unfold int_sqrt; cbn [Z.eqb Pos.eqb];
    [by apply u8_spec | by apply H16 | by apply H32 | by apply H64 |].
  apply unsigned_fn_spec; [by do 4 right|apply H64|apply u128_stages_spec|done].
Qed.

(** ** Properties *)

(** C31: Square roots: for every width, signed or not, [isqrt] returns the integer square
    root of every argument that is not negative; no stage of the computation
    overflows, divides by zero or reaches a false [assert_unchecked], the lookups of
    the table are in bounds, and [checked_isqrt] is [None], and [isqrt] a panic,
    exactly for negative arguments. *)
Theorem isqrt_correct (t : int_ty) (n : Z) (Ht : int_ok t) (Hn : in_range t n) :
  let w := bits t in
  (if signed t then i_isqrt w n else isqrt w n) = (if n <? 0 then None else Some (Z.sqrt n)) ∧
  (signed t = true → i_checked_isqrt w n = Some (if n <? 0 then None else Some (Z.sqrt n))) ∧
  (0 ≤ n → Z.sqrt n * Z.sqrt n ≤ n < (Z.sqrt n + 1) * (Z.sqrt n + 1)).
Proof.
  destruct t as [sg w]. cbn [bits signed]. cbn zeta. assert (Hw : width_ok w) by done. destruct (width_pow w Hw) as [Hm ?].
  assert (Hspec : 0 ≤ n → Z.sqrt n * Z.sqrt n ≤ n < (Z.sqrt n + 1) * (Z.sqrt n + 1)) by (apply Z.sqrt_spec).
  unfold i_isqrt. destruct sg.
  - assert (Hc : i_checked_isqrt w n = Some (if n <? 0 then None else Some (Z.sqrt n))); [|by rewrite Hc].
    unfold i_checked_isqrt. destruct (Z.ltb_spec n 0) as [|Hn0]; [done|].
    assert (Hs : ∀ x, 0 ≤ x < 2 ^ (w - 1) → int_sqrt_signed w x = Some (Z.sqrt x)).
    { intros x Hx. unfold int_sqrt_signed. rewrite (proj2 (Z.leb_le 0 x)) by lia. cbn [assert mbind option_bind].
      rewrite wrap_id by (done || apply uint_range; lia). rewrite int_sqrt_spec by (done || lia). cbn [mbind option_bind].
      rewrite wrap_id; [done..|]. apply sint_range. pose proof (Z.sqrt_nonneg x). pose proof (Z.sqrt_le_lin x). lia. }
    apply sint_range in Hn. unfold MAX. cbn [sint signed bits]. rewrite !Hs by lia. cbn [mbind option_bind].
    rewrite (proj2 (Z.leb_le 0 _)) by apply Z.sqrt_nonneg. cbn [assert mbind option_bind].
    rewrite (proj2 (Z.leb_le _ _)) by (apply Z.sqrt_le_mono; lia). done.
  - apply uint_range in Hn. destruct (Z.ltb_spec n 0); [lia|]. split; [|done].
    unfold isqrt, MAX. cbn [uint signed bits]. rewrite !int_sqrt_spec by (done || lia). cbn [mbind option_bind].
    by rewrite (proj2 (Z.leb_le _ _)) by (apply Z.sqrt_le_mono; lia).
Qed.

Lemma isqrt_correct_witness :
  isqrt 128 (123456789012345678 ^ 2 + 99) = Some 123456789012345678 ∧ i_isqrt 8 (-1) = None ∧
  isqrt 16 65535 = Some 255 ∧ isqrt 16 65535 = (if 65535 <? 0 then None else Some (Z.sqrt 65535)).
Proof.
  split; [vm_compute; done|]. split; [vm_compute; done|]. split; [vm_compute; done|].
  apply (isqrt_correct (uint 16) 65535); [by right; left | done].
Defined.
