(* ===== verification/IntFmt.v ===== *)
(** Printing of integers: [core/src/fmt/num.rs] and [Formatter::pad_integral] of
    [core/src/fmt/mod.rs].

    A buffer is a list of bytes, [None] where it has not been initialised; digits
    are written from its end backwards, [offset] is where they start.  The result
    is [None] where the code would panic (an index out of bounds, an offset below
    zero, an overflow) or break the condition of an [assert_unchecked], or read a
    byte that is not initialised.  A result is the list of the characters written;
    the output accepts everything. *)

From S2P Require Import Prelude Words IntLog.

#[local] Open Scope Z_scope.

Abbreviation bytes := (list Z).
Abbreviation buffer := (list (option Z)).

(** [buf[i].write(b)] *)
Definition write_byte (buf : buffer) (i : nat) (b : Z) : option buffer :=
  if decide (i < length buf)%nat then Some (<[i := Some b]> buf) else None.

Fixpoint all_init (buf : buffer) : option bytes :=
  match buf with
  | [] => Some []
  | Some b :: buf => bs ← all_init buf; Some (b :: bs)
  | None :: _ => None
  end.

Definition slice_buffer_to_str (buf : buffer) (offset : nat) : option bytes :=
  if decide (offset ≤ length buf)%nat then all_init (drop offset buf) else None.

Definition uninit (n : nat) : buffer := replicate n None.

(** The string of all two-digit numbers *)
Definition of_digits (ds : list Z) : bytes := (λ d, d + 48) <$> ds.
Definition DECIMAL_PAIRS : bytes := of_digits (
  [0;0;0;1;0;2;0;3;0;4;0;5;0;6;0;7;0;8;0;9;1;0;1;1;1;2;1;3;1;4;1;5;1;6;1;7;1;8;1;9] ++
  [2;0;2;1;2;2;2;3;2;4;2;5;2;6;2;7;2;8;2;9;3;0;3;1;3;2;3;3;3;4;3;5;3;6;3;7;3;8;3;9] ++
  [4;0;4;1;4;2;4;3;4;4;4;5;4;6;4;7;4;8;4;9;5;0;5;1;5;2;5;3;5;4;5;5;5;6;5;7;5;8;5;9] ++
  [6;0;6;1;6;2;6;3;6;4;6;5;6;6;6;7;6;8;6;9;7;0;7;1;7;2;7;3;7;4;7;5;7;6;7;7;7;8;7;9] ++
  [8;0;8;1;8;2;8;3;8;4;8;5;8;6;8;7;8;8;8;9;9;0;9;1;9;2;9;3;9;4;9;5;9;6;9;7;9;8;9;9]).

(** Writes the two digits of [pair] at [i]. *)
Definition write_pair (buf : buffer) (i : nat) (pair : Z) : option buffer :=
  b1 ← DECIMAL_PAIRS !! Z.to_nat (pair * 2 + 0); b2 ← DECIMAL_PAIRS !! Z.to_nat (pair * 2 + 1);
  buf ← write_byte buf i b1; write_byte buf (i + 1) b2.
Definition write_quad (buf : buffer) (i : nat) (quad : Z) : option buffer :=
  buf ← write_pair buf i (quad / 100); write_pair buf (i + 2) (quad mod 100).

(** ** [_fmt_inner] of the types of up to 64 bits *)
Fixpoint fmt_quads (buf : buffer) (offset : nat) (remain : Z) : option (buffer * nat * Z) :=
  if 999 <? remain then
    match offset with
    | S (S (S (S offset))) => buf ← write_quad buf offset (remain mod 10000); fmt_quads buf offset (remain / 10000)
    | _ => None
    end
  else Some (buf, offset, remain).

Definition fmt_pair (st : buffer * nat * Z) : option (buffer * nat * Z) :=
  let '(buf, offset, remain) := st in
  if 9 <? remain then
    match offset with
    | S (S offset) => buf ← write_pair buf offset (remain mod 100); Some (buf, offset, remain / 100)
    | _ => None
    end
  else Some st.

(** The last digit; [zero] says that it is written even if it is 0. *)
Definition fmt_last (zero : bool) (st : buffer * nat * Z) : option (buffer * nat) :=
  let '(buf, offset, remain) := st in
  if negb (remain =? 0) || zero then
    match offset with
    | S offset =>
        b ← DECIMAL_PAIRS !! Z.to_nat (Z.land remain 15 * 2 + 1);
        buf ← write_byte buf offset b; Some (buf, offset)
    | O => None
    end
  else Some (buf, offset).

Definition _fmt_inner (size_of : Z) (self : Z) (buf : buffer) : option (buffer * nat) :=
  st ← (if 1 <? size_of then fmt_quads buf (length buf) self else Some (buf, length buf, self));
  st ← fmt_pair st; fmt_last (self =? 0) st.

(** [_in_buf_small], of builds that optimise for size *)
Fixpoint in_buf_small_loop (buf : buffer) (curr : nat) (n : Z) : option (buffer * nat) :=
  match curr with
  | O => None
  | S curr =>
      buf ← write_byte buf curr (n mod 10 + 48);
      if n / 10 =? 0 then Some (buf, curr) else in_buf_small_loop buf curr (n / 10)
  end.
Definition in_buf_small (n : Z) (buf : buffer) : option (buffer * nat) := in_buf_small_loop buf (length buf) n.

(** ** [u128] *)
Definition U128_MAX_DEC_N : nat := 39.
Definition E16 : Z := 10000000000000000.
Definition M_HIGH : Z := 76624777043294442917917351357515459181.
Definition SH_POST : Z := 51.

(** [widening_mul] gives the high half of the product. *)
Definition div_rem_1e16 (n : Z) : option (Z * Z) :=
  if n <? E16 then Some (0, wrap (uint 64) n)
  else
    let quot := Z.shiftr (Z.shiftr (n * M_HIGH) 128) SH_POST in
    m ← fit (uint 128) (quot * E16); rem ← fit (uint 128) (n - m);
    Some (quot, wrap (uint 64) rem).

Fixpoint enc_quads (OFFSET : nat) (buf : buffer) (quads : nat) (remain : Z) : option buffer :=
  match quads with
  | O => Some buf
  | S quad_index => buf ← write_quad buf (quad_index * 4 + OFFSET) (remain mod 10000); enc_quads OFFSET buf quad_index (remain / 10000)
  end.
Definition enc_16lsd (OFFSET : nat) (buf : buffer) (n : Z) : option buffer := enc_quads OFFSET buf 4 n.

Definition _fmt_inner_u128 (self : Z) (buf : buffer) : option (buffer * nat) :=
  if self =? 0 then
    match length buf with
    | O => None
    | S offset => buf ← write_byte buf offset 48; Some (buf, offset)
    end
  else
    '(quot_1e16, mod_1e16) ← div_rem_1e16 self;
    st ← (if quot_1e16 =? 0 then Some (buf, U128_MAX_DEC_N, mod_1e16)
          else
            buf ← enc_16lsd (U128_MAX_DEC_N - 16) buf mod_1e16;
            '(quot2, mod2) ← div_rem_1e16 quot_1e16;
            if quot2 =? 0 then Some (buf, (U128_MAX_DEC_N - 16)%nat, mod2)
            else
              buf ← enc_16lsd (U128_MAX_DEC_N - 32) buf mod2;
              Some (buf, (U128_MAX_DEC_N - 32)%nat, wrap (uint 64) quot2));
    let '(buf, offset, remain) := st in
    st ← fmt_quads buf offset remain; st ← fmt_pair st; fmt_last false st.

(** ** Other radixes *)
Fixpoint radix_loop (DIG_TAB : bytes) (buf : buffer) (offset : nat) (remain : Z) : option (buffer * nat) :=
  let BASE := Z.of_nat (length DIG_TAB) in
  match offset with
  | O => None
  | S offset =>
      b ← DIG_TAB !! Z.to_nat (remain mod BASE); buf ← write_byte buf offset b;
      if remain / BASE =? 0 then Some (buf, offset) else radix_loop DIG_TAB buf offset (remain / BASE)
  end.

Definition binary_digits : bytes := [48; 49].
Definition octal_digits : bytes := [48; 49; 50; 51; 52; 53; 54; 55].
Definition lower_hex_digits : bytes := [48; 49; 50; 51; 52; 53; 54; 55; 56; 57; 97; 98; 99; 100; 101; 102].
Definition upper_hex_digits : bytes := [48; 49; 50; 51; 52; 53; 54; 55; 56; 57; 65; 66; 67; 68; 69; 70].

(** ** The formatter *)
Inductive Alignment := Left | Right | Center.

(** [FormattingOptions], unpacked; a width or a precision that is not set is 0 and
    [None]. *)
Record options := Options {
  fill : Z; align : option Alignment; width : nat; precision : option nat;
  sign_plus : bool; alternate : bool; sign_aware_zero_pad : bool;
}.
Definition plain : options := Options 32 None 0 None false false false.

(** What [padding] has written, and what [PostPadding::write] will write. *)
Definition padding (opt : options) (padding : nat) (default : Alignment) : bytes * bytes :=
  let padding_left :=
    match from_option id default (align opt) with Left => 0%nat | Right => padding | Center => (padding / 2)%nat end in
  (replicate padding_left (fill opt), replicate (padding - padding_left) (fill opt)).

(** What is written to the output. *)
Definition pad_integral (opt : options) (is_nonnegative : bool) (prefix buf : bytes) : bytes :=
  let sign := if negb is_nonnegative then [45] else if sign_plus opt then [43] else [] in
  let prefix := if alternate opt then prefix else [] in
  let len := (length buf + length sign + length prefix)%nat in
  if (width opt <=? len)%nat then sign ++ prefix ++ buf
  else if sign_aware_zero_pad opt then
    let opt := Options 48 (Some Right) (width opt) (precision opt) (sign_plus opt) (alternate opt) true in
    let '(pre, post) := padding opt (width opt - len) Right in
    sign ++ prefix ++ pre ++ buf ++ post
  else
    let '(pre, post) := padding opt (width opt - len) Right in
    pre ++ sign ++ prefix ++ buf ++ post.

(** ** The types *)
Definition size_of (t : int_ty) : Z := bits t / 8.
Definition unsigned_abs (n : Z) : Z := Z.abs n.
Definition cast_unsigned (t : int_ty) (n : Z) : Z := wrap (uint (bits t)) n.

(** The lengths of the buffers: the digits of the largest unsigned number *)
Definition MAX_DEC_N (w : Z) : option nat := k ← ilog10 w (MAX (uint w)); Some (Z.to_nat k + 1)%nat.
Definition MAX_DIG_N (w BASE : Z) : option nat := k ← ilog true w (MAX (uint w)) BASE; Some (Z.to_nat k + 1)%nat.

(** [_fmt] and [Display]: of [u128] and [i128], and of the others *)
Definition _fmt (t : int_ty) (n : Z) : option bytes :=
  len ← MAX_DEC_N (bits t);
  st ← (if bits t =? 128 then _fmt_inner_u128 n (uninit len) else _fmt_inner (size_of t) n (uninit len));
  slice_buffer_to_str st.1 st.2.
Definition display (t : int_ty) (opt : options) (self : Z) : option bytes :=
  s ← _fmt t (unsigned_abs self); Some (pad_integral opt (0 <=? self) [] s).

(** [Display] of builds that optimise for size, for the types of up to 64 bits *)
Definition display_small (opt : options) (self : Z) : option bytes :=
  len ← MAX_DEC_N 64; st ← in_buf_small (unsigned_abs self) (uninit len);
  s ← slice_buffer_to_str st.1 st.2; Some (pad_integral opt (0 <=? self) [] s).

(** [format_into]: the digits are written in a [NumBuffer] of the caller, of 40 bytes,
    then the sign; 128-bit integers use a part of it. *)
Definition capacity : nat := 40.
Definition format_into (t : int_ty) (self : Z) : option bytes :=
  let buf := uninit capacity in
  '(buf, offset) ←
    (if bits t =? 128 then
       let diff := (capacity - U128_MAX_DEC_N)%nat in
       st ← _fmt_inner_u128 (unsigned_abs self) (drop diff buf);
       Some (take diff buf ++ st.1, (st.2 + diff)%nat)
     else _fmt_inner (size_of t) (unsigned_abs self) buf);
  if self <? 0 then
    match offset with
    | S offset => buf ← write_byte buf offset 45; slice_buffer_to_str buf offset
    | O => None
    end
  else slice_buffer_to_str buf offset.

(** [Binary], [Octal], [LowerHex], [UpperHex] *)
Definition fmt_radix (t : int_ty) (DIG_TAB prefix : bytes) (opt : options) (self : Z) : option bytes :=
  len ← MAX_DIG_N (bits t) (Z.of_nat (length DIG_TAB));
  st ← radix_loop DIG_TAB (uninit len) len (cast_unsigned t self);
  digits ← slice_buffer_to_str st.1 st.2;
  Some (pad_integral opt true prefix digits).
Definition fmt_binary (t : int_ty) := fmt_radix t binary_digits [48; 98].
Definition fmt_octal (t : int_ty) := fmt_radix t octal_digits [48; 111].
Definition fmt_lower_hex (t : int_ty) := fmt_radix t lower_hex_digits [48; 120].
Definition fmt_upper_hex (t : int_ty) := fmt_radix t upper_hex_digits [48; 120].

Example display_u8 : display (uint 8) plain 207 = Some [50; 48; 55].
Proof. vm_compute. reflexivity. Qed.
Example display_i128 : display (sint 128) plain (-123456789012345678901234567890) =
  Some (45 :: of_digits [1;2;3;4;5;6;7;8;9;0;1;2;3;4;5;6;7;8;9;0;1;2;3;4;5;6;7;8;9;0]).
Proof. vm_compute. reflexivity. Qed.
Example lower_hex_i16 : fmt_lower_hex (sint 16) plain (-2) = Some [102; 102; 102; 101].
Proof. vm_compute. reflexivity. Qed.
