(* ===== verification/IntFmtSpec.v ===== *)
(** What the printing routines of [IntFmt.v] write: the canonical numeral of a
    number, without a panic or a read of uninitialised bytes, for every type. *)

From S2P Require Import Prelude Words IntLog IntFmt.

#[local] Open Scope Z_scope.

(** ** Numerals *)
Definition value (base : Z) (ds : list Z) : Z := foldl (λ acc d, acc * base + d) 0 ds.
Definition digit_ok (base d : Z) : Prop := 0 ≤ d < base.

(** No leading zero, unless the number is zero *)
Definition canonical (ds : list Z) : Prop := match ds with [] => False | d :: ds => d = 0 → ds = [] end.
Definition is_numeral (base n : Z) (ds : list Z) : Prop :=
  value base ds = n ∧ Forall (digit_ok base) ds ∧ canonical ds.

Lemma foldl_value base ds : ∀ acc, foldl (λ acc d, acc * base + d) acc ds = acc * base ^ Z.of_nat (length ds) + value base ds.
Proof.
  unfold value. induction ds as [|d ds IH]; intros acc; cbn [foldl length]; [lia|].
  rewrite IH, (IH (0 * base + d)). rewrite Nat2Z.inj_succ, Z.pow_succ_r by lia. lia.
Qed.

Lemma value_cons base d ds : value base (d :: ds) = d * base ^ Z.of_nat (length ds) + value base ds.
Proof. unfold value at 1. cbn [foldl]. rewrite foldl_value. lia. Qed.

Lemma value_app base ds1 ds2 : value base (ds1 ++ ds2) = value base ds1 * base ^ Z.of_nat (length ds2) + value base ds2.
Proof. unfold value at 1. by rewrite foldl_app, foldl_value. Qed.

Lemma value_bound base ds : 1 < base → Forall (digit_ok base) ds → 0 ≤ value base ds < base ^ Z.of_nat (length ds).
Proof.
  intros Hb. induction 1 as [|d ds Hd _ IH]; [done|]. rewrite value_cons. cbn [length].
  rewrite Nat2Z.inj_succ, Z.pow_succ_r by lia. unfold digit_ok in Hd.
  assert (d * base ^ Z.of_nat (length ds) ≤ (base - 1) * base ^ Z.of_nat (length ds)) by (apply Z.mul_le_mono_nonneg_r; lia).
  assert (0 ≤ d * base ^ Z.of_nat (length ds)) by (apply Z.mul_nonneg_nonneg; lia). lia.
Qed.

(** A number has one canonical numeral. *)
Lemma same_length_unique base ds1 ds2 : 1 < base → length ds1 = length ds2 → Forall (digit_ok base) ds1 → Forall (digit_ok base) ds2 →
  value base ds1 = value base ds2 → ds1 = ds2.
Proof.
  intros Hb. revert ds2. induction ds1 as [|d1 ds1 IH]; intros [|d2 ds2] Hlen H1 H2 Hv; try done.
  injection Hlen as Hlen. apply Forall_cons in H1 as [Hd1 H1], H2 as [Hd2 H2]. rewrite !value_cons, Hlen in Hv.
  pose proof (value_bound base ds1 Hb H1) as Hb1. pose proof (value_bound base ds2 Hb H2) as Hb2. rewrite Hlen in Hb1.
  assert (d1 = d2) as ->.
  { apply (Z.div_mod_unique (base ^ Z.of_nat (length ds2)) d1 d2 (value base ds1) (value base ds2)); lia. }
  f_equal. apply IH; [done..|lia].
Qed.

Lemma canonical_length base ds : 1 < base → Forall (digit_ok base) ds → canonical ds →
  base ^ (Z.of_nat (length ds) - 1) ≤ value base ds ∨ ds = [0].
Proof.
  intros Hb Hd Hc. destruct ds as [|d ds]; [done|]. cbn [canonical] in Hc. apply Forall_cons in Hd as [Hd Hds].
  destruct (decide (d = 0)) as [->|]; [rewrite Hc by done; by right|]. left.
  rewrite value_cons. pose proof (value_bound base ds Hb Hds). cbn [length].
  replace (Z.of_nat (S (length ds)) - 1) with (Z.of_nat (length ds)) by lia. unfold digit_ok in Hd.
  assert (1 * base ^ Z.of_nat (length ds) ≤ d * base ^ Z.of_nat (length ds)) by (apply Z.mul_le_mono_nonneg_r; lia). lia.
Qed.

Lemma numeral_unique base n ds1 ds2 : 1 < base → is_numeral base n ds1 → is_numeral base n ds2 → ds1 = ds2.
Proof.
  intros Hb (Hv1 & Hd1 & Hc1) (Hv2 & Hd2 & Hc2).
  assert (Hle : ∀ ds ds', Forall (digit_ok base) ds → Forall (digit_ok base) ds' → canonical ds → canonical ds' →
    value base ds = value base ds' → (length ds ≤ length ds')%nat).
  { intros ds ds' Hd Hd' Hc Hc' Hv. destruct ds' as [|d' ds']; [done|].
    destruct (canonical_length base ds Hb Hd Hc) as [Hl | ->]; [|cbn; lia].
    pose proof (value_bound base _ Hb Hd') as [_ Hu]. rewrite <- Hv in Hu.
    assert (Z.of_nat (length ds) - 1 < Z.of_nat (length (d' :: ds'))) by (apply (Z.pow_lt_mono_r_iff base); lia). lia. }
  apply same_length_unique with base; [done| |done..|congruence].
  apply Nat.le_antisymm; apply Hle; done || congruence.
Qed.

Lemma of_digits_app ds ds' : of_digits (ds ++ ds') = of_digits ds ++ of_digits ds'.
Proof. apply fmap_app. Qed.

(** ** Buffers *)
(** The digits [ds] are written from [off] on, to the end. *)
Definition written (buf : buffer) (off : nat) (ds : list Z) : Prop :=
  ∃ l, buf = l ++ (Some <$> of_digits ds) ∧ length l = off.

Lemma written_length buf off ds : written buf off ds → length buf = (off + length ds)%nat.
Proof. intros (l & -> & <-). unfold of_digits. by rewrite length_app, !length_fmap. Qed.

Lemma written_nil buf : written buf (length buf) [].
Proof. exists buf. by rewrite app_nil_r. Qed.

Lemma all_init_Some (bs : bytes) : all_init (Some <$> bs) = Some bs.
Proof. induction bs as [|b bs IH]; [done|]. cbn [fmap list_fmap all_init]. by rewrite IH. Qed.

Lemma slice_spec buf off ds : written buf off ds → slice_buffer_to_str buf off = Some (of_digits ds).
Proof.
  intros (l & -> & <-). unfold slice_buffer_to_str. rewrite decide_True by (rewrite length_app; lia).
  by rewrite drop_app_length, all_init_Some.
Qed.

Lemma split_last (l : buffer) off k : length l = (off + k)%nat → ∃ l1 l2, l = l1 ++ l2 ∧ length l1 = off ∧ length l2 = k.
Proof. intros. exists (take off l), (drop off l). rewrite take_drop, length_take, length_drop. split_and!; [done | lia..]. Qed.

Lemma write_byte_middle (l : buffer) x r b : write_byte (l ++ x :: r) (length l) b = Some (l ++ Some b :: r).
Proof.
  unfold write_byte. rewrite decide_True by (rewrite length_app; cbn; lia). f_equal.
  pose proof (insert_app_r l (x :: r) 0 (Some b)) as H. by rewrite Nat.add_0_r in H.
Qed.

(** The table of pairs *)
Lemma pairs_lookup p : 0 ≤ p < 100 →
  DECIMAL_PAIRS !! Z.to_nat (p * 2 + 0) = Some (p / 10 + 48) ∧ DECIMAL_PAIRS !! Z.to_nat (p * 2 + 1) = Some (p mod 10 + 48).
Proof.
  intros Hp. pose (f p := bool_decide (DECIMAL_PAIRS !! Z.to_nat (p * 2 + 0) = Some (p / 10 + 48) ∧
    DECIMAL_PAIRS !! Z.to_nat (p * 2 + 1) = Some (p mod 10 + 48))).
  assert (Hf : forallb f (seqZ 0 100) = true) by (vm_compute; reflexivity).
  pose proof (forallb_range f 0 100 Hf p Hp) as H. by apply bool_decide_eq_true in H.
Qed.

Lemma write_pair_middle (l : buffer) x y r p : 0 ≤ p < 100 →
  write_pair (l ++ x :: y :: r) (length l) p = Some (l ++ Some (p / 10 + 48) :: Some (p mod 10 + 48) :: r).
Proof.
  intros Hp. unfold write_pair. destruct (pairs_lookup p Hp) as [-> ->]. cbn [mbind option_bind].
  rewrite write_byte_middle. cbn [mbind option_bind].
  pose proof (write_byte_middle (l ++ [Some (p / 10 + 48)]) y r (p mod 10 + 48)) as H.
  rewrite length_app, <- !app_assoc in H. exact H.
Qed.

Lemma write_quad_middle (l : buffer) a b c d r q : 0 ≤ q < 10000 →
  write_quad (l ++ a :: b :: c :: d :: r) (length l) q =
  Some (l ++ (Some <$> of_digits [q / 100 / 10; q / 100 mod 10; q mod 100 / 10; q mod 100 mod 10]) ++ r).
Proof.
  intros Hq. unfold write_quad.
  assert (Hq1 : 0 ≤ q / 100 < 100) by (split; [apply Z.div_pos; lia | apply Z.div_lt_upper_bound; lia]).
  rewrite write_pair_middle by done. cbn [mbind option_bind].
  pose proof (write_pair_middle (l ++ [Some (q / 100 / 10 + 48); Some (q / 100 mod 10 + 48)]) c d r (q mod 100)
    (Z.mod_pos_bound q 100 ltac:(done))) as H.
  rewrite length_app, <- !app_assoc in H. exact H.
Qed.

(** One more digit, two, four *)
Lemma write_digit buf off ds d : written buf (S off) ds →
  ∃ buf', write_byte buf off (d + 48) = Some buf' ∧ written buf' off (d :: ds).
Proof.
  intros (l & -> & Hl). destruct (split_last l off 1) as (l1 & l2 & -> & <- & H2); [lia|].
  destruct l2 as [|x []]; try done. rewrite <- app_assoc. cbn [app]. rewrite write_byte_middle. eexists. split; [done|]. by exists l1.
Qed.

Lemma write_pair_spec buf off ds p : 0 ≤ p < 100 → written buf (S (S off)) ds →
  ∃ buf', write_pair buf off p = Some buf' ∧ written buf' off (p / 10 :: p mod 10 :: ds).
Proof.
  intros Hp (l & -> & Hl). destruct (split_last l off 2) as (l1 & l2 & -> & <- & H2); [lia|].
  destruct l2 as [|x [|y []]]; try done. rewrite <- app_assoc. cbn [app]. rewrite write_pair_middle by done.
  eexists. split; [done|]. by exists l1.
Qed.

Lemma write_quad_spec buf off ds q : 0 ≤ q < 10000 → written buf (S (S (S (S off)))) ds →
  ∃ buf', write_quad buf off q = Some buf' ∧
    written buf' off ([q / 100 / 10; q / 100 mod 10; q mod 100 / 10; q mod 100 mod 10] ++ ds).
Proof.
  intros Hq (l & -> & Hl). destruct (split_last l off 4) as (l1 & l2 & -> & <- & H2); [lia|].
  destruct l2 as [|a [|b [|c [|d []]]]]; try done. rewrite <- app_assoc. cbn [app]. rewrite write_quad_middle by done.
  eexists. split; [done|]. by exists l1.
Qed.

(** ** The invariant of the printing loops: [remain] is what is left of [n] once the
    digits [ds] have been taken off its end. *)
Record taken (n remain : Z) (ds : list Z) : Prop := Taken {
  taken_value : n = remain * 10 ^ Z.of_nat (length ds) + value 10 ds;
  taken_digits : Forall (digit_ok 10) ds;
  taken_nonneg : 0 ≤ remain;
  taken_head : remain = 0 → ds ≠ [] → canonical ds ∧ 0 < n;
}.

Lemma taken_start n : 0 ≤ n → taken n n [].
Proof. intros. split; [cbn; lia | done | done | done]. Qed.

(** Taking more digits off the end *)
Lemma taken_step n remain ds q ds' : taken n remain ds → Forall (digit_ok 10) ds' → 0 ≤ q →
  remain = q * 10 ^ Z.of_nat (length ds') + value 10 ds' →
  (q = 0 → canonical (ds' ++ ds) ∧ 0 < remain) → taken n q (ds' ++ ds).
Proof.
  intros [Hv Hd Hn Hh] Hd' Hq Hr Hc. pose proof (value_bound 10 ds ltac:(done) Hd).
  split; [|by apply Forall_app|done|].
  - rewrite value_app, length_app, Nat2Z.inj_add, Z.pow_add_r by lia. rewrite Hv, Hr. ring.
  - intros Hq0 _. destruct (Hc Hq0) as [? ?]. split; [done|]. rewrite Hv.
    assert (0 < remain * 10 ^ Z.of_nat (length ds)) by (apply Z.mul_pos_pos; lia). lia.
Qed.

(** The buffer has room for what is left. *)
Lemma taken_room n remain ds cap k : taken n remain ds → n < 10 ^ Z.of_nat cap → 0 ≤ k → 10 ^ k ≤ remain →
  Z.of_nat (length ds) + k < Z.of_nat cap.
Proof.
  intros [Hv Hd _ _] Hn Hk Hr. pose proof (value_bound 10 ds ltac:(done) Hd).
  apply (Z.pow_lt_mono_r_iff 10); [done|lia|]. rewrite Z.pow_add_r by lia.
  assert (10 ^ Z.of_nat (length ds) * 10 ^ k ≤ 10 ^ Z.of_nat (length ds) * remain) by (apply Z.mul_le_mono_nonneg_l; lia). lia.
Qed.

Lemma digit_mod n : digit_ok 10 (n mod 10).
Proof. by apply Z.mod_pos_bound. Qed.

Lemma pair_value p : 0 ≤ p < 100 → Forall (digit_ok 10) [p / 10; p mod 10] ∧ value 10 [p / 10; p mod 10] = p.
Proof.
  intros Hp. pose proof (Z.div_mod p 10 ltac:(done)). pose proof (digit_mod p).
  assert (0 ≤ p / 10 < 10) by (split; [apply Z.div_pos; lia | apply Z.div_lt_upper_bound; lia]).
  split; [apply Forall_cons; split; [done|]; by apply Forall_singleton|]. cbn. lia.
Qed.

Definition quad_digits (q : Z) : list Z := [q / 100 / 10; q / 100 mod 10; q mod 100 / 10; q mod 100 mod 10].

Lemma quad_value q : 0 ≤ q < 10000 → Forall (digit_ok 10) (quad_digits q) ∧ value 10 (quad_digits q) = q.
Proof.
  intros Hq. assert (0 ≤ q / 100 < 100) by (split; [apply Z.div_pos; lia | apply Z.div_lt_upper_bound; lia]).
  destruct (pair_value (q / 100)) as [H1 H2]; [done|]. destruct (pair_value (q mod 100)) as [H3 H4]; [by apply Z.mod_pos_bound|].
  change (quad_digits q) with ([q / 100 / 10; q / 100 mod 10] ++ [q mod 100 / 10; q mod 100 mod 10]).
  split; [by apply Forall_app|]. rewrite value_app, H2, H4. cbn. pose proof (Z.div_mod q 100 ltac:(done)). lia.
Qed.

(** ** The loops of [_fmt_inner] *)
(** A state of the loops *)
Definition fmt_state (cap : nat) (n : Z) (st : buffer * nat * Z) : Prop :=
  let '(buf, off, remain) := st in ∃ ds, length buf = cap ∧ written buf off ds ∧ taken n remain ds.

Section loops.
Context (cap : nat) (n : Z) (Hcap : n < 10 ^ Z.of_nat cap).

Lemma state_room buf off remain ds k : length buf = cap → written buf off ds → taken n remain ds → 0 ≤ k → 10 ^ k ≤ remain →
  k < Z.of_nat off.
Proof using Hcap.
  intros Hlen Hw Ht Hk Hr. apply written_length in Hw. pose proof (taken_room n remain ds cap k Ht Hcap Hk Hr). lia.
Qed.

Lemma fmt_quads_spec off : ∀ buf remain, fmt_state cap n (buf, off, remain) →
  ∃ buf' off' remain', fmt_quads buf off remain = Some (buf', off', remain') ∧ fmt_state cap n (buf', off', remain') ∧ remain' ≤ 999.
Proof using Hcap.
  induction off as [off IH] using lt_wf_ind. intros buf remain (ds & Hlen & Hw & Ht).
  assert (Hq : fmt_quads buf off remain = if 999 <? remain then
    match off with
    | S (S (S (S off))) => buf ← write_quad buf off (remain mod 10000); fmt_quads buf off (remain / 10000)
    | _ => None
    end else Some (buf, off, remain)) by (by destruct off). rewrite Hq. clear Hq.
  destruct (Z.ltb_spec 999 remain); [|by eexists _, _, _; split; [done|]; split; [exists ds|]].
  pose proof (state_room buf off remain ds 3 Hlen Hw Ht ltac:(done) ltac:(lia)).
  destruct off as [|[|[|[|off]]]]; try lia.
  pose proof (Z.mod_pos_bound remain 10000 ltac:(done)) as Hm. pose proof (Z.div_mod remain 10000 ltac:(done)).
  destruct (write_quad_spec buf off ds (remain mod 10000)) as (buf' & -> & Hw'); [done..|]. cbn [mbind option_bind].
  destruct (quad_value (remain mod 10000) Hm) as [Hqd Hqv].
  apply IH; [lia|]. exists (quad_digits (remain mod 10000) ++ ds).
  assert (length buf' = length buf) by (apply written_length in Hw, Hw'; rewrite Hw, Hw'; cbn; lia).
  split; [lia|]. split; [done|]. apply (taken_step n remain); [done..|apply Z.div_pos; lia| |].
  - rewrite Hqv. cbn. lia.
  - intros Hz. split; [|lia]. cbn. intros Hd0. exfalso.
    assert (remain mod 10000 = remain) as Heq by (apply Z.mod_small; lia). rewrite Heq in Hd0.
    pose proof (Z.div_mod remain 100 ltac:(done)). pose proof (Z.mod_pos_bound remain 100 ltac:(done)).
    pose proof (Z.div_mod (remain / 100) 10 ltac:(done)). pose proof (Z.mod_pos_bound (remain / 100) 10 ltac:(done)). lia.
Qed.

Lemma fmt_pair_spec buf off remain : fmt_state cap n (buf, off, remain) → remain ≤ 999 →
  ∃ buf' off' remain', fmt_pair (buf, off, remain) = Some (buf', off', remain') ∧ fmt_state cap n (buf', off', remain') ∧ remain' ≤ 9.
Proof using Hcap.
  intros (ds & Hlen & Hw & Ht) Hr. cbn [fmt_pair].
  destruct (Z.ltb_spec 9 remain); [|by eexists _, _, _; split; [done|]; split; [exists ds|]].
  pose proof (state_room buf off remain ds 1 Hlen Hw Ht ltac:(done) ltac:(lia)).
  destruct off as [|[|off]]; try lia.
  pose proof (Z.mod_pos_bound remain 100 ltac:(done)) as Hm. pose proof (Z.div_mod remain 100 ltac:(done)).
  destruct (write_pair_spec buf off ds (remain mod 100)) as (buf' & -> & Hw'); [done..|]. cbn [mbind option_bind].
  destruct (pair_value (remain mod 100) Hm) as [Hqd Hqv].
  eexists _, _, _. split; [done|]. split; [|lia]. exists ([remain mod 100 / 10; remain mod 100 mod 10] ++ ds).
  assert (length buf' = length buf) by (apply written_length in Hw, Hw'; rewrite Hw, Hw'; cbn; lia).
  split; [lia|]. split; [done|]. apply (taken_step n remain); [done..|apply Z.div_pos; lia| |].
  - rewrite Hqv. cbn. lia.
  - intros Hz. split; [|lia]. cbn. intros Hd0. exfalso.
    pose proof (Z.div_mod (remain mod 100) 10 ltac:(done)). pose proof (Z.mod_pos_bound (remain mod 100) 10 ltac:(done)). lia.
Qed.

(** The digits are complete. *)
Definition printed (n : Z) (st : buffer * nat) : Prop :=
  length st.1 = cap ∧ ∃ ds, written st.1 st.2 ds ∧ is_numeral 10 n ds.

Lemma last_lookup r : 0 ≤ r ≤ 9 → DECIMAL_PAIRS !! Z.to_nat (Z.land r 15 * 2 + 1) = Some (r + 48).
Proof.
  intros Hr. change (Z.land r 15) with (Z.land r (2 ^ 4 - 1)). rewrite land_low by done.
  rewrite (Z.mod_small r (2 ^ 4)) by (change (2 ^ 4) with 16; lia).
  destruct (pairs_lookup r) as [_ ->]; [lia|]. by rewrite (Z.mod_small r 10) by lia.
Qed.

Lemma fmt_last_spec buf off remain zero : fmt_state cap n (buf, off, remain) → remain ≤ 9 → 0 < Z.of_nat cap →
  zero = (n =? 0) ∨ n ≠ 0 ∧ zero = false → ∃ st, fmt_last zero (buf, off, remain) = Some st ∧ printed n st.
Proof using Hcap.
  intros (ds & Hlen & Hw & Ht) Hr Hcap0 Hz. cbn [fmt_last]. pose proof (taken_nonneg _ _ _ Ht) as Hr0.
  destruct (Z.eqb_spec remain 0) as [->|Hne]; cbn [negb orb].
  - destruct (decide (n = 0)) as [->|Hn].
    + assert (zero = true) as -> by naive_solver. assert (ds = []) as ->.
      { destruct ds as [|d ds]; [done|]. destruct (taken_head _ _ _ Ht) as [_ ?]; [done..|lia]. }
      apply written_length in Hw as Hl. cbn in Hl. destruct off as [|off]; [lia|].
      rewrite last_lookup by lia. cbn [mbind option_bind].
      destruct (write_digit buf off [] 0) as (buf' & -> & Hw'); [done|]. cbn [mbind option_bind].
      eexists. split; [done|]. split; [cbn; apply written_length in Hw'; cbn in *; lia|].
      exists [0]. split; [done|]. split_and!; [done|by apply Forall_singleton|done].
    + assert (zero = false) as -> by (destruct Hz as [-> | [_ ->]]; [by apply Z.eqb_neq | done]).
      eexists. split; [done|]. split; [done|]. exists ds. split; [done|].
      destruct Ht as [Hv Hd _ Hh]. split_and!; [lia|done|]. apply Hh; [done|]. intros ->. cbn in Hv. lia.
  - pose proof (state_room buf off remain ds 0 Hlen Hw Ht ltac:(done) ltac:(lia)). destruct off as [|off]; [lia|].
    rewrite last_lookup by lia. cbn [mbind option_bind].
    destruct (write_digit buf off ds remain) as (buf' & -> & Hw'); [done|]. cbn [mbind option_bind].
    eexists. split; [done|]. split; [apply written_length in Hw, Hw'; cbn in *; lia|].
    exists (remain :: ds). split; [done|]. destruct Ht as [Hv Hd _ _].
    split_and!; [by rewrite value_cons|apply Forall_cons; split; [unfold digit_ok; lia|done]|]. cbn. lia.
Qed.
End loops.

(** ** [_fmt_inner] *)
Lemma fmt_inner_spec size n buf : 0 ≤ n < 10 ^ Z.of_nat (length buf) → (0 < length buf)%nat → (size ≤ 1 → n ≤ 999) →
  ∃ st, _fmt_inner size n buf = Some st ∧ printed (length buf) n st.
Proof.
  intros [Hn Hcap] Hlen Hsz. unfold _fmt_inner.
  assert (Hst : fmt_state (length buf) n (buf, length buf, n)).
  { exists []. split; [done|]. split; [apply written_nil | by apply taken_start]. }
  assert (∃ buf' off' remain', (if 1 <? size then fmt_quads buf (length buf) n else Some (buf, length buf, n)) = Some (buf', off', remain') ∧
    fmt_state (length buf) n (buf', off', remain') ∧ remain' ≤ 999) as (buf1 & off1 & r1 & -> & Hst1 & Hr1).
  { destruct (Z.ltb_spec 1 size); [by apply fmt_quads_spec|]. eexists _, _, _. split; [done|]. split; [done|]. by apply Hsz. }
  cbn [mbind option_bind].
  destruct (fmt_pair_spec (length buf) n Hcap buf1 off1 r1 Hst1 Hr1) as (buf2 & off2 & r2 & -> & Hst2 & Hr2). cbn [mbind option_bind].
  apply fmt_last_spec; [done..|lia|by left].
Qed.

(** ** 128 bits *)
Lemma div_rem_spec n : 0 ≤ n < 2 ^ 128 → div_rem_1e16 n = Some (n / E16, n mod E16).
Proof.
  intros Hn. unfold div_rem_1e16. assert (HE : E16 = 10000000000000000) by done.
  pose proof (Z.div_mod n E16 ltac:(done)) as Hdm. pose proof (Z.mod_pos_bound n E16 ltac:(done)) as Hm.
  assert (Hw : ∀ x, 0 ≤ x < E16 → wrap (uint 64) x = x).
  { intros x Hx. apply wrap_id; [by right; right; right; left|]. apply uint_range. rewrite HE in Hx. change (2 ^ 64) with 18446744073709551616. lia. }
  destruct (Z.ltb_spec n E16) as [Hlt|Hge].
  { assert (0 ≤ n < E16) by (split; [apply Hn | done]). by rewrite Z.div_small, Z.mod_small, Hw. }
  assert (Hq : Z.shiftr (Z.shiftr (n * M_HIGH) 128) SH_POST = n / E16).
  { rewrite Z.shiftr_shiftr, Z.shiftr_div_pow2 by done. unfold SH_POST. symmetry.
    assert (HM : M_HIGH * E16 = 2 ^ (128 + 51) + 630438908198912) by done.
    assert (HM' : 2 ^ 128 * 630438908198912 + E16 * E16 * M_HIGH < E16 * (2 ^ (128 + 51) + M_HIGH)) by done.
    apply Z.div_unique with (n / E16 * 630438908198912 + n mod E16 * M_HIGH).
    - left. assert (0 ≤ n / E16) by (apply Z.div_pos; lia). assert (0 < M_HIGH) by done.
      split; [apply Z.add_nonneg_nonneg; apply Z.mul_nonneg_nonneg; lia|].
      assert (n mod E16 * M_HIGH ≤ (E16 - 1) * M_HIGH) by (apply Z.mul_le_mono_nonneg_r; lia).
      apply (Z.mul_lt_mono_pos_l E16); [done|]. set (W := 2 ^ (128 + 51)) in *. set (V := 2 ^ 128) in *. clearbody W V.
      rewrite HE in *. lia.
    - rewrite Hdm at 1. rewrite Z.mul_add_distr_r.
      transitivity (n / E16 * (M_HIGH * E16) + n mod E16 * M_HIGH); [ring|]. rewrite HM. ring. }
  rewrite Hq. rewrite fit_in by (apply uint_range; lia). cbn [mbind option_bind].
  rewrite fit_in by (apply uint_range; lia). cbn [mbind option_bind].
  replace (n - n / E16 * E16) with (n mod E16) by lia. by rewrite Hw.
Qed.

Lemma enc_quads_spec OFFSET k : ∀ buf ds remain, 0 ≤ remain → written buf (k * 4 + OFFSET) ds →
  ∃ buf' ds', enc_quads OFFSET buf k remain = Some buf' ∧ written buf' OFFSET (ds' ++ ds) ∧ length buf' = length buf ∧
    length ds' = (k * 4)%nat ∧ Forall (digit_ok 10) ds' ∧ value 10 ds' = remain mod 10 ^ Z.of_nat (k * 4).
Proof.
  induction k as [|k IH]; intros buf ds remain Hr Hw; cbn [enc_quads].
  { exists buf, []. by rewrite Z.mod_1_r. }
  pose proof (Z.mod_pos_bound remain 10000 ltac:(done)) as Hm.
  destruct (write_quad_spec buf (k * 4 + OFFSET) ds (remain mod 10000)) as (buf1 & -> & Hw1); [done..|]. cbn [mbind option_bind].
  destruct (IH buf1 _ (remain / 10000) ltac:(apply Z.div_pos; lia) Hw1) as (buf2 & ds2 & -> & Hw2 & Hlen & Hl2 & Hd2 & Hv2).
  destruct (quad_value (remain mod 10000) Hm) as [Hqd Hqv].
  exists buf2, (ds2 ++ quad_digits (remain mod 10000)). rewrite <- app_assoc. split; [done|]. split; [done|].
  split; [apply written_length in Hw, Hw1; rewrite Hlen, Hw, Hw1; cbn; lia|].
  split; [rewrite length_app; cbn; lia|]. split; [by apply Forall_app|].
  rewrite value_app, Hqv, Hv2. replace (Z.of_nat (S k * 4)) with (4 + Z.of_nat (k * 4)) by lia.
  rewrite Z.pow_add_r by lia. change (10 ^ 4) with 10000. rewrite Z.rem_mul_r by (try apply Z.pow_pos_nonneg; lia).
  cbn [quad_digits length]. change (10 ^ Z.of_nat 4) with 10000. lia.
Qed.

(** The 16 lowest digits of what is left *)
Lemma enc_16lsd_spec OFFSET n buf remain : fmt_state U128_MAX_DEC_N n (buf, (16 + OFFSET)%nat, remain) → 0 < remain / E16 →
  ∃ buf', enc_16lsd OFFSET buf (remain mod E16) = Some buf' ∧ fmt_state U128_MAX_DEC_N n (buf', OFFSET, remain / E16).
Proof.
  intros (ds & Hlen & Hw & Ht) Hq. unfold enc_16lsd.
  destruct (enc_quads_spec OFFSET 4 buf ds (remain mod E16)) as (buf' & ds' & -> & Hw' & Hlen' & Hl & Hd & Hv);
    [by apply Z.mod_pos_bound | done |].
  exists buf'. split; [done|]. exists (ds' ++ ds). split; [congruence|]. split; [done|].
  apply (taken_step n remain); [done..|lia| |lia].
  rewrite Hl, Hv. change (10 ^ Z.of_nat (4 * 4)) with E16. rewrite Z.mod_mod by done.
  pose proof (Z.div_mod remain E16 ltac:(done)). lia.
Qed.

Lemma fmt_inner_u128_spec n buf : 0 ≤ n < 2 ^ 128 → length buf = U128_MAX_DEC_N →
  ∃ st, _fmt_inner_u128 n buf = Some st ∧ printed U128_MAX_DEC_N n st.
Proof.
  intros Hn Hlen. assert (Hcap : n < 10 ^ Z.of_nat U128_MAX_DEC_N) by (apply Z.lt_trans with (2 ^ 128); [lia | done]).
  unfold _fmt_inner_u128. destruct (Z.eqb_spec n 0) as [->|Hn0].
  { rewrite Hlen. cbn [U128_MAX_DEC_N]. destruct (write_digit buf 38 [] 0) as (buf' & Hw & Hw').
    { change 39%nat with U128_MAX_DEC_N. rewrite <- Hlen. apply written_nil. }
    change (0 + 48) with 48 in Hw. rewrite Hw. eexists. split; [done|].
    split; [apply written_length in Hw'; exact Hw'|]. exists [0]. split; [done|]. split_and!; [done|by apply Forall_singleton|done]. }
  assert (Hdiv : ∀ m, 0 ≤ m < 2 ^ 128 → 0 ≤ m / E16 < 2 ^ 128 ∧ (m / E16 = 0 → m mod E16 = m)).
  { intros m Hm. pose proof (Z.div_mod m E16 ltac:(done)). assert (0 ≤ m / E16) by (apply Z.div_pos; [lia | done]).
    assert (m / E16 ≤ m / 1) by (apply Z.div_le_compat_l; [lia | done]). rewrite Z.div_1_r in *. lia. }
  rewrite div_rem_spec by done. cbn [mbind option_bind].
  assert (Hst : fmt_state U128_MAX_DEC_N n (buf, U128_MAX_DEC_N, n)).
  { exists []. split; [done|]. split; [rewrite <- Hlen; apply written_nil | apply taken_start, Hn]. }
  match goal with |- ∃ st, (?m ≫= _) = _ ∧ _ => assert (∃ buf' off' remain', m = Some (buf', off', remain') ∧
    fmt_state U128_MAX_DEC_N n (buf', off', remain')) as (buf1 & off1 & r1 & -> & Hst1) end.
  { destruct (Hdiv n Hn) as [Hd1 Hz1]. destruct (Z.eqb_spec (n / E16) 0) as [Hz|Hnz].
    { eexists _, _, _. split; [done|]. by rewrite Hz1. }
    destruct (enc_16lsd_spec (U128_MAX_DEC_N - 16) n buf n Hst ltac:(lia)) as (buf1 & -> & Hst1). cbn [mbind option_bind].
    rewrite div_rem_spec by lia. cbn [mbind option_bind]. destruct (Hdiv (n / E16) Hd1) as [Hd2 Hz2].
    destruct (Z.eqb_spec (n / E16 / E16) 0) as [Hzz|Hnzz].
    { eexists _, _, _. split; [done|]. by rewrite Hz2. }
    destruct (enc_16lsd_spec (U128_MAX_DEC_N - 32) n buf1 (n / E16) Hst1 ltac:(lia)) as (buf2 & -> & Hst2). cbn [mbind option_bind].
    eexists _, _, _. split; [done|]. rewrite wrap_id; [done|by right; right; right; left|]. apply uint_range. split; [lia|].
    rewrite Z.div_div by done. apply Z.div_lt_upper_bound; [done|]. apply Z.lt_trans with (2 ^ 128); [lia | done]. }
  cbn [mbind option_bind].
  destruct (fmt_quads_spec _ n Hcap off1 buf1 r1 Hst1) as (buf2 & off2 & r2 & -> & Hst2 & Hr2). cbn [mbind option_bind].
  destruct (fmt_pair_spec _ n Hcap buf2 off2 r2 Hst2 Hr2) as (buf3 & off3 & r3 & -> & Hst3 & Hr3). cbn [mbind option_bind].
  apply fmt_last_spec; [done..|by right].
Qed.

(** ** Loops that write one digit at a time *)
Definition chars (DIG_TAB : bytes) (ds : list Z) : bytes := (λ d, default 0 (DIG_TAB !! Z.to_nat d)) <$> ds.

Section radix.
Context (DIG_TAB : bytes) (Htab : (2 ≤ length DIG_TAB)%nat).
Let BASE := Z.of_nat (length DIG_TAB).

Lemma radix_loop_spec off : ∀ (l : buffer) remain (bs : bytes), length l = off → 0 ≤ remain < BASE ^ Z.of_nat off → (0 < off)%nat →
  ∃ l' ds, radix_loop DIG_TAB (l ++ (Some <$> bs)) off remain = Some (l' ++ (Some <$> chars DIG_TAB ds ++ bs), length l') ∧
    is_numeral BASE remain ds ∧ (length l' + length ds = off)%nat.
Proof using Htab.
  induction off as [|off IH]; intros l remain bs Hl Hr Hoff; [lia|]. cbn [radix_loop]. fold BASE.
  destruct (split_last l off 1) as (l1 & l2 & -> & <- & H2); [lia|]. destruct l2 as [|x []]; try done.
  pose proof (Z.mod_pos_bound remain BASE ltac:(lia)) as Hm. pose proof (Z.div_mod remain BASE ltac:(lia)).
  destruct (lookup_lt_is_Some_2 DIG_TAB (Z.to_nat (remain mod BASE))) as [b Hb]; [lia|].
  rewrite Hb, <- app_assoc. cbn [app mbind option_bind]. rewrite write_byte_middle. cbn [mbind option_bind].
  rewrite Nat2Z.inj_succ, Z.pow_succ_r in Hr by lia.
  destruct (Z.eqb_spec (remain / BASE) 0) as [Hz|Hnz].
  - exists l1, [remain mod BASE]. split; [cbn; by rewrite Hb|]. split; [|cbn; lia].
    split_and!; [cbn; lia|by apply Forall_singleton|done].
  - assert (0 ≤ remain / BASE < BASE ^ Z.of_nat (length l1)) as Hr'.
    { split; [apply Z.div_pos; lia | apply Z.div_lt_upper_bound; lia]. }
    assert (0 < length l1)%nat. { destruct (length l1); [|lia]. cbn in Hr'. lia. }
    destruct (IH l1 (remain / BASE) (b :: bs)) as (l' & ds & Hloop & (Hv & Hd & Hc) & Hlen); [done..|].
    change (Some b :: (Some <$> bs)) with (Some <$> b :: bs). rewrite Hloop.
    exists l', (ds ++ [remain mod BASE]). split.
    { unfold chars. rewrite (fmap_app _ ds). cbn [fmap list_fmap]. rewrite Hb. cbn [default]. by rewrite <- app_assoc. }
    split; [|rewrite length_app; cbn; lia].
    split_and!; [rewrite value_app, Hv; cbn; lia|apply Forall_app; split; [done|by apply Forall_singleton]|].
    destruct ds as [|d ds]; [done|]. cbn. intros ->. cbn in Hc. rewrite Hc in Hv by done. cbn in Hv. lia.
Qed.

Lemma radix_written len remain : 0 ≤ remain < BASE ^ Z.of_nat len → (0 < len)%nat →
  ∃ st ds, radix_loop DIG_TAB (uninit len) len remain = Some st ∧ is_numeral BASE remain ds ∧
    slice_buffer_to_str st.1 st.2 = Some (chars DIG_TAB ds).
Proof using Htab.
  intros Hr Hlen. destruct (radix_loop_spec len (uninit len) remain []) as (l' & ds & Hl & Hn & _); [by unfold uninit; rewrite length_replicate|done..|].
  cbn [fmap list_fmap] in Hl. rewrite app_nil_r in Hl. rewrite Hl. eexists _, ds. split; [done|]. split; [done|].
  unfold slice_buffer_to_str. rewrite decide_True by (cbn; rewrite length_app; lia). cbn [fst snd].
  by rewrite drop_app_length, all_init_Some, app_nil_r.
Qed.
End radix.

(** [in_buf_small] is the loop of the radix 10. *)
Definition decimal_digits : bytes := of_digits [0; 1; 2; 3; 4; 5; 6; 7; 8; 9].

Lemma decimal_lookup d : 0 ≤ d < 10 → decimal_digits !! Z.to_nat d = Some (d + 48).
Proof.
  intros Hd. pose (f d := bool_decide (decimal_digits !! Z.to_nat d = Some (d + 48))).
  pose proof (forallb_range f 0 10 eq_refl d Hd) as H. by apply bool_decide_eq_true in H.
Qed.

Lemma small_is_radix curr : ∀ buf n, 0 ≤ n → in_buf_small_loop buf curr n = radix_loop decimal_digits buf curr n.
Proof.
  induction curr as [|curr IH]; intros buf n Hn; [done|]. cbn [in_buf_small_loop radix_loop].
  change (Z.of_nat (length decimal_digits)) with 10. rewrite decimal_lookup by (by apply Z.mod_pos_bound). cbn [mbind option_bind].
  destruct (write_byte buf curr (n mod 10 + 48)) as [buf'|]; [|done]. cbn [mbind option_bind].
  destruct (n / 10 =? 0); [done|]. apply IH. by apply Z.div_pos.
Qed.

Lemma decimal_chars ds : Forall (digit_ok 10) ds → chars decimal_digits ds = of_digits ds.
Proof. intros H. apply list_fmap_ext. intros i d Hi. by rewrite decimal_lookup by (by apply (Forall_lookup_1 _ _ _ _ H Hi)). Qed.

(** ** Padding *)
Definition sign_of (opt : options) (is_nonnegative : bool) : bytes :=
  if is_nonnegative then if sign_plus opt then [43] else [] else [45].

(** What [pad_integral] writes: the sign, the prefix and the digits, in this order,
    with zeros after the prefix or fill characters around. *)
Definition padded (opt : options) (is_nonnegative : bool) (prefix digits out : bytes) : Prop :=
  ∃ before zeros after,
    out = before ++ sign_of opt is_nonnegative ++ (if alternate opt then prefix else []) ++ zeros ++ digits ++ after ∧
    Forall (λ c, c = fill opt) (before ++ after) ∧ Forall (λ c, c = 48) zeros ∧
    (if sign_aware_zero_pad opt then before = [] ∧ after = [] else zeros = []) ∧
    match from_option id Right (align opt) with
    | Left => before = []
    | Right => after = []
    | Center => length after - length before ≤ 1 ∧ length before ≤ length after
    end%nat ∧
    length out = Nat.max (width opt) (length (sign_of opt is_nonnegative ++ (if alternate opt then prefix else []) ++ digits)).

Lemma pad_integral_padded opt nonneg prefix digits : padded opt nonneg prefix digits (pad_integral opt nonneg prefix digits).
Proof.
  unfold pad_integral, padded. set (pre := if alternate opt then prefix else []).
  assert ((if negb nonneg then [45] else if sign_plus opt then [43] else []) = sign_of opt nonneg) as -> by (by destruct nonneg).
  set (sign := sign_of opt nonneg). rewrite !length_app.
  destruct (Nat.leb_spec (width opt) (length digits + length sign + length pre)) as [Hw|Hw].
  { exists [], [], []. cbn [app]. rewrite app_nil_r, !length_app. split; [done|]. do 2 (split; [constructor|]).
    split; [by destruct (sign_aware_zero_pad opt)|]. split; [|lia]. by destruct (from_option id Right (align opt)); cbn; try lia. }
  set (k := (width opt - (length digits + length sign + length pre))%nat).
  destruct (sign_aware_zero_pad opt).
  - exists [], (replicate k 48), []. cbn [padding align from_option id fill]. rewrite Nat.sub_diag, !app_nil_r.
    cbn [app]. split; [done|]. split; [constructor|]. split; [by apply Forall_replicate|]. split; [done|].
    split; [by destruct (from_option id Right (align opt)); cbn; try lia|]. rewrite !length_app, length_replicate. cbn [width]. lia.
  - unfold padding. set (left := match from_option id Right (align opt) with Left => 0 | Right => k | Center => k / 2 end%nat).
    assert (Hleft : (left ≤ k)%nat) by (unfold left; destruct (from_option id Right (align opt)); [lia|lia|apply Nat.Div0.div_le_upper_bound; lia]).
    exists (replicate left (fill opt)), [], (replicate (k - left) (fill opt)). cbn [app].
    split; [done|]. split; [by rewrite <- replicate_add; apply Forall_replicate|]. split; [constructor|]. split; [done|].
    split; [|rewrite !length_app, !length_replicate; lia].
    unfold left in *. destruct (from_option id Right (align opt)); [done|by rewrite Nat.sub_diag|].
    rewrite !length_replicate. pose proof (Nat.div_mod k 2 ltac:(done)). pose proof (Nat.mod_upper_bound k 2 ltac:(done)). lia.
Qed.

(** ** The lengths of the buffers *)
Lemma is_log_len base m k : 1 < base → is_log base m k → m < base ^ Z.of_nat (Z.to_nat k + 1).
Proof. intros Hb (Hk & _ & Hu). by replace (Z.of_nat (Z.to_nat k + 1)) with (k + 1) by lia. Qed.

Lemma MAX_DEC_N_spec w : width_ok w → ∃ len, MAX_DEC_N w = Some len ∧ 2 ^ w - 1 < 10 ^ Z.of_nat len ∧ (0 < len)%nat.
Proof.
  intros Hw. destruct (width_pow w Hw). unfold MAX_DEC_N, ilog10, MAX. cbn [uint signed bits].
  destruct (checked_ilog10_spec w (2 ^ w - 1)) as (k & -> & Hk); [done|lia|]. cbn [mbind option_bind].
  eexists. split; [done|]. split; [by apply is_log_len | lia].
Qed.

Lemma MAX_DIG_N_spec w base : width_ok w → 1 < base < 2 ^ w → ∃ len, MAX_DIG_N w base = Some len ∧
  2 ^ w - 1 < base ^ Z.of_nat len ∧ (0 < len)%nat.
Proof.
  intros Hw Hb. destruct (width_pow w Hw). unfold MAX_DIG_N, ilog, MAX. cbn [uint signed bits].
  rewrite (proj2 (Z.leb_le 2 base)) by lia. cbn [assert mbind option_bind].
  destruct (checked_ilog_spec w (2 ^ w - 1) base Hw ltac:(lia) Hb true) as (k & -> & Hk). cbn [mbind option_bind].
  eexists. split; [done|]. split; [apply is_log_len; [lia|done] | lia].
Qed.

Lemma abs_range t n : int_ok t → in_range t n → 0 ≤ Z.abs n < 2 ^ bits t.
Proof. intros Ht Hn. destruct (width_pow _ Ht). unfold in_range, MIN, MAX in Hn. destruct (signed t); lia. Qed.

(** ** The digits of every type *)
Lemma narrow_numbers w n : width_ok w → 0 ≤ n < 2 ^ w → size_of (uint w) ≤ 1 → n ≤ 999.
Proof.
  intros Hw Hn. unfold size_of. cbn [uint bits]. destruct Hw as [-> | [-> | [-> | [-> | ->]]]]; intros H; [|by apply Z.leb_le in H..].
  change (2 ^ 8) with 256 in Hn. lia.
Qed.

Lemma fmt_spec t n : int_ok t → 0 ≤ n < 2 ^ bits t → ∃ ds, _fmt t n = Some (of_digits ds) ∧ is_numeral 10 n ds.
Proof.
  intros Ht Hn. unfold _fmt. destruct (MAX_DEC_N_spec (bits t) Ht) as (len & Hlen & Hcap & Hpos). rewrite Hlen. cbn [mbind option_bind].
  assert (∃ cap st, (if bits t =? 128 then _fmt_inner_u128 n (uninit len) else _fmt_inner (size_of t) n (uninit len)) = Some st ∧
    printed cap n st) as (cap & [buf off] & -> & _ & ds & Hw & Hnum).
  { destruct (Z.eqb_spec (bits t) 128) as [E|].
    - exists U128_MAX_DEC_N. rewrite E in *. apply fmt_inner_u128_spec; [done|]. unfold uninit. rewrite length_replicate.
      assert (MAX_DEC_N 128 = Some 39%nat) as H39 by (vm_compute; reflexivity). rewrite H39 in Hlen. by injection Hlen as <-.
    - exists (length (uninit len)). unfold uninit in *. apply fmt_inner_spec; rewrite ?length_replicate; [lia|done|].
      by apply (narrow_numbers (bits t)). }
  cbn [mbind option_bind]. exists ds. split; [|done]. by apply slice_spec.
Qed.

Lemma format_into_spec t n : int_ok t → in_range t n →
  ∃ ds, format_into t n = Some ((if n <? 0 then [45] else []) ++ of_digits ds) ∧ is_numeral 10 (Z.abs n) ds.
Proof.
  intros Ht Hn. pose proof (abs_range t n Ht Hn) as Ha. unfold format_into, unsigned_abs.
  assert (∃ buf off ds, (if bits t =? 128 then
       st ← _fmt_inner_u128 (Z.abs n) (drop (capacity - U128_MAX_DEC_N) (uninit capacity));
       Some (take (capacity - U128_MAX_DEC_N) (uninit capacity) ++ st.1, (st.2 + (capacity - U128_MAX_DEC_N))%nat)
     else _fmt_inner (size_of t) (Z.abs n) (uninit capacity)) = Some (buf, off) ∧ (0 < off)%nat ∧ written buf off ds ∧ is_numeral 10 (Z.abs n) ds)
    as (buf & off & ds & -> & Hoff & Hw & Hnum).
  { destruct (Z.eqb_spec (bits t) 128) as [E|E].
    - rewrite E in Ha. destruct (fmt_inner_u128_spec (Z.abs n) (drop (capacity - U128_MAX_DEC_N) (uninit capacity)) Ha eq_refl)
        as ([buf off] & -> & _ & ds & Hw & Hnum). cbn [mbind option_bind fst snd] in *.
      eexists _, _, ds. split; [done|]. split; [cbn; lia|]. split; [|done]. destruct Hw as (l & -> & <-).
      exists (take (capacity - U128_MAX_DEC_N) (uninit capacity) ++ l). split; [by rewrite <- app_assoc|].
      rewrite length_app, Nat.add_comm. done.
    - assert (H64 : Z.abs n < 2 ^ 64).
      { apply Z.lt_le_trans with (2 ^ bits t); [lia|]. apply Z.pow_le_mono_r; [done|]. destruct Ht as [-> | [-> | [-> | [-> | ?]]]]; done. }
      destruct (fmt_inner_spec (size_of t) (Z.abs n) (uninit capacity)) as ([buf off] & Hf & Hl & ds & Hw & Hnum).
      { split; [lia|]. apply Z.lt_trans with (2 ^ 64); [done|]. by vm_compute. } { cbn. lia. }
      { by apply (narrow_numbers (bits t)). }
      rewrite Hf. eexists _, _, ds. split; [done|]. split; [|done]. cbn [fst snd] in *.
      destruct off; [|lia]. apply written_length in Hw as Hwl. rewrite Hl in Hwl. change (length (uninit capacity)) with 40%nat in Hwl.
      destruct Hnum as (Hv & Hd & Hc). destruct (canonical_length 10 ds ltac:(done) Hd Hc) as [Hle | ->]; [|done].
      assert (10 ^ 39 ≤ Z.abs n) by (replace 39 with (Z.of_nat (length ds) - 1) by (rewrite Nat.add_0_l in Hwl; lia); lia).
      assert (2 ^ 64 < 10 ^ 39) by done. lia. }
  cbn [mbind option_bind]. exists ds. split; [|done].
  destruct (Z.ltb_spec n 0); [|by apply slice_spec].
  destruct off as [|off]; [lia|]. destruct Hw as (l & -> & Hl). destruct (split_last l off 1) as (l1 & l2 & -> & <- & H2); [lia|].
  destruct l2 as [|x []]; try done. rewrite <- app_assoc. cbn [app]. rewrite write_byte_middle. cbn [mbind option_bind].
  unfold slice_buffer_to_str. rewrite decide_True by (rewrite length_app; lia). rewrite drop_app_length.
  by rewrite <- (all_init_Some (45 :: of_digits ds)).
Qed.
