(* ===== verification/IntParse.v ===== *)
(** Parsing of integers: [from_ascii_radix], [from_str_radix] and [from_str] of
    [core/src/num/mod.rs].

    The outer [option] of a definition is [None] where the code would panic; the
    [Result] of the code is a sum. *)

From S2P Require Import Prelude Words IntFmt IntFmtSpec.
From S2P Require Utf8.

#[local] Open Scope Z_scope.

Inductive IntErrorKind := Empty | InvalidDigit | PosOverflow | NegOverflow.

(** [char::to_digit] *)
Definition to_digit (c radix : Z) : option (option Z) :=
  match Utf8.to_digit c radix () with Ret d _ => Some d | _ => None end.

Definition can_not_overflow (t : int_ty) (radix : Z) (digits : bytes) : bool :=
  (radix <=? 16) && (Z.of_nat (length digits) <=? size_of t * 2 - (if signed t then 1 else 0)).

(** The macros [run_unchecked_loop] and [run_checked_loop]; [op] adds or subtracts. *)
Fixpoint run_unchecked_loop (t : int_ty) (radix : Z) (op : Z → Z → Z) (digits : bytes) (result : Z) : option (Z + IntErrorKind) :=
  match digits with
  | [] => Some (inl result)
  | c :: rest =>
      result ← fit t (result * wrap t radix);
      x ← to_digit c radix;
      match x with
      | None => Some (inr InvalidDigit)
      | Some x => result ← fit t (op result (wrap t x)); run_unchecked_loop t radix op rest result
      end
  end.

Fixpoint run_checked_loop (t : int_ty) (radix : Z) (op : Z → Z → Z) (overflow_err : IntErrorKind) (digits : bytes) (result : Z) :
    option (Z + IntErrorKind) :=
  match digits with
  | [] => Some (inl result)
  | c :: rest =>
      let mul := fit t (result * wrap t radix) in
      x ← to_digit c radix;
      match x with
      | None => Some (inr InvalidDigit)
      | Some x =>
          match mul with
          | None => Some (inr overflow_err)
          | Some result =>
              match fit t (op result (wrap t x)) with
              | None => Some (inr overflow_err)
              | Some result => run_checked_loop t radix op overflow_err rest result
              end
          end
      end
  end.

(** The sign, and the bytes after it *)
Definition strip_sign (t : int_ty) (src : bytes) : option (bool * bytes) :=
  match src with
  | [43] | [45] => None
  | 43 :: rest => Some (true, rest)
  | 45 :: rest => if signed t then Some (false, rest) else Some (true, src)
  | _ => Some (true, src)
  end.

Definition from_ascii_radix (t : int_ty) (src : bytes) (radix : Z) : option (Z + IntErrorKind) :=
  if (radix <? 2) || (36 <? radix) then None
  else if bool_decide (src = []) then Some (inr Empty)
  else
    match strip_sign t src with
    | None => Some (inr InvalidDigit)
    | Some (is_positive, digits) =>
        if can_not_overflow t radix digits then
          if is_positive : bool then run_unchecked_loop t radix Z.add digits 0 else run_unchecked_loop t radix Z.sub digits 0
        else
          if is_positive then run_checked_loop t radix Z.add PosOverflow digits 0
          else run_checked_loop t radix Z.sub NegOverflow digits 0
    end.

Definition from_str_radix (t : int_ty) (src : bytes) (radix : Z) : option (Z + IntErrorKind) := from_ascii_radix t src radix.
Definition from_str (t : int_ty) (src : bytes) : option (Z + IntErrorKind) := from_str_radix t src 10.

(** ** What the result should be *)
(** The value of a digit, of either case *)
Definition digit_value (radix c : Z) : option Z :=
  d ← (if (48 <=? c) && (c <=? 57) then Some (c - 48)
       else if (97 <=? c) && (c <=? 122) then Some (c - 87)
       else if (65 <=? c) && (c <=? 90) then Some (c - 55) else None);
  if d <? radix then Some d else None.

(** The digits before the first byte that is none, and whether they are all *)
Fixpoint valid_digits (radix : Z) (bs : bytes) : list Z * bool :=
  match bs with
  | [] => ([], true)
  | c :: bs =>
      match digit_value radix c with
      | None => ([], false)
      | Some d => let '(ds, all) := valid_digits radix bs in (d :: ds, all)
      end
  end.

(** The result for the bytes after the sign, when [a] has been read before them *)
Definition parsed (t : int_ty) (radix : Z) (is_positive : bool) (a : Z) (bs : bytes) : Z + IntErrorKind :=
  let '(ds, all) := valid_digits radix bs in
  let m := foldl (λ acc d, acc * radix + d) a ds in
  let v := if is_positive then m else - m in
  if decide (in_range t v) then if all : bool then inl v else inr InvalidDigit
  else inr (if is_positive then PosOverflow else NegOverflow).

Lemma to_digit_spec c radix : 0 ≤ c < 256 → 2 ≤ radix ≤ 36 → to_digit c radix = Some (digit_value radix c).
Proof.
  intros Hc Hr.
  pose (f c := forallb (λ radix, bool_decide (to_digit c radix = Some (digit_value radix c))) (seqZ 2 35)).
  assert (Hf : forallb f (seqZ 0 256) = true) by (vm_compute; reflexivity).
  pose proof (forallb_range f 0 256 Hf c Hc) as H. unfold f in H.
  pose proof (forallb_range _ 2 35 H radix ltac:(lia)) as H'. by apply bool_decide_eq_true in H'.
Qed.

Lemma digit_value_range radix c d : digit_value radix c = Some d → 0 ≤ d < radix.
Proof.
  unfold digit_value. intros H.
  destruct (Z.leb_spec 48 c), (Z.leb_spec c 57), (Z.leb_spec 97 c), (Z.leb_spec c 122), (Z.leb_spec 65 c), (Z.leb_spec c 90);
    cbn [andb mbind option_bind] in H; try done; try lia; case_match eqn:E; simplify_eq; apply Z.ltb_lt in E; lia.
Qed.

(** ** The loops *)
Definition with_sign (is_positive : bool) (m : Z) : Z := if is_positive then m else - m.

Lemma valid_digits_ok radix bs : Forall (digit_ok radix) (valid_digits radix bs).1.
Proof.
  induction bs as [|c bs IH]; [constructor|]. cbn [valid_digits]. destruct (digit_value radix c) as [d|] eqn:Hd; [|constructor].
  destruct (valid_digits radix bs) as [ds all]. constructor; [by apply digit_value_range in Hd|done].
Qed.

Lemma foldl_ge radix ds a : 1 ≤ radix → Forall (digit_ok radix) ds → 0 ≤ a → a ≤ foldl (λ acc d, acc * radix + d) a ds.
Proof.
  intros Hr Hd. revert a. induction Hd as [|d ds [Hd _] _ IH]; intros a Ha; [done|]. cbn [foldl].
  transitivity (a * radix + d); [nia|]. apply IH. nia.
Qed.

Lemma with_sign_range t is_positive m m' : int_ok t → in_range t (with_sign is_positive m') → 0 ≤ m ≤ m' → in_range t (with_sign is_positive m).
Proof. intros Ht Hr Hm. unfold with_sign in *. int_bounds t. destruct is_positive, (signed t); lia. Qed.

Section parse.
Context (t : int_ty) (radix : Z) (is_positive : bool) (Ht : int_ok t) (Hr : 2 ≤ radix ≤ 36).
Let op := if is_positive then Z.add else Z.sub.
Let err := if is_positive then PosOverflow else NegOverflow.

Lemma small_wrap x : 0 ≤ x ≤ 36 → wrap t x = x.
Proof using Ht. intros Hx. apply wrap_id; [done|]. clear - Ht Hx. int_bounds t. destruct (signed t); lia. Qed.

Lemma op_sign a x : op (with_sign is_positive a) x = with_sign is_positive (a + x) ∧
  with_sign is_positive a * radix = with_sign is_positive (a * radix).
Proof. unfold op, with_sign. destruct is_positive; lia. Qed.

(** Once a value is out of range, so are those of more digits. *)
Lemma parsed_overflow a m c d bs : digit_value radix c = Some d → 0 ≤ a → 0 ≤ m ≤ a * radix + d → ¬ in_range t (with_sign is_positive m) →
  parsed t radix is_positive a (c :: bs) = inr err.
Proof using Ht Hr.
  intros Hd Ha Hm Hout. unfold parsed. cbn [valid_digits]. rewrite Hd. pose proof (valid_digits_ok radix bs) as Hok.
  destruct (valid_digits radix bs) as [ds all]. cbn [foldl fst] in *. rewrite decide_False; [done|].
  contradict Hout. eapply with_sign_range; [done|exact Hout|]. pose proof (foldl_ge radix ds (a * radix + d) ltac:(lia) Hok). lia.
Qed.

Lemma parsed_cons a c d bs : digit_value radix c = Some d → parsed t radix is_positive a (c :: bs) = parsed t radix is_positive (a * radix + d) bs.
Proof. intros Hd. unfold parsed. cbn [valid_digits]. rewrite Hd. by destruct (valid_digits radix bs). Qed.

Lemma parsed_invalid a c bs : digit_value radix c = None → in_range t (with_sign is_positive a) → parsed t radix is_positive a (c :: bs) = inr InvalidDigit.
Proof. intros Hd Ha. unfold parsed. cbn [valid_digits]. rewrite Hd. cbn [foldl]. by rewrite decide_True. Qed.

Lemma parsed_nil a : in_range t (with_sign is_positive a) → parsed t radix is_positive a [] = inl (with_sign is_positive a).
Proof. intros Ha. unfold parsed. cbn [valid_digits foldl]. by rewrite decide_True. Qed.

Lemma run_checked_loop_spec bs : Forall byte_ok bs → ∀ a, 0 ≤ a → in_range t (with_sign is_positive a) →
  run_checked_loop t radix op err bs (with_sign is_positive a) = Some (parsed t radix is_positive a bs).
Proof using Ht Hr.
  induction 1 as [|c bs Hc _ IH]; intros a Ha Hin; cbn [run_checked_loop]; [by rewrite parsed_nil|].
  rewrite to_digit_spec by (done || lia). cbn [mbind option_bind].
  destruct (digit_value radix c) as [d|] eqn:Hd; [|by rewrite parsed_invalid].
  pose proof (digit_value_range _ _ _ Hd). rewrite (small_wrap radix), (small_wrap d) by lia. rewrite (proj2 (op_sign a 0)).
  destruct (decide (in_range t (with_sign is_positive (a * radix)))) as [H1|H1].
  2:{ rewrite fit_out by done. by rewrite (parsed_overflow a (a * radix) c d bs) by (done || nia). }
  rewrite (fit_in t _ H1), (proj1 (op_sign _ d)).
  destruct (decide (in_range t (with_sign is_positive (a * radix + d)))) as [H2|H2].
  2:{ rewrite fit_out by done. by rewrite (parsed_overflow a (a * radix + d) c d bs) by (done || nia). }
  rewrite fit_in by done. rewrite (parsed_cons a c d bs Hd). apply IH; [nia|done].
Qed.

Lemma run_unchecked_loop_spec bs : Forall byte_ok bs → ∀ a, 0 ≤ a →
  (∀ m, 0 ≤ m < (a + 1) * radix ^ Z.of_nat (length bs) → in_range t (with_sign is_positive m)) →
  run_unchecked_loop t radix op bs (with_sign is_positive a) = Some (parsed t radix is_positive a bs).
Proof using Ht Hr.
  induction 1 as [|c bs Hc _ IH]; intros a Ha Hin; cbn [run_unchecked_loop].
  { rewrite parsed_nil; [done|]. apply Hin. cbn. lia. }
  cbn [length] in Hin. rewrite Nat2Z.inj_succ, Z.pow_succ_r in Hin by lia.
  assert (Hp : 1 ≤ radix ^ Z.of_nat (length bs)) by (pose proof (Z.pow_pos_nonneg radix (Z.of_nat (length bs))); lia).
  set (P := radix ^ Z.of_nat (length bs)) in *. clearbody P.
  assert (Hle : (a + 1) * radix ≤ (a + 1) * (radix * P)) by nia.
  rewrite (small_wrap radix), (proj2 (op_sign a 0)) by lia. rewrite fit_in by (apply Hin; nia). cbn [mbind option_bind].
  rewrite to_digit_spec by (done || lia). cbn [mbind option_bind].
  destruct (digit_value radix c) as [d|] eqn:Hd; [|rewrite parsed_invalid; [done..|apply Hin; nia]].
  pose proof (digit_value_range _ _ _ Hd). rewrite (small_wrap d), (proj1 (op_sign _ d)) by lia.
  rewrite fit_in by (apply Hin; nia). cbn [mbind option_bind]. rewrite (parsed_cons a c d bs Hd).
  apply IH; [nia|]. intros m Hm. apply Hin. split; [lia|]. apply Z.lt_le_trans with ((a * radix + d + 1) * P); [lia|].
  rewrite Z.mul_assoc. apply Z.mul_le_mono_nonneg_r; nia.
Qed.

(** The test for a short text is enough. *)
Lemma can_not_overflow_spec bs : (is_positive = false → signed t = true) → can_not_overflow t radix bs = true →
  ∀ m, 0 ≤ m < (0 + 1) * radix ^ Z.of_nat (length bs) → in_range t (with_sign is_positive m).
Proof using Ht Hr.
  intros Hsg Hc m Hm. apply andb_true_iff in Hc as [Hr16%Z.leb_le Hlen%Z.leb_le].
  assert (m < 16 ^ Z.of_nat (length bs)) as Hm16.
  { apply Z.lt_le_trans with (radix ^ Z.of_nat (length bs)); [lia|]. apply Z.pow_le_mono_l. lia. }
  assert (16 ^ Z.of_nat (length bs) ≤ 2 ^ (bits t - if signed t then 4 else 0)) as Hb.
  { change 16 with (2 ^ 4). rewrite <- Z.pow_mul_r by lia. apply Z.pow_le_mono_r; [done|].
    unfold size_of in Hlen. assert (bits t = 8 * (bits t / 8)) by (destruct Ht as [-> | [-> | [-> | [-> | ->]]]]; done).
    destruct (signed t); lia. }
  assert (2 ^ (bits t - 4) ≤ 2 ^ (bits t - 1)) by (apply Z.pow_le_mono_r; lia).
  unfold with_sign, in_range, MIN, MAX. destruct (signed t); [destruct is_positive; lia|].
  destruct is_positive; [rewrite Z.sub_0_r in Hb; lia | by specialize (Hsg eq_refl)].
Qed.
End parse.

Lemma from_ascii_radix_spec t src radix : int_ok t → Forall byte_ok src → 2 ≤ radix ≤ 36 →
  from_ascii_radix t src radix = Some (
    if decide (src = []) then inr Empty
    else match strip_sign t src with
         | None => inr InvalidDigit
         | Some (is_positive, digits) => parsed t radix is_positive 0 digits
         end).
Proof.
  intros Ht Hb Hr. unfold from_ascii_radix. rewrite (proj2 (Z.ltb_ge radix 2)), (proj2 (Z.ltb_ge 36 radix)) by lia. cbn [orb].
  case_bool_decide as Hs; [by rewrite decide_True|]. rewrite decide_False by done.
  destruct (strip_sign t src) as [[is_positive digits]|] eqn:Hstrip; [|done].
  assert (Hd : Forall byte_ok digits ∧ (is_positive = false → signed t = true)).
  { unfold strip_sign in Hstrip. repeat case_match; simplify_eq; (split; [|done]); try done; by apply Forall_cons in Hb as [_ ?]. }
  destruct Hd as [Hd Hsg]. assert (H0 : in_range t 0) by (clear - Ht; int_bounds t; destruct (signed t); lia).
  destruct (can_not_overflow t radix digits) eqn:Hcan.
  - pose proof (run_unchecked_loop_spec t radix is_positive Ht Hr digits Hd 0 ltac:(done)
      (can_not_overflow_spec t radix is_positive Ht Hr digits Hsg Hcan)) as H. by destruct is_positive.
  - pose proof (run_checked_loop_spec t radix is_positive Ht Hr digits Hd 0 ltac:(done)) as H. by destruct is_positive; apply H.
Qed.
