(* ===== verification/IntTheorems.v ===== *)
(** Properties of the printing and parsing of integers, with concrete runs. *)

From S2P Require Import Prelude Words IntFmt IntFmtSpec IntParse.

#[local] Open Scope Z_scope.

(** ** Reading numerals back *)
Lemma valid_digits_map radix (f : Z → Z) ds : Forall (λ d, digit_value radix (f d) = Some d) ds → valid_digits radix (f <$> ds) = (ds, true).
Proof. induction 1 as [|d ds Hd _ IH]; [done|]. cbn [fmap list_fmap valid_digits]. rewrite Hd. by rewrite IH. Qed.

Lemma valid_of_digits ds : Forall (digit_ok 10) ds → valid_digits 10 (of_digits ds) = (ds, true).
Proof.
  intros H. apply valid_digits_map. eapply Forall_impl; [exact H|]. intros d Hd. cbn beta.
  pose (f d := bool_decide (digit_value 10 (d + 48) = Some d)).
  pose proof (forallb_range f 0 10 eq_refl d Hd) as Hf. by apply bool_decide_eq_true in Hf.
Qed.

Lemma zeros_digits zeros : Forall (λ c, c = 48) zeros → ∃ k, zeros = of_digits (replicate k 0).
Proof.
  induction 1 as [|c zeros -> _ [k ->]]; [by exists 0%nat|]. by exists (S k).
Qed.

Lemma value_zeros base k ds : value base (replicate k 0 ++ ds) = value base ds.
Proof. induction k as [|k IH]; [done|]. cbn [replicate app]. rewrite value_cons, IH. lia. Qed.

Lemma strip_unsigned t c bs : c ≠ 43 → c ≠ 45 → strip_sign t (c :: bs) = Some (true, c :: bs).
Proof. intros H1 H2. unfold strip_sign. by repeat case_match; simplify_eq. Qed.

Lemma strip_plus t c bs : strip_sign t (43 :: c :: bs) = Some (true, c :: bs).
Proof. done. Qed.

Lemma strip_minus t c bs : signed t = true → strip_sign t (45 :: c :: bs) = Some (false, c :: bs).
Proof. intros Hs. cbn. by rewrite Hs. Qed.

Lemma parsed_all t radix is_positive bs ds : valid_digits radix bs = (ds, true) → in_range t (with_sign is_positive (value radix ds)) →
  parsed t radix is_positive 0 bs = inl (with_sign is_positive (value radix ds)).
Proof. intros Hv Hr. unfold parsed. rewrite Hv. by rewrite decide_True. Qed.

Lemma bytes_of_digits ds : Forall (digit_ok 10) ds → Forall byte_ok (of_digits ds).
Proof. intros H. apply Forall_fmap. eapply Forall_impl; [exact H|]. intros d Hd. unfold byte_ok, digit_ok in *. cbn. lia. Qed.

(** A sign and the digits of a number, with leading zeros or not, are parsed to it. *)
Lemma parse_decimal t n opt ds : int_ok t → in_range t n → ds ≠ [] → Forall (digit_ok 10) ds → value 10 ds = Z.abs n →
  from_str t (sign_of opt (0 <=? n) ++ of_digits ds) = Some (inl n).
Proof.
  intros Ht Hn Hne Hd Hv. unfold from_str, from_str_radix. pose proof (bytes_of_digits ds Hd) as Hb.
  destruct ds as [|d ds]; [done|]. assert (Hd0 : 0 ≤ d < 10) by (by apply Forall_cons in Hd as [? _]).
  pose proof (valid_of_digits _ Hd) as Hval. unfold sign_of. destruct (Z.leb_spec 0 n).
  - assert (Hpar : parsed t 10 true 0 (of_digits (d :: ds)) = inl n).
    { rewrite (parsed_all _ _ _ _ _ Hval); unfold with_sign; rewrite Hv, Z.abs_eq by done; done. }
    destruct (sign_plus opt).
    + rewrite from_ascii_radix_spec by (done || (apply Forall_app; split; [by apply Forall_singleton|done])).
      cbn [of_digits fmap list_fmap app] in *. by rewrite decide_False, strip_plus, Hpar.
    + rewrite from_ascii_radix_spec by done. cbn [of_digits fmap list_fmap app] in *.
      by rewrite decide_False, strip_unsigned, Hpar by (done || lia).
  - assert (signed t = true) as Hs by (unfold in_range, MIN in Hn; destruct (signed t); [done | lia]).
    rewrite from_ascii_radix_spec by (done || (apply Forall_app; split; [by apply Forall_singleton|done])).
    assert (Hpar : parsed t 10 false 0 (of_digits (d :: ds)) = inl n).
    { rewrite (parsed_all _ _ _ _ _ Hval); unfold with_sign; rewrite Hv, Z.abs_neq, Z.opp_involutive by lia; done. }
    cbn [of_digits fmap list_fmap app] in *. by rewrite decide_False, strip_minus, Hpar.
Qed.

(** Printing with a table of digits *)
Lemma fmt_radix_spec t tab prefix opt n : int_ok t → (2 ≤ length tab ≤ 16)%nat →
  ∃ ds out, is_numeral (Z.of_nat (length tab)) (n mod 2 ^ bits t) ds ∧ fmt_radix t tab prefix opt n = Some out ∧
    padded opt true prefix (chars tab ds) out.
Proof.
  intros Ht Htab. assert (Hw : width_ok (bits t)) by done. destruct (width_pow _ Hw). unfold fmt_radix, cast_unsigned.
  destruct (MAX_DIG_N_spec (bits t) (Z.of_nat (length tab)) Hw ltac:(lia)) as (len & -> & Hlen & Hpos). cbn [mbind option_bind].
  pose proof (Z.mod_pos_bound n (2 ^ bits t) ltac:(lia)).
  destruct (radix_written tab ltac:(lia) len (wrap (uint (bits t)) n)) as (st & ds & -> & Hnum & Hs); [unfold wrap; cbn [uint signed bits]; lia|done|].
  cbn [mbind option_bind]. rewrite Hs. cbn [mbind option_bind]. exists ds. eexists. split; [done|]. split; [done|]. apply pad_integral_padded.
Qed.

(** The tables of digits *)
Definition table_ok (radix : Z) (tab : bytes) : Prop :=
  Z.of_nat (length tab) = radix ∧ 2 ≤ radix ≤ 36 ∧
  ∀ d, 0 ≤ d < radix → ∃ c, tab !! Z.to_nat d = Some c ∧ digit_value radix c = Some d ∧ 48 ≤ c < 256.

Lemma table_check radix tab : Z.of_nat (length tab) = radix → 2 ≤ radix ≤ 36 →
  forallb (λ d, match tab !! Z.to_nat d with Some c => bool_decide (digit_value radix c = Some d ∧ 48 ≤ c < 256) | None => false end) (seqZ 0 radix) = true →
  table_ok radix tab.
Proof.
  intros Hl Hr Hf. split; [done|]. split; [done|]. intros d Hd. pose proof (forallb_range _ 0 radix Hf d Hd) as H. cbn beta in H.
  destruct (tab !! Z.to_nat d) as [c|]; [|done]. apply bool_decide_eq_true in H. by exists c.
Qed.

(** A text of digits, after a plus sign or not, is read as their value by every type
    that has it, and overflows in the others. *)
Lemma parse_chars t radix tab opt ds : int_ok t → table_ok radix tab → Forall (digit_ok radix) ds → ds ≠ [] →
  from_ascii_radix t (sign_of opt true ++ chars tab ds) radix =
    Some (if decide (in_range t (value radix ds)) then inl (value radix ds) else inr PosOverflow).
Proof.
  intros Ht (Hl & Hr & Htab) Hd Hne.
  assert (Hc : Forall (λ d, digit_value radix (default 0 (tab !! Z.to_nat d)) = Some d ∧ 48 ≤ default 0 (tab !! Z.to_nat d) < 256) ds).
  { eapply Forall_impl; [exact Hd|]. intros d Hdd. destruct (Htab d Hdd) as (c & -> & ? & ?). done. }
  assert (Hb : Forall byte_ok (chars tab ds)).
  { apply Forall_fmap. eapply Forall_impl; [exact Hc|]. intros d [_ ?]. unfold byte_ok. cbn. lia. }
  assert (Hval : valid_digits radix (chars tab ds) = (ds, true)).
  { apply valid_digits_map. eapply Forall_impl; [exact Hc|]. by intros d [? _]. }
  assert (Hs : ∃ c bs, chars tab ds = c :: bs ∧ 48 ≤ c).
  { destruct ds as [|d ds]; [done|]. apply Forall_cons in Hc as [[_ Hc] _]. eexists _, _. split; [done | lia]. }
  assert (Hpar : parsed t radix true 0 (chars tab ds) = if decide (in_range t (value radix ds)) then inl (value radix ds) else inr PosOverflow)
    by (unfold parsed; by rewrite Hval).
  destruct Hs as (c & bs & Hs & ?). rewrite Hs in *. unfold sign_of. destruct (sign_plus opt); cbn [app].
  - rewrite from_ascii_radix_spec by (done || by apply Forall_cons). by rewrite decide_False, strip_plus, Hpar.
  - rewrite from_ascii_radix_spec by done. by rewrite decide_False, strip_unsigned, Hpar by (done || lia).
Qed.

(** With zeros as padding or none, nothing is written around the digits. *)
Lemma padded_zeros opt nonneg prefix digits out : sign_aware_zero_pad opt = true ∨ width opt = 0%nat → alternate opt = false ∨ prefix = [] →
  padded opt nonneg prefix digits out → ∃ k, out = sign_of opt nonneg ++ replicate k 48 ++ digits.
Proof.
  intros Hopt Hpre (before & zeros & after & -> & _ & Hz & Hsz & _ & Hlen).
  assert ((if alternate opt then prefix else []) = []) as Hp by (destruct (alternate opt); naive_solver). rewrite Hp in *.
  assert (zeros = replicate (length zeros) 48) as Hr by (symmetry; apply replicate_as_Forall; split; [done|]; by eapply Forall_impl).
  destruct Hopt as [Hopt|Hopt]; rewrite Hopt in *.
  - destruct Hsz as [-> ->]. exists (length zeros). by rewrite <- Hr, app_nil_r.
  - rewrite !length_app in Hlen. assert (length before = 0 ∧ length after = 0)%nat as [->%nil_length_inv ->%nil_length_inv] by lia.
    exists (length zeros). by rewrite <- Hr, app_nil_r.
Qed.

Lemma zeros_chars tab k : tab !! 0%nat = Some 48 → replicate k 48 = chars tab (replicate k 0).
Proof. intros H0. unfold chars. rewrite fmap_replicate. change (Z.to_nat 0) with 0%nat. by rewrite H0. Qed.

(** The value in the bits of the type *)
Lemma residue_range t n : int_ok t → in_range t n → in_range t (n mod 2 ^ bits t) ↔ 0 ≤ n.
Proof.
  intros Ht Hn. int_bounds t. split; intros Hr.
  - destruct (Z.ltb_spec n 0) as [Hneg|]; [|done]. destruct (signed t); [|lia].
    rewrite <- (Z.mod_add n 1) in Hr by lia. rewrite Z.mod_small in Hr; lia.
  - rewrite Z.mod_small; destruct (signed t); lia.
Qed.
Lemma residue_nonneg t n : int_ok t → in_range t n → 0 ≤ n → n mod 2 ^ bits t = n.
Proof. intros Ht Hn Hpos. int_bounds t. apply Z.mod_small. destruct (signed t); lia. Qed.
Lemma residue_wrap t n : int_ok t → in_range t n → wrap t (n mod 2 ^ bits t) = n.
Proof.
  intros Ht Hn. rewrite <- (wrap_id t n Ht Hn) at 2. apply wrap_cong; [done|].
  destruct (width_pow _ Ht). apply Z.mod_mod. lia.
Qed.

(** ** Properties *)

(** C28: Decimal printing: for every integer type, every value and every formatting
    options, [Display] writes the sign, the canonical numeral of the absolute value,
    and the padding asked for; the buffers are large enough, nothing overflows (the
    division of 128-bit numbers by a multiplication included), and only bytes that
    have been written are read.  [format_into], and the code of builds optimised for
    size, give the same digits. *)
Theorem display_correct (t : int_ty) (opt : options) (n : Z) (Ht : int_ok t) (Hn : in_range t n) :
  ∃ ds out, is_numeral 10 (Z.abs n) ds ∧ display t opt n = Some out ∧ padded opt (0 <=? n) [] (of_digits ds) out ∧
    format_into t n = Some ((if n <? 0 then [45] else []) ++ of_digits ds) ∧
    (bits t ≤ 64 → display_small opt n = Some out).
Proof.
  pose proof (abs_range t n Ht Hn) as Ha.
  destruct (fmt_spec t (Z.abs n) Ht Ha) as (ds & Hf & Hnum). exists ds. eexists. split; [done|].
  split; [unfold display, unsigned_abs; rewrite Hf; done|]. split; [apply pad_integral_padded|]. split.
  - destruct (format_into_spec t n Ht Hn) as (ds' & -> & Hnum'). by rewrite (numeral_unique 10 (Z.abs n) ds ds').
  - intros H64. unfold display_small, unsigned_abs.
    destruct (MAX_DEC_N_spec 64) as (len & -> & Hlen & Hpos); [by right; right; right; left|]. cbn [mbind option_bind].
    assert (Z.abs n < 2 ^ 64) by (apply Z.lt_le_trans with (2 ^ bits t); [lia | by apply Z.pow_le_mono_r]).
    unfold in_buf_small. change (length (uninit len)) with (length (replicate len (None : option Z))). rewrite length_replicate, small_is_radix by lia.
    destruct (radix_written decimal_digits ltac:(cbn; lia) len (Z.abs n)) as (st & ds' & -> & Hnum' & Hs);
      [change (Z.of_nat (length decimal_digits)) with 10; lia|done|].
    cbn [mbind option_bind]. rewrite Hs. cbn [mbind option_bind]. change (Z.of_nat (length decimal_digits)) with 10 in Hnum'.
    rewrite decimal_chars by apply Hnum'. by rewrite (numeral_unique 10 (Z.abs n) ds' ds).
Qed.

Lemma display_correct_witness :
  display (sint 8) (Options 32 None 6 None true false true) 42 = Some [43; 48; 48; 48; 52; 50] ∧
  ∃ ds out, is_numeral 10 (Z.abs (-128)) ds ∧ display (sint 8) plain (-128) = Some out ∧ padded plain (0 <=? -128) [] (of_digits ds) out ∧
    format_into (sint 8) (-128) = Some ((if -128 <? 0 then [45] else []) ++ of_digits ds) ∧
    (bits (sint 8) ≤ 64 → display_small plain (-128) = Some out).
Proof. split; [vm_compute; done|]. apply (display_correct (sint 8) plain (-128)); [by left | done]. Defined.

(** Printing in another radix: [Binary], [Octal], [LowerHex] and [UpperHex] write the
    canonical numeral of the two's-complement value in their radix, after the prefix
    if the alternate form is asked for, for every type and value. *)
Theorem radix_correct (t : int_ty) (opt : options) (n : Z) (Ht : int_ok t) :
  let prints fmt radix tab prefix := ∃ ds out, is_numeral radix (n mod 2 ^ bits t) ds ∧ fmt t opt n = Some out ∧
    padded opt true prefix (chars tab ds) out in
  prints fmt_binary 2 binary_digits [48; 98] ∧ prints fmt_octal 8 octal_digits [48; 111] ∧
  prints fmt_lower_hex 16 lower_hex_digits [48; 120] ∧ prints fmt_upper_hex 16 upper_hex_digits [48; 120].
Proof.
  cbn zeta. split_and!;
    [apply (fmt_radix_spec t binary_digits) | apply (fmt_radix_spec t octal_digits) |
     apply (fmt_radix_spec t lower_hex_digits) | apply (fmt_radix_spec t upper_hex_digits)]; done || (cbn; lia).
Qed.

Lemma radix_correct_witness :
  fmt_lower_hex (sint 16) (Options 42 (Some Center) 10 None false true false) (-2) = Some [42; 42; 48; 120; 102; 102; 102; 101; 42; 42] ∧
  ∃ ds out, is_numeral 2 (5 mod 2 ^ bits (uint 8)) ds ∧ fmt_binary (uint 8) plain 5 = Some out ∧ padded plain true [48; 98] (chars binary_digits ds) out.
Proof. split; [vm_compute; done|]. apply (radix_correct (uint 8) plain 5). by left. Defined.

(** C29: Parsing: for every type, every text and every radix from 2 to 36 (others panic),
    with [ds] the longest prefix of valid digits after the sign, the result is an
    overflow of the sign's kind if the value of [ds] is out of range, otherwise the
    value if [ds] is all there is, otherwise [InvalidDigit]; no text and a sign
    alone are [Empty] and [InvalidDigit]; the loop without checks for overflow, which
    short texts take, never overflows. *)
Theorem parse_correct (t : int_ty) (src : bytes) (radix : Z) (Ht : int_ok t) (Hsrc : Forall byte_ok src) :
  from_ascii_radix t src radix =
    if decide (2 ≤ radix ≤ 36) then
      Some (if decide (src = []) then inr Empty
            else if decide (src = [43] ∨ src = [45]) then inr InvalidDigit
            else
              let is_positive := negb (signed t && bool_decide (head src = Some 45)) in
              let digits := if is_positive && negb (bool_decide (head src = Some 43)) then src else tail src in
              let '(ds, all) := valid_digits radix digits in
              let v := if is_positive then value radix ds else - value radix ds in
              if decide (in_range t v) then if all : bool then inl v else inr InvalidDigit
              else inr (if is_positive then PosOverflow else NegOverflow))
    else None.
Proof.
  case_decide as Hr.
  2:{ unfold from_ascii_radix. destruct (Z.ltb_spec radix 2), (Z.ltb_spec 36 radix); try done. lia. }
  rewrite from_ascii_radix_spec by done. f_equal. destruct (decide (src = [])) as [|Hne]; [done|].
  destruct (decide (src = [43] ∨ src = [45])) as [[-> | ->]|Hs]; [done..|].
  change (match strip_sign t src with Some (p, ds) => parsed t radix p 0 ds | None => inr InvalidDigit end =
    parsed t radix (negb (signed t && bool_decide (head src = Some 45))) 0
      (if negb (signed t && bool_decide (head src = Some 45)) && negb (bool_decide (head src = Some 43)) then src else tail src)).
  destruct src as [|c rest]; [done|]. cbn [head tail].
  destruct (decide (c = 43)) as [->|H43].
  { destruct rest as [|c' rest]; [naive_solver|]. by rewrite andb_false_r, strip_plus. }
  rewrite (bool_decide_false (Some c = Some 43)) by naive_solver. destruct (decide (c = 45)) as [->|H45].
  { destruct rest as [|c' rest]; [naive_solver|]. destruct (signed t) eqn:Hsg; [by rewrite strip_minus|]. cbn. by rewrite Hsg. }
  rewrite strip_unsigned, (bool_decide_false (Some c = Some 45)) by naive_solver. by rewrite andb_false_r.
Qed.

Lemma parse_correct_witness :
  from_str (sint 8) [45; 49; 50; 57] = Some (inr NegOverflow) ∧ from_str (sint 8) [49; 50; 120; 57] = Some (inr InvalidDigit) ∧
  from_ascii_radix (uint 8) [122; 122; 122] 37 = None ∧
  from_ascii_radix (uint 8) [122; 122] 36 = if decide (2 ≤ 36 ≤ 36) then
      Some (if decide ([122; 122] = []) then inr Empty
            else if decide ([122; 122] = [43] ∨ [122; 122] = [45]) then inr InvalidDigit
            else
              let is_positive := negb (signed (uint 8) && bool_decide (head [122; 122] = Some 45)) in
              let digits := if is_positive && negb (bool_decide (head [122; 122] = Some 43)) then [122; 122] else tail [122; 122] in
              let '(ds, all) := valid_digits 36 digits in
              let v := if is_positive then value 36 ds else - value 36 ds in
              if decide (in_range (uint 8) v) then if all : bool then inl v else inr InvalidDigit
              else inr (if is_positive then PosOverflow else NegOverflow))
    else None.
Proof.
  split; [vm_compute; done|]. split; [vm_compute; done|]. split; [vm_compute; done|].
  apply (parse_correct (uint 8) [122; 122] 36); [by left|]. by repeat (apply Forall_cons; split; [done|]).
Defined.

(** C30: Round trip: what [Display] writes for a value, with a sign and zeros as padding if
    they are asked for, is parsed back to the value, for every type.  The other
    radixes write, without their prefix, the numeral of the two's complement: it is
    parsed back to [n mod 2 ^ bits t] as the unsigned type of the same width, of which
    a cast to the type makes the value again; as the type itself it is parsed back to
    a value that is not negative, and is a positive overflow for one that is. *)
Theorem print_parse (t : int_ty) (opt : options) (n : Z) (Ht : int_ok t) (Hn : in_range t n)
    (Hopt : sign_aware_zero_pad opt = true ∨ width opt = 0%nat) :
  (s ← display t opt n; from_str t s) = Some (inl n) ∧
  (let reads fmt radix := ∃ s, fmt t opt n = Some s ∧
     from_ascii_radix (uint (bits t)) s radix = Some (inl (n mod 2 ^ bits t)) ∧ wrap t (n mod 2 ^ bits t) = n ∧
     from_ascii_radix t s radix = Some (if 0 <=? n then inl n else inr PosOverflow) in
   alternate opt = false →
   reads fmt_binary 2 ∧ reads fmt_octal 8 ∧ reads fmt_lower_hex 16 ∧ reads fmt_upper_hex 16).
Proof.
  split.
  - destruct (fmt_spec t (Z.abs n) Ht (abs_range t n Ht Hn)) as (ds & Hf & Hv & Hd & Hc).
    unfold display, unsigned_abs. rewrite Hf. cbn [mbind option_bind].
    destruct (padded_zeros opt (0 <=? n) [] (of_digits ds) _ Hopt ltac:(by right) (pad_integral_padded _ _ _ _)) as (k & ->).
    assert (replicate k 48 = of_digits (replicate k 0)) as -> by (unfold of_digits; by rewrite fmap_replicate).
    rewrite <- of_digits_app. apply parse_decimal; [done..| | |by rewrite value_zeros].
    + destruct ds; [done|]. by destruct k.
    + apply Forall_app. split; [by apply Forall_replicate | done].
  - intros reads Halt.
    assert (Hread : ∀ tab prefix, table_ok (Z.of_nat (length tab)) tab → (length tab ≤ 16)%nat → tab !! 0%nat = Some 48 →
      reads (λ t, fmt_radix t tab prefix) (Z.of_nat (length tab))).
    { intros tab prefix Htab Hle H0. pose proof Htab as (_ & ? & _).
      destruct (fmt_radix_spec t tab prefix opt n Ht ltac:(lia)) as (ds & out & (Hv & Hd & Hc) & Hf & Hp). exists out. split; [done|].
      destruct (padded_zeros _ _ _ _ _ Hopt ltac:(by left) Hp) as (k & ->).
      rewrite (zeros_chars tab) by done. unfold chars. rewrite <- fmap_app. fold (chars tab (replicate k 0 ++ ds)).
      rewrite !parse_chars by (done || (apply Forall_app; split; [apply Forall_replicate; unfold digit_ok; lia | done]) || by destruct ds, k).
      rewrite value_zeros, Hv. split_and!.
      - rewrite decide_True; [done|]. apply uint_range. apply Z.mod_pos_bound. destruct (width_pow _ Ht). lia.
      - by apply residue_wrap.
      - destruct (Z.leb_spec 0 n) as [Hpos|Hneg].
        + by rewrite residue_nonneg, decide_True.
        + rewrite decide_False; [done|]. rewrite residue_range by done. lia. }
    split_and!;
      [apply (Hread binary_digits) | apply (Hread octal_digits) | apply (Hread lower_hex_digits) | apply (Hread upper_hex_digits)];
      (apply table_check; [done | done | vm_compute; done]) || (cbn; lia) || done.
Qed.

Lemma print_parse_witness :
  (s ← display (sint 128) plain (- 2 ^ 127); from_str (sint 128) s) = Some (inl (- 2 ^ 127)) ∧
  (s ← display (sint 16) (Options 32 None 8 None true false true) (-32768); from_str (sint 16) s) = Some (inl (-32768)) ∧
  (fmt_lower_hex (sint 8) plain (-1) = Some [102; 102] ∧ from_ascii_radix (sint 8) [102; 102] 16 = Some (inr PosOverflow)) ∧
  ∃ s, fmt_lower_hex (sint 8) plain (-1) = Some s ∧
     from_ascii_radix (uint 8) s 16 = Some (inl (-1 mod 2 ^ 8)) ∧ wrap (sint 8) (-1 mod 2 ^ 8) = -1 ∧
     from_ascii_radix (sint 8) s 16 = Some (if 0 <=? -1 then inl (-1) else inr PosOverflow).
Proof.
  split; [vm_compute; done|]. split; [|split; [by vm_compute|]].
  - apply (print_parse (sint 16) (Options 32 None 8 None true false true) (-32768)); [by right; left | done | by left].
  - apply (print_parse (sint 8) plain (-1)); [by left | done | by right | done].
Defined.
