(* ===== verification/Duration.v ===== *)
(** Spans of time: [core/src/time.rs].

    A [Duration] is a number of seconds and of nanoseconds.  As in [Words.v], [None]
    is a panic (or a broken condition of [Nanoseconds::new_unchecked]) and an
    [Option] of the code is an [option] inside; the assertions of debug builds are
    kept.  The methods on floating-point numbers are left out.  [Debug] writes the
    units [s], [ms], [µs] and [ns] as lists of characters. *)

From S2P Require Import Prelude Words IntLog IntFmt.

#[local] Open Scope Z_scope.

Record Duration := Dur { secs : Z; nanos : Z }.

#[global] Instance Duration_eq_dec : EqDecision Duration.
Proof. solve_decision. Defined.

Definition NANOS_PER_SEC : Z := 1000000000.
Definition NANOS_PER_MILLI : Z := 1000000.
Definition NANOS_PER_MICRO : Z := 1000.
Definition MILLIS_PER_SEC : Z := 1000.
Definition MICROS_PER_SEC : Z := 1000000.
Definition SECS_PER_MINUTE : Z := 60.
Definition MINS_PER_HOUR : Z := 60.
Definition HOURS_PER_DAY : Z := 24.
Definition DAYS_PER_WEEK : Z := 7.

(** [Nanoseconds::new_unchecked] *)
Definition new_unchecked (n : Z) : option Z := _ ← assert ((0 <=? n) && (n <? NANOS_PER_SEC)); Some n.

(** ** Construction *)
Definition new (s n : Z) : option Duration :=
  if n <? NANOS_PER_SEC then n ← new_unchecked n; Some (Dur s n)
  else
    s ← fit (uint 64) (s + n / NANOS_PER_SEC);
    n ← new_unchecked (n mod NANOS_PER_SEC); Some (Dur s n).

Definition from_secs (s : Z) : option Duration := Some (Dur s 0).
Definition from_millis (millis : Z) : option Duration :=
  n ← fit (uint 32) (wrap (uint 32) (millis mod MILLIS_PER_SEC) * NANOS_PER_MILLI); n ← new_unchecked n;
  Some (Dur (millis / MILLIS_PER_SEC) n).
Definition from_micros (micros : Z) : option Duration :=
  n ← fit (uint 32) (wrap (uint 32) (micros mod MICROS_PER_SEC) * NANOS_PER_MICRO); n ← new_unchecked n;
  Some (Dur (micros / MICROS_PER_SEC) n).
Definition from_nanos (n : Z) : option Duration :=
  r ← new_unchecked (wrap (uint 32) (n mod NANOS_PER_SEC)); Some (Dur (n / NANOS_PER_SEC) r).
Definition from_nanos_u128 (n : Z) : option Duration :=
  s ← fit (uint 64) (n / NANOS_PER_SEC);
  r ← new_unchecked (wrap (uint 32) (n mod NANOS_PER_SEC)); Some (Dur s r).

Definition from_weeks (weeks : Z) : option Duration :=
  if MAX (uint 64) / (SECS_PER_MINUTE * MINS_PER_HOUR * HOURS_PER_DAY * DAYS_PER_WEEK) <? weeks then None
  else
    x ← fit (uint 64) (weeks * MINS_PER_HOUR); x ← fit (uint 64) (x * SECS_PER_MINUTE);
    x ← fit (uint 64) (x * HOURS_PER_DAY); x ← fit (uint 64) (x * DAYS_PER_WEEK); from_secs x.
Definition from_days (days : Z) : option Duration :=
  if MAX (uint 64) / (SECS_PER_MINUTE * MINS_PER_HOUR * HOURS_PER_DAY) <? days then None
  else
    x ← fit (uint 64) (days * MINS_PER_HOUR); x ← fit (uint 64) (x * SECS_PER_MINUTE);
    x ← fit (uint 64) (x * HOURS_PER_DAY); from_secs x.
Definition from_hours (hours : Z) : option Duration :=
  if MAX (uint 64) / (SECS_PER_MINUTE * MINS_PER_HOUR) <? hours then None
  else x ← fit (uint 64) (hours * MINS_PER_HOUR); x ← fit (uint 64) (x * SECS_PER_MINUTE); from_secs x.
Definition from_mins (mins : Z) : option Duration :=
  if MAX (uint 64) / SECS_PER_MINUTE <? mins then None
  else x ← fit (uint 64) (mins * SECS_PER_MINUTE); from_secs x.

Definition ZERO : Duration := Dur 0 0.
Definition MAX_DURATION : Duration := Dur (MAX (uint 64)) (NANOS_PER_SEC - 1).

(** ** Parts *)
Definition is_zero (d : Duration) : bool := (secs d =? 0) && (nanos d =? 0).
Definition subsec_millis (d : Duration) : Z := nanos d / NANOS_PER_MILLI.
Definition subsec_micros (d : Duration) : Z := nanos d / NANOS_PER_MICRO.
Definition subsec_nanos (d : Duration) : Z := nanos d.
Definition as_millis (d : Duration) : option Z :=
  x ← fit (uint 128) (secs d * MILLIS_PER_SEC); fit (uint 128) (x + nanos d / NANOS_PER_MILLI).
Definition as_micros (d : Duration) : option Z :=
  x ← fit (uint 128) (secs d * MICROS_PER_SEC); fit (uint 128) (x + nanos d / NANOS_PER_MICRO).
Definition as_nanos (d : Duration) : option Z :=
  x ← fit (uint 128) (secs d * NANOS_PER_SEC); fit (uint 128) (x + nanos d).

(** ** Arithmetic *)
Definition checked_add (self rhs : Duration) : option (option Duration) :=
  match fit (uint 64) (secs self + secs rhs) with
  | Some s =>
      n ← fit (uint 32) (nanos self + nanos rhs);
      if NANOS_PER_SEC <=? n then
        n ← fit (uint 32) (n - NANOS_PER_SEC);
        match fit (uint 64) (s + 1) with
        | Some s => _ ← assert (n <? NANOS_PER_SEC); d ← new s n; Some (Some d)
        | None => Some None
        end
      else _ ← assert (n <? NANOS_PER_SEC); d ← new s n; Some (Some d)
  | None => Some None
  end.

Definition checked_sub (self rhs : Duration) : option (option Duration) :=
  match fit (uint 64) (secs self - secs rhs) with
  | Some s =>
      if nanos rhs <=? nanos self then
        n ← fit (uint 32) (nanos self - nanos rhs);
        _ ← assert (n <? NANOS_PER_SEC); d ← new s n; Some (Some d)
      else
        match fit (uint 64) (s - 1) with
        | Some s =>
            n ← fit (uint 32) (nanos self + NANOS_PER_SEC); n ← fit (uint 32) (n - nanos rhs);
            _ ← assert (n <? NANOS_PER_SEC); d ← new s n; Some (Some d)
        | None => Some None
        end
  | None => Some None
  end.

Definition checked_mul (self : Duration) (rhs : Z) : option (option Duration) :=
  total_nanos ← fit (uint 64) (nanos self * rhs);
  let extra_secs := total_nanos / NANOS_PER_SEC in
  let n := wrap (uint 32) (total_nanos mod NANOS_PER_SEC) in
  match fit (uint 64) (secs self * rhs) with
  | Some s =>
      match fit (uint 64) (s + extra_secs) with
      | Some s => _ ← assert (n <? NANOS_PER_SEC); d ← new s n; Some (Some d)
      | None => Some None
      end
  | None => Some None
  end.

Definition checked_div (self : Duration) (rhs : Z) : option (option Duration) :=
  if rhs =? 0 then Some None
  else
    let s := secs self / rhs in let extra_secs := secs self mod rhs in
    let n := nanos self / rhs in let extra_nanos := nanos self mod rhs in
    x ← fit (uint 64) (extra_secs * NANOS_PER_SEC); x ← fit (uint 64) (x + extra_nanos);
    n ← fit (uint 32) (n + wrap (uint 32) (x / rhs));
    _ ← assert (n <? NANOS_PER_SEC); d ← new s n; Some (Some d).

Definition saturating_add (self rhs : Duration) : option Duration :=
  r ← checked_add self rhs; Some (default MAX_DURATION r).
Definition saturating_sub (self rhs : Duration) : option Duration :=
  r ← checked_sub self rhs; Some (default ZERO r).
Definition saturating_mul (self : Duration) (rhs : Z) : option Duration :=
  r ← checked_mul self rhs; Some (default MAX_DURATION r).

Definition abs_diff (self other : Duration) : option Duration :=
  r ← checked_sub self other;
  match r with Some res => Some res | None => r ← checked_sub other self; r end.

(** The operators, which [+=] and the like apply to their place *)
Definition add (self rhs : Duration) : option Duration := r ← checked_add self rhs; r.
Definition sub (self rhs : Duration) : option Duration := r ← checked_sub self rhs; r.
Definition mul (self : Duration) (rhs : Z) : option Duration := r ← checked_mul self rhs; r.
Definition div (self : Duration) (rhs : Z) : option Duration := r ← checked_div self rhs; r.

(** [Sum] *)
Fixpoint sum_loop (l : list Duration) (total_secs total_nanos : Z) : option (Z * Z) :=
  match l with
  | [] => Some (total_secs, total_nanos)
  | entry :: l =>
      total_secs ← fit (uint 64) (total_secs + secs entry);
      match fit (uint 64) (total_nanos + nanos entry) with
      | Some total_nanos => sum_loop l total_secs total_nanos
      | None =>
          total_secs ← fit (uint 64) (total_secs + total_nanos / NANOS_PER_SEC);
          total_nanos ← fit (uint 64) (total_nanos mod NANOS_PER_SEC + nanos entry);
          sum_loop l total_secs total_nanos
      end
  end.
Definition sum (l : list Duration) : option Duration :=
  '(total_secs, total_nanos) ← sum_loop l 0 0;
  total_secs ← fit (uint 64) (total_secs + total_nanos / NANOS_PER_SEC);
  new total_secs (wrap (uint 32) (total_nanos mod NANOS_PER_SEC)).

(** ** Printing of spans of time: [Debug] of [Duration] in [core/src/time.rs], and
    [Formatter::pad] of [core/src/fmt/mod.rs].  The conventions are those of
    [IntFmt.v]; a string is the list of its characters. *)

(** [Formatter::pad] *)
Definition pad (opt : options) (s : bytes) : bytes :=
  if (width opt =? 0)%nat && bool_decide (precision opt = None) then s
  else
    let '(s, char_count) :=
      match precision opt with
      | Some max_char_count => (take max_char_count s, (max_char_count - (max_char_count - length s))%nat)
      | None => (s, length s)
      end in
    if (char_count <? width opt)%nat then
      let '(pre, post) := padding opt (width opt - char_count) Left in pre ++ s ++ post
    else s.

(** [buf[pos] = b] *)
Definition store (buf : bytes) (pos : nat) (b : Z) : option bytes :=
  if decide (pos < length buf)%nat then Some (<[pos := b]> buf) else None.

(** The loop that writes the digits; it panics before it has run [fuel] = 10 times,
    because [buf] has 9 bytes. *)
Fixpoint digits_loop (fuel : nat) (precision : nat) (buf : bytes) (pos : nat) (fractional_part divisor : Z) :
    option (bytes * nat * Z * Z) :=
  if (0 <? fractional_part) && (pos <? precision)%nat then
    match fuel with
    | O => None
    | S fuel =>
        q ← Words.div (uint 32) fractional_part divisor; b ← fit (uint 8) (48 + wrap (uint 8) q);
        buf ← store buf pos b; r ← rem (uint 32) fractional_part divisor;
        digits_loop fuel precision buf (pos + 1) r (divisor / 10)
    end
  else Some (buf, pos, fractional_part, divisor).

(** The loop that rounds up; it also returns the carry. *)
Fixpoint carry_loop (buf : bytes) (rev_pos : nat) : option (bytes * bool) :=
  match rev_pos with
  | O => Some (buf, true)
  | S rev_pos =>
      b ← buf !! rev_pos;
      if b <? 57 then buf ← store buf rev_pos (b + 1); Some (buf, false)
      else buf ← store buf rev_pos 48; carry_loop buf rev_pos
  end.

(** The rounded integer part, where [None] is [u64::MAX + 1]: a half is rounded up,
    not to even as in the floating-point numbers that the code's comment refers to. *)
Definition round (buf : bytes) (pos : nat) (fractional_part divisor integer_part : Z) : option (bytes * option Z) :=
  up ← (if 0 <? fractional_part then half ← fit (uint 32) (divisor * 5); Some (half <=? fractional_part) else Some false);
  if (up : bool) then
    '(buf, carry) ← carry_loop buf pos;
    Some (buf, if (carry : bool) then fit (uint 64) (integer_part + 1) else Some integer_part)
  else Some (buf, Some integer_part).

Definition TWO_POW_64 : bytes := of_digits [1;8;4;4;6;7;4;4;0;7;3;7;0;9;5;5;1;6;1;6].

Definition emit_without_padding (opt : options) (prefix postfix : bytes) (integer_part : option Z)
    (buf : bytes) (pos end_ : nat) : option bytes :=
  int ← match integer_part with Some i => display (uint 64) plain i | None => Some TWO_POW_64 end;
  let w := default pos (precision opt) in
  let frac :=
    if (0 <? end_)%nat then 46 :: pad (Options 48 (Some Left) w None false false false) (take end_ buf) else [] in
  Some (prefix ++ int ++ frac ++ postfix).

Definition fmt_decimal (opt : options) (integer_part fractional_part divisor : Z) (prefix postfix : bytes) : option bytes :=
  '(buf, pos, fractional_part, divisor) ←
    digits_loop 10 (default 9%nat (precision opt)) (replicate 9 48) 0 fractional_part divisor;
  '(buf, integer_part) ← round buf pos fractional_part divisor integer_part;
  let end_ := default pos ((λ p, Nat.min p 9) <$> precision opt) in
  out ← emit_without_padding opt prefix postfix integer_part buf pos end_;
  if (width opt =? 0)%nat then Some out
  else
    int_w ← match integer_part with
            | Some i => log ← checked_ilog10 64 i; Some (match log with Some l => 1 + Z.to_nat l | None => 1 end)%nat
            | None => Some 20%nat
            end;
    let frac_part_w := default pos (precision opt) in
    let actual_w :=
      (length prefix + length postfix + int_w + if (0 <? end_)%nat then 1 + frac_part_w else 0)%nat in
    if (width opt <=? actual_w)%nat then Some out
    else let '(pre, post) := padding opt (width opt - actual_w) Left in Some (pre ++ out ++ post).

(** [Debug] *)
Definition debug (opt : options) (self : Duration) : option bytes :=
  let prefix := if sign_plus opt then [43] else [] in
  if 0 <? secs self then fmt_decimal opt (secs self) (nanos self) (NANOS_PER_SEC / 10) prefix [115]
  else if NANOS_PER_MILLI <=? nanos self then
    fmt_decimal opt (nanos self / NANOS_PER_MILLI) (nanos self mod NANOS_PER_MILLI) (NANOS_PER_MILLI / 10) prefix [109; 115]
  else if NANOS_PER_MICRO <=? nanos self then
    fmt_decimal opt (nanos self / NANOS_PER_MICRO) (nanos self mod NANOS_PER_MICRO) (NANOS_PER_MICRO / 10) prefix [181; 115]
  else fmt_decimal opt (nanos self) 0 1 prefix [110; 115].

Example debug_ms : debug plain (Dur 0 100020000) = Some ([49; 48; 48; 46; 48; 50] ++ [109; 115]).
Proof. vm_compute. reflexivity. Qed.
Example debug_max : debug (Options 32 None 0 (Some 0%nat) false false false) MAX_DURATION = Some (TWO_POW_64 ++ [115]).
Proof. vm_compute. reflexivity. Qed.
