(* ===== verification/DurationSpec.v ===== *)
(** Durations as numbers of nanoseconds: the abstract state of a [Duration] is its
    [total], and an operation is exact arithmetic on totals that fails when the
    result is not the total of a duration. *)

From S2P Require Import Prelude Words IntSqrt IntLog IntFmt Duration.

#[local] Open Scope Z_scope.

Definition dur_ok (d : Duration) : Prop := 0 ≤ secs d < 2 ^ 64 ∧ 0 ≤ nanos d < NANOS_PER_SEC.
Definition total (d : Duration) : Z := secs d * NANOS_PER_SEC + nanos d.
Definition of_total (n : Z) : Duration := Dur (n / NANOS_PER_SEC) (n mod NANOS_PER_SEC).

(** The totals of durations are the numbers below [LIMIT]. *)
Definition LIMIT : Z := 2 ^ 64 * NANOS_PER_SEC.
Definition dur (n : Z) : option Duration := if decide (0 ≤ n < LIMIT) then Some (of_total n) else None.
(** The nearest duration *)
Definition clamp (n : Z) : Duration := of_total (Z.max 0 (Z.min n (LIMIT - 1))).

#[local] Ltac consts := unfold NANOS_PER_SEC, NANOS_PER_MILLI, NANOS_PER_MICRO, MILLIS_PER_SEC, MICROS_PER_SEC,
  SECS_PER_MINUTE, MINS_PER_HOUR, HOURS_PER_DAY, DAYS_PER_WEEK in *; change (2 ^ 64) with 18446744073709551616 in *;
  change (2 ^ 32) with 4294967296 in *.

Lemma total_of_total n : total (of_total n) = n.
Proof. unfold total, of_total. cbn [secs nanos]. pose proof (Z.div_mod n NANOS_PER_SEC). consts. lia. Qed.

Lemma of_total_intro s n : 0 ≤ n < NANOS_PER_SEC → of_total (s * NANOS_PER_SEC + n) = Dur s n.
Proof.
  intros Hn. unfold of_total.
  rewrite Z.add_comm, Z.div_add, Z_mod_plus_full, Z.div_small, Z.mod_small by (consts; lia). by rewrite Z.add_0_l.
Qed.

Lemma of_total_total d : dur_ok d → of_total (total d) = d.
Proof. intros [? ?]. unfold total. rewrite of_total_intro by done. by destruct d. Qed.

Lemma of_total_ok n : 0 ≤ n < LIMIT → dur_ok (of_total n).
Proof.
  intros Hn. unfold LIMIT in *. split; cbn [of_total secs nanos]; [|apply Z.mod_pos_bound; consts; lia].
  pose proof (Z.div_mod n NANOS_PER_SEC). pose proof (Z.mod_pos_bound n NANOS_PER_SEC). consts. lia.
Qed.

Lemma total_range d : dur_ok d → 0 ≤ total d < LIMIT.
Proof. intros [? ?]. unfold total, LIMIT in *. consts. lia. Qed.

Lemma dur_Some n d : dur n = Some d → dur_ok d ∧ total d = n.
Proof.
  unfold dur. case_decide; [|done]. intros [= <-]. split; [by apply of_total_ok | apply total_of_total].
Qed.

(** The ways in which a computation ends in [dur] *)
Lemma dur_in n s r : n = s * NANOS_PER_SEC + r → 0 ≤ s < 2 ^ 64 → 0 ≤ r < NANOS_PER_SEC → dur n = Some (Dur s r).
Proof.
  intros -> Hs Hr. unfold dur. rewrite of_total_intro by done. apply decide_True. unfold LIMIT. consts. lia.
Qed.
Lemma dur_out n : n < 0 ∨ LIMIT ≤ n → dur n = None.
Proof. intros. apply decide_False. lia. Qed.

Lemma fit_u64 x : fit (uint 64) x = if decide (0 ≤ x < 2 ^ 64) then Some x else None.
Proof. case_decide; [by apply fit_in, uint_range | by apply fit_out; rewrite uint_range]. Qed.
Lemma wrap_u w x : 0 ≤ x < 2 ^ w → wrap (uint w) x = x.
Proof. intros. unfold wrap. by apply Z.mod_small. Qed.

Lemma new_unchecked_ok n : 0 ≤ n < NANOS_PER_SEC → new_unchecked n = Some n.
Proof. intros []. unfold new_unchecked. by rewrite (proj2 (Z.leb_le 0 n)), (proj2 (Z.ltb_lt n NANOS_PER_SEC)). Qed.

Lemma new_spec s n : 0 ≤ s < 2 ^ 64 → 0 ≤ n < 2 ^ 32 → new s n = dur (s * NANOS_PER_SEC + n).
Proof.
  intros Hs Hn. unfold new. case (Z.ltb_spec n NANOS_PER_SEC) as [Hlt | Hge].
  - rewrite new_unchecked_ok by lia. symmetry. apply dur_in; [done | done | lia].
  - rewrite fit_u64. pose proof (Z.div_mod n NANOS_PER_SEC) as Hd. pose proof (Z.mod_pos_bound n NANOS_PER_SEC) as Hm.
    consts. case_decide; cbn [mbind option_bind].
    + rewrite new_unchecked_ok by (consts; lia). symmetry. apply dur_in; consts; lia.
    + symmetry. apply dur_out. unfold LIMIT. consts. lia.
Qed.

(** [new] after a check that leaves no carry *)
Lemma new_small s n : 0 ≤ n < NANOS_PER_SEC → new s n = Some (Dur s n).
Proof. intros []. unfold new. rewrite (proj2 (Z.ltb_lt n NANOS_PER_SEC)) by done. by rewrite new_unchecked_ok. Qed.

#[local] Ltac in_dur := symmetry; apply dur_in; unfold total in *; consts; lia.
#[local] Ltac out_dur := symmetry; apply dur_out; unfold total, LIMIT in *; consts; lia.
#[local] Ltac fits := cbn [mbind option_bind];
  match goal with |- _ _ (fit (uint ?w) ?x) = _ => rewrite (fit_u w x) by (consts; lia) end; cbn [mbind option_bind].

Lemma from_nanos_spec n : 0 ≤ n < 2 ^ 64 → from_nanos n = dur n.
Proof.
  intros Hn. unfold from_nanos. pose proof (Z.div_mod n NANOS_PER_SEC). pose proof (Z.mod_pos_bound n NANOS_PER_SEC).
  consts. rewrite wrap_u by (consts; lia). rewrite new_unchecked_ok by (consts; lia). in_dur.
Qed.
Lemma from_nanos_u128_spec n : 0 ≤ n → from_nanos_u128 n = dur n.
Proof.
  intros Hn. unfold from_nanos_u128. pose proof (Z.div_mod n NANOS_PER_SEC) as Hd. pose proof (Z.mod_pos_bound n NANOS_PER_SEC).
  rewrite fit_u64. consts. case_decide; cbn [mbind option_bind]; [|out_dur].
  rewrite wrap_u by (consts; lia). rewrite new_unchecked_ok by (consts; lia). in_dur.
Qed.
Lemma from_secs_spec n : 0 ≤ n < 2 ^ 64 → from_secs n = dur (n * NANOS_PER_SEC).
Proof. intros. in_dur. Qed.
Lemma from_millis_spec n : 0 ≤ n < 2 ^ 64 → from_millis n = dur (n * NANOS_PER_MILLI).
Proof.
  intros Hn. unfold from_millis. pose proof (Z.div_mod n MILLIS_PER_SEC). pose proof (Z.mod_pos_bound n MILLIS_PER_SEC).
  consts. rewrite wrap_u by (consts; lia). fits. rewrite new_unchecked_ok by (consts; lia). in_dur.
Qed.
Lemma from_micros_spec n : 0 ≤ n < 2 ^ 64 → from_micros n = dur (n * NANOS_PER_MICRO).
Proof.
  intros Hn. unfold from_micros. pose proof (Z.div_mod n MICROS_PER_SEC). pose proof (Z.mod_pos_bound n MICROS_PER_SEC).
  consts. rewrite wrap_u by (consts; lia). fits. rewrite new_unchecked_ok by (consts; lia). in_dur.
Qed.

(** Weeks, days, hours and minutes: the guard is the overflow of the product. *)
Lemma from_weeks_spec n : 0 ≤ n < 2 ^ 64 → from_weeks n = dur (n * 604800 * NANOS_PER_SEC).
Proof.
  intros Hn. unfold from_weeks, from_secs. cbn [SECS_PER_MINUTE MINS_PER_HOUR HOURS_PER_DAY DAYS_PER_WEEK].
  change (MAX (uint 64) / _) with 30500568904943. consts.
  case (Z.ltb_spec 30500568904943 n) as [? | ?]; [out_dur|]. fits. fits. fits. fits. in_dur.
Qed.
Lemma from_days_spec n : 0 ≤ n < 2 ^ 64 → from_days n = dur (n * 86400 * NANOS_PER_SEC).
Proof.
  intros Hn. unfold from_days, from_secs. change (MAX (uint 64) / _) with 213503982334601. consts.
  case (Z.ltb_spec 213503982334601 n) as [? | ?]; [out_dur|]. fits. fits. fits. in_dur.
Qed.
Lemma from_hours_spec n : 0 ≤ n < 2 ^ 64 → from_hours n = dur (n * 3600 * NANOS_PER_SEC).
Proof.
  intros Hn. unfold from_hours, from_secs. change (MAX (uint 64) / _) with 5124095576030431. consts.
  case (Z.ltb_spec 5124095576030431 n) as [? | ?]; [out_dur|]. fits. fits. in_dur.
Qed.
Lemma from_mins_spec n : 0 ≤ n < 2 ^ 64 → from_mins n = dur (n * 60 * NANOS_PER_SEC).
Proof.
  intros Hn. unfold from_mins, from_secs. change (MAX (uint 64) / _) with 307445734561825860. consts.
  case (Z.ltb_spec 307445734561825860 n) as [? | ?]; [out_dur|]. fits. in_dur.
Qed.

(** ** Parts *)
Lemma is_zero_spec d : dur_ok d → is_zero d = (total d =? 0).
Proof. intros [? ?]. unfold is_zero, total. apply eq_bool_prop_intro. rewrite andb_True, !Is_true_true, !Z.eqb_eq. consts. lia. Qed.

(** A unit of [u] nanoseconds, [k] of which make a second *)
Lemma total_units d u k : dur_ok d → k * u = NANOS_PER_SEC → 0 < u → 0 < k →
  total d / u = secs d * k + nanos d / u ∧ total d / u mod k = nanos d / u.
Proof.
  intros [? ?] Hk Hu Hk0. unfold total. rewrite <- Hk.
  replace (secs d * (k * u) + nanos d) with (nanos d + secs d * k * u) by lia. rewrite Z.div_add by lia.
  split; [lia|]. rewrite Z_mod_plus_full. apply Z.mod_small.
  split; [apply Z.div_pos; lia | apply Z.div_lt_upper_bound; lia].
Qed.

Lemma as_units d u k : dur_ok d → k * u = NANOS_PER_SEC → 0 < u → 0 < k →
  (x ← fit (uint 128) (secs d * k); fit (uint 128) (x + nanos d / u)) = Some (total d / u).
Proof.
  intros Hd Hk Hu Hk0. destruct (total_units d u k) as [-> _]; [done..|]. destruct Hd as [? ?].
  assert (0 ≤ nanos d / u ≤ nanos d) by (split; [apply Z.div_pos; lia | apply Z.div_le_upper_bound; nia]).
  assert (k ≤ NANOS_PER_SEC) by nia. consts. change (2 ^ 128) with 340282366920938463463374607431768211456.
  rewrite fit_u by (change (2 ^ 128) with 340282366920938463463374607431768211456; nia). cbn [mbind option_bind].
  apply fit_u. change (2 ^ 128) with 340282366920938463463374607431768211456. nia.
Qed.

Lemma parts_spec d : dur_ok d →
  (as_millis d = Some (total d / NANOS_PER_MILLI) ∧ as_micros d = Some (total d / NANOS_PER_MICRO) ∧ as_nanos d = Some (total d)) ∧
  (secs d = total d / NANOS_PER_SEC ∧ subsec_millis d = total d / NANOS_PER_MILLI mod MILLIS_PER_SEC ∧
   subsec_micros d = total d / NANOS_PER_MICRO mod MICROS_PER_SEC ∧ subsec_nanos d = total d mod NANOS_PER_SEC).
Proof.
  intros Hd. split; split_and!.
  - by apply as_units.
  - by apply as_units.
  - pose proof (as_units d 1 NANOS_PER_SEC Hd eq_refl eq_refl eq_refl) as H. by rewrite !Z.div_1_r in H.
  - by rewrite <- (of_total_total d Hd) at 1.
  - symmetry. by apply total_units.
  - symmetry. by apply total_units.
  - unfold subsec_nanos. by rewrite <- (of_total_total d Hd) at 1.
Qed.

(** ** Arithmetic *)
Section arithmetic.
Context (a b : Duration) (Ha : dur_ok a) (Hb : dur_ok b).

#[local] Ltac checked := rewrite ?fit_u64; consts; repeat (case_decide; cbn [mbind option_bind]; try (f_equal; out_dur); try lia).
#[local] Ltac compare_nanos := match goal with |- context [?x <=? ?y] => destruct (Z.leb_spec x y) as [? | ?] end.
#[local] Ltac build := unfold assert; match goal with |- context [?x <? ?y] => rewrite (proj2 (Z.ltb_lt x y)) by (consts; lia) end;
  cbn [mbind option_bind]; rewrite new_small by (consts; lia); cbn [mbind option_bind]; f_equal; in_dur.

Lemma checked_add_spec : checked_add a b = Some (dur (total a + total b)).
Proof.
  destruct Ha as [? ?], Hb as [? ?]. unfold checked_add. checked. fits.
  compare_nanos; [|build]. fits. checked. build.
Qed.

Lemma checked_sub_spec : checked_sub a b = Some (dur (total a - total b)).
Proof.
  destruct Ha as [? ?], Hb as [? ?]. unfold checked_sub. checked.
  compare_nanos; [fits; build|]. checked. fits. fits. build.
Qed.

Lemma checked_mul_spec rhs : 0 ≤ rhs < 2 ^ 32 → checked_mul a rhs = Some (dur (total a * rhs)).
Proof.
  intros Hr. destruct Ha as [? ?]. unfold checked_mul.
  assert (Hp : 0 ≤ nanos a * rhs ≤ NANOS_PER_SEC * rhs) by (consts; nia).
  assert (Hp' : 0 ≤ secs a * rhs) by nia.
  assert (Ht : total a * rhs = secs a * rhs * NANOS_PER_SEC + nanos a * rhs) by (unfold total; lia). rewrite Ht; clear Ht.
  set (p := nanos a * rhs) in *. set (q := secs a * rhs) in *. clearbody p q.
  pose proof (Z.div_mod p NANOS_PER_SEC). pose proof (Z.mod_pos_bound p NANOS_PER_SEC).
  consts. fits. rewrite wrap_u by (consts; lia). checked. checked. build.
Qed.

Lemma checked_div_spec rhs : 0 < rhs < 2 ^ 32 → checked_div a rhs = Some (dur (total a / rhs)).
Proof.
  intros Hr. destruct Ha as [Has Han]. unfold checked_div. rewrite (proj2 (Z.eqb_neq rhs 0)) by lia.
  pose proof (Z.div_mod (secs a) rhs) as Hs. pose proof (Z.mod_pos_bound (secs a) rhs) as Hsb.
  pose proof (Z.div_mod (nanos a) rhs) as Hn. pose proof (Z.mod_pos_bound (nanos a) rhs) as Hnb.
  assert (Hsq : 0 ≤ secs a / rhs ≤ secs a) by (split; [apply Z.div_pos; lia | apply Z.div_le_upper_bound; nia]).
  assert (Hnq : 0 ≤ nanos a / rhs ≤ nanos a) by (split; [apply Z.div_pos; lia | apply Z.div_le_upper_bound; nia]).
  set (s := secs a / rhs) in *. set (es := secs a mod rhs) in *. set (n := nanos a / rhs) in *. set (en := nanos a mod rhs) in *.
  set (x := es * NANOS_PER_SEC + en).
  assert (Hx : x / rhs < NANOS_PER_SEC - n).
  { apply Z.div_lt_upper_bound; [lia|]. unfold x. consts.
    assert (es * 1000000000 ≤ (rhs - 1) * 1000000000) by lia. assert (rhs * n + en < 1000000000) by lia. lia. }
  assert (Hx0 : 0 ≤ x / rhs) by (apply Z.div_pos; unfold x; consts; lia).
  assert (Ht : total a / rhs = s * NANOS_PER_SEC + (n + x / rhs)).
  { unfold total. rewrite Hs, Hn by lia.
    replace ((rhs * s + es) * NANOS_PER_SEC + (rhs * n + en)) with (x + (s * NANOS_PER_SEC + n) * rhs) by (unfold x; lia).
    rewrite Z.div_add; lia. }
  assert (Hesb : 0 ≤ es < rhs ∧ 0 ≤ en < rhs) by lia.
  assert (Hes : 0 ≤ es * NANOS_PER_SEC < 2 ^ 64) by (clear - Hesb Hr; clearbody es en; consts; lia).
  assert (Hx' : 0 ≤ x < 2 ^ 64) by (unfold x; clear - Hesb Hr; clearbody es en; consts; lia).
  rewrite (fit_u 64 (es * NANOS_PER_SEC) Hes). cbn [mbind option_bind]. fold x. rewrite (fit_u 64 x Hx'). cbn [mbind option_bind].
  rewrite Ht. generalize (x / rhs) Hx Hx0. clearbody s n. clear - Has Han Hsq Hnq. intros y Hy Hy0.
  rewrite wrap_u by (consts; lia). fits.
  unfold assert. rewrite (proj2 (Z.ltb_lt _ _)) by (consts; lia). cbn [mbind option_bind].
  rewrite new_small by (consts; lia). cbn [mbind option_bind]. f_equal. symmetry. apply dur_in; consts; lia.
Qed.

End arithmetic.

(** Saturation and distance *)
Lemma saturate_high n : 0 ≤ n → default MAX_DURATION (dur n) = clamp n.
Proof.
  intros Hn. unfold dur, clamp. case_decide; cbn [default from_option id].
  - by rewrite Z.min_l, Z.max_r by lia.
  - by rewrite Z.min_r by lia.
Qed.
Lemma saturate_low n : n < LIMIT → default ZERO (dur n) = clamp n.
Proof.
  intros Hn. unfold dur, clamp. rewrite Z.min_l by lia. case_decide; cbn [default from_option id].
  - by rewrite Z.max_r by lia.
  - by rewrite Z.max_l by lia.
Qed.

Lemma dur_abs_diff_spec a b : dur_ok a → dur_ok b → abs_diff a b = dur (Z.abs (total a - total b)).
Proof.
  intros Ha Hb. unfold abs_diff. rewrite !checked_sub_spec by done. cbn [mbind option_bind].
  pose proof (total_range a Ha). pose proof (total_range b Hb). unfold dur at 1. case_decide as Hd.
  - rewrite Z.abs_eq by lia. unfold dur. by rewrite decide_True.
  - f_equal. lia.
Qed.

(** ** Sums *)
Definition total_sum (l : list Duration) : Z := foldr (λ d n, total d + n) 0 l.

Lemma total_sum_nonneg l : Forall dur_ok l → 0 ≤ total_sum l.
Proof. induction 1 as [|d l Hd _ IH]; cbn [total_sum foldr]; [lia|]. pose proof (total_range d Hd). fold (total_sum l). lia. Qed.

Lemma sum_loop_spec l : Forall dur_ok l → ∀ ts tn, 0 ≤ ts < 2 ^ 64 → 0 ≤ tn < 2 ^ 64 →
  match sum_loop l ts tn with
  | Some (ts', tn') => (0 ≤ ts' < 2 ^ 64 ∧ 0 ≤ tn' < 2 ^ 64) ∧ ts' * NANOS_PER_SEC + tn' = ts * NANOS_PER_SEC + tn + total_sum l
  | None => LIMIT ≤ ts * NANOS_PER_SEC + tn + total_sum l
  end.
Proof.
  induction 1 as [|d l Hd Hl IH]; intros ts tn Hts Htn; cbn [sum_loop total_sum foldr]; [lia|].
  fold (total_sum l). pose proof (total_sum_nonneg l Hl) as Hsum. destruct Hd as [Hds Hdn]. unfold total.
  rewrite (fit_u64 (ts + secs d)). case_decide; cbn [mbind option_bind]; [|unfold LIMIT; consts; lia].
  rewrite (fit_u64 (tn + nanos d)). case_decide.
  - specialize (IH (ts + secs d) (tn + nanos d)). destruct (sum_loop l _ _) as [[ts' tn']|]; [split; [apply IH; lia|]|]; consts; lia.
  - pose proof (Z.div_mod tn NANOS_PER_SEC). pose proof (Z.mod_pos_bound tn NANOS_PER_SEC).
    set (q := tn / NANOS_PER_SEC) in *. set (r := tn mod NANOS_PER_SEC) in *. clearbody q r.
    rewrite (fit_u64 (ts + secs d + q)). case_decide; cbn [mbind option_bind]; [|unfold LIMIT; consts; lia].
    rewrite (fit_u64 (r + nanos d)). rewrite decide_True by (consts; lia). cbn [mbind option_bind].
    specialize (IH (ts + secs d + q) (r + nanos d)).
    destruct (sum_loop l _ _) as [[ts' tn']|]; [split; [apply IH; consts; lia|]|]; consts; lia.
Qed.

Lemma sum_spec l : Forall dur_ok l → sum l = dur (total_sum l).
Proof.
  intros Hl. unfold sum. pose proof (sum_loop_spec l Hl 0 0 ltac:(done) ltac:(done)) as H.
  destruct (sum_loop l 0 0) as [[ts tn]|]; cbn [mbind option_bind]; [|symmetry; apply dur_out; lia].
  destruct H as [[Hts Htn] H]. pose proof (Z.div_mod tn NANOS_PER_SEC). pose proof (Z.mod_pos_bound tn NANOS_PER_SEC).
  replace (total_sum l) with (ts * NANOS_PER_SEC + tn) by lia.
  set (q := tn / NANOS_PER_SEC) in *. set (r := tn mod NANOS_PER_SEC) in *. clearbody q r.
  rewrite fit_u64. case_decide; cbn [mbind option_bind]; [|out_dur].
  rewrite wrap_u by (consts; lia). rewrite new_small by (consts; lia). in_dur.
Qed.
