(* ===== verification/DurationFmtSpec.v ===== *)
(** What [Debug] of a duration writes: a decimal fraction of the unit, exact or
    rounded half up. *)

From S2P Require Import Prelude Words IntSqrt IntLog IntFmt IntFmtSpec Duration DurationSpec.

#[local] Open Scope Z_scope.

(** ** The digits *)
Definition zeros (k : nat) : list Z := replicate k 0.

Lemma value_zeros_r ds k : value 10 (ds ++ zeros k) = value 10 ds * 10 ^ Z.of_nat k.
Proof.
  rewrite value_app. unfold zeros. rewrite length_replicate.
  assert (value 10 (replicate k 0) = 0) as ->; [|lia]. induction k as [|k IH]; [done|]. cbn [replicate]. rewrite value_cons, IH. lia.
Qed.

Lemma of_digits_zeros k : replicate k 48 = of_digits (zeros k).
Proof. unfold of_digits, zeros. by rewrite fmap_replicate. Qed.

(** The buffer with the digits [ds] *)
Definition buf_of (ds : list Z) : bytes := of_digits (ds ++ zeros (9 - length ds)).

Lemma buf_store ds d : (length ds < 9)%nat → store (buf_of ds) (length ds) (48 + d) = Some (buf_of (ds ++ [d])).
Proof.
  intros Hlen. unfold store, buf_of. rewrite decide_True by (unfold of_digits, zeros; rewrite length_fmap, length_app, length_replicate; lia).
  f_equal. rewrite length_app. cbn [length]. replace (9 - length ds)%nat with (S (9 - (length ds + 1)))%nat by lia. cbn [zeros replicate].
  rewrite !of_digits_app, <- (Nat.add_0_r (length ds)) at 1. unfold of_digits at 1 2. rewrite <- (length_fmap (λ d, d + 48) ds) at 1.
  rewrite insert_app_r. cbn. rewrite <- app_assoc. cbn. f_equal. f_equal. lia.
Qed.

Lemma pow10_S j : 10 ^ Z.of_nat (S j) = 10 * 10 ^ Z.of_nat j ∧ 10 ^ Z.of_nat (S j) / 10 = 10 ^ Z.of_nat j.
Proof. rewrite Nat2Z.inj_succ, Z.pow_succ_r by lia. split; [done|]. rewrite Z.mul_comm. by apply Z.div_mul. Qed.

Lemma pow10_bound j : (j ≤ 9)%nat → 1 ≤ 10 ^ Z.of_nat j ≤ 1000000000.
Proof. intros Hj. split; [apply (Z.pow_le_mono_r 10 0); lia|]. apply (Z.pow_le_mono_r 10 _ 9); lia. Qed.

(** The divisor is the weight of the next of [j] digits. *)
Definition divisor_ok (j : nat) (frac divisor : Z) : Prop := frac = 0 ∨ divisor = 10 ^ Z.of_nat j / 10.

Lemma digits_loop_spec prec j : ∀ fuel ds frac divisor, (j ≤ fuel)%nat → (length ds + j ≤ 9)%nat → 0 ≤ frac < 10 ^ Z.of_nat j →
  divisor_ok j frac divisor → (length ds ≤ prec)%nat →
  ∃ ds' j' frac' divisor',
    digits_loop fuel prec (buf_of ds) (length ds) frac divisor = Some (buf_of (ds ++ ds'), length (ds ++ ds'), frac', divisor') ∧
    divisor_ok j' frac' divisor' ∧ j = (length ds' + j')%nat ∧ Forall (digit_ok 10) ds' ∧
    frac = value 10 ds' * 10 ^ Z.of_nat j' + frac' ∧ 0 ≤ frac' < 10 ^ Z.of_nat j' ∧ (length ds + length ds' ≤ prec)%nat ∧
    if decide (frac' = 0) then last ds' ≠ Some 0 else (length ds + length ds')%nat = prec.
Proof.
  induction j as [|j IH]; intros fuel ds frac divisor Hfuel Hlen Hfrac Hdiv Hprec.
  - exists [], 0%nat, frac, divisor. rewrite app_nil_r. change (10 ^ Z.of_nat 0) with 1 in *. assert (frac = 0) as -> by lia.
    split; [by destruct fuel|]. cbn [length]. split_and!; try done; lia.
  - destruct (decide (0 < frac ∧ (length ds < prec)%nat)) as [[Hpos Hp]|Hstop].
    2:{ exists [], (S j), frac, divisor. rewrite app_nil_r.
        assert (digits_loop fuel prec (buf_of ds) (length ds) frac divisor = Some (buf_of ds, length ds, frac, divisor)) as ->.
        { destruct (Z.ltb_spec 0 frac) as [?|?], (Nat.ltb_spec (length ds) prec) as [?|?]; try lia;
            destruct fuel; cbn [digits_loop]; rewrite ?(proj2 (Z.ltb_ge 0 frac)), ?(proj2 (Nat.ltb_ge (length ds) prec)), ?andb_false_r by lia; done. }
        cbn [length]. change (value 10 []) with 0. split_and!; try done; try lia. case_decide; [done|lia]. }
    destruct fuel as [|fuel]; [lia|]. destruct Hdiv as [-> | ->]; [lia|]. destruct (pow10_S j) as [HS ->].
    pose proof (pow10_bound j ltac:(lia)) as Hb. set (P := 10 ^ Z.of_nat j) in *.
    assert (Hq : 0 ≤ frac / P < 10) by (split; [apply Z.div_pos; lia | apply Z.div_lt_upper_bound; lia]).
    pose proof (Z.div_mod frac P ltac:(lia)) as Hdm. pose proof (Z.mod_pos_bound frac P ltac:(lia)) as Hr.
    cbn [digits_loop]. rewrite (proj2 (Z.ltb_lt 0 frac)), (proj2 (Nat.ltb_lt (length ds) prec)) by lia. cbn [andb].
    assert (Hdiv' : Words.div (uint 32) frac P = Some (frac / P)).
    { unfold Words.div. rewrite (proj2 (Z.eqb_neq P 0)) by lia. rewrite Z.quot_div_nonneg by lia. apply fit_u. change (2 ^ 32) with 4294967296. lia. }
    unfold rem. rewrite Hdiv'. cbn [mbind option_bind]. rewrite wrap_u by (change (2 ^ 8) with 256; lia).
    rewrite fit_u by (change (2 ^ 8) with 256; lia). cbn [mbind option_bind]. rewrite buf_store by lia. cbn [mbind option_bind].
    rewrite Z.rem_mod_nonneg by lia. set (d := frac / P) in *. set (r := frac mod P) in *.
    destruct (IH fuel (ds ++ [d]) r (P / 10)) as (ds' & j' & frac' & divisor' & Hrun & Hdiv & Hj & Hds & Hval & Hf & Hlp & Hend);
      [lia | rewrite length_app; cbn; lia | lia | by right | rewrite length_app; cbn; lia |].
    rewrite length_app in Hrun, Hlp, Hend. cbn [length] in Hrun, Hlp, Hend. rewrite <- !app_assoc in Hrun.
    exists ([d] ++ ds'), j', frac', divisor'. split; [done|]. rewrite !length_app. cbn [length app]. rewrite value_cons.
    split_and!; try done; try lia; [by constructor| |].
    + rewrite Hdm, Hval. unfold P. replace (Z.of_nat j) with (Z.of_nat (length ds') + Z.of_nat j') by lia. rewrite Z.pow_add_r by lia. lia.
    + case_decide as Hz; [|lia]. destruct ds' as [|d' ds']; [|done]. cbn [last]. intros [= Hd]. rewrite Hd in Hdm. cbn in Hval.
      change (value 10 []) with 0 in Hval. lia.
Qed.

(** ** Rounding *)
Lemma carry_loop_spec ds : ∀ r, Forall (digit_ok 10) ds →
  ∃ ds' c, carry_loop (of_digits ds ++ r) (length ds) = Some (of_digits ds' ++ r, c) ∧ Forall (digit_ok 10) ds' ∧
    length ds' = length ds ∧ value 10 ds + 1 = (if (c : bool) then 10 ^ Z.of_nat (length ds) else 0) + value 10 ds'.
Proof.
  induction ds as [|d ds IH] using rev_ind; intros r Hds.
  { exists [], true. done. }
  apply Forall_app in Hds as [Hds Hd]. apply Forall_cons in Hd as [Hd _]. unfold digit_ok in Hd.
  rewrite length_app. cbn [length]. rewrite Nat.add_1_r. cbn [carry_loop]. rewrite of_digits_app, <- app_assoc. cbn [app of_digits fmap list_fmap].
  assert (Hlen : length (of_digits ds) = length ds) by apply length_fmap.
  rewrite lookup_app_r, Hlen, Nat.sub_diag by lia. cbn [lookup list_lookup mbind option_bind].
  assert (Hst : ∀ b, store (of_digits ds ++ (d + 48) :: r) (length ds) b = Some (of_digits ds ++ b :: r)).
  { intros b. unfold store. rewrite decide_True by (rewrite length_app, Hlen; cbn; lia). f_equal.
    rewrite <- Hlen. rewrite <- (Nat.add_0_r (length (of_digits ds))). by rewrite insert_app_r. }
  rewrite !Hst. destruct (Z.ltb_spec (d + 48) 57) as [Hlt|Hge]; cbn [mbind option_bind].
  - exists (ds ++ [d + 1]), false. rewrite of_digits_app, <- app_assoc, !length_app, !value_app. cbn [app of_digits fmap list_fmap length].
    split; [by replace (d + 48 + 1) with (d + 1 + 48) by lia|].
    split; [apply Forall_app; split; [done|]; apply Forall_singleton; unfold digit_ok; lia|]. split; [lia|].
    change (value 10 [d]) with d. change (value 10 [d + 1]) with (d + 1). lia.
  - assert (d = 9) as -> by lia. destruct (IH (48 :: r) Hds) as (ds' & c & -> & Hds' & Hl & Hv).
    exists (ds' ++ [0]), c. rewrite of_digits_app, <- app_assoc, !length_app, !value_app. cbn [app of_digits fmap list_fmap length].
    split; [done|]. split; [apply Forall_app; split; [done|]; by apply Forall_singleton|]. split; [lia|].
    destruct (pow10_S (length ds)) as [HS _]. change (value 10 [9]) with 9. change (value 10 [0]) with 0. change (10 ^ Z.of_nat 1) with 10.
    replace (length ds + 1)%nat with (S (length ds)) by lia. rewrite HS. destruct c; lia.
Qed.

(** [2 ^ 64] is what the rounded integer part is when it is too large for [u64]. *)
Definition rounded (i : option Z) : Z := default (2 ^ 64) i.

Lemma round_spec ds frac divisor i j : Forall (digit_ok 10) ds → (length ds + j ≤ 9)%nat → 0 ≤ frac < 10 ^ Z.of_nat j →
  divisor_ok j frac divisor → 0 ≤ i < 2 ^ 64 →
  ∃ ds' i', round (buf_of ds) (length ds) frac divisor i = Some (buf_of ds', i') ∧ Forall (digit_ok 10) ds' ∧ length ds' = length ds ∧
    (∀ i'', i' = Some i'' → 0 ≤ i'' < 2 ^ 64) ∧ (frac = 0 → ds' = ds) ∧
    rounded i' * 10 ^ Z.of_nat (length ds) + value 10 ds' =
      i * 10 ^ Z.of_nat (length ds) + value 10 ds + (if decide (10 ^ Z.of_nat j ≤ 2 * frac) then 1 else 0).
Proof.
  intros Hds Hlen Hfrac Hdiv Hi. unfold round. destruct (Z.ltb_spec 0 frac) as [Hpos|Hz]; cbn [mbind option_bind].
  2:{ assert (frac = 0) as -> by lia. exists ds, (Some i). cbn [rounded default from_option id].
      pose proof (pow10_bound j ltac:(lia)). rewrite decide_False by lia. split_and!; try done; [naive_solver | lia]. }
  destruct j as [|j]; [change (10 ^ Z.of_nat 0) with 1 in *; lia|]. destruct Hdiv as [-> | ->]; [lia|].
  destruct (pow10_S j) as [HS ->].
  assert (1 ≤ 10 ^ Z.of_nat j ≤ 100000000) by (split; [apply (Z.pow_le_mono_r 10 0) | apply (Z.pow_le_mono_r 10 _ 8)]; lia).
  rewrite HS in *. set (P := 10 ^ Z.of_nat j) in *. clearbody P.
  rewrite (fit_u 32 (P * 5)) by (change (2 ^ 32) with 4294967296; lia). cbn [mbind option_bind].
  destruct (Z.leb_spec (P * 5) frac) as [Hup|Hdown]; cbn [mbind option_bind].
  - unfold buf_of at 1. rewrite of_digits_app.
    destruct (carry_loop_spec ds (of_digits (zeros (9 - length ds))) Hds) as (ds' & c & -> & Hds' & Hl & Hv). cbn [mbind option_bind].
    exists ds', (if c then fit (uint 64) (i + 1) else Some i). rewrite decide_True by lia.
    split; [by unfold buf_of; rewrite of_digits_app, Hl|]. split; [done|]. split; [done|]. split; [|split; [lia|]].
    + intros i''. destruct c; [rewrite fit_u64; case_decide|]; naive_solver.
    + destruct c; [|cbn; lia]. rewrite fit_u64. case_decide; cbn [rounded default from_option id]; [lia|].
      assert (i = 2 ^ 64 - 1) as -> by lia. lia.
  - exists ds, (Some i). rewrite decide_False by lia. cbn [rounded default from_option id]. split_and!; try done; [naive_solver | lia].
Qed.

(** ** The parts of the output *)
(** [N] units of [10 ^ -k] are shown as the integer [I] and the decimals [F]: exactly,
    without zeros at the end, or rounded half up to the decimals asked for. *)
Definition shown (k : nat) (N : Z) (precision : option nat) (I : Z) (F : list Z) : Prop :=
  Forall (digit_ok 10) F ∧
  match precision with
  | None => (∃ j, k = (length F + j)%nat ∧ (I * 10 ^ Z.of_nat (length F) + value 10 F) * 10 ^ Z.of_nat j = N) ∧ last F ≠ Some 0
  | Some p =>
      length F = p ∧ I * 10 ^ Z.of_nat p + value 10 F = (2 * N * 10 ^ Z.of_nat p + 10 ^ Z.of_nat k) / (2 * 10 ^ Z.of_nat k)
  end.

Definition point (F : list Z) : bytes := match F with [] => [] | _ => 46 :: of_digits F end.

(** Padding to a width, on the right unless another alignment is asked for *)
Definition aligned (opt : options) (body out : bytes) : Prop :=
  ∃ before after,
    out = before ++ body ++ after ∧ Forall (λ c, c = fill opt) (before ++ after) ∧
    match from_option id Left (align opt) with
    | Left => before = []
    | Right => after = []
    | Center => length after - length before ≤ 1 ∧ length before ≤ length after
    end%nat ∧
    length out = Nat.max (width opt) (length body).

Lemma padding_aligned opt body n : (width opt = length body + n)%nat →
  aligned opt body (let '(pre, post) := padding opt n Left in pre ++ body ++ post).
Proof.
  intros Hw. unfold padding, aligned. set (left := match from_option id Left (align opt) with Left => 0 | Right => n | Center => n / 2 end%nat).
  assert (Hleft : (left ≤ n)%nat) by (unfold left; destruct (from_option id Left (align opt)); [lia|lia|apply Nat.Div0.div_le_upper_bound; lia]).
  exists (replicate left (fill opt)), (replicate (n - left) (fill opt)).
  split; [done|]. split; [by rewrite <- replicate_add; apply Forall_replicate|].
  split; [|rewrite !length_app, !length_replicate; lia].
  unfold left in *. destruct (from_option id Left (align opt)); [done|by rewrite Nat.sub_diag|].
  rewrite !length_replicate. pose proof (Nat.div_mod n 2 ltac:(done)). pose proof (Nat.mod_upper_bound n 2 ltac:(done)). lia.
Qed.

Lemma not_padded opt body : (width opt ≤ length body)%nat → aligned opt body body.
Proof.
  intros Hw. exists [], []. rewrite app_nil_r. split; [done|]. split; [constructor|]. split; [|cbn; lia].
  by destruct (from_option id Left (align opt)); cbn; try lia.
Qed.

Lemma pad_zeros w s : pad (Options 48 (Some Left) w None false false false) s = s ++ replicate (w - length s) 48.
Proof.
  unfold pad. cbn [width precision padding align from_option id fill]. rewrite Nat.sub_0_r. cbn [replicate app].
  destruct w as [|w]; [by rewrite app_nil_r|]. cbn [Nat.eqb andb].
  destruct (Nat.ltb_spec (length s) (S w)) as [?|?]; [done|]. replace (S w - length s)%nat with 0%nat by lia. by rewrite app_nil_r.
Qed.

(** The integer part, its numeral and its number of digits *)
Lemma numeral_length n ds k : is_log 10 n k → is_numeral 10 n ds → length ds = (1 + Z.to_nat k)%nat.
Proof.
  intros (Hk & Hl & Hu) (Hv & Hd & Hc). pose proof (value_bound 10 ds ltac:(lia) Hd) as Hb. rewrite Hv in Hb.
  destruct (canonical_length 10 ds ltac:(lia) Hd Hc) as [Hlen | ->].
  - rewrite Hv in Hlen.
    assert (k < Z.of_nat (length ds)) by (apply (Z.pow_lt_mono_r_iff 10); lia).
    assert (Z.of_nat (length ds) - 1 < k + 1) by (apply (Z.pow_lt_mono_r_iff 10); lia). lia.
  - cbn in Hv. subst n. assert (1 ≤ 10 ^ k) by (apply (Z.pow_le_mono_r 10 0); lia). lia.
Qed.

Definition int_width (i : option Z) : option nat :=
  match i with
  | Some i => log ← checked_ilog10 64 i; Some (match log with Some l => 1 + Z.to_nat l | None => 1 end)%nat
  | None => Some 20%nat
  end.

Lemma numeral_0 : is_numeral 10 0 [0].
Proof. split; [done|]. split; [|done]. apply Forall_cons. split; [done | constructor]. Qed.

Lemma integer_part_spec i : (∀ i', i = Some i' → 0 ≤ i' < 2 ^ 64) →
  ∃ ints, is_numeral 10 (rounded i) ints ∧ int_width i = Some (length ints) ∧
    match i with Some i => display (uint 64) plain i | None => Some TWO_POW_64 end = Some (of_digits ints).
Proof.
  intros Hi. destruct i as [i|].
  2:{ exists [1;8;4;4;6;7;4;4;0;7;3;7;0;9;5;5;1;6;1;6]. split; [|done]. split; [by vm_compute|]. split; [|done].
      apply (bool_decide_unpack _). vm_compute. done. }
  specialize (Hi i eq_refl). assert (Hw : width_ok 64) by (by right; right; right; left).
  destruct (fmt_spec (uint 64) i Hw Hi) as (ds & Hf & Hnum). exists ds. split; [done|].
  unfold display, unsigned_abs. rewrite Z.abs_eq, Hf by lia. rewrite (proj2 (Z.leb_le 0 i)) by lia.
  split; [|by cbn; rewrite app_nil_r || done]. cbn [int_width]. unfold checked_ilog10.
  destruct (Z.eqb_spec i 0) as [->|Hn].
  - pose proof numeral_0 as H0.
    cbn [mbind option_bind]. by rewrite (numeral_unique 10 0 ds [0] ltac:(lia) Hnum H0).
  - destruct (log10_of_width_spec 64 i Hw ltac:(lia)) as (k & -> & Hk). cbn [mbind option_bind]. by rewrite (numeral_length i ds k).
Qed.

(** ** All together *)
Definition decimals (precision : option nat) (ds : list Z) : list Z :=
  match precision with None => ds | Some p => ds ++ zeros (p - length ds) end.

Section decimal.
Context (opt : options) (ds : list Z) (Hds : (length ds ≤ 9)%nat)
  (Hp : ∀ p, precision opt = Some p → (length ds ≤ p)%nat).

#[local] Abbreviation pos := (length ds).
#[local] Abbreviation end_ := (default pos ((λ p, Nat.min p 9) <$> precision opt)).

Lemma decimals_length : length (decimals (precision opt) ds) = default pos (precision opt).
Proof using Hds Hp.
  unfold decimals. destruct (precision opt) as [p|]; cbn [default from_option id]; [|done].
  specialize (Hp p eq_refl). rewrite length_app. unfold zeros. rewrite length_replicate. lia.
Qed.

Lemma end_pos : (0 <? end_)%nat = negb (bool_decide (decimals (precision opt) ds = [])).
Proof using Hds Hp.
  pose proof decimals_length as Hl. destruct (decimals (precision opt) ds) as [|d F]; destruct (precision opt) as [p|]; cbn in Hl |- *;
    rewrite <- ?Hl; done || (destruct p; done).
Qed.

Lemma fraction_written :
  (if (0 <? end_)%nat then 46 :: pad (Options 48 (Some Left) (default pos (precision opt)) None false false false) (take end_ (buf_of ds)) else []) =
  point (decimals (precision opt) ds).
Proof using Hds Hp.
  rewrite end_pos. case_bool_decide as HF; cbn [negb]; [by rewrite HF|]. rewrite pad_zeros.
  assert (Hpt : point (decimals (precision opt) ds) = 46 :: of_digits (decimals (precision opt) ds)) by (by destruct (decimals _ _)).
  rewrite Hpt. f_equal. unfold buf_of, decimals in *. destruct (precision opt) as [p|]; cbn [default from_option id fmap option_fmap option_map].
  - specialize (Hp p eq_refl). unfold of_digits at 1 2. rewrite <- fmap_take, take_app_ge by lia.
    unfold zeros. rewrite take_replicate, length_fmap, length_app, length_replicate.
    rewrite Nat.min_l by lia. fold (of_digits (ds ++ replicate (Nat.min p 9 - pos) 0)). rewrite of_digits_zeros, <- of_digits_app, <- app_assoc.
    unfold zeros. rewrite <- replicate_add. do 3 f_equal. lia.
  - unfold of_digits at 1 2. rewrite <- fmap_take, take_app_length, length_fmap, Nat.sub_diag. cbn [replicate]. apply app_nil_r.
Qed.
End decimal.

Lemma value_decimals p ds : value 10 (ds ++ zeros (p - length ds)) = value 10 ds * 10 ^ Z.of_nat (p - length ds).
Proof. apply value_zeros_r. Qed.

(** The rounded number is the nearest one with the decimals asked for. *)
Lemma shown_intro prec ds ds' j frac i I' :
  (length ds + j ≤ 9)%nat → Forall (digit_ok 10) ds' → length ds' = length ds → 0 ≤ frac < 10 ^ Z.of_nat j →
  (length ds ≤ default 9 prec)%nat → (if decide (frac = 0) then last ds ≠ Some 0 else length ds = default 9%nat prec) → (frac = 0 → ds' = ds) →
  I' * 10 ^ Z.of_nat (length ds) + value 10 ds' = i * 10 ^ Z.of_nat (length ds) + value 10 ds + (if decide (10 ^ Z.of_nat j ≤ 2 * frac) then 1 else 0) →
  shown (length ds + j) ((i * 10 ^ Z.of_nat (length ds) + value 10 ds) * 10 ^ Z.of_nat j + frac) prec I' (decimals prec ds').
Proof.
  intros Hlen Hds' Hl Hfrac Hle Hend Hsame Hval. pose proof (pow10_bound j ltac:(lia)) as Hj.
  set (X := i * 10 ^ Z.of_nat (length ds) + value 10 ds) in *. clearbody X.
  destruct prec as [p|]; cbn [default from_option id] in Hle, Hend; unfold shown, decimals.
  - split; [apply Forall_app; split; [done|]; unfold zeros; by apply Forall_replicate|].
    rewrite length_app. unfold zeros at 1. rewrite length_replicate. split; [lia|].
    rewrite value_decimals, Hl. rewrite !Nat2Z.inj_add, !Z.pow_add_r by lia.
    destruct (decide (frac = 0)) as [-> | Hnz].
    + rewrite (decide_False (P := _ ≤ 2 * 0)) in Hval by lia. rewrite Z.add_0_r in *.
      replace (Z.of_nat p) with (Z.of_nat (length ds) + Z.of_nat (p - length ds)) by lia. rewrite Z.pow_add_r by lia.
      assert (1 ≤ 10 ^ Z.of_nat (length ds)) by (apply (Z.pow_le_mono_r 10 0); lia).
      set (A := 10 ^ Z.of_nat (length ds)) in *. set (B := 10 ^ Z.of_nat (p - length ds)) in *. set (C := 10 ^ Z.of_nat j) in *.
      clearbody A B C. rewrite Z.mul_assoc, <- Z.mul_add_distr_r, Hval.
      assert (1 ≤ A * C) by nia. apply (Z.div_unique_pos _ _ _ (A * C)); [lia|]. ring.
    + subst p. rewrite Nat.sub_diag. change (10 ^ Z.of_nat 0) with 1. rewrite Z.mul_1_r, Hval.
      assert (1 ≤ 10 ^ Z.of_nat (length ds)) by (apply (Z.pow_le_mono_r 10 0); lia).
      set (A := 10 ^ Z.of_nat (length ds)) in *. set (C := 10 ^ Z.of_nat j) in *. clearbody A C.
      replace (2 * (X * C + frac) * A + A * C) with ((2 * (X * C + frac) + C) * A) by ring.
      replace (2 * (A * C)) with (2 * C * A) by ring. rewrite Z.div_mul_cancel_r by lia.
      case_decide.
      * apply (Z.div_unique_pos _ _ _ (2 * frac - C)); [lia|ring].
      * apply (Z.div_unique_pos _ _ _ (2 * frac + C)); [lia|ring].
  - split; [done|]. rewrite Hl. destruct (decide (frac = 0)) as [-> | Hnz].
    + rewrite (decide_False (P := _ ≤ 2 * 0)) in Hval by lia. rewrite (Hsame eq_refl) in *. split; [|done]. exists j. split; [done|]. rewrite Hval. ring.
    + assert (j = 0%nat) as -> by lia. change (10 ^ Z.of_nat 0) with 1 in *. lia.
Qed.

Lemma fmt_decimal_spec opt i frac divisor k prefix postfix :
  (k ≤ 9)%nat → 0 ≤ frac < 10 ^ Z.of_nat k → divisor_ok k frac divisor → 0 ≤ i < 2 ^ 64 →
  ∃ ints F out, is_numeral 10 (value 10 ints) ints ∧ shown k (i * 10 ^ Z.of_nat k + frac) (precision opt) (value 10 ints) F ∧
    fmt_decimal opt i frac divisor prefix postfix = Some out ∧ aligned opt (prefix ++ of_digits ints ++ point F ++ postfix) out.
Proof.
  intros Hk Hfrac Hdiv Hi. unfold fmt_decimal.
  destruct (digits_loop_spec (default 9%nat (precision opt)) k 10 [] frac divisor) as
    (ds & j & frac' & divisor' & Hrun & Hdiv' & -> & Hds & Hval & Hf & Hle & Hend); [lia | cbn; lia | done | done | cbn; lia |].
  change (buf_of []) with (replicate 9 48) in Hrun. cbn [app length] in Hrun, Hle, Hend. rewrite Nat.add_0_l in *.
  rewrite Hrun. cbn [mbind option_bind].
  destruct (round_spec ds frac' divisor' i j) as (ds' & i' & -> & Hds' & Hl & Hi' & Hsame & Hround); [done..|]. cbn [mbind option_bind].
  destruct (integer_part_spec i' Hi') as (ints & Hnum & Hwid & Hint). unfold emit_without_padding. rewrite Hint. cbn [mbind option_bind].
  fold (int_width i'). rewrite Hwid. cbn [mbind option_bind].
  assert (Hp : ∀ p, precision opt = Some p → (length ds' ≤ p)%nat) by (intros p Hpr; rewrite Hpr in Hle; cbn in Hle; lia).
  pose proof (fraction_written opt ds' ltac:(lia) Hp) as Hfw. pose proof (decimals_length opt ds' ltac:(lia) Hp) as Hdl.
  pose proof (end_pos opt ds' ltac:(lia) Hp) as Hep. rewrite Hl in Hfw, Hdl, Hep. rewrite Hfw, Hep, <- Hdl. clear Hfw Hep.
  set (F := decimals (precision opt) ds') in *. set (body := prefix ++ of_digits ints ++ point F ++ postfix).
  assert (Hbody : length body = (length prefix + length postfix + length ints + if negb (bool_decide (F = [])) then 1 + length F else 0)%nat).
  { unfold body. rewrite !length_app. unfold of_digits at 1. rewrite length_fmap. destruct F as [|d F']; cbn [bool_decide negb point length]; [cbn; lia|].
    unfold of_digits. rewrite length_fmap. cbn. lia. }
  assert (Hshown : shown (length ds + j) (i * 10 ^ Z.of_nat (length ds + j) + frac) (precision opt) (rounded i') F).
  { replace (i * 10 ^ Z.of_nat (length ds + j) + frac) with ((i * 10 ^ Z.of_nat (length ds) + value 10 ds) * 10 ^ Z.of_nat j + frac')
      by (rewrite Nat2Z.inj_add, Z.pow_add_r, Hval by lia; ring).
    by apply shown_intro. }
  exists ints, F. pose proof Hnum as (Hv & _). rewrite <- Hbody, Hv.
  destruct (Nat.eqb_spec (width opt) 0) as [Hw|Hw].
  { exists body. split; [done|]. split; [done|]. split; [done|]. apply not_padded. lia. }
  destruct (Nat.leb_spec (width opt) (length body)) as [Hw'|Hw'].
  { exists body. split; [done|]. split; [done|]. split; [done|]. by apply not_padded. }
  pose proof (padding_aligned opt body (width opt - length body) ltac:(lia)) as Hal.
  destruct (padding opt (width opt - length body) Left) as [pre post]. by exists (pre ++ body ++ post).
Qed.

(** The unit that is shown: its number of decimals, the number of nanoseconds, its name *)
Definition unit_of (d : Duration) : nat * Z * bytes :=
  if 0 <? secs d then (9%nat, total d, [115])
  else if NANOS_PER_MILLI <=? nanos d then (6%nat, nanos d, [109; 115])
  else if NANOS_PER_MICRO <=? nanos d then (3%nat, nanos d, [181; 115])
  else (0%nat, nanos d, [110; 115]).

Lemma debug_spec opt d : dur_ok d →
  let '(k, N, unit) := unit_of d in
  ∃ ints F out, is_numeral 10 (value 10 ints) ints ∧ shown k N (precision opt) (value 10 ints) F ∧
    debug opt d = Some out ∧ aligned opt ((if sign_plus opt then [43] else []) ++ of_digits ints ++ point F ++ unit) out.
Proof.
  intros [Hs Hn]. unfold unit_of, debug, total.
  assert (Hsplit : ∀ k u, u = 10 ^ Z.of_nat k → 0 < u → 0 ≤ nanos d mod u < 10 ^ Z.of_nat k ∧ 0 ≤ nanos d / u < 2 ^ 64 ∧
    nanos d = nanos d / u * 10 ^ Z.of_nat k + nanos d mod u).
  { intros k u <- Hu. split; [by apply Z.mod_pos_bound|]. split; [|pose proof (Z.div_mod (nanos d) u); lia].
    split; [apply Z.div_pos; lia|]. apply Z.le_lt_trans with (nanos d); [apply Z.div_le_upper_bound; nia|].
    change (2 ^ 64) with 18446744073709551616. unfold NANOS_PER_SEC in Hn. lia. }
  destruct (0 <? secs d).
  { apply (fmt_decimal_spec opt (secs d) (nanos d) _ 9); [lia|done|by right|done]. }
  destruct (NANOS_PER_MILLI <=? nanos d); cbn beta iota.
  { destruct (Hsplit 6%nat NANOS_PER_MILLI eq_refl eq_refl) as (? & ? & Heq).
    epose proof (fmt_decimal_spec opt _ _ (NANOS_PER_MILLI / 10) 6 _ [109; 115]) as Hfmt. rewrite <- Heq in Hfmt.
    apply Hfmt; [lia|done|by right|done]. }
  destruct (NANOS_PER_MICRO <=? nanos d); cbn beta iota.
  { destruct (Hsplit 3%nat NANOS_PER_MICRO eq_refl eq_refl) as (? & ? & Heq).
    epose proof (fmt_decimal_spec opt _ _ (NANOS_PER_MICRO / 10) 3 _ [181; 115]) as Hfmt. rewrite <- Heq in Hfmt.
    apply Hfmt; [lia|done|by right|done]. }
  destruct (fmt_decimal_spec opt (nanos d) 0 1 0 (if sign_plus opt then [43] else []) [110; 115]) as (ints & F & out & H);
    [lia | done | by left | change (2 ^ 64) with 18446744073709551616; unfold NANOS_PER_SEC in Hn; lia |].
  exists ints, F, out. change (10 ^ Z.of_nat 0) with 1 in H. by rewrite Z.mul_1_r, Z.add_0_r in H.
Qed.
