(* ===== verification/DurationFloat.v ===== *)
(** Durations from floating-point seconds: [try_from_secs] of [core/src/time.rs].

    A floating-point number is the unsigned integer of its bits, as [to_bits] gives
    it; the code uses nothing else of it but the comparison with zero. *)

From S2P Require Import Prelude Words IntSqrt IntLog IntFmt Duration DurationSpec.

#[local] Open Scope Z_scope.

Inductive TryFromFloatSecsErrorKind := Negative | OverflowOrNan.

(** The parameters of the macro *)
Record float_ty := FloatTy { mant_bits : Z; exp_bits : Z; offset : Z; bits_ty : Z; double_ty : Z }.
Definition F32 : float_ty := FloatTy 23 8 41 32 64.
Definition F64 : float_ty := FloatTy 52 11 44 64 128.

Definition MIN_EXP (f : float_ty) : Z := 1 - Z.shiftl 1 (exp_bits f) `quot` 2.
Definition MANT_MASK (f : float_ty) : Z := Z.shiftl 1 (mant_bits f) - 1.
Definition EXP_MASK (f : float_ty) : Z := Z.shiftl 1 (exp_bits f) - 1.

(** The fields of a number *)
Definition fraction (f : float_ty) (x : Z) : Z := Z.land x (MANT_MASK f).
Definition exponent (f : float_ty) (x : Z) : Z := Z.land (Z.shiftr x (mant_bits f)) (EXP_MASK f).
Definition sign (f : float_ty) (x : Z) : bool := Z.testbit x (mant_bits f + exp_bits f).
Definition is_nan (f : float_ty) (x : Z) : bool := (exponent f x =? EXP_MASK f) && negb (fraction f x =? 0).

(** [x < 0.0] *)
Definition lt_zero (f : float_ty) (x : Z) : bool :=
  sign f x && negb (is_nan f x) && negb ((exponent f x =? 0) && (fraction f x =? 0)).

(** [<<] *)
Definition shl (w x n : Z) : option Z := _ ← assert ((0 <=? n) && (n <? w)); Some (wrap (uint w) (Z.shiftl x n)).

(** The nanoseconds of the fixed-point number [nanos_tmp], to the nearest, ties to even *)
Definition round_nanos (nanos_tmp nanos_offset : Z) : option Z :=
  let nanos := wrap (uint 32) (Z.shiftr nanos_tmp nanos_offset) in
  let rem_mask := Z.shiftl 1 nanos_offset - 1 in
  let rem_msb_mask := Z.shiftl 1 (nanos_offset - 1) in
  let rem := Z.land nanos_tmp rem_mask in
  let is_tie := rem =? rem_msb_mask in
  let is_even := Z.land nanos 1 =? 0 in
  let rem_msb := Z.land nanos_tmp rem_msb_mask =? 0 in
  let add_ns := negb (rem_msb || (is_even && is_tie)) in
  fit (uint 32) (nanos + Z.b2z add_ns).

Definition try_from_secs (f : float_ty) (bits : Z) : option (Duration + TryFromFloatSecsErrorKind) :=
  if lt_zero f bits then Some (inr Negative)
  else
    let mant := Z.lor (Z.land bits (MANT_MASK f)) (MANT_MASK f + 1) in
    exp ← fit (sint 16) (wrap (sint 16) (Z.land (Z.shiftr bits (mant_bits f)) (EXP_MASK f)) + MIN_EXP f);
    r ← (if exp <? -31 then Some (Some (0, 0))
         else if exp <? 0 then
           t ← shl (double_ty f) mant (offset f + exp);
           nanos_tmp ← fit (uint 128) (NANOS_PER_SEC * t);
           n ← round_nanos nanos_tmp (mant_bits f + offset f);
           Some (Some (if (mant_bits f =? 23) || negb (n =? NANOS_PER_SEC) then (0, n) else (1, 0)))
         else if exp <? mant_bits f then
           let s := Z.shiftr mant (mant_bits f - exp) in
           u ← shl (bits_ty f) mant exp;
           nanos_tmp ← fit (uint (double_ty f)) (NANOS_PER_SEC * Z.land u (MANT_MASK f));
           n ← round_nanos nanos_tmp (mant_bits f);
           if (mant_bits f =? 23) || negb (n =? NANOS_PER_SEC) then Some (Some (s, n))
           else s ← fit (uint 64) (s + 1); Some (Some (s, 0))
         else if exp <? 64 then s ← shl 64 mant (exp - mant_bits f); Some (Some (s, 0))
         else Some None);
    match r with
    | Some (s, n) => d ← new s n; Some (inl d)
    | None => Some (inr OverflowOrNan)
    end.
Definition try_from_secs_f32 (secs : Z) := try_from_secs F32 secs.
Definition try_from_secs_f64 (secs : Z) := try_from_secs F64 secs.

(** [from_secs_f32] and [from_secs_f64] panic on an error. *)
Definition from_secs_float (f : float_ty) (secs : Z) : option Duration :=
  r ← try_from_secs f secs; match r with inl v => Some v | inr _ => None end.
Definition from_secs_f32 (secs : Z) := from_secs_float F32 secs.
Definition from_secs_f64 (secs : Z) := from_secs_float F64 secs.

(** 2.7 in both precisions, -0.0 and -1.0 *)
Example from_2_7 : try_from_secs_f64 0x400599999999999A = Some (inl (Dur 2 700000000)).
Proof. vm_compute. reflexivity. Qed.
Example from_2_7_f32 : try_from_secs_f32 0x402CCCCD = Some (inl (Dur 2 700000048)).
Proof. vm_compute. reflexivity. Qed.
Example from_minus_0 : try_from_secs_f32 0x80000000 = Some (inl ZERO).
Proof. vm_compute. reflexivity. Qed.
Example from_minus_1 : try_from_secs_f64 0xBFF0000000000000 = Some (inr Negative).
Proof. vm_compute. reflexivity. Qed.

(** ** The number that the bits stand for *)

(** A finite number that is not negative is [significand * 2 ^ scale]. *)
Definition significand (f : float_ty) (x : Z) : Z :=
  if exponent f x =? 0 then fraction f x else fraction f x + 2 ^ mant_bits f.
Definition scale (f : float_ty) (x : Z) : Z := Z.max 1 (exponent f x) - (2 ^ (exp_bits f - 1) - 1) - mant_bits f.
Definition numerator (f : float_ty) (x : Z) : Z := significand f x * 2 ^ Z.max 0 (scale f x).
Definition denominator (f : float_ty) (x : Z) : Z := 2 ^ Z.max 0 (- scale f x).
Definition finite (f : float_ty) (x : Z) : Prop := exponent f x ≠ EXP_MASK f.

(** [n] is the integer nearest to [num / den], the even one of two. *)
Definition nearest_even (num den n : Z) : Prop :=
  2 * Z.abs (n * den - num) ≤ den ∧ (2 * Z.abs (n * den - num) = den → Z.Even n).

Lemma nearest_scale c num den n : 0 < c → nearest_even (c * num) (c * den) n → nearest_even num den n.
Proof.
  unfold nearest_even. intros Hc. replace (n * (c * den) - c * num) with (c * (n * den - num)) by ring.
  rewrite Z.abs_mul, (Z.abs_eq c), Z.mul_assoc, (Z.mul_comm 2), <- Z.mul_assoc by lia. intros [H1 H2].
  split; [by apply (Z.mul_le_mono_pos_l _ _ c)|]. intros He. apply H2. by rewrite He.
Qed.

Lemma nearest_shift num den n k : Z.Even k → nearest_even num den n → nearest_even (num + k * den) den (k + n).
Proof.
  unfold nearest_even. intros Hk. replace ((k + n) * den - (num + k * den)) with (n * den - num) by ring.
  intros [H1 H2]. split; [done|]. intros He. destruct Hk as [a ->], (H2 He) as [b ->]. exists (a + b). lia.
Qed.

Lemma land_low_mask x k : 0 ≤ k → Z.land x (Z.shiftl 1 k - 1) = x mod 2 ^ k.
Proof. rewrite Z.shiftl_1_l. apply land_low. Qed.

Lemma land_single_bit x k : 0 ≤ k → (Z.land x (Z.shiftl 1 k) =? 0) = negb (Z.testbit x k).
Proof.
  intros Hk. rewrite Z.shiftl_1_l. destruct (Z.testbit x k) eqn:Hb; cbn [negb].
  - apply Z.eqb_neq. intros H. assert (Z.testbit (Z.land x (2 ^ k)) k = false) as Hf by (rewrite H; apply Z.bits_0).
    by rewrite Z.land_spec, Hb, Z.pow2_bits_true in Hf.
  - apply Z.eqb_eq. apply Z.bits_inj'. intros i Hi. rewrite Z.land_spec, Z.bits_0, Z.pow2_bits_eqb by done.
    destruct (Z.eqb_spec k i) as [<-|]; [by rewrite Hb | apply andb_false_r].
Qed.

Lemma round_nanos_spec tmp off : 0 < off → 0 ≤ tmp < NANOS_PER_SEC * 2 ^ off →
  ∃ n, round_nanos tmp off = Some n ∧ 0 ≤ n ≤ NANOS_PER_SEC ∧ nearest_even tmp (2 ^ off) n.
Proof.
  intros Hoff Ht. unfold round_nanos. rewrite land_low_mask, land_single_bit, Z.shiftr_div_pow2, Z.shiftl_1_l by lia.
  assert (HP : 2 ^ off = 2 * 2 ^ (off - 1)) by (rewrite <- Z.pow_succ_r by lia; f_equal; lia).
  assert (HQ : 0 < 2 ^ (off - 1)) by (apply Z.pow_pos_nonneg; lia).
  assert (Hbit : Z.testbit tmp (off - 1) = (2 ^ (off - 1) <=? tmp mod 2 ^ off)).
  { rewrite Z.testbit_eqb by lia. pose proof (Z.div_mod tmp (2 ^ off) ltac:(lia)) as Hd. pose proof (Z.mod_pos_bound tmp (2 ^ off) ltac:(lia)) as Hm.
    set (r := tmp mod 2 ^ off) in *. set (q := tmp / 2 ^ off) in *. set (Q := 2 ^ (off - 1)) in *.
    assert (tmp / Q = 2 * q + Z.b2z (Q <=? r)) as ->.
    { symmetry. destruct (Z.leb_spec Q r) as [?|?]; cbn [Z.b2z];
        [apply (Z.div_unique _ _ _ (r - Q)) | apply (Z.div_unique _ _ _ r)]; try (left; lia); rewrite Hd, HP; ring. }
    rewrite Z.add_comm, Z.mul_comm, Z_mod_plus_full. by destruct (Q <=? r). }
  rewrite Hbit. clear Hbit. pose proof (Z.div_mod tmp (2 ^ off) ltac:(lia)) as Hd. pose proof (Z.mod_pos_bound tmp (2 ^ off) ltac:(lia)) as Hm.
  assert (Hq : 0 ≤ tmp / 2 ^ off < NANOS_PER_SEC) by (split; [apply Z.div_pos; lia | apply Z.div_lt_upper_bound; lia]).
  rewrite wrap_u by (change (2 ^ 32) with 4294967296; unfold NANOS_PER_SEC in *; lia).
  rewrite (land_low _ 1 ltac:(lia) : Z.land _ 1 = _ mod 2).
  set (r := tmp mod 2 ^ off) in *. set (q := tmp / 2 ^ off) in *. rewrite HP in *. set (Q := 2 ^ (off - 1)) in *. clearbody r q Q. clear HP.
  set (up := negb (negb (Q <=? r) || ((q mod 2 =? 0) && (r =? Q)))).
  exists (q + Z.b2z up). split; [apply fit_u; change (2 ^ 32) with 4294967296; unfold NANOS_PER_SEC in *; destruct up; cbn; lia|].
  split; [destruct up; cbn; lia|]. unfold nearest_even. rewrite Hd. unfold up. pose proof (Z.div_mod q 2 ltac:(done)) as Hq2.
  pose proof (Z.mod_pos_bound q 2 ltac:(done)) as Hq2b. set (h := q / 2) in *.
  destruct (Z.leb_spec Q r) as [?|?], (Z.eqb_spec (q mod 2) 0) as [He|Ho], (Z.eqb_spec r Q) as [?|?]; cbn [negb andb orb Z.b2z]; try lia.
  all: split; [lia|]; intros Heq; try lia.
  - exists h. lia.
  - exists (h + 1). lia.
Qed.

(** ** The cases of the macro *)
Section cases.
Context (f : float_ty) (Hf : f = F32 ∨ f = F64).

#[local] Abbreviation mb := (mant_bits f).

Lemma f_facts : (0 < mb < bits_ty f ∧ mb < 63) ∧ (mb + offset f ≤ double_ty f ∧ mb + offset f ≤ 96 ∧ mb + 30 ≤ double_ty f) ∧ (31 ≤ offset f ∧ 0 < exp_bits f) ∧
  MIN_EXP f = - (2 ^ (exp_bits f - 1) - 1) ∧ EXP_MASK f = 2 ^ exp_bits f - 1 ∧ MANT_MASK f = 2 ^ mb - 1 ∧
  64 ≤ EXP_MASK f + MIN_EXP f ∧ EXP_MASK f < 2048 ∧ -1024 ≤ MIN_EXP f < -100.
Proof using Hf. destruct Hf as [-> | ->]; vm_compute; intuition congruence. Qed.

Lemma shl_spec w x n : 0 ≤ n < w → shl w x n = Some ((x * 2 ^ n) mod 2 ^ w).
Proof.
  intros [? ?]. unfold shl. rewrite (proj2 (Z.leb_le 0 n)), (proj2 (Z.ltb_lt n w)) by done. cbn [andb assert mbind option_bind].
  by rewrite Z.shiftl_mul_pow2.
Qed.

Context (mant exp : Z) (Hmant : 2 ^ mb ≤ mant < 2 * 2 ^ mb).

Lemma mant_shift k : 0 ≤ k → 0 ≤ mant * 2 ^ k < 2 ^ (mb + 1 + k).
Proof using Hmant Hf.
  intros Hk. destruct f_facts as ((? & ?) & _). rewrite !Z.pow_add_r, Z.pow_1_r by lia.
  assert (0 < 2 ^ k) by (by apply Z.pow_pos_nonneg). assert (0 < 2 ^ mb) by (apply Z.pow_pos_nonneg; lia). nia.
Qed.

Lemma below_one_spec : -31 ≤ exp < 0 →
  ∃ n, (t ← shl (double_ty f) mant (offset f + exp); nanos_tmp ← fit (uint 128) (NANOS_PER_SEC * t); round_nanos nanos_tmp (mb + offset f)) = Some n ∧
    0 ≤ n ≤ NANOS_PER_SEC ∧ nearest_even (NANOS_PER_SEC * mant) (2 ^ (mb - exp)) n.
Proof using Hf Hmant.
  intros Hexp. destruct f_facts as ((? & ?) & (? & ? & ?) & (? & ?) & _). pose proof (mant_shift (offset f + exp) ltac:(lia)) as Hs.
  assert (Hle : 2 ^ (mb + 1 + (offset f + exp)) ≤ 2 ^ (mb + offset f)) by (apply Z.pow_le_mono_r; lia).
  assert (H96 : 2 ^ (mb + offset f) ≤ 2 ^ 96) by (by apply Z.pow_le_mono_r).
  assert (Hdb : 2 ^ (mb + offset f) ≤ 2 ^ double_ty f) by (by apply Z.pow_le_mono_r).
  rewrite shl_spec by lia. cbn [mbind option_bind]. rewrite Z.mod_small by lia.
  rewrite fit_u.
  2:{ change (2 ^ 128) with (4294967296 * 2 ^ 96). unfold NANOS_PER_SEC. lia. }
  cbn [mbind option_bind].
  destruct (round_nanos_spec (NANOS_PER_SEC * (mant * 2 ^ (offset f + exp))) (mb + offset f)) as (n & -> & Hn & Hnear);
    [lia | unfold NANOS_PER_SEC; lia |].
  exists n. split; [done|]. split; [done|]. apply (nearest_scale (2 ^ (offset f + exp))); [apply Z.pow_pos_nonneg; lia|].
  rewrite <- Z.pow_add_r by lia. replace (offset f + exp + (mb - exp)) with (mb + offset f) by lia.
  by replace (2 ^ (offset f + exp) * (NANOS_PER_SEC * mant)) with (NANOS_PER_SEC * (mant * 2 ^ (offset f + exp))) by ring.
Qed.

Lemma above_one_spec : 0 ≤ exp < mb →
  ∃ n, (u ← shl (bits_ty f) mant exp; nanos_tmp ← fit (uint (double_ty f)) (NANOS_PER_SEC * Z.land u (MANT_MASK f)); round_nanos nanos_tmp mb) = Some n ∧
    0 ≤ n ≤ NANOS_PER_SEC ∧ 0 ≤ Z.shiftr mant (mb - exp) < 2 ^ 63 ∧
    nearest_even (NANOS_PER_SEC * mant) (2 ^ (mb - exp)) (Z.shiftr mant (mb - exp) * NANOS_PER_SEC + n).
Proof using Hf Hmant.
  intros Hexp. destruct f_facts as ((? & ?) & (? & ? & ?) & (? & ?) & _ & _ & HM & _). rewrite HM.
  set (D := 2 ^ (mb - exp)). assert (HD : 0 < D) by (apply Z.pow_pos_nonneg; lia).
  assert (He : 0 < 2 ^ exp) by (apply Z.pow_pos_nonneg; lia).
  assert (HDe : 2 ^ mb = D * 2 ^ exp) by (unfold D; rewrite <- Z.pow_add_r by lia; f_equal; lia).
  rewrite shl_spec by lia. cbn [mbind option_bind]. rewrite land_low by lia.
  assert (Hmod : ((mant * 2 ^ exp) mod 2 ^ bits_ty f) mod 2 ^ mb = mant mod D * 2 ^ exp).
  { rewrite Z.mod_mod_divide.
    - rewrite <- Z.mul_mod_distr_r, <- HDe by lia. done.
    - exists (2 ^ (bits_ty f - mb)). rewrite <- Z.pow_add_r by lia. f_equal. lia. }
  rewrite Hmod. clear Hmod. pose proof (Z.mod_pos_bound mant D HD) as Hm. pose proof (Z.div_mod mant D ltac:(lia)) as Hd.
  assert (Hlt : NANOS_PER_SEC * (mant mod D * 2 ^ exp) < NANOS_PER_SEC * 2 ^ mb) by (rewrite HDe; unfold NANOS_PER_SEC; nia).
  assert (Hdt : 2 ^ mb * 1073741824 ≤ 2 ^ double_ty f) by (change 1073741824 with (2 ^ 30); rewrite <- Z.pow_add_r by lia; by apply Z.pow_le_mono_r).
  assert (Hnn : 0 ≤ NANOS_PER_SEC * (mant mod D * 2 ^ exp)) by (unfold NANOS_PER_SEC; nia).
  rewrite fit_u by (unfold NANOS_PER_SEC in *; lia). cbn [mbind option_bind].
  destruct (round_nanos_spec (NANOS_PER_SEC * (mant mod D * 2 ^ exp)) mb) as (n & -> & Hn & Hnear); [lia | lia |].
  exists n. split; [done|]. split; [done|]. rewrite Z.shiftr_div_pow2 by lia. fold D. split.
  { split; [apply Z.div_pos; lia|]. apply Z.div_lt_upper_bound; [done|].
    assert (2 ^ mb ≤ 2 ^ 62) by (apply Z.pow_le_mono_r; lia). change (2 ^ 63) with (2 * 2 ^ 62). nia. }
  replace (NANOS_PER_SEC * mant) with (NANOS_PER_SEC * (mant mod D) + mant / D * NANOS_PER_SEC * D) by (rewrite Hd at 3; ring).
  apply nearest_shift; [exists (mant / D * 500000000); unfold NANOS_PER_SEC; lia|].
  apply (nearest_scale (2 ^ exp)); [done|]. rewrite (Z.mul_comm _ D), <- HDe.
  by replace (2 ^ exp * (NANOS_PER_SEC * (mant mod D))) with (NANOS_PER_SEC * (mant mod D * 2 ^ exp)) by ring.
Qed.

Lemma whole_spec : mb ≤ exp < 64 →
  shl 64 mant (exp - mb) = Some (mant * 2 ^ (exp - mb)) ∧ 0 ≤ mant * 2 ^ (exp - mb) < 2 ^ 64.
Proof using Hf Hmant.
  intros Hexp. destruct f_facts as ((? & ?) & _). pose proof (mant_shift (exp - mb) ltac:(lia)) as Hs.
  assert (2 ^ (mb + 1 + (exp - mb)) ≤ 2 ^ 64) by (apply Z.pow_le_mono_r; lia).
  rewrite shl_spec by lia. rewrite Z.mod_small by lia. split; [done | lia].
Qed.
End cases.

Lemma finish_new s n : 0 ≤ s → 0 ≤ n ≤ NANOS_PER_SEC → s < 2 ^ 63 ∨ s < 2 ^ 64 ∧ n = 0 →
  ∃ d, new s n = Some d ∧ dur_ok d ∧ total d = s * NANOS_PER_SEC + n.
Proof.
  intros Hs Hn Hb. change (2 ^ 63) with 9223372036854775808 in Hb. change (2 ^ 64) with 18446744073709551616 in Hb.
  unfold NANOS_PER_SEC in Hn.
  rewrite new_spec by (change (2 ^ 64) with 18446744073709551616; change (2 ^ 32) with 4294967296; lia).
  destruct (dur (s * NANOS_PER_SEC + n)) as [d|] eqn:Hd; [exists d; by apply dur_Some in Hd as [? ?]|].
  unfold dur in Hd. rewrite decide_True in Hd; [done|]. unfold LIMIT, NANOS_PER_SEC. change (2 ^ 64) with 18446744073709551616. lia.
Qed.

Lemma fields f x : f = F32 ∨ f = F64 →
  0 ≤ exponent f x ≤ EXP_MASK f ∧ 0 ≤ fraction f x < 2 ^ mant_bits f ∧
  Z.lor (Z.land x (MANT_MASK f)) (MANT_MASK f + 1) = fraction f x + 2 ^ mant_bits f.
Proof.
  intros Hf. destruct (f_facts f Hf) as ((? & ?) & _ & (_ & ?) & _ & HE & HM & _). unfold exponent, fraction. rewrite HE, HM.
  rewrite !land_low by lia. pose proof (Z.mod_pos_bound (Z.shiftr x (mant_bits f)) (2 ^ exp_bits f) ltac:(apply Z.pow_pos_nonneg; lia)).
  pose proof (Z.mod_pos_bound x (2 ^ mant_bits f) ltac:(apply Z.pow_pos_nonneg; lia)) as Hm. split; [lia|]. split; [done|].
  rewrite Z.sub_add, Z.lor_comm. rewrite (lor_add _ _ (mant_bits f)); [lia | lia | done | apply Z.mod_same; lia].
Qed.

Lemma tiny f x : f = F32 ∨ f = F64 → exponent f x + MIN_EXP f < -31 → nearest_even (NANOS_PER_SEC * numerator f x) (denominator f x) 0.
Proof.
  intros Hf Hexp. destruct (f_facts f Hf) as ((? & ?) & _ & _ & HE & _ & _ & _ & _ & ?). destruct (fields f x Hf) as (? & Hfr & _).
  unfold numerator, denominator, scale. rewrite HE in *. set (bias := 2 ^ (exp_bits f - 1) - 1) in *. clearbody bias.
  rewrite (Z.max_l 0) by lia. rewrite (Z.max_r 0 (- _)) by lia. change (2 ^ 0) with 1. rewrite Z.mul_1_r.
  assert (Hsig : 0 ≤ significand f x < 2 * 2 ^ mant_bits f) by (unfold significand; case_match; lia).
  assert (Hsmall : NANOS_PER_SEC * significand f x * 2 < 2 ^ (- (Z.max 1 (exponent f x) - bias - mant_bits f))).
  { apply Z.lt_le_trans with (4294967296 * 2 ^ mant_bits f).
    - unfold NANOS_PER_SEC. assert (0 < 2 ^ mant_bits f) by (apply Z.pow_pos_nonneg; lia). lia.
    - change 4294967296 with (2 ^ 32). rewrite <- Z.pow_add_r by lia. apply Z.pow_le_mono_r; lia. }
  assert (0 ≤ NANOS_PER_SEC * significand f x) by (unfold NANOS_PER_SEC; lia).
  split; [lia|]. intros _. by exists 0.
Qed.

(** The value of a number that is not tiny *)
Lemma normal f x : f = F32 ∨ f = F64 → -31 ≤ exponent f x + MIN_EXP f →
  let exp := exponent f x + MIN_EXP f in
  numerator f x = (fraction f x + 2 ^ mant_bits f) * 2 ^ Z.max 0 (exp - mant_bits f) ∧ denominator f x = 2 ^ Z.max 0 (mant_bits f - exp).
Proof.
  intros Hf Hexp. destruct (f_facts f Hf) as ((? & ?) & _ & _ & HE & _ & _ & _ & _ & ?). cbn zeta.
  unfold numerator, denominator, scale, significand. rewrite (proj2 (Z.eqb_neq (exponent f x) 0)) by lia.
  rewrite HE in *. rewrite (Z.max_r 1) by lia. split; [do 3 f_equal; lia | do 2 f_equal; lia].
Qed.

(** A number is too big exactly when its exponent is. *)
Lemma too_big f x : f = F32 ∨ f = F64 → -31 ≤ exponent f x + MIN_EXP f →
  64 ≤ exponent f x + MIN_EXP f ↔ 2 ^ 64 * denominator f x ≤ numerator f x ∨ is_nan f x = true.
Proof.
  intros Hf Hexp. destruct (f_facts f Hf) as ((? & ?) & _ & _ & _ & _ & _ & HEM & _). destruct (fields f x Hf) as (HE & Hfr & _).
  assert (Hsmall : is_nan f x = true → exponent f x = EXP_MASK f) by (unfold is_nan; intros [He _]%andb_prop; by apply Z.eqb_eq in He).
  destruct (normal f x Hf Hexp) as [-> ->]. set (exp := exponent f x + MIN_EXP f) in *. set (mant := fraction f x + 2 ^ mant_bits f) in *.
  assert (Hm : 2 ^ mant_bits f ≤ mant < 2 * 2 ^ mant_bits f) by (unfold mant; lia).
  destruct (decide (64 ≤ exp)) as [Hb|Hb].
  - split; [intros _; left|done]. rewrite (Z.max_l 0), (Z.max_r 0) by lia. change (2 ^ 0) with 1. rewrite Z.mul_1_r.
    apply Z.le_trans with (2 ^ mant_bits f * 2 ^ (exp - mant_bits f)); [rewrite <- Z.pow_add_r by lia; apply Z.pow_le_mono_r; lia|].
    apply Z.mul_le_mono_nonneg_r; [apply Z.pow_nonneg; lia | lia].
  - split; [done|]. intros [Hbig | Hnan]; [|specialize (Hsmall Hnan); unfold exp in Hb; lia]. exfalso.
    destruct (Z.max_spec 0 (mant_bits f - exp)) as [[Hle Hmx] | [Hle Hmx]]; rewrite Hmx in Hbig; clear Hmx.
    + rewrite Z.max_l in Hbig by lia. change (2 ^ 0) with 1 in Hbig. rewrite Z.mul_1_r, <- Z.pow_add_r in Hbig by lia.
      assert (2 * 2 ^ mant_bits f ≤ 2 ^ (64 + (mant_bits f - exp))) by (rewrite <- Z.pow_succ_r by lia; apply Z.pow_le_mono_r; lia). lia.
    + rewrite Z.max_r in Hbig by lia. change (2 ^ 0) with 1 in Hbig. rewrite Z.mul_1_r in Hbig.
      destruct (whole_spec f Hf mant exp Hm) as [_ ?]; [lia|lia].
Qed.

Lemma try_from_secs_spec f x : f = F32 ∨ f = F64 → lt_zero f x = false →
  (if decide (2 ^ 64 * denominator f x ≤ numerator f x ∨ is_nan f x = true) then try_from_secs f x = Some (inr OverflowOrNan)
   else ∃ d, try_from_secs f x = Some (inl d) ∧ dur_ok d ∧ nearest_even (NANOS_PER_SEC * numerator f x) (denominator f x) (total d)).
Proof.
  intros Hf Hlt. destruct (f_facts f Hf) as ((? & ?) & _ & _ & _ & _ & _ & HEM & HE2 & HME). destruct (fields f x Hf) as (HE & Hfr & Hmant).
  unfold try_from_secs. rewrite Hlt, Hmant. fold (exponent f x).
  assert (Hsmall : is_nan f x = true → exponent f x = EXP_MASK f) by (unfold is_nan; intros [He _]%andb_prop; by apply Z.eqb_eq in He).
  rewrite (wrap_id (sint 16)) by (first [by right; left | rewrite sint_range; change (2 ^ (16 - 1)) with 32768; lia]).
  rewrite fit_in by (rewrite sint_range; change (2 ^ (16 - 1)) with 32768; lia). cbn [mbind option_bind].
  pose proof (tiny f x Hf) as Htiny. pose proof (normal f x Hf) as Hnormal. cbn zeta in Hnormal.
  set (exp := exponent f x + MIN_EXP f) in *. set (mant := fraction f x + 2 ^ mant_bits f) in *.
  assert (Hm : 2 ^ mant_bits f ≤ mant < 2 * 2 ^ mant_bits f) by (unfold mant; lia).
  destruct (Z.ltb_spec exp (-31)) as [Hexp|Hexp].
  { pose proof (Htiny Hexp) as Hn. rewrite decide_False.
    - exists ZERO. split; [done|]. split; [done | exact Hn].
    - intros [Hbig | Hnan]; [|specialize (Hsmall Hnan); unfold exp in Hexp; lia]. destruct Hn as [Hn _].
      assert (0 < denominator f x) by (apply Z.pow_pos_nonneg; lia). change (2 ^ 64) with 18446744073709551616 in Hbig. unfold NANOS_PER_SEC in Hn. lia. }
  destruct (Hnormal Hexp) as [Hnum Hden]. clear Hnormal Htiny.
  pose proof (too_big f x Hf Hexp) as Hdec.
  destruct (Z.ltb_spec exp 0) as [Hneg|Hneg].
  { rewrite decide_False by (rewrite <- Hdec; lia). destruct (below_one_spec f Hf mant exp Hm) as (n & Hrun & Hn & Hnear); [lia|].
    destruct (shl (double_ty f) mant (offset f + exp)) as [t|]; cbn [mbind option_bind] in *; [|done].
    destruct (fit (uint 128) (NANOS_PER_SEC * t)) as [u|]; cbn [mbind option_bind] in *; [|done].
    rewrite Hrun. cbn [mbind option_bind]. rewrite Hnum, Hden, (Z.max_l 0), (Z.max_r 0), Z.mul_1_r by lia.
    destruct (finish_new 0 n) as (d & Hnew & Hok & Htot); [done|done|by left|]. rewrite Z.mul_0_l, Z.add_0_l in Htot.
    destruct (Z.eqb_spec n NANOS_PER_SEC) as [->|].
    - destruct (mant_bits f =? 23); cbn [orb negb]; [rewrite Hnew; exists d; by rewrite Htot|].
      exists (Dur 1 0). split; [done|]. split; [done|]. exact Hnear.
    - rewrite orb_true_r, Hnew. exists d. by rewrite Htot. }
  destruct (Z.ltb_spec exp (mant_bits f)) as [Hfrac|Hfrac].
  { rewrite decide_False by (rewrite <- Hdec; lia). destruct (above_one_spec f Hf mant exp Hm) as (n & Hrun & Hn & Hs & Hnear); [lia|].
    destruct (shl (bits_ty f) mant exp) as [t|]; cbn [mbind option_bind] in *; [|done].
    destruct (fit (uint (double_ty f)) _) as [u|]; cbn [mbind option_bind] in *; [|done].
    rewrite Hrun. cbn [mbind option_bind]. rewrite Hnum, Hden, (Z.max_l 0), (Z.max_r 0), Z.mul_1_r by lia.
    destruct (finish_new (Z.shiftr mant (mant_bits f - exp)) n) as (d & Hnew & Hok & Htot); [lia|done|left; apply Hs|].
    destruct ((mant_bits f =? 23) || negb (n =? NANOS_PER_SEC)) eqn:Hb; cbn [mbind option_bind]; [rewrite Hnew; exists d; by rewrite Htot|].
    apply orb_false_elim in Hb as [_ Hb]. apply negb_false_iff, Z.eqb_eq in Hb. subst n.
    change (2 ^ 63) with 9223372036854775808 in Hs. rewrite fit_u by (change (2 ^ 64) with 18446744073709551616; lia). cbn [mbind option_bind].
    rewrite new_small by done. cbn [mbind option_bind]. eexists. split; [done|]. split; [split; cbn; [|done]; change (2 ^ 64) with 18446744073709551616; lia|].
    unfold total. cbn [secs nanos]. by rewrite Z.add_0_r, Z.mul_add_distr_r, Z.mul_1_l. }
  destruct (Z.ltb_spec exp 64) as [Hlow|Hhigh]; [|by rewrite decide_True by (by apply Hdec)].
  rewrite decide_False by (rewrite <- Hdec; lia). destruct (whole_spec f Hf mant exp Hm) as [Hshl Hs]; [lia|].
  rewrite Hshl. cbn [mbind option_bind]. rewrite Hnum, Hden, (Z.max_r 0), (Z.max_l 0) by lia.
  set (s := mant * 2 ^ (exp - mant_bits f)) in *.
  destruct (finish_new s 0) as (d & Hnew & Hok & Htot); [lia|done|right; split; [apply Hs | done]|]. rewrite Hnew. exists d. split; [done|]. split; [done|].
  rewrite Htot. change (2 ^ 0) with 1. unfold nearest_even. replace ((s * NANOS_PER_SEC + 0) * 1 - NANOS_PER_SEC * s) with 0 by ring. split; [done|]. cbn. lia.
Qed.
