(* ===== verification/DurationTheorems.v ===== *)
(** The properties of [Duration]. *)

From S2P Require Import Prelude Words IntLog IntFmt IntFmtSpec Duration DurationSpec DurationFmtSpec DurationFloat.

#[local] Open Scope Z_scope.

(** C34: Spans of time are numbers of nanoseconds: every arithmetic operation on
    durations is exact arithmetic on their totals, which it carries out without an
    intermediate overflow; a checked operation gives [None], and an operator panics,
    exactly when the result is not the total of a duration; a saturating operation
    gives the nearest duration.  So is the sum of any number of durations, although
    it is computed with separate totals of seconds and nanoseconds. *)
Theorem duration_arithmetic (a b : Duration) (rhs : Z) (l : list Duration)
    (Ha : dur_ok a) (Hb : dur_ok b) (Hr : 0 ≤ rhs < 2 ^ 32) (Hl : Forall dur_ok l) :
  (checked_add a b = Some (dur (total a + total b)) ∧ add a b = dur (total a + total b) ∧
   saturating_add a b = Some (clamp (total a + total b))) ∧
  (checked_sub a b = Some (dur (total a - total b)) ∧ sub a b = dur (total a - total b) ∧
   saturating_sub a b = Some (clamp (total a - total b))) ∧
  (checked_mul a rhs = Some (dur (total a * rhs)) ∧ mul a rhs = dur (total a * rhs) ∧
   saturating_mul a rhs = Some (clamp (total a * rhs))) ∧
  (let quotient := if decide (rhs = 0) then None else Some (of_total (total a / rhs)) in
   checked_div a rhs = Some quotient ∧ div a rhs = quotient) ∧
  abs_diff a b = dur (Z.abs (total a - total b)) ∧
  sum l = dur (total_sum l).
Proof.
  pose proof (total_range a Ha). pose proof (total_range b Hb).
  unfold add, sub, mul, div, saturating_add, saturating_sub, saturating_mul.
  rewrite checked_add_spec, checked_sub_spec, checked_mul_spec by done. cbn [mbind option_bind].
  split; [|split; [|split; [|split; [|split; [by apply dur_abs_diff_spec | by apply sum_spec]]]]].
  - rewrite saturate_high by lia. done.
  - rewrite saturate_low by lia. done.
  - rewrite saturate_high by (apply Z.mul_nonneg_nonneg; lia). done.
  - cbn zeta. case_decide as Hz; [by subst rhs|]. rewrite checked_div_spec by (done || lia). cbn [mbind option_bind].
    assert (dur (total a / rhs) = Some (of_total (total a / rhs))) as ->; [|done].
    unfold dur. apply decide_True. split; [apply Z.div_pos; lia|].
    apply Z.le_lt_trans with (total a); [|lia]. apply Z.div_le_upper_bound; [lia|].
    assert (1 * total a ≤ rhs * total a) by (apply Z.mul_le_mono_nonneg_r; lia). lia.
Qed.

Lemma duration_arithmetic_witness :
  (checked_sub (Dur 2 5) (Dur 1 6) = Some (Some (Dur 0 999999999)) ∧ checked_add MAX_DURATION (Dur 0 1) = Some None) ∧
  (checked_add (Dur 1 600000000) (Dur 2 700000000) = Some (Some (Dur 4 300000000)) ∧ sum [Dur 1 600000000; Dur 2 700000000] = Some (Dur 4 300000000)).
Proof.
  split; [vm_compute; done|].
  destruct (duration_arithmetic (Dur 1 600000000) (Dur 2 700000000) 7 [Dur 1 600000000; Dur 2 700000000]) as ((-> & _) & _ & _ & _ & _ & ->);
    [by vm_compute | by vm_compute | by vm_compute | by repeat constructor | by vm_compute].
Defined.

(** Construction and reading of durations: every constructor gives the duration of
    the total that it is asked for, from any unit, and panics exactly when there is
    none (no nanosecond part is ever out of range); the reading operations give the
    total, and its parts, in any unit, rounded down, without an overflow; a duration
    is rebuilt from its nanoseconds. *)
Theorem duration_units (n m : Z) (d : Duration) (Hn : 0 ≤ n < 2 ^ 64) (Hm : 0 ≤ m < 2 ^ 32) (Hd : dur_ok d) :
  (new n m = dur (n * NANOS_PER_SEC + m) ∧ from_secs n = dur (n * NANOS_PER_SEC) ∧
   from_millis n = dur (n * NANOS_PER_MILLI) ∧ from_micros n = dur (n * NANOS_PER_MICRO) ∧ from_nanos n = dur n ∧
   from_weeks n = dur (n * 604800 * NANOS_PER_SEC) ∧ from_days n = dur (n * 86400 * NANOS_PER_SEC) ∧
   from_hours n = dur (n * 3600 * NANOS_PER_SEC) ∧ from_mins n = dur (n * 60 * NANOS_PER_SEC)) ∧
  (as_millis d = Some (total d / NANOS_PER_MILLI) ∧ as_micros d = Some (total d / NANOS_PER_MICRO) ∧ as_nanos d = Some (total d)) ∧
  (secs d = total d / NANOS_PER_SEC ∧ subsec_millis d = total d / NANOS_PER_MILLI mod MILLIS_PER_SEC ∧
   subsec_micros d = total d / NANOS_PER_MICRO mod MICROS_PER_SEC ∧ subsec_nanos d = total d mod NANOS_PER_SEC) ∧
  is_zero d = (total d =? 0) ∧
  (t ← as_nanos d; from_nanos_u128 t) = Some d ∧ (∀ t, 0 ≤ t → from_nanos_u128 t = dur t).
Proof.
  split.
  { split_and!; [by apply new_spec | by apply from_secs_spec | by apply from_millis_spec | by apply from_micros_spec
      | by apply from_nanos_spec | by apply from_weeks_spec | by apply from_days_spec | by apply from_hours_spec | by apply from_mins_spec]. }
  destruct (parts_spec d Hd) as [(Hmillis & Hmicros & Hnanos) Hparts]. split; [done|]. split; [done|]. split; [by apply is_zero_spec|].
  split; [|by apply from_nanos_u128_spec]. rewrite Hnanos. cbn [mbind option_bind].
  pose proof (total_range d Hd). rewrite from_nanos_u128_spec by lia. unfold dur. rewrite decide_True by done. by rewrite of_total_total.
Qed.

Lemma duration_units_witness :
  (new 3 2500000000 = Some (Dur 5 500000000) ∧ from_millis 2500 = Some (Dur 2 500000000)) ∧ as_millis (Dur 2 500000000) = Some 2500.
Proof.
  split; [vm_compute; done|].
  destruct (duration_units 0 0 (Dur 2 500000000)) as (_ & (-> & _) & _); [by vm_compute..|]. by vm_compute.
Defined.

(** C35: Printing of durations: [Debug] picks the largest unit of which the duration
    has at least one, and writes the duration as a decimal fraction of it: without a
    precision exactly, with no zero at the end, and with a precision rounded half up
    to that many decimals, the carry into the integer part included, even where that
    does not fit in 64 bits; then it is padded to the width.  The comment of
    [fmt_decimal] says that this rounding is the one of floating-point numbers; on a
    tie it is not, as they are rounded to even: 2.5 seconds are printed as 3s. *)
Theorem duration_debug (opt : options) (d : Duration) (Hd : dur_ok d) :
  let '(k, N, unit) := unit_of d in
  ∃ ints F out, is_numeral 10 (value 10 ints) ints ∧ shown k N (precision opt) (value 10 ints) F ∧
    debug opt d = Some out ∧ aligned opt ((if sign_plus opt then [43] else []) ++ of_digits ints ++ point F ++ unit) out.
Proof. exact (debug_spec opt d Hd). Qed.

Lemma duration_debug_witness :
  let opt := Options 32 None 8 (Some 2%nat) false false false in
  debug opt (Dur 0 1995001) = Some ([50; 46; 48; 48] ++ [109; 115; 32; 32]) ∧
  debug (Options 32 None 0 (Some 0%nat) false false false) (Dur 2 500000000) = Some [51; 115] ∧
  ∃ ints F out, is_numeral 10 (value 10 ints) ints ∧ shown 9 1999000000 (Some 2%nat) (value 10 ints) F ∧
    debug opt (Dur 1 999000000) = Some out ∧ aligned opt (of_digits ints ++ point F ++ [115]) out.
Proof.
  cbn zeta. split; [vm_compute; done|]. split; [vm_compute; done|].
  pose proof (duration_debug (Options 32 None 8 (Some 2%nat) false false false) (Dur 1 999000000)) as H.
  apply H. by vm_compute.
Defined.

(** C36: Durations from floating-point seconds: [try_from_secs_f32] and
    [try_from_secs_f64] round the exact value of the number to the nearest
    nanosecond, ties to even; they report [Negative] for a number below zero (which
    -0.0 is not) and [OverflowOrNan] exactly for a number of 2 ^ 64 or more and for a
    NaN, and no shift or product on the way overflows. *)
Theorem duration_from_float (f : float_ty) (x : Z) (Hf : f = F32 ∨ f = F64) :
  if lt_zero f x then try_from_secs f x = Some (inr Negative)
  else if decide (2 ^ 64 * denominator f x ≤ numerator f x ∨ is_nan f x = true) then try_from_secs f x = Some (inr OverflowOrNan)
  else ∃ d, try_from_secs f x = Some (inl d) ∧ dur_ok d ∧ nearest_even (NANOS_PER_SEC * numerator f x) (denominator f x) (total d).
Proof.
  pose proof (try_from_secs_spec f x Hf) as Hspec. destruct (lt_zero f x) eqn:Hlt; [|by apply Hspec].
  unfold try_from_secs. by rewrite Hlt.
Qed.

Lemma duration_from_float_witness :
  try_from_secs_f64 0x3E112E0BE826D695 = Some (inl (Dur 0 1)) ∧ try_from_secs_f64 0x43F0000000000000 = Some (inr OverflowOrNan) ∧
  if lt_zero F32 0x402CCCCD then try_from_secs F32 0x402CCCCD = Some (inr Negative)
  else if decide (2 ^ 64 * denominator F32 0x402CCCCD ≤ numerator F32 0x402CCCCD ∨ is_nan F32 0x402CCCCD = true)
  then try_from_secs F32 0x402CCCCD = Some (inr OverflowOrNan)
  else ∃ d, try_from_secs F32 0x402CCCCD = Some (inl d) ∧ dur_ok d ∧
    nearest_even (NANOS_PER_SEC * numerator F32 0x402CCCCD) (denominator F32 0x402CCCCD) (total d).
Proof. split; [vm_compute; done|]. split; [vm_compute; done|]. apply (duration_from_float F32 0x402CCCCD). by left. Defined.
