(* ===== verification/NetAddr.v ===== *)
(** Internet addresses and how they are written: [core/src/net/ip_addr.rs],
    [socket_addr.rs] and [display_buffer.rs].

    An address is the list of its octets, 4 or 16 of them.  What is written is a
    list of pieces, one for each call of [write_str]; a formatter without a width
    and precision passes them on, otherwise they go to a buffer of a fixed size.
    [None] is a panic. *)

From S2P Require Import Prelude Words IntFmt Duration IntParse.

#[local] Open Scope Z_scope.

Record Ipv4Addr := Ipv4 { octets4 : list Z }.
Record Ipv6Addr := Ipv6 { octets6 : list Z }.
Inductive IpAddr := V4 (a : Ipv4Addr) | V6 (a : Ipv6Addr).
Record SocketAddrV4 := SockV4 { ip4 : Ipv4Addr; port4 : Z }.
Record SocketAddrV6 := SockV6 { ip6 : Ipv6Addr; port6 : Z; flowinfo : Z; scope_id : Z }.
Inductive SocketAddr := SV4 (a : SocketAddrV4) | SV6 (a : SocketAddrV6).

(** ** Octets, segments and numbers *)

(** [u16::from_be_bytes], [to_be_bytes] *)
Definition from_be_bytes (bs : list Z) : Z := foldl (λ acc b, acc * 256 + b) 0 bs.
Fixpoint to_be_bytes (size : nat) (n : Z) : list Z :=
  match size with O => [] | S size => to_be_bytes size (n / 256) ++ [n mod 256] end.

Definition from_segments (segments : list Z) : Ipv6Addr := Ipv6 (concat (to_be_bytes 2 <$> segments)).
Fixpoint be_pairs (bs : list Z) : list Z :=
  match bs with a :: b :: bs => from_be_bytes [a; b] :: be_pairs bs | _ => [] end.
Definition segments (a : Ipv6Addr) : list Z := be_pairs (octets6 a).

Definition to_bits4 (a : Ipv4Addr) : Z := from_be_bytes (octets4 a).
Definition from_bits4 (bits : Z) : Ipv4Addr := Ipv4 (to_be_bytes 4 bits).
Definition to_bits6 (a : Ipv6Addr) : Z := from_be_bytes (octets6 a).
Definition from_bits6 (bits : Z) : Ipv6Addr := Ipv6 (to_be_bytes 16 bits).

(** ** Conversions between the versions *)
Definition to_ipv6_mapped (a : Ipv4Addr) : Ipv6Addr := Ipv6 (replicate 10 0 ++ [255; 255] ++ octets4 a).
Definition to_ipv4_mapped (a : Ipv6Addr) : option Ipv4Addr :=
  if bool_decide (take 12 (octets6 a) = replicate 10 0 ++ [255; 255]) then Some (Ipv4 (drop 12 (octets6 a))) else None.
Definition to_canonical (a : IpAddr) : IpAddr :=
  match a with
  | V4 _ => a
  | V6 v6 => match to_ipv4_mapped v6 with Some mapped => V4 mapped | None => V6 v6 end
  end.

(** ** The display buffer *)
Definition write_str (SIZE : nat) (buf s : bytes) : option bytes :=
  if (length buf + length s <=? SIZE)%nat then Some (buf ++ s) else None.
Fixpoint write_all (SIZE : nat) (buf : bytes) (pieces : list bytes) : option bytes :=
  match pieces with [] => Some buf | s :: pieces => buf ← write_str SIZE buf s; write_all SIZE buf pieces end.

(** A formatter with or without a width and a precision *)
Definition no_alignment (opt : options) : bool := (width opt =? 0)%nat && bool_decide (precision opt = None).
Definition emit (SIZE : nat) (opt : options) (pieces : option (list bytes)) : option bytes :=
  pieces ← pieces;
  if no_alignment opt then Some (concat pieces) else buf ← write_all SIZE [] pieces; Some (pad opt buf).

(** ** Display *)
Definition decimal (w n : Z) : option bytes := display (uint w) plain n.
Definition hex (n : Z) : option bytes := fmt_lower_hex (uint 16) plain n.

Definition v4_pieces (a : Ipv4Addr) : option (list bytes) :=
  match octets4 a with
  | [o0; o1; o2; o3] =>
      s0 ← decimal 8 o0; s1 ← decimal 8 o1; s2 ← decimal 8 o2; s3 ← decimal 8 o3;
      Some [s0; [46]; s1; [46]; s2; [46]; s3]
  | _ => None
  end.
Definition display_v4 (opt : options) (a : Ipv4Addr) : option bytes := emit 15 opt (v4_pieces a).

(** The longest run of zeros: its start and its length *)
Record Span := MkSpan { start : nat; len : nat }.
Fixpoint zero_spans (segments : list Z) (i : nat) (current longest : Span) : Span :=
  match segments with
  | [] => longest
  | segment :: segments =>
      if segment =? 0 then
        let current := MkSpan (if (len current =? 0)%nat then i else start current) (len current + 1) in
        zero_spans segments (S i) current (if (len longest <? len current)%nat then current else longest)
      else zero_spans segments (S i) (MkSpan 0 0) longest
  end.
Definition zeroes (segments : list Z) : Span := zero_spans segments 0 (MkSpan 0 0) (MkSpan 0 0).

Fixpoint fmt_tail (tail : list Z) : option (list bytes) :=
  match tail with [] => Some [] | segment :: tail => s ← hex segment; r ← fmt_tail tail; Some ([58] :: s :: r) end.
Definition fmt_subslice (chunk : list Z) : option (list bytes) :=
  match chunk with [] => Some [] | first :: tail => s ← hex first; r ← fmt_tail tail; Some (s :: r) end.

Definition v6_pieces (a : Ipv6Addr) : option (list bytes) :=
  match to_ipv4_mapped a with
  | Some ipv4 => s ← v4_pieces ipv4; Some ([58; 58; 102; 102; 102; 102; 58] :: s)
  | None =>
      let zs := zeroes (segments a) in
      if (1 <? len zs)%nat then
        l ← fmt_subslice (take (start zs) (segments a)); r ← fmt_subslice (drop (start zs + len zs) (segments a));
        Some (l ++ [58; 58] :: r)
      else fmt_subslice (segments a)
  end.
Definition display_v6 (opt : options) (a : Ipv6Addr) : option bytes := emit 39 opt (v6_pieces a).

Definition display_ip (opt : options) (a : IpAddr) : option bytes :=
  match a with V4 ip => display_v4 opt ip | V6 ip => display_v6 opt ip end.

Definition sock4_pieces (a : SocketAddrV4) : option (list bytes) :=
  s ← v4_pieces (ip4 a); p ← decimal 16 (port4 a); Some (s ++ [[58]; p]).
Definition display_sock4 (opt : options) (a : SocketAddrV4) : option bytes := emit 21 opt (sock4_pieces a).

Definition sock6_pieces (a : SocketAddrV6) : option (list bytes) :=
  s ← v6_pieces (ip6 a); p ← decimal 16 (port6 a);
  if scope_id a =? 0 then Some ([91] :: s ++ [[93; 58]; p])
  else i ← decimal 32 (scope_id a); Some ([91] :: s ++ [[37]; i; [93; 58]; p]).
Definition display_sock6 (opt : options) (a : SocketAddrV6) : option bytes := emit 58 opt (sock6_pieces a).

Definition display_sock (opt : options) (a : SocketAddr) : option bytes :=
  match a with SV4 a => display_sock4 opt a | SV6 a => display_sock6 opt a end.

Example display_localhost : display_v6 plain (Ipv6 (replicate 15 0 ++ [1])) = Some [58; 58; 49].
Proof. vm_compute. reflexivity. Qed.
Example display_two_runs : display_v6 plain (from_segments [8193; 0; 0; 1; 0; 0; 0; 10]) = Some [50; 48; 48; 49; 58; 48; 58; 48; 58; 49; 58; 58; 97].
Proof. vm_compute. reflexivity. Qed.

(** ** The parser of Internet addresses: [core/src/net/parser.rs].

    A parser is a function of the text that is left; it returns the [Option] of the
    code and what is left after it, also where it fails, or [None] where the code
    would panic.  The loop over digits has fuel for one more digit than there are
    characters. *)

Definition parser (A : Type) : Type := list Z → option (option A * list Z).

#[export] Instance parser_ret : MRet parser := λ A x s, Some (Some x, s).
(** [?] *)
#[export] Instance parser_bind : MBind parser := λ A B k p s,
  match p s with
  | Some (Some x, s) => k x s
  | Some (None, s) => Some (None, s)
  | None => None
  end.
Definition p_fail {A} : parser A := λ s, Some (None, s).
Definition p_panic {A} : parser A := λ _, None.
(** An [Option] that is a value, not an early return *)
Definition p_try {A} (p : parser A) : parser (option A) := λ s, '(r, s) ← p s; Some (Some r, s).
Definition p_option {A} (r : option A) : parser A := λ s, Some (r, s).
(** A value that may have panicked *)
Definition p_lift {A} (r : option A) : parser A := match r with Some x => mret x | None => p_panic end.

Definition read_atomically {A} (inner : parser A) : parser A := λ s,
  '(r, s') ← inner s;
  match r with Some _ => Some (r, s') | None => Some (None, s) end.

Inductive AddrKind := KIp | KIpv4 | KIpv6 | KSocket | KSocketV4 | KSocketV6.

Definition parse_with {A} (inner : parser A) (kind : AddrKind) (s : list Z) : option (A + AddrKind) :=
  '(result, s) ← inner s;
  Some (match s, result with [], Some a => inl a | _, _ => inr kind end).

Definition peek_char : parser (option Z) := λ s, Some (Some (head s), s).
Definition read_char : parser Z := λ s, match s with b :: tail => Some (Some b, tail) | [] => Some (None, []) end.
Definition read_given_char (target : Z) : parser () :=
  read_atomically (c ← read_char; if c =? target then mret () else p_fail).
Definition read_separator {A} (sep : Z) (index : nat) (inner : parser A) : parser A :=
  read_atomically (_ ← (if (0 <? index)%nat then read_given_char sep else mret ()); inner).

(** ** Numbers *)
Definition read_digit (radix : Z) : parser Z :=
  read_atomically (c ← read_char; r ← p_lift (to_digit c radix); p_option r).

Fixpoint read_max_loop (fuel : nat) (radix : Z) (max_digits : nat) (result : Z) (digit_count : nat) : parser (Z * nat) :=
  match fuel with
  | O => p_panic
  | S fuel =>
      digit ← p_try (read_digit radix);
      match digit with
      | None => mret (result, digit_count)
      | Some digit =>
          result ← p_lift (fit (uint 32) (result * radix)); result ← p_lift (fit (uint 32) (result + digit));
          if (max_digits <? digit_count + 1)%nat then p_fail
          else read_max_loop fuel radix max_digits result (digit_count + 1)
      end
  end.

(** [w] is the width of the type of the number. *)
Fixpoint read_checked_loop (fuel : nat) (w radix : Z) (result : Z) (digit_count : nat) : parser (Z * nat) :=
  match fuel with
  | O => p_panic
  | S fuel =>
      digit ← p_try (read_digit radix);
      match digit with
      | None => mret (result, digit_count)
      | Some digit =>
          radix' ← p_option (fit (uint w) radix); result ← p_option (fit (uint w) (result * radix'));
          digit ← p_option (fit (uint w) digit); result ← p_option (fit (uint w) (result + digit));
          read_checked_loop fuel w radix result (digit_count + 1)
      end
  end.

(** The two branches of [read_number]: the number, if it fits, and how many digits it has *)
Definition read_result (w radix : Z) (max_digits : option nat) : parser (option Z * nat) := λ s,
  match max_digits with
  | Some max_digits =>
      (_ ← p_lift (assert (max_digits <? 10)%nat);
       '(result, digit_count) ← read_max_loop (S (length s)) radix max_digits 0 0;
       mret (fit (uint w) result, digit_count)) s
  | None =>
      ('(result, digit_count) ← read_checked_loop (S (length s)) w radix 0 0;
       mret (Some result, digit_count)) s
  end.

Definition read_number (w radix : Z) (max_digits : option nat) (allow_zero_prefix : bool) : parser Z :=
  read_atomically (
    first ← peek_char;
    let has_leading_zero := bool_decide (first = Some 48) in
    '(result, digit_count) ← read_result w radix max_digits;
    if (digit_count =? 0)%nat then p_fail
    else if negb allow_zero_prefix && has_leading_zero && (1 <? digit_count)%nat then p_fail
    else p_option result).

(** ** Addresses *)
Fixpoint read_octets (slots i : nat) : parser (list Z) :=
  match slots with
  | O => mret []
  | S slots =>
      slot ← read_separator 46 i (read_number 8 10 (Some 3%nat) false);
      groups ← read_octets slots (S i); mret (slot :: groups)
  end.
Definition read_ipv4_addr : parser Ipv4Addr := read_atomically (groups ← read_octets 4 0; mret (Ipv4 groups)).

(** [groups[i] = g] *)
Definition set_group (groups : list Z) (i : nat) (g : Z) : option (list Z) :=
  if decide (i < length groups)%nat then Some (<[i := g]> groups) else None.

Fixpoint read_groups_loop (slots limit i : nat) (groups : list Z) : parser (list Z * nat * bool) :=
  match slots with
  | O => mret (groups, length groups, false)
  | S slots =>
      ipv4 ← (if (i <? limit - 1)%nat then p_try (read_separator 58 i read_ipv4_addr) else mret None : parser (option Ipv4Addr));
      match ipv4 with
      | Some v4_addr =>
          match octets4 v4_addr with
          | [one; two; three; four] =>
              groups ← p_lift (set_group groups (i + 0) (from_be_bytes [one; two]));
              groups ← p_lift (set_group groups (i + 1) (from_be_bytes [three; four]));
              mret (groups, (i + 2)%nat, true)
          | _ => p_panic
          end
      | None =>
          group ← p_try (read_separator 58 i (read_number 16 16 (Some 4%nat) true));
          match group with
          | Some g => groups ← p_lift (set_group groups i g); read_groups_loop slots limit (S i) groups
          | None => mret (groups, i, false)
          end
      end
  end.
Definition read_groups (groups : list Z) : parser (list Z * nat * bool) :=
  read_groups_loop (length groups) (length groups) 0 groups.

Definition read_ipv6_addr : parser Ipv6Addr :=
  read_atomically (
    '(head, head_size, head_ipv4) ← read_groups (replicate 8 0);
    if (head_size =? 8)%nat then mret (from_segments head)
    else if (head_ipv4 : bool) then p_fail
    else
      _ ← read_given_char 58; _ ← read_given_char 58;
      let limit := (8 - (head_size + 1))%nat in
      '(tail, tail_size, _) ← read_groups (replicate limit 0);
      mret (from_segments (take (8 - tail_size) head ++ take tail_size tail))).

Definition or_else {A} (p q : parser A) : parser A := r ← p_try p; match r with Some x => mret x | None => q end.

Definition read_ip_addr : parser IpAddr :=
  or_else (a ← read_ipv4_addr; mret (V4 a)) (a ← read_ipv6_addr; mret (V6 a)).
Definition read_port : parser Z := read_atomically (_ ← read_given_char 58; read_number 16 10 None true).
Definition read_scope_id : parser Z := read_atomically (_ ← read_given_char 37; read_number 32 10 None true).
Definition read_socket_addr_v4 : parser SocketAddrV4 :=
  read_atomically (ip ← read_ipv4_addr; port ← read_port; mret (SockV4 ip port)).
Definition read_socket_addr_v6 : parser SocketAddrV6 :=
  read_atomically (
    _ ← read_given_char 91; ip ← read_ipv6_addr;
    scope_id ← p_try read_scope_id; _ ← read_given_char 93;
    port ← read_port; mret (SockV6 ip port 0 (default 0 scope_id))).
Definition read_socket_addr : parser SocketAddr :=
  or_else (a ← read_socket_addr_v4; mret (SV4 a)) (a ← read_socket_addr_v6; mret (SV6 a)).

(** ** The entry points *)
Definition parse_ip (b : list Z) := parse_with read_ip_addr KIp b.
Definition parse_v4 (b : list Z) : option (Ipv4Addr + AddrKind) :=
  if (15 <? length b)%nat then Some (inr KIpv4) else parse_with read_ipv4_addr KIpv4 b.
Definition parse_v6 (b : list Z) := parse_with read_ipv6_addr KIpv6 b.
Definition parse_sock4 (b : list Z) := parse_with read_socket_addr_v4 KSocketV4 b.
Definition parse_sock6 (b : list Z) := parse_with read_socket_addr_v6 KSocketV6 b.
Definition parse_sock (b : list Z) := parse_with read_socket_addr KSocket b.

Example parse_localhost : parse_v6 [58; 58; 49] = Some (inl (Ipv6 (replicate 15 0 ++ [1]))).
Proof. vm_compute. reflexivity. Qed.
Example parse_octal : parse_v4 [48; 49; 46; 49; 46; 49; 46; 49] = Some (inr KIpv4).
Proof. vm_compute. reflexivity. Qed.
Example parse_mapped : parse_ip [58; 58; 102; 102; 102; 102; 58; 49; 46; 50; 46; 51; 46; 52] = Some (inl (V6 (to_ipv6_mapped (Ipv4 [1; 2; 3; 4])))).
Proof. vm_compute. reflexivity. Qed.
