(* ===== verification/NetSpec.v ===== *)
(** The grammar of Internet addresses, and that the parser recognises it.

    A text of the grammar is read up to the first character that cannot continue
    it: for each parser there is a lemma that what it has read is of the grammar
    ([_sound]), one that it reads a text of the grammar whole ([_complete]), and one
    that it does not panic and gives the text back where it fails ([_total]). *)

From S2P Require Import Prelude Words IntSqrt IntFmt IntFmtSpec IntParse NetAddr.

#[local] Open Scope Z_scope.

(** ** The grammar *)
Definition digits_text (radix : Z) (ds : list Z) (b : bytes) : Prop := Forall2 (λ d c, digit_value radix c = Some d) ds b.

(** A number of a type with [w] bits; [max] bounds the number of digits. *)
Definition number_ok (w radix : Z) (max : option nat) (zero_prefix : bool) (ds : list Z) : Prop :=
  ds ≠ [] ∧ (∀ m, max = Some m → (length ds ≤ m)%nat) ∧ (zero_prefix = false → head ds = Some 0 → length ds = 1%nat) ∧ value radix ds < 2 ^ w.
Definition number_text (w radix : Z) (max : option nat) (zero_prefix : bool) (n : Z) (b : bytes) : Prop :=
  ∃ ds, digits_text radix ds b ∧ number_ok w radix max zero_prefix ds ∧ value radix ds = n.
Definition octet_text : Z → bytes → Prop := number_text 8 10 (Some 3%nat) false.
Definition h16_text : Z → bytes → Prop := number_text 16 16 (Some 4%nat) true.
Definition port_text : Z → bytes → Prop := number_text 16 10 None true.
Definition scope_text : Z → bytes → Prop := number_text 32 10 None true.

(** Texts with separators; [i] is the index of the first. *)
Fixpoint joined (sep : Z) (i : nat) (ts : list bytes) : bytes :=
  match ts with [] => [] | t :: ts => (if (0 <? i)%nat then [sep] else []) ++ t ++ joined sep (S i) ts end.

Definition ipv4_text (a : Ipv4Addr) (b : bytes) : Prop :=
  ∃ ts, length ts = 4%nat ∧ Forall2 octet_text (octets4 a) ts ∧ b = joined 46 0 ts.

(** Groups of 16 bits, the last two of which may be written as an IPv4 address *)
Inductive groups_text (i : nat) : bool → list Z → bytes → Prop :=
| groups_hex gs ts : Forall2 h16_text gs ts → groups_text i false gs (joined 58 i ts)
| groups_ipv4 gs ts a t : Forall2 h16_text gs ts → ipv4_text a t →
    groups_text i true (gs ++ be_pairs (octets4 a)) (joined 58 i (ts ++ [t])).

Inductive ipv6_text : Ipv6Addr → bytes → Prop :=
| ipv6_full v4 gs b : groups_text 0 v4 gs b → length gs = 8%nat → ipv6_text (from_segments gs) b
| ipv6_short v4 hd tl bh bt : groups_text 0 false hd bh → groups_text 0 v4 tl bt → (length hd + length tl ≤ 7)%nat →
    ipv6_text (from_segments (hd ++ replicate (8 - length hd - length tl) 0 ++ tl)) (bh ++ [58; 58] ++ bt).

Inductive ip_text : IpAddr → bytes → Prop :=
| ip_v4 a b : ipv4_text a b → ip_text (V4 a) b
| ip_v6 a b : ipv6_text a b → ip_text (V6 a) b.

Inductive sock4_text : SocketAddrV4 → bytes → Prop :=
| sock4_intro a p b bp : ipv4_text a b → port_text p bp → sock4_text (SockV4 a p) (b ++ 58 :: bp).
Inductive sock6_text : SocketAddrV6 → bytes → Prop :=
| sock6_plain a p b bp : ipv6_text a b → port_text p bp → sock6_text (SockV6 a p 0 0) (91 :: b ++ 93 :: 58 :: bp)
| sock6_scope a p i b bp bi : ipv6_text a b → port_text p bp → scope_text i bi →
    sock6_text (SockV6 a p 0 i) (91 :: b ++ 37 :: bi ++ 93 :: 58 :: bp).
Inductive sock_text : SocketAddr → bytes → Prop :=
| sock_v4 a b : sock4_text a b → sock_text (SV4 a) b
| sock_v6 a b : sock6_text a b → sock_text (SV6 a) b.

(** ** Parsers that give back what they read when they fail *)
Definition total {A} (p : parser A) : Prop := ∀ s, Forall byte_ok s → p s = Some (None, s) ∨ ∃ a s', p s = Some (Some a, s').

(** The equation of [?] *)
Lemma bind_eq {A B} (p : parser A) (k : A → parser B) s :
  (x ← p; k x) s = match p s with Some (Some x, s') => k x s' | Some (None, s') => Some (None, s') | None => None end.
Proof. done. Qed.
Lemma try_eq {A} (p : parser A) s : p_try p s = match p s with Some (r, s') => Some (Some r, s') | None => None end.
Proof. unfold p_try. by destruct (p s) as [[? ?]|]. Qed.

Lemma atomically_None {A} (p : parser A) s s' : p s = Some (None, s') → read_atomically p s = Some (None, s).
Proof. intros H. unfold read_atomically. by rewrite H. Qed.
Lemma atomically_Some {A} (p : parser A) s a s' : p s = Some (Some a, s') → read_atomically p s = Some (Some a, s').
Proof. intros H. unfold read_atomically. by rewrite H. Qed.
Lemma atomically_inv {A} (p : parser A) s a s' : read_atomically p s = Some (Some a, s') → p s = Some (Some a, s').
Proof. unfold read_atomically. by destruct (p s) as [[[?|] ?]|]. Qed.

(** ** Numbers *)
Fixpoint digit_run (radix : Z) (s : bytes) : list Z * bytes :=
  match s with
  | [] => ([], [])
  | c :: s' => match digit_value radix c with Some d => let '(ds, r) := digit_run radix s' in (d :: ds, r) | None => ([], s) end
  end.

Definition no_digit (radix : Z) (s : bytes) : Prop := match s with [] => True | c :: _ => digit_value radix c = None end.

Lemma digit_run_text radix s : let '(ds, r) := digit_run radix s in ∃ b, s = b ++ r ∧ digits_text radix ds b ∧ no_digit radix r.
Proof.
  induction s as [|c s IH]; cbn [digit_run]; [by exists []; split; [|split; [constructor|]]|].
  destruct (digit_value radix c) as [d|] eqn:Hc; [|by exists []; split; [|split; [constructor|]]].
  destruct (digit_run radix s) as [ds r]. destruct IH as (b & -> & Hb & Hr). exists (c :: b). split; [done|]. split; [by constructor | done].
Qed.

Lemma digit_run_app radix ds b r : digits_text radix ds b → no_digit radix r → digit_run radix (b ++ r) = (ds, r).
Proof.
  induction 1 as [|d c ds b Hc _ IH]; cbn [app]; intros Hr.
  - destruct r as [|c r]; [done|]. cbn in *. by rewrite Hr.
  - cbn [digit_run]. by rewrite Hc, IH.
Qed.

Lemma digits_ok radix ds b : digits_text radix ds b → Forall (digit_ok radix) ds.
Proof. induction 1; constructor; [by eapply digit_value_range | done]. Qed.

Lemma read_digit_spec radix s : 2 ≤ radix ≤ 36 → Forall byte_ok s →
  read_digit radix s = Some (match s with
    | c :: s' => match digit_value radix c with Some d => (Some d, s') | None => (None, s) end
    | [] => (None, []) end).
Proof.
  intros Hr Hs. destruct s as [|c s]; [done|]. apply Forall_cons in Hs as [Hc _]. unfold read_digit, read_atomically.
  rewrite bind_eq. cbn [read_char]. rewrite bind_eq, to_digit_spec by done. cbn. by destruct (digit_value radix c).
Qed.

Section numbers.
Context (w radix : Z) (Hradix : 2 ≤ radix ≤ 36) (Hw : 8 ≤ w).

Lemma max_loop_spec max fuel : ∀ s acc count, Forall byte_ok s → (length s < fuel)%nat → (count ≤ max)%nat →
  radix ^ (Z.of_nat max + 1) ≤ 2 ^ 32 → 0 ≤ acc < radix ^ Z.of_nat count →
  let '(ds, rest) := digit_run radix s in
  if decide (count + length ds ≤ max)%nat
  then read_max_loop fuel radix max acc count s = Some (Some (foldl (λ acc d, acc * radix + d) acc ds, (count + length ds)%nat), rest)
  else ∃ s', read_max_loop fuel radix max acc count s = Some (None, s').
Proof using Hradix.
  induction fuel as [|fuel IH]; intros s acc count Hs Hfuel Hcount Hmax Hacc; [lia|].
  cbn [read_max_loop]. rewrite bind_eq, try_eq, read_digit_spec by done.
  destruct s as [|c s]; cbn [digit_run length foldl]; [rewrite Nat.add_0_r; by rewrite decide_True|].
  destruct (digit_value radix c) as [d|] eqn:Hc; [|cbn [length foldl]; rewrite Nat.add_0_r; by rewrite decide_True].
  pose proof (digit_value_range radix c d Hc) as Hd. apply Forall_cons in Hs as [_ Hs]. cbn [length] in Hfuel.
  assert (Hpow : radix ^ Z.of_nat (count + 1) = radix * radix ^ Z.of_nat count) by (rewrite Nat.add_1_r, Nat2Z.inj_succ, Z.pow_succ_r by lia; done).
  assert (Hbound : radix * radix ^ Z.of_nat count ≤ 2 ^ 32) by (rewrite <- Hpow; apply Z.le_trans with (2 := Hmax); apply Z.pow_le_mono_r; lia).
  assert (Hstep : acc * radix + d < radix * radix ^ Z.of_nat count).
  { assert ((acc + 1) * radix ≤ radix ^ Z.of_nat count * radix) by (apply Z.mul_le_mono_nonneg_r; lia). lia. }
  assert (Hpos : 0 ≤ acc * radix) by (apply Z.mul_nonneg_nonneg; lia).
  rewrite bind_eq. rewrite fit_u by lia. cbn [p_lift mret parser_ret]. rewrite bind_eq, fit_u by lia. cbn [p_lift mret parser_ret].
  specialize (IH s (acc * radix + d) (count + 1)%nat Hs ltac:(lia)).
  destruct (digit_run radix s) as [ds rest]. cbn [length foldl].
  destruct (Nat.ltb_spec max (count + 1)) as [Hlt|Hge].
  - rewrite decide_False by lia. by eexists.
  - specialize (IH ltac:(lia) Hmax ltac:(lia)). by replace (count + S (length ds))%nat with (count + 1 + length ds)%nat by lia.
Qed.

Lemma checked_loop_spec fuel : ∀ s acc count, Forall byte_ok s → (length s < fuel)%nat → 0 ≤ acc < 2 ^ w →
  let '(ds, rest) := digit_run radix s in
  let v := foldl (λ acc d, acc * radix + d) acc ds in
  if decide (v < 2 ^ w) then read_checked_loop fuel w radix acc count s = Some (Some (v, (count + length ds)%nat), rest)
  else ∃ s', read_checked_loop fuel w radix acc count s = Some (None, s').
Proof using All.
  induction fuel as [|fuel IH]; intros s acc count Hs Hfuel Hacc; [lia|].
  cbn [read_checked_loop]. rewrite bind_eq, try_eq, read_digit_spec by done.
  destruct s as [|c s]; cbn [digit_run length foldl]; [rewrite Nat.add_0_r; cbn zeta; by rewrite decide_True by apply Hacc|].
  destruct (digit_value radix c) as [d|] eqn:Hc; [|cbn [length foldl]; cbn zeta; rewrite Nat.add_0_r; by rewrite decide_True by apply Hacc].
  pose proof (digit_value_range radix c d Hc) as Hd. apply Forall_cons in Hs as [_ Hs]. cbn [length] in Hfuel.
  assert (H256 : 256 ≤ 2 ^ w) by (apply (Z.pow_le_mono_r 2 8); lia).
  assert (Hpos : 0 ≤ acc * radix) by (apply Z.mul_nonneg_nonneg; lia).
  rewrite bind_eq, (fit_u w radix) by lia. cbn [p_option]. rewrite bind_eq.
  specialize (IH s (acc * radix + d) (count + 1)%nat Hs ltac:(lia)).
  pose proof (digit_run_text radix s) as Hrun. destruct (digit_run radix s) as [ds rest]. destruct Hrun as (b & _ & Hds & _).
  cbn [length foldl]. cbn zeta in IH |- *.
  pose proof (foldl_ge radix ds (acc * radix + d) ltac:(lia) (digits_ok _ _ _ Hds) ltac:(lia)) as Hge.
  destruct (decide (acc * radix + d < 2 ^ w)) as [Hin|Hout].
  - rewrite (fit_u w (acc * radix)) by lia. cbn [p_option]. rewrite bind_eq, (fit_u w d) by lia. cbn [p_option].
    rewrite bind_eq, (fit_u w (acc * radix + d)) by lia. cbn [p_option].
    specialize (IH ltac:(lia)). by replace (count + S (length ds))%nat with (count + 1 + length ds)%nat by lia.
  - rewrite decide_False by lia. destruct (decide (acc * radix < 2 ^ w)) as [Hin|Hout'].
    + rewrite (fit_u w (acc * radix)) by lia. cbn [p_option]. rewrite bind_eq, (fit_u w d) by lia. cbn [p_option].
      rewrite bind_eq, fit_out by (rewrite uint_range; lia). by eexists.
    + rewrite fit_out by (rewrite uint_range; lia). by eexists.
Qed.
End numbers.

Lemma digit_zero radix c d : 2 ≤ radix → digit_value radix c = Some d → d = 0 ↔ c = 48.
Proof.
  unfold digit_value. intros Hr H.
  destruct (Z.leb_spec 48 c), (Z.leb_spec c 57), (Z.leb_spec 97 c), (Z.leb_spec c 122), (Z.leb_spec 65 c), (Z.leb_spec c 90);
    cbn [andb mbind option_bind] in H; try done; try lia; case_match eqn:E; simplify_eq; apply Z.ltb_lt in E; lia.
Qed.

(** Where the loops do not overflow the [u32] *)
Definition number_args (w radix : Z) (max : option nat) : Prop :=
  2 ≤ radix ≤ 36 ∧ 8 ≤ w ∧ ∀ m, max = Some m → (m < 10)%nat ∧ radix ^ (Z.of_nat m + 1) ≤ 2 ^ 32.

Lemma octet_args : number_args 8 10 (Some 3%nat).
Proof. split; [done|]. split; [done|]. intros m [= <-]. split; [lia | done]. Qed.
Lemma h16_args : number_args 16 16 (Some 4%nat).
Proof. split; [done|]. split; [done|]. intros m [= <-]. split; [lia | done]. Qed.
Lemma port_args : number_args 16 10 None.
Proof. by split. Qed.
Lemma scope_args : number_args 32 10 None.
Proof. by split. Qed.

Lemma number_result w radix max zp s ds rest : 2 ≤ radix → digit_run radix s = (ds, rest) → (∀ m, max = Some m → (length ds ≤ m)%nat) →
  number_ok w radix max zp ds ↔
  (length ds =? 0)%nat = false ∧ negb zp && bool_decide (head s = Some 48) && (1 <? length ds)%nat = false ∧ value radix ds < 2 ^ w.
Proof.
  intros Hr Hrun Hmax. unfold number_ok.
  assert (Hhd : ds ≠ [] → head ds = Some 0 ↔ head s = Some 48).
  { intros Hne. destruct s as [|c s]; cbn [digit_run] in Hrun; [congruence|].
    destruct (digit_value radix c) as [d|] eqn:Hc; [|congruence]. destruct (digit_run radix s). injection Hrun as <- <-. cbn [head].
    pose proof (digit_zero radix c d Hr Hc). split; intros [= H']; f_equal; tauto. }
  rewrite Nat.eqb_neq. assert (length ds ≠ 0%nat ↔ ds ≠ []) as -> by (destruct ds; naive_solver).
  destruct (decide (ds = [])) as [Hnil|Hne]; [naive_solver|]. specialize (Hhd Hne).
  assert (0 < length ds)%nat by (destruct ds; [done | cbn; lia]).
  destruct zp; cbn [negb andb]; [naive_solver|]. rewrite andb_false_iff, bool_decide_eq_false, Nat.ltb_ge.
  split; [intros (_ & _ & Hz & Hv) | intros (_ & Hz & Hv)]; split_and!; try done.
  - destruct (decide (head s = Some 48)); [right; rewrite Hz; [done|done|by apply Hhd] | by left].
  - intros _ Hh. destruct Hz as [Hz|Hz]; [by apply Hhd in Hh | lia].
Qed.


Lemma read_result_spec w radix max s : number_args w radix max → Forall byte_ok s →
  let '(ds, rest) := digit_run radix s in
  let fits := (∀ m, max = Some m → (length ds ≤ m)%nat) ∧ (max = None → value radix ds < 2 ^ w) in
  fits ∧ read_result w radix max s = Some (Some (fit (uint w) (value radix ds), length ds), rest) ∨
  ¬ fits ∧ ∃ s', read_result w radix max s = Some (None, s').
Proof.
  intros (Hradix & Hw & Hm) Hs. pose proof (digit_run_text radix s) as Hrun. destruct (digit_run radix s) as [ds rest] eqn:Hds.
  destruct Hrun as (b & _ & Hb & _). pose proof (value_bound radix ds ltac:(lia) (digits_ok _ _ _ Hb)) as [Hv0 _].
  assert (0 < 2 ^ w) by (apply Z.pow_pos_nonneg; lia). cbn zeta. unfold read_result. destruct max as [m|].
  - destruct (Hm m eq_refl) as [Hm10 Hm32]. rewrite bind_eq, (proj2 (Nat.ltb_lt m 10)) by done. cbn [assert p_lift mret parser_ret].
    rewrite bind_eq.
    pose proof (max_loop_spec radix Hradix m (S (length s)) s 0 0 Hs ltac:(lia) ltac:(lia) Hm32 ltac:(change (radix ^ Z.of_nat 0) with 1; lia)) as Hl.
    rewrite Hds, Nat.add_0_l in Hl. case_decide; [left | right].
    + rewrite Hl. split; [|done]. split; [by intros m' [= <-] | done].
    + destruct Hl as [s' ->]. split; [|by eexists]. intros [Hle _]. by specialize (Hle m eq_refl).
  - rewrite bind_eq. pose proof (checked_loop_spec w radix Hradix Hw (S (length s)) s 0 0 Hs ltac:(lia) ltac:(lia)) as Hl.
    rewrite Hds in Hl. cbn zeta in Hl. fold (value radix ds) in Hl. case_decide; [left | right].
    + rewrite Hl, fit_u by lia. split; [|done]. by split.
    + destruct Hl as [s' ->]. split; [|by eexists]. intros [_ Hle]. by specialize (Hle eq_refl).
Qed.

Lemma read_number_spec w radix max zp s : number_args w radix max → Forall byte_ok s →
  let '(ds, rest) := digit_run radix s in
  number_ok w radix max zp ds ∧ read_number w radix max zp s = Some (Some (value radix ds), rest) ∨
  ¬ number_ok w radix max zp ds ∧ read_number w radix max zp s = Some (None, s).
Proof.
  intros Hargs Hs. pose proof (read_result_spec w radix max s Hargs Hs) as Hr. pose proof (digit_run_text radix s) as Hrun.
  destruct (digit_run radix s) as [ds rest] eqn:Hds. destruct Hrun as (b & _ & Hb & _). destruct Hargs as ((? & ?) & Hw & _).
  pose proof (value_bound radix ds ltac:(lia) (digits_ok _ _ _ Hb)) as [Hv0 _].
  cbn zeta in Hr. unfold read_number, read_atomically. rewrite bind_eq. cbn [peek_char]. rewrite bind_eq.
  destruct Hr as [[[Hmax _] ->] | [Hfits [s' ->]]].
  2:{ right. split; [|done]. intros (_ & ? & _ & ?). by apply Hfits. }
  pose proof (number_result w radix max zp s ds rest ltac:(lia) Hds Hmax) as Hres.
  destruct (length ds =? 0)%nat; [right; split; [by intros (? & _)%Hres | done]|].
  destruct (negb zp && bool_decide (head s = Some 48) && (1 <? length ds)%nat); [right; split; [by intros (_ & ? & _)%Hres | done]|].
  destruct (decide (value radix ds < 2 ^ w)); [left | right].
  - split; [by apply Hres|]. by rewrite fit_u by lia.
  - split; [by intros (_ & _ & ?)%Hres|]. by rewrite fit_out by (rewrite uint_range; lia).
Qed.

(** What follows from it *)
Section read_number.
Context (w radix : Z) (max : option nat) (zp : bool) (Hargs : number_args w radix max).

Lemma read_number_total : total (read_number w radix max zp).
Proof using Hargs.
  intros s Hs. pose proof (read_number_spec w radix max zp s Hargs Hs) as H. destruct (digit_run radix s) as [ds rest].
  destruct H as [[_ H] | [_ H]]; [right; by do 2 eexists | by left].
Qed.

Lemma read_number_sound s n s' : Forall byte_ok s → read_number w radix max zp s = Some (Some n, s') →
  ∃ b, s = b ++ s' ∧ number_text w radix max zp n b ∧ no_digit radix s'.
Proof using Hargs.
  intros Hs Hread. pose proof (read_number_spec w radix max zp s Hargs Hs) as H. pose proof (digit_run_text radix s) as Hrun.
  destruct (digit_run radix s) as [ds rest]. destruct H as [[Hok H] | [_ H]]; [|congruence]. rewrite H in Hread. injection Hread as <- <-.
  destruct Hrun as (b & -> & Hb & Hr). exists b. split; [done|]. split; [by exists ds | done].
Qed.

Lemma read_number_complete n b s' : Forall byte_ok (b ++ s') → number_text w radix max zp n b → no_digit radix s' →
  read_number w radix max zp (b ++ s') = Some (Some n, s').
Proof using Hargs.
  intros Hs (ds & Hb & Hok & <-) Hr. pose proof (read_number_spec w radix max zp (b ++ s') Hargs Hs) as H.
  rewrite (digit_run_app radix ds b s' Hb Hr) in H. by destruct H as [[_ ?] | [? _]].
Qed.
End read_number.

(** ** Separators *)
Lemma read_given_char_spec target s :
  read_given_char target s = Some (match s with c :: s' => if c =? target then (Some (), s') else (None, s) | [] => (None, []) end).
Proof. unfold read_given_char, read_atomically. rewrite bind_eq. destruct s as [|c s]; [done|]. cbn [read_char]. by case (c =? target). Qed.

Lemma read_separator_0 {A} sep (inner : parser A) s : total inner → Forall byte_ok s → read_separator sep 0 inner s = inner s.
Proof. intros Ht Hs. unfold read_separator, read_atomically. rewrite bind_eq. cbn. by destruct (Ht s Hs) as [-> | (a & s' & ->)]. Qed.

Lemma read_separator_S {A} sep i (inner : parser A) s : total inner → Forall byte_ok s →
  read_separator sep (S i) inner s =
  match s with
  | c :: s1 => if c =? sep then match inner s1 with Some (Some a, s') => Some (Some a, s') | _ => Some (None, s) end else Some (None, s)
  | [] => Some (None, [])
  end.
Proof.
  intros Ht Hs. unfold read_separator, read_atomically. rewrite bind_eq. cbn [Nat.ltb Nat.leb]. rewrite read_given_char_spec.
  destruct s as [|c s1]; [done|]. case (c =? sep); [|done]. apply Forall_cons in Hs as [_ Hs]. by destruct (Ht s1 Hs) as [-> | (a & s' & ->)].
Qed.

Definition sep_of (sep : Z) (i : nat) : bytes := if (0 <? i)%nat then [sep] else [].

Lemma read_separator_total {A} sep i (inner : parser A) : total inner → total (read_separator sep i inner).
Proof.
  intros Ht s Hs. destruct i as [|i]; [rewrite read_separator_0 by done; by apply Ht|]. rewrite read_separator_S by done.
  destruct s as [|c s]; [by left|]. destruct (c =? sep); [|by left]. apply Forall_cons in Hs as [_ Hs].
  destruct (Ht s Hs) as [-> | (a & s' & ->)]; [by left | right; by do 2 eexists].
Qed.

Lemma read_separator_sound {A} sep i (inner : parser A) s a s' : total inner → Forall byte_ok s →
  read_separator sep i inner s = Some (Some a, s') → ∃ s1, s = sep_of sep i ++ s1 ∧ inner s1 = Some (Some a, s').
Proof.
  intros Ht Hs. destruct i as [|i]; [rewrite read_separator_0 by done; intros H; by exists s|]. rewrite read_separator_S by done.
  destruct s as [|c s]; [done|]. destruct (Z.eqb_spec c sep) as [->|]; [|done]. intros H. exists s. split; [done|].
  by destruct (inner s) as [[[?|] ?]|].
Qed.

Lemma read_separator_complete {A} sep i (inner : parser A) s1 a s' : total inner → Forall byte_ok (sep_of sep i ++ s1) →
  inner s1 = Some (Some a, s') → read_separator sep i inner (sep_of sep i ++ s1) = Some (Some a, s').
Proof.
  intros Ht Hs H. destruct i as [|i]; [by rewrite read_separator_0|]. rewrite read_separator_S by done. cbn. by rewrite Z.eqb_refl, H.
Qed.

(** ** IPv4 *)
Definition octet : parser Z := read_number 8 10 (Some 3%nat) false.

Lemma octet_total : total octet.
Proof. apply read_number_total, octet_args. Qed.

Lemma read_octets_cases k : ∀ i s, Forall byte_ok s → (∃ s', read_octets k i s = Some (None, s')) ∨ ∃ os s', read_octets k i s = Some (Some os, s').
Proof.
  induction k as [|k IH]; intros i s Hs; cbn [read_octets]; [right; by do 2 eexists|]. rewrite bind_eq. fold octet.
  destruct (read_separator_total 46 i octet octet_total s Hs) as [-> | (o & s' & Ho)]; [left; by eexists|]. rewrite Ho, bind_eq.
  apply read_separator_sound in Ho as (s1 & -> & Ho); [|apply octet_total | done]. apply Forall_app in Hs as [_ Hs].
  apply read_number_sound in Ho as (b & -> & _); [|apply octet_args | done]. apply Forall_app in Hs as [_ Hs].
  destruct (IH (S i) s' Hs) as [[s'' ->] | (os & s'' & ->)]; [left; by eexists | right; by do 2 eexists].
Qed.

Lemma read_octets_sound k : ∀ i s os s', Forall byte_ok s → read_octets k i s = Some (Some os, s') →
  ∃ ts, length ts = k ∧ Forall2 octet_text os ts ∧ s = joined 46 i ts ++ s' ∧ (k ≠ 0%nat → no_digit 10 s').
Proof.
  induction k as [|k IH]; intros i s os s' Hs; cbn [read_octets]; [by intros [= <- <-]; exists []|]. rewrite bind_eq. fold octet.
  destruct (read_separator 46 i octet s) as [[[o|] s0]|] eqn:Ho; [|done..]. rewrite bind_eq.
  apply read_separator_sound in Ho as (s1 & -> & Ho); [|apply octet_total | done]. apply Forall_app in Hs as [_ Hs].
  apply read_number_sound in Ho as (b & -> & Hb & Hr); [|apply octet_args | done]. apply Forall_app in Hs as [_ Hs].
  destruct (read_octets k (S i) s0) as [[[os'|] s'']|] eqn:Hos; [|done..]. intros [= <- <-].
  destruct (IH _ _ _ _ Hs Hos) as (ts & Hlen & Hts & Heq & Hend). exists (b :: ts). split; [cbn; lia|]. split; [by constructor|].
  split; [cbn [joined]; by rewrite <- !app_assoc, <- Heq|]. intros _. destruct k; [|by apply Hend].
  destruct ts; [|done]. cbn in Heq. by subst s0.
Qed.

Lemma joined_no_digit radix sep i ts s' : digit_value radix sep = None → no_digit radix s' → no_digit radix (joined sep (S i) ts ++ s').
Proof. intros Hsep Hs. by destruct ts. Qed.

Lemma read_octets_complete os ts : Forall2 octet_text os ts → ∀ i s', Forall byte_ok (joined 46 i ts ++ s') → no_digit 10 s' →
  read_octets (length ts) i (joined 46 i ts ++ s') = Some (Some os, s').
Proof.
  induction 1 as [|o t os ts Ho _ IH]; intros i s' Hs Hr; [done|]. cbn [length read_octets joined] in *. rewrite <- !app_assoc in *.
  rewrite bind_eq. fold octet. fold (sep_of 46 i) in *. pose proof Hs as Hs'. apply Forall_app in Hs as [_ Hs].
  rewrite (read_separator_complete 46 i octet _ o (joined 46 (S i) ts ++ s')); [|apply octet_total | done|].
  2:{ apply read_number_complete; [apply octet_args | done | done | by apply joined_no_digit]. }
  rewrite bind_eq. apply Forall_app in Hs as [_ Hs]. by rewrite IH.
Qed.

Lemma ipv4_total : total read_ipv4_addr.
Proof.
  intros s Hs. unfold read_ipv4_addr. destruct (read_octets_cases 4 0 s Hs) as [[s' H] | (os & s' & H)].
  - left. eapply atomically_None. rewrite bind_eq, H. done.
  - right. do 2 eexists. eapply atomically_Some. rewrite bind_eq, H. done.
Qed.

Lemma ipv4_sound s a s' : Forall byte_ok s → read_ipv4_addr s = Some (Some a, s') → ∃ b, s = b ++ s' ∧ ipv4_text a b ∧ no_digit 10 s'.
Proof.
  intros Hs H%atomically_inv. rewrite bind_eq in H. destruct (read_octets 4 0 s) as [[[os|] s0]|] eqn:Hos; [|done..].
  injection H as <- <-. destruct (read_octets_sound _ _ _ _ _ Hs Hos) as (ts & Hlen & Hts & -> & Hend).
  eexists. split; [done|]. split; [by exists ts | by apply Hend].
Qed.

Lemma ipv4_complete a b s' : Forall byte_ok (b ++ s') → ipv4_text a b → no_digit 10 s' → read_ipv4_addr (b ++ s') = Some (Some a, s').
Proof.
  intros Hs (ts & Hlen & Hts & ->) Hr. eapply atomically_Some. rewrite bind_eq, <- Hlen.
  rewrite (read_octets_complete (octets4 a) ts) by done. by destruct a.
Qed.

(** An address does not begin with a group that something else than a dot follows. *)
Lemma hex_digit_text ds b : digits_text 10 ds b → digits_text 16 ds b.
Proof.
  intros Hb. eapply Forall2_impl; [exact Hb|]. intros d c. cbn beta. unfold digit_value. clear. intros H.
  destruct (Z.leb_spec 48 c), (Z.leb_spec c 57), (Z.leb_spec 97 c), (Z.leb_spec c 122), (Z.leb_spec 65 c), (Z.leb_spec c 90);
    cbn [andb mbind option_bind] in H |- *; try done; try lia; (case_match eqn:E; [|done]); apply Z.ltb_lt in E; simplify_eq; by rewrite (proj2 (Z.ltb_lt _ 16)) by lia.
Qed.

Lemma ipv4_starts a b s : ipv4_text a b → ∃ ds r, digit_run 16 (b ++ s) = (ds, 46 :: r).
Proof.
  intros (ts & Hlen & Hts & ->). destruct (octets4 a) as [|o1 os]; [by inversion Hts; subst|].
  inversion Hts as [|? t1 ? ts' (ds & Hd & _) Hts' E1 E2]; subst. destruct ts' as [|t2 ts']; [done|].
  cbn [joined]. rewrite <- !app_assoc. exists ds, (t2 ++ joined 46 2 ts' ++ s).
  apply (digit_run_app 16 ds t1); [by apply hex_digit_text | done].
Qed.

Lemma ipv4_not_group t n s : Forall byte_ok (t ++ s) → h16_text n t → no_digit 16 s → head s ≠ Some 46 → read_ipv4_addr (t ++ s) = Some (None, t ++ s).
Proof.
  intros Hs (ds & Hd & _) Hr Hh. destruct (ipv4_total _ Hs) as [H | (a & s' & H)]; [done|]. exfalso.
  destruct (ipv4_sound _ _ _ Hs H) as (b & Heq & Hb & _). destruct (ipv4_starts a b s' Hb) as (ds' & r & Hrun).
  rewrite <- Heq, (digit_run_app 16 ds) in Hrun by done. injection Hrun as _ ->. by apply Hh.
Qed.

(** ** Groups *)
Definition group : parser Z := read_number 16 16 (Some 4%nat) true.
Lemma group_total : total group.
Proof. apply read_number_total, h16_args. Qed.

Lemma number_head w radix max zp n b s : number_text w radix max zp n b → ¬ no_digit radix (b ++ s).
Proof. intros (ds & Hd & (Hne & _) & _). destruct Hd as [|d c ds b Hc _]; [done|]. cbn. congruence. Qed.

Lemma ipv4_head a b s : ipv4_text a b → ¬ no_digit 16 (b ++ s).
Proof.
  intros (ts & Hlen & Hts & ->). destruct (octets4 a) as [|o1 os]; [by inversion Hts; subst|].
  inversion Hts as [|? t1 ? ts' (ds & Hd & (Hne & _) & _) Hts' E1 E2]; subst. apply hex_digit_text in Hd.
  destruct Hd as [|d c ds b Hc _]; [done|]. cbn. congruence.
Qed.

Lemma group_fails s : Forall byte_ok s → no_digit 16 s → group s = Some (None, s).
Proof.
  intros Hs Hr. destruct (group_total s Hs) as [|(g & s' & H)]; [done|]. exfalso.
  apply read_number_sound in H as (b & -> & Hb & _); [|apply h16_args | done]. by apply number_head with (s := s') in Hb.
Qed.
Lemma ipv4_fails s : Forall byte_ok s → no_digit 16 s → read_ipv4_addr s = Some (None, s).
Proof.
  intros Hs Hr. destruct (ipv4_total s Hs) as [|(a & s' & H)]; [done|]. exfalso.
  apply ipv4_sound in H as (b & -> & Hb & _); [|done]. by apply ipv4_head with (s := s') in Hb.
Qed.

(** What cannot continue a sequence of groups *)
Definition stops (s : bytes) : Prop := no_digit 16 s ∧ head s ≠ Some 46.
Definition ends (s : bytes) : Prop := stops s ∧ ∀ s1, s = 58 :: s1 → no_digit 16 s1.

Lemma separator_fails {A} (inner : parser A) i s : total inner → (∀ s1, Forall byte_ok s1 → no_digit 16 s1 → inner s1 = Some (None, s1)) →
  Forall byte_ok s → ends s → read_separator 58 i inner s = Some (None, s).
Proof.
  intros Ht Hfail Hs [[Hr _] Hsep]. destruct i as [|i]; [rewrite read_separator_0 by done; by apply Hfail|]. rewrite read_separator_S by done.
  destruct s as [|c s]; [done|]. destruct (Z.eqb_spec c 58) as [->|]; [|done]. apply Forall_cons in Hs as [_ Hs].
  by rewrite Hfail by (by auto).
Qed.

Lemma groups_cons i v4 g t gs b : h16_text g t → groups_text (S i) v4 gs b → groups_text i v4 (g :: gs) (sep_of 58 i ++ t ++ b).
Proof.
  intros Hg [gs' ts Hgs | gs' ts a t' Hgs Ha].
  - apply (groups_hex i (g :: gs') (t :: ts)). by constructor.
  - apply (groups_ipv4 i (g :: gs') (t :: ts) a t'); [by constructor | done].
Qed.

Lemma groups_nil i : groups_text i false [] [].
Proof. apply (groups_hex i [] []). constructor. Qed.

Lemma ipv4_octets a b : ipv4_text a b → ∃ o1 o2 o3 o4, octets4 a = [o1; o2; o3; o4].
Proof.
  intros (ts & Hlen & Hts & _). apply Forall2_length in Hts. rewrite Hlen in Hts.
  destruct (octets4 a) as [|o1 [|o2 [|o3 [|o4 [|]]]]]; try done. by repeat eexists.
Qed.

Lemma set_group_ok (l : list Z) i g : (i < length l)%nat → set_group l i g = Some (<[i := g]> l).
Proof. intros. unfold set_group. by rewrite decide_True. Qed.

(** The array after [gs] has been written at [i] *)
Definition overwrite (l : list Z) (i : nat) (gs : list Z) : list Z := take i l ++ gs ++ drop (i + length gs) l.

Lemma overwrite_cons l i g gs : (i < length l)%nat → overwrite (<[i := g]> l) (S i) gs = overwrite l i (g :: gs).
Proof.
  intros Hi. unfold overwrite. cbn [length]. rewrite (drop_insert_lt l _ i g) by lia. replace (i + S (length gs))%nat with (S i + length gs)%nat by lia.
  rewrite (take_S_r _ _ g) by (by apply list_lookup_insert_eq). rewrite take_insert_ge by lia. by rewrite <- app_assoc.
Qed.
Lemma overwrite_nil l i : overwrite l i [] = l.
Proof. unfold overwrite. cbn. rewrite Nat.add_0_r. apply take_drop. Qed.

(** One turn of the loop: it reads an IPv4 address, a group, or ends. *)
Definition try_ipv4 (limit i : nat) : parser (option Ipv4Addr) :=
  if (i <? limit - 1)%nat then p_try (read_separator 58 i read_ipv4_addr) else mret None.

Lemma loop_ipv4 slots limit i groups a t s' : (i + 1 < limit)%nat → length groups = limit →
  ipv4_text a t → Forall byte_ok (sep_of 58 i ++ t ++ s') → no_digit 10 s' →
  read_groups_loop (S slots) limit i groups (sep_of 58 i ++ t ++ s') =
  Some (Some (overwrite groups i (be_pairs (octets4 a)), (i + 2)%nat, true), s').
Proof.
  intros Hi Hlen Ha Hs Hr. cbn [read_groups_loop]. rewrite bind_eq. rewrite (proj2 (Nat.ltb_lt i (limit - 1))) by lia. rewrite try_eq.
  rewrite (read_separator_complete 58 i read_ipv4_addr _ a s'); [|apply ipv4_total | done |].
  2:{ apply ipv4_complete; [by apply Forall_app in Hs as [_ ?] | done | done]. }
  destruct (ipv4_octets a t Ha) as (o1 & o2 & o3 & o4 & ->). rewrite bind_eq. rewrite Nat.add_0_r, set_group_ok by lia. cbn [p_lift mret parser_ret].
  rewrite bind_eq, set_group_ok by (rewrite length_insert; lia). cbn [p_lift mret parser_ret be_pairs]. do 4 f_equal.
  rewrite Nat.add_1_r, <- (overwrite_nil (<[S i := _]> _) (S (S i))), !overwrite_cons; [done | lia | rewrite length_insert; lia].
Qed.

Lemma loop_group slots limit i groups g t r : (i < limit)%nat → length groups = limit →
  h16_text g t → Forall byte_ok (sep_of 58 i ++ t ++ r) → stops r →
  read_groups_loop (S slots) limit i groups (sep_of 58 i ++ t ++ r) = read_groups_loop slots limit (S i) (<[i := g]> groups) r.
Proof.
  intros Hi Hlen Hg Hs [Hr Hh]. cbn [read_groups_loop]. rewrite bind_eq. fold (try_ipv4 limit i).
  assert (try_ipv4 limit i (sep_of 58 i ++ t ++ r) = Some (Some None, sep_of 58 i ++ t ++ r)) as ->.
  { unfold try_ipv4. destruct (Nat.ltb i (limit - 1)); [|done]. rewrite try_eq. pose proof Hs as Hs'. apply Forall_app in Hs' as [_ Hs'].
    pose proof (ipv4_not_group t g r Hs' Hg Hr Hh) as Hf.
    destruct i as [|i]; [change (sep_of 58 0 ++ t ++ r) with (t ++ r) in *; by rewrite read_separator_0, Hf by (apply ipv4_total || done)|].
    rewrite read_separator_S by (apply ipv4_total || done). cbn [sep_of Nat.ltb Nat.leb app]. by rewrite Z.eqb_refl, Hf. }
  rewrite bind_eq, try_eq. fold group. rewrite (read_separator_complete 58 i group _ g r); [|apply group_total | done |].
  2:{ apply read_number_complete; [apply h16_args | by apply Forall_app in Hs as [_ ?] | done | done]. }
  by rewrite bind_eq, set_group_ok by lia.
Qed.

Lemma loop_ends slots limit i groups s : (i < limit)%nat → Forall byte_ok s → ends s →
  read_groups_loop (S slots) limit i groups s = Some (Some (groups, i, false), s).
Proof.
  intros Hi Hs He. cbn [read_groups_loop]. rewrite bind_eq. fold (try_ipv4 limit i).
  assert (try_ipv4 limit i s = Some (Some None, s)) as ->.
  { unfold try_ipv4. destruct (Nat.ltb i (limit - 1)); [|done].
    by rewrite try_eq, separator_fails by (done || apply ipv4_total || apply ipv4_fails). }
  by rewrite bind_eq, try_eq, separator_fails by (done || apply group_total || apply group_fails).
Qed.

(** What may follow a sequence that ends at [n] of [limit] groups *)
Definition follows (v4 : bool) (n limit : nat) (s : bytes) : Prop :=
  if v4 then no_digit 10 s else ends s ∨ stops s ∧ n = limit.

Lemma joined_stops i ts s : stops s → stops (joined 58 (S i) ts ++ s).
Proof. by destruct ts. Qed.

Lemma groups_complete v4 gs b i : groups_text i v4 gs b → ∀ slots limit groups s', slots = (limit - i)%nat → length groups = limit →
  (i + length gs ≤ limit)%nat → Forall byte_ok (b ++ s') → follows v4 (i + length gs) limit s' →
  read_groups_loop slots limit i groups (b ++ s') = Some (Some (overwrite groups i gs, (i + length gs)%nat, v4), s').
Proof.
  intros H. destruct H as [gs ts Hgs | gs ts a t Hgs Ha]; intros slots limit groups s' -> Hlen Hle Hs Hf; revert i groups Hlen Hle Hs Hf.
  - induction Hgs as [|g t gs ts Hg Hgs IH]; intros i groups Hlen Hle Hs Hf; cbn [joined length app] in *.
    + rewrite Nat.add_0_r, overwrite_nil in *. destruct (limit - i)%nat as [|k] eqn:Hk.
      * cbn [read_groups_loop]. assert (length groups = i) as -> by lia. done.
      * destruct Hf as [He|[_ ?]]; [|lia]. apply loop_ends; [lia | done | done].
    + fold (sep_of 58 i) in *. rewrite <- !app_assoc in *. replace (limit - i)%nat with (S (limit - S i)) by lia.
      assert (Hst : stops s') by (destruct Hf as [[? _] | [? _]]; done).
      rewrite (loop_group _ limit i groups g t); [|lia|done|done|done|by apply joined_stops]. apply Forall_app in Hs as [_ Hs]. apply Forall_app in Hs as [_ Hs].
      replace (i + S (length gs))%nat with (S i + length gs)%nat in * by lia.
      rewrite IH; [|rewrite length_insert; done | lia | done | done]. by rewrite overwrite_cons by lia.
  - destruct (ipv4_octets a t Ha) as (o1 & o2 & o3 & o4 & Ho).
    assert (Hpairs : length (be_pairs (octets4 a)) = 2%nat) by (by rewrite Ho).
    rewrite !length_app, Hpairs. induction Hgs as [|g t' gs ts Hg Hgs IH]; intros i groups Hlen Hle Hs Hf; cbn [joined length app] in *.
    + fold (sep_of 58 i) in *. rewrite app_nil_r in *. rewrite <- !app_assoc in *. replace (limit - i)%nat with (S (limit - S i)) by lia.
      by rewrite (loop_ipv4 _ limit i groups a t) by (done || lia).
    + fold (sep_of 58 i) in *. rewrite <- !app_assoc in *. replace (limit - i)%nat with (S (limit - S i)) by lia.
      rewrite (loop_group _ limit i groups g t'); [|lia|done|done|done|by destruct ts]. apply Forall_app in Hs as [_ Hs]. apply Forall_app in Hs as [_ Hs].
      replace (i + (S (length gs) + 2))%nat with (S i + (length gs + 2))%nat in * by lia.
      rewrite IH; [|rewrite length_insert; done | lia | done | done]. by rewrite overwrite_cons by lia.
Qed.

Lemma groups_sound slots : ∀ limit i groups s, slots = (limit - i)%nat → (i ≤ limit)%nat → length groups = limit → Forall byte_ok s →
  ∃ gs b v4 s', read_groups_loop slots limit i groups s = Some (Some (overwrite groups i gs, (i + length gs)%nat, v4), s') ∧
    (i + length gs ≤ limit)%nat ∧ s = b ++ s' ∧ groups_text i v4 gs b.
Proof.
  induction slots as [|slots IH]; intros limit i groups s Hslots Hi Hlen Hs.
  { exists [], [], false, s. cbn. rewrite overwrite_nil, Nat.add_0_r. assert (i = limit) as -> by lia. rewrite Hlen. split; [done|]. split; [done|]. split; [done|]. apply groups_nil. }
  cbn [read_groups_loop]. rewrite bind_eq. fold (try_ipv4 limit i).
  destruct (try_ipv4 limit i s) as [[[ipv4|] s0]|] eqn:Htry.
  2,3: exfalso; unfold try_ipv4 in Htry; destruct (Nat.ltb i (limit - 1)); [|done]; rewrite try_eq in Htry;
    by destruct (read_separator_total 58 i read_ipv4_addr ipv4_total s Hs) as [H | (? & ? & H)]; rewrite H in Htry.
  destruct ipv4 as [a|].
  - unfold try_ipv4 in Htry. destruct (Nat.ltb_spec i (limit - 1)) as [Hi'|]; [|done]. rewrite try_eq in Htry.
    destruct (read_separator 58 i read_ipv4_addr s) as [[r s1]|] eqn:Hsep; [|done]. injection Htry as -> <-.
    apply read_separator_sound in Hsep as (s2 & -> & Ha); [|apply ipv4_total | done]. apply Forall_app in Hs as [_ Hs].
    apply ipv4_sound in Ha as (t & -> & Ha & _); [|done].
    destruct (ipv4_octets a t Ha) as (o1 & o2 & o3 & o4 & Ho). exists (be_pairs (octets4 a)), (sep_of 58 i ++ t), true, s1.
    rewrite Ho. rewrite bind_eq, Nat.add_0_r, set_group_ok by lia. cbn [p_lift mret parser_ret].
    rewrite bind_eq, set_group_ok by (rewrite length_insert; lia). cbn [p_lift mret parser_ret be_pairs length].
    split; [|split; [lia|]; split; [by rewrite <- app_assoc|]].
    + do 4 f_equal. rewrite Nat.add_1_r, <- (overwrite_nil (<[S i := _]> _) (S (S i))), !overwrite_cons; [done | lia | rewrite length_insert; lia].
    + pose proof (groups_ipv4 i [] [] a t ltac:(constructor) Ha) as H. cbn [app joined] in H. rewrite app_nil_r, Ho in H. exact H.
  - assert (s0 = s) as ->.
    { unfold try_ipv4 in Htry. destruct (Nat.ltb i (limit - 1)); [|by injection Htry]. rewrite try_eq in Htry.
      destruct (read_separator_total 58 i read_ipv4_addr ipv4_total s Hs) as [H | (? & ? & H)]; rewrite H in Htry; congruence. }
    rewrite bind_eq, try_eq. fold group.
    destruct (read_separator_total 58 i group group_total s Hs) as [H | (g & s1 & H)]; rewrite H.
    { exists [], [], false, s. cbn. rewrite overwrite_nil, Nat.add_0_r. split; [done|]. split; [lia|]. split; [done|]. apply groups_nil. }
    apply read_separator_sound in H as (s2 & -> & Hg); [|apply group_total | done]. apply Forall_app in Hs as [_ Hs].
    apply read_number_sound in Hg as (t & -> & Hg & _); [|apply h16_args | done]. apply Forall_app in Hs as [_ Hs].
    rewrite bind_eq, set_group_ok by lia. cbn [p_lift mret parser_ret].
    destruct (IH limit (S i) (<[i := g]> groups) s1) as (gs & b & v4 & s' & -> & Hle & -> & Hgs); [lia|lia|by rewrite length_insert|done|].
    exists (g :: gs), (sep_of 58 i ++ t ++ b), v4, s'. rewrite overwrite_cons by lia. cbn [length].
    replace (i + S (length gs))%nat with (S i + length gs)%nat by lia. split; [done|]. split; [lia|]. split; [by rewrite <- !app_assoc|]. by apply groups_cons.
Qed.

(** ** IPv6 *)
Lemma read_groups_sound limit s : Forall byte_ok s →
  ∃ gs b v4 s', read_groups (replicate limit 0) s = Some (Some (gs ++ replicate (limit - length gs) 0, length gs, v4), s') ∧
    (length gs ≤ limit)%nat ∧ s = b ++ s' ∧ groups_text 0 v4 gs b.
Proof.
  intros Hs. unfold read_groups. rewrite length_replicate.
  destruct (groups_sound limit limit 0 (replicate limit 0) s) as (gs & b & v4 & s' & -> & Hle & -> & Hgs); [lia|lia|apply length_replicate|done|].
  exists gs, b, v4, s'. unfold overwrite. by rewrite drop_replicate.
Qed.

Lemma read_groups_complete limit v4 gs b s' : groups_text 0 v4 gs b → (length gs ≤ limit)%nat → Forall byte_ok (b ++ s') →
  follows v4 (length gs) limit s' →
  read_groups (replicate limit 0) (b ++ s') = Some (Some (gs ++ replicate (limit - length gs) 0, length gs, v4), s').
Proof.
  intros Hgs Hle Hs Hf. unfold read_groups. rewrite length_replicate.
  rewrite (groups_complete v4 gs b 0) by (done || apply length_replicate || lia). unfold overwrite. by rewrite drop_replicate.
Qed.

Definition all_but_atomic : parser Ipv6Addr :=
    '(head, head_size, head_ipv4) ← read_groups (replicate 8 0);
    if (head_size =? 8)%nat then mret (from_segments head)
    else if (head_ipv4 : bool) then p_fail
    else
      _ ← read_given_char 58; _ ← read_given_char 58;
      let limit := (8 - (head_size + 1))%nat in
      '(tail, tail_size, _) ← read_groups (replicate limit 0);
      mret (from_segments (take (8 - tail_size) head ++ take tail_size tail)).

Lemma join_halves (hd tl : list Z) : (length hd + length tl ≤ 7)%nat →
  take (8 - length tl) (hd ++ replicate (8 - length hd) 0) ++ take (length tl) (tl ++ replicate (8 - (length hd + 1) - length tl) 0) =
  hd ++ replicate (8 - length hd - length tl) 0 ++ tl.
Proof.
  intros Hle. rewrite take_app_ge, take_replicate, take_app_length, <- app_assoc by lia. do 3 f_equal. lia.
Qed.

Lemma ipv6_cases s : Forall byte_ok s →
  (∃ s', all_but_atomic s = Some (None, s')) ∨ ∃ a b s', all_but_atomic s = Some (Some a, s') ∧ s = b ++ s' ∧ ipv6_text a b.
Proof.
  intros Hs. unfold all_but_atomic. rewrite bind_eq.
  destruct (read_groups_sound 8 s Hs) as (hd & bh & v4 & s1 & -> & Hle & -> & Hhd). apply Forall_app in Hs as [_ Hs].
  destruct (Nat.eqb_spec (length hd) 8) as [H8|H8].
  { right. rewrite H8, Nat.sub_diag, app_nil_r. exists (from_segments hd), bh, s1. split; [done|]. split; [done|]. by apply (ipv6_full v4). }
  destruct v4; [left; by eexists|]. rewrite bind_eq, read_given_char_spec. destruct s1 as [|c s1]; [left; by eexists|].
  destruct (Z.eqb_spec c 58) as [->|]; [|left; by eexists]. apply Forall_cons in Hs as [_ Hs].
  rewrite bind_eq, read_given_char_spec. destruct s1 as [|c s1]; [left; by eexists|].
  destruct (Z.eqb_spec c 58) as [->|]; [|left; by eexists]. apply Forall_cons in Hs as [_ Hs].
  rewrite bind_eq. destruct (read_groups_sound (8 - (length hd + 1)) s1 Hs) as (tl & bt & v4 & s' & -> & Hle' & -> & Htl).
  right. rewrite join_halves by lia. do 2 eexists. exists s'. split; [done|]. split; [|apply (ipv6_short v4); [done | done | lia]].
  by rewrite <- !app_assoc.
Qed.

Lemma ipv6_total : total read_ipv6_addr.
Proof.
  intros s Hs. unfold read_ipv6_addr. fold all_but_atomic. destruct (ipv6_cases s Hs) as [[s' H] | (a & b & s' & H & _)].
  - left. by eapply atomically_None.
  - right. do 2 eexists. by eapply atomically_Some.
Qed.

Lemma ipv6_sound s a s' : Forall byte_ok s → read_ipv6_addr s = Some (Some a, s') → ∃ b, s = b ++ s' ∧ ipv6_text a b.
Proof.
  intros Hs H%atomically_inv. fold all_but_atomic in H. destruct (ipv6_cases s Hs) as [[s0 H'] | (a' & b & s0 & H' & Hb & Ha)].
  - congruence.
  - rewrite H in H'. injection H' as <- <-. by exists b.
Qed.

Lemma hex_stops s : no_digit 16 s → no_digit 10 s.
Proof.
  destruct s as [|c s]; [done|]. cbn. intros H. destruct (digit_value 10 c) as [d|] eqn:Hd; [|done].
  pose proof (hex_digit_text [d] [c] ltac:(by repeat constructor)) as H'. inversion H'; subst. congruence.
Qed.

Lemma ipv6_complete a b s' : Forall byte_ok (b ++ s') → ipv6_text a b → ends s' → read_ipv6_addr (b ++ s') = Some (Some a, s').
Proof.
  intros Hs Ha He. pose proof He as [[Hr Hh] _]. eapply atomically_Some. fold all_but_atomic.
  unfold all_but_atomic. rewrite bind_eq. destruct Ha as [v4 gs b Hgs H8 | v4 hd tl bh bt Hhd Htl Hle].
  - rewrite (read_groups_complete 8 v4 gs b s' Hgs); [|lia|done|].
    2:{ destruct v4; [by apply hex_stops | right; by split]. }
    by rewrite H8, Nat.sub_diag, app_nil_r.
  - rewrite <- !app_assoc in *. rewrite (read_groups_complete 8 false hd bh _ Hhd); [|lia|done|left; split; [done | by intros s1 [= <-]]].
    rewrite (proj2 (Nat.eqb_neq (length hd) 8)) by lia. apply Forall_app in Hs as [_ Hs].
    change ([58; 58] ++ bt ++ s') with (58 :: 58 :: bt ++ s') in *. apply Forall_cons in Hs as [_ Hs]. apply Forall_cons in Hs as [_ Hs].
    rewrite bind_eq, read_given_char_spec, Z.eqb_refl. rewrite bind_eq, read_given_char_spec, Z.eqb_refl.
    rewrite bind_eq, (read_groups_complete _ v4 tl bt s' Htl); [|lia|done|destruct v4; [by apply hex_stops | by left]].
    by rewrite join_halves.
Qed.

(** ** The parsers of all kinds of addresses recognise their grammars exactly. *)

(** The interface of a parser of a whole text: it does not panic, what it reads is of
    the grammar, and it reads a text of the grammar to its end. *)
Class Recognises {A} (p : parser A) (T : A → bytes → Prop) := {
  recognises_cases s : Forall byte_ok s → (∃ s', p s = Some (None, s')) ∨ ∃ a b s', p s = Some (Some a, s') ∧ s = b ++ s' ∧ T a b;
  recognises_complete a b : Forall byte_ok b → T a b → p b = Some (Some a, []);
}.

(** What the entry points make of it *)
Lemma parse_exact {A} (p : parser A) T `{!Recognises p T} kind b : Forall byte_ok b →
  ∃ r, parse_with p kind b = Some r ∧ (∀ a, r = inl a ↔ T a b) ∧ (∀ k, r = inr k → k = kind).
Proof.
  intros Hb. unfold parse_with. assert (Hno : ∀ a, T a b → p b = Some (Some a, [])) by (intros; by apply recognises_complete).
  destruct (recognises_cases b Hb) as [[s' H] | (a & b' & s' & H & Heq & Ha)]; rewrite H in Hno |- *; cbn [mbind option_bind].
  - exists (inr kind). split; [by destruct s'|]. split; [|by intros k [= <-]]. intros a. split; [done|]. intros Ht%Hno. congruence.
  - destruct s' as [|c s'].
    + exists (inl a). split; [done|]. split; [|done]. rewrite app_nil_r in Heq. subst b'. intros a'. split; [by intros [= <-]|].
      intros Ht%Hno. congruence.
    + exists (inr kind). split; [done|]. split; [|by intros k [= <-]]. intros a'. split; [done|]. intros Ht%Hno. congruence.
Qed.

Lemma total_cases {A} (p : parser A) (T : A → bytes → Prop) s : total p →
  (∀ s a s', Forall byte_ok s → p s = Some (Some a, s') → ∃ b, s = b ++ s' ∧ T a b) → Forall byte_ok s →
  (∃ s', p s = Some (None, s')) ∨ ∃ a b s', p s = Some (Some a, s') ∧ s = b ++ s' ∧ T a b.
Proof.
  intros Ht Hsound Hs. destruct (Ht s Hs) as [H | (a & s' & H)]; [left; by eexists | right].
  destruct (Hsound _ _ _ Hs H) as (b & -> & Ha). by exists a, b, s'.
Qed.

#[export] Instance ipv4_recognises : Recognises read_ipv4_addr ipv4_text.
Proof.
  split.
  - intros s. apply (total_cases _ _ s ipv4_total). intros s0 a s' Hs H. destruct (ipv4_sound _ _ _ Hs H) as (b & ? & ? & _). by exists b.
  - intros a b Hb Ha. rewrite <- (app_nil_r b) in Hb |- * at 1. by apply ipv4_complete.
Qed.

Lemma ends_nil : ends [].
Proof. by split; [split|]. Qed.

#[export] Instance ipv6_recognises : Recognises read_ipv6_addr ipv6_text.
Proof.
  split.
  - intros s. apply (total_cases _ _ s ipv6_total). apply ipv6_sound.
  - intros a b Hb Ha. rewrite <- (app_nil_r b) in Hb |- * at 1. apply ipv6_complete; [done | done | apply ends_nil].
Qed.

(** ** Either version *)
Lemma ipv6_not_ipv4 a b : Forall byte_ok b → ipv6_text a b → read_ipv4_addr b = Some (None, b).
Proof.
  assert (Hcons : ∀ g t c s, Forall byte_ok (t ++ c :: s) → h16_text g t → c = 58 → read_ipv4_addr (t ++ c :: s) = Some (None, t ++ c :: s)).
  { intros g t c s Hs Hg ->. by apply (ipv4_not_group t g). }
  intros Hb Ha. destruct Ha as [v4 gs b Hgs H8 | v4 hd tl bh bt Hhd _ _].
  - destruct Hgs as [gs ts Hts | gs ts a' t' Hts Ha'].
    + destruct Hts as [|g t gs ts Hg Hts]; [done|]. destruct Hts as [|g' t' gs ts Hg' Hts]; [done|]. cbn [joined] in *. by apply (Hcons g).
    + destruct (ipv4_octets a' t' Ha') as (? & ? & ? & ? & Ho). rewrite Ho, length_app in H8. cbn in H8.
      destruct Hts as [|g t gs ts Hg Hts]; [done|]. destruct ts as [|t'' ts]; cbn [joined app] in *; by apply (Hcons g).
  - inversion Hhd as [gs ts Hts E1 E2 E3|]; subst. destruct Hts as [|g t gs ts Hg Hts]; [by apply ipv4_fails|].
    destruct Hts as [|g' t' gs ts Hg' Hts]; cbn [joined app] in *; rewrite <- ?app_assoc in *; [rewrite app_nil_r in *|]; by apply (Hcons g).
Qed.

#[export] Instance ip_recognises : Recognises read_ip_addr ip_text.
Proof.
  split.
  - intros s Hs. unfold read_ip_addr, or_else. rewrite bind_eq, try_eq, bind_eq.
    destruct (recognises_cases (p := read_ipv4_addr) s Hs) as [[s' H] | (a & b & s' & H & -> & Ha)]; rewrite H.
    + assert (s' = s) as -> by (destruct (ipv4_total s Hs) as [H'|(? & ? & H')]; congruence). rewrite bind_eq.
      destruct (recognises_cases (p := read_ipv6_addr) s Hs) as [[s' H'] | (a & b & s' & H' & -> & Ha)]; rewrite H'; [left; by eexists|].
      right. exists (V6 a), b, s'. split; [done|]. split; [done|]. by constructor.
    + right. exists (V4 a), b, s'. split; [done|]. split; [done|]. by constructor.
  - intros a b Hb Ha. unfold read_ip_addr, or_else. rewrite bind_eq, try_eq, bind_eq. destruct Ha as [a b Ha | a b Ha].
    + by rewrite (recognises_complete a b Hb Ha).
    + rewrite (ipv6_not_ipv4 a b Hb Ha). rewrite bind_eq. by rewrite (recognises_complete a b Hb Ha).
Qed.

(** ** Ports and scopes *)
Section prefixed.
Context (w : Z) (sep : Z) (Hargs : number_args w 10 None).

Definition prefixed : parser Z := read_atomically (_ ← read_given_char sep; read_number w 10 None true).

Lemma prefixed_total : total prefixed.
Proof using Hargs.
  intros s Hs. unfold prefixed. destruct s as [|c s]; [left; eapply atomically_None; by rewrite bind_eq, read_given_char_spec|].
  destruct (Z.eqb_spec c sep) as [Hc|Hc].
  - apply Forall_cons in Hs as [_ Hs]. destruct (read_number_total w 10 None true Hargs s Hs) as [H | (n & s' & H)].
    + left. eapply atomically_None. by rewrite bind_eq, read_given_char_spec, (proj2 (Z.eqb_eq c sep) Hc), H.
    + right. do 2 eexists. eapply atomically_Some. by rewrite bind_eq, read_given_char_spec, (proj2 (Z.eqb_eq c sep) Hc), H.
  - left. eapply atomically_None. by rewrite bind_eq, read_given_char_spec, (proj2 (Z.eqb_neq c sep) Hc).
Qed.

Lemma prefixed_sound s n s' : Forall byte_ok s → prefixed s = Some (Some n, s') → ∃ b, s = sep :: b ++ s' ∧ number_text w 10 None true n b.
Proof using Hargs.
  intros Hs H%atomically_inv. rewrite bind_eq, read_given_char_spec in H. destruct s as [|c s]; [done|].
  destruct (Z.eqb_spec c sep) as [->|]; [|done]. apply Forall_cons in Hs as [_ Hs].
  apply read_number_sound in H as (b & -> & Hb & _); [by exists b | done | done].
Qed.

Lemma prefixed_complete n b s' : Forall byte_ok (b ++ s') → number_text w 10 None true n b → no_digit 10 s' →
  prefixed (sep :: b ++ s') = Some (Some n, s').
Proof using Hargs.
  intros Hs Hb Hr. eapply atomically_Some. rewrite bind_eq, read_given_char_spec, Z.eqb_refl. by apply read_number_complete.
Qed.
End prefixed.

#[export] Instance sock4_recognises : Recognises read_socket_addr_v4 sock4_text.
Proof.
  split.
  - intros s Hs. unfold read_socket_addr_v4, read_atomically. rewrite bind_eq.
    destruct (recognises_cases (p := read_ipv4_addr) s Hs) as [[s' H] | (a & b & s1 & H & -> & Ha)]; rewrite H; [left; by eexists|].
    apply Forall_app in Hs as [_ Hs]. change read_port with (prefixed 16 58). rewrite bind_eq.
    destruct (prefixed_total 16 58 port_args s1 Hs) as [H' | (p & s' & H')]; rewrite H'; [left; by eexists | right].
    apply prefixed_sound in H' as (bp & -> & Hp); [|apply port_args | done]. exists (SockV4 a p), (b ++ 58 :: bp), s'. cbn.
    split; [done|]. split; [by rewrite <- app_assoc | by constructor].
  - intros a s Hs Hsock. destruct Hsock as [a' p b bp Ha Hp]. eapply atomically_Some. rewrite bind_eq, (ipv4_complete a' b (58 :: bp)) by done. rewrite bind_eq.
    change read_port with (prefixed 16 58). apply Forall_app in Hs as [_ Hs]. apply Forall_cons in Hs as [_ Hs].
    rewrite <- (app_nil_r bp) in Hs |- *. by rewrite (prefixed_complete 16 58 port_args p bp []).
Qed.

#[export] Instance sock6_recognises : Recognises read_socket_addr_v6 sock6_text.
Proof.
  split.
  - intros s Hs. unfold read_socket_addr_v6, read_atomically. rewrite bind_eq, read_given_char_spec.
    destruct s as [|c s]; [left; by eexists|]. destruct (Z.eqb_spec c 91) as [->|]; [|left; by eexists]. apply Forall_cons in Hs as [_ Hs].
    rewrite bind_eq. destruct (recognises_cases (p := read_ipv6_addr) s Hs) as [[s' H] | (a & b & s1 & H & -> & Ha)]; rewrite H; [left; by eexists|].
    apply Forall_app in Hs as [_ Hs]. change read_scope_id with (prefixed 32 37). change read_port with (prefixed 16 58). rewrite bind_eq, try_eq.
    assert (Hfinish : ∀ (i : option Z) s1, Forall byte_ok s1 → ∀ s0,
      (∃ s', (_ ← read_given_char 93; port ← prefixed 16 58; mret (SockV6 a port 0 (default 0 i)) : parser SocketAddrV6) s1 = Some (None, s')) ∨
      ∃ p bp s', (_ ← read_given_char 93; port ← prefixed 16 58; mret (SockV6 a port 0 (default 0 i)) : parser SocketAddrV6) s1 =
        Some (Some (SockV6 a p 0 (default 0 i)), s') ∧ s0 ++ s1 = (s0 ++ 93 :: 58 :: bp) ++ s' ∧ port_text p bp).
    { intros i s2 Hs2 s0. rewrite bind_eq, read_given_char_spec. destruct s2 as [|c s2]; [left; by eexists|].
      destruct (Z.eqb_spec c 93) as [->|]; [|left; by eexists]. apply Forall_cons in Hs2 as [_ Hs2]. rewrite bind_eq.
      destruct (prefixed_total 16 58 port_args s2 Hs2) as [H' | (p & s' & H')]; rewrite H'; [left; by eexists | right].
      apply prefixed_sound in H' as (bp & -> & Hp); [|apply port_args | done]. exists p, bp, s'. split; [done|]. by rewrite <- app_assoc. }
    destruct (prefixed_total 32 37 scope_args s1 Hs) as [H' | (i & s2 & H')]; rewrite H'.
    + destruct (Hfinish None s1 Hs (91 :: b)) as [[s' ->] | (p & bp & s' & -> & Heq & Hp)]; [left; by eexists | right].
      eexists. exists (91 :: b ++ 93 :: 58 :: bp), s'. split; [done|]. split; [exact Heq|]. by constructor.
    + apply prefixed_sound in H' as (bi & -> & Hi); [|apply scope_args | done]. apply Forall_cons in Hs as [_ Hs]. apply Forall_app in Hs as [_ Hs].
      destruct (Hfinish (Some i) s2 Hs (91 :: b ++ 37 :: bi)) as [[s' ->] | (p & bp & s' & -> & Heq & Hp)]; [left; by eexists | right].
      eexists. exists (91 :: b ++ 37 :: bi ++ 93 :: 58 :: bp), s'. split; [done|]. split; [|by constructor].
      cbn [app] in Heq |- *. rewrite <- !app_assoc in *. cbn [app] in *. by rewrite <- !app_assoc in *.
  - assert (Hport : ∀ a i p bp, Forall byte_ok bp → port_text p bp →
      (_ ← read_given_char 93; port ← read_port; mret (SockV6 a port 0 i) : parser SocketAddrV6) (93 :: 58 :: bp) = Some (Some (SockV6 a p 0 i), [])).
    { intros a i p bp Hs Hp. rewrite bind_eq, read_given_char_spec, Z.eqb_refl, bind_eq. change read_port with (prefixed 16 58).
      rewrite <- (app_nil_r bp) in Hs |- *. by rewrite (prefixed_complete 16 58 port_args p bp []). }
    intros a s Hs Ha. eapply atomically_Some. rewrite bind_eq, read_given_char_spec.
    destruct Ha as [a p b bp Ha Hp | a p i b bp bi Ha Hp Hi]; rewrite Z.eqb_refl, bind_eq; apply Forall_cons in Hs as [_ Hs].
    + rewrite (ipv6_complete a b (93 :: 58 :: bp)) by (done || by split; [split|]). apply Forall_app in Hs as [_ Hs]. do 2 apply Forall_cons in Hs as [_ Hs].
      rewrite bind_eq, try_eq. unfold read_scope_id at 1. erewrite atomically_None by (by rewrite bind_eq, read_given_char_spec).
      by apply Hport.
    + rewrite (ipv6_complete a b (37 :: bi ++ 93 :: 58 :: bp)) by (done || by split; [split|]). apply Forall_app in Hs as [_ Hs]. apply Forall_cons in Hs as [_ Hs].
      rewrite bind_eq, try_eq. change read_scope_id with (prefixed 32 37). rewrite (prefixed_complete 32 37 scope_args i bi (93 :: 58 :: bp)) by done.
      apply Forall_app in Hs as [_ Hs]. do 2 apply Forall_cons in Hs as [_ Hs]. by apply Hport.
Qed.

Lemma sock6_head a b : sock6_text a b → ∃ r, b = 91 :: r.
Proof. intros []; by eexists. Qed.

(** A socket address of version 4 begins with a digit, one of version 6 with a bracket. *)
#[export] Instance sock_recognises : Recognises read_socket_addr sock_text.
Proof.
  assert (Hv4 : ∀ s, Forall byte_ok s → read_socket_addr_v4 s = Some (None, s) ∨ ∃ a s', read_socket_addr_v4 s = Some (Some a, s')).
  { intros s Hs. destruct (recognises_cases (p := read_socket_addr_v4) s Hs) as [[s' H] | (a & b & s' & H & _)]; [left | right; by do 2 eexists].
    unfold read_socket_addr_v4, read_atomically in *. by destruct ((ip ← read_ipv4_addr; port ← read_port; mret (SockV4 ip port)) s) as [[[?|] ?]|]. }
  split.
  - intros s Hs. unfold read_socket_addr, or_else. rewrite bind_eq, try_eq, bind_eq.
    destruct (recognises_cases (p := read_socket_addr_v4) s Hs) as [[s' H] | (a & b & s' & H & -> & Ha)]; rewrite H.
    + assert (s' = s) as -> by (destruct (Hv4 s Hs) as [H'|(? & ? & H')]; congruence). rewrite bind_eq.
      destruct (recognises_cases (p := read_socket_addr_v6) s Hs) as [[s' H'] | (a & b & s' & H' & -> & Ha)]; rewrite H'; [left; by eexists|].
      right. exists (SV6 a), b, s'. split; [done|]. split; [done|]. by constructor.
    + right. exists (SV4 a), b, s'. split; [done|]. split; [done|]. by constructor.
  - intros a b Hb Ha. unfold read_socket_addr, or_else. rewrite bind_eq, try_eq, bind_eq. destruct Ha as [a b Ha | a b Ha].
    + by rewrite (recognises_complete a b Hb Ha).
    + destruct (Hv4 b Hb) as [-> | (a' & s' & H)].
      * rewrite bind_eq. by rewrite (recognises_complete a b Hb Ha).
      * exfalso. destruct (recognises_cases (p := read_socket_addr_v4) b Hb) as [[? H'] | (a'' & b' & r' & _ & -> & Ha')]; [congruence|].
        destruct Ha' as [a4 p b4 bp Ha4 _]. apply (ipv4_head a4 b4 (58 :: bp ++ r')) in Ha4. apply Ha4.
        destruct (sock6_head _ _ Ha) as [r Hr]. rewrite <- app_assoc in Hr. cbn [app] in Hr. by rewrite Hr.
Qed.
