(* ===== verification/NetShow.v ===== *)
(** What is written for an address is a text of its grammar, the canonical one. *)

From S2P Require Import Prelude Words IntSqrt IntFmt IntFmtSpec IntParse IntTheorems Duration NetAddr NetSpec.

#[local] Open Scope Z_scope.

(** ** Numbers *)
Lemma decimal_text w n : width_ok w → 0 ≤ n < 2 ^ w → ∃ ds, decimal w n = Some (of_digits ds) ∧ is_numeral 10 n ds.
Proof.
  intros Hw Hn. destruct (fmt_spec (uint w) n Hw Hn) as (ds & Hf & Hnum). exists ds. split; [|done].
  unfold decimal, display, unsigned_abs. rewrite Z.abs_eq, Hf by lia. rewrite (proj2 (Z.leb_le 0 n)) by lia. cbn. by rewrite app_nil_r || done.
Qed.

Lemma hex_text n : 0 ≤ n < 2 ^ 16 → ∃ b, hex n = Some b ∧ ∃ ds, is_numeral 16 n ds ∧ b = chars lower_hex_digits ds.
Proof.
  intros Hn. assert (Hw : width_ok 16) by (by right; left). unfold hex, fmt_lower_hex, fmt_radix, cast_unsigned. cbn [uint bits].
  destruct (MAX_DIG_N_spec 16 (Z.of_nat (length lower_hex_digits)) Hw) as (len & -> & Hlen & Hpos); [by split|]. cbn [mbind option_bind].
  assert (wrap (uint 16) n = n) as -> by (by apply Z.mod_small).
  destruct (radix_written lower_hex_digits ltac:(cbn; lia) len n) as (st & ds & -> & Hnum & Hs);
    [change (Z.of_nat (length lower_hex_digits)) with 16 in *; lia | done |].
  cbn [mbind option_bind]. rewrite Hs. cbn [mbind option_bind]. eexists. split; [done|]. by exists ds.
Qed.

Lemma numeral_digits radix n ds m : 1 < radix → is_numeral radix n ds → n < radix ^ Z.of_nat m → (0 < m)%nat → (length ds ≤ m)%nat.
Proof.
  intros Hr (Hv & Hd & Hc) Hn Hm. destruct (canonical_length radix ds Hr Hd Hc) as [Hl | ->]; [|cbn; lia].
  rewrite Hv in Hl. assert (Z.of_nat (length ds) - 1 < Z.of_nat m) by (apply (Z.pow_lt_mono_r_iff radix); lia). lia.
Qed.

Lemma of_digits_text ds : Forall (digit_ok 10) ds → digits_text 10 ds (of_digits ds).
Proof.
  intros H. unfold digits_text, of_digits. apply Forall2_fmap_r. apply Forall_Forall2_diag. eapply Forall_impl; [exact H|].
  intros d Hd. unfold digit_ok in Hd. unfold compose, digit_value. rewrite (proj2 (Z.leb_le 48 (d + 48))), (proj2 (Z.leb_le (d + 48) 57)) by lia.
  cbn [andb mbind option_bind]. rewrite (proj2 (Z.ltb_lt _ 10)) by lia. f_equal. lia.
Qed.

Lemma text_of_digits ds b : digits_text 10 ds b → b = of_digits ds.
Proof.
  induction 1 as [|d c ds b Hc _ ->]; [done|]. unfold of_digits. cbn [fmap list_fmap]. f_equal. unfold digit_value in Hc.
  destruct (Z.leb_spec 48 c), (Z.leb_spec c 57), (Z.leb_spec 97 c), (Z.leb_spec c 122), (Z.leb_spec 65 c), (Z.leb_spec c 90);
    cbn [andb mbind option_bind] in Hc; try done; try lia; case_match eqn:E; simplify_eq; apply Z.ltb_lt in E; lia.
Qed.

Lemma canonical_prefix ds : canonical ds → ds ≠ [] ∧ (head ds = Some 0 → length ds = 1%nat).
Proof. destruct ds as [|d ds]; [done|]. cbn. intros H. split; [done|]. intros [= ->]. by rewrite H. Qed.

(** A decimal number of any of the grammar's types *)
Lemma decimal_number_text w max zp n ds : is_numeral 10 n ds → n < 2 ^ w → (∀ m, max = Some m → (length ds ≤ m)%nat) →
  number_text w 10 max zp n (of_digits ds).
Proof.
  intros (Hv & Hd & Hc) Hn Hm. exists ds. split; [by apply of_digits_text|]. split; [|done].
  destruct (canonical_prefix ds Hc). by split_and!; [|..|rewrite Hv].
Qed.

(** The text of an octet is its canonical numeral. *)
Lemma octet_text_iff o b : octet_text o b ↔ 0 ≤ o < 2 ^ 8 ∧ decimal 8 o = Some b.
Proof.
  split.
  - intros (ds & Hd & (Hne & Hm & Hz & Hv) & <-). pose proof (digits_ok _ _ _ Hd) as Hok.
    pose proof (value_bound 10 ds ltac:(lia) Hok) as [Hv0 _]. split; [lia|].
    destruct (decimal_text 8 (value 10 ds)) as (ds' & -> & Hnum); [by left | lia|]. rewrite (text_of_digits ds b Hd).
    rewrite (numeral_unique 10 (value 10 ds) ds' ds ltac:(lia) Hnum); [done|]. split; [done|]. split; [done|].
    destruct ds as [|d ds]; [done|]. cbn. intros ->. specialize (Hz eq_refl eq_refl). by destruct ds.
  - intros [Ho Hb]. destruct (decimal_text 8 o) as (ds & Hd & Hnum); [by left | done|]. rewrite Hb in Hd. injection Hd as ->.
    apply decimal_number_text; [done | lia|]. intros m [= <-]. apply (numeral_digits 10 o); [lia | done | | lia].
    change (10 ^ Z.of_nat 3) with 1000. change (2 ^ 8) with 256 in Ho. lia.
Qed.

(** The text of a group: its canonical numeral in lower case *)
Definition hex_numeral (g : Z) (b : bytes) : Prop := ∃ ds, is_numeral 16 g ds ∧ b = chars lower_hex_digits ds.

Lemma hex_numeral_h16 g b : 0 ≤ g < 2 ^ 16 → hex_numeral g b → h16_text g b.
Proof.
  intros Hg (ds & Hnum & ->). pose proof Hnum as (Hv & Hd & Hc). exists ds. split; [|split; [|done]].
  - unfold digits_text, chars. apply Forall2_fmap_r. apply Forall_Forall2_diag. eapply Forall_impl; [exact Hd|]. intros d Hdd. unfold compose.
    assert (Htab : table_ok 16 lower_hex_digits) by (apply table_check; [done | done | vm_compute; done]).
    destruct Htab as (_ & _ & Htab). by destruct (Htab d Hdd) as (c & -> & ? & _).
  - destruct (canonical_prefix ds Hc). split_and!; [done | | done | rewrite Hv; apply Hg]. intros m [= <-].
    apply (numeral_digits 16 g); [lia | done | | lia]. change (16 ^ Z.of_nat 4) with (2 ^ 16). lia.
Qed.

(** ** IPv4 *)
Definition ipv4_ok (a : Ipv4Addr) : Prop := length (octets4 a) = 4%nat ∧ Forall byte_ok (octets4 a).
Definition ipv6_ok (a : Ipv6Addr) : Prop := length (octets6 a) = 16%nat ∧ Forall byte_ok (octets6 a).

Lemma ipv4_text_iff a b : ipv4_text a b ↔ ipv4_ok a ∧ (concat (A := Z)) <$> v4_pieces a = Some b.
Proof.
  unfold ipv4_text, ipv4_ok, v4_pieces. split.
  - intros (ts & Hlen & Hts & ->). pose proof (Forall2_length _ _ _ Hts) as Hl. rewrite Hlen in Hl. split.
    + split; [done|]. apply Forall_forall. intros o Ho. apply list_elem_of_lookup in Ho as [k Hk].
      destruct (Forall2_lookup_l _ _ _ _ _ Hts Hk) as (t & _ & Ht). by apply octet_text_iff in Ht as [? _].
    + destruct (octets4 a) as [|o1 [|o2 [|o3 [|o4 [|]]]]]; try done. destruct ts as [|t1 [|t2 [|t3 [|t4 [|]]]]]; try done.
      rewrite !Forall2_cons in Hts. destruct Hts as (H1 & H2 & H3 & H4 & _). apply octet_text_iff in H1 as [_ ->], H2 as [_ ->], H3 as [_ ->], H4 as [_ ->].
      cbn. by rewrite ?app_nil_r.
  - intros [[Hl Hok] Hp]. destruct (octets4 a) as [|o1 [|o2 [|o3 [|o4 [|]]]]]; try done. rewrite !Forall_cons in Hok. destruct Hok as (H1 & H2 & H3 & H4 & _).
    assert (Hdec : ∀ o, byte_ok o → ∃ t, decimal 8 o = Some t ∧ octet_text o t).
    { intros o Ho. destruct (decimal_text 8 o) as (ds & Hd & _); [by left | done|]. exists (of_digits ds). split; [done|]. by apply octet_text_iff. }
    destruct (Hdec o1 H1) as (t1 & E1 & T1), (Hdec o2 H2) as (t2 & E2 & T2), (Hdec o3 H3) as (t3 & E3 & T3), (Hdec o4 H4) as (t4 & E4 & T4).
    rewrite E1, E2, E3, E4 in Hp. cbn in Hp. injection Hp as <-. exists [t1; t2; t3; t4]. split; [done|].
    split; [by repeat constructor|]. cbn. by rewrite ?app_nil_r.
Qed.

Lemma v4_pieces_text a : ipv4_ok a → ∃ ps, v4_pieces a = Some ps ∧ ipv4_text a (concat ps).
Proof.
  intros Ha. destruct (v4_pieces a) as [ps|] eqn:Hp; [exists ps; split; [done|]; apply ipv4_text_iff; split; [done|]; by rewrite Hp|].
  exfalso. destruct Ha as [Hl Hok]. unfold v4_pieces in Hp. destruct (octets4 a) as [|o1 [|o2 [|o3 [|o4 [|]]]]]; try done.
  rewrite !Forall_cons in Hok. destruct Hok as (H1 & H2 & H3 & H4 & _).
  destruct (decimal_text 8 o1) as (? & E1 & _), (decimal_text 8 o2) as (? & E2 & _), (decimal_text 8 o3) as (? & E3 & _), (decimal_text 8 o4) as (? & E4 & _);
    try done; try (by left). by rewrite E1, E2, E3, E4 in Hp.
Qed.

(** ** Segments *)
Definition u16_ok (g : Z) : Prop := 0 ≤ g < 2 ^ 16.

Lemma be_pairs_concat gs : Forall u16_ok gs → be_pairs (concat (to_be_bytes 2 <$> gs)) = gs.
Proof.
  induction 1 as [|g gs Hg _ IH]; [done|].
  change (from_be_bytes [(g / 256) mod 256; g mod 256] :: be_pairs (concat (to_be_bytes 2 <$> gs)) = g :: gs). rewrite IH. f_equal.
  cbn [from_be_bytes foldl].
  unfold u16_ok in Hg. change (2 ^ 16) with 65536 in Hg. rewrite (Z.mod_small (g / 256)) by (split; [apply Z.div_pos; lia | apply Z.div_lt_upper_bound; lia]).
  pose proof (Z.div_mod g 256 ltac:(done)). lia.
Qed.

Lemma concat_be_pairs n bs : length bs = (2 * n)%nat → Forall byte_ok bs → concat (to_be_bytes 2 <$> be_pairs bs) = bs ∧ Forall u16_ok (be_pairs bs) ∧ length (be_pairs bs) = n.
Proof.
  revert bs. induction n as [|n IH]; intros bs Hl Hbs; [by destruct bs|]. destruct bs as [|x [|y bs]]; [done | cbn in Hl; lia|].
  apply Forall_cons in Hbs as [Hx Hbs]. apply Forall_cons in Hbs as [Hy Hbs]. cbn [length] in Hl. destruct (IH bs) as (Hc & Hu & Hn); [lia | done|].
  unfold byte_ok in Hx, Hy. cbn [be_pairs length].
  change (concat (to_be_bytes 2 <$> from_be_bytes [x; y] :: be_pairs bs)) with
    ((from_be_bytes [x; y] / 256) mod 256 :: from_be_bytes [x; y] mod 256 :: concat (to_be_bytes 2 <$> be_pairs bs)). rewrite Hc.
  cbn [from_be_bytes foldl].
  replace ((0 * 256 + x) * 256 + y) with (x * 256 + y) by lia. split; [|split; [|lia]].
  - assert ((x * 256 + y) / 256 = x) as -> by (symmetry; apply (Z.div_unique _ _ _ y); lia).
    rewrite Z.mod_small by done. do 2 f_equal. symmetry. apply (Z.mod_unique _ _ x); lia.
  - constructor; [|done]. unfold u16_ok. change (2 ^ 16) with 65536. lia.
Qed.

Lemma segments_ok a : ipv6_ok a → from_segments (segments a) = a ∧ Forall u16_ok (segments a) ∧ length (segments a) = 8%nat.
Proof.
  intros [Hl Hb]. destruct (concat_be_pairs 8 (octets6 a) Hl Hb) as (Hc & Hu & Hn). unfold from_segments, segments. rewrite Hc. split; [by destruct a | done].
Qed.

Lemma mapped_inv a v4 : ipv6_ok a → to_ipv4_mapped a = Some v4 → a = to_ipv6_mapped v4 ∧ ipv4_ok v4.
Proof.
  intros [Hl Hb]. unfold to_ipv4_mapped. case_bool_decide as Ht; [|done]. intros [= <-]. split.
  - unfold to_ipv6_mapped. cbn [octets4]. rewrite app_assoc, <- Ht, take_drop. by destruct a.
  - split; cbn [octets4]; [rewrite length_drop; lia | by apply Forall_drop].
Qed.

Lemma mapped_text v4 t : ipv4_ok v4 → ipv4_text v4 t → ipv6_text (to_ipv6_mapped v4) ([58; 58; 102; 102; 102; 102; 58] ++ t).
Proof.
  intros [Hl Hb] Ht. assert (Hf : h16_text 65535 [102; 102; 102; 102]).
  { exists [15; 15; 15; 15]. split; [by repeat constructor|]. split; [|done]. split; [done|]. split; [intros m [= <-]; cbn; lia|]. by split. }
  pose proof (groups_ipv4 0 [65535] [[102; 102; 102; 102]] v4 t ltac:(by constructor; [|constructor]) Ht) as Hg. cbn [joined app] in Hg. rewrite app_nil_r in Hg.
  destruct (concat_be_pairs 2 (octets4 v4) Hl Hb) as (Hc & _ & Hn).
  pose proof (ipv6_short true [] (65535 :: be_pairs (octets4 v4)) [] _ (groups_nil 0) Hg ltac:(cbn; lia)) as H.
  cbn [length] in H. rewrite Hn in H.
  assert (from_segments ([] ++ replicate (8 - 0 - 3) 0 ++ 65535 :: be_pairs (octets4 v4)) = to_ipv6_mapped v4) as Heq; [|by rewrite Heq in H].
  unfold from_segments, to_ipv6_mapped. f_equal. cbn [app]. rewrite fmap_app, concat_app. cbn [fmap list_fmap concat]. by rewrite Hc.
Qed.

(** ** Groups *)
Definition hex_texts : list Z → list bytes → Prop := Forall2 hex_numeral.

Lemma fmt_tail_text gs : Forall u16_ok gs → ∃ ps ts, fmt_tail gs = Some ps ∧ hex_texts gs ts ∧ ∀ i, concat ps = joined 58 (S i) ts.
Proof.
  induction 1 as [|g gs Hg _ (ps & ts & Hps & Hts & Heq)]; [by exists [], []; split; [|split; [constructor|]]|].
  destruct (hex_text g Hg) as (t & Ht & Hnum). cbn [fmt_tail]. rewrite Ht, Hps. cbn [mbind option_bind].
  exists ([58] :: t :: ps), (t :: ts). split; [done|]. split; [by constructor|]. intros i. cbn. by rewrite (Heq (S i)).
Qed.

Lemma fmt_subslice_text gs : Forall u16_ok gs → ∃ ps ts, fmt_subslice gs = Some ps ∧ hex_texts gs ts ∧ concat ps = joined 58 0 ts.
Proof.
  destruct 1 as [|g gs Hg Hgs]; [by exists [], []; split; [|split; [constructor|]]|].
  destruct (hex_text g Hg) as (t & Ht & Hnum). destruct (fmt_tail_text gs Hgs) as (ps & ts & Hps & Hts & Heq).
  cbn [fmt_subslice]. rewrite Ht, Hps. cbn [mbind option_bind]. exists (t :: ps), (t :: ts). split; [done|]. split; [by constructor|]. cbn. by rewrite (Heq 0%nat).
Qed.

Lemma hex_groups gs ts : Forall u16_ok gs → hex_texts gs ts → groups_text 0 false gs (joined 58 0 ts).
Proof.
  intros Hgs Hts. constructor. apply Forall2_same_length_lookup. split; [by eapply Forall2_length|].
  intros k g t Hg Ht. apply hex_numeral_h16; [by apply (Forall_lookup_1 _ _ _ _ Hgs Hg)|]. by apply (Forall2_lookup_lr _ _ _ _ _ _ Hts Hg Ht).
Qed.

(** ** The longest run of zeros *)
Definition is_run (segs : list Z) (s n : nat) : Prop := ∀ k, (s ≤ k < s + n)%nat → segs !! k = Some 0.
(** The longest run, the first of several *)
Definition longest_run (segs : list Z) (s n : nat) : Prop :=
  is_run segs s n ∧ ∀ s' n', (0 < n')%nat → is_run segs s' n' → (n' ≤ n)%nat ∧ (n' = n → s ≤ s')%nat.

Lemma run_in segs s n : (0 < n)%nat → is_run segs s n → (s + n ≤ length segs)%nat.
Proof. intros Hn H. pose proof (H (s + n - 1)%nat ltac:(lia)) as Hk. apply lookup_lt_Some in Hk. lia. Qed.

Lemma run_app pre post s n : (s + n ≤ length pre)%nat → is_run (pre ++ post) s n ↔ is_run pre s n.
Proof. intros Hle. split; intros H k Hk; specialize (H k Hk); [by rewrite lookup_app_l in H by lia | by rewrite lookup_app_l by lia]. Qed.

(** [current] is the longest run that ends where [pre] does. *)
Definition ending_run (pre : list Z) (sp : Span) : Prop :=
  is_run pre (start sp) (len sp) ∧ ((0 < len sp)%nat → (start sp + len sp = length pre)%nat) ∧
  ∀ s n, (0 < n)%nat → is_run pre s n → (s + n = length pre)%nat → (n ≤ len sp)%nat.

Lemma zero_spans_spec rest : ∀ pre current longest, ending_run pre current → longest_run pre (start longest) (len longest) →
  let sp := zero_spans rest (length pre) current longest in longest_run (pre ++ rest) (start sp) (len sp).
Proof.
  induction rest as [|g rest IH]; intros pre current longest (Hc & Hce & Hcl) [Hl Hll]; cbn [zero_spans]; [by rewrite app_nil_r|].
  assert (Hlen : length (pre ++ [g]) = S (length pre)) by (rewrite length_app; cbn; lia).
  assert (Hold : is_run (pre ++ [g]) (start longest) (len longest)).
  { destruct (decide (len longest = 0%nat)) as [->|]; [intros k ?; lia|]. apply run_app; [|done]. apply run_in; [lia | done]. }
  replace (pre ++ g :: rest) with ((pre ++ [g]) ++ rest) by (by rewrite <- app_assoc). rewrite <- Hlen.
  destruct (Z.eqb_spec g 0) as [->|Hg].
  - set (st := if (len current =? 0)%nat then length pre else start current).
    assert (Hst : (st + len current = length pre)%nat).
    { unfold st. destruct (Nat.eqb_spec (len current) 0) as [E|]; [lia | apply Hce; lia]. }
    clearbody st. assert (Hrun : is_run (pre ++ [0]) st (len current + 1)).
    { intros k Hk. destruct (decide (k = length pre)) as [->|]; [by rewrite lookup_app_r, Nat.sub_diag by lia|].
      rewrite lookup_app_l by lia. apply Hc. destruct (decide (len current = 0%nat)); [lia|]. specialize (Hce ltac:(lia)). lia. }
    assert (Hshort : ∀ s n, (0 < n)%nat → is_run (pre ++ [0]) s n → (s + n = S (length pre))%nat → (n ≤ len current + 1)%nat).
    { intros s n Hn Hr Hend. destruct (decide (n = 1%nat)); [lia|]. assert (n - 1 ≤ len current)%nat; [|lia].
      apply (Hcl s); [lia | | lia]. intros k Hk. specialize (Hr k ltac:(lia)). by rewrite lookup_app_l in Hr by lia. }
    apply IH; cbn [start len].
    + split; [done|]. rewrite Hlen. split; [intros _; cbn [start len]; lia|]. intros s n Hn Hr Hend. by apply (Hshort s).
    + split; [by case_match|]. intros s n Hn Hr. pose proof (run_in _ _ _ Hn Hr) as Hin. rewrite Hlen in Hin.
      assert (Hlb : (0 < len longest)%nat → (start longest + len longest ≤ length pre)%nat) by (intros; by apply run_in).
      destruct (decide (s + n = S (length pre))%nat) as [Hend|].
      * pose proof (Hshort s n Hn Hr Hend). destruct (Nat.ltb_spec (len longest) (len current + 1)); cbn [start len]; lia.
      * destruct (Hll s n Hn) as [H1 H2]; [by apply run_app in Hr; [|lia]|].
        destruct (Nat.ltb_spec (len longest) (len current + 1)); cbn [start len]; lia.
  - apply IH.
    + split; [intros k ?; cbn in *; lia|]. split; [cbn; lia|]. intros s n Hn Hr Hend. specialize (Hr (length pre) ltac:(lia)).
      rewrite lookup_app_r, Nat.sub_diag in Hr by lia. by injection Hr.
    + split; [done|]. intros s n Hn Hr. apply Hll; [done|]. pose proof (run_in _ _ _ Hn Hr) as Hin. rewrite Hlen in Hin.
      destruct (decide (s + n = S (length pre))%nat); [|by apply run_app in Hr; [|lia]].
      specialize (Hr (length pre) ltac:(lia)). rewrite lookup_app_r, Nat.sub_diag in Hr by lia. by injection Hr.
Qed.

Lemma zeroes_spec segs : longest_run segs (start (zeroes segs)) (len (zeroes segs)).
Proof.
  apply (zero_spans_spec segs [] (MkSpan 0 0) (MkSpan 0 0)).
  - split; [intros k ?; cbn in *; lia|]. split; [cbn; lia|]. intros s n Hn Hr _. specialize (Hr s ltac:(lia)). done.
  - split; [intros k ?; cbn in *; lia|]. intros s n Hn Hr. specialize (Hr s ltac:(lia)). done.
Qed.

Lemma run_split segs s n : (0 < n)%nat → is_run segs s n → segs = take s segs ++ replicate n 0 ++ drop (s + n) segs.
Proof.
  intros Hn Hr. pose proof (run_in _ _ _ Hn Hr) as Hin. rewrite <- (take_drop s segs) at 1. f_equal. rewrite <- (take_drop n (drop s segs)) at 1.
  rewrite drop_drop. f_equal. apply list_eq. intros k. destruct (decide (k < n)%nat).
  - rewrite lookup_take, lookup_drop, decide_True, lookup_replicate_2 by lia. apply Hr. lia.
  - rewrite !lookup_ge_None_2; [done | rewrite length_replicate; lia | rewrite length_take; lia].
Qed.

(** ** The canonical text of an IPv6 address *)
Inductive canonical6 : Ipv6Addr → bytes → Prop :=
| canonical_mapped v4 t : ipv4_ok v4 → ipv4_text v4 t → canonical6 (to_ipv6_mapped v4) ([58; 58; 102; 102; 102; 102; 58] ++ t)
| canonical_short a s n hs ts : to_ipv4_mapped a = None → longest_run (segments a) s n → (2 ≤ n)%nat →
    hex_texts (take s (segments a)) hs → hex_texts (drop (s + n) (segments a)) ts →
    canonical6 a (joined 58 0 hs ++ [58; 58] ++ joined 58 0 ts)
| canonical_full a ts : to_ipv4_mapped a = None → (∀ s n, is_run (segments a) s n → (n ≤ 1)%nat) →
    hex_texts (segments a) ts → canonical6 a (joined 58 0 ts).

Lemma v6_pieces_text a : ipv6_ok a → ∃ ps, v6_pieces a = Some ps ∧ canonical6 a (concat ps).
Proof.
  intros Ha. destruct (segments_ok a Ha) as (_ & Hu & _). unfold v6_pieces. destruct (to_ipv4_mapped a) as [v4|] eqn:Hm.
  { destruct (mapped_inv a v4 Ha Hm) as [-> Hv4]. destruct (v4_pieces_text v4 Hv4) as (ps & -> & Ht). cbn [mbind option_bind].
    eexists. split; [done|]. by apply (canonical_mapped v4 (concat ps)). }
  pose proof (zeroes_spec (segments a)) as Hz. destruct (zeroes (segments a)) as [s n]. cbn [start len] in *.
  destruct (Nat.ltb_spec 1 n) as [Hn|Hn].
  - destruct (fmt_subslice_text (take s (segments a))) as (pl & tl & -> & Htl & Hcl); [by apply Forall_take|].
    destruct (fmt_subslice_text (drop (s + n) (segments a))) as (pr & tr & -> & Htr & Hcr); [by apply Forall_drop|].
    cbn [mbind option_bind]. eexists. split; [done|]. rewrite concat_app, Hcl. cbn [concat]. rewrite Hcr. by apply (canonical_short a s n).
  - destruct (fmt_subslice_text (segments a) Hu) as (ps & ts & -> & Hts & Heq). eexists. split; [done|]. rewrite Heq. apply canonical_full; [done| |done].
    intros s' n' Hr. destruct (decide (n' = 0%nat)) as [->|]; [lia|]. destruct Hz as [_ Hz]. destruct (Hz s' n' ltac:(lia) Hr). lia.
Qed.

Lemma canonical_text a b : ipv6_ok a → canonical6 a b → ipv6_text a b.
Proof.
  intros Ha Hb. destruct Hb as [v4 t Hv4 Ht | a s n hs ts _ [Hr _] Hn Hhs Hts | a ts _ _ Hts].
  - by apply mapped_text.
  - destruct (segments_ok a Ha) as (Hback & Hu & H8). pose proof (run_in (segments a) s n ltac:(lia) Hr) as Hin.
    pose proof (ipv6_short false _ _ _ _ (hex_groups _ _ (Forall_take _ s _ Hu) Hhs) (hex_groups _ _ (Forall_drop _ (s + n) _ Hu) Hts)) as H.
    rewrite length_take, length_drop, H8 in H. rewrite H8 in Hin. rewrite (Nat.min_l s) in H by lia.
    replace (8 - s - (8 - (s + n)))%nat with n in H by lia. rewrite <- (run_split (segments a) s n ltac:(lia) Hr), Hback in H. apply H. lia.
  - destruct (segments_ok a Ha) as (Hback & Hu & H8). pose proof (ipv6_full false _ _ (hex_groups _ _ Hu Hts) H8) as H. by rewrite Hback in H.
Qed.

(** ** Lengths: the buffers are large enough *)
Lemma joined_length sep m ts : ∀ i, Forall (λ t, (length t ≤ m)%nat) ts → (length (joined sep i ts) ≤ length ts * (m + 1))%nat.
Proof.
  induction ts as [|t ts IH]; intros i Hts; [done|]. apply Forall_cons in Hts as [Ht Hts]. cbn [joined]. rewrite !length_app.
  specialize (IH (S i) Hts). cbn [length]. destruct (0 <? i)%nat; cbn [length]; lia.
Qed.
Lemma joined_length_0 sep m ts : Forall (λ t, (length t ≤ m)%nat) ts → (length (joined sep 0 ts) ≤ length ts * (m + 1) - 1)%nat.
Proof.
  destruct ts as [|t ts]; intros Hts; [done|]. apply Forall_cons in Hts as [Ht Hts]. cbn [joined]. rewrite !length_app.
  pose proof (joined_length sep m ts 1 Hts). cbn [length Nat.ltb Nat.leb]. lia.
Qed.

Lemma texts_length w radix m zp ns ts : Forall2 (number_text w radix (Some m) zp) ns ts → Forall (λ t, (length t ≤ m)%nat) ts.
Proof.
  induction 1 as [|n t ns ts (ds & Hd & (_ & Hm & _) & _) _ IH]; constructor; [|done]. apply Forall2_length in Hd. specialize (Hm m eq_refl). lia.
Qed.

Lemma ipv4_length a b : ipv4_text a b → (length b ≤ 15)%nat.
Proof. intros (ts & Hl & Hts & ->). pose proof (joined_length_0 46 3 ts (texts_length _ _ _ _ _ _ Hts)). lia. Qed.

Lemma hex_texts_length gs ts : Forall u16_ok gs → hex_texts gs ts → (length (joined 58 0 ts) ≤ length gs * 5 - 1)%nat.
Proof.
  intros Hgs Hts. pose proof (Forall2_length _ _ _ Hts) as ->. apply (joined_length_0 58 4).
  apply (texts_length 16 16 4 true gs). apply Forall2_same_length_lookup. split; [by eapply Forall2_length|].
  intros k g t Hg Ht. apply hex_numeral_h16; [by apply (Forall_lookup_1 _ _ _ _ Hgs Hg)|]. by apply (Forall2_lookup_lr _ _ _ _ _ _ Hts Hg Ht).
Qed.

Lemma ipv6_length a b : ipv6_ok a → canonical6 a b → (length b ≤ 39)%nat.
Proof.
  intros Ha Hb. destruct Hb as [v4 t Hv4 Ht | a s n hs ts _ [Hr _] Hn Hhs Hts | a ts _ _ Hts].
  - rewrite length_app. pose proof (ipv4_length _ _ Ht). cbn. lia.
  - destruct (segments_ok a Ha) as (_ & Hu & H8). pose proof (run_in (segments a) s n ltac:(lia) Hr) as Hin.
    pose proof (hex_texts_length _ _ (Forall_take _ s _ Hu) Hhs) as H1. pose proof (hex_texts_length _ _ (Forall_drop _ (s + n) _ Hu) Hts) as H2.
    rewrite length_take in H1. rewrite length_drop in H2. rewrite !length_app. cbn [length]. lia.
  - destruct (segments_ok a Ha) as (_ & Hu & H8). pose proof (hex_texts_length _ _ Hu Hts). lia.
Qed.

Lemma decimal_length w n m b : width_ok w → 0 ≤ n < 2 ^ w → 2 ^ w ≤ 10 ^ Z.of_nat m → (0 < m)%nat → decimal w n = Some b → (length b ≤ m)%nat.
Proof.
  intros Hw Hn Hm Hm0 Hb. destruct (decimal_text w n Hw Hn) as (ds & Hd & Hnum). rewrite Hb in Hd. injection Hd as ->.
  unfold of_digits. rewrite length_fmap. apply (numeral_digits 10 n); [lia | done | lia | done].
Qed.

Lemma write_all_fits SIZE ps : ∀ buf, (length buf + length (concat ps) ≤ SIZE)%nat → write_all SIZE buf ps = Some (buf ++ concat ps).
Proof.
  induction ps as [|p ps IH]; intros buf Hle; cbn [write_all concat] in *; [by rewrite app_nil_r|]. rewrite length_app in Hle.
  unfold write_str. rewrite (proj2 (Nat.leb_le _ _)) by lia. cbn [mbind option_bind]. rewrite IH by (rewrite length_app; lia). by rewrite app_assoc.
Qed.

Lemma emit_spec SIZE opt ps : (length (concat ps) ≤ SIZE)%nat → emit SIZE opt (Some ps) = Some (pad opt (concat ps)).
Proof.
  intros Hle. unfold emit. cbn [mbind option_bind]. destruct (no_alignment opt) eqn:Hn.
  - unfold pad. unfold no_alignment in Hn. by rewrite Hn.
  - by rewrite (write_all_fits SIZE ps []).
Qed.
