(* ===== verification/NetTheorems.v ===== *)
(** The properties of Internet addresses. *)

From S2P Require Import Prelude Words IntFmt IntFmtSpec IntParse Duration NetAddr NetSpec NetShow.

#[local] Open Scope Z_scope.

(** ** Texts are bytes *)
Lemma digits_bytes radix ds b : digits_text radix ds b → Forall byte_ok b.
Proof.
  induction 1 as [|d c ds b Hc _ IH]; constructor; [|done]. unfold digit_value in Hc. unfold byte_ok.
  destruct (Z.leb_spec 48 c), (Z.leb_spec c 57), (Z.leb_spec 97 c), (Z.leb_spec c 122), (Z.leb_spec 65 c), (Z.leb_spec c 90);
    cbn [andb mbind option_bind] in Hc; try done; lia.
Qed.
Lemma number_bytes w radix m zp n b : number_text w radix m zp n b → Forall byte_ok b.
Proof. intros (ds & Hd & _). by eapply digits_bytes. Qed.

Lemma joined_bytes sep ts : byte_ok sep → ∀ i, Forall (Forall byte_ok) ts → Forall byte_ok (joined sep i ts).
Proof.
  intros Hsep. induction ts as [|t ts IH]; intros i Hts; [constructor|]. apply Forall_cons in Hts as [Ht Hts]. cbn [joined].
  apply Forall_app. split; [destruct (0 <? i)%nat; repeat constructor; apply Hsep|]. apply Forall_app. split; [done | by apply IH].
Qed.
Lemma numbers_bytes w radix m zp ns ts : Forall2 (number_text w radix m zp) ns ts → Forall (Forall byte_ok) ts.
Proof. induction 1 as [|n t ns ts Ht _ IH]; constructor; [by eapply number_bytes | done]. Qed.

Lemma ipv4_bytes a b : ipv4_text a b → Forall byte_ok b.
Proof. intros (ts & _ & Hts & ->). apply joined_bytes; [done|]. by eapply numbers_bytes. Qed.
Lemma groups_bytes i v4 gs b : groups_text i v4 gs b → Forall byte_ok b.
Proof.
  intros [gs' ts Hts | gs' ts a t Hts Ha]; (apply joined_bytes; [done|]); [by eapply numbers_bytes|].
  apply Forall_app. split; [by eapply numbers_bytes|]. constructor; [by eapply ipv4_bytes | constructor].
Qed.
Lemma ipv6_bytes a b : ipv6_text a b → Forall byte_ok b.
Proof.
  intros [v4 gs t Hgs _ | v4 hd tl bh bt Hhd Htl _]; [by eapply groups_bytes|].
  apply Forall_app. split; [by eapply groups_bytes|]. apply Forall_app. split; [by repeat constructor | by eapply groups_bytes].
Qed.
Lemma ip_bytes a b : ip_text a b → Forall byte_ok b.
Proof. intros [? ? H | ? ? H]; [by eapply ipv4_bytes | by eapply ipv6_bytes]. Qed.
Lemma sock4_bytes a b : sock4_text a b → Forall byte_ok b.
Proof.
  intros [a' p t bp Ha Hp]. apply Forall_app. split; [by eapply ipv4_bytes|]. constructor; [done | by eapply number_bytes].
Qed.
Lemma sock6_bytes a b : sock6_text a b → Forall byte_ok b.
Proof.
  assert (Hend : ∀ p bp, port_text p bp → Forall byte_ok (93 :: 58 :: bp)) by (intros p bp Hp; do 2 (constructor; [done|]); by eapply number_bytes).
  intros [a' p t bp Ha Hp | a' p i t bp bi Ha Hp Hi]; (constructor; [done|]); (apply Forall_app; split; [by eapply ipv6_bytes|]); [by eapply Hend|].
  constructor; [done|]. apply Forall_app. split; [by eapply number_bytes | by eapply Hend].
Qed.

(** ** Properties *)

(** C37: The address parsers accept exactly their grammars (dotted decimal octets
    without leading zeros; IPv6 groups of up to four hexadecimal digits, with one [::]
    for at least one zero group and an embedded IPv4 address at the end; ports and
    scopes of any number of digits that fit): for any bytes a parser returns, without
    a panic or an overflow, the address whose text they are, or else the error of its
    kind. *)
Theorem net_parse_exact (b : bytes) (Hb : Forall byte_ok b) :
  let exact {A} (parse : bytes → option (A + AddrKind)) (text : A → bytes → Prop) kind :=
    ∃ r, parse b = Some r ∧ (∀ a, r = inl a ↔ text a b) ∧ (∀ k, r = inr k → k = kind) in
  exact parse_v4 ipv4_text KIpv4 ∧ exact parse_v6 ipv6_text KIpv6 ∧ exact parse_ip ip_text KIp ∧
  exact parse_sock4 sock4_text KSocketV4 ∧ exact parse_sock6 sock6_text KSocketV6 ∧ exact parse_sock sock_text KSocket.
Proof.
  cbn zeta beta. split; [|split; [by apply (parse_exact read_ipv6_addr ipv6_text)|]; split; [by apply (parse_exact read_ip_addr ip_text)|];
    split; [by apply (parse_exact read_socket_addr_v4 sock4_text)|]; split; [by apply (parse_exact read_socket_addr_v6 sock6_text)|];
    by apply (parse_exact read_socket_addr sock_text)].
  unfold parse_v4. destruct (Nat.ltb_spec 15 (length b)) as [Hlen|Hlen]; [|by apply (parse_exact read_ipv4_addr ipv4_text)].
  exists (inr KIpv4). split; [done|]. split; [|by intros k [= <-]]. intros a. split; [done|]. intros Ht%ipv4_length. lia.
Qed.

Lemma net_parse_exact_witness :
  (parse_v6 [49; 58; 58; 50; 58; 58; 51] = Some (inr KIpv6) ∧ parse_sock6 [91; 58; 58; 49; 37; 55; 93; 58; 56; 48] =
     Some (inl (SockV6 (Ipv6 (replicate 15 0 ++ [1])) 80 0 7))) ∧
  ∃ r, parse_v4 [49; 46; 50; 46; 51; 46; 52] = Some r ∧ (∀ a, r = inl a ↔ ipv4_text a [49; 46; 50; 46; 51; 46; 52]) ∧ (∀ k, r = inr k → k = KIpv4).
Proof.
  split; [vm_compute; done|]. pose proof (net_parse_exact [49; 46; 50; 46; 51; 46; 52] ltac:(by repeat constructor)) as H.
  cbn zeta in H. apply H.
Defined.

Definition sock4_ok (a : SocketAddrV4) : Prop := ipv4_ok (ip4 a) ∧ 0 ≤ port4 a < 2 ^ 16.
Definition sock6_ok (a : SocketAddrV6) : Prop := ipv6_ok (ip6 a) ∧ 0 ≤ port6 a < 2 ^ 16 ∧ 0 ≤ scope_id a < 2 ^ 32.

Lemma port_spec p : 0 ≤ p < 2 ^ 16 → ∃ b, decimal 16 p = Some b ∧ port_text p b ∧ (length b ≤ 5)%nat.
Proof.
  intros Hp. assert (Hw : width_ok 16) by (by right; left). destruct (decimal_text 16 p Hw Hp) as (ds & Hd & Hnum). exists (of_digits ds).
  split; [done|]. split; [by apply decimal_number_text; [|lia|]|]. by apply (decimal_length 16 p 5); [..|lia|].
Qed.
Lemma scope_spec i : 0 ≤ i < 2 ^ 32 → ∃ b, decimal 32 i = Some b ∧ scope_text i b ∧ (length b ≤ 10)%nat.
Proof.
  intros Hi. assert (Hw : width_ok 32) by (by right; right; left). destruct (decimal_text 32 i Hw Hi) as (ds & Hd & Hnum). exists (of_digits ds).
  split; [done|]. split; [by apply decimal_number_text; [|lia|]|]. by apply (decimal_length 32 i 10); [..|lia|].
Qed.

Lemma display_v4_spec opt a : ipv4_ok a → ∃ b, display_v4 opt a = Some (pad opt b) ∧ ipv4_text a b.
Proof.
  intros Ha. destruct (v4_pieces_text a Ha) as (ps & Hps & Ht). exists (concat ps). split; [|done].
  unfold display_v4. rewrite Hps. apply emit_spec. by eapply ipv4_length.
Qed.
Lemma display_v6_spec opt a : ipv6_ok a → ∃ b, display_v6 opt a = Some (pad opt b) ∧ canonical6 a b.
Proof.
  intros Ha. destruct (v6_pieces_text a Ha) as (ps & Hps & Ht). exists (concat ps). split; [|done].
  unfold display_v6. rewrite Hps. apply emit_spec. by eapply ipv6_length.
Qed.
Lemma display_sock4_spec opt a : sock4_ok a → ∃ b, display_sock4 opt a = Some (pad opt b) ∧ sock4_text a b.
Proof.
  intros [Ha Hp]. destruct (v4_pieces_text (ip4 a) Ha) as (ps & Hps & Ht). destruct (port_spec (port4 a) Hp) as (bp & Hbp & Hpt & Hl).
  unfold display_sock4, sock4_pieces. rewrite Hps, Hbp. cbn [mbind option_bind]. pose proof (ipv4_length _ _ Ht).
  exists (concat ps ++ 58 :: bp). assert (concat (ps ++ [[58]; bp]) = concat ps ++ 58 :: bp) as Hc by (rewrite concat_app; cbn; by rewrite app_nil_r).
  split; [|destruct a; by constructor]. rewrite <- Hc. apply emit_spec. rewrite Hc, length_app. cbn. lia.
Qed.
Lemma display_sock6_spec opt a : sock6_ok a → ∃ b, display_sock6 opt a = Some (pad opt b) ∧ sock6_text (SockV6 (ip6 a) (port6 a) 0 (scope_id a)) b.
Proof.
  intros (Ha & Hp & Hi). destruct (v6_pieces_text (ip6 a) Ha) as (ps & Hps & Ht). destruct (port_spec (port6 a) Hp) as (bp & Hbp & Hpt & Hl).
  destruct (scope_spec (scope_id a) Hi) as (bi & Hbi & Hit & Hli). pose proof (ipv6_length _ _ Ha Ht) as Hl6.
  pose proof (canonical_text _ _ Ha Ht) as Ht6. unfold display_sock6, sock6_pieces. rewrite Hps, Hbp, Hbi. cbn [mbind option_bind].
  destruct (Z.eqb_spec (scope_id a) 0) as [Hz|_].
  - exists (91 :: concat ps ++ 93 :: 58 :: bp). rewrite Hz. split; [|by constructor].
    assert (concat ([91] :: ps ++ [[93; 58]; bp]) = 91 :: concat ps ++ 93 :: 58 :: bp) as Hc by (cbn; rewrite concat_app; cbn; by rewrite app_nil_r).
    rewrite <- Hc. apply emit_spec. rewrite Hc. cbn. rewrite length_app. cbn. lia.
  - exists (91 :: concat ps ++ 37 :: bi ++ 93 :: 58 :: bp). split; [|by constructor].
    assert (concat ([91] :: ps ++ [[37]; bi; [93; 58]; bp]) = 91 :: concat ps ++ 37 :: bi ++ 93 :: 58 :: bp) as Hc
      by (cbn; rewrite concat_app; cbn; by rewrite app_nil_r).
    rewrite <- Hc. apply emit_spec. rewrite Hc. cbn. rewrite length_app. cbn. rewrite length_app. cbn. lia.
Qed.

(** What a parser makes of a text of its grammar *)
Lemma parse_text {A} (p : parser A) T `{!Recognises p T} kind a b : Forall byte_ok b → T a b → parse_with p kind b = Some (inl a).
Proof. intros Hb Ht. unfold parse_with. by rewrite (recognises_complete a b Hb Ht). Qed.

(** C38: Printing and parsing of addresses: for all formatting options [Display] of an
    address writes one text, padded (the local buffers are never too small), and
    every parser of that kind reads the text back to the address, except that the flow
    label of an IPv6 socket address is not written: it is read back as zero, and the
    address itself is read back exactly when its label is zero.  For IPv4 addresses the text is the only one
    that is read as the address; for IPv6 addresses it is the canonical one, lower
    case without leading zeros, where [::] stands for the first of the longest runs of
    at least two zero groups, and mapped addresses are written as such. *)
Theorem net_print_parse (opt : options) (a4 : Ipv4Addr) (a6 : Ipv6Addr) (s4 : SocketAddrV4) (s6 : SocketAddrV6)
    (H4 : ipv4_ok a4) (H6 : ipv6_ok a6) (Hs4 : sock4_ok s4) (Hs6 : sock6_ok s6) :
  (∃ b, display_v4 opt a4 = Some (pad opt b) ∧ parse_v4 b = Some (inl a4) ∧ parse_ip b = Some (inl (V4 a4)) ∧
    ∀ b', Forall byte_ok b' → parse_v4 b' = Some (inl a4) → b' = b) ∧
  (∃ b, display_v6 opt a6 = Some (pad opt b) ∧ canonical6 a6 b ∧ parse_v6 b = Some (inl a6) ∧ parse_ip b = Some (inl (V6 a6))) ∧
  (∃ b, display_sock4 opt s4 = Some (pad opt b) ∧ parse_sock4 b = Some (inl s4) ∧ parse_sock b = Some (inl (SV4 s4))) ∧
  (∃ b, let s6' := SockV6 (ip6 s6) (port6 s6) 0 (scope_id s6) in
    display_sock6 opt s6 = Some (pad opt b) ∧ parse_sock6 b = Some (inl s6') ∧ parse_sock b = Some (inl (SV6 s6')) ∧
    (s6' = s6 ↔ flowinfo s6 = 0)).
Proof.
  split; [|split; [|split]].
  - destruct (display_v4_spec opt a4 H4) as (b & Hd & Ht). pose proof (ipv4_bytes _ _ Ht) as Hb. pose proof (ipv4_length _ _ Ht) as Hl.
    exists b. split; [done|]. unfold parse_v4 at 1. rewrite (proj2 (Nat.ltb_ge 15 (length b))) by done.
    split; [by apply (parse_text read_ipv4_addr ipv4_text)|]. split; [apply (parse_text read_ip_addr ip_text); [done | by constructor]|].
    intros b' Hb' Hp. unfold parse_v4 in Hp. destruct (15 <? length b')%nat; [done|].
    destruct (parse_exact read_ipv4_addr ipv4_text KIpv4 b' Hb') as (r & Hr & Hiff & _). rewrite Hp in Hr. injection Hr as <-.
    pose proof (proj1 (Hiff a4) eq_refl) as Ht'. apply ipv4_text_iff in Ht as [_ Ht], Ht' as [_ Ht']. congruence.
  - destruct (display_v6_spec opt a6 H6) as (b & Hd & Hc). pose proof (canonical_text _ _ H6 Hc) as Ht. pose proof (ipv6_bytes _ _ Ht) as Hb.
    exists b. split; [done|]. split; [done|]. split; [by apply (parse_text read_ipv6_addr ipv6_text) | apply (parse_text read_ip_addr ip_text); [done | by constructor]].
  - destruct (display_sock4_spec opt s4 Hs4) as (b & Hd & Ht). pose proof (sock4_bytes _ _ Ht) as Hb.
    exists b. split; [done|]. split; [by apply (parse_text read_socket_addr_v4 sock4_text) | apply (parse_text read_socket_addr sock_text); [done | by constructor]].
  - destruct (display_sock6_spec opt s6 Hs6) as (b & Hd & Ht). pose proof (sock6_bytes _ _ Ht) as Hb.
    exists b. cbn zeta. split; [done|]. split; [by apply (parse_text read_socket_addr_v6 sock6_text)|].
    split; [apply (parse_text read_socket_addr sock_text); [done | by constructor]|].
    destruct s6. cbn. split; congruence.
Qed.

Lemma net_print_parse_witness :
  let a4 := Ipv4 [127; 0; 0; 1] in let a6 := from_segments [8193; 3512; 0; 0; 1; 0; 0; 1] in
  display_v6 plain a6 = Some [50; 48; 48; 49; 58; 100; 98; 56; 58; 58; 49; 58; 48; 58; 48; 58; 49] ∧
  display_sock6 plain (SockV6 (from_segments [0; 0; 0; 0; 0; 0; 0; 1]) 80 7 0) = Some [91; 58; 58; 49; 93; 58; 56; 48] ∧
  parse_sock6 [91; 58; 58; 49; 93; 58; 56; 48] = Some (inl (SockV6 (from_segments [0; 0; 0; 0; 0; 0; 0; 1]) 80 0 0)) ∧
  ∃ b, display_v6 plain a6 = Some (pad plain b) ∧ canonical6 a6 b ∧ parse_v6 b = Some (inl a6) ∧ parse_ip b = Some (inl (V6 a6)).
Proof.
  cbn zeta. split; [vm_compute; done|]. split; [vm_compute; done|]. split; [vm_compute; done|].
  assert (H4 : ipv4_ok (Ipv4 [127; 0; 0; 1])) by (split; [done | by repeat constructor]).
  assert (H6 : ipv6_ok (from_segments [8193; 3512; 0; 0; 1; 0; 0; 1])) by (split; [done | by repeat constructor]).
  apply (net_print_parse plain (Ipv4 [127; 0; 0; 1]) (from_segments [8193; 3512; 0; 0; 1; 0; 0; 1])
    (SockV4 (Ipv4 [127; 0; 0; 1]) 80) (SockV6 (from_segments [8193; 3512; 0; 0; 1; 0; 0; 1]) 80 0 0)); try done.
Defined.

(** ** Conversions *)
Lemma from_be_bytes_snoc bs b : from_be_bytes (bs ++ [b]) = from_be_bytes bs * 256 + b.
Proof. unfold from_be_bytes. by rewrite foldl_app. Qed.

Lemma be_bytes_roundtrip bs : Forall byte_ok bs → to_be_bytes (length bs) (from_be_bytes bs) = bs ∧ 0 ≤ from_be_bytes bs < 256 ^ Z.of_nat (length bs).
Proof.
  induction bs as [|b bs IH] using rev_ind; intros Hbs; [done|]. apply Forall_app in Hbs as [Hbs Hb]. apply Forall_cons in Hb as [Hb _].
  destruct (IH Hbs) as [Hr Hv]. unfold byte_ok in Hb. rewrite from_be_bytes_snoc, length_app. cbn [length]. rewrite Nat.add_1_r. cbn [to_be_bytes].
  assert ((from_be_bytes bs * 256 + b) / 256 = from_be_bytes bs) as -> by (symmetry; apply (Z.div_unique _ _ _ b); lia).
  assert ((from_be_bytes bs * 256 + b) mod 256 = b) as -> by (symmetry; apply (Z.mod_unique _ _ (from_be_bytes bs)); lia).
  rewrite Hr, Nat2Z.inj_succ, Z.pow_succ_r by lia. split; [done | lia].
Qed.

(** Addresses are numbers of 32 and 128 bits, and an IPv4 address is found again in the
    IPv6 address that it is mapped to. *)
Theorem net_conversions (a4 : Ipv4Addr) (a6 : Ipv6Addr) (H4 : ipv4_ok a4) (H6 : ipv6_ok a6) :
  (from_bits4 (to_bits4 a4) = a4 ∧ 0 ≤ to_bits4 a4 < 2 ^ 32) ∧ (from_bits6 (to_bits6 a6) = a6 ∧ 0 ≤ to_bits6 a6 < 2 ^ 128) ∧
  from_segments (segments a6) = a6 ∧
  to_ipv4_mapped (to_ipv6_mapped a4) = Some a4 ∧ to_canonical (V6 (to_ipv6_mapped a4)) = V4 a4 ∧ ipv6_ok (to_ipv6_mapped a4).
Proof.
  destruct H4 as [Hl4 Hb4], (segments_ok a6 H6) as (Hseg & _ & _), H6 as [Hl6 Hb6].
  pose proof (be_bytes_roundtrip _ Hb4) as [Hr4 Hv4]. pose proof (be_bytes_roundtrip _ Hb6) as [Hr6 Hv6]. rewrite Hl4 in Hr4, Hv4. rewrite Hl6 in Hr6, Hv6.
  assert (Hmap : to_ipv4_mapped (to_ipv6_mapped a4) = Some a4).
  { unfold to_ipv4_mapped, to_ipv6_mapped. cbn [octets6]. rewrite bool_decide_true by done. by destruct a4. }
  split; [split; [unfold from_bits4, to_bits4; rewrite Hr4; by destruct a4 | exact Hv4]|].
  split; [split; [unfold from_bits6, to_bits6; rewrite Hr6; by destruct a6 | exact Hv6]|].
  split; [done|]. split; [done|]. split; [cbn [to_canonical]; by rewrite Hmap|].
  unfold to_ipv6_mapped. split; cbn [octets6]; [by rewrite !length_app, Hl4|].
  apply Forall_app. split; [by apply Forall_replicate|]. apply Forall_app. split; [by repeat constructor | done].
Qed.
